(* ===== verification/_CoqProject ===== *)
-Q . S2P
Prelude.v
Path.v
Manifest.v
ManifestFacts.v
ManifestSpec.v
Waiters.v
BuildQueue.v
BuildQueueFacts.v
BuildQueueSpec.v
BuildCoordinator.v
BuildCoordinatorFacts.v
Search.v
CoordinatorInv.v
CoordinatorOps.v
CoordinatorSteps.v
CoordinatorSpec.v
DirectoryTree.v
InMemoryTree.v
InMemoryTreeSpec.v
FileSnapshots.v
FileSnapshotsSpec.v
MountTables.v
MountNotifier.v
Mount.v
MountRun.v
MountFacts.v
MountInodes.v
MountRequests.v
MountHandles.v
MountSteps.v
MountOpen.v
MountAnnounce.v
MountCoverage.v
MountPass.v
MountServe.v
MountUnmount.v
MountTold.v
MountSpec.v
RealTree.v
RealDisk.v
RealTreeSpec.v
RealWatch.v
RealWatchFacts.v
RealWatchInv.v
RealWatchTold.v
RealWatchRest.v
RealWatchSpec.v
ReadTracer.v
ReadTracerFacts.v
ReadTracerSpec.v
ProcessUtil.v
ProcessUtilFacts.v
ProcessUtilLog.v
ProcessUtilResults.v
ProcessUtilGiven.v
ProcessUtilEnds.v
ProcessUtilSpec.v
Expand.v
ExpandSpec.v
Cache.v
BuildTree.v
Restore.v
BuildTreeRun.v
BuildTreeFacts.v
Invalidate.v
BuildTreeInv.v
Layout.v
LayoutRules.v
BuildTreeWorld.v
BuildTreeSteps.v
RestoreSpec.v
RestoreWorld.v
BuildTreeThreads.v
BuildTreeSpec.v
BuildCache.v
BuildCacheSpec.v
KeepSpec.v
BuildTreeEx.v
ShellRunner.v
ShellRunnerSpec.v
