(* ===== verification/Prelude.v ===== *)
(** * makebelieve: a verification library

    makebelieve serves a directory in which the outputs of a build are files
    like any other: opening one builds it. This library models the program
    under src/src/ in the order its parts depend on each other, and proves what
    makes each part, and the parts together, correct.

    ** The program

    - [Manifest::parse] (manifest.cpp) reads the rules of [build.makebelieve].
    - [BuildDirectoryTree] (builddirectorytree.cpp) is the tree that is served.
      It expands the rules over the files of a source tree, builds an output
      when it is opened, and marks outputs stale when what they read changes.
    - [BuildCoordinator] (buildcoordinator.cpp) knows which build attempt waits
      on which, ends the attempts on a cycle, and has an attempt that waits
      give its permit back. [BuildQueue] (buildqueue.hpp) hands the permits
      out, in lines of its own ([Waiters]).
    - [ShellRunner] (shellrunner.cpp) carries a rule out.
    - [BuildCache] (buildcache.cpp) keeps what was built for the next run.
    - [DirectoryTree] (directorytree.hpp) is the interface of all the trees;
      [InMemoryDirectoryTree] is the one in memory, [FileSnapshots]
      (filesnapshots.cpp) reads versions of a tree's files for a file system.
    - [RealDirectoryTree] (realdirectorytree-linux.cpp) is the tree over a
      directory on disk, which it watches for changes.
    - [ProcessUtil] (processutil-linux.cpp) runs a command with a view of the
      source of its own, and says what it read.
    - [VirtualFileSystem] (virtualfilesystem-linux.cpp) serves a tree through
      FUSE: it answers the kernel's requests, an open once the tree has settled
      the file, and tells the kernel of changes by making them itself.

    ** The files, and the code each models

    - Prelude: lists of bytes, decimal and hexadecimal numbers, wrap-around at
      64 bits, association lists, and the tactics and hints all share.
    - Path: [std::filesystem::path] on POSIX, as far as the sources use it.
    - Manifest, ManifestFacts, ManifestSpec: manifest.cpp. One iteration of the
      parser's loop is [parse_line] in an error monad.
    - Waiters: the linked lists of buildqueue.hpp, refined to sequences.
    - BuildQueue, BuildQueueFacts, BuildQueueSpec: buildqueue.hpp. An event is a
      locked block or a completion; a list of events is an interleaving.
    - BuildCoordinator and its Facts, Search, CoordinatorInv, CoordinatorOps,
      CoordinatorSteps, CoordinatorSpec: buildcoordinator.cpp. The state is all
      the lock guards; what is left to do after it is released is a list of
      pending effects that later events carry out.
    - DirectoryTree: the interface as a class with laws, and the comparison of
      two trees (directorytreeutil.cpp) proved against those laws alone.
      InMemoryTree, InMemoryTreeSpec: the instance in memory.
    - FileSnapshots, FileSnapshotsSpec: takes as coroutines between whose steps
      the tree changes; snapshots with reference counts and deleters.
    - Expand, ExpandSpec: the functions outside the class in
      builddirectorytree.cpp, reading whole files and expanding rules included.
    - Cache: what a cache keeps, and the class the tree calls one through.
    - BuildTree: [Impl]'s members and one definition per stretch of code that
      runs under its locks. BuildTreeRun composes the stretches as the code
      calls them, run by threads that interleave at every release of a lock.
      Restore: [restore_from_cache]. Invalidate: that [invalidate] is exact.
      BuildTreeFacts, BuildTreeInv, Layout, LayoutRules, BuildTreeWorld,
      BuildTreeSteps: the invariants, group by group. RestoreSpec,
      RestoreWorld: restoring. BuildTreeThreads: what a thread waits for is
      another thread's to do. BuildTreeSpec: the tree's promises.
    - BuildCache, BuildCacheSpec: the tables and content files of a cache, each
      member as lasting effects with a possible crash between any two and
      faults of the calls underneath; [BuildCache] is an instance of [Cache].
    - KeepSpec: what one run keeps is what a later run restores. BuildTreeEx: a
      source, a cache and an open under way that the tree's theorems apply to.
    - ShellRunner, ShellRunnerSpec: shellrunner.cpp, over an environment that
      supplies the file system and the process.
    - MountTables, MountNotifier, Mount, MountRun: virtualfilesystem-linux.cpp.
      The tables and what a read or a listing gives; the notifier's queue and
      the opens it holds back; the members of [Impl], its coroutines and the
      kernel as one state; and a step for each stretch of code one thread runs
      under a lock or between two, in any order. MountFacts, MountInodes,
      MountRequests, MountHandles, MountSteps: the invariants of each step.
      MountOpen: what stays over a run. MountAnnounce, MountCoverage,
      MountPass: the notifier, what it has announced and that its passes end.
      MountTold: what the notifier does, read off a run, and that what counts
      as announced was told by the calls that tell it.
      MountServe, MountUnmount: that requests are served and the destructor
      comes to its end. MountSpec: what the mount promises.
    - RealTree: the queries of realdirectorytree-linux.cpp in terms of its
      system calls; RealDisk: a disk that answers them; RealTreeSpec: the loops,
      and the laws of trees for it. RealWatch: add_watch and drain_events as
      steps, beside a disk anyone may change and inotify's bounded queue.
      RealWatchFacts, RealWatchInv, RealWatchTold, RealWatchRest: what changes
      leave, the invariants of the watch, what is owed to subscribers, and the
      measure its steps lower. RealWatchSpec: what the real tree promises.
    - ReadTracer: [Tracer] of processutil-linux.cpp, which serves a command its
      view of the source and records what it opens, each request against what
      the system calls give then; ReadTracerFacts: a session as a run of
      requests, and the invariants of each; ReadTracerSpec: what is reported.
    - ProcessUtil: run_traced, supervise, TracingSession and the child of
      processutil-linux.cpp, a step for each stretch between two waits or calls
      that can fail; ProcessUtilFacts, ProcessUtilLog, ProcessUtilResults,
      ProcessUtilGiven, ProcessUtilEnds: where the coroutines and the child are
      relative to each other, what is done in what order, what is collected and
      given, and the measure. ProcessUtilSpec: what running a command promises.
    ** What the theorems show

    - Parsing: every line is accounted for; two rules never produce the same
      path nor one inside the other's; the checks for overlap and for endless
      rules say yes exactly when they should.
    - The queue and the coordinator: slots add up and go to the head of the
      line; requests are answered exactly when they must be; no attempt waits,
      by the requests it made or the output it stands behind at, for itself,
      directly or not; a cycle ends its attempts; completing tells everyone; permits follow
      waits and come back.
    - The tree: no thread is stuck but on what another thread goes on to do, or
      on itself in a copy of an output to itself; each attempt completes at most once
      and is always owed by someone; what is served is what is declared;
      an open waits for the right build; [invalidate] marks exactly what
      reads, transitively, what changed; restoring serves exactly the records
      that hold; expansion ends with exactly the outputs the rules in force
      give.
    - The cache: through failures, crashes and reopening every record has its
      content in place; what is stored is read back; forgetting is exact.
    - The runner: a build is what its command left, generated words become
      paths in the mount, whatever the shell makes of the rest.
    - The trees: mutators are exact and reported, the comparison is exact,
      snapshots are of one version.
    - The mount: each request is answered once; inodes are there for exactly as
      long as the kernel may use them, and are one version of their file;
      an open file never changes; nobody is answered before the change they
      are given was told, by a call through the kernel; passes end with
      everything told; the
      mount can always be taken down; only the notifier writes.
    - The real tree: it keeps the laws of trees where all can be opened, and
      gives the error of opening where not; a file that others write is read
      as it was at one moment, if its size or time show the change; at rest
      every directory is watched under its own name, unless the queue
      overflowed or a call of add_watch failed; changes are told to every
      subscriber; the watch comes to rest. Two theorems show where it falls short of its interface.
    - The tracer of reads: what is reported of a run is exactly the files it
      opened, each by the names it was first reached by and of the identity it
      was given with; it lets go of all it opened; a listing is whole. Two examples show where one path per inode falls short.
    - Running a command: it runs only while it is tracked and served, and is
      gone and forgotten by the end; results are exactly what it wrote, unless
      its pipe could not be read, what it read and ended with; runs end; exit statuses come through. Three examples show what
      a lost message, a dead child and a lack of memory do.
    ** Fuel

    Recursion that is not structural runs on fuel, and each such loop is
    proved to end within what it is given, so no theorem is about a loop cut
    short: [expand_rounds] takes one more round than there are rules
    (expansion_ends), [invalidate_loop] what [invalidate_fuel] computes from
    the readers and outputs (invalidation_is_exact), [record_holds] one more
    than the records there are (restored_is_what_holds), the searches of the
    wait graph the attempts there are (Search), [read_all] the bytes left and
    one (read_all_reads_whole), the loops of the shell runner the length of the
    text, and the comparison of trees their height (tree_comparison_exact).

    ** What is taken from outside

    The digest of xxHash is a parameter ([xxh3]); where content must be told
    apart by it, that is a hypothesis on the two contents at hand. SQLite's
    transactions take effect as a whole. Clocks, processes and system calls are
    supplied by an oracle or an environment that the theorems range over. Where
    the tree's layout is at stake, the source holds no wildcard that can name a
    file [.] or [..] ([tame_source]): instantiate_can_escape shows what becomes
    of others.

    ** Not modelled

    - Of the build tree: the rows builds are traced on, the check of a stop
      request before an open, the gate that destruction waits at.
    - The sender plumbing: [resolve], [wait_as], schedulers, [spin] and the
      like; what they run is, when they run it is any order of events.
    - Everything for Windows only: realdirectorytree-windows.cpp,
      virtualfilesystem-windows.cpp, processutil-windows.cpp and the hook.
    - Code that only makes system calls: processinfo, the unmount channels, the
      pollers, the console handler; and the experiments.

    ** Still planned

    The recorder of traces (tracer.cpp), the loops of filesystemutil.cpp, the
    timers and handles of iocontext.cpp with linkednode.hpp, the options of
    makebelieve.m.cpp, creating the mount point, and the link between the calls
    BuildTree makes on the coordinator and the coordinator's own model. *)

From Stdlib Require Export Ascii Sorting.Sorted.
From stdpp Require Export base tactics gmap sets fin_maps strings pretty numbers list.
From stdpp Require sorting.

#[global] Set Default Goal Selector "!".

(** ** Strings

    A [std::string] or [std::string_view] is the list of its bytes. *)

Definition str := list ascii.

(** A C++ string literal. *)
Definition lit (s : string) : str := String.list_ascii_of_string s.
Arguments lit s%_string.

Declare Scope mb_scope.
Delimit Scope mb_scope with mb.
#[global] Open Scope mb_scope.

Definition slash : ascii := "/"%char.
Definition star : ascii := "*"%char.
Definition newline : ascii := "010"%char.
Definition quote2 : ascii := "034"%char.
Definition quote1 : ascii := "039"%char.
Definition backtick : ascii := "`"%char.

(** [std::string_view::starts_with] and [ends_with]. *)
Definition starts_with (p s : str) : bool := bool_decide (p `prefix_of` s).
Definition ends_with (p s : str) : bool := bool_decide (p `suffix_of` s).

(** [std::string_view::contains] and [std::ranges::count] of a character. *)
Definition contains_char (c : ascii) (s : str) : bool := bool_decide (c ∈ s).
Definition count_char (c : ascii) (s : str) : nat := length (filter (c =.) s).

(** [std::string_view::find] of a character: the index of the first one. *)
Fixpoint find_char (c : ascii) (s : str) : option nat :=
  match s with
  | [] => None
  | d :: s' => if decide (c = d) then Some 0 else S <$> find_char c s'
  end.

(** The fields of [s] between the separators [c], [S n] of them when [c]
    occurs [n] times. *)
Fixpoint split_on (c : ascii) (s : str) : list str :=
  match s with
  | [] => [[]]
  | d :: s' =>
      if decide (d = c) then [] :: split_on c s'
      else match split_on c s' with
           | f :: fs => (d :: f) :: fs
           | [] => [[d]]
           end
  end.

(** [fs] with [c] between neighbours: the inverse of [split_on]. *)
Fixpoint join_with (c : ascii) (fs : list str) : str :=
  match fs with
  | [] => []
  | [f] => f
  | f :: fs' => f ++ c :: join_with c fs'
  end.

(** [std::format] of strings and numbers: the pieces in order. *)
Definition format (pieces : list str) : str := concat pieces.
Definition show (n : nat) : str := lit (pretty n).

(** [std::uint64_t]'s [++]. *)
Definition next64 (x : Z) : Z := (x + 1) `mod` 2 ^ 64.

(** ** Errors

    [std::error_code]: the zero code, a [std::errc], or a code of one of the
    program's own categories (shellrunner.hpp). *)

Inductive errc :=
  | operation_canceled
  | resource_deadlock_would_occur
  | no_such_file_or_directory
  | is_a_directory
  | invalid_argument
  | not_enough_memory
  | io_error
  | file_exists
  | no_such_process
  | bad_message
  | protocol_error
  | device_or_resource_busy.

Inductive build_error := out_not_written | copy_source_unreadable.

Inductive error_code :=
  | no_error
  | errc_code (e : errc)
  | exit_status_error (status : Z)
  | build_error_code (e : build_error)
  | system_error (code : Z).

#[global] Instance errc_eq_dec : EqDecision errc.
Proof. solve_decision. Defined.
#[global] Instance build_error_eq_dec : EqDecision build_error.
Proof. solve_decision. Defined.
#[global] Instance error_code_eq_dec : EqDecision error_code.
Proof. solve_decision. Defined.

Definition make_error_code (e : errc) : error_code := errc_code e.

(** What a [std::errc] is on Linux. *)
Definition errno_of (e : errc) : Z :=
  match e with
  | operation_canceled => 125
  | resource_deadlock_would_occur => 35
  | no_such_file_or_directory => 2
  | is_a_directory => 21
  | invalid_argument => 22
  | not_enough_memory => 12
  | io_error => 5
  | file_exists => 17
  | no_such_process => 3
  | bad_message => 74
  | protocol_error => 71
  | device_or_resource_busy => 16
  end.

(** [std::expected<A, E>], the error type first so that [expected E] is a monad. *)
Inductive expected (E A : Type) := Value (a : A) | Unexpected (e : E).
Arguments Value {E A} a.
Arguments Unexpected {E A} e.

#[global] Instance expected_eq_dec {E A} `{!EqDecision E, !EqDecision A} :
  EqDecision (expected E A).
Proof. solve_decision. Defined.

Definition has_value {E A} (r : expected E A) : bool :=
  match r with Value _ => true | Unexpected _ => false end.

(** Sequencing: an error returns at once. *)
#[global] Instance expected_ret {E} : MRet (expected E) := fun A a => Value a.
#[global] Instance expected_bind {E} : MBind (expected E) :=
  fun A B f r => match r with Value a => f a | Unexpected e => Unexpected e end.

(** [if (condition) { reject(e); continue; }]: stops with [e] when [b]. *)
Definition reject_if {E} (b : bool) (e : E) : expected E unit :=
  if b then Unexpected e else Value tt.

(** ** Ordered containers

    [std::map] and [std::set] iterate in key order. A finite map stands for the
    container, and [sort_by] of its entries for that iteration; [sort_by] is
    stable, as [std::ranges::stable_sort]. *)

Section sort_by.
Context {A : Type} (leb : A → A → bool).

Fixpoint insert_by (x : A) (l : list A) : list A :=
  match l with
  | [] => [x]
  | y :: l' => if leb x y then x :: l else y :: insert_by x l'
  end.

Definition sort_by (l : list A) : list A := foldr insert_by [] l.
End sort_by.

Fixpoint lex_leb {A} (lt : A → A → bool) (x y : list A) : bool :=
  match x, y with
  | [], _ => true
  | _ :: _, [] => false
  | a :: x', b :: y' => if lt a b then true else if lt b a then false else lex_leb lt x' y'
  end.

(** [std::map::emplace]: an entry already there stays. *)
Definition emplace {K A} `{Countable K} (k : K) (a : A) (m : gmap K A) : gmap K A :=
  match m !! k with Some _ => m | None => <[k:=a]> m end.

(** ** Tactics *)

(** Case analysis on whatever the goal or a hypothesis is stuck on. *)
Ltac break_match_hyp H :=
  match type of H with
  | context [match ?x with _ => _ end] => destruct x eqn:?
  end.
Ltac break_match :=
  match goal with
  | |- context [match ?x with _ => _ end] => destruct x eqn:?
  end.

(** Turns boolean tests into the propositions they decide. *)
Ltac bool_to_prop :=
  repeat match goal with
  | H : negb _ = true |- _ => apply negb_true_iff in H
  | H : negb _ = false |- _ => apply negb_false_iff in H
  | H : _ && _ = true |- _ => apply andb_prop in H; destruct H
  | H : _ || _ = false |- _ => apply orb_false_elim in H; destruct H
  | H : bool_decide _ = true |- _ => apply bool_decide_eq_true in H
  | H : bool_decide _ = false |- _ => apply bool_decide_eq_false in H
  | H : starts_with _ _ = true |- _ => apply bool_decide_eq_true in H
  | H : ends_with _ _ = true |- _ => apply bool_decide_eq_true in H
  | H : starts_with _ _ = false |- _ => apply bool_decide_eq_false in H
  | H : ends_with _ _ = false |- _ => apply bool_decide_eq_false in H
  end.

(** ** Lemmas *)

Lemma starts_with_true p s : starts_with p s = true ↔ p `prefix_of` s.
Proof. apply bool_decide_eq_true. Qed.

Lemma ends_with_true p s : ends_with p s = true ↔ p `suffix_of` s.
Proof. apply bool_decide_eq_true. Qed.

Lemma contains_char_true c s : contains_char c s = true ↔ c ∈ s.
Proof. apply bool_decide_eq_true. Qed.

Lemma contains_char_false c s : contains_char c s = false ↔ c ∉ s.
Proof. apply bool_decide_eq_false. Qed.

Lemma find_char_Some c s i :
  find_char c s = Some i →
  s = take i s ++ c :: drop (S i) s ∧ c ∉ take i s.
Proof.
  revert i. induction s as [|d s IH]; intros i; simpl; [done|].
  case_decide as Hd; subst.
  - intros [= <-]. simpl. split; [done | apply not_elem_of_nil].
  - destruct (find_char c s) as [j|] eqn:Hj; simpl; [|done].
    intros [= <-]. destruct (IH j eq_refl) as [Hs Hn]. simpl. split.
    + by f_equal.
    + by rewrite not_elem_of_cons.
Qed.

Lemma find_char_None c s : find_char c s = None ↔ c ∉ s.
Proof.
  induction s as [|d s IH]; simpl.
  - split; [intros _; apply not_elem_of_nil | done].
  - rewrite not_elem_of_cons. case_decide; subst; [naive_solver|].
    rewrite fmap_None. naive_solver.
Qed.

Lemma split_on_nonempty c s : split_on c s ≠ [].
Proof. destruct s; simpl; repeat case_match; done. Qed.

Lemma join_split_on c s : join_with c (split_on c s) = s.
Proof.
  induction s as [|d s IH]; simpl; [done|].
  pose proof (split_on_nonempty c s) as Hne.
  case_decide; subst.
  - destruct (split_on c s) eqn:E; [done|]. simpl in *. by rewrite <- IH at 1.
  - destruct (split_on c s) as [|f [|g fs]] eqn:E; [done|..]; simpl in *; by rewrite <- IH.
Qed.

Lemma split_on_free c s f : f ∈ split_on c s → c ∉ f.
Proof.
  revert f. induction s as [|d s IH]; intros f; simpl.
  - rewrite list_elem_of_singleton. intros ->. apply not_elem_of_nil.
  - case_decide; subst.
    + rewrite elem_of_cons. intros [->|?]; [apply not_elem_of_nil | by apply IH].
    + destruct (split_on c s) as [|g fs] eqn:E; [by destruct (split_on_nonempty c s)|].
      rewrite elem_of_cons. intros [->|Hf].
      * rewrite not_elem_of_cons. split; [done|]. apply IH. left.
      * apply IH. by right.
Qed.

Lemma bind_Value {A B E} (f : A → expected E B) r b :
  (r ≫= f) = Value b ↔ ∃ a, r = Value a ∧ f a = Value b.
Proof. destruct r; simpl; naive_solver. Qed.

Lemma reject_if_Value {E} b (e : E) u : reject_if b e = Value u ↔ b = false.
Proof. destruct b, u; simpl; naive_solver. Qed.

Lemma lookup_emplace {K A} `{Countable K} (k k' : K) (a : A) (m : gmap K A) :
  emplace k a m !! k' =
    match m !! k' with Some b => Some b | None => if decide (k = k') then Some a else None end.
Proof.
  unfold emplace. destruct (decide (k = k')) as [->|Hne].
  - destruct (m !! k') eqn:E; [done|]. apply lookup_insert_eq.
  - destruct (m !! k); [by destruct (m !! k')|].
    rewrite lookup_insert_ne by done. by destruct (m !! k').
Qed.

Lemma elem_of_dom_emplace {K A} `{Countable K} (k k' : K) (a : A) (m : gmap K A) :
  k' ∈ dom (emplace k a m) ↔ k' = k ∨ k' ∈ dom m.
Proof.
  rewrite !elem_of_dom, lookup_emplace.
  destruct (m !! k') eqn:E; [naive_solver|]. case_decide; naive_solver.
Qed.

Section sort_by_lemmas.
Context {A : Type} (leb : A → A → bool).

Lemma insert_by_perm x l : insert_by leb x l ≡ₚ x :: l.
Proof.
  induction l as [|y l IH]; simpl; [done|].
  destruct (leb x y); [done|]. rewrite IH. apply Permutation_swap.
Qed.

Lemma sort_by_perm l : sort_by leb l ≡ₚ l.
Proof. induction l as [|x l IH]; simpl; [done|]. by rewrite insert_by_perm, IH. Qed.

Lemma elem_of_sort_by x l : x ∈ sort_by leb l ↔ x ∈ l.
Proof. by rewrite sort_by_perm. Qed.

Lemma length_sort_by l : length (sort_by leb l) = length l.
Proof. by rewrite sort_by_perm. Qed.

Context (leb_total : ∀ x y, leb x y = false → leb y x = true).

Lemma sort_by_sorted l : LocallySorted (λ x y, leb x y = true) (sort_by leb l).
Proof.
  assert (∀ x k, LocallySorted (λ x y, leb x y = true) k →
                 LocallySorted (λ x y, leb x y = true) (insert_by leb x k)) as Hins.
  { intros x k Hk. induction Hk as [|y|y z k Hk IH Hyz]; simpl in *.
    - constructor.
    - destruct (leb x y) eqn:E; repeat constructor; auto.
    - destruct (leb x y) eqn:E; [by repeat constructor|].
      destruct (leb x z) eqn:E'; constructor; auto. }
  induction l; simpl; [constructor | by apply Hins].
Qed.
End sort_by_lemmas.

(** [std::ranges::sort] gives one list for all arrangements of the same values. *)
Lemma sort_by_unique {A} (leb : A → A → bool) (l k : list A) :
  (∀ x y, leb x y = false → leb y x = true) →
  (∀ x y z, leb x y = true → leb y z = true → leb x z = true) →
  (∀ x y, leb x y = true → leb y x = true → x = y) →
  l ≡ₚ k → sort_by leb l = sort_by leb k.
Proof.
  intros Htot Htr Hanti Hlk.
  assert (AntiSymm (=) (λ x y, leb x y = true)) by (intros x y; apply Hanti).
  apply (sorting.StronglySorted_unique (λ x y, leb x y = true)).
  - apply Sorted_StronglySorted; [intros x y z; apply Htr|]. apply Sorted_LocallySorted_iff.
    by apply sort_by_sorted.
  - apply Sorted_StronglySorted; [intros x y z; apply Htr|]. apply Sorted_LocallySorted_iff.
    by apply sort_by_sorted.
  - by rewrite !sort_by_perm.
Qed.

(** Lexicographic order is a total order if what it compares elements by is one. *)
Section lex_order.
Context {A : Type} (lt : A → A → bool).
Context (lt_irrefl : ∀ x, lt x x = false).
Context (lt_trans : ∀ x y z, lt x y = true → lt y z = true → lt x z = true).
Context (lt_total : ∀ x y, lt x y = false → lt y x = false → x = y).

Lemma lt_asym x y : lt x y = true → lt y x = false.
Proof.
  intros Hxy. destruct (lt y x) eqn:Hyx; [|done].
  pose proof (lt_trans x y x Hxy Hyx). by rewrite lt_irrefl in *.
Qed.

Lemma lex_leb_total x y : lex_leb lt x y = false → lex_leb lt y x = true.
Proof.
  revert y. induction x as [|a x IH]; intros [|b y]; simpl; try done.
  destruct (lt a b) eqn:Hab; [done|]. destruct (lt b a) eqn:Hba; [done|]. apply IH.
Qed.

Lemma lex_leb_antisym x y : lex_leb lt x y = true → lex_leb lt y x = true → x = y.
Proof.
  revert y. induction x as [|a x IH]; intros [|b y]; simpl; try done.
  destruct (lt a b) eqn:Hab.
  - by rewrite (lt_asym a b Hab).
  - destruct (lt b a) eqn:Hba; [done|]. rewrite (lt_total a b Hab Hba). intros. f_equal. by apply IH.
Qed.

Lemma lex_leb_trans x y z : lex_leb lt x y = true → lex_leb lt y z = true → lex_leb lt x z = true.
Proof.
  revert y z. induction x as [|a x IH]; intros [|b y] [|c z]; simpl; try done.
  destruct (lt a b) eqn:Hab.
  - intros _. destruct (lt b c) eqn:Hbc; [by rewrite (lt_trans a b c)|].
    destruct (lt c b) eqn:Hcb; [done|]. by rewrite <- (lt_total b c Hbc Hcb), Hab.
  - destruct (lt b a) eqn:Hba; [done|]. rewrite (lt_total a b Hab Hba).
    intros Hxy. destruct (lt b c) eqn:Hbc; [done|]. destruct (lt c b); [done|]. by apply IH.
Qed.
End lex_order.

Create HintDb mb.
#[export] Hint Rewrite @elem_of_sort_by @elem_of_dom_emplace : mb.
#[export] Hint Resolve split_on_nonempty : mb.

(** Two prefixes, or two suffixes, of one list are comparable. *)
Lemma prefix_comparable {A} (l1 l2 l : list A) :
  l1 `prefix_of` l → l2 `prefix_of` l → l1 `prefix_of` l2 ∨ l2 `prefix_of` l1.
Proof.
  intros [k1 ->] [k2 H]. apply app_eq_inv in H as [(k & -> & _)|(k & -> & _)].
  - right. by exists k.
  - left. by exists k.
Qed.

Lemma suffix_comparable {A} (l1 l2 l : list A) :
  l1 `suffix_of` l → l2 `suffix_of` l → l1 `suffix_of` l2 ∨ l2 `suffix_of` l1.
Proof.
  intros [k1 ->] [k2 H]. apply app_eq_inv in H as [(k & _ & ->)|(k & _ & ->)].
  - left. by exists k.
  - right. by exists k.
Qed.

Lemma sublist_StronglySorted {A} (R : A → A → Prop) k l :
  sublist k l → StronglySorted R l → StronglySorted R k.
Proof.
  induction 1 as [|x k l Hsub IH|x k l Hsub IH]; intros Hl; [done|..].
  - apply StronglySorted_inv in Hl as [Hl Hx]. constructor; [by apply IH|].
    rewrite Forall_forall in Hx |- *. intros y Hy. apply Hx. by apply (elem_of_sublist k l).
  - apply StronglySorted_inv in Hl as [Hl _]. by apply IH.
Qed.

Lemma StronglySorted_snoc {A} (R : A → A → Prop) l x :
  StronglySorted R l → (∀ y, y ∈ l → R y x) → StronglySorted R (l ++ [x]).
Proof.
  induction 1 as [|y l Hl IH Hy]; intros Hx; simpl.
  - by repeat constructor.
  - constructor.
    + apply IH. intros z Hz. apply Hx. by right.
    + apply Forall_app. split; [done|]. constructor; [|done]. apply Hx. left.
Qed.

Lemma StronglySorted_lookup {A} (R : A → A → Prop) l i j x y :
  StronglySorted R l → l !! i = Some x → l !! j = Some y → i < j → R x y.
Proof.
  intros Hl. revert i j. induction Hl as [|z l Hl IH Hz]; intros i j Hi Hj Hij; [done|].
  destruct j as [|j]; [lia|]. destruct i as [|i]; simplify_eq/=.
  - rewrite Forall_forall in Hz. apply Hz. by eapply list_elem_of_lookup_2.
  - eapply IH; [done..|lia].
Qed.

Lemma LocallySorted_weaken {A} (R S : A → A → Prop) l :
  (∀ x y, R x y → S x y) → LocallySorted R l → LocallySorted S l.
Proof. intros HRS. induction 1; constructor; auto. Qed.

(** ** Sums over maps *)

Definition map_sum {K A} `{Countable K} (f : A → nat) (m : gmap K A) : nat :=
  map_fold (λ _ x n, f x + n) 0 m.

Lemma map_sum_insert {K A} `{Countable K} (f : A → nat) (m : gmap K A) i x :
  m !! i = None → map_sum f (<[i := x]> m) = f x + map_sum f m.
Proof. intros Hi. unfold map_sum. rewrite map_fold_insert_L; [done| |done]. intros. lia. Qed.

Lemma map_sum_alter {K A} `{Countable K} (f : A → nat) (g : A → A) (m : gmap K A) i x :
  m !! i = Some x → map_sum f (alter g i m) + f x = map_sum f m + f (g x).
Proof.
  intros Hi.
  assert (delete i m !! i = None) as Hd by apply lookup_delete_eq.
  rewrite <- (insert_id m i x Hi) at 2. rewrite <- (insert_delete_eq m i x), map_sum_insert by done.
  assert (alter g i m = <[i := g x]> (delete i m)) as ->.
  { rewrite insert_delete_eq. apply map_eq. intros j. destruct (decide (i = j)) as [<-|].
    - by rewrite lookup_alter_eq, lookup_insert_eq, Hi.
    - by rewrite lookup_alter_ne, lookup_insert_ne. }
  rewrite map_sum_insert by done. lia.
Qed.

Lemma map_sum_le {K A} `{Countable K} (f g : A → nat) (m : gmap K A) :
  (∀ x, f x ≤ g x) → map_sum f m ≤ map_sum g m.
Proof.
  intros Hfg. induction m as [|i x m Hi IH] using map_ind; [done|].
  rewrite !map_sum_insert by done. specialize (Hfg x). lia.
Qed.

(** The same where the key matters too. *)
Definition map_sumi {K A} `{Countable K} (f : K → A → nat) (m : gmap K A) : nat :=
  map_fold (λ i x n, f i x + n) 0 m.

Section map_sumi.
Context {K A : Type} `{Countable K}.
Implicit Types (f g : K → A → nat) (m : gmap K A).

Lemma map_sumi_insert f m i x : m !! i = None → map_sumi f (<[i := x]> m) = f i x + map_sumi f m.
Proof. intros Hi. unfold map_sumi. rewrite map_fold_insert_L; [done| |done]. intros. lia. Qed.

Lemma map_sumi_delete f m i x : m !! i = Some x → map_sumi f m = f i x + map_sumi f (delete i m).
Proof. intros Hi. rewrite <- (insert_delete_id m i x Hi) at 1. by rewrite map_sumi_insert by apply lookup_delete_eq. Qed.

Lemma map_sumi_update f m i x y :
  m !! i = Some x → map_sumi f (<[i := y]> m) + f i x = map_sumi f m + f i y.
Proof.
  intros Hi. rewrite (map_sumi_delete f m i x Hi), <- insert_delete_eq, map_sumi_insert by apply lookup_delete_eq. lia.
Qed.

Lemma map_sumi_ext f g m : (∀ i x, m !! i = Some x → f i x = g i x) → map_sumi f m = map_sumi g m.
Proof.
  induction m as [|i x m Hi IH] using map_ind; intros Hfg; [done|]. rewrite !map_sumi_insert by done.
  rewrite (Hfg i x) by apply lookup_insert_eq. f_equal. apply IH. intros j y Hj. apply Hfg.
  rewrite lookup_insert_ne; [done|]. intros ->. congruence.
Qed.

Lemma map_sumi_le_member f m i x : m !! i = Some x → f i x ≤ map_sumi f m.
Proof. intros Hi. rewrite (map_sumi_delete f m i x Hi). lia. Qed.

Lemma map_sumi_pointwise {B} f (g : K → B → nat) m (m' : gmap K B) :
  (∀ i, g i <$> m' !! i = f i <$> m !! i) → map_sumi g m' = map_sumi f m.
Proof.
  revert m'. induction m as [|i x m Hi IH] using map_ind; intros m' Hp.
  - assert (m' = ∅) as ->; [|done]. apply map_eq. intros i. specialize (Hp i). rewrite lookup_empty in *.
    by apply fmap_None in Hp.
  - pose proof (Hp i) as Hpi. rewrite lookup_insert_eq in Hpi. apply fmap_Some in Hpi as (y & Hy & E).
    unfold map_sumi in *. rewrite <- (insert_delete_id m' i y Hy).
    rewrite !map_fold_insert_L by (done || apply lookup_delete_eq || (intros; lia)). rewrite E. f_equal. apply IH.
    intros j. destruct (decide (i = j)) as [<-|Hne]; [by rewrite lookup_delete_eq, Hi|].
    specialize (Hp j). by rewrite lookup_insert_ne in Hp; [rewrite lookup_delete_ne|].
Qed.

Lemma map_sumi_positive f m : 0 < map_sumi f m → ∃ i x, m !! i = Some x ∧ 0 < f i x.
Proof.
  induction m as [|i x m Hi IH] using map_ind; [unfold map_sumi; rewrite map_fold_empty; lia|].
  rewrite map_sumi_insert by done. intros Hpos. destruct (decide (0 < f i x)) as [Hx|Hx].
  - exists i, x. by rewrite lookup_insert_eq.
  - destruct IH as (j & y & Hj & Hy); [lia|]. exists j, y. split; [|done].
    rewrite lookup_insert_ne; [done|]. intros ->. congruence.
Qed.
End map_sumi.

Lemma alter_insert {K A} `{Countable K} (f : A → A) (m : gmap K A) i x :
  m !! i = Some x → alter f i m = <[i := f x]> m.
Proof.
  intros Hi. apply map_eq. intros j. destruct (decide (i = j)) as [<-|].
  - by rewrite lookup_alter_eq, lookup_insert_eq, Hi.
  - by rewrite lookup_alter_ne, lookup_insert_ne.
Qed.

Lemma and_iff_given (P Q R : Prop) : (P → Q ↔ R) → P ∧ Q ↔ P ∧ R.
Proof. tauto. Qed.

Lemma elem_of_rev {A} (x : A) l : x ∈ rev l ↔ x ∈ l.
Proof. by rewrite !list_elem_of_In, <- in_rev. Qed.
