(* ===== verification/Path.v ===== *)
(** * Paths

    [std::filesystem::path] on a POSIX system, as the sources use it: whether it
    has a root directory, and its file names in order. The last name is empty
    when the path ends in a separator after a name. How many separators stand
    between two names is not kept: no operation or comparison of the sources
    depends on it. *)

From S2P Require Export Prelude.

Record path := Path { root_directory : bool; names : list str }.

#[global] Instance path_eq_dec : EqDecision path.
Proof. solve_decision. Defined.
#[global] Instance path_countable : Countable path.
Proof.
  refine (inj_countable' (λ p, (root_directory p, names p)) (λ x, Path x.1 x.2) _).
  by intros [].
Defined.
#[global] Instance path_inhabited : Inhabited path := populate (Path false []).

Definition is_nil {A} (l : list A) : bool := match l with [] => true | _ => false end.

(** The path a string names. *)
Definition of_string (s : str) : path :=
  let fields := split_on slash s in
  let present := filter (λ f, f ≠ []) fields in
  Path (starts_with [slash] s)
       (present ++ if negb (is_nil present) && ends_with [slash] s then [[]] else []).

(** [path::generic_string]. *)
Definition generic_string (p : path) : str :=
  (if root_directory p then [slash] else []) ++ join_with slash (names p).

(** [path::empty], [has_root_path], [has_filename] and [filename]. *)
Definition is_empty (p : path) : bool := negb (root_directory p) && is_nil (names p).
Definition has_root_path (p : path) : bool := root_directory p.
Definition is_absolute (p : path) : bool := root_directory p.
Definition filename (p : path) : str := default [] (last (names p)).
Definition has_filename (p : path) : bool := negb (is_nil (filename p)).

(** The elements iterated over, the root directory first. *)
Definition path_elements (p : path) : list str :=
  (if root_directory p then [[slash]] else []) ++ names p.

(** [path::parent_path]. *)
Definition parent_path (p : path) : path := Path (root_directory p) (removelast (names p)).

(** [operator/]: an absolute right-hand side replaces the left. *)
Definition append (p q : path) : path :=
  if root_directory q then q
  else
    Path (root_directory p)
         (match has_filename p, names q with
          | true, [] => names p ++ [[]]
          | true, ns => names p ++ ns
          | false, [] => names p
          | false, ns => removelast (names p) ++ ns
          end).
Notation "p // q" := (append p q) (at level 40, left associativity) : mb_scope.

Definition dot : str := lit ".".
Definition dot_dot : str := lit "..".

(** [path::lexically_normal]: a stack of the names kept, last first, and
    whether what has been read so far ends in a separator. *)
Fixpoint normalize_names (root : bool) (ns : list str) (stack : list str) (separated : bool)
    : list str * bool :=
  match ns with
  | [] => (stack, separated)
  | n :: ns' =>
      if bool_decide (n = []) || bool_decide (n = dot) then
        normalize_names root ns' stack true
      else if bool_decide (n = dot_dot) then
        match stack with
        | top :: rest =>
            if bool_decide (top = dot_dot) then normalize_names root ns' (n :: stack) false
            else normalize_names root ns' rest true
        | [] =>
            if root then normalize_names root ns' [] true
            else normalize_names root ns' [n] false
        end
      else normalize_names root ns' (n :: stack) false
  end.

Definition lexically_normal (p : path) : path :=
  if is_empty p then p
  else
    let '(stack, separated) := normalize_names (root_directory p) (names p) [] false in
    match stack with
    | [] => Path (root_directory p) (if root_directory p then [] else [dot])
    | top :: _ =>
        let trailing := separated && negb (bool_decide (top = dot_dot)) in
        Path (root_directory p) (rev stack ++ if trailing then [[]] else [])
    end.

(** The directories above [p], nearest first, as
    [for (parent = p.parent_path(); !parent.empty(); parent = parent.parent_path())]
    visits them. A relative path has fewer of them than names, which bounds the
    loop. *)
Fixpoint ancestors_loop (fuel : nat) (p : path) : list path :=
  match fuel with
  | 0 => []
  | S fuel' => if is_empty p then [] else p :: ancestors_loop fuel' (parent_path p)
  end.
Definition ancestors (p : path) : list path := ancestors_loop (length (names p)) (parent_path p).

(** [operator<]: relative before absolute, then the names lexicographically. *)
Definition char_lt (a b : ascii) : bool := (N_of_ascii a <? N_of_ascii b)%N.
Definition str_leb : str → str → bool := lex_leb char_lt.
Definition str_lt (a b : str) : bool := str_leb a b && negb (bool_decide (a = b)).
Definition path_leb (p q : path) : bool :=
  match root_directory p, root_directory q with
  | false, true => true
  | true, false => false
  | _, _ => lex_leb str_lt (names p) (names q)
  end.

(** A [std::map] keyed by paths, in the order it iterates. *)
Definition in_order {A} (m : gmap path A) : list (path * A) :=
  sort_by (λ x y, path_leb x.1 y.1) (map_to_list m).
Definition paths_in_order (s : gset path) : list path := sort_by path_leb (elements s).

(** [p] is a directory somewhere above [q]. *)
Definition is_above (p q : path) : Prop :=
  root_directory p = root_directory q ∧ ∃ n ns, names q = names p ++ n :: ns.

(** A path that stays inside the directory it is relative to, ends in a file
    name, and is normal: what [to_inside_path] hands back. *)
Definition is_name (n : str) : Prop := n ≠ [] ∧ n ≠ dot ∧ n ≠ dot_dot ∧ slash ∉ n.
Record inside (p : path) : Prop := {
  inside_relative : root_directory p = false;
  inside_nonempty : names p ≠ [];
  inside_names : Forall is_name (names p);
}.

Example of_string_ex1 : of_string (lit "//a//b/") = Path true [lit "a"; lit "b"; []].
Proof. reflexivity. Qed.
Example of_string_ex2 : of_string (lit "/") = Path true [].
Proof. reflexivity. Qed.
Example normal_ex1 : lexically_normal (of_string (lit "a/./b/..")) = of_string (lit "a/").
Proof. reflexivity. Qed.
Example normal_ex2 : lexically_normal (of_string (lit "a/../..")) = of_string (lit "..").
Proof. reflexivity. Qed.
Example normal_ex3 : lexically_normal (of_string (lit "a/../")) = of_string (lit ".").
Proof. reflexivity. Qed.
Example normal_ex4 : lexically_normal (of_string (lit "/../a")) = of_string (lit "/a").
Proof. reflexivity. Qed.
Example normal_ex5 : lexically_normal (of_string (lit "../")) = of_string (lit "..").
Proof. reflexivity. Qed.

(** ** Lemmas *)

Lemma is_nil_true {A} (l : list A) : is_nil l = true ↔ l = [].
Proof. by destruct l. Qed.
Lemma is_nil_false {A} (l : list A) : is_nil l = false ↔ l ≠ [].
Proof. by destruct l. Qed.

Lemma split_on_slash_free s : slash ∉ s → split_on slash s = [s].
Proof.
  induction s as [|c s IH]; simpl; [done|]. rewrite not_elem_of_cons. intros [Hc Hs].
  rewrite decide_False by congruence. by rewrite IH.
Qed.

Lemma of_string_name n : n ≠ [] → slash ∉ n → of_string n = Path false [n].
Proof.
  intros Hn Hs. unfold of_string. rewrite split_on_slash_free by done.
  rewrite filter_cons_True, filter_nil by done. simpl. f_equal.
  - apply bool_decide_eq_false. intros [k ->]. apply Hs. left.
  - destruct (ends_with _ _) eqn:E; [|done]. apply ends_with_true in E as [k ->].
    exfalso. apply Hs. rewrite elem_of_app. right. left.
Qed.

Lemma of_string_slash_free s : Forall (λ n, slash ∉ n) (names (of_string s)).
Proof.
  unfold of_string; simpl. apply Forall_app. split.
  - apply Forall_forall. intros n Hn. apply list_elem_of_filter in Hn as [_ Hn].
    by apply split_on_free in Hn.
  - case_match; repeat constructor. apply not_elem_of_nil.
Qed.

Lemma str_leb_order :
  (∀ x y, str_leb x y = false → str_leb y x = true) ∧
  (∀ x y z, str_leb x y = true → str_leb y z = true → str_leb x z = true) ∧
  (∀ x y, str_leb x y = true → str_leb y x = true → x = y).
Proof.
  assert (∀ x, char_lt x x = false) as H1 by (intros x; unfold char_lt; apply N.ltb_irrefl).
  assert (∀ x y z, char_lt x y = true → char_lt y z = true → char_lt x z = true) as H2
    by (intros x y z; unfold char_lt; rewrite !N.ltb_lt; lia).
  assert (∀ x y, char_lt x y = false → char_lt y x = false → x = y) as H3.
  { intros x y. unfold char_lt. rewrite !N.ltb_ge. intros ? ?.
    rewrite <- (ascii_N_embedding x), <- (ascii_N_embedding y). f_equal. lia. }
  split_and!.
  - intros x y. by apply lex_leb_total.
  - intros x y z. by apply lex_leb_trans.
  - intros x y. by apply lex_leb_antisym.
Qed.

(** Normalization leaves [..]s at the front and real names after them. *)
Definition normal_stack (stack : list str) : Prop :=
  ∃ k ns, stack = ns ++ replicate k dot_dot ∧ Forall is_name ns.

Lemma normalize_names_stack root ns stack separated :
  Forall (λ n, slash ∉ n) ns → normal_stack stack →
  normal_stack (normalize_names root ns stack separated).1.
Proof.
  revert stack separated.
  induction ns as [|n ns IH]; simpl; intros stack separated Hns Hst; [done|].
  apply Forall_cons in Hns as [Hn Hns].
  destruct (_ || _) eqn:Hdot; [by apply IH|].
  apply orb_false_elim in Hdot as [H1 H2]. bool_to_prop.
  destruct (bool_decide (n = dot_dot)) eqn:Hdd; bool_to_prop; subst.
  - destruct stack as [|top rest].
    + destruct root; apply IH; [done|done|done|]. by exists 1, [].
    + destruct Hst as (k & ms & Hst & Hms).
      destruct (bool_decide (top = dot_dot)) eqn:Ht; bool_to_prop; subst; apply IH; try done.
      * destruct ms as [|m ms]; [simpl in Hst; exists (S k), []; simpl; by rewrite <- Hst|].
        simplify_list_eq. apply Forall_cons in Hms as [Hm _]. by destruct Hm as (_ & _ & ? & _).
      * destruct ms as [|m ms].
        -- destruct k; simplify_eq/=.
        -- simplify_list_eq. exists k, ms. apply Forall_cons in Hms as [_ ?]. done.
  - apply IH; [done|]. destruct Hst as (k & ms & -> & Hms).
    exists k, (n :: ms). split; [done|]. by repeat constructor.
Qed.

Lemma lexically_normal_inside p :
  root_directory p = false → Forall (λ n, slash ∉ n) (names p) →
  names (lexically_normal p) ≠ [] →
  filename (lexically_normal p) ≠ [] → filename (lexically_normal p) ≠ dot →
  head (names (lexically_normal p)) ≠ Some dot_dot →
  inside (lexically_normal p).
Proof.
  unfold lexically_normal. intros Hr Hs. destruct (is_empty p) eqn:He.
  { unfold is_empty in He. rewrite Hr in He. simpl in He. by apply is_nil_true in He as ->. }
  destruct (normalize_names _ _ _ _) as [stack separated] eqn:E.
  assert (normal_stack stack) as (k & ns & -> & Hns).
  { pose proof (normalize_names_stack (root_directory p) (names p) [] false Hs) as H.
    rewrite E in H. apply H. by exists 0, []. }
  rewrite Hr. unfold filename. destruct (ns ++ replicate k dot_dot) as [|top rest] eqn:Hst.
  { simpl. done. }
  rewrite <- Hst. clear E Hst. rewrite rev_app_distr.
  destruct (separated && _) eqn:Ht; simpl; [by rewrite last_snoc|].
  rewrite app_nil_r. intros Hne _ _ Hh. destruct k as [|k].
  - simpl in *. constructor; simpl; [done|done|].
    rewrite Forall_forall in Hns |- *. intros n Hn. apply Hns.
    apply list_elem_of_In. apply in_rev. by apply list_elem_of_In.
  - exfalso. apply Hh. rewrite replicate_S_end, rev_app_distr. done.
Qed.

Lemma normalize_names_plain root ns stack sep :
  Forall is_name ns → sep = false →
  normalize_names root ns stack sep = (rev ns ++ stack, false).
Proof.
  revert stack sep. induction ns as [|n ns IH]; intros stack sep Hns ->; simpl; [done|].
  apply Forall_cons in Hns as [(H1 & H2 & H3 & _) Hns].
  rewrite !bool_decide_false by done. simpl. rewrite IH by done. by rewrite <- app_assoc.
Qed.

Lemma lexically_normal_plain ns :
  ns ≠ [] → Forall is_name ns → lexically_normal (Path false ns) = Path false ns.
Proof.
  intros Hne Hns. unfold lexically_normal.
  replace (is_empty (Path false ns)) with false by (by destruct ns).
  change (names (Path false ns)) with ns. rewrite normalize_names_plain, app_nil_r by done.
  destruct (rev ns) as [|x l] eqn:E.
  - destruct Hne. by rewrite <- (rev_involutive ns), E.
  - change (Path false (rev (x :: l) ++ []) = Path false ns). by rewrite app_nil_r, <- E, rev_involutive.
Qed.

Lemma ancestors_loop_spec fuel ns q :
  length ns ≤ fuel →
  q ∈ ancestors_loop fuel (Path false ns) ↔
    root_directory q = false ∧ names q ≠ [] ∧ names q `prefix_of` ns.
Proof.
  revert ns. induction fuel as [|fuel IH]; intros ns Hlen; simpl.
  - destruct ns; simpl in *; [|lia]. split; [by intros ?%elem_of_nil|].
    intros (_ & Hne & H%prefix_nil_inv). done.
  - destruct ns as [|x xs _] using rev_ind.
    + simpl. split; [by intros ?%elem_of_nil|].
      intros (_ & Hne & H%prefix_nil_inv). done.
    + replace (is_empty (Path false (xs ++ [x]))) with false by (by destruct xs).
      unfold parent_path; simpl. rewrite removelast_last, elem_of_cons, IH.
      2:{ rewrite length_app in Hlen. simpl in Hlen. lia. }
      split.
      * intros [->|(? & ? & ?)]; simpl.
        -- split; [done|]. split; [by destruct xs|done].
        -- split_and!; [done..|]. etrans; [done|]. by apply prefix_app_r.
      * intros (Hr & Hne & [k Hk]). destruct k as [|y k _] using rev_ind.
        -- left. destruct q; simpl in *. rewrite app_nil_r in Hk. by subst.
        -- right. split_and!; [done..|]. rewrite app_assoc in Hk.
           apply app_inj_tail in Hk as [-> _]. by exists k.
Qed.

Lemma elem_of_ancestors p q :
  root_directory p = false →
  q ∈ ancestors p ↔ names q ≠ [] ∧ is_above q p.
Proof.
  intros Hr. unfold ancestors, parent_path, is_above. rewrite Hr.
  rewrite ancestors_loop_spec.
  2:{ destruct (names p) as [|x xs _] using rev_ind; [done|].
      rewrite removelast_last, length_app. lia. }
  destruct (names p) as [|x xs _] using rev_ind.
  - simpl. split.
    + intros (_ & Hne & H%prefix_nil_inv). done.
    + intros (_ & _ & n & ns & H). by destruct (names q).
  - rewrite removelast_last. split.
    + intros (? & ? & [k ->]). split_and!; [done..|].
      destruct k as [|n k]; [by exists x, []; rewrite app_nil_r|].
      exists n, (k ++ [x]). by rewrite <- app_assoc.
    + intros (? & ? & n & ns & H). split_and!; [done..|].
      destruct ns as [|y ns _] using rev_ind.
      * apply app_inj_tail in H as [-> _]. done.
      * rewrite app_comm_cons, app_assoc in H. apply app_inj_tail in H as [-> _]. by eexists.
Qed.

Lemma path_split p : names p ≠ [] → names p = names (parent_path p) ++ [filename p].
Proof.
  intros Hne. unfold parent_path, filename. simpl.
  destruct (names p) as [|x xs _] using rev_ind; [done|].
  by rewrite removelast_last, last_snoc.
Qed.

Lemma inside_filename p : inside p → is_name (filename p).
Proof.
  intros [_ Hne Hall]. rewrite (path_split p Hne) in Hall.
  apply Forall_app in Hall as [_ Hf]. by inversion_clear Hf.
Qed.

Lemma inside_parent p : inside p → Forall is_name (names (parent_path p)).
Proof.
  intros [_ Hne Hall]. rewrite (path_split p Hne) in Hall. by apply Forall_app in Hall as [? _].
Qed.

Lemma append_name p n :
  Forall is_name (names p) → n ≠ [] → slash ∉ n →
  p // of_string n = Path (root_directory p) (names p ++ [n]).
Proof.
  destruct p as [r ns]. intros Hp Hn Hs. rewrite of_string_name by done.
  unfold append, has_filename, filename; simpl. f_equal.
  destruct ns as [|x xs _] using rev_ind; [done|].
  apply Forall_app in Hp as [_ Hx]. inversion_clear Hx as [|?? Hx' _].
  rewrite last_snoc; simpl. destruct (is_nil x) eqn:E; [|done].
  apply is_nil_true in E. by destruct Hx'.
Qed.

(** [in_order] lists each entry once. *)
Lemma elem_of_in_order {A} (m : gmap path A) k x : (k, x) ∈ in_order m ↔ m !! k = Some x.
Proof. unfold in_order. by rewrite elem_of_sort_by, elem_of_map_to_list. Qed.

Lemma in_order_fst {A} (m : gmap path A) k : k ∈ (in_order m).*1 ↔ k ∈ dom m.
Proof.
  rewrite list_elem_of_fmap, elem_of_dom. split.
  - intros ([k' x] & -> & Hx%elem_of_in_order). by exists x.
  - intros [x Hx]. exists (k, x). split; [done|]. by apply elem_of_in_order.
Qed.

Lemma elem_of_paths_in_order (s : gset path) p : p ∈ paths_in_order s ↔ p ∈ s.
Proof. unfold paths_in_order. by rewrite elem_of_sort_by, elem_of_elements. Qed.
