(* ===== verification/Manifest.v ===== *)
(** * The manifest (src/manifest.hpp, src/manifest.cpp)

    The parser of [build.makebelieve]: the text is split into lines, each line
    is read and checked against the rules accepted before it, and the rules
    that turn out not to stand once all are known are dropped. [parse_line]
    runs one iteration of the loop of [Manifest::parse], as an error monad
    whose errors are the messages handed to [reject]. *)

From S2P Require Export Prelude Path.

(** ** Words *)

Definition is_space (c : ascii) : bool :=
  bool_decide (c ∈ lit " ") || bool_decide (c = "009"%char) ||
  bool_decide (c = "013"%char) || bool_decide (c = newline).

Fixpoint trim_front (text : str) : str :=
  match text with
  | c :: text' => if is_space c then trim_front text' else text
  | [] => []
  end.

Definition trim_back (text : str) : str := reverse (trim_front (reverse text)).

Definition trim (text : str) : str := trim_back (trim_front text).

Fixpoint first_word (text : str) : str :=
  match text with
  | c :: text' => if is_space c then [] else c :: first_word text'
  | [] => []
  end.

Inductive Action := Run | Capture | Copy | Tracing.

#[global] Instance Action_eq_dec : EqDecision Action.
Proof. solve_decision. Defined.

Definition to_action (word : str) : option Action :=
  if bool_decide (word = lit "run") then Some Run
  else if bool_decide (word = lit "capture") then Some Capture
  else if bool_decide (word = lit "copy") then Some Copy
  else if bool_decide (word = lit "tracing") then Some Tracing
  else None.

Definition argument_of (action : Action) : str :=
  match action with Copy => lit "path" | _ => lit "command" end.

Definition to_inside_path (relative : str) : option path :=
  let p := lexically_normal (of_string relative) in
  if is_empty p || has_root_path p || negb (has_filename p) ||
     bool_decide (filename p = dot) || bool_decide (filename p = dot_dot) ||
     bool_decide (head (path_elements p) = Some dot_dot)
  then None
  else Some p.

(** Every iteration drops a nonempty word, so as many iterations as the text
    has characters are enough. *)
Fixpoint first_wildcard_word_loop (fuel : nat) (text : str) : str :=
  match fuel with
  | 0 => []
  | S fuel' =>
      if is_nil text then []
      else
        let word := first_word text in
        if contains_char star word then word
        else first_wildcard_word_loop fuel' (trim (drop (length word) text))
  end.
Definition first_wildcard_word (text : str) : str :=
  first_wildcard_word_loop (length text) (trim text).

Definition is_wildcard_pattern (p : path) : bool :=
  bool_decide (count_char star (generic_string p) = 1) && contains_char star (filename p).

(** ** Name patterns *)

Record NamePattern := { prefix : str; suffix : str }.

(** [name.substr(0, name.find('*'))] and [name.substr(name.find('*') + 1)];
    without a star [find] is [npos] and both are the whole name. *)
Definition name_pattern (name : str) : NamePattern :=
  match find_char star name with
  | Some i => {| prefix := take i name; suffix := drop (S i) name |}
  | None => {| prefix := name; suffix := name |}
  end.

Definition matches (p : NamePattern) (name : str) : bool :=
  bool_decide (length (prefix p) + length (suffix p) < length name) &&
  starts_with (prefix p) name && ends_with (suffix p) name.

Definition agree (a b : str) (front : bool) : bool :=
  let longer := if bool_decide (length b ≤ length a) then a else b in
  let shorter := if bool_decide (length b ≤ length a) then b else a in
  if front then starts_with shorter longer else ends_with shorter longer.

Definition overlaps (p other : NamePattern) : bool :=
  agree (prefix p) (prefix other) true && agree (suffix p) (suffix other) false.

(** ** Rules *)

Record Rule := {
  output : path;
  action : Action;
  command : str;
  wildcard_source : path;
  wildcard_over_outputs : bool;
}.

#[global] Instance Rule_eq_dec : EqDecision Rule.
Proof. solve_decision. Defined.

Record Error := { line : nat; message : str }.

Definition is_wildcard (r : Rule) : bool := negb (is_empty (wildcard_source r)).

Definition no_path : path := Path false [].

(** The characters of a command, every star replaced by [stem]. *)
Definition substitute_stem (stem command : str) : str :=
  command ≫= λ c, if bool_decide (c = star) then stem else [c].

Definition instantiate (rule : Rule) (source_name : str) : option Rule :=
  let source := name_pattern (filename (wildcard_source rule)) in
  if negb (matches source source_name) then None
  else
    let stem := take (length source_name - length (prefix source) - length (suffix source))
                     (drop (length (prefix source)) source_name) in
    let out := name_pattern (filename (output rule)) in
    Some {| output := parent_path (output rule) //
                      of_string (prefix out ++ stem ++ suffix out);
            action := action rule;
            command := substitute_stem stem (command rule);
            wildcard_source := no_path;
            wildcard_over_outputs := false |}.

(** ** One line *)

Definition ticked (s : str) : str := backtick :: s ++ [backtick].

(** The part of an iteration that reads [<left> = <action> <argument>]. *)
Definition read_assignment (line : str) : expected str (str * Action * str) :=
  equals ← match find_char "="%char line with
           | Some i => Value i
           | None => Unexpected (lit "expected `@/<output> = <action> <command>`")
           end;
  let left := trim (take equals line) in
  let value := trim (drop (S equals) line) in
  _ ← reject_if (negb (starts_with (lit "@/") left))
        (format [lit "output "; ticked left; lit " must start with `@/`"]);
  let word := first_word value in
  act ← match to_action word with
        | Some a => Value a
        | None => Unexpected (format [ticked left; lit " must be assigned `run <command>`, `capture <command>`, `copy <path>` or `tracing`"])
        end;
  let argument := trim (drop (length word) value) in
  match act with
  | Tracing =>
      _ ← reject_if (negb (is_nil argument))
            (format [ticked left; lit " is assigned `tracing`, which takes no argument, but was given "; ticked argument]);
      mret (left, act, argument)
  | _ =>
      _ ← reject_if (is_nil argument) (format [ticked left; lit " has no "; argument_of act]);
      mret (left, act, argument)
  end.

(** The sources of a wildcard: the pattern they match, and whether they are
    outputs. *)
Definition read_sources (left : str) (act : Action) (argument : str)
    : expected str (path * bool) :=
  _ ← reject_if (bool_decide (act = Tracing))
        (format [ticked left; lit " is a wildcard, which `tracing` cannot be"]);
  let pattern := match act with Copy => argument | _ => first_wildcard_word argument end in
  _ ← reject_if (is_nil pattern)
        (format [ticked left; lit " is a wildcard, but its command names no source files with a `*`"]);
  let over_outputs := starts_with (lit "@/") pattern in
  let source :=
    if contains_char quote2 pattern || contains_char quote1 pattern then None
    else to_inside_path (if over_outputs then drop 2 pattern else pattern) in
  let bad := format [ticked left; lit " takes its sources from "; ticked pattern;
                     lit ", which must be an unquoted path inside ";
                     if over_outputs then lit "`@/`" else lit "the manifest's directory";
                     lit " with a single `*`, in its file name"] in
  match source with
  | Some s => if is_wildcard_pattern s then Value (s, over_outputs) else Unexpected bad
  | None => Unexpected bad
  end.

(** The command of a rule, and the output it copies, if it does. *)
Definition read_command (left : str) (act : Action) (argument : str) (wildcard : bool)
    (out : option path) (source : path) (over_outputs : bool)
    : expected str (str * option path) :=
  match act with
  | Copy =>
      if wildcard then
        mret ((if over_outputs then lit "@/" else []) ++ generic_string source, None)
      else
        let generated := starts_with (lit "@/") argument in
        match to_inside_path (if generated then drop 2 argument else argument) with
        | None =>
            Unexpected (format [ticked left; lit " copies "; ticked argument;
                                lit ", which does not name a file inside ";
                                if generated then lit "`@/`" else lit "the manifest's directory"])
        | Some s =>
            if generated then
              _ ← reject_if (bool_decide (out = Some s)) (format [ticked left; lit " copies itself"]);
              mret (lit "@/" ++ generic_string s, Some s)
            else mret (generic_string s, None)
        end
  | _ => mret (argument, None)
  end.

(** ** The state of the loop *)

Record BannedSuffix := { banned_text : str; banned_line : nat }.
Record CopyOfOutput := { copy_rule : nat; copy_line : nat; copy_left : str; copy_source : path }.

Record state := {
  rules : list Rule;
  errors : list Error;
  files : gmap path nat;
  directories : gmap path nat;
  banned_suffixes : gmap path (list BannedSuffix);
  copies : list CopyOfOutput;
  lines : list nat;
}.

Definition initial : state := {|
  rules := []; errors := []; files := ∅; directories := ∅;
  banned_suffixes := ∅; copies := []; lines := [] |}.

Definition first_such {A} (f : A → bool) (l : list A) : option A := snd <$> list_find (λ x, f x = true) l.

(** The suffix banned in [p]'s directory that its name ends in. *)
Definition banned_suffix (st : state) (p : path) : option BannedSuffix :=
  first_such (λ other, ends_with (banned_text other) (filename p))
             (default [] (banned_suffixes st !! parent_path p)).

(** What an accepted name is checked against: the declared files, the
    directories above them, and the banned suffixes. *)
Definition check_place (st : state) (left : str) (wildcard : bool) (out : path)
    : expected str unit :=
  _ ← reject_if (wildcard && negb (is_wildcard_pattern out))
        (format [ticked left; lit " must have a single `*`, in its file name"]);
  _ ← match files st !! out with
      | Some l => Unexpected (format [ticked left; lit " is already declared on line "; show l])
      | None => Value tt
      end;
  _ ← match directories st !! out with
      | Some l => Unexpected (format [ticked left; lit " is a directory of the output declared on line "; show l])
      | None => Value tt
      end;
  _ ← match head (omap (λ parent, files st !! parent) (ancestors out)) with
      | Some l => Unexpected (format [ticked left; lit " is inside the output declared on line "; show l])
      | None => Value tt
      end;
  match head (omap (banned_suffix st) (ancestors out)) with
  | Some b => Unexpected (format [ticked left; lit " is inside a directory ending in ";
                                  ticked (banned_text b);
                                  lit ", which only files of the wildcard on line ";
                                  show (banned_line b); lit " may"])
  | None => Value tt
  end.

Definition check_simple (st : state) (left : str) (out : path) : expected str unit :=
  match banned_suffix st out with
  | Some b => Unexpected (format [ticked left; lit " ends in "; ticked (banned_text b);
                                  lit ", which only outputs of the wildcard on line ";
                                  show (banned_line b); lit " may"])
  | None => Value tt
  end.

(** Whether the declared [p] is in [directory] and ends in [s]. *)
Definition ends_in_it (directory : path) (s : str) (p : path) : bool :=
  bool_decide (parent_path p = directory) && ends_with s (filename p).

Definition check_wildcard (st : state) (left : str) (out : path) : expected str unit :=
  let directory := parent_path out in
  let s := suffix (name_pattern (filename out)) in
  _ ← match first_such (λ declared, ends_in_it directory s declared.1) (in_order (files st)) with
      | Some (_, l) => Unexpected (format [ticked left; lit " bans outputs ending in "; ticked s;
                                           lit " from its directory, but line "; show l;
                                           lit " declares one"])
      | None => Value tt
      end;
  _ ← match first_such (λ declared, ends_in_it directory s declared.1) (in_order (directories st)) with
      | Some (_, l) => Unexpected (format [ticked left; lit " bans names ending in "; ticked s;
                                           lit " from its directory, but the output on line ";
                                           show l; lit " is inside one"])
      | None => Value tt
      end;
  match first_such (λ other, ends_with (banned_text other) s || ends_with s (banned_text other))
                   (default [] (banned_suffixes st !! directory)) with
  | Some b => Unexpected (format [ticked left; lit " and the wildcard on line "; show (banned_line b);
                                  lit " could both produce outputs ending in ";
                                  ticked (if bool_decide (length (banned_text b) < length s)
                                          then s else banned_text b)])
  | None => Value tt
  end.

(** Everything an iteration does before it changes anything: the rule the line
    declares, the output it copies, and what its left side says. *)
Definition read_line (st : state) (line : str) : expected str (str * Rule * option path) :=
  '(lhs, act, argument) ← read_assignment line;
  let out := to_inside_path (drop 2 lhs) in
  let wildcard := contains_char star lhs in
  '(source, over_outputs) ← (if wildcard then read_sources lhs act argument
                             else mret (no_path, false));
  '(command, copied) ← read_command lhs act argument wildcard out source over_outputs;
  out ← match out with
        | Some p => Value p
        | None => Unexpected (format [ticked lhs; lit " does not name a file inside `@/`"])
        end;
  _ ← check_place st lhs wildcard out;
  _ ← (if wildcard then check_wildcard st lhs out else check_simple st lhs out);
  mret (lhs, {| output := out; action := act; command := command;
                 wildcard_source := source; wildcard_over_outputs := over_outputs |}, copied).

Definition reject (number : nat) (why : str) (st : state) : state := {|
  rules := rules st; errors := errors st ++ [{| line := number; message := why |}];
  files := files st; directories := directories st;
  banned_suffixes := banned_suffixes st; copies := copies st; lines := lines st |}.

(** What an iteration records of a rule it accepts. *)
Definition accept (number : nat) (left : str) (r : Rule) (copied : option path) (st : state)
    : state := {|
  rules := rules st ++ [r];
  errors := errors st;
  files := if is_wildcard r then files st else emplace (output r) number (files st);
  directories := foldl (λ m parent, emplace parent number m) (directories st) (ancestors (output r));
  banned_suffixes :=
    if is_wildcard r then
      let directory := parent_path (output r) in
      <[directory := default [] (banned_suffixes st !! directory) ++
          [{| banned_text := suffix (name_pattern (filename (output r)));
              banned_line := number |}]]> (banned_suffixes st)
    else banned_suffixes st;
  copies := match copied with
            | Some source => copies st ++ [{| copy_rule := length (rules st); copy_line := number;
                                              copy_left := left; copy_source := source |}]
            | None => copies st
            end;
  lines := lines st ++ [number] |}.

Definition is_skipped (line : str) : bool :=
  match line with [] => true | c :: _ => bool_decide (c = "#"%char) end.

(** One iteration of the loop over the lines. *)
Definition parse_line (number : nat) (text : str) (st : state) : state :=
  let line := trim text in
  if is_skipped line then st
  else match read_line st line with
       | Value (lhs, r, copied) => accept number lhs r copied st
       | Unexpected why => reject number why st
       end.

Fixpoint parse_lines (number : nat) (texts : list str) (st : state) : state :=
  match texts with
  | [] => st
  | text :: texts' => parse_lines (S number) texts' (parse_line number text st)
  end.

(** ** Once every line is read *)

(** Copies of outputs that no rule declares, and the errors they get. *)
Definition undeclared_copies (st : state) : list CopyOfOutput :=
  filter (λ c, files st !! copy_source c = None) (copies st).

Definition undeclared_error (c : CopyOfOutput) : Error := {|
  line := copy_line c;
  message := format [ticked (copy_left c); lit " copies ";
                     ticked (lit "@/" ++ generic_string (copy_source c));
                     lit ", which is not declared"] |}.

(** [feeds[a][b]]: something rule [a] could produce is something rule [b] could
    match. The matrix is the set of the pairs it holds for. *)
Definition feeds_directly (a b : Rule) : bool :=
  is_wildcard a && wildcard_over_outputs b &&
  bool_decide (parent_path (output a) = parent_path (wildcard_source b)) &&
  overlaps (name_pattern (filename (output a))) (name_pattern (filename (wildcard_source b))).

Definition pairs (n : nat) : list (nat * nat) := list_prod (seq 0 n) (seq 0 n).

Definition feeds_initial (rs : list Rule) : gset (nat * nat) :=
  list_to_set (filter (λ ab, match rs !! ab.1, rs !! ab.2 with
                             | Some a, Some b => feeds_directly a b
                             | _, _ => false
                             end = true) (pairs (length rs))).

(** The body of the closing loops, for one [via], [a] and [b]. *)
Definition close_one (via : nat) (ab : nat * nat) (feeds : gset (nat * nat)) : gset (nat * nat) :=
  if decide ((ab.1, via) ∈ feeds ∧ (via, ab.2) ∈ feeds) then {[ab]} ∪ feeds else feeds.

Definition close_via (n : nat) (feeds : gset (nat * nat)) (via : nat) : gset (nat * nat) :=
  foldl (λ f ab, close_one via ab f) feeds (pairs n).

Definition close_feeds (n : nat) (feeds : gset (nat * nat)) : gset (nat * nat) :=
  foldl (close_via n) feeds (seq 0 n).

Definition feeds_of (rs : list Rule) : gset (nat * nat) := close_feeds (length rs) (feeds_initial rs).

(** The rules that could produce their own sources. *)
Definition endless_rules (rs : list Rule) : list nat :=
  filter (λ i, (i, i) ∈ feeds_of rs) (seq 0 (length rs)).

Definition endless_error (st : state) (i : nat) : Error := {|
  line := default 0 (lines st !! i);
  message := format [ticked (lit "@/" ++ generic_string (default no_path (output <$> rules st !! i)));
                     lit " could produce its own sources, so its outputs would never end"] |}.

Definition dropped (st : state) : list nat :=
  (copy_rule <$> undeclared_copies st) ++ endless_rules (rules st).

(** Erasing the dropped indices, last first. *)
Definition keep_rules (drop : list nat) (rs : list Rule) : list Rule :=
  snd <$> filter (λ ir, ir.1 ∉ drop) (imap pair rs).

Definition error_leb (a b : Error) : bool := line a <=? line b.

Record Manifest := { manifest_rules : list Rule; manifest_errors : list Error }.

Definition finish (st : state) : Manifest :=
  let errs := errors st ++ (undeclared_error <$> undeclared_copies st) ++
              (endless_error st <$> endless_rules (rules st)) in
  {| manifest_rules := keep_rules (dropped st) (rules st);
     manifest_errors := if is_nil (dropped st) then errs else sort_by error_leb errs |}.

Definition read_all_lines (text : str) : state := parse_lines 1 (split_on newline text) initial.

(** [Manifest::parse]. *)
Definition parse (text : str) : Manifest := finish (read_all_lines text).

Definition nl : string := String newline EmptyString.
Definition ex_text : str := lit (
  "# outputs" +:+ nl +:+ "@/a.txt = run cp x %out" +:+ nl +:+ "@/out/*.o = run cc src/*.c" +:+ nl +:+
  "@/out/b.o = capture x" +:+ nl +:+ "@/c = copy @/a.txt" +:+ nl +:+ "@/d = copy @/e" +:+ nl).
Example parse_ex : (λ m, (output <$> manifest_rules m, line <$> manifest_errors m)) (parse ex_text) =
  ([of_string (lit "a.txt"); of_string (lit "out/*.o"); of_string (lit "c")], [4; 6]).
Proof. vm_compute. reflexivity. Qed.
Example endless_ex :
  line <$> manifest_errors (parse (lit ("@/gen/*.md.md = copy @/gen/*.md"))) = [1].
Proof. vm_compute. reflexivity. Qed.
