(* ===== verification/ManifestFacts.v ===== *)
(** * Properties of the manifest parser

    What the rules [Manifest.parse] accepts promise: every output is inside the
    mount, no two rules can produce the same path or one inside another's,
    every line is accounted for, and the check against endless wildcards finds
    exactly the cycles. *)

From S2P Require Export Manifest.

(** ** Paths read from the manifest *)

Lemma lexically_normal_root p : root_directory (lexically_normal p) = root_directory p.
Proof.
  unfold lexically_normal. destruct (is_empty p); [done|].
  by destruct (normalize_names _ _ _ _) as [[|??] ?].
Qed.

Lemma to_inside_path_inside s p : to_inside_path s = Some p → inside p.
Proof.
  unfold to_inside_path.
  repeat (match goal with |- context [if ?b || _ then _ else _] => destruct b eqn:? end; simpl; [done|]).
  case_match; [done|]. intros [= <-]. bool_to_prop. unfold has_root_path, has_filename, is_empty in *.
  rewrite lexically_normal_root in *. bool_to_prop.
  match goal with H : root_directory _ = false |- _ => rename H into Hr end.
  apply lexically_normal_inside; try done.
  - apply of_string_slash_free.
  - intros E. unfold filename in *. by rewrite E in *.
  - by apply is_nil_false.
  - unfold path_elements in *. by rewrite lexically_normal_root, Hr in *.
Qed.

(** ** Name patterns *)

Lemma matches_iff p name :
  matches p name = true ↔ ∃ stem, stem ≠ [] ∧ name = prefix p ++ stem ++ suffix p.
Proof.
  unfold matches. rewrite !andb_true_iff, bool_decide_eq_true, starts_with_true, ends_with_true.
  split.
  - intros [[Hlen [k ->]] [w Hs]]. rewrite length_app in Hlen.
    apply app_eq_inv in Hs as [(m & _ & E)|(m & _ & ->)].
    + apply (f_equal length) in E. rewrite length_app in E. lia.
    + exists m. split; [|done]. intros ->. simpl in *. lia.
  - intros (stem & Hne & ->). split_and!.
    + rewrite !length_app. destruct stem; simpl; [done|lia].
    + by apply prefix_app_r.
    + rewrite app_assoc. by apply suffix_app_r.
Qed.

Lemma agree_front a b : agree a b true = true ↔ a `prefix_of` b ∨ b `prefix_of` a.
Proof.
  unfold agree. case_bool_decide; simpl; rewrite starts_with_true.
  - split; [by right|]. intros [Hp|?]; [|done].
    pose proof (prefix_length _ _ Hp). assert (a = b) as ->; [|done].
    apply prefix_length_eq; [done|lia].
  - split; [by left|]. intros [?|Hp]; [done|]. apply prefix_length in Hp. lia.
Qed.

Lemma agree_back a b : agree a b false = true ↔ a `suffix_of` b ∨ b `suffix_of` a.
Proof.
  unfold agree. case_bool_decide; simpl; rewrite ends_with_true.
  - split; [by right|]. intros [Hp|?]; [|done].
    pose proof (suffix_length _ _ Hp). assert (a = b) as ->; [|done].
    apply suffix_length_eq; [done|lia].
  - split; [by left|]. intros [?|Hp]; [done|]. apply suffix_length in Hp. lia.
Qed.

Lemma overlaps_complete p q name :
  matches p name = true → matches q name = true → overlaps p q = true.
Proof.
  rewrite !matches_iff. intros (s1 & _ & H1) (s2 & _ & H2).
  unfold overlaps. apply andb_true_iff. rewrite agree_front, agree_back. split.
  - apply prefix_comparable with name; [rewrite H1|rewrite H2]; by apply prefix_app_r.
  - apply suffix_comparable with name; [rewrite H1|rewrite H2];
      rewrite app_assoc; by apply suffix_app_r.
Qed.

Lemma overlaps_sound p q :
  overlaps p q = true →
  ∃ name, matches p name = true ∧ matches q name = true ∧
    ∀ c, c ∈ name → c = "x"%char ∨ c ∈ prefix p ∨ c ∈ prefix q ∨ c ∈ suffix p ∨ c ∈ suffix q.
Proof.
  unfold overlaps. rewrite andb_true_iff, agree_front, agree_back.
  intros [Hp Hs].
  assert (∃ m u v, m = prefix p ++ u ∧ m = prefix q ++ v ∧ (m = prefix p ∨ m = prefix q))
    as (m & u & v & Hm1 & Hm2 & Hm).
  { destruct Hp as [[k E]|[k E]]; [exists (prefix q), k, []|exists (prefix p), [], k];
      rewrite app_nil_r; auto. }
  assert (∃ n w x, n = w ++ suffix p ∧ n = x ++ suffix q ∧ (n = suffix p ∨ n = suffix q))
    as (n & w & x & Hn1 & Hn2 & Hn).
  { destruct Hs as [[k E]|[k E]]; [exists (suffix q), k, []|exists (suffix p), [], k]; auto. }
  exists (m ++ lit "x" ++ n). rewrite !matches_iff. split_and!.
  - exists (u ++ lit "x" ++ w). split; [by destruct u|].
    rewrite Hn1, Hm1. by rewrite <- !app_assoc.
  - exists (v ++ lit "x" ++ x). split; [by destruct v|].
    rewrite Hn2, Hm2. by rewrite <- !app_assoc.
  - intros c. change (lit "x") with ["x"%char].
    rewrite !elem_of_app, list_elem_of_singleton. clear Hm1 Hm2 Hn1 Hn2.
    destruct Hm as [-> | ->], Hn as [-> | ->]; tauto.
Qed.

(** What [instantiate] hands back, with the stem of the name named. *)
Lemma instantiate_iff r name r' :
  instantiate r name = Some r' ↔
  ∃ stem, stem ≠ [] ∧
    name = prefix (name_pattern (filename (wildcard_source r))) ++ stem ++
           suffix (name_pattern (filename (wildcard_source r))) ∧
    r' = {| output := parent_path (output r) //
                      of_string (prefix (name_pattern (filename (output r))) ++ stem ++
                                 suffix (name_pattern (filename (output r))));
            action := action r;
            command := substitute_stem stem (command r);
            wildcard_source := no_path;
            wildcard_over_outputs := false |}.
Proof.
  unfold instantiate. set (src := name_pattern (filename (wildcard_source r))).
  assert (∀ stem, take (length (prefix src ++ stem ++ suffix src) - length (prefix src) -
                        length (suffix src))
                       (drop (length (prefix src)) (prefix src ++ stem ++ suffix src)) = stem) as Htake.
  { intros stem. rewrite drop_app_length, take_app_length' by (rewrite !length_app; lia). done. }
  destruct (matches src name) eqn:E; simpl.
  - apply matches_iff in E as (stem & Hne & ->). rewrite Htake. split.
    + intros [= <-]. by exists stem.
    + intros (stem' & _ & H & ->). apply app_inv_head, app_inv_tail in H. by subst.
  - split; [done|]. intros (stem & Hne & -> & _).
    rewrite (proj2 (matches_iff src _)) in E; [done|]. by exists stem.
Qed.

(** ** What a line has passed once it is accepted *)

Lemma first_such_None {A} (f : A → bool) l :
  first_such f l = None ↔ ∀ x, x ∈ l → f x = false.
Proof.
  unfold first_such. rewrite fmap_None, list_find_None, Forall_forall.
  by setoid_rewrite not_true_iff_false.
Qed.

Lemma head_omap_None {A B} (f : A → option B) l :
  head (omap f l) = None ↔ ∀ x, x ∈ l → f x = None.
Proof.
  induction l as [|x l IH]; simpl.
  - split; [|done]. by intros _ x ?%elem_of_nil.
  - destruct (f x) eqn:E; simpl.
    + split; [done|]. intros H. rewrite H in E; [done|left].
    + rewrite IH. split; [|set_solver]. intros H y [->|?]%elem_of_cons; auto.
Qed.

Lemma first_in_order_None {A} (f : path → bool) (m : gmap path A) :
  first_such (λ d : path * A, f d.1) (in_order m) = None ↔ ∀ p, p ∈ dom m → f p = false.
Proof.
  rewrite first_such_None. split.
  - intros H p [a Ha]%elem_of_dom. apply (H (p, a)). by apply elem_of_in_order.
  - intros H [p a] Hpa%elem_of_in_order. apply H. by apply elem_of_dom_2 in Hpa.
Qed.

Definition suffix_of_rule (r : Rule) : str := suffix (name_pattern (filename (output r))).

Record admissible (st : state) (r : Rule) : Prop := {
  adm_inside : inside (output r);
  adm_star : is_wildcard r = true → is_wildcard_pattern (output r) = true;
  adm_source : is_wildcard r = true → inside (wildcard_source r);
  adm_file : output r ∉ dom (files st);
  adm_directory : output r ∉ dom (directories st);
  adm_above : ∀ q, q ∈ ancestors (output r) → q ∉ dom (files st) ∧ banned_suffix st q = None;
  adm_simple : is_wildcard r = false → banned_suffix st (output r) = None;
  adm_wildcard : is_wildcard r = true →
    (∀ p, p ∈ dom (files st) ∪ dom (directories st) →
          ends_in_it (parent_path (output r)) (suffix_of_rule r) p = false) ∧
    (∀ b, b ∈ default [] (banned_suffixes st !! parent_path (output r)) →
          ends_with (banned_text b) (suffix_of_rule r) = false ∧
          ends_with (suffix_of_rule r) (banned_text b) = false);
}.

Lemma check_place_passes st lhs wildcard out :
  check_place st lhs wildcard out = Value tt →
  (wildcard = true → is_wildcard_pattern out = true) ∧
  out ∉ dom (files st) ∧ out ∉ dom (directories st) ∧
  ∀ q, q ∈ ancestors out → q ∉ dom (files st) ∧ banned_suffix st q = None.
Proof.
  unfold check_place. intros H.
  apply bind_Value in H as (u & Hstar & H). apply reject_if_Value in Hstar.
  apply bind_Value in H as ([] & Hfile & H). destruct (files st !! out) eqn:?; [done|].
  apply bind_Value in H as ([] & Hdir & H). destruct (directories st !! out) eqn:?; [done|].
  apply bind_Value in H as ([] & Habove & H).
  destruct (head (omap (λ _, _) _)) eqn:? in Habove; [done|].
  destruct (head (omap (banned_suffix st) _)) eqn:? in H; [done|].
  split_and!; [by intros ->; destruct (is_wildcard_pattern out)|by apply not_elem_of_dom..|].
  intros q Hq. split.
  - apply not_elem_of_dom. by apply (head_omap_None (λ p, files st !! p) (ancestors out)).
  - by apply (head_omap_None (banned_suffix st) (ancestors out)).
Qed.

Lemma check_wildcard_passes st lhs out :
  check_wildcard st lhs out = Value tt →
  let s := suffix (name_pattern (filename out)) in
  (∀ p, p ∈ dom (files st) ∪ dom (directories st) → ends_in_it (parent_path out) s p = false) ∧
  (∀ b, b ∈ default [] (banned_suffixes st !! parent_path out) →
        ends_with (banned_text b) s = false ∧ ends_with s (banned_text b) = false).
Proof.
  unfold check_wildcard. intros H.
  apply bind_Value in H as ([] & Hfiles & H).
  destruct (first_such _ (in_order (files st))) as [[??]|] eqn:Ef in Hfiles; simplify_eq.
  apply bind_Value in H as ([] & Hdirs & H).
  destruct (first_such _ (in_order (directories st))) as [[??]|] eqn:Ed in Hdirs; simplify_eq.
  destruct (first_such _ (default _ _)) eqn:Eb in H; simplify_eq.
  split.
  - intros p [Hp|Hp]%elem_of_union.
    + by apply (first_in_order_None _ (files st)) with p in Ef.
    + by apply (first_in_order_None _ (directories st)) with p in Ed.
  - intros b Hb. rewrite first_such_None in Eb. by apply Eb, orb_false_elim in Hb.
Qed.

Lemma read_line_admissible st text lhs r copied :
  read_line st text = Value (lhs, r, copied) → admissible st r.
Proof.
  unfold read_line. intros H.
  apply bind_Value in H as ([[l act] argument] & Hread & H).
  apply bind_Value in H as ([source over] & Hsource & H).
  apply bind_Value in H as ([cmd cop] & Hcmd & H).
  apply bind_Value in H as (out & Hout & H).
  destruct (to_inside_path (drop 2 l)) as [p|] eqn:Hp; simplify_eq.
  apply bind_Value in H as ([] & Hplace & H).
  apply bind_Value in H as ([] & Hlast & H).
  apply check_place_passes in Hplace as (Hstar & Hfile & Hdir & Habove).
  injection H as <- <- <-.
  assert (contains_char star l = true → inside source) as Hsrc.
  { intros E. rewrite E in Hsource. unfold read_sources in Hsource.
    apply bind_Value in Hsource as (? & _ & Hsource).
    apply bind_Value in Hsource as (? & _ & Hsource).
    destruct (contains_char quote2 _ || _) in Hsource; [done|].
    destruct (to_inside_path _) as [q|] eqn:Hq in Hsource; [|done].
    destruct (is_wildcard_pattern q); [|done]. injection Hsource as <- _.
    by eapply to_inside_path_inside. }
  assert (is_wildcard {| output := out; action := act; command := cmd;
                         wildcard_source := source; wildcard_over_outputs := over |}
          = contains_char star l) as Hw.
  { unfold is_wildcard; simpl. destruct (contains_char star l) eqn:E.
    - destruct Hsrc as [? ? ?]; [done|]. unfold is_empty. destruct source as [? [|??]]; simpl in *; [done|].
      by rewrite andb_false_r.
    - by injection Hsource as <- <-. }
  constructor; rewrite ?Hw; simpl; try done.
  - by eapply to_inside_path_inside.
  - intros E. rewrite E in Hlast. unfold check_simple in Hlast. by destruct (banned_suffix st out).
  - intros E. rewrite E in Hlast. by apply check_wildcard_passes in Hlast.
Qed.

(** ** What rules can produce *)

(** The outputs a rule stands for: its own, or one per name its source pattern
    matches, whatever that name is. *)
Inductive produces (r : Rule) : path → Prop :=
  | produces_simple : is_wildcard r = false → produces r (output r)
  | produces_match name r' :
      is_wildcard r = true → slash ∉ name → instantiate r name = Some r' →
      produces r (output r').

Definition apart (r1 r2 : Rule) : Prop :=
  ∀ o1 o2, produces r1 o1 → produces r2 o2 →
    o1 ≠ o2 ∧ ¬ is_above o1 o2 ∧ ¬ is_above o2 o1.

Lemma name_pattern_sub name c :
  (c ∈ prefix (name_pattern name) → c ∈ name) ∧ (c ∈ suffix (name_pattern name) → c ∈ name).
Proof.
  unfold name_pattern. destruct (find_char star name) as [i|] eqn:E; simpl; [|done].
  apply find_char_Some in E as [E _]. 
  split; intros Hc; rewrite E, elem_of_app; [by left | right; by right].
Qed.

Lemma instantiate_output r name r' :
  inside (output r) → slash ∉ name → instantiate r name = Some r' →
  ∃ stem, stem ≠ [] ∧
    output r' = Path false (names (parent_path (output r)) ++
                            [prefix (name_pattern (filename (output r))) ++ stem ++ suffix_of_rule r]).
Proof.
  intros Hin Hslash (stem & Hne & -> & ->)%instantiate_iff. exists stem. split; [done|]. simpl.
  rewrite append_name; [|by apply inside_parent|..].
  - unfold parent_path; simpl. by rewrite (inside_relative _ Hin).
  - by intros [_ [? _]%app_nil]%app_nil.
  - pose proof (inside_filename _ Hin) as (_ & _ & _ & Hf).
    pose proof (name_pattern_sub (filename (output r)) slash) as [Hpre Hsuf].
    rewrite !elem_of_app in *. naive_solver.
Qed.

Lemma produces_parent r o :
  inside (output r) → produces r o →
  root_directory o = false ∧ names o ≠ [] ∧ parent_path o = parent_path (output r) ∧
  (is_wildcard r = true → suffix_of_rule r `suffix_of` filename o).
Proof.
  intros Hin Ho. pose proof Hin as [Hr Hne _]. destruct Ho as [Hw|name r' Hw Hslash Hinst].
  - split_and!; [done..|congruence].
  - destruct (instantiate_output r name r') as (stem & _ & ->); [done..|].
    unfold parent_path, filename; simpl. rewrite removelast_last, last_snoc, Hr. simpl.
    split_and!; [done|by destruct (removelast _)|done|].
    intros _. rewrite app_assoc. by apply suffix_app_r.
Qed.

Lemma is_above_iff p q : is_above p q ↔
  root_directory p = root_directory q ∧ names q ≠ [] ∧
  names p `prefix_of` names (parent_path q).
Proof.
  unfold is_above. split.
  - intros (Hr & n & ns & E). split_and!; [done|rewrite E; by destruct (names p)|].
    unfold parent_path; simpl. rewrite E. destruct ns as [|m ms _] using rev_ind.
    + by rewrite removelast_last.
    + rewrite app_comm_cons, app_assoc, removelast_last. by eexists.
  - intros (Hr & Hne & [k E]). split; [done|]. rewrite (path_split q Hne), E, <- app_assoc.
    destruct k as [|n k]; simpl; eauto.
Qed.

Lemma above_produced r o p :
  inside (output r) → produces r o → names p ≠ [] →
  is_above p o → p ∈ ancestors (output r).
Proof.
  intros Hin Ho Hne. pose proof Hin as [Hr Hn _].
  destruct (produces_parent r o) as (Hro & _ & Hp & _); [done..|].
  rewrite elem_of_ancestors, !is_above_iff, Hp by done. rewrite Hro, Hr. naive_solver.
Qed.

Record declared_ok (st : state) : Prop := {
  ok_inside r : r ∈ rules st → inside (output r);
  ok_star r : r ∈ rules st → is_wildcard r = true →
    is_wildcard_pattern (output r) = true ∧ inside (wildcard_source r);
  ok_files r : r ∈ rules st → is_wildcard r = false → output r ∈ dom (files st);
  ok_directories r q : r ∈ rules st → q ∈ ancestors (output r) → q ∈ dom (directories st);
  ok_banned r : r ∈ rules st → is_wildcard r = true →
    ∃ b, b ∈ default [] (banned_suffixes st !! parent_path (output r)) ∧
         banned_text b = suffix_of_rule r;
  ok_apart : StronglySorted apart (rules st);
}.

Lemma banned_suffix_hits st p b :
  b ∈ default [] (banned_suffixes st !! parent_path p) →
  banned_text b `suffix_of` filename p → banned_suffix st p ≠ None.
Proof.
  unfold banned_suffix. rewrite first_such_None. intros Hb Hs H.
  apply H in Hb. by apply bool_decide_eq_false in Hb.
Qed.

Lemma ends_in_it_hits r o :
  inside (output r) → is_wildcard r = true → produces r o →
  ends_in_it (parent_path (output r)) (suffix_of_rule r) o = true.
Proof.
  intros Hin Hw Ho. destruct (produces_parent r o) as (_ & _ & Hp & Hs); [done..|].
  unfold ends_in_it. rewrite andb_true_iff, bool_decide_eq_true, ends_with_true. auto.
Qed.

Lemma produces_simple_inv r o : is_wildcard r = false → produces r o → o = output r.
Proof. intros Hw Ho. destruct Ho; congruence. Qed.

(** An accepted rule is apart from every rule declared before it. *)
Lemma admissible_apart st r r' :
  declared_ok st → admissible st r → r' ∈ rules st → apart r' r.
Proof.
  intros Hok Hadm Hr' o' o Ho' Ho.
  pose proof (adm_inside _ _ Hadm) as Hin. pose proof (ok_inside _ Hok r' Hr') as Hin'.
  destruct (produces_parent r o Hin Ho) as (Hro & Hno & Hpo & Hso).
  destruct (produces_parent r' o' Hin' Ho') as (Hro' & Hno' & Hpo' & Hso').
  assert (o' ∈ dom (files st) ∨ banned_suffix st o' ≠ None) as Hhit'.
  { destruct (is_wildcard r') eqn:Hw'.
    - right. destruct (ok_banned _ Hok r' Hr' Hw') as (b & Hb & Hbt).
      rewrite <- Hpo' in Hb. apply banned_suffix_hits with b; [done|]. rewrite Hbt. auto.
    - left. rewrite (produces_simple_inv r' o' Hw' Ho'). by apply ok_files. }
  split_and!.
  - intros ->. destruct (is_wildcard r) eqn:Hw.
    + destruct (adm_wildcard _ _ Hadm Hw) as [Hplace Hbanned]. destruct (is_wildcard r') eqn:Hw'.
      * destruct (ok_banned _ Hok r' Hr' Hw') as (b & Hb & Hbt).
        rewrite <- Hpo', Hpo in Hb. destruct (Hbanned b Hb) as [H1 H2]. bool_to_prop.
        rewrite Hbt in *. destruct (suffix_comparable (suffix_of_rule r) (suffix_of_rule r') (filename o));
          auto.
      * rewrite (produces_simple_inv r' o Hw' Ho') in *.
        pose proof (ok_files _ Hok r' Hr' Hw') as Hf.
        pose proof (Hplace (output r') ltac:(by apply elem_of_union_l)).
        pose proof (ends_in_it_hits r (output r') Hin Hw Ho). congruence.
    + rewrite (produces_simple_inv r o Hw Ho) in *.
      destruct Hhit' as [Hf|Hb]; [by apply (adm_file _ _ Hadm)|].
      by apply Hb, (adm_simple _ _ Hadm).
  - intros Habove. apply (above_produced r o o') in Habove; [|done..].
    apply (adm_above _ _ Hadm) in Habove as [??]. by destruct Hhit'.
  - intros Habove. apply (above_produced r' o' o) in Habove; [|done..].
    pose proof (ok_directories _ Hok r' o Hr' Habove) as Hd. destruct (is_wildcard r) eqn:Hw.
    + destruct (adm_wildcard _ _ Hadm Hw) as [Hplace _].
      pose proof (Hplace o ltac:(by apply elem_of_union_r)).
      pose proof (ends_in_it_hits r o Hin Hw Ho). congruence.
    + rewrite (produces_simple_inv r o Hw Ho) in Hd. by apply (adm_directory _ _ Hadm).
Qed.

(** ** The invariant of the loop over the lines *)

Lemma dom_foldl_emplace {A} (ps : list path) (a : A) m q :
  q ∈ dom (foldl (λ m p, emplace p a m) m ps) ↔ q ∈ ps ∨ q ∈ dom m.
Proof.
  revert m. induction ps as [|p ps IH]; intros m; simpl; [set_solver|].
  rewrite IH, elem_of_dom_emplace. set_solver.
Qed.

Lemma initial_ok : declared_ok initial.
Proof. constructor; simpl; try (intros ? H; by apply elem_of_nil in H); [|constructor].
  intros r q H. by apply elem_of_nil in H. Qed.

Lemma accept_ok st number lhs r copied :
  declared_ok st → admissible st r → declared_ok (accept number lhs r copied st).
Proof.
  intros Hok Hadm. constructor; simpl; try setoid_rewrite elem_of_app; try setoid_rewrite list_elem_of_singleton.
  - intros r' [?| ->]; [by apply ok_inside with st|by apply adm_inside with st].
  - intros r' [?| ->] Hw; [by apply ok_star with st|]. split; [by apply (adm_star st)|by apply (adm_source st)].
  - intros r' [Hr| ->] Hw; [apply ok_files in Hr; [|done..]|].
    + destruct (is_wildcard r); [done|]. rewrite elem_of_dom_emplace. by right.
    + rewrite Hw, elem_of_dom_emplace. by left.
  - intros r' q [Hr| ->] Hq; rewrite dom_foldl_emplace; [right|by left].
    by apply ok_directories with r'.
  - intros r' [Hr| ->] Hw.
    + destruct (ok_banned _ Hok r' Hr Hw) as (b & Hb & Hbt). exists b. split; [|done].
      destruct (is_wildcard r); [|done].
      destruct (decide (parent_path (output r) = parent_path (output r'))) as [->|].
      * rewrite lookup_insert_eq. simpl. rewrite elem_of_app. by left.
      * by rewrite lookup_insert_ne.
    + rewrite Hw, lookup_insert_eq. simpl. eexists. rewrite elem_of_app, list_elem_of_singleton.
      split; [by right|done].
  - apply StronglySorted_snoc; [by apply ok_apart|].
    intros r' Hr'. by apply admissible_apart with st.
Qed.

Lemma reject_ok st number why : declared_ok st → declared_ok (reject number why st).
Proof. intros []; by constructor. Qed.

Lemma parse_line_ok st number text : declared_ok st → declared_ok (parse_line number text st).
Proof.
  intros Hok. unfold parse_line. destruct (is_skipped _); [done|].
  destruct (read_line _ _) as [[[lhs r] copied]|why] eqn:E; [|by apply reject_ok].
  apply accept_ok; [done|]. by eapply read_line_admissible.
Qed.

Lemma parse_lines_ok number texts st : declared_ok st → declared_ok (parse_lines number texts st).
Proof.
  revert number st. induction texts as [|text texts IH]; intros number st Hok; simpl; [done|].
  apply IH. by apply parse_line_ok.
Qed.

Lemma keep_rules_sublist drop rs : keep_rules drop rs `sublist_of` rs.
Proof.
  unfold keep_rules. assert (snd <$> imap pair rs = rs) as Hrs.
  { apply list_eq. intros i. rewrite list_lookup_fmap, list_lookup_imap. by destruct (rs !! i). }
  rewrite <- Hrs at 2. apply (fmap_sublist snd), sublist_filter.
Qed.

Lemma parse_rules_ok text :
  StronglySorted apart (manifest_rules (parse text)) ∧
  ∀ r, r ∈ manifest_rules (parse text) →
    inside (output r) ∧
    (is_wildcard r = true → is_wildcard_pattern (output r) = true ∧ inside (wildcard_source r)).
Proof.
  pose proof (parse_lines_ok 1 (split_on newline text) initial initial_ok) as Hok.
  unfold parse, finish, read_all_lines; simpl. split.
  - eapply sublist_StronglySorted; [apply keep_rules_sublist|]. by apply ok_apart.
  - intros r Hr. eapply elem_of_sublist in Hr; [|apply keep_rules_sublist].
    split; [by apply (ok_inside _ Hok)|by apply (ok_star _ Hok)].
Qed.

(** ** Endless wildcards *)

Section closure.
Variables (n : nat) (feeds : gset (nat * nat)).
Hypothesis in_range : ∀ a b, (a, b) ∈ feeds → a < n ∧ b < n.

Let edge (a b : nat) : Prop := (a, b) ∈ feeds.

(** Connected through intermediate rules below [k]. *)
Inductive thru (k : nat) : nat → nat → Prop :=
  | thru_edge a b : edge a b → thru k a b
  | thru_via a b m : m < k → thru k a m → thru k m b → thru k a b.

Lemma thru_split k a b : thru (S k) a b → thru k a b ∨ (thru k a k ∧ thru k k b).
Proof.
  induction 1 as [a b H|a b m Hm _ IH1 _ IH2]; [left; by constructor|].
  destruct (decide (m = k)) as [->|Hne]; [naive_solver|].
  assert (m < k) by lia.
  destruct IH1 as [?|[? ?]], IH2 as [?|[? ?]].
  - left. by apply thru_via with m.
  - right. split; [by apply thru_via with m|done].
  - right. split; [done|by apply thru_via with m].
  - by right.
Qed.

Lemma thru_tc k a b : thru k a b → tc edge a b.
Proof. induction 1; [by constructor|]. by eapply tc_transitive. Qed.

Lemma tc_thru a b : tc edge a b → thru n a b.
Proof.
  induction 1 as [a b H|a m b H _ IH]; [by constructor|].
  apply thru_via with m; [by apply in_range in H as [_ ?]|by constructor|done].
Qed.

Lemma thru_range k a b : thru k a b → a < n ∧ b < n.
Proof. induction 1 as [a b H|]; [by apply in_range in H|naive_solver]. Qed.

Lemma close_one_mono via ab f : f ⊆ close_one via ab f.
Proof. unfold close_one. case_decide; set_solver. Qed.

Lemma close_fold_mono via l f : f ⊆ foldl (λ f ab, close_one via ab f) f l.
Proof.
  revert f. induction l as [|ab l IH]; intros f; simpl; [done|].
  etrans; [apply close_one_mono|apply IH].
Qed.

Lemma close_fold_adds via l f a b :
  (a, b) ∈ l → (a, via) ∈ f → (via, b) ∈ f → (a, b) ∈ foldl (λ f ab, close_one via ab f) f l.
Proof.
  revert f. induction l as [|ab l IH]; intros f Hin Ha Hb; simpl; [by apply elem_of_nil in Hin|].
  apply elem_of_cons in Hin as [<-|Hin].
  - apply close_fold_mono. unfold close_one; simpl. rewrite decide_True by done. set_solver.
  - apply IH; [done|by apply close_one_mono..].
Qed.

Lemma close_fold_sound via l f :
  (∀ a b, (a, b) ∈ f → tc edge a b) →
  ∀ a b, (a, b) ∈ foldl (λ f ab, close_one via ab f) f l → tc edge a b.
Proof.
  revert f. induction l as [|[x y] l IH]; intros f Hf a b; simpl; [by apply Hf|].
  apply IH. intros a' b'. unfold close_one; simpl. case_decide as Hd; [|by apply Hf].
  rewrite elem_of_union, elem_of_singleton. intros [[= -> ->]|?]; [|by apply Hf].
  destruct Hd. eapply tc_transitive; by apply Hf.
Qed.

Lemma elem_of_pairs a b : (a, b) ∈ pairs n ↔ a < n ∧ b < n.
Proof. unfold pairs. rewrite list_elem_of_In, in_prod_iff, !in_seq. lia. Qed.

Lemma close_feeds_spec a b : (a, b) ∈ close_feeds n feeds ↔ tc edge a b.
Proof.
  unfold close_feeds.
  assert (∀ k, (∀ a b, (a, b) ∈ foldl (close_via n) feeds (seq 0 k) → tc edge a b) ∧
               (∀ a b, thru k a b → (a, b) ∈ foldl (close_via n) feeds (seq 0 k))) as Hk.
  { induction k as [|k [IHs IHc]].
    - simpl. split; [by constructor|]. intros x y. induction 1; [done|lia].
    - rewrite seq_S, foldl_app. simpl. split.
      + by apply close_fold_sound.
      + intros x y Hxy. destruct (thru_split _ _ _ Hxy) as [Hx|[Hx Hy]].
        * apply close_fold_mono. auto.
        * apply close_fold_adds; [|by apply IHc..].
          apply elem_of_pairs. by apply thru_range in Hxy. }
  split; [apply Hk|]. intros H. by apply Hk, tc_thru.
Qed.
End closure.

(** Rule [i] of [rs] can produce something rule [j] can match. *)
Definition feeds_rel (rs : list Rule) (i j : nat) : Prop :=
  ∃ a b, rs !! i = Some a ∧ rs !! j = Some b ∧ feeds_directly a b = true.

Lemma elem_of_feeds_initial rs i j : (i, j) ∈ feeds_initial rs ↔ feeds_rel rs i j.
Proof.
  unfold feeds_initial, feeds_rel. rewrite elem_of_list_to_set, list_elem_of_filter, elem_of_pairs.
  simpl. split.
  - intros [H _]. repeat case_match; try done. naive_solver.
  - intros (a & b & Ha & Hb & H). rewrite Ha, Hb. apply lookup_lt_Some in Ha, Hb. done.
Qed.

Lemma feeds_of_spec rs i j : (i, j) ∈ feeds_of rs ↔ tc (feeds_rel rs) i j.
Proof.
  unfold feeds_of. rewrite close_feeds_spec.
  - split; apply tc_congruence with (f := id); intros ?? H; by apply elem_of_feeds_initial.
  - intros a b (x & y & Ha & Hb & _)%elem_of_feeds_initial.
    by apply lookup_lt_Some in Ha, Hb.
Qed.
