(* ===== verification/ManifestSpec.v ===== *)
(** * What the manifest parser promises

    The theorems about [Manifest.parse] that its callers rely on. *)

From S2P Require Export ManifestFacts.

(** ** Lines and errors *)

(** The lines that declare something or try to. *)
Definition significant (text : str) : bool := negb (is_skipped (trim text)).

(** The numbers of the significant lines among [texts], the first being line
    [number]. *)
Fixpoint significant_lines (number : nat) (texts : list str) : list nat :=
  match texts with
  | [] => []
  | t :: texts' =>
      (if significant t then [number] else []) ++ significant_lines (S number) texts'
  end.

(** The line [text] declares [r]: it is [@/<output> = <action> <argument>], and
    [r] has that output and that action and, unless it is copied, that argument
    for its command. *)
Definition line_declares (text : str) (r : Rule) : Prop :=
  ∃ left right name,
    trim text = left ++ "="%char :: right ∧ "="%char ∉ left ∧
    trim left = lit "@/" ++ name ∧ to_inside_path name = Some (output r) ∧
    to_action (first_word (trim right)) = Some (action r) ∧
    (action r ≠ Copy → command r = trim (drop (length (first_word (trim right))) (trim right))).

(** [texts] are the lines read so far, the first being line 1. *)
Record counted (texts : list str) (st : state) : Prop := {
  counted_lines : Forall2 (λ n r, ∃ k text, n = S k ∧ texts !! k = Some text ∧ line_declares text r)
                    (lines st) (rules st);
  counted_all : lines st ++ (line <$> errors st) ≡ₚ significant_lines 1 texts;
  counted_copies : NoDup (copy_rule <$> copies st);
  counted_copy c : c ∈ copies st →
    lines st !! copy_rule c = Some (copy_line c) ∧
    ∀ r, rules st !! copy_rule c = Some r → is_wildcard r = false;
  counted_ordered : StronglySorted lt (lines st);
  counted_rules n : n ∈ lines st → n ≤ length texts;
  counted_before e : e ∈ errors st → line e ≤ length texts;
  counted_sorted : StronglySorted (λ a b, line a ≤ line b) (errors st);
}.

Lemma initial_counted : counted [] initial.
Proof.
  constructor; simpl; [constructor|done|apply NoDup_nil_2|by intros ? ?%elem_of_nil|constructor|
    by intros ? ?%elem_of_nil..|constructor].
Qed.

Lemma read_command_copied lhs act argument wildcard out source over cmd s :
  read_command lhs act argument wildcard out source over = Value (cmd, Some s) → wildcard = false.
Proof. unfold read_command. by destruct act, wildcard. Qed.

Lemma read_line_copied st text lhs r s :
  read_line st text = Value (lhs, r, Some s) → is_wildcard r = false.
Proof.
  unfold read_line. intros H.
  apply bind_Value in H as ([[l act] argument] & _ & H).
  apply bind_Value in H as ([source over] & Hsource & H).
  apply bind_Value in H as ([cmd cop] & Hcmd & H).
  apply bind_Value in H as (out & _ & H).
  apply bind_Value in H as ([] & _ & H). apply bind_Value in H as ([] & _ & H).
  injection H as <- <- ->. apply read_command_copied in Hcmd.
  rewrite Hcmd in Hsource. by injection Hsource as <- <-.
Qed.

Lemma significant_lines_snoc number texts t :
  significant_lines number (texts ++ [t]) =
    significant_lines number texts ++ (if significant t then [number + length texts] else []).
Proof.
  revert number. induction texts as [|u texts IH]; intros number; simpl.
  - by rewrite Nat.add_0_r, app_nil_r.
  - by rewrite IH, <- app_assoc, Nat.add_succ_r.
Qed.

Lemma read_assignment_says text left act argument :
  read_assignment text = Value (left, act, argument) →
  ∃ l r, text = l ++ "="%char :: r ∧ "="%char ∉ l ∧ trim l = left ∧
    (∃ name, left = lit "@/" ++ name) ∧ to_action (first_word (trim r)) = Some act ∧
    argument = trim (drop (length (first_word (trim r))) (trim r)).
Proof.
  unfold read_assignment. intros H.
  apply bind_Value in H as (equals & He & H). destruct (find_char _ _) as [i|] eqn:Ef; [|done].
  injection He as <-. apply find_char_Some in Ef as [Ef Hn].
  apply bind_Value in H as ([] & Hs & H). apply bind_Value in H as (act' & Ha & H).
  destruct (to_action _) as [a|] eqn:Eact; [|done]. injection Ha as <-.
  exists (take i text), (drop (S i) text).
  assert (trim (take i text) = left ∧ a = act ∧
    argument = trim (drop (length (first_word (trim (drop (S i) text)))) (trim (drop (S i) text)))) as (<- & <- & ->).
  { destruct a; apply bind_Value in H as (? & _ & H); by injection H as <- <- <-. }
  split; [done|]. split; [done|]. split; [done|]. split; [|done].
  unfold reject_if in Hs. destruct (starts_with _ _) eqn:E; [|done].
  by apply starts_with_true in E as [name ->]; exists name.
Qed.

Lemma read_command_plain lhs act argument wildcard out source over cmd cop :
  act ≠ Copy → read_command lhs act argument wildcard out source over = Value (cmd, cop) → cmd = argument.
Proof. unfold read_command. destruct act; [..|done|]; by intros _ [=]. Qed.

Lemma read_line_declares st text lhs r copied :
  read_line st (trim text) = Value (lhs, r, copied) → line_declares text r.
Proof.
  unfold read_line. intros H.
  apply bind_Value in H as ([[l act] argument] & Ha & H).
  apply bind_Value in H as ([source over] & Hsource & H).
  apply bind_Value in H as ([cmd cop] & Hcmd & H).
  apply bind_Value in H as (out & Hout & H).
  apply bind_Value in H as ([] & _ & H). apply bind_Value in H as ([] & _ & H).
  injection H as <- <- <-.
  apply read_assignment_says in Ha as (a & b & E & Hn & Hl & (name & ->) & Hact & ->).
  exists a, b, name. simpl. split_and!; try done.
  - rewrite drop_app_length' in Hout by done. destruct (to_inside_path name) as [p|]; [|done].
    by injection Hout as ->.
  - intros Hc. by eapply read_command_plain.
Qed.

Lemma counted_declares_more texts t ls rs :
  Forall2 (λ n r, ∃ k text, n = S k ∧ texts !! k = Some text ∧ line_declares text r) ls rs →
  Forall2 (λ n r, ∃ k text, n = S k ∧ (texts ++ [t]) !! k = Some text ∧ line_declares text r) ls rs.
Proof.
  intros Hl. eapply Forall2_impl; [exact Hl|]. intros n r (k & text & ? & Hk & ?). exists k, text. split_and!; [done| |done].
  by apply lookup_app_l_Some.
Qed.

Lemma skip_counted texts t st :
  significant t = false → counted texts st → counted (texts ++ [t]) st.
Proof.
  intros Ht [Hl Ha Hn Hc Ho Hr Hb Hs]. constructor; try done.
  - by apply counted_declares_more.
  - by rewrite significant_lines_snoc, Ht, app_nil_r.
  - intros n Hin%Hr. rewrite length_app. lia.
  - intros e Hin%Hb. rewrite length_app. lia.
Qed.

Lemma accept_counted texts t lhs r copied st :
  significant t = true → line_declares t r → (copied = None ∨ is_wildcard r = false) →
  counted texts st → counted (texts ++ [t]) (accept (S (length texts)) lhs r copied st).
Proof.
  intros Ht Hdecl Hcop [Hl Ha Hn Hc Ho Hr Hb Hs]. pose proof (Forall2_length _ _ _ Hl) as Hlen.
  assert (∀ c, c ∈ copies st → (lines st ++ [S (length texts)]) !! copy_rule c = Some (copy_line c) ∧
    ∀ r0, (rules st ++ [r]) !! copy_rule c = Some r0 → is_wildcard r0 = false) as Hold.
  { intros c [Hlt Hw]%Hc. split; [by apply lookup_app_l_Some|]. intros r0.
    rewrite lookup_app_l by (rewrite <- Hlen; by apply lookup_lt_Some in Hlt). apply Hw. }
  constructor; simpl.
  - apply Forall2_app; [by apply counted_declares_more|]. apply Forall2_cons. split; [|constructor].
    exists (length texts), t. split; [done|]. split; [|done]. by rewrite lookup_app_r, Nat.sub_diag by done.
  - rewrite significant_lines_snoc, Ht, <- Ha, <- !app_assoc. apply Permutation_app_head.
    simpl. apply Permutation_cons_append.
  - destruct copied; [|done]. rewrite fmap_app. simpl. apply NoDup_app.
    split_and!; [done| |apply NoDup_singleton].
    intros x (c & -> & Hx)%list_elem_of_fmap E%list_elem_of_singleton.
    apply Hc in Hx as [Hx%lookup_lt_Some _]. lia.
  - intros c. destruct copied as [s|]; [|apply Hold].
    rewrite elem_of_app, list_elem_of_singleton. intros [?| ->]; [by apply Hold|]. simpl.
    rewrite <- Hlen at 1. split; [by apply list_lookup_middle|]. intros r0.
    rewrite list_lookup_middle by done. destruct Hcop; [done|]. by intros [= <-].
  - apply StronglySorted_snoc; [done|]. intros n Hin%Hr. lia.
  - intros n. rewrite length_app, elem_of_app, list_elem_of_singleton. simpl. intros [Hin%Hr| ->]; lia.
  - intros e He%Hb. rewrite length_app. lia.
  - done.
Qed.

Lemma reject_counted texts t why st :
  significant t = true → counted texts st → counted (texts ++ [t]) (reject (S (length texts)) why st).
Proof.
  intros Ht [Hl Ha Hn Hc Ho Hr Hb Hs]. constructor; simpl; try done.
  - by apply counted_declares_more.
  - by rewrite significant_lines_snoc, Ht, <- Ha, fmap_app, <- app_assoc.
  - intros n Hin%Hr. rewrite length_app. lia.
  - intros e. rewrite length_app, elem_of_app, list_elem_of_singleton. intros [He%Hb| ->]; simpl; lia.
  - apply StronglySorted_snoc; [done|]. intros e He%Hb. simpl. lia.
Qed.

Lemma parse_line_counted texts t st :
  counted texts st → counted (texts ++ [t]) (parse_line (S (length texts)) t st).
Proof.
  intros Hst. unfold parse_line. destruct (is_skipped (trim t)) eqn:Hsk.
  { apply skip_counted; [|done]. unfold significant. by rewrite Hsk. }
  assert (significant t = true) as Ht by (unfold significant; by rewrite Hsk).
  destruct (read_line _ _) as [[[lhs r] copied]|why] eqn:E; [|by apply reject_counted].
  apply accept_counted; [done|by eapply read_line_declares| |done].
  destruct copied; [right; by eapply read_line_copied|by left].
Qed.

Lemma parse_lines_counted before texts st :
  counted before st → counted (before ++ texts) (parse_lines (S (length before)) texts st).
Proof.
  revert before st. induction texts as [|t texts IH]; intros before st Hst; simpl; [by rewrite app_nil_r|].
  apply (parse_line_counted _ t), IH in Hst. rewrite length_app, <- app_assoc in Hst.
  simpl in Hst. by rewrite Nat.add_1_r in Hst.
Qed.

Lemma elem_of_endless rs i : i ∈ endless_rules rs ↔ tc (feeds_rel rs) i i.
Proof.
  unfold endless_rules. rewrite list_elem_of_filter, elem_of_seq, feeds_of_spec. split; [naive_solver|].
  intros H. split; [done|]. inversion H as [? ? (?&?&Hx%lookup_lt_Some&_)|? ? ? (?&?&Hx%lookup_lt_Some&_)];
    subst; lia.
Qed.

Lemma feeds_rel_wildcard rs i j : feeds_rel rs i j → ∃ r, rs !! i = Some r ∧ is_wildcard r = true.
Proof.
  intros (a & b & Ha & _ & H). exists a. split; [done|]. unfold feeds_directly in H. by bool_to_prop.
Qed.

Lemma endless_wildcard rs i : i ∈ endless_rules rs → ∃ r, rs !! i = Some r ∧ is_wildcard r = true.
Proof. intros H%elem_of_endless. by inversion H; subst; eapply feeds_rel_wildcard. Qed.

Lemma dropped_NoDup texts st : counted texts st → NoDup (dropped st).
Proof.
  intros [_ _ Hn Hc _ _ _ _]. unfold dropped. apply NoDup_app. split_and!.
  - eapply sublist_NoDup; [done|]. apply (fmap_sublist copy_rule), sublist_filter.
  - intros i (c & -> & Hin)%list_elem_of_fmap (r & Hr & Hw)%endless_wildcard.
    apply list_elem_of_filter in Hin as [_ Hin]. apply Hc in Hin as [_ Hin].
    apply Hin in Hr. congruence.
  - unfold endless_rules. apply NoDup_filter, NoDup_seq.
Qed.

Lemma dropped_range texts st i : counted texts st → i ∈ dropped st → i < length (lines st).
Proof.
  intros [Hl _ _ Hc _ _ _ _]. unfold dropped. rewrite elem_of_app. intros [H|H].
  - apply list_elem_of_fmap in H as (c & -> & [_ H]%list_elem_of_filter).
    by apply Hc in H as [?%lookup_lt_Some _].
  - rewrite (Forall2_length _ _ _ Hl). by apply endless_wildcard in H as (? & ?%lookup_lt_Some & _).
Qed.

(** The lines of what is dropped. *)
Lemma dropped_lines texts st :
  counted texts st →
  line <$> ((undeclared_error <$> undeclared_copies st) ++ (endless_error st <$> endless_rules (rules st))) =
    (λ i, default 0 (lines st !! i)) <$> dropped st.
Proof.
  intros [_ _ _ Hc _ _ _ _]. unfold dropped. rewrite !fmap_app, <- !list_fmap_compose. f_equal.
  apply list_fmap_ext. intros i c Hi. simpl.
  apply list_elem_of_lookup_2, list_elem_of_filter in Hi as [_ Hi]. by apply Hc in Hi as [-> _].
Qed.

(** What [keep_rules] does to the rules, done to any list along with them. *)
Definition kept {A} (drop : list nat) (l : list A) : list A :=
  snd <$> filter (λ ir, ir.1 ∉ drop) (imap pair l).

Lemma kept_fmap_from {A B} (f : A → B) (drop : list nat) (g : nat → nat) l :
  snd <$> filter (λ ir, ir.1 ∉ drop) (imap (λ i, pair (g i)) (f <$> l)) =
  f <$> (snd <$> filter (λ ir, ir.1 ∉ drop) (imap (λ i, pair (g i)) l)).
Proof.
  revert g. induction l as [|x l IH]; intros g; [done|]. rewrite fmap_cons, !imap_cons, !filter_cons. simpl.
  destruct (decide _); simpl; [f_equal|]; apply (IH (g ∘ S)).
Qed.

Lemma kept_fmap {A B} (f : A → B) drop l : kept drop (f <$> l) = f <$> kept drop l.
Proof. apply (kept_fmap_from f drop id). Qed.

Lemma imap_pair_snd {A} (l : list A) : snd <$> imap pair l = l.
Proof.
  apply list_eq. intros i. rewrite list_lookup_fmap, list_lookup_imap. by destruct (l !! i).
Qed.

Lemma kept_sublist {A} drop (l : list A) : kept drop l `sublist_of` l.
Proof. rewrite <- (imap_pair_snd l) at 2. apply fmap_sublist, sublist_filter. Qed.

Lemma kept_Forall2 {A B} (P : A → B → Prop) drop l k :
  Forall2 P l k → Forall2 P (kept drop l) (kept drop k).
Proof.
  intros Hlk. pose proof (Forall2_length _ _ _ Hlk) as Hlen.
  assert (kept drop l = fst <$> kept drop (zip l k)) as -> by (rewrite <- kept_fmap, fst_zip by lia; done).
  assert (kept drop k = snd <$> kept drop (zip l k)) as -> by (rewrite <- kept_fmap, snd_zip by lia; done).
  apply Forall2_fmap, Forall_Forall2_diag, Forall_forall. intros [a b] Hab. simpl.
  eapply elem_of_sublist in Hab; [|apply kept_sublist].
  apply list_elem_of_lookup in Hab as [i (? & ? & [= <- <-] & Ha & Hb)%lookup_zip_with_Some].
  by eapply Forall2_lookup_lr.
Qed.

Lemma imap_pair_dropped {A} (d : A) drop (l : list A) :
  NoDup drop → (∀ i, i ∈ drop → i < length l) →
  filter (λ ir, ir.1 ∈ drop) (imap pair l) ≡ₚ (λ i, (i, default d (l !! i))) <$> drop.
Proof.
  intros Hnd Hlt. apply NoDup_Permutation.
  - apply NoDup_filter. apply (NoDup_fmap_1 fst).
    replace (fst <$> imap pair l) with (seq 0 (length l)); [apply NoDup_seq|].
    apply list_eq. intros i. rewrite list_lookup_fmap, list_lookup_imap.
    destruct (l !! i) eqn:E; simpl.
    + rewrite lookup_seq_lt; [done|by apply lookup_lt_Some in E].
    + apply lookup_seq_ge. by apply lookup_ge_None in E.
  - apply NoDup_fmap; [|done]. by intros x y [=].
  - intros [i a]. rewrite list_elem_of_filter, list_elem_of_fmap, (list_elem_of_lookup (imap pair l)).
    setoid_rewrite list_lookup_imap. split.
    + intros [Hi [j Hj]]. destruct (l !! j) eqn:E; [|done]. injection Hj as <- ->.
      exists j. by rewrite E.
    + intros (j & [= -> ->] & Hj). split; [done|]. exists j.
      by destruct (lookup_lt_is_Some_2 l j (Hlt j Hj)) as [x ->].
Qed.

Lemma kept_dropped {A} (d : A) drop (l : list A) :
  NoDup drop → (∀ i, i ∈ drop → i < length l) →
  kept drop l ++ ((λ i, default d (l !! i)) <$> drop) ≡ₚ l.
Proof.
  intros Hnd Hlt. trans (snd <$> imap pair l); [|by rewrite imap_pair_snd].
  rewrite <- (filter_app_complement (λ ir : nat * A, ir.1 ∈ drop) (imap pair l)), fmap_app.
  rewrite (imap_pair_dropped d) by done. rewrite <- list_fmap_compose. apply Permutation_app_comm.
Qed.

(** Where the rule kept at [i] was declared. *)
Definition declared_at (drop : list nat) (rs : list Rule) (i : nat) : nat :=
  default 0 (fst <$> filter (λ ir, ir.1 ∉ drop) (imap pair rs) !! i).

Lemma keep_rules_lookup drop rs i r :
  keep_rules drop rs !! i = Some r →
  rs !! declared_at drop rs i = Some r ∧ declared_at drop rs i ∉ drop.
Proof.
  unfold keep_rules, declared_at. rewrite list_lookup_fmap.
  destruct (_ !! i) as [[j r']|] eqn:E; simpl; [|done]. intros [= ->].
  apply list_elem_of_lookup_2, list_elem_of_filter in E as [Hj E]. split; [|done].
  apply list_elem_of_lookup in E as [k E]. rewrite list_lookup_imap in E.
  by destruct (rs !! k) eqn:?; simplify_eq/=.
Qed.

Lemma kept_feeds drop rs i j :
  tc (feeds_rel (keep_rules drop rs)) i j →
  tc (feeds_rel rs) (declared_at drop rs i) (declared_at drop rs j) ∧
  declared_at drop rs i ∉ drop.
Proof.
  intros H. split.
  - revert H. apply tc_congruence. intros x y (a & b & [Ha _]%keep_rules_lookup & [Hb _]%keep_rules_lookup & H).
    by exists a, b.
  - inversion H as [? ? (?&?&[_ ?]%keep_rules_lookup&_)|? ? ? (?&?&[_ ?]%keep_rules_lookup&_)]; done.
Qed.

Lemma read_all_lines_counted text :
  counted (split_on newline text) (read_all_lines text).
Proof. apply (parse_lines_counted [] _ initial initial_counted). Qed.

Lemma slash_free_pattern p :
  inside p → slash ∉ prefix (name_pattern (filename p)) ∧ slash ∉ suffix (name_pattern (filename p)).
Proof.
  intros (_ & _ & _ & Hf)%inside_filename.
  pose proof (name_pattern_sub (filename p) slash) as [Hpre Hsuf]. tauto.
Qed.

Lemma name_of_pattern_ne pre stem suf : stem ≠ [] → pre ++ stem ++ suf ≠ ([] : str).
Proof. by intros ? [_ [? _]%app_nil]%app_nil. Qed.

(** The names of the source and of the output of [r] that have a stem. *)
Definition source_of_stem (r : Rule) (stem : str) : str :=
  prefix (name_pattern (filename (wildcard_source r))) ++ stem ++
  suffix (name_pattern (filename (wildcard_source r))).
Definition output_of_stem (r : Rule) (stem : str) : path :=
  Path false (names (parent_path (output r)) ++
    [prefix (name_pattern (filename (output r))) ++ stem ++
     suffix (name_pattern (filename (output r)))]).

Lemma output_of_stem_inj r stem1 stem2 :
  output_of_stem r stem1 = output_of_stem r stem2 ↔ stem1 = stem2.
Proof.
  unfold output_of_stem. split; [|by intros ->]. intros [= H1].
  apply app_inv_head in H1. injection H1 as H1. by apply app_inv_head, app_inv_tail in H1.
Qed.

Lemma parent_output_of_stem r stem :
  inside (output r) → parent_path (output_of_stem r stem) = parent_path (output r).
Proof.
  intros Hin. unfold output_of_stem, parent_path; simpl.
  by rewrite removelast_last, (inside_relative _ Hin).
Qed.

Lemma filename_output_of_stem r stem :
  filename (output_of_stem r stem) =
    prefix (name_pattern (filename (output r))) ++ stem ++
    suffix (name_pattern (filename (output r))).
Proof. unfold filename, output_of_stem; simpl. by rewrite last_snoc. Qed.

Lemma append_output r stem :
  inside (output r) → stem ≠ [] → slash ∉ stem →
  parent_path (output r) // of_string (prefix (name_pattern (filename (output r))) ++ stem ++
                                       suffix (name_pattern (filename (output r)))) =
  output_of_stem r stem.
Proof.
  intros Hin Hne Hst. pose proof (slash_free_pattern _ Hin) as [Hp Hs].
  rewrite append_name; [|by apply inside_parent|by apply name_of_pattern_ne|].
  - unfold output_of_stem, parent_path; simpl. by rewrite (inside_relative _ Hin).
  - rewrite !elem_of_app. tauto.
Qed.

Lemma instantiate_inv r name r' :
  inside (output r) → slash ∉ name → instantiate r name = Some r' →
  ∃ stem, stem ≠ [] ∧ name = source_of_stem r stem ∧ output r' = output_of_stem r stem ∧
    is_wildcard r' = false ∧ action r' = action r.
Proof.
  intros Hin Hs (stem & Hne & -> & ->)%instantiate_iff. exists stem. simpl.
  split_and!; try done. apply append_output; [done..|]. rewrite !elem_of_app in Hs. tauto.
Qed.

Lemma instantiate_stem r stem :
  inside (output r) → stem ≠ [] → slash ∉ stem →
  ∃ r', instantiate r (source_of_stem r stem) = Some r' ∧ output r' = output_of_stem r stem.
Proof.
  intros Hin Hne Hs. eexists. split; [apply instantiate_iff; by exists stem|].
  simpl. by apply append_output.
Qed.

(** ** Theorems *)

(** C1. However the manifest is written, the rules it keeps never compete for a
    place in the mount: what two different rules can produce, over all the files
    their wildcards could match, is never the same path, and neither is inside
    the other. *)
Theorem parse_outputs_apart (text : str) (i j : nat) (r1 r2 : Rule) (o1 o2 : path) :
  manifest_rules (parse text) !! i = Some r1 →
  manifest_rules (parse text) !! j = Some r2 →
  i ≠ j → produces r1 o1 → produces r2 o2 →
  o1 ≠ o2 ∧ ¬ is_above o1 o2 ∧ ¬ is_above o2 o1.
Proof.
  intros Hi Hj Hne H1 H2. destruct (parse_rules_ok text) as [Hs _].
  destruct (decide (i < j)).
  - by apply (StronglySorted_lookup _ _ _ _ _ _ Hs Hi Hj).
  - destruct (StronglySorted_lookup _ _ _ _ _ _ Hs Hj Hi ltac:(lia) o2 o1 H2 H1) as (? & ? & ?).
    split_and!; [by intros ->|done..].
Qed.

(** The rules the parser keeps have a normal output inside the mount; the
    output of a wildcard rule has its one star in its file name, and its sources
    are a pattern inside the directory they are read from. *)
Theorem parse_outputs_inside (text : str) (r : Rule) :
  r ∈ manifest_rules (parse text) →
  inside (output r) ∧
  (is_wildcard r = true → is_wildcard_pattern (output r) = true ∧ inside (wildcard_source r)).
Proof. apply parse_rules_ok. Qed.

(** C34. Every line of the manifest that is neither blank nor a comment, and no
    other, becomes exactly one rule or exactly one error, and the error has its
    line's number: the lines of the rules kept, taken with the lines the errors
    give, are just those lines, each once. The rules come in the order of their
    lines and each has the output, the action and, unless it copies, the command
    its line says; the errors come in the order of theirs. *)
Theorem parse_accounts_for_every_line (text : str) :
  ∃ rule_lines : list nat,
    Forall2 (λ n r, ∃ k t, n = S k ∧ split_on newline text !! k = Some t ∧ line_declares t r)
      rule_lines (manifest_rules (parse text)) ∧
    rule_lines ++ (line <$> manifest_errors (parse text)) ≡ₚ
      significant_lines 1 (split_on newline text) ∧
    StronglySorted lt rule_lines ∧
    LocallySorted (λ a b, line a ≤ line b) (manifest_errors (parse text)).
Proof.
  pose proof (read_all_lines_counted text) as Hc. set (st := read_all_lines text) in *.
  exists (kept (dropped st) (lines st)).
  split; [apply (kept_Forall2 _ (dropped st)), Hc|]. split; [|split].
  - assert (line <$> manifest_errors (parse text) ≡ₚ
      (line <$> errors st) ++ ((λ i, default 0 (lines st !! i)) <$> dropped st)) as ->.
    { rewrite <- (dropped_lines _ _ Hc), <- fmap_app. unfold parse, finish; simpl.
      destruct (is_nil _); [done|]. by rewrite sort_by_perm. }
    rewrite (Permutation_app_comm (_ <$> errors st)), app_assoc.
    rewrite (kept_dropped 0) by eauto using dropped_NoDup, dropped_range. apply Hc.
  - eapply sublist_StronglySorted; [apply kept_sublist|apply Hc].
  - unfold parse, finish; simpl. fold st. destruct (is_nil (dropped st)) eqn:Hnil.
    + apply is_nil_true, app_nil in Hnil as [Hu%fmap_nil_inv He'].
      rewrite Hu, He'. simpl. rewrite app_nil_r.
      by apply Sorted_LocallySorted_iff, StronglySorted_Sorted, (counted_sorted _ _ Hc).
    + assert (∀ x y, error_leb x y = false → error_leb y x = true) as Htotal.
      { unfold error_leb. intros x y ?%Nat.leb_gt. apply Nat.leb_le. lia. }
      eapply LocallySorted_weaken; [|by apply sort_by_sorted, Htotal].
      by intros x y ?%Nat.leb_le.
Qed.

(** [NamePattern::overlaps] is exact: it says yes for two patterns just when
    some file name matches both. *)
Theorem overlaps_exact (p q : NamePattern) :
  overlaps p q = true ↔ ∃ name, matches p name = true ∧ matches q name = true.
Proof.
  split.
  - intros (name & ? & ? & _)%overlaps_sound. by exists name.
  - intros (name & Hp & Hq). by apply overlaps_complete with name.
Qed.

(** [Manifest::instantiate] gives different sources different outputs, in
    the directory of the rule's output, and carries the stem over into the
    command: the rule it hands back is no wildcard and keeps the action. *)
Theorem instantiate_injective (r : Rule) (name1 name2 : str) (r1 r2 : Rule) :
  inside (output r) → slash ∉ name1 → slash ∉ name2 →
  instantiate r name1 = Some r1 → instantiate r name2 = Some r2 →
  (output r1 = output r2 ↔ name1 = name2) ∧
  parent_path (output r1) = parent_path (output r) ∧ is_wildcard r1 = false ∧
  action r1 = action r.
Proof.
  intros Hin Hs1 Hs2 H1 H2.
  apply instantiate_inv in H1 as (stem1 & _ & -> & -> & ? & ?); [|done..].
  apply instantiate_inv in H2 as (stem2 & _ & -> & -> & _ & _); [|done..].
  rewrite output_of_stem_inj, parent_output_of_stem by done. split_and!; [|done..].
  split; [by intros ->|]. unfold source_of_stem. intros E. by apply app_inv_head, app_inv_tail in E.
Qed.

(** A rule is dropped for producing its own sources just when it does, by
    itself or through other rules; and among the rules that are kept none does,
    so expanding wildcards over outputs cannot go on for ever. *)
Theorem endless_rules_exact (text : str) :
  (∀ rs i, i ∈ endless_rules rs ↔ tc (feeds_rel rs) i i) ∧
  ∀ i, ¬ tc (feeds_rel (manifest_rules (parse text))) i i.
Proof.
  split; [apply elem_of_endless|]. intros i Hi. apply kept_feeds in Hi as [Hi Hdrop].
  apply Hdrop. unfold dropped. rewrite elem_of_app. right. by apply elem_of_endless.
Qed.

(** [feeds] means what it says: a wildcard [a] feeds a wildcard [b] over the
    outputs just when some source of [a] gives an output that is a source of
    [b]. *)
Theorem feeds_directly_exact (a b : Rule) :
  is_wildcard a = true → inside (output a) → inside (wildcard_source a) →
  inside (wildcard_source b) →
  feeds_directly a b = true ↔
  wildcard_over_outputs b = true ∧
  ∃ name a' b', slash ∉ name ∧ instantiate a name = Some a' ∧
    parent_path (output a') = parent_path (wildcard_source b) ∧
    instantiate b (filename (output a')) = Some b'.
Proof.
  intros Hw Hout Hasrc Hbsrc. unfold feeds_directly. rewrite Hw. simpl.
  pose proof (slash_free_pattern _ Hasrc) as [??].
  rewrite !andb_true_iff, bool_decide_eq_true. split.
  - intros [[Hover Hdir] (name & Ha & Hb & Hchars)%overlaps_sound].
    apply matches_iff in Ha as (stem & Hne & ->). apply matches_iff in Hb as (stem' & Hne' & E).
    assert (slash ∉ stem) as Hslash.
    { pose proof (slash_free_pattern _ Hout) as [??].
      pose proof (slash_free_pattern _ Hbsrc) as [??]. intros Hc.
      destruct (Hchars slash) as [?|?]; [rewrite !elem_of_app; tauto|done|tauto]. }
    split; [done|]. destruct (instantiate_stem a stem) as (a' & Ha & Ho); [done..|].
    eexists _, a', _. rewrite Ho, parent_output_of_stem, filename_output_of_stem by done.
    split_and!; [|done..|apply instantiate_iff; by exists stem'].
    unfold source_of_stem. rewrite !elem_of_app. tauto.
  - intros (Hover & name & a' & b' & Hslash & Ha & Hdir & Hb).
    apply instantiate_inv in Ha as (stem & Hne & -> & Ho & _); [|done..].
    rewrite Ho, parent_output_of_stem in Hdir by done.
    apply instantiate_iff in Hb as (stem' & Hne' & Eb & _).
    split; [done|]. apply overlaps_complete with (filename (output a')); apply matches_iff.
    + exists stem. by rewrite Ho, filename_output_of_stem.
    + by exists stem'.
Qed.

(** The name [Manifest::instantiate] builds is not checked again: a rule the
    parser keeps can stand for an output outside every directory it could
    declare, here [out/..] from the source [..x]. *)
Theorem instantiate_can_escape :
  ∃ text r name r', r ∈ manifest_rules (parse text) ∧ is_name name ∧
    instantiate r name = Some r' ∧ output r' = Path false [lit "out"; dot_dot] ∧
    ¬ inside (output r').
Proof.
  set (r := {| output := of_string (lit "out/*"); action := Copy; command := lit "src/*x";
               wildcard_source := of_string (lit "src/*x"); wildcard_over_outputs := false |}).
  exists (lit "@/out/* = copy src/*x"), r, (lit "..x").
  eexists. split_and!; [| |by vm_compute|by vm_compute|].
  - replace (manifest_rules _) with [r] by by vm_compute. left.
  - repeat split; try by vm_compute. by apply contains_char_false.
  - intros [_ _ H]. revert H. vm_compute. intros H.
    apply Forall_cons in H as [_ H]. apply Forall_cons in H as [H _]. by destruct H as (_ & _ & H & _).
Qed.

(** ** The theorems at work *)

Definition object_rule : Rule :=
  {| output := of_string (lit "out/*.o"); action := Run; command := lit "cc src/*.c";
     wildcard_source := of_string (lit "src/*.c"); wildcard_over_outputs := false |}.
Definition object_of_m : Rule :=
  {| output := of_string (lit "out/m.o"); action := Run; command := lit "cc src/m.c";
     wildcard_source := no_path; wildcard_over_outputs := false |}.
Definition text_rule : Rule :=
  {| output := of_string (lit "a.txt"); action := Run; command := lit "cp x %out";
     wildcard_source := no_path; wildcard_over_outputs := false |}.

Lemma ex_rules : take 2 (manifest_rules (parse ex_text)) = [text_rule; object_rule].
Proof. by vm_compute. Qed.

Lemma object_rule_inside : inside (output object_rule) ∧ inside (wildcard_source object_rule).
Proof.
  split; [apply (to_inside_path_inside (lit "out/*.o"))|apply (to_inside_path_inside (lit "src/*.c"))];
    by vm_compute.
Qed.

Lemma parse_outputs_apart_witness :
  of_string (lit "a.txt") ≠ of_string (lit "out/m.o") ∧
  ¬ is_above (of_string (lit "a.txt")) (of_string (lit "out/m.o")) ∧
  ¬ is_above (of_string (lit "out/m.o")) (of_string (lit "a.txt")).
Proof.
  apply (parse_outputs_apart ex_text 0 1 text_rule object_rule).
  - by vm_compute.
  - by vm_compute.
  - done.
  - exact (produces_simple text_rule eq_refl).
  - apply (produces_match object_rule (lit "m.c") object_of_m); [done| |by vm_compute].
    by apply contains_char_false.
Defined.

Lemma parse_outputs_inside_witness :
  inside (of_string (lit "out/*.o")) ∧
  (is_wildcard object_rule = true →
   is_wildcard_pattern (of_string (lit "out/*.o")) = true ∧ inside (wildcard_source object_rule)).
Proof.
  apply (parse_outputs_inside ex_text object_rule).
  rewrite <- (take_drop 2 (manifest_rules (parse ex_text))), ex_rules.
  apply elem_of_app. left. right. left.
Defined.

Lemma instantiate_injective_witness :
  (of_string (lit "out/m.o") = of_string (lit "out/m.o") ↔ lit "m.c" = lit "m.c") ∧
  parent_path (output object_of_m) = parent_path (output object_rule) ∧
  is_wildcard object_of_m = false ∧ action object_of_m = action object_rule.
Proof.
  apply (instantiate_injective object_rule (lit "m.c") (lit "m.c") object_of_m object_of_m).
  - apply object_rule_inside.
  - by apply contains_char_false.
  - by apply contains_char_false.
  - by vm_compute.
  - by vm_compute.
Defined.

Lemma feeds_directly_exact_witness :
  feeds_directly object_rule object_rule = true ↔
  wildcard_over_outputs object_rule = true ∧
  ∃ name a' b', slash ∉ name ∧ instantiate object_rule name = Some a' ∧
    parent_path (output a') = parent_path (wildcard_source object_rule) ∧
    instantiate object_rule (filename (output a')) = Some b'.
Proof.
  apply (feeds_directly_exact object_rule object_rule);
    [by vm_compute|apply object_rule_inside..].
Defined.
