(* ===== verification/Waiters.v ===== *)
(** * The lines of waiters (src/buildqueue.hpp, [BuildQueue::Waiters])

    A line is a singly linked list through each waiter's [next], with pointers
    to both its ends. The operations are modelled on the links themselves, in a
    heap that gives each waiter's [next], and are shown to be the operations on
    the sequence of waiters the links spell out, which is what the queue's own
    model (BuildQueue) works with. *)

From S2P Require Export Prelude.

(** A waiter is known by its number, its address. *)
Notation heap := (gmap nat (option nat)).
Record Waiters := { first : option nat; last : option nat }.

Definition no_waiters : Waiters := {| first := None; last := None |}.

Definition next_of (h : heap) (w : nat) : option nat := default None (h !! w).

Definition push (w : nat) (q : Waiters) (h : heap) : Waiters * heap :=
  let h := <[w := None]> h in
  match last q with
  | None => ({| first := Some w; last := Some w |}, h)
  | Some l => ({| first := first q; last := Some w |}, <[l := Some w]> h)
  end.

Definition pop (q : Waiters) (h : heap) : option nat * Waiters :=
  match first q with
  | Some w =>
      let rest := next_of h w in
      (Some w, {| first := rest; last := if rest then last q else None |})
  | None => (None, q)
  end.

(** The loop of [remove], at [it] with [previous] the waiter before it. It runs
    at most once per waiter in line, so the number of waiters is enough fuel. *)
Fixpoint remove_loop (fuel : nat) (w : nat) (previous it : option nat) (q : Waiters) (h : heap)
    : bool * Waiters * heap :=
  match fuel, it with
  | S fuel', Some i =>
      if decide (i = w) then
        let after := next_of h i in
        let q' := match previous with
                  | None => {| first := after; last := last q |}
                  | Some _ => q
                  end in
        let h' := match previous with None => h | Some p => <[p := after]> h end in
        (true, {| first := first q';
                  last := if decide (last q' = Some i) then previous else last q' |}, h')
      else remove_loop fuel' w it (next_of h i) q h
  | _, _ => (false, q, h)
  end.

Definition remove (w : nat) (q : Waiters) (h : heap) : bool * Waiters * heap :=
  remove_loop (size h) w None (first q) q h.

Example remove_ex :
  let '(q, h) := push 1 no_waiters ∅ in
  let '(q, h) := push 2 q h in
  let '(q, h) := push 3 q h in
  let '(removed, q, h) := remove 3 q h in
  (removed, first q, last q, next_of h 1, next_of h 2) = (true, Some 1, Some 2, Some 2, None).
Proof. vm_compute. reflexivity. Qed.

(** ** The sequence the links spell out *)

(** From [it] on, the links of [h] run through [l] and end. *)
Fixpoint linked (h : heap) (it : option nat) (l : list nat) : Prop :=
  match l with
  | [] => it = None
  | w :: l' => it = Some w ∧ ∃ after, h !! w = Some after ∧ linked h after l'
  end.

Record is_line (h : heap) (q : Waiters) (l : list nat) : Prop := {
  line_links : linked h (first q) l;
  line_last : last q = list.last l;
  line_nodup : NoDup l;
}.

Lemma linked_frame h it l w o : linked h it l → w ∉ l → linked (<[w := o]> h) it l.
Proof.
  revert it. induction l as [|x l IH]; intros it; simpl; [done|].
  intros [-> (after & Hx & Hl)] [Hw Hwl]%not_elem_of_cons. split; [done|].
  exists after. split; [by rewrite lookup_insert_ne|]. by apply IH.
Qed.

Lemma linked_det h it l l' : linked h it l → linked h it l' → l = l'.
Proof.
  revert it l'. induction l as [|x l IH]; intros it [|y l']; simpl; [done| | |].
  - intros -> [? _]. done.
  - intros [-> _] ?. done.
  - intros [-> (a & Ha & Hl)] [[= ->] (a' & Ha' & Hl')]. simplify_eq. f_equal. by eapply IH.
Qed.

(** Redirecting the last link of a part of the line. *)
Lemma linked_redirect h it l1 p o l2 l2' :
  linked h it (l1 ++ p :: l2) → p ∉ l1 → p ∉ l2' → linked h o l2' →
  linked (<[p := o]> h) it (l1 ++ p :: l2').
Proof.
  revert it. induction l1 as [|x l1 IH]; intros it; simpl.
  - intros [-> _] _ Hp Ho. split; [done|]. exists o. split; [apply lookup_insert_eq|].
    by apply linked_frame.
  - intros [-> (after & Hx & Hl)] [Hpx Hp]%not_elem_of_cons Hp' Ho. split; [done|].
    exists after. split; [by rewrite lookup_insert_ne|]. by apply IH.
Qed.

Lemma no_waiters_line h : is_line h no_waiters [].
Proof. constructor; simpl; [done|done|apply NoDup_nil_2]. Qed.

Lemma push_line h q l w :
  is_line h q l → w ∉ l → is_line (push w q h).2 (push w q h).1 (l ++ [w]).
Proof.
  intros [Hl Hlast Hnd] Hw. unfold push. rewrite Hlast.
  destruct l as [|p l _] using rev_ind; simpl.
  - constructor; simpl; [|done|apply NoDup_singleton]. split; [done|].
    exists None. by rewrite lookup_insert_eq.
  - rewrite last_snoc. apply NoDup_app in Hnd as Hnd'. destruct Hnd' as (_ & Hp & _).
    assert (p ≠ w) by (intros ->; apply Hw; rewrite elem_of_app; right; left).
    assert (p ∉ l) as Hpl by (intros H'; apply (Hp p H'); left).
    constructor; simpl.
    + rewrite <- app_assoc. apply linked_redirect with [].
      * by apply linked_frame.
      * done.
      * by rewrite list_elem_of_singleton.
      * simpl. split; [done|]. exists None. by rewrite lookup_insert_eq.
    + by rewrite last_snoc.
    + apply NoDup_app. split_and!; [done| |apply NoDup_singleton].
      intros x Hx ->%list_elem_of_singleton. done.
Qed.

(** Pushing changes only the last waiter's link and the new one's. *)
Lemma push_frame h q l l' it w :
  is_line h q l → linked h it l' → (∀ x, x ∈ l → x ∉ l') → w ∉ l' →
  linked (push w q h).2 it l'.
Proof.
  intros [Hl Hlast Hnd] Hl' Hdis Hw. unfold push. rewrite Hlast.
  destruct (list.last l) as [p|] eqn:E; simpl; [|by apply linked_frame].
  apply linked_frame; [by apply linked_frame|]. apply Hdis.
  apply last_Some in E as [? ->]. rewrite elem_of_app. right. left.
Qed.

Lemma pop_line h q l :
  is_line h q l →
  (pop q h).1 = head l ∧ is_line h (pop q h).2 (tail l).
Proof.
  intros [Hl Hlast Hnd]. unfold pop. destruct l as [|w l]; simpl in Hl.
  - rewrite Hl. simpl. split; [done|]. by constructor.
  - destruct Hl as [-> (after & Hw & Hl)]. simpl. split; [done|].
    unfold next_of. rewrite Hw. simpl. apply NoDup_cons in Hnd as [_ Hnd].
    constructor; simpl; [done| |done].
    destruct l as [|x l]; simpl in Hl; [by subst|]. destruct Hl as [-> _]. by rewrite Hlast.
Qed.

(** ** Removing *)

Definition without (w : nat) (l : list nat) : list nat := filter (λ x, x ≠ w) l.

Lemma without_id w l : w ∉ l → without w l = l.
Proof.
  intros Hw. unfold without. induction l as [|x l IH]; [done|].
  apply not_elem_of_cons in Hw as [? ?]. rewrite filter_cons_True by congruence. by rewrite IH.
Qed.

Lemma without_middle w l1 l2 : w ∉ l1 → w ∉ l2 → without w (l1 ++ w :: l2) = l1 ++ l2.
Proof.
  intros H1 H2. unfold without. rewrite filter_app, filter_cons_False by (intros H; by apply H).
  fold (without w l1) (without w l2). by rewrite !without_id.
Qed.

Lemma elem_of_without w l x : x ∈ without w l ↔ x ≠ w ∧ x ∈ l.
Proof. unfold without. by rewrite list_elem_of_filter. Qed.

Lemma without_NoDup w l : NoDup l → NoDup (without w l).
Proof. apply NoDup_filter. Qed.

Lemma linked_tail h it l1 l2 : linked h it (l1 ++ l2) → ∃ it', linked h it' l2.
Proof.
  revert it. induction l1 as [|x l1 IH]; intros it; simpl; [by exists it|].
  intros [_ (after & _ & Hl)]. by eapply IH.
Qed.

Lemma linked_first h it l : linked h it l → it = head l.
Proof. destruct l; simpl; [done|by intros [-> _]]. Qed.

Lemma linked_next h it l1 w l2 : linked h it (l1 ++ w :: l2) → next_of h w = head l2 ∧ linked h (head l2) l2.
Proof.
  intros [it' [_ (after & Hw & Hl)]]%linked_tail. unfold next_of. rewrite Hw. simpl.
  apply linked_first in Hl as Heq. by subst.
Qed.

Lemma linked_dom h it l : linked h it l → ∀ x, x ∈ l → x ∈ dom h.
Proof.
  revert it. induction l as [|y l IH]; intros it; simpl; [by intros _ x ?%elem_of_nil|].
  intros [_ (after & Hy & Hl)] x [->|Hx]%elem_of_cons; [by apply elem_of_dom_2 in Hy|by eapply IH].
Qed.

(** Unlinking [w], where [l1] comes before it in line and [l2] after. *)
Lemma unlink_line h q l1 w l2 :
  is_line h q (l1 ++ w :: l2) →
  is_line (match list.last l1 with None => h | Some p => <[p := head l2]> h end)
          {| first := match list.last l1 with None => head l2 | Some _ => first q end;
             last := if decide (last q = Some w) then list.last l1 else last q |}
          (l1 ++ l2).
Proof.
  intros [Hl Hlast Hnd]. pose proof Hnd as (Hnd1 & Hdis & [Hw Hnd2]%NoDup_cons)%NoDup_app.
  pose proof (linked_next _ _ _ _ _ Hl) as [_ Hl2].
  assert (w ∉ l1) as Hw1 by (intros H; apply (Hdis w H); left).
  constructor; simpl.
  - destruct l1 as [|p l1 _] using rev_ind; simpl; [done|]. rewrite last_snoc, <- !app_assoc in *.
    simpl in *. apply linked_redirect with (w :: l2); [done| | |done].
    + apply NoDup_app in Hnd1 as (_ & H & _). intros Hp. apply (H p Hp). left.
    + intros Hp. apply (Hdis p); [rewrite elem_of_app; right; left|by right].
  - rewrite Hlast. destruct l2 as [|x l2 _] using rev_ind.
    + rewrite last_snoc, decide_True by done. by rewrite app_nil_r.
    + rewrite app_comm_cons, !app_assoc, !last_snoc, decide_False; [done|].
      intros [= ->]. apply Hw. rewrite elem_of_app. right. left.
  - apply NoDup_app. split_and!; [done| |done]. intros x Hx Hx2. apply (Hdis x Hx). by right.
Qed.

Lemma remove_loop_line fuel w h q l1 l2 :
  is_line h q (l1 ++ l2) → w ∉ l1 → length l2 ≤ fuel →
  let '(removed, q', h') := remove_loop fuel w (list.last l1) (head l2) q h in
  removed = bool_decide (w ∈ l2) ∧ is_line h' q' (without w (l1 ++ l2)).
Proof.
  revert l1 l2. induction fuel as [|fuel IH]; intros l1 l2 Hline Hw Hfuel;
    (destruct l2 as [|x l2]; simpl in *;
      [rewrite app_nil_r in *; rewrite without_id by done;
       done|]); [lia|].
  case_decide as Hx.
  - subst. split; [by rewrite bool_decide_true by left|].
    pose proof Hline as [Hl _ (_ & _ & [Hw2 _]%NoDup_cons)%NoDup_app].
    rewrite without_middle by done. apply unlink_line in Hline.
    pose proof (linked_next _ _ _ _ _ Hl) as [-> _].
    by destruct (list.last l1).
  - pose proof Hline as [Hl _ _]. pose proof (linked_next _ _ _ _ _ Hl) as [-> _].
    specialize (IH (l1 ++ [x]) l2). rewrite last_snoc, <- app_assoc in IH. simpl in IH.
    destruct (remove_loop _ _ _ _ _ _) as [[removed q'] h'].
    destruct IH as [-> ?]; [done|rewrite not_elem_of_app, list_elem_of_singleton; naive_solver|lia|].
    split; [|done]. apply bool_decide_ext. rewrite elem_of_cons. naive_solver.
Qed.

Lemma line_length h q l : is_line h q l → length l ≤ size h.
Proof.
  intros [Hl _ Hnd]. rewrite <- (size_list_to_set (C := gset nat)), <- size_dom by done.
  apply subseteq_size. intros x Hx%elem_of_list_to_set. by eapply linked_dom.
Qed.

Lemma remove_line h q l w :
  is_line h q l →
  let '(removed, q', h') := remove w q h in
  removed = bool_decide (w ∈ l) ∧ is_line h' q' (without w l).
Proof.
  intros Hline. pose proof (line_length _ _ _ Hline). pose proof Hline as [Hl _ _].
  unfold remove. rewrite (linked_first _ _ _ Hl).
  by apply (remove_loop_line (size h) w h q [] l); [|apply not_elem_of_nil|].
Qed.

(** The pointer surgery of [Waiters] is first-in first-out bookkeeping:
    pushing appends, popping takes the oldest, and removing finds a waiter
    wherever it stands and leaves the others in order, with both end pointers
    right; [remove]'s loop always reaches its answer. *)
Theorem waiters_are_lines (h : heap) (q : Waiters) (l : list nat) (w : nat) :
  is_line h q l →
  (w ∉ l → is_line (push w q h).2 (push w q h).1 (l ++ [w])) ∧
  (pop q h).1 = head l ∧ is_line h (pop q h).2 (tail l) ∧
  (remove w q h).1.1 = bool_decide (w ∈ l) ∧
  is_line (remove w q h).2 (remove w q h).1.2 (without w l).
Proof.
  intros Hline. pose proof (remove_line h q l w Hline) as Hr.
  pose proof (pop_line h q l Hline) as [Hp1 Hp2].
  destruct (remove w q h) as [[removed q'] h']. destruct Hr as [Hr1 Hr2].
  split_and!; [|done..]. intros Hw. by apply push_line.
Qed.

Lemma waiters_are_lines_witness :
  (3 ∉ [1; 2] →
   is_line (push 3 {| first := Some 1; last := Some 2 |} {[1 := Some 2; 2 := None]}).2
           (push 3 {| first := Some 1; last := Some 2 |} {[1 := Some 2; 2 := None]}).1 [1; 2; 3]) ∧
  (pop {| first := Some 1; last := Some 2 |} {[1 := Some 2; 2 := None]}).1 = Some 1 ∧
  is_line {[1 := Some 2; 2 := None]}
    (pop {| first := Some 1; last := Some 2 |} {[1 := Some 2; 2 := None]}).2 [2] ∧
  (remove 3 {| first := Some 1; last := Some 2 |} {[1 := Some 2; 2 := None]}).1.1 =
    bool_decide (3 ∈ [1; 2]) ∧
  is_line (remove 3 {| first := Some 1; last := Some 2 |} {[1 := Some 2; 2 := None]}).2
    (remove 3 {| first := Some 1; last := Some 2 |} {[1 := Some 2; 2 := None]}).1.2 [1; 2].
Proof.
  apply (waiters_are_lines {[1 := Some 2; 2 := None]} {| first := Some 1; last := Some 2 |} [1; 2] 3).
  constructor; simpl.
  - split; [done|]. exists (Some 2). split; [by vm_compute|]. split; [done|].
    exists None. split; [by vm_compute|done].
  - done.
  - apply (bool_decide_unpack _). by vm_compute.
Defined.
