(* ===== verification/BuildQueue.v ===== *)
(** * The build queue (src/buildqueue.hpp)

    A fixed number of slots, three lines of work waiting for one, and the
    operations that wait: [SlotOperation] taking a first slot under a ticket, and
    [SlotOperation] taking a [Lease]'s slot back. A [system] is a queue with every
    operation ever connected to it, the lease each makes of its slot included;
    [step] is one atomic action on it, a locked block or a completion, so that a
    list of events is an interleaving of threads. The pointers of the lines are
    the subject of Waiters, which shows they are the sequences used here. *)

From S2P Require Export Prelude Waiters.

(** ** The queue *)

(** A [QueueTicket]. *)
Record QueueTicket := { m_promoted : bool; m_waiter : option nat }.
Definition new_ticket : QueueTicket := {| m_promoted := false; m_waiter := None |}.

(** The queue's own state. Waiters are operation numbers. Tickets are kept
    here because the queue's lock guards them. *)
Record BuildQueue := {
  m_free : nat;
  reacquiring : list nat;
  promoted : list nat;
  waiting : list nat;
  tickets : gmap nat QueueTicket;
}.

Definition ticket_of (q : BuildQueue) (t : nat) : QueueTicket := default new_ticket (tickets q !! t).

Definition set_ticket (t : nat) (k : QueueTicket) (q : BuildQueue) : BuildQueue :=
  {| m_free := m_free q; reacquiring := reacquiring q; promoted := promoted q;
     waiting := waiting q; tickets := <[t := k]> (tickets q) |}.

Definition set_lines (r p w : list nat) (q : BuildQueue) : BuildQueue :=
  {| m_free := m_free q; reacquiring := r; promoted := p; waiting := w; tickets := tickets q |}.

Definition set_free (n : nat) (q : BuildQueue) : BuildQueue :=
  {| m_free := n; reacquiring := reacquiring q; promoted := promoted q;
     waiting := waiting q; tickets := tickets q |}.

Definition create (concurrency : nat) : BuildQueue :=
  {| m_free := concurrency; reacquiring := []; promoted := []; waiting := []; tickets := ∅ |}.

Definition try_take (q : BuildQueue) : option BuildQueue :=
  match m_free q with 0 => None | S n => Some (set_free n q) end.

(** [waiter] waits under [ticket], if it has one. *)
Definition enqueue (waiter : nat) (ticket : option nat) (reacquire : bool) (q : BuildQueue)
    : BuildQueue :=
  if reacquire then set_lines (reacquiring q ++ [waiter]) (promoted q) (waiting q) q
  else
    let ahead := match ticket with Some t => m_promoted (ticket_of q t) | None => false end in
    let q := match ticket with
             | Some t => set_ticket t {| m_promoted := m_promoted (ticket_of q t);
                                         m_waiter := Some waiter |} q
             | None => q
             end in
    if ahead then set_lines (reacquiring q) (promoted q ++ [waiter]) (waiting q) q
    else set_lines (reacquiring q) (promoted q) (waiting q ++ [waiter]) q.

Definition left_line (ticket : option nat) (q : BuildQueue) : BuildQueue :=
  match ticket with
  | Some t => set_ticket t {| m_promoted := m_promoted (ticket_of q t); m_waiter := None |} q
  | None => q
  end.

(** The queue without [waiter], if it was in line. *)
Definition dequeue (waiter : nat) (ticket : option nat) (reacquire : bool) (q : BuildQueue)
    : option BuildQueue :=
  if reacquire then
    if decide (waiter ∈ reacquiring q) then
      Some (set_lines (without waiter (reacquiring q)) (promoted q) (waiting q) q)
    else None
  else if decide (waiter ∈ promoted q) then
    Some (left_line ticket (set_lines (reacquiring q) (without waiter (promoted q)) (waiting q) q))
  else if decide (waiter ∈ waiting q) then
    Some (left_line ticket (set_lines (reacquiring q) (promoted q) (without waiter (waiting q)) q))
  else None.

(** Gives a slot back: to the waiter handed back, or to the free slots.
    [ticket_at] is each waiter's ticket. *)
Definition release (ticket_at : nat → option nat) (q : BuildQueue) : option nat * BuildQueue :=
  match reacquiring q with
  | w :: r => (Some w, set_lines r (promoted q) (waiting q) q)
  | [] =>
      match promoted q with
      | w :: p => (Some w, left_line (ticket_at w) (set_lines [] p (waiting q) q))
      | [] =>
          match waiting q with
          | w :: l => (Some w, left_line (ticket_at w) (set_lines [] [] l q))
          | [] => (None, set_free (S (m_free q)) q)
          end
      end
  end.

Definition promote (t : nat) (q : BuildQueue) : BuildQueue :=
  let k := ticket_of q t in
  let q := set_ticket t {| m_promoted := true; m_waiter := m_waiter k |} q in
  if m_promoted k then q
  else
    match m_waiter k with
    | Some w =>
        if decide (w ∈ waiting q) then
          set_lines (reacquiring q) (promoted q ++ [w]) (without w (waiting q)) q
        else q
    | None => q
    end.

(** The order slots are handed out in. *)
Definition line (q : BuildQueue) : list nat := reacquiring q ++ promoted q ++ waiting q.

(** ** The operations waiting for slots *)

(** Where a [SlotOperation] is: connected; its stop callback registered;
    queued; about to complete within [start()]; its [Resume] handed to Handoff;
    completed, with a slot or stopped. *)
Inductive phase :=
  | Connected
  | Registered
  | Queued
  | Completing (given : bool)
  | Resuming (given : bool)
  | Given
  | Stopped.

#[global] Instance phase_eq_dec : EqDecision phase.
Proof. solve_decision. Defined.

(** [m_lease] is the operation whose slot became the lease this one takes a slot
    back for; [m_held] is the [held()] of the lease made of this one's own slot,
    once it is given one. *)
Record SlotOperation := {
  m_lease : option nat;
  ticket : option nat;
  m_stopped_early : bool;
  at_phase : phase;
  m_held : bool;
}.

Definition reacquires (o : SlotOperation) : bool := bool_decide (m_lease o ≠ None).

Record system := { queue : BuildQueue; operations : list SlotOperation }.

Definition start_of (concurrency : nat) : system :=
  {| queue := create concurrency; operations := [] |}.

Definition set_phase (p : phase) (o : SlotOperation) : SlotOperation :=
  {| m_lease := m_lease o; ticket := ticket o; m_stopped_early := m_stopped_early o;
     at_phase := p; m_held := m_held o |}.
Definition set_held (b : bool) (o : SlotOperation) : SlotOperation :=
  {| m_lease := m_lease o; ticket := ticket o; m_stopped_early := m_stopped_early o;
     at_phase := at_phase o; m_held := b |}.
Definition stop_early (o : SlotOperation) : SlotOperation :=
  {| m_lease := m_lease o; ticket := ticket o; m_stopped_early := true;
     at_phase := at_phase o; m_held := m_held o |}.

Definition update (i : nat) (f : SlotOperation → SlotOperation) (s : system) : system :=
  {| queue := queue s; operations := alter f i (operations s) |}.
Definition with_queue (q : BuildQueue) (s : system) : system :=
  {| queue := q; operations := operations s |}.

Definition ticket_at (s : system) (i : nat) : option nat := operations s !! i ≫= ticket.

(** [BuildQueue::release], and the [operator()] of the waiter given the slot. *)
Definition release_slot (s : system) : system :=
  let '(waiter, q) := release (ticket_at s) (queue s) in
  match waiter with
  | Some w => update w (set_phase (Resuming true)) (with_queue q s)
  | None => with_queue q s
  end.

(** [complete_given]: a lease takes its slot back, or a new one is made of it. *)
Definition complete_given (i : nat) (o : SlotOperation) (s : system) : system :=
  match m_lease o with
  | Some l => update l (set_held true) (update i (set_phase Given) s)
  | None => update i (λ o, set_held true (set_phase Given o)) s
  end.

Definition complete_stopped (i : nat) (s : system) : system := update i (set_phase Stopped) s.

(** The locked block of [start()]. *)
Definition start_locked (i : nat) (o : SlotOperation) (s : system) : system :=
  if m_stopped_early o then update i (set_phase (Completing false)) s
  else
    match try_take (queue s) with
    | Some q => update i (set_phase (Completing true)) (with_queue q s)
    | None => update i (set_phase Queued)
                (with_queue (enqueue i (ticket o) (reacquires o) (queue s)) s)
    end.

(** [on_stop]. *)
Definition on_stop (i : nat) (o : SlotOperation) (s : system) : system :=
  match dequeue i (ticket o) (reacquires o) (queue s) with
  | Some q => update i (set_phase (Resuming false)) (with_queue q s)
  | None => update i stop_early s
  end.

Inductive event :=
  | Schedule (t : option nat)      (** [take(ticket)] connected *)
  | Reacquire (l : nat)            (** [Lease::reacquire()] connected *)
  | Register (i : nat)             (** [start()] registers its stop callback *)
  | Start (i : nat)                (** the locked block of [start()] *)
  | Finish (i : nat)               (** the end of [start()] *)
  | Stop (i : nat)                 (** the stop callback *)
  | Resume (i : nat)               (** Handoff runs the resumption *)
  | Shutdown (i : nat)             (** Handoff stops it instead *)
  | Release (l : nat)              (** [Lease::release()], and its destructor *)
  | Promote (t : nat).

(** A reacquisition of the lease [l] has not completed. *)
Definition under_way (l : nat) (o : SlotOperation) : bool :=
  bool_decide (m_lease o = Some l) &&
  negb (bool_decide (at_phase o = Given)) && negb (bool_decide (at_phase o = Stopped)).

Definition new_operation (l t : option nat) : SlotOperation :=
  {| m_lease := l; ticket := t; m_stopped_early := false; at_phase := Connected; m_held := false |}.
Definition connect (l t : option nat) (s : system) : system :=
  {| queue := queue s; operations := operations s ++ [new_operation l t] |}.

(** One action; [None] if it cannot happen, or would break what its caller
    promises: a ticket is used once, a lease is reacquired when it holds no slot
    and no other reacquisition is under way. *)
Definition step (e : event) (s : system) : option system :=
  match e with
  | Schedule t =>
      if existsb (λ o, bool_decide (t ≠ None) && bool_decide (ticket o = t)) (operations s)
      then None else Some (connect None t s)
  | Reacquire l =>
      match operations s !! l with
      | Some o =>
          if bool_decide (m_lease o = None) && bool_decide (at_phase o = Given) && negb (m_held o) &&
             negb (existsb (under_way l) (operations s))
          then Some (connect (Some l) None s) else None
      | None => None
      end
  | Register i =>
      match operations s !! i with
      | Some o => if decide (at_phase o = Connected)
                  then Some (update i (set_phase Registered) s) else None
      | None => None
      end
  | Start i =>
      match operations s !! i with
      | Some o => if decide (at_phase o = Registered) then Some (start_locked i o s) else None
      | None => None
      end
  | Finish i =>
      match operations s !! i with
      | Some o => match at_phase o with
                  | Completing true => Some (complete_given i o s)
                  | Completing false => Some (complete_stopped i s)
                  | _ => None
                  end
      | None => None
      end
  | Stop i =>
      match operations s !! i with
      | Some o => match at_phase o with
                  | Connected | Given | Stopped => None
                  | _ => Some (on_stop i o s)
                  end
      | None => None
      end
  | Resume i =>
      match operations s !! i with
      | Some o => match at_phase o with
                  | Resuming true => Some (complete_given i o s)
                  | Resuming false => Some (complete_stopped i s)
                  | _ => None
                  end
      | None => None
      end
  | Shutdown i =>
      match operations s !! i with
      | Some o => match at_phase o with
                  | Resuming true => Some (complete_stopped i (release_slot s))
                  | Resuming false => Some (complete_stopped i s)
                  | _ => None
                  end
      | None => None
      end
  | Release l =>
      match operations s !! l with
      | Some o =>
          if bool_decide (m_lease o = None) && bool_decide (at_phase o = Given) then
            Some (if m_held o then release_slot (update l (set_held false) s) else s)
          else None
      | None => None
      end
  | Promote t => Some (with_queue (promote t (queue s)) s)
  end.

Fixpoint run (es : list event) (s : system) : option system :=
  match es with [] => Some s | e :: es' => s' ← step e s; run es' s' end.

Definition reachable (concurrency : nat) (s : system) : Prop :=
  ∃ es, run es (start_of concurrency) = Some s.

(** The slots an operation has: one it was handed and has not passed on, or one
    its lease holds. *)
Definition has_slot (o : SlotOperation) : bool :=
  bool_decide (at_phase o = Completing true) || bool_decide (at_phase o = Resuming true) || m_held o.
Definition slots_out (os : list SlotOperation) : nat := length (filter (λ o, has_slot o = true) os).

Example queue_ex :
  (λ s, (slots_out (operations s), line (queue s), at_phase <$> operations s)) <$>
  run [Schedule (Some 7); Register 0; Start 0; Finish 0;
       Schedule None; Register 1; Start 1; Schedule (Some 8); Register 2; Start 2;
       Promote 8; Release 0; Reacquire 0; Register 3; Start 3; Resume 2; Release 2]
      (start_of 1) =
  Some (1, [1], [Given; Queued; Given; Resuming true]).
Proof. vm_compute. reflexivity. Qed.
