(* ===== verification/BuildQueueFacts.v ===== *)
(** * The invariant of the build queue

    Every state the queue reaches keeps three groups of facts: the slots add
    up ([slots_ok]), the lines and tickets mirror the operations' phases
    ([lines_ok]), and leases are taken back one at a time ([leases_ok]). *)

From S2P Require Export BuildQueue.

(** ** What the lines depend on *)

(** An operation as the lines and the tickets see it. *)
Record view := { v_queued : bool; v_reacquires : bool; v_ticket : option nat }.
Definition view_of (o : SlotOperation) : view :=
  {| v_queued := bool_decide (at_phase o = Queued); v_reacquires := reacquires o;
     v_ticket := ticket o |}.

Record lines_ok (q : BuildQueue) (vs : list view) : Prop := {
  lines_work : 0 < m_free q → line q = [];
  lines_nodup : NoDup (line q);
  lines_in i : i ∈ line q ↔ ∃ v, vs !! i = Some v ∧ v_queued v = true;
  lines_reacquiring i v : vs !! i = Some v → i ∈ line q →
    (i ∈ reacquiring q ↔ v_reacquires v = true);
  lines_promoted i v : vs !! i = Some v → i ∈ line q → v_reacquires v = false →
    (i ∈ promoted q ↔ ∃ t, v_ticket v = Some t ∧ m_promoted (ticket_of q t) = true);
  lines_ticket t i : m_waiter (ticket_of q t) = Some i ↔
    ∃ v, vs !! i = Some v ∧ v_ticket v = Some t ∧ v_queued v = true;
  lines_tickets_once i j v v' t : vs !! i = Some v → vs !! j = Some v' →
    v_ticket v = Some t → v_ticket v' = Some t → i = j;
  lines_untickets i v : vs !! i = Some v → v_reacquires v = true → v_ticket v = None;
}.

(** Where an operation stands as its lease and its slot see it. *)
Definition finished (o : SlotOperation) : bool :=
  bool_decide (at_phase o = Given) || bool_decide (at_phase o = Stopped).

Record leases_ok (os : list SlotOperation) : Prop := {
  leases_back i o l : os !! i = Some o → m_lease o = Some l →
    m_held o = false ∧
    ∃ ol, os !! l = Some ol ∧ m_lease ol = None ∧ at_phase ol = Given ∧
          (finished o = false → m_held ol = false);
  leases_once i j o o' l : os !! i = Some o → os !! j = Some o' →
    m_lease o = Some l → m_lease o' = Some l → finished o = false → finished o' = false → i = j;
  leases_held i o : os !! i = Some o → m_held o = true → at_phase o = Given ∧ m_lease o = None;
}.

Record queue_ok (n : nat) (s : system) : Prop := {
  ok_slots : m_free (queue s) + slots_out (operations s) = n;
  ok_lines : lines_ok (queue s) (view_of <$> operations s);
  ok_leases : leases_ok (operations s);
}.

(** ** Counting slots *)

Definition b2n (b : bool) : nat := if b then 1 else 0.

Lemma slots_out_app os1 os2 : slots_out (os1 ++ os2) = slots_out os1 + slots_out os2.
Proof. unfold slots_out. by rewrite filter_app, length_app. Qed.

Lemma slots_out_cons o os : slots_out (o :: os) = b2n (has_slot o) + slots_out os.
Proof.
  unfold slots_out. destruct (has_slot o) eqn:E.
  - by rewrite filter_cons_True.
  - rewrite filter_cons_False by congruence. done.
Qed.

Lemma slots_out_alter f i (os : list SlotOperation) o :
  os !! i = Some o →
  slots_out (alter f i os) + b2n (has_slot o) = slots_out os + b2n (has_slot (f o)).
Proof.
  revert i. induction os as [|x os IH]; intros [|i] Ho; simpl in *; [done|done| |].
  - injection Ho as ->. rewrite !slots_out_cons. lia.
  - rewrite !slots_out_cons. specialize (IH i Ho). unfold alter in *. lia.
Qed.

(** Alterations, read back. *)
Lemma lookup_alter_list {A} (f : A → A) i j (l : list A) :
  alter f i l !! j = if decide (i = j) then f <$> l !! j else l !! j.
Proof.
  destruct (decide (i = j)) as [->|?]; [apply list_lookup_alter_eq|by apply list_lookup_alter_ne].
Qed.

Lemma views_alter_same f i (os : list SlotOperation) :
  (∀ o, os !! i = Some o → view_of (f o) = view_of o) →
  view_of <$> alter f i os = view_of <$> os.
Proof.
  intros Hf. apply list_eq. intros j. rewrite !list_lookup_fmap, lookup_alter_list.
  case_decide; [subst|done]. destruct (os !! j) eqn:E; simpl; [|done]. by rewrite Hf.
Qed.

Lemma views_alter f g i (os : list SlotOperation) :
  (∀ o, os !! i = Some o → view_of (f o) = g (view_of o)) →
  view_of <$> alter f i os = alter g i (view_of <$> os).
Proof.
  intros Hf. apply list_eq. intros j. rewrite list_lookup_fmap, !lookup_alter_list, list_lookup_fmap.
  case_decide; [subst|done]. destruct (os !! j) eqn:E; simpl; [|done]. by rewrite Hf.
Qed.

(** ** The lines *)

Lemma ticket_of_set t k q t' :
  ticket_of (set_ticket t k q) t' = if decide (t = t') then k else ticket_of q t'.
Proof.
  unfold ticket_of; simpl. case_decide; subst.
  - by rewrite lookup_insert_eq.
  - by rewrite lookup_insert_ne.
Qed.

Definition set_queued (b : bool) (v : view) : view :=
  {| v_queued := b; v_reacquires := v_reacquires v; v_ticket := v_ticket v |}.

Lemma ticket_of_left_line tk q t :
  ticket_of (left_line tk q) t =
    if decide (tk = Some t) then {| m_promoted := m_promoted (ticket_of q t); m_waiter := None |}
    else ticket_of q t.
Proof.
  destruct tk as [t'|]; simpl; [|done]. rewrite ticket_of_set.
  repeat case_decide; simplify_eq; done.
Qed.

Lemma lines_of_left_line tk q :
  reacquiring (left_line tk q) = reacquiring q ∧ promoted (left_line tk q) = promoted q ∧
  waiting (left_line tk q) = waiting q ∧ m_free (left_line tk q) = m_free q.
Proof. by destruct tk. Qed.

Lemma lookup_alter_view b i (vs : list view) j v :
  alter (set_queued b) i vs !! j = Some v →
  ∃ v0, vs !! j = Some v0 ∧ v_reacquires v = v_reacquires v0 ∧ v_ticket v = v_ticket v0 ∧
        v_queued v = if decide (i = j) then b else v_queued v0.
Proof.
  rewrite lookup_alter_list. case_decide; [|by eauto].
  destruct (vs !! j) as [v0|]; simpl; [|done]. intros [= <-]. by exists v0.
Qed.

Lemma alter_view_lookup b i (vs : list view) j v0 :
  vs !! j = Some v0 →
  alter (set_queued b) i vs !! j = Some (if decide (i = j) then set_queued b v0 else v0).
Proof. intros Hj. rewrite lookup_alter_list. case_decide; by rewrite Hj. Qed.

(** The part of [lines_ok] about tickets, for any change to who is queued. *)
Lemma tickets_once_alter b i q vs :
  lines_ok q vs → ∀ i1 j v v' t, alter (set_queued b) i vs !! i1 = Some v →
  alter (set_queued b) i vs !! j = Some v' → v_ticket v = Some t → v_ticket v' = Some t → i1 = j.
Proof.
  intros Hok i1 j v v' t (v0 & H0 & _ & E0 & _)%lookup_alter_view (v1 & H1 & _ & E1 & _)%lookup_alter_view.
  rewrite E0, E1. by eapply lines_tickets_once.
Qed.

(** [w] leaves its line, wherever it stands. *)
Lemma lines_leave q q0 vs w v :
  lines_ok q vs → vs !! w = Some v → w ∈ line q →
  reacquiring q0 = without w (reacquiring q) → promoted q0 = without w (promoted q) →
  waiting q0 = without w (waiting q) → tickets q0 = tickets q → m_free q0 = m_free q →
  lines_ok (left_line (v_ticket v) q0) (alter (set_queued false) w vs).
Proof.
  intros Hok Hv Hw Hr Hp Hwt Ht Hf.
  pose proof (lines_of_left_line (v_ticket v) q0) as (Er & Ep & Ew & Ef).
  assert (line (left_line (v_ticket v) q0) = without w (line q)) as Hline.
  { unfold line, without. rewrite Er, Ep, Ew, Hr, Hp, Hwt, !filter_app. done. }
  assert (∀ t, ticket_of q0 t = ticket_of q t) as Htk by (intros t; unfold ticket_of; by rewrite Ht).
  constructor.
  - rewrite Ef, Hf, Hline. intros Hfree. by rewrite (lines_work _ _ Hok Hfree).
  - rewrite Hline. apply without_NoDup, lines_nodup with vs, Hok.
  - intros i. rewrite Hline, elem_of_without, (lines_in _ _ Hok). split.
    + intros (Hne & v0 & H0 & Hq). rewrite (alter_view_lookup _ _ _ _ _ H0).
      rewrite decide_False by done. eauto.
    + intros (v' & (v0 & H0 & _ & _ & E)%lookup_alter_view & Hq). rewrite E in Hq.
      case_decide; [done|]. split; [done|]. by exists v0.
  - intros i v' (v0 & H0 & -> & _ & _)%lookup_alter_view. rewrite Hline, elem_of_without, Er, Hr, elem_of_without.
    intros [Hne Hi]. rewrite <- (lines_reacquiring _ _ Hok i v0 H0 Hi). naive_solver.
  - intros i v' (v0 & H0 & -> & -> & _)%lookup_alter_view.
    rewrite Hline, elem_of_without, Ep, Hp, elem_of_without. intros [Hne Hi] Hre.
    assert (∀ t, m_promoted (ticket_of (left_line (v_ticket v) q0) t) = m_promoted (ticket_of q t)) as Hmp.
    { intros t. rewrite ticket_of_left_line, Htk. by case_decide. }
    setoid_rewrite Hmp. rewrite <- (lines_promoted _ _ Hok i v0 H0 Hi Hre). naive_solver.
  - intros t i. rewrite ticket_of_left_line, Htk. case_decide as Htv; simpl.
    + split; [done|]. intros (v' & (v0 & H0 & _ & E & Eq)%lookup_alter_view & Hti & Hq).
      rewrite E in Hti. rewrite (lines_tickets_once _ _ Hok w i v v0 t Hv H0 Htv Hti) in Eq.
      rewrite decide_True in Eq by done. congruence.
    + rewrite (lines_ticket _ _ Hok). split.
      * intros (v0 & H0 & Hti & Hq). exists v0. split; [|done].
        rewrite (alter_view_lookup _ _ _ _ _ H0). rewrite decide_False by (intros ->; congruence). done.
      * intros (v' & (v0 & H0 & _ & E & Eq)%lookup_alter_view & Hti & Hq). exists v0.
        rewrite Eq in Hq. case_decide; [done|]. by rewrite <- E.
  - by apply tickets_once_alter with q.
  - intros i v' (v0 & H0 & -> & -> & _)%lookup_alter_view. by apply (lines_untickets _ _ Hok i).
Qed.

Lemma lines_disjoint q vs w :
  lines_ok q vs →
  (w ∈ reacquiring q → w ∉ promoted q ∧ w ∉ waiting q) ∧
  (w ∈ promoted q → w ∉ reacquiring q ∧ w ∉ waiting q) ∧
  (w ∈ waiting q → w ∉ reacquiring q ∧ w ∉ promoted q).
Proof.
  intros Hok. pose proof (lines_nodup _ _ Hok) as Hnd. unfold line in Hnd.
  apply NoDup_app in Hnd as (_ & H1 & (_ & H2 & _)%NoDup_app).
  setoid_rewrite not_elem_of_app in H1. naive_solver.
Qed.

Lemma lines_dequeue i v q q' vs :
  lines_ok q vs → vs !! i = Some v → dequeue i (v_ticket v) (v_reacquires v) q = Some q' →
  i ∈ line q ∧ m_free q' = m_free q ∧ lines_ok q' (alter (set_queued false) i vs).
Proof.
  intros Hok Hv. pose proof (lines_disjoint q vs i Hok) as (Hd1 & Hd2 & Hd3).
  unfold dequeue. destruct (v_reacquires v) eqn:Hre.
  - case_decide as Hin; [|done]. intros [= <-].
    assert (i ∈ line q) as Hline by (unfold line; rewrite elem_of_app; auto). split_and!; [done|done|].
    pose proof (lines_leave q (set_lines (without i (reacquiring q)) (promoted q) (waiting q) q) vs i v)
      as H. rewrite (lines_untickets _ _ Hok i v) in H by done.
    apply H; simpl; try done; (rewrite without_id; [done|tauto]).
  - destruct (decide (i ∈ promoted q)) as [Hin|Hin]; [|case_decide as Hin2; [|done]]; intros [= <-].
    + assert (i ∈ line q) as Hline by (unfold line; rewrite !elem_of_app; auto).
      split_and!; [done|by destruct (v_ticket v)|].
      apply lines_leave with q; simpl; try done; (rewrite without_id; [done|tauto]).
    + assert (i ∈ line q) as Hline by (unfold line; rewrite !elem_of_app; auto).
      split_and!; [done|by destruct (v_ticket v)|].
      apply lines_leave with q; simpl; try done; (rewrite without_id; [done|tauto]).
Qed.

(** A waiter that is not in its line. *)
Lemma dequeue_None i v q vs :
  lines_ok q vs → vs !! i = Some v → dequeue i (v_ticket v) (v_reacquires v) q = None → i ∉ line q.
Proof.
  intros Hok Hv. unfold dequeue, line. rewrite !elem_of_app. destruct (v_reacquires v) eqn:Hre.
  - case_decide as Hin; [done|]. intros _ Hline. apply Hin.
    apply (lines_reacquiring _ _ Hok i v Hv); [by unfold line; rewrite !elem_of_app|done].
  - destruct (decide (i ∈ promoted q)) as [|H1]; [done|]. destruct (decide (i ∈ waiting q)) as [|H2]; [done|].
    intros _ [Hr|[?|?]]; [|done..].
    apply (lines_reacquiring _ _ Hok i v Hv) in Hr; [congruence|unfold line; rewrite elem_of_app; auto].
Qed.

Lemma without_head w l : NoDup (w :: l) → without w (w :: l) = l.
Proof. intros [Hw _]%NoDup_cons. apply (without_middle w [] l); [apply not_elem_of_nil|done]. Qed.

(** What [release] does, in terms of the one line. *)
Lemma release_line tk q :
  match release tk q with
  | (Some w, q') => line q = w :: line q' ∧ m_free q' = m_free q
  | (None, q') => line q = [] ∧ line q' = [] ∧ m_free q' = S (m_free q)
  end.
Proof.
  unfold release, line. destruct (reacquiring q) as [|w r] eqn:Er.
  - destruct (promoted q) as [|w p] eqn:Ep.
    + destruct (waiting q) as [|w l] eqn:Ew; simpl.
      * by rewrite Er, Ep, Ew.
      * pose proof (lines_of_left_line (tk w) (set_lines [] [] l q)) as (-> & -> & -> & ->). done.
    + pose proof (lines_of_left_line (tk w) (set_lines [] p (waiting q) q)) as (-> & -> & -> & ->). done.
  - done.
Qed.

Lemma lines_release tk q vs :
  lines_ok q vs → (∀ i v, vs !! i = Some v → tk i = v_ticket v) →
  match release tk q with
  | (Some w, q') => lines_ok q' (alter (set_queued false) w vs)
  | (None, q') => True
  end.
Proof.
  intros Hok Htk. pose proof (lines_nodup _ _ Hok) as Hnd.
  assert (∀ w, w ∈ line q → ∃ v, vs !! w = Some v ∧ tk w = v_ticket v) as Hw.
  { intros w (v & Hv & _)%(lines_in _ _ Hok). exists v. auto. }
  pose proof (λ w, lines_disjoint q vs w Hok) as Hdis. unfold line in Hnd.
  apply NoDup_app in Hnd as (Hnd1 & _ & (Hnd2 & _ & Hnd3)%NoDup_app).
  unfold release. destruct (reacquiring q) as [|w r] eqn:Er;
    [destruct (promoted q) as [|w p] eqn:Ep; [destruct (waiting q) as [|w l] eqn:Ew; [done|]|]|];
    (destruct (Hw w) as (v & Hv & Htkw); [unfold line; rewrite Er, ?Ep, ?Ew; left|]);
    destruct (Hdis w) as (Hd1 & Hd2 & Hd3);
    rewrite ?Htkw.
  - apply lines_leave with q; simpl; rewrite ?Er, ?Ep, ?Ew; try done.
    + unfold line. rewrite Er, Ep, Ew. left.
    + by rewrite without_head.
  - apply lines_leave with q; simpl; rewrite ?Er, ?Ep; try done.
    + unfold line. rewrite Er, Ep. left.
    + by rewrite without_head.
    + rewrite without_id; [done|]. apply Hd2. left.
  - assert (v_ticket v = None) as Hnone.
    { apply (lines_untickets _ _ Hok w v Hv), (lines_reacquiring _ _ Hok w v Hv); [|rewrite Er; left].
      unfold line. rewrite Er. left. }
    pose proof (lines_leave q (set_lines r (promoted q) (waiting q) q) vs w v) as H.
    rewrite Hnone in H. apply H; simpl; rewrite ?Er; try done.
    + unfold line. rewrite Er. left.
    + by rewrite without_head.
    + rewrite without_id; [done|]. apply Hd1. left.
    + rewrite without_id; [done|]. apply Hd1. left.
Qed.

Lemma lines_set_free q vs n :
  lines_ok q vs → (0 < n → line q = []) → lines_ok (set_free n q) vs.
Proof. intros [] Hn. by constructor. Qed.

Lemma lines_take q q' vs :
  lines_ok q vs → try_take q = Some q' → lines_ok q' vs ∧ m_free q = S (m_free q').
Proof.
  unfold try_take. destruct (m_free q) as [|n] eqn:E; [done|]. intros Hok [= <-]. split; [|done].
  apply lines_set_free; [done|]. intros _. apply (lines_work _ _ Hok). lia.
Qed.

Lemma line_enqueue i tk re q : line (enqueue i tk re q) ≡ₚ i :: line q.
Proof.
  assert (∀ l, l ++ [i] ≡ₚ i :: l) as Hsnoc by (intros l; by rewrite Permutation_app_comm).
  unfold enqueue, line. destruct re; simpl; [by rewrite Hsnoc|].
  destruct (match tk with Some t => _ | None => false end), tk; simpl;
    rewrite Hsnoc; simpl; by rewrite <- !Permutation_middle.
Qed.

Lemma enqueue_lines i tk re q :
  let ahead := match tk with Some t => m_promoted (ticket_of q t) | None => false end in
  (∀ j, j ∈ reacquiring (enqueue i tk re q) ↔ j ∈ reacquiring q ∨ (re = true ∧ j = i)) ∧
  (∀ j, j ∈ promoted (enqueue i tk re q) ↔ j ∈ promoted q ∨ (re = false ∧ ahead = true ∧ j = i)) ∧
  m_free (enqueue i tk re q) = m_free q ∧
  ∀ t, ticket_of (enqueue i tk re q) t =
    if decide (re = false ∧ tk = Some t)
    then {| m_promoted := m_promoted (ticket_of q t); m_waiter := Some i |} else ticket_of q t.
Proof.
  intros ahead. unfold enqueue. fold ahead. destruct re.
  - simpl. setoid_rewrite elem_of_app. setoid_rewrite list_elem_of_singleton.
    split_and!; [naive_solver..|]. done.
  - assert (∀ t, ticket_of (match tk with Some t => set_ticket t
        {| m_promoted := m_promoted (ticket_of q t); m_waiter := Some i |} q | None => q end) t =
      if decide (tk = Some t) then {| m_promoted := m_promoted (ticket_of q t); m_waiter := Some i |}
      else ticket_of q t) as Ht.
    { intros t. destruct tk as [t'|]; [|done]. rewrite ticket_of_set.
      repeat case_decide; simplify_eq; done. }
    assert (∀ t, (if decide (false = false ∧ tk = Some t) then
       {| m_promoted := m_promoted (ticket_of q t); m_waiter := Some i |} else ticket_of q t) =
       ticket_of (match tk with Some t => set_ticket t
        {| m_promoted := m_promoted (ticket_of q t); m_waiter := Some i |} q | None => q end) t) as Ht'.
    { intros t. rewrite Ht. repeat case_decide; naive_solver. }
    setoid_rewrite Ht'. clear Ht Ht'.
    destruct ahead, tk; simpl; (split_and!; [| |done|done]); intros j;
      rewrite ?elem_of_app, ?list_elem_of_singleton; naive_solver.
Qed.

Lemma lines_enqueue i v q vs :
  lines_ok q vs → vs !! i = Some v → v_queued v = false → m_free q = 0 →
  lines_ok (enqueue i (v_ticket v) (v_reacquires v) q) (alter (set_queued true) i vs).
Proof.
  intros Hok Hv Hq Hfree.
  pose proof (line_enqueue i (v_ticket v) (v_reacquires v) q) as Hperm.
  pose proof (enqueue_lines i (v_ticket v) (v_reacquires v) q) as (Hr & Hp & Hf & Ht).
  set (q' := enqueue _ _ _ _) in *.
  assert (i ∉ line q) as Hi by (rewrite (lines_in _ _ Hok); intros (v' & ? & ?); congruence).
  assert (∀ t, m_promoted (ticket_of q' t) = m_promoted (ticket_of q t)) as Hmp
    by (intros t; rewrite Ht; by destruct (decide _)).
  constructor.
  - rewrite Hf. lia.
  - rewrite Hperm. apply NoDup_cons. split; [done|]. by apply lines_nodup with vs.
  - intros j. rewrite Hperm, elem_of_cons, (lines_in _ _ Hok). split.
    + intros [->|(v0 & H0 & Hq0)].
      * rewrite (alter_view_lookup _ _ _ _ _ Hv), decide_True by done. by eexists.
      * rewrite (alter_view_lookup _ _ _ _ _ H0). eexists. split; [done|]. by destruct (decide _).
    + intros (v' & (v0 & H0 & _ & _ & E)%lookup_alter_view & Hq'). rewrite E in Hq'.
      case_decide; [by left|]. right. by exists v0.
  - intros j v' (v0 & H0 & -> & _ & _)%lookup_alter_view. rewrite Hperm, elem_of_cons, Hr.
    intros [->|Hj].
    + rewrite Hv in H0. injection H0 as ->. split; [|by right]. intros [Hin|[? _]]; [|done].
      destruct Hi. unfold line. rewrite elem_of_app. by left.
    + rewrite (lines_reacquiring _ _ Hok j v0 H0 Hj). naive_solver.
  - intros j v' (v0 & H0 & -> & -> & _)%lookup_alter_view. rewrite Hperm, elem_of_cons, Hp.
    setoid_rewrite Hmp. intros [->|Hj] Hre.
    + rewrite Hv in H0. injection H0 as ->. split.
      * intros [Hin|(_ & Ha & _)]; [destruct Hi; unfold line; rewrite !elem_of_app; tauto|].
        destruct (v_ticket v0) as [t|]; [by exists t|done].
      * intros (t & -> & ?). by right.
    + rewrite (lines_promoted _ _ Hok j v0 H0 Hj Hre). split; [|by left]. intros [?|(_ & _ & ->)]; done.
  - intros t j. rewrite Ht.
    destruct (decide (v_reacquires v = false ∧ v_ticket v = Some t)) as [[Hre Htv]|Htv]; simpl.
    + split.
      * intros E. injection E as <-. rewrite (alter_view_lookup _ _ _ _ _ Hv), decide_True by done.
        by eexists.
      * intros (v' & (v0 & H0 & _ & E & _)%lookup_alter_view & Htj & _). f_equal.
        rewrite E in Htj. by apply (lines_tickets_once _ _ Hok i j v v0 t).
    + rewrite (lines_ticket _ _ Hok). split.
      * intros (v0 & H0 & Htj & Hq0). rewrite (alter_view_lookup _ _ _ _ _ H0).
        eexists. split; [done|]. by destruct (decide _).
      * intros (v' & (v0 & H0 & _ & E & Eq)%lookup_alter_view & Htj & Hqj). rewrite E in Htj.
        exists v0. split_and!; [done..|]. rewrite Eq in Hqj. case_decide; [subst|done].
        destruct Htv. rewrite Hv in H0. injection H0 as ->. split; [|done].
        destruct (v_reacquires v0) eqn:Hre; [|done].
        by rewrite (lines_untickets _ _ Hok j v0) in Htj.
  - by apply tickets_once_alter with q.
  - intros j v' (v0 & H0 & -> & -> & _)%lookup_alter_view. by apply (lines_untickets _ _ Hok j).
Qed.

Lemma lines_connect q vs v :
  lines_ok q vs → v_queued v = false →
  (∀ t, v_ticket v = Some t → v_reacquires v = false ∧ ∀ v', v' ∈ vs → v_ticket v' ≠ Some t) →
  lines_ok q (vs ++ [v]).
Proof.
  intros Hok Hq Htk.
  assert (∀ i v', (vs ++ [v]) !! i = Some v' → vs !! i = Some v' ∨ (i = length vs ∧ v' = v)) as Hnew.
  { intros i v' [?|[? Hi]]%lookup_app_Some; [by left|]. right.
    apply list_lookup_singleton_Some in Hi as [? ->]. split; [lia|done]. }
  assert (∀ i v', vs !! i = Some v' → (vs ++ [v]) !! i = Some v') as Hold
    by (intros i v'; apply lookup_app_l_Some).
  constructor; try apply Hok.
  - intros i. rewrite (lines_in _ _ Hok). split; [naive_solver|].
    intros (v' & [?|[? ->]]%Hnew & ?); [by exists v'|congruence].
  - intros i v' [?|[-> ->]]%Hnew; [by apply (lines_reacquiring _ _ Hok)|].
    intros (v' & Hv' & _)%(lines_in _ _ Hok). apply lookup_lt_Some in Hv'. lia.
  - intros i v' [?|[-> ->]]%Hnew; [by apply (lines_promoted _ _ Hok)|].
    intros (v' & Hv' & _)%(lines_in _ _ Hok). apply lookup_lt_Some in Hv'. lia.
  - intros t i. rewrite (lines_ticket _ _ Hok). split; [naive_solver|].
    intros (v' & [?|[? ->]]%Hnew & ? & ?); [by exists v'|congruence].
  - intros i j v1 v2 t [H1|[-> ->]]%Hnew [H2|[-> ->]]%Hnew E1 E2; [|exfalso..|done].
    + by eapply lines_tickets_once.
    + apply Htk in E2 as [_ E2]. by apply (E2 v1 (list_elem_of_lookup_2 _ _ _ H1)).
    + apply Htk in E1 as [_ E1]. by apply (E1 v2 (list_elem_of_lookup_2 _ _ _ H2)).
  - intros i v' [?|[-> ->]]%Hnew Hre; [by eapply lines_untickets|].
    destruct (v_ticket v) as [t|] eqn:E; [|done]. destruct (Htk t eq_refl). congruence.
Qed.

(** What promoting does to the lines. *)
Lemma promote_lines t q vs :
  lines_ok q vs →
  let moved := if m_promoted (ticket_of q t) then [] else option_list (m_waiter (ticket_of q t)) in
  reacquiring (promote t q) = reacquiring q ∧
  promoted (promote t q) = promoted q ++ moved ∧
  waiting (promote t q) = filter (λ w, w ∉ moved) (waiting q) ∧
  m_free (promote t q) = m_free q ∧ (∀ w, w ∈ moved → w ∈ waiting q) ∧
  ∀ t', ticket_of (promote t q) t' =
    {| m_promoted := m_promoted (ticket_of q t') || bool_decide (t = t');
       m_waiter := m_waiter (ticket_of q t') |}.
Proof.
  intros Hok moved.
  assert (∀ l : list nat, filter (λ w, w ∉ []) l = l) as Hnil.
  { intros l. induction l as [|x l IH]; [done|]. rewrite filter_cons_True by apply not_elem_of_nil. by rewrite IH. }
  assert (∀ t', ticket_of (set_ticket t {| m_promoted := true; m_waiter := m_waiter (ticket_of q t) |} q) t' =
    {| m_promoted := m_promoted (ticket_of q t') || bool_decide (t = t');
       m_waiter := m_waiter (ticket_of q t') |}) as Htk.
  { intros t'. rewrite ticket_of_set. case_decide.
    - subst. rewrite bool_decide_true by done. by rewrite orb_true_r.
    - rewrite bool_decide_false by done. rewrite orb_false_r. by destruct (ticket_of q t'). }
  unfold promote. destruct (m_promoted (ticket_of q t)) eqn:Hp; unfold moved; clear moved.
  { simpl. rewrite app_nil_r, Hnil. split_and!; try done. by intros ? ?%elem_of_nil. }
  destruct (m_waiter (ticket_of q t)) as [w|] eqn:Hw; simpl.
  2:{ rewrite app_nil_r, Hnil. split_and!; try done. by intros ? ?%elem_of_nil. }
  apply (lines_ticket _ _ Hok) in Hw as (v & Hv & Htv & Hqv).
  assert (w ∈ line q) as Hline by (apply (lines_in _ _ Hok); eauto).
  assert (v_reacquires v = false) as Hre.
  { destruct (v_reacquires v) eqn:E; [|done]. by rewrite (lines_untickets _ _ Hok w v) in Htv. }
  assert (w ∈ waiting q) as Hin.
  { pose proof Hline as Hl. unfold line in Hl. rewrite !elem_of_app in Hl. destruct Hl as [H|[H|H]]; [| |done].
    - apply (lines_reacquiring _ _ Hok w v Hv Hline) in H. congruence.
    - apply (lines_promoted _ _ Hok w v Hv Hline Hre) in H as (t' & ? & ?). congruence. }
  rewrite decide_True by done. simpl. split_and!; [done|done| |done| |].
  - unfold without. apply list_filter_iff. intros x. by rewrite list_elem_of_singleton.
  - by intros ? ->%list_elem_of_singleton.
  - intros t'. by rewrite <- Htk.
Qed.

Lemma list_filter_partition (moved l : list nat) :
  NoDup l → NoDup moved → (∀ w, w ∈ moved → w ∈ l) → moved ++ filter (λ w, w ∉ moved) l ≡ₚ l.
Proof.
  intros Hl Hm Hin. apply NoDup_Permutation; [|done|].
  - apply NoDup_app. split_and!; [done| |by apply NoDup_filter].
    intros x Hx [? _]%list_elem_of_filter. done.
  - intros x. rewrite elem_of_app, list_elem_of_filter.
    destruct (decide (x ∈ moved)); naive_solver.
Qed.

Lemma line_promote t q vs : lines_ok q vs → line (promote t q) ≡ₚ line q.
Proof.
  intros Hok. pose proof (promote_lines t q vs Hok) as (Hr & Hp & Hw & _ & Hm & _).
  pose proof (lines_nodup _ _ Hok) as (_ & _ & (_ & _ & Hnd)%NoDup_app)%NoDup_app.
  unfold line. rewrite Hr, Hp, Hw, <- app_assoc. do 2 f_equiv.
  apply list_filter_partition; [done| |done].
  destruct (m_promoted _); [apply NoDup_nil_2|]. destruct (m_waiter _); simpl;
    [apply NoDup_singleton|apply NoDup_nil_2].
Qed.

Lemma lines_promote t q vs : lines_ok q vs → lines_ok (promote t q) vs.
Proof.
  intros Hok. pose proof (promote_lines t q vs Hok) as (Hr & Hp & Hw & Hf & Hm & Ht).
  pose proof (line_promote t q vs Hok) as Hperm. constructor.
  - rewrite Hf. intros Hfree. apply (lines_work _ _ Hok) in Hfree as E. rewrite E in Hperm.
    by apply Permutation_nil_r in Hperm.
  - rewrite Hperm. by apply lines_nodup with vs.
  - intros i. rewrite Hperm. apply (lines_in _ _ Hok).
  - intros i v Hv. rewrite Hperm, Hr. by apply (lines_reacquiring _ _ Hok).
  - intros i v Hv. rewrite Hperm, Hp, elem_of_app. intros Hi Hre.
    rewrite (lines_promoted _ _ Hok i v Hv Hi Hre). setoid_rewrite Ht. simpl. split.
    + intros [(t' & ? & E)|Hin]; [exists t'; by rewrite E|].
      destruct (m_promoted (ticket_of q t)); [by apply elem_of_nil in Hin|].
      destruct (m_waiter (ticket_of q t)) as [w|] eqn:E; [|by apply elem_of_nil in Hin].
      apply list_elem_of_singleton in Hin as ->. apply (lines_ticket _ _ Hok) in E as (v' & ? & ? & _).
      exists t. simplify_eq. split; [done|]. rewrite bool_decide_true by done. apply orb_true_r.
    + intros (t' & Hvt & [?|<-%bool_decide_eq_true]%orb_true_iff); [left; by exists t'|].
      destruct (m_promoted (ticket_of q t)) eqn:E; [left; by exists t|]. right.
      apply (lines_in _ _ Hok) in Hi as (v' & ? & Hq). simplify_eq.
      rewrite (proj2 (lines_ticket _ _ Hok t i)); [simpl; by apply list_elem_of_singleton|]. by exists v.
  - intros t' i. rewrite Ht. simpl. apply (lines_ticket _ _ Hok).
  - apply (lines_tickets_once _ _ Hok).
  - apply (lines_untickets _ _ Hok).
Qed.

(** ** Leases *)

(** A change of phase short of [Given], of an operation that has not finished. *)
Lemma leases_phase i p os o :
  leases_ok os → os !! i = Some o → finished o = false → p ≠ Given →
  ∀ early, leases_ok (alter (λ o, {| m_lease := m_lease o; ticket := ticket o;
    m_stopped_early := early o; at_phase := p; m_held := m_held o |}) i os).
Proof.
  intros Hok Ho Hfin Hp early.
  assert (at_phase o ≠ Given) as Hng by (intros E; unfold finished in Hfin; by rewrite E in Hfin).
  constructor.
  - intros j o' l. rewrite lookup_alter_list. intros Hj Hl.
    assert (∃ oj, os !! j = Some oj ∧ m_lease oj = Some l ∧ m_held o' = m_held oj ∧
                  (finished o' = false → finished oj = false)) as (oj & Hoj & Hlj & -> & Hfj).
    { case_decide; [subst j; rewrite Ho in Hj; simplify_eq/=; exists o; eauto|by exists o']. }
    destruct (leases_back _ Hok j oj l Hoj Hlj) as (? & ol & Hol & ? & ? & ?). split; [done|].
    exists ol. rewrite lookup_alter_list, decide_False by (intros ->; congruence). split_and!; auto.
  - intros j1 j2 o1 o2 l H1 H2 Hl1 Hl2 Hf1 Hf2. rewrite lookup_alter_list in H1, H2.
    assert (∃ oj, os !! j1 = Some oj ∧ m_lease oj = Some l ∧ finished oj = false) as (? & ? & ? & ?)
      by (destruct (decide (i = j1)); [subst j1; rewrite Ho in H1; simplify_eq/=|]; eauto).
    assert (∃ oj, os !! j2 = Some oj ∧ m_lease oj = Some l ∧ finished oj = false) as (? & ? & ? & ?)
      by (destruct (decide (i = j2)); [subst j2; rewrite Ho in H2; simplify_eq/=|]; eauto).
    by eapply leases_once.
  - intros j o'. rewrite lookup_alter_list. case_decide; [subst j; rewrite Ho; simpl; intros [= <-]; simpl|].
    + intros Hh. by destruct (leases_held _ Hok i o Ho Hh).
    + by apply leases_held.
Qed.

Lemma leases_given_new i os o :
  leases_ok os → os !! i = Some o → finished o = false → m_lease o = None →
  leases_ok (alter (λ o, set_held true (set_phase Given o)) i os).
Proof.
  intros Hok Ho Hfin Hnew. 
  assert (at_phase o ≠ Given) as Hng by (intros E; unfold finished in Hfin; by rewrite E in Hfin).
  assert (∀ j o' l, alter (λ o, set_held true (set_phase Given o)) i os !! j = Some o' →
            m_lease o' = Some l → j ≠ i ∧ os !! j = Some o') as Hback.
  { intros j o' l. rewrite lookup_alter_list. case_decide; [subst j|by intros ? ?].
    rewrite Ho. intros [= <-]. simpl. congruence. }
  constructor.
  - intros j o' l Hj Hl. destruct (Hback j o' l) as [Hne Hj']; [done..|].
    destruct (leases_back _ Hok j o' l) as (? & ol & ? & ? & ? & ?); [done..|]. split; [done|].
    exists ol. rewrite lookup_alter_list, decide_False by (intros ->; congruence). done.
  - intros j1 j2 o1 o2 l H1 H2 Hl1 Hl2. apply Hback with (l := l) in H1 as [_ H1]; [|done].
    apply Hback with (l := l) in H2 as [_ H2]; [|done]. by apply (leases_once _ Hok _ _ _ _ l).
  - intros j o'. rewrite lookup_alter_list. case_decide; [|by apply leases_held].
    subst j. rewrite Ho. intros [= <-]. by simpl.
Qed.

Lemma leases_given_back i l os o :
  leases_ok os → os !! i = Some o → finished o = false → m_lease o = Some l →
  leases_ok (alter (set_held true) l (alter (set_phase Given) i os)).
Proof.
  intros Hok Ho Hfin Hl. destruct (leases_back _ Hok i o l Ho Hl) as (Hh & ol & Hol & Hnl & Hg & _).
  assert (l ≠ i) as Hli by (intros ->; congruence).
  assert (∀ j o', alter (set_held true) l (alter (set_phase Given) i os) !! j = Some o' →
            ∃ oj, os !! j = Some oj ∧ m_lease o' = m_lease oj ∧
            (j = i ∧ o' = set_phase Given o ∨ j = l ∧ o' = set_held true ol ∨ j ≠ i ∧ j ≠ l ∧ o' = oj))
    as Hback.
  { intros j o'. rewrite !lookup_alter_list. destruct (decide (l = j)) as [<-|].
    - rewrite decide_False by congruence. rewrite Hol. intros [= <-]. exists ol. naive_solver.
    - case_decide; [subst j; rewrite Ho; intros [= <-]; exists o|intros ?; exists o']; naive_solver. }
  constructor.
  - intros j o' l' (oj & Hoj & El & Hcase)%Hback Hl'. rewrite El in Hl'.
    destruct (leases_back _ Hok j oj l' Hoj Hl') as (Hhj & ol' & Hol' & Hnl' & Hg' & Hfree).
    split; [destruct Hcase as [[-> ->]|[[-> ->]|(_ & _ & ->)]]; simpl; congruence|].
    assert (l' ≠ i) by (intros ->; congruence).
    destruct (decide (l' = l)) as [->|].
    + exists (set_held true ol). rewrite lookup_alter_list, decide_True, lookup_alter_list by done.
      rewrite decide_False, Hol by done. split_and!; [done..|]. intros Hf. exfalso.
      destruct Hcase as [[-> ->]|[[-> ->]|(Hne & _ & ->)]]; [done|congruence|].
      apply Hne. by apply (leases_once _ Hok j i oj o l).
    + exists ol'. rewrite !lookup_alter_list, !decide_False by congruence.
      split_and!; [done..|]. intros Hf. apply Hfree.
      destruct Hcase as [[-> ->]|[[-> ->]|(Hne & _ & ->)]]; [done|congruence|done].
  - intros j1 j2 o1 o2 l' (oj1 & Hoj1 & El1 & Hc1)%Hback (oj2 & Hoj2 & El2 & Hc2)%Hback Hl1 Hl2 Hf1 Hf2.
    rewrite El1 in Hl1. rewrite El2 in Hl2.
    destruct Hc1 as [[-> ->]|[[-> ->]|(Hne1 & _ & ->)]]; [done|congruence|].
    destruct Hc2 as [[-> ->]|[[-> ->]|(Hne2 & _ & ->)]]; [done|congruence|].
    by apply (leases_once _ Hok _ _ oj1 oj2 l').
  - intros j o' (oj & Hoj & El & Hcase)%Hback Hheld.
    destruct Hcase as [[-> ->]|[[-> ->]|(Hne & _ & ->)]]; simpl in *; [congruence|done|].
    by apply (leases_held _ Hok j).
Qed.

Lemma leases_let_go l os : leases_ok os → leases_ok (alter (set_held false) l os).
Proof.
  intros Hok.
  assert (∀ j o', alter (set_held false) l os !! j = Some o' → ∃ oj, os !! j = Some oj ∧
    m_lease o' = m_lease oj ∧ at_phase o' = at_phase oj ∧ (m_held o' = true → m_held oj = true)) as Hback.
  { intros j o'. rewrite lookup_alter_list. case_decide; [|by eauto].
    destruct (os !! j) as [oj|]; simpl; [|done]. intros [= <-]. exists oj. by simpl. }
  assert (∀ o' oj, at_phase o' = at_phase oj → finished o' = finished oj) as Hfin
    by (intros o' oj E; unfold finished; by rewrite E).
  constructor.
  - intros j o' l' (oj & Hoj & -> & Ep & Hh)%Hback Hl'.
    destruct (leases_back _ Hok j oj l' Hoj Hl') as (Hhj & ol & Hol & ? & ? & Hfree). split.
    { destruct (m_held o'); [|done]. rewrite Hhj in Hh. by rewrite Hh. }
    rewrite lookup_alter_list, Hol. case_decide; eexists; (split; [done|]); simpl; [done|].
    rewrite (Hfin o' oj Ep). done.
  - intros j1 j2 o1 o2 l' (oj1 & ? & -> & E1 & _)%Hback (oj2 & ? & -> & E2 & _)%Hback.
    rewrite (Hfin _ _ E1), (Hfin _ _ E2). by apply (leases_once _ Hok).
  - intros j o' (oj & Hoj & -> & -> & Hh)%Hback ?%Hh. by apply (leases_held _ Hok j).
Qed.

Lemma leases_connect os l t :
  leases_ok os →
  (∀ l', l = Some l' → ∃ ol, os !! l' = Some ol ∧ m_lease ol = None ∧ at_phase ol = Given ∧
     m_held ol = false ∧ ∀ o, o ∈ os → m_lease o = Some l' → finished o = true) →
  leases_ok (os ++ [new_operation l t]).
Proof.
  intros Hok Hl.
  assert (∀ i o, (os ++ [new_operation l t]) !! i = Some o →
            os !! i = Some o ∨ (i = length os ∧ o = new_operation l t)) as Hnew.
  { intros i o [?|[? Hi]]%lookup_app_Some; [by left|]. right.
    apply list_lookup_singleton_Some in Hi as [? ->]. split; [lia|done]. }
  constructor.
  - intros i o l' [Ho|[-> ->]]%Hnew Hl'.
    + destruct (leases_back _ Hok i o l' Ho Hl') as (? & ol & ? & ?). split; [done|].
      exists ol. split; [by apply lookup_app_l_Some|done].
    + simpl in Hl'. destruct (Hl l' Hl') as (ol & ? & ? & ? & ? & _). split; [done|].
      exists ol. split; [by apply lookup_app_l_Some|done].
  - intros i j o o' l' [Hi|[-> ->]]%Hnew [Hj|[-> ->]]%Hnew Hl1 Hl2 Hf1 Hf2; simpl in *.
    + by apply (leases_once _ Hok i j o o' l').
    + destruct (Hl l' Hl2) as (_ & _ & _ & _ & _ & H). apply list_elem_of_lookup_2 in Hi.
      rewrite (H o Hi Hl1) in Hf1. done.
    + destruct (Hl l' Hl1) as (_ & _ & _ & _ & _ & H). apply list_elem_of_lookup_2 in Hj.
      rewrite (H o' Hj Hl2) in Hf2. done.
    + done.
  - intros i o [Ho|[-> ->]]%Hnew; [by apply (leases_held _ Hok i)|done].
Qed.

(** ** The invariant *)

Definition parts_ok (s : system) : Prop :=
  lines_ok (queue s) (view_of <$> operations s) ∧ leases_ok (operations s).
Definition slots_in (s : system) : nat := m_free (queue s) + slots_out (operations s).

Lemma unfinished_not_held os i o :
  leases_ok os → os !! i = Some o → finished o = false → m_held o = false.
Proof.
  intros Hok Ho Hfin. destruct (m_held o) eqn:E; [|done].
  destruct (leases_held _ Hok i o Ho E) as [Hg _]. unfold finished in Hfin. by rewrite Hg in Hfin.
Qed.

Lemma view_lookup (os : list SlotOperation) i o : os !! i = Some o → (view_of <$> os) !! i = Some (view_of o).
Proof. intros Ho. by rewrite list_lookup_fmap, Ho. Qed.

(** A change of phase that neither joins nor leaves a line. *)
Lemma phase_parts i p s o :
  parts_ok s → operations s !! i = Some o → finished o = false → at_phase o ≠ Queued →
  p ≠ Queued → p ≠ Given →
  parts_ok (update i (set_phase p) s) ∧
  slots_in (update i (set_phase p) s) + b2n (has_slot o) =
    slots_in s + b2n (has_slot (set_phase p o)).
Proof.
  intros [Hlines Hleases] Ho Hfin Hq Hpq Hpg. split; [split|]; simpl.
  - rewrite views_alter_same; [done|]. intros o' Ho'. simplify_eq. unfold view_of; simpl.
    by rewrite !bool_decide_false.
  - by eapply (leases_phase i p).
  - unfold slots_in; simpl. pose proof (slots_out_alter (set_phase p) i _ o Ho). lia.
Qed.

Lemma release_slot_parts s :
  parts_ok s →
  parts_ok (release_slot s) ∧ slots_in (release_slot s) = S (slots_in s) ∧
  (∀ i o, operations s !! i = Some o → at_phase o ≠ Queued →
          operations (release_slot s) !! i = Some o).
Proof.
  intros [Hlines Hleases]. unfold release_slot.
  pose proof (release_line (ticket_at s) (queue s)) as Hline.
  pose proof (lines_release (ticket_at s) _ _ Hlines) as Hrel.
  destruct (release (ticket_at s) (queue s)) as [[w|] q'] eqn:E.
  - destruct Hline as [Hline Hfree].
    assert (w ∈ line (queue s)) as Hw by (rewrite Hline; left).
    apply (lines_in _ _ Hlines) in Hw as (v & Hv & Hqv). rewrite list_lookup_fmap in Hv.
    destruct (operations s !! w) as [o|] eqn:Ho; simplify_eq/=. apply bool_decide_eq_true in Hqv.
    assert (finished o = false) as Hfin by (unfold finished; by rewrite Hqv).
    split; [split|split]; simpl.
    + rewrite (views_alter _ (set_queued false)); [|done]. apply Hrel.
      intros i v. rewrite list_lookup_fmap. unfold ticket_at.
      destruct (operations s !! i); simpl; [by intros [= <-]|done].
    + by eapply (leases_phase w (Resuming true)).
    + unfold slots_in; simpl. pose proof (slots_out_alter (set_phase (Resuming true)) w _ o Ho) as Hs.
      assert (has_slot o = false) as Hns.
      { unfold has_slot. rewrite Hqv. by rewrite (unfinished_not_held (operations s) w o). }
      rewrite Hns in Hs. simpl in Hs. lia.
    + intros i oi Hi Hqi. rewrite lookup_alter_list, decide_False; [done|]. intros ->. congruence.
  - destruct Hline as (Hline & Hline' & Hfree). split; [split|split]; simpl; [|done| |done].
    + assert (q' = set_free (S (m_free (queue s))) (queue s)) as ->.
      { unfold release in E. repeat break_match_hyp E; by simplify_eq. }
      by apply lines_set_free.
    + unfold slots_in; simpl. lia.
Qed.

(** Getting a slot: [complete_given]. *)
Lemma given_parts i s o :
  parts_ok s → operations s !! i = Some o → at_phase o = Completing true ∨ at_phase o = Resuming true →
  parts_ok (complete_given i o s) ∧ slots_in (complete_given i o s) = slots_in s.
Proof.
  intros [Hlines Hleases] Ho Hp.
  assert (finished o = false) as Hfin by (unfold finished; by destruct Hp as [-> | ->]).
  assert (has_slot o = true) as Hhas by (unfold has_slot; by destruct Hp as [-> | ->]).
  assert (at_phase o ≠ Queued) as Hnq by (by destruct Hp as [-> | ->]).
  assert (∀ f, (∀ o, at_phase (f o) = Given ∧ m_lease (f o) = m_lease o ∧ ticket (f o) = ticket o) →
    view_of <$> alter f i (operations s) = view_of <$> operations s) as Hviews.
  { intros f Hf. apply views_alter_same. intros o' Ho'. simplify_eq. unfold view_of, reacquires.
    destruct (Hf o) as (-> & -> & ->). f_equal. by rewrite !bool_decide_false. }
  unfold complete_given. destruct (m_lease o) as [l|] eqn:Hl.
  - destruct (leases_back _ Hleases i o l Ho Hl) as (_ & ol & Hol & Hnl & Hg & Hfree).
    assert (i ≠ l) as Hil by (intros ->; congruence).
    split; [split|]; simpl.
    + rewrite views_alter_same; [|done]. by rewrite Hviews.
    + by apply leases_given_back with o.
    + unfold slots_in; simpl.
      pose proof (slots_out_alter (set_phase Given) i _ o Ho) as H1.
      assert (alter (set_phase Given) i (operations s) !! l = Some ol) as Hol'
        by (by rewrite lookup_alter_list, decide_False).
      pose proof (slots_out_alter (set_held true) l _ ol Hol') as H2.
      rewrite Hhas in H1. unfold has_slot in H1. simpl in H1.
      rewrite (unfinished_not_held (operations s) i o) in H1 by done.
      assert (has_slot ol = false) as E1 by (unfold has_slot; rewrite Hg, (Hfree Hfin); done).
      assert (has_slot (set_held true ol) = true) as E2 by (unfold has_slot; simpl; by rewrite orb_true_r).
      rewrite E1, E2 in H2. simpl in *. lia.
  - split; [split|]; simpl.
    + by rewrite Hviews.
    + by apply leases_given_new with o.
    + unfold slots_in; simpl.
      pose proof (slots_out_alter (λ o, set_held true (set_phase Given o)) i _ o Ho) as H1.
      rewrite Hhas in H1. simpl in *. lia.
Qed.

Definition sound (n : nat) (s : system) : Prop := parts_ok s ∧ slots_in s = n.

Lemma phase_sound n i p s o :
  sound n s → operations s !! i = Some o → finished o = false → at_phase o ≠ Queued →
  has_slot o = false → p ≠ Queued → p ≠ Given → p ≠ Completing true → p ≠ Resuming true →
  sound n (update i (set_phase p) s).
Proof.
  intros [Hparts Hn] Ho Hfin Hq Hslot Hpq Hpg Hpc Hpr.
  destruct (phase_parts i p s o) as [? Hc]; [done..|]. split; [done|].
  rewrite Hslot in Hc. unfold has_slot in Hc. simpl in Hc. destruct Hparts as [_ Hl].
  rewrite !bool_decide_false, (unfinished_not_held _ i o Hl Ho Hfin) in Hc by done. simpl in Hc. lia.
Qed.

Lemma no_slot i s o :
  parts_ok s → operations s !! i = Some o → finished o = false →
  at_phase o ≠ Completing true → at_phase o ≠ Resuming true → has_slot o = false.
Proof.
  intros [_ Hl] Ho Hfin ??. unfold has_slot.
  by rewrite !bool_decide_false, (unfinished_not_held _ i o Hl Ho Hfin) by done.
Qed.

Lemma start_locked_sound n i s o :
  sound n s → operations s !! i = Some o → at_phase o = Registered → sound n (start_locked i o s).
Proof.
  intros Hs Ho Hp. pose proof Hs as [[Hlines Hleases] Hn].
  assert (finished o = false) as Hfin by (unfold finished; by rewrite Hp).
  assert (has_slot o = false) as Hns by (apply (no_slot i s); try done; by rewrite Hp).
  unfold start_locked. destruct (m_stopped_early o).
  { apply phase_sound with o; try done. by rewrite Hp. }
  destruct (try_take (queue s)) as [q|] eqn:Htake.
  - destruct (lines_take _ _ _ Hlines Htake) as [Hlines' Hfree].
    destruct (phase_parts i (Completing true) (with_queue q s) o) as [? Hc];
      [done|done|done|by rewrite Hp|done..|].
    split; [done|]. unfold slots_in in *. simpl in *. rewrite Hns in Hc. simpl in Hc. lia.
  - assert (m_free (queue s) = 0) as Hfree by (unfold try_take in Htake; by destruct (m_free (queue s))).
    split; [split|]; simpl.
    + rewrite (views_alter _ (set_queued true)); [|done].
      apply (lines_enqueue i (view_of o)); [done|by apply view_lookup| |done].
      apply bool_decide_eq_false. by rewrite Hp.
    + by eapply (leases_phase i Queued).
    + unfold slots_in in *. simpl. destruct (enqueue_lines i (ticket o) (reacquires o) (queue s)) as (_ & _ & -> & _).
      pose proof (slots_out_alter (set_phase Queued) i _ o Ho) as Hc. rewrite Hns in Hc.
      unfold has_slot in Hc. simpl in Hc. rewrite (unfinished_not_held _ i o Hleases Ho Hfin) in Hc.
      simpl in Hc. lia.
Qed.

Lemma on_stop_sound n i s o :
  sound n s → operations s !! i = Some o → at_phase o ≠ Connected → finished o = false →
  sound n (on_stop i o s).
Proof.
  intros Hs Ho Hp Hfin. pose proof Hs as [[Hlines Hleases] Hn].
  pose proof (view_lookup _ _ _ Ho) as Hv. unfold on_stop.
  destruct (dequeue _ _ _ _) as [q|] eqn:Hdq.
  - apply (lines_dequeue i (view_of o) _ _ _ Hlines Hv) in Hdq as (Hin & Hfree & Hlines').
    apply (lines_in _ _ Hlines) in Hin as (v & Hv' & Hq). rewrite Hv in Hv'. injection Hv' as <-.
    apply bool_decide_eq_true in Hq. split; [split|]; simpl.
    + by rewrite (views_alter _ (set_queued false)).
    + by eapply (leases_phase i (Resuming false)).
    + unfold slots_in in *. simpl. rewrite Hfree.
      pose proof (slots_out_alter (set_phase (Resuming false)) i _ o Ho) as Hc.
      assert (has_slot o = false) as Hns by (by apply (no_slot i s); rewrite ?Hq).
      rewrite Hns in Hc. unfold has_slot in Hc. simpl in Hc.
      rewrite (unfinished_not_held _ i o Hleases Ho Hfin) in Hc. simpl in Hc. lia.
  - split; [split|]; simpl.
    + by rewrite views_alter_same.
    + rewrite (list_alter_ext stop_early (λ o', {| m_lease := m_lease o'; ticket := ticket o';
        m_stopped_early := true; at_phase := at_phase o; m_held := m_held o' |}) _ (operations s) i);
        [|intros o' Ho'; rewrite Ho in Ho'; by injection Ho' as <-|done].
      apply leases_phase with o; try done. intros E. unfold finished in Hfin. by rewrite E in Hfin.
    + unfold slots_in in *. simpl. pose proof (slots_out_alter stop_early i _ o Ho) as Hc.
      unfold has_slot in Hc. simpl in Hc. lia.
Qed.

Lemma step_sound n e s s' : sound n s → step e s = Some s' → sound n s'.
Proof.
  intros Hs Hstep. pose proof Hs as [[Hlines Hleases] Hn]. destruct e; simpl in Hstep.
  - destruct (existsb _ _) eqn:Hex; [done|]. injection Hstep as <-. split; [split|]; simpl.
    + rewrite fmap_app. apply lines_connect; [done|done|]. simpl. intros t' ->. split; [done|].
      intros v (o & -> & Ho)%list_elem_of_fmap Ht. apply not_true_iff_false in Hex. apply Hex.
      apply existsb_exists. exists o. split; [by apply list_elem_of_In|].
      by rewrite !bool_decide_true.
    + by apply leases_connect.
    + unfold slots_in in *. simpl. rewrite slots_out_app. unfold slots_out at 2. simpl. lia.
  - destruct (operations s !! l) as [ol|] eqn:Hol; [|done].
    destruct (_ && _) eqn:Hc; [|done]. injection Hstep as <-. bool_to_prop. split; [split|]; simpl.
    + rewrite fmap_app. by apply lines_connect.
    + apply leases_connect; [done|]. intros l' [= <-]. exists ol. split_and!; try done.
      intros o Ho Hl. destruct (finished o) eqn:Hf; [done|].
      match goal with H : existsb _ _ = false |- _ => apply not_true_iff_false in H; destruct H end.
      apply existsb_exists. exists o. split; [by apply list_elem_of_In|].
      unfold under_way. rewrite bool_decide_true by done. unfold finished in Hf.
      apply orb_false_elim in Hf as [-> ->]. done.
    + unfold slots_in in *. simpl. rewrite slots_out_app. unfold slots_out at 2. simpl. lia.
  - destruct (operations s !! i) as [o|] eqn:Ho; [|done]. case_decide as Hp; [|done].
    injection Hstep as <-. assert (finished o = false) by (unfold finished; by rewrite Hp).
    apply phase_sound with o; try done; [by rewrite Hp|]. apply (no_slot i s); try done; by rewrite Hp.
  - destruct (operations s !! i) as [o|] eqn:Ho; [|done]. case_decide as Hp; [|done].
    injection Hstep as <-. by apply start_locked_sound.
  - destruct (operations s !! i) as [o|] eqn:Ho; [|done].
    destruct (at_phase o) as [| | |[]| | |] eqn:Hp; try done; injection Hstep as <-.
    + destruct (given_parts i s o) as [? E]; [by split|done|auto|]. split; [done|]. by rewrite E.
    + assert (finished o = false) by (unfold finished; by rewrite Hp).
      apply phase_sound with o; try done; [by rewrite Hp|]. apply (no_slot i s); try done; by rewrite Hp.
  - destruct (operations s !! i) as [o|] eqn:Ho; [|done].
    assert (at_phase o ≠ Connected → finished o = false → sound n (on_stop i o s))
      by (intros; by apply on_stop_sound).
    destruct (at_phase o) eqn:Hp; try done; injection Hstep as <-;
      (apply H; [done|unfold finished; by rewrite Hp]).
  - destruct (operations s !! i) as [o|] eqn:Ho; [|done].
    destruct (at_phase o) as [| | | |[]| |] eqn:Hp; try done; injection Hstep as <-.
    + destruct (given_parts i s o) as [? E]; [by split|done|auto|]. split; [done|]. by rewrite E.
    + assert (finished o = false) by (unfold finished; by rewrite Hp).
      apply phase_sound with o; try done; [by rewrite Hp|]. apply (no_slot i s); try done; by rewrite Hp.
  - destruct (operations s !! i) as [o|] eqn:Ho; [|done].
    destruct (at_phase o) as [| | | |[]| |] eqn:Hp; try done; injection Hstep as <-;
      assert (finished o = false) as Hfin by (unfold finished; by rewrite Hp).
    + destruct (release_slot_parts s) as (Hparts & Hslots & Hkeep); [by split|].
      assert (operations (release_slot s) !! i = Some o) as Ho' by (apply Hkeep; [done|by rewrite Hp]).
      destruct (phase_parts i Stopped (release_slot s) o) as [? Hc]; [done|done|done|by rewrite Hp|done|done|].
      split; [done|]. unfold complete_stopped.
      assert (has_slot o = true) as Hhas by (unfold has_slot; rewrite Hp; done).
      rewrite Hhas, Hslots in Hc. unfold has_slot in Hc. simpl in Hc.
      rewrite (unfinished_not_held _ i o Hleases Ho Hfin) in Hc. simpl in Hc. lia.
    + apply phase_sound with o; try done; [by rewrite Hp|]. apply (no_slot i s); try done; by rewrite Hp.
  - destruct (operations s !! l) as [o|] eqn:Ho; [|done].
    destruct (_ && _) eqn:Hc; [|done]. injection Hstep as <-. bool_to_prop.
    destruct (m_held o) eqn:Hheld; [|done].
    destruct (release_slot_parts (update l (set_held false) s)) as (? & Hslots & _).
    { split; simpl; [by rewrite views_alter_same|by apply leases_let_go]. }
    split; [done|]. rewrite Hslots. unfold slots_in in *. simpl.
    pose proof (slots_out_alter (set_held false) l _ o Ho) as Hco. unfold has_slot in Hco.
    simpl in Hco. rewrite Hheld in Hco. rewrite H0 in Hco. simpl in Hco. lia.
  - injection Hstep as <-. split; [split|]; simpl; [by apply lines_promote|done|].
    unfold slots_in in *. simpl. by destruct (promote_lines t _ _ Hlines) as (_ & _ & _ & -> & _).
Qed.

Lemma run_app es1 es2 s : run (es1 ++ es2) s = (s' ← run es1 s; run es2 s').
Proof.
  revert s. induction es1 as [|e es1 IH]; intros s; simpl; [done|].
  destruct (step e s); simpl; [apply IH|done].
Qed.

Lemma reachable_step n e s s' : reachable n s → step e s = Some s' → reachable n s'.
Proof. intros [es Hes] Hstep. exists (es ++ [e]). rewrite run_app, Hes. simpl. by rewrite Hstep. Qed.

Lemma reachable_sound n s : reachable n s → sound n s.
Proof.
  intros [es Hes]. assert (sound n (start_of n)) as H0.
  { split; [split|].
    - constructor; simpl; try done; try apply NoDup_nil_2.
      + intros i. split; [by intros ?%elem_of_nil|by intros (? & ? & _)].
      + intros t i. unfold ticket_of. simpl. rewrite lookup_empty. simpl.
        split; [done|by intros (? & ? & _)].
    - constructor; simpl; done.
    - unfold slots_in, slots_out. simpl. lia. }
  revert H0 Hes. generalize (start_of n). induction es as [|e es IH]; intros s0 H0 Hes; simpl in Hes.
  - by injection Hes as <-.
  - destruct (step e s0) as [s1|] eqn:E; simpl in Hes; [|done]. eapply IH; [|done].
    by eapply step_sound.
Qed.
