(* ===== verification/BuildQueueSpec.v ===== *)
(** * What the build queue promises

    In every state the queue can reach, however its threads interleave. *)

From S2P Require Export BuildQueueFacts.

(** The operations that will hold on to a slot until someone acts for them. *)
Definition is_queued (s : system) (i : nat) : Prop :=
  ∃ o, operations s !! i = Some o ∧ at_phase o = Queued.

Lemma sound_in_line n s i : sound n s → i ∈ line (queue s) ↔ is_queued s i.
Proof.
  intros [[Hlines _] _]. rewrite (lines_in _ _ Hlines). unfold is_queued.
  setoid_rewrite list_lookup_fmap. split.
  - intros (v & Hv & Hq). destruct (operations s !! i) as [o|]; simplify_eq/=.
    exists o. split; [done|]. by apply bool_decide_eq_true in Hq.
  - intros (o & -> & Hq). exists (view_of o). simpl. split; [done|]. by apply bool_decide_eq_true.
Qed.

(** The slots always add up to the queue's concurrency - free, handed to an
    operation, or held by a lease - so no more than that many pieces of work run;
    and no slot is ever free while anything waits. *)
Theorem slots_add_up (n : nat) (s : system) :
  reachable n s →
  m_free (queue s) + slots_out (operations s) = n ∧
  (0 < m_free (queue s) → ∀ i, ¬ is_queued s i).
Proof.
  intros Hs%reachable_sound. pose proof Hs as [[Hlines _] Hn]. split; [done|].
  intros Hfree i Hi%(sound_in_line n s i Hs). rewrite (lines_work _ _ Hlines Hfree) in Hi.
  by apply elem_of_nil in Hi.
Qed.

(** The lines hold exactly the operations that are queued, each once: those
    taking a lease's slot back in the first, new work whose ticket has been
    promoted in the second, other new work in the third; and a ticket points to
    the operation waiting under it, and to nothing once that has left. *)
Theorem lines_are_the_queued (n : nat) (s : system) :
  reachable n s →
  NoDup (line (queue s)) ∧
  (∀ i, i ∈ line (queue s) ↔ is_queued s i) ∧
  (∀ i o, operations s !! i = Some o → is_queued s i →
     (i ∈ reacquiring (queue s) ↔ m_lease o ≠ None) ∧
     (m_lease o = None →
        (i ∈ promoted (queue s) ↔
           ∃ t, ticket o = Some t ∧ m_promoted (ticket_of (queue s) t) = true))) ∧
  (∀ t i, m_waiter (ticket_of (queue s) t) = Some i ↔
     ∃ o, operations s !! i = Some o ∧ ticket o = Some t ∧ at_phase o = Queued).
Proof.
  intros Hs%reachable_sound. pose proof Hs as [[Hlines _] _]. split_and!.
  - by apply lines_nodup with (view_of <$> operations s).
  - intros i. by apply sound_in_line with n.
  - intros i o Ho Hi%(sound_in_line n s i Hs). pose proof (view_lookup _ _ _ Ho) as Hv. split.
    + rewrite (lines_reacquiring _ _ Hlines i _ Hv Hi). apply bool_decide_eq_true.
    + intros Hl. apply (lines_promoted _ _ Hlines i _ Hv Hi).
      apply bool_decide_eq_false. naive_solver.
  - intros t i. rewrite (lines_ticket _ _ Hlines). setoid_rewrite list_lookup_fmap. split.
    + intros (v & Hv & Ht & Hq). destruct (operations s !! i) as [o|]; simplify_eq/=.
      exists o. by apply bool_decide_eq_true in Hq.
    + intros (o & -> & Ht & Hq). exists (view_of o). simpl. split_and!; [done..|].
      by apply bool_decide_eq_true.
Qed.

Lemma release_slot_serves s :
  match line (queue s) with
  | w :: l => line (queue (release_slot s)) = l ∧
              m_free (queue (release_slot s)) = m_free (queue s) ∧
              operations (release_slot s) = alter (set_phase (Resuming true)) w (operations s)
  | [] => line (queue (release_slot s)) = [] ∧
          m_free (queue (release_slot s)) = S (m_free (queue s)) ∧
          operations (release_slot s) = operations s
  end.
Proof.
  unfold release_slot. pose proof (release_line (ticket_at s) (queue s)) as H.
  destruct (release (ticket_at s) (queue s)) as [[w|] q']; simpl.
  - by destruct H as [-> ?].
  - destruct H as (-> & ? & ?). done.
Qed.

(** Giving a slot back passes it to the head of the one line - leases taking
    theirs back, then promoted work, then the rest, each oldest first - and only
    frees it when nothing waits; so the operation with [k] others ahead of it has
    its slot once [k + 1] slots have been given back, whoever gives them. *)
Theorem slots_are_passed_on_in_order (s : system) (k i : nat) :
  NoDup (line (queue s)) → line (queue s) !! k = Some i → is_queued s i →
  line (queue (Nat.iter (S k) release_slot s)) = drop (S k) (line (queue s)) ∧
  ∃ o, operations (Nat.iter (S k) release_slot s) !! i = Some o ∧ at_phase o = Resuming true.
Proof.
  intros Hnd Hk (o & Ho & Hq).
  assert (∀ j s, line (queue (Nat.iter j release_slot s)) = drop j (line (queue s))) as Hdrop.
  { intros j s'. induction j as [|j IH]; simpl; [done|].
    pose proof (release_slot_serves (Nat.iter j release_slot s')) as H.
    rewrite IH in H. destruct (drop j (line (queue s'))) as [|w l] eqn:E.
    - destruct H as [-> _]. apply (f_equal length) in E. rewrite length_drop in E. simpl in E.
      symmetry. apply drop_ge. lia.
    - destruct H as [-> _]. rewrite (drop_S _ w j) in E; [by injection E|].
      rewrite <- (Nat.add_0_r j), <- lookup_drop, E. done. }
  assert (∀ j, j ≤ k → operations (Nat.iter j release_slot s) !! i = Some o) as Hsame.
  { intros j. induction j as [|j IH]; intros Hj; [done|]. simpl.
    pose proof (release_slot_serves (Nat.iter j release_slot s)) as H. rewrite Hdrop in H.
    destruct (drop j (line (queue s))) as [|w l] eqn:E.
    - destruct H as (_ & _ & ->). apply IH. lia.
    - destruct H as (_ & _ & ->). rewrite list_lookup_alter_ne; [apply IH; lia|].
      intros ->. assert (line (queue s) !! j = Some i) as Hj'
        by (rewrite <- (Nat.add_0_r j), <- lookup_drop, E; done).
      pose proof (NoDup_lookup _ _ _ _ Hnd Hk Hj'). lia. }
  split; [apply Hdrop|]. simpl.
  pose proof (release_slot_serves (Nat.iter k release_slot s)) as H. rewrite Hdrop in H.
  rewrite (drop_S _ _ _ Hk) in H. destruct H as (_ & _ & ->).
  exists (set_phase (Resuming true) o). split; [|done].
  rewrite list_lookup_alter_eq, Hsame by done. done.
Qed.

(** Promoting a ticket moves the work waiting under it to the end of the
    promoted line, in front of all other new work and behind everything promoted
    before, and changes nobody else's order; promoting it again does nothing,
    and if nothing waits under it yet, whatever comes to wait under it then
    joins the promoted line. *)
Theorem promotion (n : nat) (s : system) (t : nat) :
  reachable n s →
  let q := queue s in
  let q' := promote t q in
  reacquiring q' = reacquiring q ∧
  match m_waiter (ticket_of q t) with
  | Some w =>
      if m_promoted (ticket_of q t) then promoted q' = promoted q ∧ waiting q' = waiting q
      else promoted q' = promoted q ++ [w] ∧ w ∈ waiting q ∧
           waiting q' = filter (λ x, x ≠ w) (waiting q)
  | None =>
      promoted q' = promoted q ∧ waiting q' = waiting q ∧
      ∀ i, promoted (enqueue i (Some t) false q') = promoted q ++ [i]
  end ∧
  promote t q' = q'.
Proof.
  intros [[Hlines _] _]%reachable_sound. simpl.
  pose proof (promote_lines t _ _ Hlines) as (Hr & _ & _ & _ & Hm & Ht).
  assert (m_promoted (ticket_of (promote t (queue s)) t) = true) as Hp.
  { rewrite Ht. simpl. rewrite bool_decide_true by done. apply orb_true_r. }
  split; [done|]. split.
  - unfold promote in *. destruct (m_promoted (ticket_of (queue s) t)) eqn:E.
    + destruct (m_waiter (ticket_of (queue s) t)); [done|]. simpl. split_and!; [done..|].
      intros i. unfold enqueue. by rewrite Hp.
    + destruct (m_waiter (ticket_of (queue s) t)) as [w|]; simpl in *.
      * assert (w ∈ waiting (queue s)) as Hw by (apply Hm; left).
        rewrite decide_True by done. done.
      * split_and!; [done..|]. intros i. unfold enqueue. by rewrite Hp.
  - unfold promote at 1. rewrite Hp. unfold set_ticket, ticket_of in *.
    set (q' := promote t (queue s)) in *. destruct (tickets q' !! t) as [k|] eqn:E; simpl in *; [|done].
    destruct k as [pr wt]; simpl in *. subst. rewrite insert_id by done. by destruct q'.
Qed.

(** ** Completing once *)

(** What has finished in [s] stays as it is in [s']. *)
Definition settled (s s' : system) : Prop :=
  ∀ i o, operations s !! i = Some o → finished o = true →
    ∃ o', operations s' !! i = Some o' ∧ at_phase o' = at_phase o.

Lemma settled_refl s q : settled s (with_queue q s).
Proof. intros i o Ho _. by exists o. Qed.

Lemma settled_trans s1 s2 s3 : settled s1 s2 → settled s2 s3 → settled s1 s3.
Proof.
  intros H12 H23 i o Ho Hfin. destruct (H12 i o Ho Hfin) as (o2 & Ho2 & E2).
  destruct (H23 i o2 Ho2) as (o3 & Ho3 & E3); [unfold finished in *; by rewrite E2|].
  exists o3. split; [done|]. congruence.
Qed.

Lemma settled_update j f s :
  (∀ o, operations s !! j = Some o → finished o = true → at_phase (f o) = at_phase o) →
  settled s (update j f s).
Proof.
  intros Hf i o Ho Hfin. simpl. rewrite lookup_alter_list, Ho.
  case_decide; simpl; [subst; eauto|eauto].
Qed.

Lemma settled_phase j p s o :
  operations s !! j = Some o → finished o = false → settled s (update j (set_phase p) s).
Proof. intros Ho Hfin. apply settled_update. intros o' Ho' Hfin'. congruence. Qed.

Lemma settled_connect l t s : settled s (connect l t s).
Proof. intros i o Ho _. exists o. split; [by apply lookup_app_l_Some|done]. Qed.

Lemma queued_unfinished o : at_phase o = Queued → finished o = false.
Proof. intros E. unfold finished. by rewrite E. Qed.

Lemma settled_release_slot s : parts_ok s → settled s (release_slot s).
Proof.
  intros Hparts i o Ho Hfin. exists o. split; [|done].
  apply (release_slot_parts s Hparts); [done|]. intros E%queued_unfinished. congruence.
Qed.

Lemma settled_given i o s :
  operations s !! i = Some o → finished o = false → settled s (complete_given i o s).
Proof.
  intros Ho Hfin. unfold complete_given. destruct (m_lease o).
  - eapply settled_trans; [by eapply settled_phase|]. by apply settled_update.
  - apply settled_update. intros o' Ho' Hfin'. congruence.
Qed.

Lemma settled_start i o s :
  operations s !! i = Some o → finished o = false → settled s (start_locked i o s).
Proof.
  intros Ho Hfin. unfold start_locked. destruct (m_stopped_early o); [by eapply settled_phase|].
  destruct (try_take _); (eapply settled_trans; [apply settled_refl|]); by eapply settled_phase.
Qed.

Lemma settled_on_stop n i o s :
  sound n s → operations s !! i = Some o → settled s (on_stop i o s).
Proof.
  intros Hs Ho. pose proof Hs as [[Hlines _] _]. unfold on_stop.
  destruct (dequeue _ _ _ _) as [q|] eqn:Hdq; [|by apply settled_update].
  apply (lines_dequeue i (view_of o) _ _ _ Hlines (view_lookup _ _ _ Ho)) in Hdq as (Hin & _).
  apply (sound_in_line n s i Hs) in Hin as (oq & Hoq & Hq). simplify_eq.
  eapply settled_trans; [apply settled_refl|]. eapply settled_phase; [done|].
  by apply queued_unfinished.
Qed.

Lemma step_settled n e s s' : sound n s → step e s = Some s' → settled s s'.
Proof.
  intros Hs Hstep. pose proof Hs as [[Hlines Hleases] _].
  assert (∀ o p, at_phase o = p → p ≠ Given → p ≠ Stopped → finished o = false) as Hun.
  { intros o p <- ? ?. unfold finished. by rewrite !bool_decide_false. }
  destruct e as [t|l|i|i|i|i|i|i|l|t]; simpl in Hstep;
    try (destruct (operations s !! i) as [o|] eqn:Ho; [|done]);
    try (destruct (at_phase o) as [| | |[]|[]| |] eqn:Hp; try done);
    try (case_decide as Hp'; [|done]); simplify_eq;
    try (apply settled_given || eapply settled_start || eapply settled_phase; [done|by eapply Hun; [done|..]]);
    try by apply (settled_on_stop n).
  - destruct (existsb _ _); simplify_eq. apply settled_connect.
  - destruct (operations s !! l); [|done]. destruct (_ && _); simplify_eq. apply settled_connect.
  - eapply settled_trans; [by apply settled_release_slot|]. eapply settled_phase; [|by eapply Hun; [done|..]].
    apply release_slot_parts; [done|done|congruence].
  - destruct (operations s !! l) as [o|] eqn:Ho; [|done]. destruct (_ && _); simplify_eq.
    destruct (m_held o); [|apply (settled_refl s (queue s))].
    eapply settled_trans; [by apply (settled_update l (set_held false))|]. apply settled_release_slot.
    split; simpl; [by rewrite views_alter_same|by apply leases_let_go].
  - apply settled_refl.
Qed.

(** C33. Every operation completes once: when it has been given its slot, or has
    been stopped, nothing that happens later changes that, and one that was
    stopped holds no slot. One still in line can be stopped: it leaves the line
    for good, and is completed on the handoff with no slot. *)
Theorem completes_once (n : nat) (s : system) (i : nat) (o : SlotOperation) :
  reachable n s → operations s !! i = Some o →
  (finished o = true → ∀ es s', run es s = Some s' →
     ∃ o', operations s' !! i = Some o' ∧ at_phase o' = at_phase o ∧
           (at_phase o' = Stopped → has_slot o' = false)) ∧
  (at_phase o = Queued →
     ∃ s1 s2, step (Stop i) s = Some s1 ∧ i ∉ line (queue s1) ∧ step (Resume i) s1 = Some s2 ∧
       at_phase <$> operations s2 !! i = Some Stopped).
Proof.
  intros Hreach Ho. split.
  - intros Hfin es. revert s o Hreach Ho Hfin. induction es as [|e es IH]; intros s o Hreach Ho Hfin s' Hrun; simpl in Hrun.
    + injection Hrun as <-. exists o. split_and!; [done..|]. intros E. unfold has_slot. rewrite E.
      apply reachable_sound in Hreach as [[_ Hleases] _].
      destruct (m_held o) eqn:Hh; [|done]. destruct (leases_held _ Hleases i o Ho Hh). congruence.
    + destruct (step e s) as [s1|] eqn:Hstep; simpl in Hrun; [|done].
      apply reachable_sound in Hreach as Hs.
      destruct (step_settled n e s s1 Hs Hstep i o Ho Hfin) as (o1 & Ho1 & E1). rewrite <- E1.
      apply (IH s1 o1); [by eapply reachable_step|done|unfold finished in *; by rewrite E1|done].
  - intros Hq. apply reachable_sound in Hreach as Hs. pose proof Hs as [[Hlines _] _].
    simpl. rewrite Ho, Hq.
    assert (i ∈ line (queue s)) as Hin by (apply (sound_in_line n); [done|by exists o]).
    destruct (dequeue i (ticket o) (reacquires o) (queue s)) as [q|] eqn:Hdq.
    2:{ by apply (dequeue_None i (view_of o) _ _ Hlines (view_lookup _ _ _ Ho)) in Hdq. }
    assert (on_stop i o s = update i (set_phase (Resuming false)) (with_queue q s)) as Hstop
      by (unfold on_stop; by rewrite Hdq).
    pose proof (on_stop_sound n i s o Hs Ho ltac:(by rewrite Hq) (queued_unfinished o Hq)) as Hs1.
    rewrite Hstop in Hs1. eexists _, _. rewrite Hstop. split_and!; [done| | |].
    + intros (o1 & Ho1 & Hq1)%(sound_in_line n _ _ Hs1). simpl in Ho1.
      rewrite list_lookup_alter_eq, Ho in Ho1. simpl in Ho1. by injection Ho1 as <-.
    + simpl. rewrite list_lookup_alter_eq, Ho. simpl. done.
    + simpl. rewrite !list_lookup_alter_eq, Ho. done.
Qed.

(** ** The theorems at work *)

(** Two slots' worth of work on a queue of one: the second waits, promoted. *)
Definition ex_events : list event :=
  [Schedule None; Register 0; Start 0; Finish 0; Schedule (Some 7); Register 1; Start 1;
   Schedule (Some 8); Register 2; Start 2].
Definition ex_system : system := default (start_of 0) (run ex_events (start_of 1)).

Lemma ex_reachable : reachable 1 ex_system.
Proof. exists ex_events. by vm_compute. Qed.

Lemma slots_add_up_witness :
  m_free (queue ex_system) + slots_out (operations ex_system) = 1 ∧
  (0 < m_free (queue ex_system) → ∀ i, ¬ is_queued ex_system i).
Proof. apply (slots_add_up 1 ex_system). exact ex_reachable. Defined.

Lemma lines_are_the_queued_witness :
  NoDup (line (queue ex_system)) ∧
  (∀ i, i ∈ line (queue ex_system) ↔ is_queued ex_system i) ∧
  (∀ i o, operations ex_system !! i = Some o → is_queued ex_system i →
     (i ∈ reacquiring (queue ex_system) ↔ m_lease o ≠ None) ∧
     (m_lease o = None →
        (i ∈ promoted (queue ex_system) ↔
           ∃ t, ticket o = Some t ∧ m_promoted (ticket_of (queue ex_system) t) = true))) ∧
  (∀ t i, m_waiter (ticket_of (queue ex_system) t) = Some i ↔
     ∃ o, operations ex_system !! i = Some o ∧ ticket o = Some t ∧ at_phase o = Queued).
Proof. apply (lines_are_the_queued 1 ex_system). exact ex_reachable. Defined.

Lemma slots_are_passed_on_in_order_witness :
  line (queue (Nat.iter 2 release_slot ex_system)) = drop 2 (line (queue ex_system)) ∧
  ∃ o, operations (Nat.iter 2 release_slot ex_system) !! 2 = Some o ∧ at_phase o = Resuming true.
Proof.
  apply (slots_are_passed_on_in_order ex_system 1 2).
  - apply (bool_decide_unpack _). by vm_compute.
  - by vm_compute.
  - eexists. split; by vm_compute.
Defined.

Lemma promotion_witness :
  let q := queue ex_system in
  let q' := promote 8 q in
  reacquiring q' = reacquiring q ∧
  (promoted q' = promoted q ++ [2] ∧ 2 ∈ waiting q ∧ waiting q' = filter (λ x, x ≠ 2) (waiting q)) ∧
  promote 8 q' = q'.
Proof. exact (promotion 1 ex_system 8 ex_reachable). Defined.

Lemma completes_once_witness :
  (finished (set_phase Queued (new_operation None (Some 7))) = true →
   ∀ es s', run es ex_system = Some s' →
     ∃ o', operations s' !! 1 = Some o' ∧ at_phase o' = Queued ∧
           (at_phase o' = Stopped → has_slot o' = false)) ∧
  (Queued = Queued →
     ∃ s1 s2, step (Stop 1) ex_system = Some s1 ∧ 1 ∉ line (queue s1) ∧
       step (Resume 1) s1 = Some s2 ∧ at_phase <$> operations s2 !! 1 = Some Stopped).
Proof.
  apply (completes_once 1 ex_system 1 (set_phase Queued (new_operation None (Some 7)))).
  - exact ex_reachable.
  - by vm_compute.
Defined.
