(* ===== verification/BuildCoordinator.v ===== *)
(** * The build coordinator (src/buildcoordinator.hpp, src/buildcoordinator.cpp)

    Attempts, requests waiting on them, and the permits given back meanwhile.
    Everything the coordinator's lock guards is one [world]; every function that
    runs under the lock is a function on worlds. What a transition leaves to be
    done once the lock is released ([Effects]) is added to the world's lists of
    pending effects, which later events carry out one at a time, so that a list
    of [event]s is any interleaving of threads, permit providers and callers.
    Attempts and waits are known by their numbers, which stand for addresses. *)

From S2P Require Export Prelude Path.

Inductive Phase := pending | queued | running | ended.
Inductive Permit := none | held | released | reacquiring.
#[global] Instance Phase_eq_dec : EqDecision Phase.
Proof. solve_decision. Defined.
#[global] Instance Permit_eq_dec : EqDecision Permit.
Proof. solve_decision. Defined.

(** An [Attempt]. [lease] says whether it has one, and whether that holds its
    permit, which is the provider's to know. *)
Record Attempt := {
  output : path;
  phase : Phase;
  permit : Permit;
  stopping : bool;
  doomed : bool;
  hurried : bool;
  result : option error_code;
  predecessor : option nat;
  lease : option bool;
  reacquire_outstanding : bool;
  drain : bool;
  waits_by_me : list nat;
  waits_on_me : list nat;
  edges_out : gmap nat nat;
}.

Inductive State := blocked | ready | done.
#[global] Instance State_eq_dec : EqDecision State.
Proof. solve_decision. Defined.

(** A [Wait]: a request suspended until its target completes. *)
Record Wait := {
  target : nat;
  requester : option nat;
  wait_state : State;
  wait_result : error_code;
}.

Record world := {
  attempts : gmap nat Attempt;
  waits : gmap nat Wait;
  m_running : gmap path nat;
  m_waits : list nat;
  (** Pending [Effects]. *)
  stop_reacquires : list nat;
  stop_attempts : list nat;
  reacquires : list nat;
  drains : list nat;
  answered : list nat;
  (** Requests the permit provider has and has not answered, and the tickets
      promoted in its line. *)
  issued : list nat;
  promotions : list nat;
}.

Definition initial : world := {|
  attempts := ∅; waits := ∅; m_running := ∅; m_waits := [];
  stop_reacquires := []; stop_attempts := []; reacquires := []; drains := []; answered := [];
  issued := []; promotions := [] |}.

(** ** Fields *)

Definition set_attempts m w := {| attempts := m; waits := waits w; m_running := m_running w;
  m_waits := m_waits w; stop_reacquires := stop_reacquires w; stop_attempts := stop_attempts w;
  reacquires := reacquires w; drains := drains w; answered := answered w; issued := issued w;
  promotions := promotions w |}.
Definition set_waits m w := {| attempts := attempts w; waits := m; m_running := m_running w;
  m_waits := m_waits w; stop_reacquires := stop_reacquires w; stop_attempts := stop_attempts w;
  reacquires := reacquires w; drains := drains w; answered := answered w; issued := issued w;
  promotions := promotions w |}.
Definition set_running m w := {| attempts := attempts w; waits := waits w; m_running := m;
  m_waits := m_waits w; stop_reacquires := stop_reacquires w; stop_attempts := stop_attempts w;
  reacquires := reacquires w; drains := drains w; answered := answered w; issued := issued w;
  promotions := promotions w |}.
Definition set_m_waits l w := {| attempts := attempts w; waits := waits w; m_running := m_running w;
  m_waits := l; stop_reacquires := stop_reacquires w; stop_attempts := stop_attempts w;
  reacquires := reacquires w; drains := drains w; answered := answered w; issued := issued w;
  promotions := promotions w |}.
Definition set_effects sr sa re dr an asked w := {| attempts := attempts w; waits := waits w;
  m_running := m_running w; m_waits := m_waits w; stop_reacquires := sr; stop_attempts := sa;
  reacquires := re; drains := dr; answered := an; issued := asked; promotions := promotions w |}.
Definition push_stop_reacquire a w := set_effects (stop_reacquires w ++ [a]) (stop_attempts w)
  (reacquires w) (drains w) (answered w) (issued w) w.
Definition push_stop_attempt a w := set_effects (stop_reacquires w) (stop_attempts w ++ [a])
  (reacquires w) (drains w) (answered w) (issued w) w.
Definition push_reacquire a w := set_effects (stop_reacquires w) (stop_attempts w)
  (reacquires w ++ [a]) (drains w) (answered w) (issued w) w.
Definition push_drain a w := set_effects (stop_reacquires w) (stop_attempts w)
  (reacquires w) (drains w ++ [a]) (answered w) (issued w) w.
Definition push_answered i w := set_effects (stop_reacquires w) (stop_attempts w)
  (reacquires w) (drains w) (answered w ++ [i]) (issued w) w.
(** [m_permits.promote(node->ticket)]. *)
Definition promote a w := {| attempts := attempts w; waits := waits w; m_running := m_running w;
  m_waits := m_waits w; stop_reacquires := stop_reacquires w; stop_attempts := stop_attempts w;
  reacquires := reacquires w; drains := drains w; answered := answered w; issued := issued w;
  promotions := promotions w ++ [a] |}.

(** The fields of an attempt that no wait's bookkeeping touches. *)
Record flags := {
  f_phase : Phase; f_permit : Permit; f_stopping : bool; f_doomed : bool; f_hurried : bool;
  f_result : option error_code; f_predecessor : option nat; f_lease : option bool;
  f_outstanding : bool; f_drain : bool }.
Definition flags_of (a : Attempt) : flags := {|
  f_phase := phase a; f_permit := permit a; f_stopping := stopping a; f_doomed := doomed a;
  f_hurried := hurried a; f_result := result a; f_predecessor := predecessor a;
  f_lease := lease a; f_outstanding := reacquire_outstanding a; f_drain := drain a |}.
Definition with_flags (f : flags) (a : Attempt) : Attempt := {|
  output := output a; phase := f_phase f; permit := f_permit f; stopping := f_stopping f;
  doomed := f_doomed f; hurried := f_hurried f; result := f_result f;
  predecessor := f_predecessor f; lease := f_lease f; reacquire_outstanding := f_outstanding f;
  drain := f_drain f; waits_by_me := waits_by_me a; waits_on_me := waits_on_me a;
  edges_out := edges_out a |}.
Definition with_links (by_me on_me : list nat) (edges : gmap nat nat) (a : Attempt) : Attempt := {|
  output := output a; phase := phase a; permit := permit a; stopping := stopping a;
  doomed := doomed a; hurried := hurried a; result := result a; predecessor := predecessor a;
  lease := lease a; reacquire_outstanding := reacquire_outstanding a; drain := drain a;
  waits_by_me := by_me; waits_on_me := on_me; edges_out := edges |}.

Definition set_phase p (f : flags) := {| f_phase := p; f_permit := f_permit f;
  f_stopping := f_stopping f; f_doomed := f_doomed f; f_hurried := f_hurried f;
  f_result := f_result f; f_predecessor := f_predecessor f; f_lease := f_lease f;
  f_outstanding := f_outstanding f; f_drain := f_drain f |}.
Definition set_permit p (f : flags) := {| f_phase := f_phase f; f_permit := p;
  f_stopping := f_stopping f; f_doomed := f_doomed f; f_hurried := f_hurried f;
  f_result := f_result f; f_predecessor := f_predecessor f; f_lease := f_lease f;
  f_outstanding := f_outstanding f; f_drain := f_drain f |}.
Definition set_stopping (f : flags) := {| f_phase := f_phase f; f_permit := f_permit f;
  f_stopping := true; f_doomed := f_doomed f; f_hurried := f_hurried f;
  f_result := f_result f; f_predecessor := f_predecessor f; f_lease := f_lease f;
  f_outstanding := f_outstanding f; f_drain := f_drain f |}.
Definition set_doomed (f : flags) := {| f_phase := f_phase f; f_permit := f_permit f;
  f_stopping := f_stopping f; f_doomed := true; f_hurried := f_hurried f;
  f_result := f_result f; f_predecessor := f_predecessor f; f_lease := f_lease f;
  f_outstanding := f_outstanding f; f_drain := f_drain f |}.
Definition set_hurried (f : flags) := {| f_phase := f_phase f; f_permit := f_permit f;
  f_stopping := f_stopping f; f_doomed := f_doomed f; f_hurried := true;
  f_result := f_result f; f_predecessor := f_predecessor f; f_lease := f_lease f;
  f_outstanding := f_outstanding f; f_drain := f_drain f |}.
Definition set_result r (f : flags) := {| f_phase := f_phase f; f_permit := f_permit f;
  f_stopping := f_stopping f; f_doomed := f_doomed f; f_hurried := f_hurried f;
  f_result := Some r; f_predecessor := f_predecessor f; f_lease := f_lease f;
  f_outstanding := f_outstanding f; f_drain := f_drain f |}.
Definition set_predecessor p (f : flags) := {| f_phase := f_phase f; f_permit := f_permit f;
  f_stopping := f_stopping f; f_doomed := f_doomed f; f_hurried := f_hurried f;
  f_result := f_result f; f_predecessor := p; f_lease := f_lease f;
  f_outstanding := f_outstanding f; f_drain := f_drain f |}.
Definition set_lease l (f : flags) := {| f_phase := f_phase f; f_permit := f_permit f;
  f_stopping := f_stopping f; f_doomed := f_doomed f; f_hurried := f_hurried f;
  f_result := f_result f; f_predecessor := f_predecessor f; f_lease := l;
  f_outstanding := f_outstanding f; f_drain := f_drain f |}.
Definition set_outstanding b (f : flags) := {| f_phase := f_phase f; f_permit := f_permit f;
  f_stopping := f_stopping f; f_doomed := f_doomed f; f_hurried := f_hurried f;
  f_result := f_result f; f_predecessor := f_predecessor f; f_lease := f_lease f;
  f_outstanding := b; f_drain := f_drain f |}.
Definition set_drain b (f : flags) := {| f_phase := f_phase f; f_permit := f_permit f;
  f_stopping := f_stopping f; f_doomed := f_doomed f; f_hurried := f_hurried f;
  f_result := f_result f; f_predecessor := f_predecessor f; f_lease := f_lease f;
  f_outstanding := f_outstanding f; f_drain := b |}.

Definition new_attempt (built : path) (before : option nat) : Attempt := {|
  output := built; phase := pending; permit := none; stopping := false; doomed := false;
  hurried := false; result := None; predecessor := before; lease := None;
  reacquire_outstanding := false; drain := false; waits_by_me := []; waits_on_me := [];
  edges_out := ∅ |}.
#[global] Instance Attempt_inhabited : Inhabited Attempt := populate (new_attempt inhabitant None).
#[global] Instance Wait_inhabited : Inhabited Wait :=
  populate {| target := 0; requester := None; wait_state := done; wait_result := no_error |}.

Definition attempt (w : world) (a : nat) : Attempt := attempts w !!! a.
Definition wait_of (w : world) (i : nat) : Wait := waits w !!! i.

Definition change (a : nat) (f : flags → flags) (w : world) : world :=
  set_attempts (alter (λ x, with_flags (f (flags_of x)) x) a (attempts w)) w.
Definition relink (a : nat) (f : Attempt → Attempt) (w : world) : world :=
  set_attempts (alter f a (attempts w)) w.

#[global] Arguments change : simpl never.
#[global] Arguments relink : simpl never.

(** ** Transitions *)

Definition canceled : error_code := make_error_code operation_canceled.
Definition dependency_cycle : error_code := make_error_code resource_deadlock_would_occur.

Fixpoint erase_one (x : nat) (l : list nat) : list nat :=
  match l with
  | [] => []
  | y :: l' => if decide (y = x) then l' else y :: erase_one x l'
  end.

Definition remove_edge (from to : nat) (w : world) : world :=
  relink from (λ x,
    match edges_out x !! to with
    | Some n => with_links (waits_by_me x) (waits_on_me x)
                  (if decide (n - 1 = 0) then delete to (edges_out x)
                   else <[to := n - 1]> (edges_out x)) x
    | None => x
    end) w.

Definition erase_by_me (i a : nat) (w : world) : world :=
  relink a (λ x, with_links (erase_one i (waits_by_me x)) (waits_on_me x) (edges_out x) x) w.
Definition erase_on_me (i a : nat) (w : world) : world :=
  relink a (λ x, with_links (waits_by_me x) (erase_one i (waits_on_me x)) (edges_out x) x) w.

Definition unlink (i : nat) (w : world) : world :=
  let wt := wait_of w i in
  let w := match requester wt with Some r => erase_by_me i r w | None => w end in
  let w := erase_on_me i (target wt) w in
  set_m_waits (erase_one i (m_waits w)) w.

Definition put_wait (i : nat) (st : State) (r : error_code) (w : world) : world :=
  set_waits (alter (λ wt, {| target := target wt; requester := requester wt;
                             wait_state := st; wait_result := r |}) i (waits w)) w.

Definition answer (i : nat) (r : error_code) (w : world) : world :=
  let wt := wait_of w i in
  let w := match wait_state wt, requester wt with
           | blocked, Some from => remove_edge from (target wt) w
           | _, _ => w
           end in
  push_answered i (put_wait i done r (unlink i w)).

Definition give_back (a : nat) (w : world) : world :=
  change a (λ f, set_lease (match f_lease f with Some _ => Some false | None => None end)
                   (set_permit released f)) w.

Definition is_blocked (w : world) (i : nat) : bool := bool_decide (wait_state (wait_of w i) = blocked).

Definition give_back_if_waiting (a : nat) (w : world) : world :=
  if bool_decide (permit (attempt w a) = held) && negb (stopping (attempt w a)) &&
     existsb (is_blocked w) (waits_by_me (attempt w a))
  then give_back a w else w.

Definition block (r : nat) (w : world) : world :=
  if bool_decide (permit (attempt w r) = held) then give_back r w else w.

Definition reacquire (r : nat) (w : world) : world :=
  push_reacquire r (change r (λ f, set_outstanding true (set_permit reacquiring f)) w).

Definition make_ready (i : nat) (r : error_code) (w : world) : world :=
  let wt := wait_of w i in
  let w := match requester wt with Some from => remove_edge from (target wt) w | None => w end in
  put_wait i ready r (erase_on_me i (target wt) w).

Definition ready_wait (i : nat) (r : error_code) (w : world) : world :=
  match requester (wait_of w i) with
  | None => answer i r w
  | Some from =>
      if stopping (attempt w from) then answer i canceled w
      else
        match permit (attempt w from) with
        | held => give_back_if_waiting from (answer i r w)
        | released => make_ready i r (reacquire from w)
        | reacquiring => make_ready i r w
        | none => answer i canceled w
        end
  end.

Definition cancel_waits_of (a : nat) (w : world) : world :=
  foldl (λ w i, answer i canceled w) w (waits_by_me (attempt w a)).

Definition stop_attempt (a : nat) (w : world) : world :=
  let w := cancel_waits_of a (change a set_stopping w) in
  let w := if reacquire_outstanding (attempt w a) then push_stop_reacquire a w else w in
  push_stop_attempt a w.

Definition on_outer_stop (a : nat) (w : world) : world :=
  if bool_decide (phase (attempt w a) = running) && negb (stopping (attempt w a))
  then stop_attempt a w else push_stop_attempt a w.

(** [if (attempt.drain != nullptr)], at the end of [on_reacquired]. *)
Definition let_drain (a : nat) (w : world) : world :=
  if drain (attempt w a) then push_drain a (change a (set_drain false) w) else w.

Definition on_reacquired (a : nat) (granted : bool) (w : world) : world :=
  let w := change a (λ f, set_permit (if granted then held else released) (set_outstanding false f)) w in
  let w := foldl (λ w i, if bool_decide (wait_state (wait_of w i) = ready)
                         then answer i (if granted && negb (stopping (attempt w a))
                                        then wait_result (wait_of w i) else canceled) w
                         else w) w (waits_by_me (attempt w a)) in
  let_drain a (give_back_if_waiting a w).

(** ** The wait graph *)

(** What [path_to] and [hurry] visit from [a]: its blocked waits' targets, and,
    not yet started, the attempt it waits behind. *)
Definition successors (w : world) (a : nat) : list nat :=
  elements (dom (edges_out (attempt w a))) ++
  (if bool_decide (phase (attempt w a) = pending) then option_list (predecessor (attempt w a)) else []).

(** [visit], for each successor in turn. *)
Definition visit (node : nat) (st : gmap nat (option nat) * list nat) (next : nat)
    : gmap nat (option nat) * list nat :=
  match st.1 !! next with
  | Some _ => st
  | None => (<[next := Some node]> st.1, next :: st.2)
  end.

(** The path from [node] back to where the search began. *)
Fixpoint chain (fuel : nat) (parent : gmap nat (option nat)) (node : option nat) : list nat :=
  match fuel, node with
  | S fuel', Some a => a :: chain fuel' parent (default None (parent !! a))
  | _, _ => []
  end.

(** Every attempt is put on the stack at most once. *)
Fixpoint path_loop (fuel : nat) (w : world) (to : nat) (parent : gmap nat (option nat))
    (stack : list nat) : list nat :=
  match fuel, stack with
  | S fuel', node :: rest =>
      if decide (node = to) then chain (size parent) parent (Some node)
      else
        let '(parent, stack) := foldl (visit node) (parent, rest) (successors w node) in
        path_loop fuel' w to parent stack
  | _, _ => []
  end.

Definition path_to (from to : nat) (w : world) : list nat :=
  path_loop (S (size (attempts w))) w to {[from := None]} [from].

Fixpoint hurry_loop (fuel : nat) (stack : list nat) (w : world) : world :=
  match fuel, stack with
  | S fuel', node :: rest =>
      if hurried (attempt w node) then hurry_loop fuel' rest w
      else
        let w := promote node (change node set_hurried w) in
        hurry_loop fuel' (rev (successors w node) ++ rest) w
  | _, _ => w
  end.

(** An attempt is followed at most once, and pushes its successors then. *)
Definition hurry_work (w : world) : nat :=
  S (map_sum (λ x, S (S (size (edges_out x)))) (attempts w)).

Definition hurry (a : nat) (w : world) : world := hurry_loop (hurry_work w) [a] w.

(** ** Operations *)

Definition create_attempt (a : nat) (built : path) (before : option nat) (w : world) : world :=
  let before := match before with
                | Some b => if bool_decide (phase (attempt w b) = ended) then None else Some b
                | None => None
                end in
  set_attempts (<[a := new_attempt built before]> (attempts w)) w.

Definition run_attempt (a : nat) (w : world) : world :=
  change a (λ f, set_predecessor None (set_phase queued f)) w.

Definition on_permit (a : nat) (w : world) : world :=
  let w := change a (λ f, set_lease (Some true) (set_permit held (set_phase running f))) w in
  set_running (emplace (output (attempt w a)) a (m_running w)) w.

Definition doom (a : nat) (w : world) : world :=
  if bool_decide (phase (attempt w a) = running) && negb (stopping (attempt w a))
  then stop_attempt a (change a set_doomed w) else w.

(** What links a new wait to its target and its requester. *)
Definition link (i t : nat) (r : option nat) (w : world) : world :=
  let w := set_waits (<[i := {| target := t; requester := r; wait_state := blocked;
                                wait_result := no_error |}]> (waits w)) w in
  let w := set_m_waits (m_waits w ++ [i]) w in
  let w := relink t (λ x, with_links (waits_by_me x) (waits_on_me x ++ [i]) (edges_out x) x) w in
  match r with
  | Some a => relink a (λ x, with_links (waits_by_me x ++ [i]) (waits_on_me x)
                (<[t := S (default 0 (edges_out x !! t))]> (edges_out x)) x) w
  | None => w
  end.

(** [wait], to its suspension: what it returns at once, or [None] if it waits as [i]. *)
Definition wait (i t : nat) (from : option path) (stop_requested : bool) (w : world)
    : option error_code * world :=
  if stop_requested then (Some canceled, w)
  else
    match result (attempt w t) with
    | Some r => (Some r, w)
    | None =>
        let r := from ≫= λ o, m_running w !! o in
        match r with
        | Some a =>
            if stopping (attempt w a) then (Some canceled, w)
            else
              let cycle := path_to t a w in
              if is_nil cycle then
                let w := link i t r w in
                let w := if hurried (attempt w a) then hurry t w else w in
                (None, block a w)
              else (Some dependency_cycle, foldl (λ w a, doom a w) w cycle)
        | None => (None, hurry t (link i t r w))
        end
    end.

Definition cancel_wait (i : nat) (w : world) : world :=
  if bool_decide (wait_state (wait_of w i) = done) then w
  else
    let from := requester (wait_of w i) in
    let w := answer i canceled w in
    match from with
    | Some a =>
        if negb (stopping (attempt w a)) && is_nil (waits_by_me (attempt w a)) &&
           bool_decide (permit (attempt w a) = released)
        then reacquire a w else w
    | None => w
    end.

Definition complete (a : nat) (r : error_code) (w : world) : world :=
  let w := change a (λ f, set_predecessor None (set_result r f)) w in
  foldl (λ w i, ready_wait i r w) w (waits_on_me (attempt w a)).

Definition finish (a : nat) (w : world) : world :=
  let w := change a (λ f, set_stopping (set_phase ended f)) w in
  let w := set_running (delete (output (attempt w a)) (m_running w)) w in
  let w := cancel_waits_of a w in
  if reacquire_outstanding (attempt w a) then push_stop_reacquire a (change a (set_drain true) w)
  else push_drain a w.

(** What [run] hands back as the result of [a], whose work gave [r]. *)
Definition reported {A} (a : nat) (r : expected error_code A) (w : world) : expected error_code A :=
  if doomed (attempt w a) then Unexpected dependency_cycle else r.

Record Stats := { stat_waits : nat; stat_edges : nat; stat_held : nat; stat_reacquiring : nat }.

Definition count_edges (seen : gset nat) (n : nat) (a : nat) (w : world) : gset nat * nat :=
  if decide (a ∈ seen) then (seen, n) else ({[a]} ∪ seen, n + size (edges_out (attempt w a))).

Definition stats (w : world) : Stats :=
  let of_wait acc i :=
    let wt := wait_of w i in
    let acc := match requester wt with Some a => count_edges acc.1 acc.2 a w | None => acc end in
    count_edges acc.1 acc.2 (target wt) w in
  let acc := foldl of_wait (∅, 0) (m_waits w) in
  let runs := (map_to_list (m_running w)).*2 in
  let acc := foldl (λ acc a, count_edges acc.1 acc.2 a w) acc runs in
  {| stat_waits := length (m_waits w); stat_edges := acc.2;
     stat_held := length (filter (λ a, permit (attempt w a) = held) runs);
     stat_reacquiring := length (filter (λ a, permit (attempt w a) = reacquiring) runs) |}.

Definition edge_count (w : world) (from to : nat) : nat :=
  default 0 (edges_out (attempt w from) !! to).

(** ** Interleavings *)

(** What can happen: a call of one of the operations, a permit given, an answer
    of the permit provider, or one pending effect carried out ([Effects::run]). *)
Inductive event :=
  | Create (a : nat) (built : path) (before : option nat)
  | Run (a : nat)
  | OnPermit (a : nat)
  | WaitFor (i t : nat) (from : option path) (stop_requested : bool)
  | CancelWait (i : nat)
  | Complete (a : nat) (r : error_code)
  | Finish (a : nat)
  | OuterStop (a : nat)
  | TakeBack (a : nat) (throws : bool)  (** [lease->reacquire] is called *)
  | OnReacquired (a : nat) (granted : bool)
  | StopReacquire (a : nat)
  | StopAttempt (a : nat)
  | DrainDone (a : nat)
  | Wake (i : nat).

Definition set_reacquires re asked w := set_effects (stop_reacquires w) (stop_attempts w) re
  (drains w) (answered w) asked w.

(** [None] if the event cannot happen, or breaks what the operation asks of its
    caller: an attempt runs once, and no two at one output run at a time. *)
Definition step (e : event) (w : world) : option world :=
  match e with
  | Create a built before =>
      if bool_decide (attempts w !! a = None) &&
         match before with Some b => bool_decide (is_Some (attempts w !! b)) | None => true end
      then Some (create_attempt a built before w) else None
  | Run a =>
      if bool_decide (is_Some (attempts w !! a)) && bool_decide (phase (attempt w a) = pending)
      then Some (run_attempt a w) else None
  | OnPermit a =>
      if bool_decide (is_Some (attempts w !! a)) && bool_decide (phase (attempt w a) = queued) &&
         bool_decide (m_running w !! output (attempt w a) = None)
      then Some (on_permit a w) else None
  | WaitFor i t from stop =>
      if bool_decide (waits w !! i = None) && bool_decide (is_Some (attempts w !! t))
      then Some (wait i t from stop w).2 else None
  | CancelWait i =>
      if bool_decide (is_Some (waits w !! i)) then Some (cancel_wait i w) else None
  | Complete a r =>
      if bool_decide (is_Some (attempts w !! a)) then Some (complete a r w) else None
  | Finish a =>
      if bool_decide (is_Some (attempts w !! a)) && bool_decide (phase (attempt w a) = running)
      then Some (finish a w) else None
  | OuterStop a =>
      if bool_decide (is_Some (attempts w !! a)) then Some (on_outer_stop a w) else None
  | TakeBack a throws =>
      if decide (a ∈ reacquires w) then
        let w := set_reacquires (erase_one a (reacquires w)) (issued w) w in
        Some (if throws || bool_decide (lease (attempt w a) = None) then on_reacquired a false w
              else set_reacquires (reacquires w) (issued w ++ [a]) w)
      else None
  | OnReacquired a granted =>
      if decide (a ∈ issued w) then
        let w := set_reacquires (reacquires w) (erase_one a (issued w)) w in
        let w := if granted then change a (set_lease (Some true)) w else w in
        Some (on_reacquired a granted w)
      else None
  | StopReacquire a =>
      if decide (a ∈ stop_reacquires w) then
        Some (set_effects (erase_one a (stop_reacquires w)) (stop_attempts w) (reacquires w)
                (drains w) (answered w) (issued w) w) else None
  | StopAttempt a =>
      if decide (a ∈ stop_attempts w) then
        Some (set_effects (stop_reacquires w) (erase_one a (stop_attempts w)) (reacquires w)
                (drains w) (answered w) (issued w) w) else None
  | DrainDone a =>
      if decide (a ∈ drains w) then
        Some (set_effects (stop_reacquires w) (stop_attempts w) (reacquires w)
                (erase_one a (drains w)) (answered w) (issued w) w) else None
  | Wake i =>
      if decide (i ∈ answered w) then
        Some (set_effects (stop_reacquires w) (stop_attempts w) (reacquires w)
                (drains w) (erase_one i (answered w)) (issued w) w) else None
  end.

Fixpoint run (es : list event) (w : world) : option world :=
  match es with [] => Some w | e :: es' => w' ← step e w; run es' w' end.

Definition reachable (w : world) : Prop := ∃ es, run es initial = Some w.

(** Two outputs, each built by a command that opens the other. *)
Definition pa : path := of_string (lit "a").
Definition pb : path := of_string (lit "b").
Definition ex_wait : list event :=
  [Create 1 pa None; Create 2 pb None; Run 1; OnPermit 1; WaitFor 10 2 (Some pa) false;
   Run 2; OnPermit 2].
Example coordinator_ex1 :
  (λ w, (permit (attempt w 1), edge_count w 1 2, stats w)) <$> run ex_wait initial =
  Some (released, 1, {| stat_waits := 1; stat_edges := 1; stat_held := 1; stat_reacquiring := 0 |}).
Proof. vm_compute. reflexivity. Qed.
Example coordinator_ex2 :
  (λ w, (doomed (attempt w 1), doomed (attempt w 2), m_waits w, wait_state (wait_of w 10),
         answered w, stop_attempts w)) <$>
  run (ex_wait ++ [WaitFor 11 1 (Some pb) false]) initial =
  Some (true, true, [], done, [10], [2; 1]).
Proof. vm_compute. reflexivity. Qed.
Example coordinator_ex3 :
  (λ w, (permit (attempt w 1), wait_state (wait_of w 10), wait_result (wait_of w 10), m_waits w)) <$>
  run (ex_wait ++ [Finish 2; Complete 2 no_error; TakeBack 1 false; OnReacquired 1 true]) initial =
  Some (held, done, no_error, []).
Proof. vm_compute. reflexivity. Qed.
