(* ===== verification/BuildCoordinatorFacts.v ===== *)
(** * The coordinator's bookkeeping

    The waits of a world say everything about who waits on whom: the lists and
    the edge counts the attempts keep are shown to mirror them ([mirrored]) in
    every operation, so that the other invariants can be stated on the waits and
    on the attempts' flags alone. *)

From S2P Require Export BuildCoordinator.

#[global] Arguments remove_edge : simpl never.
#[global] Arguments erase_by_me : simpl never.
#[global] Arguments erase_on_me : simpl never.
#[global] Arguments unlink : simpl never.
#[global] Arguments answer : simpl never.
#[global] Arguments make_ready : simpl never.
#[global] Arguments give_back : simpl never.

(** ** Reading back *)

Definition flags_at (w : world) (a : nat) : option flags := flags_of <$> attempts w !! a.
Definition output_at (w : world) (a : nat) : option path := output <$> attempts w !! a.

Lemma lookup_relink a f w b :
  attempts (relink a f w) !! b = if decide (a = b) then f <$> attempts w !! b else attempts w !! b.
Proof.
  unfold relink; simpl. case_decide; subst; [apply lookup_alter_eq|by apply lookup_alter_ne].
Qed.

Lemma lookup_change a f w b :
  attempts (change a f w) !! b =
    if decide (a = b) then (λ x, with_flags (f (flags_of x)) x) <$> attempts w !! b
    else attempts w !! b.
Proof.
  unfold change; simpl. case_decide; subst; [apply lookup_alter_eq|by apply lookup_alter_ne].
Qed.

Lemma attempt_lookup w a x : attempts w !! a = Some x → attempt w a = x.
Proof. intros H. unfold attempt. by rewrite lookup_total_alt, H. Qed.

Lemma wait_lookup w i wt : waits w !! i = Some wt → wait_of w i = wt.
Proof. intros H. unfold wait_of. by rewrite lookup_total_alt, H. Qed.

Lemma with_links_id x : with_links (waits_by_me x) (waits_on_me x) (edges_out x) x = x.
Proof. by destruct x. Qed.

Lemma flags_change a f w b :
  flags_at (change a f w) b = if decide (a = b) then f <$> flags_at w b else flags_at w b.
Proof.
  unfold flags_at. rewrite lookup_change. case_decide; [|done].
  destruct (attempts w !! b) as [x|]; simpl; [|done]. by destruct (f (flags_of x)).
Qed.

Lemma flags_relink a f w b :
  (∀ x, flags_of (f x) = flags_of x) → flags_at (relink a f w) b = flags_at w b.
Proof.
  intros Hf. unfold flags_at. rewrite lookup_relink. case_decide; [|done].
  destruct (attempts w !! b); simpl; [by rewrite Hf|done].
Qed.

Lemma output_relink a f w b :
  (∀ x, output (f x) = output x) → output_at (relink a f w) b = output_at w b.
Proof.
  intros Hf. unfold output_at. rewrite lookup_relink. case_decide; [|done].
  destruct (attempts w !! b); simpl; [by rewrite Hf|done].
Qed.

Lemma output_change a f w b : output_at (change a f w) b = output_at w b.
Proof.
  unfold output_at. rewrite lookup_change. case_decide; [|done].
  by destruct (attempts w !! b).
Qed.

Lemma flags_at_Some w a f : flags_at w a = Some f ↔ ∃ x, attempts w !! a = Some x ∧ f = flags_of x.
Proof. unfold flags_at. rewrite fmap_Some. done. Qed.

(** ** Erasing *)

Lemma erase_one_nodup x l : NoDup l → erase_one x l = filter (λ y, y ≠ x) l.
Proof.
  induction 1 as [|y l Hy Hl IH]; simpl; [done|]. case_decide as Hyx.
  - subst. rewrite filter_cons_False by (intros H; by apply H).
    rewrite <- IH. clear IH. induction l as [|z l IH]; [done|]. simpl.
    apply not_elem_of_cons in Hy as [? ?]. apply NoDup_cons in Hl as [? ?].
    rewrite decide_False by congruence. f_equal. by apply IH.
  - rewrite filter_cons_True by done. by rewrite IH.
Qed.

Lemma elem_of_erase_one x y l : NoDup l → y ∈ erase_one x l ↔ y ≠ x ∧ y ∈ l.
Proof. intros Hl. rewrite erase_one_nodup by done. by rewrite list_elem_of_filter. Qed.

Lemma erase_one_NoDup x l : NoDup l → NoDup (erase_one x l).
Proof. intros Hl. rewrite erase_one_nodup by done. by apply NoDup_filter. Qed.

Lemma erase_one_id x l : x ∉ l → erase_one x l = l.
Proof.
  induction l as [|y l IH]; simpl; [done|]. intros [? ?]%not_elem_of_cons.
  rewrite decide_False by congruence. by rewrite IH.
Qed.

Lemma erase_one_perm x l : x ∈ l → l ≡ₚ x :: erase_one x l.
Proof.
  induction l as [|y l IH]; intros Hx; [by apply elem_of_nil in Hx|]. simpl.
  case_decide as Hy; [by subst|]. apply elem_of_cons in Hx as [?|Hx]; [congruence|].
  rewrite (IH Hx) at 1. apply Permutation_swap.
Qed.

(** ** Counting edges *)

Definition b2n (b : bool) : nat := if b then 1 else 0.

(** [i] is blocked on [b], for [a]. *)
Definition is_edge (a b : nat) (wt : Wait) : bool :=
  bool_decide (wait_state wt = blocked) && bool_decide (requester wt = Some a) &&
  bool_decide (target wt = b).
Definition edge_total (w : world) (a b : nat) : nat :=
  size (filter (λ p : nat * Wait, is_edge a b p.2 = true) (waits w)).

Definition to_count (n : nat) : option nat := if decide (n = 0) then None else Some n.

Lemma count_insert_fresh (P : Wait → bool) (m : gmap nat Wait) i x :
  m !! i = None →
  size (filter (λ p : nat * Wait, P p.2 = true) (<[i := x]> m)) =
  size (filter (λ p : nat * Wait, P p.2 = true) m) + b2n (P x).
Proof.
  intros Hm. destruct (P x) eqn:E; simpl.
  - rewrite map_filter_insert_True by done. rewrite map_size_insert_None; [lia|].
    by rewrite map_lookup_filter, Hm.
  - rewrite map_filter_insert_not'; [lia|simpl; congruence|]. intros y Hy. congruence.
Qed.

Lemma count_insert (P : Wait → bool) (m : gmap nat Wait) i x y :
  m !! i = Some y →
  size (filter (λ p : nat * Wait, P p.2 = true) (<[i := x]> m)) + b2n (P y) =
  size (filter (λ p : nat * Wait, P p.2 = true) m) + b2n (P x).
Proof.
  intros E. assert (delete i m !! i = None) as Hd by apply lookup_delete_eq.
  rewrite <- (insert_delete_eq m i x), count_insert_fresh by done.
  rewrite <- (insert_id m i y E) at 2. rewrite <- (insert_delete_eq m i y).
  rewrite count_insert_fresh by done. lia.
Qed.

(** ** The mirror *)

Definition active (wt : Wait) : Prop := wait_state wt ≠ done.

Record mirrored (w : world) : Prop := {
  mir_waits_nodup : NoDup (m_waits w);
  mir_waits i : i ∈ m_waits w ↔ ∃ wt, waits w !! i = Some wt ∧ active wt;
  mir_by_nodup a x : attempts w !! a = Some x → NoDup (waits_by_me x);
  mir_by a x i : attempts w !! a = Some x →
    (i ∈ waits_by_me x ↔ ∃ wt, waits w !! i = Some wt ∧ active wt ∧ requester wt = Some a);
  mir_on_nodup a x : attempts w !! a = Some x → NoDup (waits_on_me x);
  mir_on a x i : attempts w !! a = Some x →
    (i ∈ waits_on_me x ↔ ∃ wt, waits w !! i = Some wt ∧ wait_state wt = blocked ∧ target wt = a);
  mir_edges a x b : attempts w !! a = Some x → edges_out x !! b = to_count (edge_total w a b);
  mir_target i wt : waits w !! i = Some wt → is_Some (attempts w !! target wt);
  mir_requester i wt a : waits w !! i = Some wt → requester wt = Some a → is_Some (attempts w !! a);
}.

(** Changes that leave the links and the waits alone. *)
Lemma mirrored_same_links w w' :
  waits w' = waits w → m_waits w' = m_waits w →
  (∀ a, (λ x, (waits_by_me x, waits_on_me x, edges_out x)) <$> attempts w' !! a =
        (λ x, (waits_by_me x, waits_on_me x, edges_out x)) <$> attempts w !! a) →
  mirrored w → mirrored w'.
Proof.
  intros Hw Hm Ha Hok.
  assert (∀ a x', attempts w' !! a = Some x' → ∃ x, attempts w !! a = Some x ∧
    waits_by_me x' = waits_by_me x ∧ waits_on_me x' = waits_on_me x ∧ edges_out x' = edges_out x) as Hback.
  { intros a x' Hx'. specialize (Ha a). rewrite Hx' in Ha. simpl in Ha.
    destruct (attempts w !! a) as [x|]; simplify_eq/=. by exists x. }
  assert (∀ a, is_Some (attempts w !! a) → is_Some (attempts w' !! a)) as Hknown.
  { intros a [x Hx]. specialize (Ha a). rewrite Hx in Ha. destruct (attempts w' !! a); [done|by simpl in Ha]. }
  constructor; unfold edge_total; rewrite ?Hw, ?Hm.
  - apply Hok.
  - apply Hok.
  - intros a x' (x & Hx & -> & _)%Hback. by apply (mir_by_nodup _ Hok a).
  - intros a x' i (x & Hx & -> & _)%Hback. by apply (mir_by _ Hok a).
  - intros a x' (x & Hx & _ & -> & _)%Hback. by apply (mir_on_nodup _ Hok a).
  - intros a x' i (x & Hx & _ & -> & _)%Hback. by apply (mir_on _ Hok a).
  - intros a x' b (x & Hx & _ & _ & ->)%Hback. by apply (mir_edges _ Hok a).
  - intros i wt Hi. by apply Hknown, (mir_target _ Hok i).
  - intros i wt a Hi Hr. by apply Hknown, (mir_requester _ Hok i wt).
Qed.

Lemma mirrored_change a f w : mirrored w → mirrored (change a f w).
Proof.
  apply mirrored_same_links; [done..|]. intros b. rewrite lookup_change. case_decide; [|done].
  by destruct (attempts w !! b).
Qed.

(** A wait taken from its requester's edges: [edge_total] follows. *)
Definition drop_edge (to : nat) (m : gmap nat nat) : gmap nat nat :=
  match m !! to with
  | Some n => if decide (n - 1 = 0) then delete to m else <[to := n - 1]> m
  | None => m
  end.

Lemma drop_edge_lookup to m b :
  drop_edge to m !! b =
    if decide (to = b) then
      match m !! b with Some n => to_count (n - 1) | None => None end
    else m !! b.
Proof.
  unfold drop_edge, to_count. destruct (m !! to) as [n|] eqn:E; destruct (decide (to = b)) as [<-|Hne].
  - rewrite E. case_decide; [apply lookup_delete_eq|apply lookup_insert_eq].
  - case_decide; [by rewrite lookup_delete_ne|by rewrite lookup_insert_ne].
  - by rewrite E.
  - done.
Qed.

(** The links of [b] once wait [i] has been taken off some of its lists. *)
Definition links_without (i : nat) (by_me on_me edge : bool) (to : nat) (x : Attempt) : Attempt :=
  with_links (if by_me then erase_one i (waits_by_me x) else waits_by_me x)
             (if on_me then erase_one i (waits_on_me x) else waits_on_me x)
             (if edge then drop_edge to (edges_out x) else edges_out x) x.

Lemma fmap_links_id (o : option Attempt) :
  o = (λ x, with_links (waits_by_me x) (waits_on_me x) (edges_out x) x) <$> o.
Proof. destruct o as [x|]; simpl; [by rewrite with_links_id|done]. Qed.

Lemma attempts_remove_edge from to w b :
  attempts (remove_edge from to w) !! b =
    (λ x, with_links (waits_by_me x) (waits_on_me x)
            (if decide (from = b) then drop_edge to (edges_out x) else edges_out x) x) <$> attempts w !! b.
Proof.
  unfold remove_edge. rewrite lookup_relink. case_decide; [|apply fmap_links_id].
  destruct (attempts w !! b) as [x|]; simpl; [|done]. unfold drop_edge. f_equal.
  destruct (edges_out x !! to); [done|]. by rewrite with_links_id.
Qed.

Lemma attempts_unlink i w b :
  attempts (unlink i w) !! b =
    (λ x, links_without i (bool_decide (requester (wait_of w i) = Some b))
            (bool_decide (target (wait_of w i) = b)) false 0 x) <$> attempts w !! b.
Proof.
  unfold unlink, erase_by_me, erase_on_me, links_without.
  destruct (requester (wait_of w i)) as [r|]; cbn [attempts set_m_waits].
  - rewrite lookup_relink. case_decide as H1; rewrite lookup_relink; case_decide as H2;
      destruct (attempts w !! b) as [x|]; simpl; try done;
      (repeat first [rewrite bool_decide_true by congruence|rewrite bool_decide_false by congruence]);
      by destruct x.
  - rewrite lookup_relink. case_decide as H1; destruct (attempts w !! b) as [x|]; simpl; try done;
      (repeat first [rewrite bool_decide_true by congruence|rewrite bool_decide_false by congruence]);
      by destruct x.
Qed.

(** An edge is dropped from [b] when [i] is blocked for it. *)
Definition drops (wt : Wait) (b : nat) : bool :=
  bool_decide (wait_state wt = blocked) && bool_decide (requester wt = Some b).

Lemma attempts_answer i r w wt b :
  waits w !! i = Some wt →
  attempts (answer i r w) !! b =
    links_without i (bool_decide (requester wt = Some b)) (bool_decide (target wt = b))
      (drops wt b) (target wt) <$> attempts w !! b.
Proof.
  intros Hi. unfold answer. rewrite (wait_lookup _ _ _ Hi). unfold put_wait, push_answered.
  cbn [attempts set_effects set_waits]. rewrite attempts_unlink. unfold drops.
  assert (∀ w', waits w' = waits w → wait_of w' i = wt) as Hwt
    by (intros w' E; apply wait_lookup; by rewrite E).
  destruct (wait_state wt), (requester wt) as [r'|] eqn:Er;
    (rewrite Hwt, Er by done);
    try (destruct (attempts w !! b) as [x|]; simpl; [|done]; done).
  rewrite attempts_remove_edge. destruct (attempts w !! b) as [x|]; simpl; [|done].
  unfold links_without, with_links; simpl. f_equal. f_equal.
  case_decide; [by rewrite bool_decide_true by congruence|by rewrite bool_decide_false by congruence].
Qed.

Lemma attempts_make_ready i r w wt b :
  waits w !! i = Some wt → wait_state wt = blocked →
  attempts (make_ready i r w) !! b =
    links_without i false (bool_decide (target wt = b)) (drops wt b) (target wt) <$> attempts w !! b.
Proof.
  intros Hi Hb. unfold make_ready. rewrite (wait_lookup _ _ _ Hi). unfold put_wait, erase_on_me, drops.
  rewrite Hb. cbn [attempts set_waits]. destruct (requester wt) as [r'|].
  - rewrite lookup_relink, attempts_remove_edge. destruct (attempts w !! b) as [x|]; simpl; [|by case_decide].
    unfold links_without. case_decide as H1; case_decide as H2;
      (repeat first [rewrite bool_decide_true by congruence|rewrite bool_decide_false by congruence]);
      by destruct x.
  - rewrite lookup_relink. destruct (attempts w !! b) as [x|]; simpl; [|by case_decide].
    unfold links_without. case_decide as H1;
      (repeat first [rewrite bool_decide_true by congruence|rewrite bool_decide_false by congruence]);
      by destruct x.
Qed.

Definition settle (st : State) (r : error_code) (wt : Wait) : Wait :=
  {| target := target wt; requester := requester wt; wait_state := st; wait_result := r |}.

Lemma to_count_pred n : n ≠ 0 → to_count (n - 1) = match to_count n with Some k => to_count (k - 1) | None => None end.
Proof. intros Hn. unfold to_count at 2. by rewrite decide_False. Qed.

(** Wait [i] stops being blocked: it is answered, or becomes ready. *)
Lemma mirrored_without i wt st r w w' :
  mirrored w → waits w !! i = Some wt → active wt → st ≠ blocked →
  (∀ b, attempts w' !! b =
     links_without i (bool_decide (st = done) && bool_decide (requester wt = Some b))
       (bool_decide (target wt = b)) (drops wt b) (target wt) <$> attempts w !! b) →
  waits w' = <[i := settle st r wt]> (waits w) →
  m_waits w' = (if decide (st = done) then erase_one i (m_waits w) else m_waits w) →
  mirrored w'.
Proof.
  intros Hok Hi Hact Hst Ha Hw Hm.
  assert (∀ b x', attempts w' !! b = Some x' → ∃ x, attempts w !! b = Some x ∧
    x' = links_without i (bool_decide (st = done) && bool_decide (requester wt = Some b))
       (bool_decide (target wt = b)) (drops wt b) (target wt) x) as Hback.
  { intros b x'. rewrite Ha. destruct (attempts w !! b) as [x|]; simpl; [|done].
    intros [= <-]. by exists x. }
  assert (∀ b, is_Some (attempts w !! b) → is_Some (attempts w' !! b)) as Hknown.
  { intros b [x Hx]. rewrite Ha, Hx. by eexists. }
  assert (∀ j wt', waits w' !! j = Some wt' →
    (j = i ∧ wt' = settle st r wt) ∨ (j ≠ i ∧ waits w !! j = Some wt')) as Hwaits.
  { intros j wt'. rewrite Hw. destruct (decide (i = j)) as [<-|].
    - rewrite lookup_insert_eq. intros [= <-]. by left.
    - rewrite lookup_insert_ne by done. by right. }
  assert (waits w' !! i = Some (settle st r wt)) as Hi' by (by rewrite Hw, lookup_insert_eq).
  assert (∀ j, j ≠ i → waits w' !! j = waits w !! j) as Hj by (intros j ?; by rewrite Hw, lookup_insert_ne).
  assert (st = done ∨ active (settle st r wt)) as Hcase by (unfold active; simpl; destruct st; auto).
  constructor.
  - rewrite Hm. case_decide; [apply erase_one_NoDup|]; apply Hok.
  - intros j. rewrite Hm. assert (j ∈ (if decide (st = done) then erase_one i (m_waits w) else m_waits w) ↔
      (st = done → j ≠ i) ∧ j ∈ m_waits w) as ->.
    { case_decide; [rewrite elem_of_erase_one by apply Hok|]; naive_solver. }
    rewrite (mir_waits _ Hok). destruct (decide (j = i)) as [->|Hne].
    + rewrite Hi', Hi. unfold active in *. simpl. naive_solver.
    + rewrite Hj by done. naive_solver.
  - intros b x' (x & Hx & ->)%Hback. simpl.
    destruct (_ && _); [apply erase_one_NoDup|]; by apply (mir_by_nodup _ Hok b).
  - intros b x' j (x & Hx & ->)%Hback. simpl.
    assert (j ∈ (if bool_decide (st = done) && bool_decide (requester wt = Some b)
       then erase_one i (waits_by_me x) else waits_by_me x) ↔
      (st = done → requester wt = Some b → j ≠ i) ∧ j ∈ waits_by_me x) as ->.
    { destruct (_ && _) eqn:E; bool_to_prop.
      - rewrite elem_of_erase_one by by apply (mir_by_nodup _ Hok b). naive_solver.
      - apply andb_false_iff in E as [E|E]; bool_to_prop; naive_solver. }
    rewrite (mir_by _ Hok b) by done. destruct (decide (j = i)) as [->|Hne].
    + rewrite Hi', Hi. unfold active in *. simpl. naive_solver.
    + rewrite Hj by done. naive_solver.
  - intros b x' (x & Hx & ->)%Hback. simpl.
    destruct (bool_decide (target wt = b)); [apply erase_one_NoDup|]; by apply (mir_on_nodup _ Hok b).
  - intros b x' j (x & Hx & ->)%Hback. simpl.
    assert (j ∈ (if bool_decide (target wt = b) then erase_one i (waits_on_me x) else waits_on_me x) ↔
      (target wt = b → j ≠ i) ∧ j ∈ waits_on_me x) as ->.
    { destruct (bool_decide (target wt = b)) eqn:E; bool_to_prop;
        [rewrite elem_of_erase_one by by apply (mir_on_nodup _ Hok b)|]; naive_solver. }
    rewrite (mir_on _ Hok b) by done. destruct (decide (j = i)) as [->|Hne].
    + rewrite Hi', Hi. simpl. naive_solver.
    + rewrite Hj by done. naive_solver.
  - intros b x' c (x & Hx & ->)%Hback. simpl.
    pose proof (count_insert (is_edge b c) (waits w) i (settle st r wt) wt Hi) as Hc.
    assert (is_edge b c (settle st r wt) = false) as Hns.
    { unfold is_edge. simpl. by rewrite bool_decide_false. }
    rewrite Hns in Hc. unfold edge_total at 1. rewrite Hw.
    unfold drops, is_edge in *. pose proof (mir_edges _ Hok b x c Hx) as Hedge. unfold edge_total, is_edge in Hedge.
    destruct (bool_decide (wait_state wt = blocked) && bool_decide (requester wt = Some b)) eqn:E; simpl in Hc.
    + rewrite drop_edge_lookup. destruct (decide (target wt = c)) as [Htc|Htc].
      * rewrite bool_decide_true in Hc by done. simpl in Hc. rewrite Hedge, <- to_count_pred by lia.
        f_equal. lia.
      * rewrite bool_decide_false in Hc by done. simpl in Hc. rewrite Hedge. f_equal. lia.
    + simpl in Hc. rewrite Hedge. f_equal. lia.
  - intros j wt' [[-> ->]|[_ Hj']]%Hwaits; apply Hknown; [apply (mir_target _ Hok i wt Hi)|by apply (mir_target _ Hok j)].
  - intros j wt' a [[-> ->]|[_ Hj']]%Hwaits Hr; apply Hknown;
      [by apply (mir_requester _ Hok i wt)|by apply (mir_requester _ Hok j wt')].
Qed.

(** ** What answering changes *)

(** Everything but waits, links and who has been answered. *)
Definition frame (w w' : world) : Prop :=
  (∀ a, flags_at w' a = flags_at w a) ∧ (∀ a, output_at w' a = output_at w a) ∧
  m_running w' = m_running w ∧ reacquires w' = reacquires w ∧ issued w' = issued w ∧
  drains w' = drains w ∧ promotions w' = promotions w.

Lemma frame_refl w : frame w w.
Proof. done. Qed.
Lemma frame_trans w1 w2 w3 : frame w1 w2 → frame w2 w3 → frame w1 w3.
Proof.
  intros (E1&E2&?&?&?&?&?) (F1&F2&?&?&?&?&?).
  split_and!; [intros a; by rewrite F1, E1|intros a; by rewrite F2, E2|congruence..].
Qed.

Lemma frame_links w w' :
  (∀ b, ∃ by_me on_me edge to i, attempts w' !! b = links_without i by_me on_me edge to <$> attempts w !! b) →
  m_running w' = m_running w → reacquires w' = reacquires w → issued w' = issued w →
  drains w' = drains w → promotions w' = promotions w → frame w w'.
Proof.
  intros Ha ?????. split_and!; try done; intros a; unfold flags_at, output_at;
    destruct (Ha a) as (?&?&?&?&?&->); by destruct (attempts w !! a).
Qed.

(** A field no branch touches. *)
Ltac same_field :=
  repeat match goal with |- context [match ?x with _ => _ end] => destruct x end; reflexivity.

Lemma lists_answer i r w :
  m_running (answer i r w) = m_running w ∧ reacquires (answer i r w) = reacquires w ∧
  issued (answer i r w) = issued w ∧ drains (answer i r w) = drains w ∧
  promotions (answer i r w) = promotions w ∧ answered (answer i r w) = answered w ++ [i].
Proof. unfold answer, unlink, put_wait. split_and!; same_field. Qed.

Lemma lists_make_ready i r w :
  m_running (make_ready i r w) = m_running w ∧ reacquires (make_ready i r w) = reacquires w ∧
  issued (make_ready i r w) = issued w ∧ drains (make_ready i r w) = drains w ∧
  promotions (make_ready i r w) = promotions w ∧ answered (make_ready i r w) = answered w ∧
  m_waits (make_ready i r w) = m_waits w.
Proof. unfold make_ready, put_wait. split_and!; same_field. Qed.

Lemma waits_answer i r w wt :
  waits w !! i = Some wt →
  waits (answer i r w) = <[i := settle done r wt]> (waits w) ∧
  m_waits (answer i r w) = erase_one i (m_waits w).
Proof.
  intros Hi. unfold answer, unlink. rewrite (wait_lookup _ _ _ Hi).
  assert (alter (λ wt, {| target := target wt; requester := requester wt;
    wait_state := done; wait_result := r |}) i (waits w) = <[i := settle done r wt]> (waits w)) as Halt.
  { apply map_eq. intros j. destruct (decide (i = j)) as [<-|].
    - by rewrite lookup_alter_eq, lookup_insert_eq, Hi.
    - by rewrite lookup_alter_ne, lookup_insert_ne. }
  unfold put_wait. destruct (wait_state wt), (requester wt);
    cbn [waits m_waits push_answered set_effects set_waits set_m_waits];
    (split; [|same_field]); rewrite <- Halt; same_field.
Qed.

Lemma answer_spec i r w wt :
  mirrored w → waits w !! i = Some wt → active wt →
  mirrored (answer i r w) ∧ frame w (answer i r w) ∧
  waits (answer i r w) = <[i := settle done r wt]> (waits w).
Proof.
  intros Hok Hi Hact. pose proof (waits_answer i r w wt Hi) as [Hw Hm].
  pose proof (attempts_answer i r w wt) as Ha. split_and!; [| |done].
  - apply (mirrored_without i wt done r w); try done. intros b. rewrite Ha by done.
    by rewrite (bool_decide_true (done = done)).
  - apply frame_links.
    + intros b. eexists _, _, _, _, _. by apply Ha.
    + apply lists_answer.
    + apply lists_answer.
    + apply lists_answer.
    + apply lists_answer.
    + apply lists_answer.
Qed.

Lemma make_ready_spec i r w wt :
  mirrored w → waits w !! i = Some wt → wait_state wt = blocked →
  mirrored (make_ready i r w) ∧ frame w (make_ready i r w) ∧
  waits (make_ready i r w) = <[i := settle ready r wt]> (waits w) ∧
  answered (make_ready i r w) = answered w.
Proof.
  intros Hok Hi Hb. pose proof (attempts_make_ready i r w wt) as Ha.
  assert (waits (make_ready i r w) = <[i := settle ready r wt]> (waits w) ∧
          m_waits (make_ready i r w) = m_waits w) as [Hw Hm].
  { unfold make_ready. rewrite (wait_lookup _ _ _ Hi). unfold put_wait.
    split; [|same_field]. cbn [waits set_waits]. apply map_eq. intros j.
    transitivity (alter (settle ready r) i (waits w) !! j); [destruct (requester wt); reflexivity|].
    destruct (decide (i = j)) as [<-|].
    - by rewrite lookup_alter_eq, lookup_insert_eq, Hi.
    - by rewrite lookup_alter_ne, lookup_insert_ne. }
  split_and!; [| |done|].
  - apply (mirrored_without i wt ready r w); try done; [by unfold active; rewrite Hb|].
    intros b. by rewrite Ha.
  - apply frame_links.
    + intros b. eexists _, _, _, _, _. by apply Ha.
    + apply lists_make_ready.
    + apply lists_make_ready.
    + apply lists_make_ready.
    + apply lists_make_ready.
    + apply lists_make_ready.
  - apply lists_make_ready.
Qed.

(** ** A new wait *)

Definition new_wait (t : nat) (r : option nat) : Wait :=
  {| target := t; requester := r; wait_state := blocked; wait_result := no_error |}.

Lemma attempts_link i t r w b :
  attempts (link i t r w) !! b =
    (λ x, with_links (if bool_decide (r = Some b) then waits_by_me x ++ [i] else waits_by_me x)
            (if bool_decide (t = b) then waits_on_me x ++ [i] else waits_on_me x)
            (if bool_decide (r = Some b) then <[t := S (default 0 (edges_out x !! t))]> (edges_out x)
             else edges_out x) x) <$> attempts w !! b.
Proof.
  unfold link. destruct r as [a|].
  - rewrite !lookup_relink. cbn [attempts set_m_waits set_waits].
    rewrite (bool_decide_ext (Some a = Some b) (a = b)) by naive_solver.
    destruct (attempts w !! b) as [x|]; [|by destruct (decide (a = b)), (decide (t = b))].
    destruct (decide (a = b)) as [Hab|Hab], (decide (t = b)) as [Htb|Htb];
      rewrite ?(bool_decide_true _ Hab), ?(bool_decide_false _ Hab),
        ?(bool_decide_true _ Htb), ?(bool_decide_false _ Htb); by destruct x.
  - rewrite !lookup_relink. cbn [attempts set_m_waits set_waits].
    rewrite (bool_decide_false (None = Some b)) by done.
    destruct (attempts w !! b) as [x|]; [|by destruct (decide (t = b))].
    destruct (decide (t = b)) as [Htb|Htb];
      rewrite ?(bool_decide_true _ Htb), ?(bool_decide_false _ Htb); by destruct x.
Qed.

Lemma link_frame i t r w : frame w (link i t r w).
Proof.
  split_and!; try (unfold link; same_field);
    intros a; unfold flags_at, output_at; rewrite attempts_link; by destruct (attempts w !! a).
Qed.

Lemma link_waits i t r w :
  waits (link i t r w) = <[i := new_wait t r]> (waits w) ∧ m_waits (link i t r w) = m_waits w ++ [i] ∧
  answered (link i t r w) = answered w.
Proof. unfold link. by destruct r. Qed.

Lemma NoDup_snoc {A} (l : list A) x : NoDup l → x ∉ l → NoDup (l ++ [x]).
Proof.
  intros Hl Hx. apply NoDup_app. split_and!; [done| |apply NoDup_singleton].
  intros y Hy ->%list_elem_of_singleton. done.
Qed.

Lemma link_mirrored i t r w :
  mirrored w → waits w !! i = None → is_Some (attempts w !! t) →
  (∀ a, r = Some a → is_Some (attempts w !! a)) → mirrored (link i t r w).
Proof.
  intros Hok Hi Ht Hr. destruct (link_waits i t r w) as (Hw & Hm & _).
  assert (∀ b x', attempts (link i t r w) !! b = Some x' → ∃ x, attempts w !! b = Some x ∧
    x' = with_links (if bool_decide (r = Some b) then waits_by_me x ++ [i] else waits_by_me x)
            (if bool_decide (t = b) then waits_on_me x ++ [i] else waits_on_me x)
            (if bool_decide (r = Some b) then <[t := S (default 0 (edges_out x !! t))]> (edges_out x)
             else edges_out x) x) as Hback.
  { intros b x'. rewrite attempts_link. destruct (attempts w !! b) as [x|]; simpl; [|done].
    intros [= <-]. by exists x. }
  assert (∀ b, is_Some (attempts w !! b) → is_Some (attempts (link i t r w) !! b)) as Hknown.
  { intros b [x Hx]. rewrite attempts_link, Hx. by eexists. }
  assert (∀ j, waits (link i t r w) !! j = if decide (i = j) then Some (new_wait t r) else waits w !! j) as Hj.
  { intros j. rewrite Hw. case_decide; [subst; apply lookup_insert_eq|by apply lookup_insert_ne]. }
  assert (∀ j (P : Wait → Prop), (∃ wt, waits (link i t r w) !! j = Some wt ∧ P wt) ↔
    (j = i ∧ P (new_wait t r)) ∨ (∃ wt, waits w !! j = Some wt ∧ P wt)) as Hex.
  { intros j P. rewrite Hj. case_decide as Hij; [subst; rewrite Hi|]; naive_solver. }
  assert (∀ j, j ∈ m_waits w → j ≠ i) as Hnew by (intros j (wt & ? & _)%(mir_waits _ Hok) ->; congruence).
  constructor.
  - rewrite Hm. apply NoDup_snoc; [apply Hok|]. intros H. by apply (Hnew i H).
  - intros j. rewrite Hm, elem_of_app, list_elem_of_singleton, (mir_waits _ Hok), Hex. unfold active. naive_solver.
  - intros b x' (x & Hx & ->)%Hback. simpl. pose proof (mir_by_nodup _ Hok b x Hx) as Hnd.
    destruct (bool_decide _); [|done]. apply NoDup_snoc; [done|].
    intros (wt & ? & _)%(mir_by _ Hok b x i Hx). congruence.
  - intros b x' j (x & Hx & ->)%Hback. simpl. rewrite Hex, <- (mir_by _ Hok b x j Hx).
    destruct (bool_decide (r = Some b)) eqn:E; bool_to_prop; rewrite ?elem_of_app, ?list_elem_of_singleton;
      unfold active; simpl; naive_solver.
  - intros b x' (x & Hx & ->)%Hback. simpl. pose proof (mir_on_nodup _ Hok b x Hx) as Hnd.
    destruct (bool_decide (t = b)); [|done]. apply NoDup_snoc; [done|].
    intros (wt & ? & _)%(mir_on _ Hok b x i Hx). congruence.
  - intros b x' j (x & Hx & ->)%Hback. simpl. rewrite Hex, <- (mir_on _ Hok b x j Hx).
    destruct (bool_decide (t = b)) eqn:E; bool_to_prop; rewrite ?elem_of_app, ?list_elem_of_singleton;
      simpl; naive_solver.
  - intros b x' c (x & Hx & ->)%Hback. simpl.
    pose proof (count_insert_fresh (is_edge b c) (waits w) i (new_wait t r) Hi) as Hc.
    pose proof (mir_edges _ Hok b x c Hx) as Hedge. unfold edge_total at 1. rewrite Hw, Hc.
    fold (edge_total w b c). unfold is_edge; simpl.
    destruct (bool_decide (r = Some b)) eqn:E; simpl.
    + destruct (decide (t = c)) as [<-|Htc].
      * rewrite lookup_insert_eq, bool_decide_true, Hedge by done. unfold to_count.
        simpl. repeat case_decide; simpl; f_equal; lia.
      * rewrite lookup_insert_ne, bool_decide_false, Hedge by done. simpl. by rewrite Nat.add_0_r.
    + by rewrite Hedge, Nat.add_0_r.
  - intros j wt. rewrite Hj. case_decide; [intros [= <-]; by apply Hknown|].
    intros H'. apply Hknown, (mir_target _ Hok j wt H').
  - intros j wt a. rewrite Hj. case_decide; [intros [= <-]; intros H'; by apply Hknown, Hr|].
    intros H' Ha. by apply Hknown, (mir_requester _ Hok j wt).
Qed.

(** ** Answering several *)

(** [w'] is [w] with some of its waits answered. *)
Definition answers (w w' : world) : Prop :=
  mirrored w' ∧ frame w w' ∧
  ∀ i, waits w' !! i = waits w !! i ∨
    ∃ wt r, waits w !! i = Some wt ∧ active wt ∧ waits w' !! i = Some (settle done r wt).

Lemma answers_refl w : mirrored w → answers w w.
Proof. intros Hok. split_and!; [done|apply frame_refl|by left]. Qed.

Lemma answers_trans w1 w2 w3 : answers w1 w2 → answers w2 w3 → answers w1 w3.
Proof.
  intros (_ & F12 & H12) (M3 & F23 & H23). split_and!; [done|by eapply frame_trans|].
  intros i. destruct (H23 i) as [->|(wt & r & Hi & Hact & ->)]; [apply H12|].
  destruct (H12 i) as [E|(wt' & r' & Hi' & Hact' & E)].
  - right. exists wt, r. by rewrite <- E.
  - rewrite E in Hi. injection Hi as <-. by destruct Hact.
Qed.

Lemma answers_answer i r w wt :
  mirrored w → waits w !! i = Some wt → active wt → answers w (answer i r w).
Proof.
  intros Hok Hi Hact. destruct (answer_spec i r w wt Hok Hi Hact) as (? & ? & Hw).
  split_and!; [done..|]. intros j. rewrite Hw. destruct (decide (i = j)) as [<-|].
  - right. exists wt, r. by rewrite lookup_insert_eq.
  - left. by rewrite lookup_insert_ne.
Qed.

(** Answering each wait of a list of different active ones. *)
Lemma answers_fold (f : world → nat → option error_code) (l : list nat) w :
  mirrored w → NoDup l →
  (∀ i, i ∈ l → ∃ wt, waits w !! i = Some wt ∧ active wt) →
  let w' := foldl (λ w i, match f w i with Some r => answer i r w | None => w end) w l in
  answers w w' ∧ (∀ i, i ∉ l → waits w' !! i = waits w !! i) ∧
  (∀ i wt, i ∈ l → waits w !! i = Some wt →
     ∃ w0, answers w w0 ∧ waits w0 !! i = Some wt ∧
       waits w' !! i = match f w0 i with Some r => Some (settle done r wt) | None => Some wt end).
Proof.
  revert w. induction l as [|i l IH]; intros w Hok Hnd Hl; simpl.
  { split_and!; [by apply answers_refl|done|]. by intros ? ? ?%elem_of_nil. }
  apply NoDup_cons in Hnd as [Hi Hnd]. destruct (Hl i) as (wt & Hwt & Hact); [left|].
  set (w1 := match f w i with Some r => answer i r w | None => w end).
  assert (answers w w1) as Ha1 by (unfold w1; case_match; [by eapply answers_answer|by apply answers_refl]).
  assert (∀ j, j ≠ i → waits w1 !! j = waits w !! j) as Hoth.
  { intros j Hj. unfold w1. case_match; [|done]. destruct (waits_answer i e w wt Hwt) as [-> _].
    by rewrite lookup_insert_ne. }
  destruct (IH w1) as (Ha & Hout & Hin).
  { apply Ha1. }
  { done. }
  { intros j Hj. rewrite Hoth; [apply Hl; by right|]. by intros ->. }
  split_and!.
  - by eapply answers_trans.
  - intros j [? ?]%not_elem_of_cons. rewrite Hout, Hoth by done. done.
  - intros j wtj [->|Hj]%elem_of_cons Hwj.
    + exists w. split_and!; [by apply answers_refl|done|]. rewrite Hout by done. unfold w1.
      rewrite Hwj in Hwt. injection Hwt as ->.
      destruct (f w i) as [r|]; [|done]. destruct (waits_answer i r w wt Hwj) as [-> _].
      apply lookup_insert_eq.
    + destruct (Hin j wtj Hj) as (w0 & Hw0 & H0 & H1); [rewrite Hoth; [done|by intros ->]|].
      exists w0. split_and!; [by eapply answers_trans|done..].
Qed.
