(* ===== verification/Search.v ===== *)
(** * The searches of the wait graph

    [path_to] finds a path exactly when there is one, and [hurry] reaches
    exactly the attempts the one it is given waits on; both always end. *)

From S2P Require Export BuildCoordinatorFacts.

(** [a] waits on [b]: one of its requests is blocked on it, or it waits behind it. *)
Definition waits_on (w : world) (a b : nat) : Prop := b ∈ successors w a.

#[export] Instance waits_on_dec w a b : Decision (waits_on w a b).
Proof. unfold waits_on. apply _. Defined.

(** Every attempt named by a link is known. *)
Definition known (w : world) : Prop :=
  ∀ a b, waits_on w a b → is_Some (attempts w !! b).

Lemma default_successors w a : attempts w !! a = None → successors w a = [].
Proof.
  intros H. unfold successors, attempt. rewrite lookup_total_alt, H. simpl. done.
Qed.

Section path_to.
Context (w : world) (from to : nat).
Context (Hknown : known w).

(** The attempts seen so far in the order they were, each after its parent. *)
Record ordered (parent : gmap nat (option nat)) (seen : list nat) : Prop := {
  ord_nodup : NoDup seen;
  ord_seen n : n ∈ seen ↔ n ∈ dom parent;
  ord_parent k n : seen !! k = Some n →
    (k = 0 ∧ n = from ∧ parent !! n = Some None) ∨
    ∃ j p, j < k ∧ seen !! j = Some p ∧ parent !! n = Some (Some p) ∧ waits_on w p n;
}.

Lemma ordered_size parent seen : ordered parent seen → length seen = size parent.
Proof.
  intros [Hnd Hseen _]. rewrite <- (size_list_to_set (C := gset nat)) by done.
  rewrite <- size_dom. f_equal. apply leibniz_equiv. intros x. rewrite elem_of_list_to_set. apply Hseen.
Qed.

Lemma visit_ordered parent seen stack node next :
  ordered parent seen → node ∈ dom parent → waits_on w node next →
  ∃ seen', ordered (visit node (parent, stack) next).1 seen' ∧
    dom (visit node (parent, stack) next).1 = {[next]} ∪ dom parent.
Proof.
  intros Hord Hnode Hedge. unfold visit; simpl. destruct (parent !! next) as [p|] eqn:E; simpl.
  - exists seen. split; [done|]. apply elem_of_dom_2 in E. set_solver.
  - pose proof Hord as [Hnd Hseen Hpar]. exists (seen ++ [next]). split; [|by rewrite dom_insert_L].
    assert (next ∉ seen) as Hnew by (rewrite Hseen; by apply not_elem_of_dom).
    constructor.
    + by apply NoDup_snoc.
    + intros n. rewrite elem_of_app, list_elem_of_singleton, Hseen, dom_insert. set_solver.
    + intros k n [Hk|[Hk Hn]]%lookup_app_Some.
      * assert (n ≠ next) as Hne.
        { intros ->. apply Hnew. by apply list_elem_of_lookup_2 in Hk. }
        rewrite lookup_insert_ne by done.
        destruct (Hpar k n Hk) as [?|(j & p & ? & Hj & ? & ?)]; [by left|]. right.
        exists j, p. split_and!; [done|by apply lookup_app_l_Some|done..].
      * apply list_lookup_singleton_Some in Hn as [Hkn <-]. right.
        apply Hseen, list_elem_of_lookup in Hnode as [j Hj]. exists j, node.
        split_and!; [apply lookup_lt_Some in Hj; lia|by apply lookup_app_l_Some|apply lookup_insert_eq|done].
Qed.

Lemma visit_measure parent stack node next :
  length (visit node (parent, stack) next).2 + size parent =
  length stack + size (visit node (parent, stack) next).1.
Proof.
  unfold visit; simpl. destruct (parent !! next) eqn:E; simpl; [done|].
  rewrite map_size_insert_None by done. lia.
Qed.

Lemma visit_stack parent stack node next n :
  n ∈ (visit node (parent, stack) next).2 ↔ n ∈ stack ∨ (n = next ∧ n ∉ dom parent).
Proof.
  unfold visit; simpl. destruct (parent !! next) as [p|] eqn:E; simpl.
  - apply elem_of_dom_2 in E. naive_solver.
  - rewrite elem_of_cons. apply not_elem_of_dom in E. naive_solver.
Qed.

Lemma visits parent seen stack node l :
  ordered parent seen → node ∈ dom parent → (∀ n, n ∈ l → waits_on w node n) →
  let st := foldl (visit node) (parent, stack) l in
  (∃ seen', ordered st.1 seen') ∧ dom st.1 = list_to_set l ∪ dom parent ∧
  length st.2 + size parent = length stack + size st.1 ∧
  (∀ n, n ∈ st.2 ↔ n ∈ stack ∨ (n ∈ l ∧ n ∉ dom parent)).
Proof.
  revert parent seen stack. induction l as [|next l IH]; intros parent seen stack Hord Hnode Hl; simpl.
  - split_and!; [by eexists|by rewrite union_empty_l_L|lia|]. intros n. rewrite elem_of_nil. tauto.
  - destruct (visit_ordered parent seen stack node next) as (seen' & Hord' & Hdom); [done..|by apply Hl; left|].
    pose proof (visit_measure parent stack node next) as Hm.
    pose proof (λ n, visit_stack parent stack node next n) as Hst.
    destruct (visit node (parent, stack) next) as [parent' stack'] eqn:E; simpl in *.
    destruct (IH parent' seen' stack') as (H1 & H2 & H3 & H4); [done|set_solver|by intros; apply Hl; right|].
    split_and!; [done|rewrite H2, Hdom; clear; set_solver|lia|].
    intros n. rewrite H4, Hst, Hdom, elem_of_cons, not_elem_of_union, not_elem_of_singleton.
    destruct (decide (n ∈ dom parent)), (decide (n = next)); tauto.
Qed.
(** A path from [from], last first. *)
Definition is_path (p : list nat) (n : nat) : Prop :=
  head p = Some n ∧ list.last p = Some from ∧
  ∀ k a b, p !! k = Some b → p !! S k = Some a → waits_on w a b.

Lemma chain_path parent seen fuel k n :
  ordered parent seen → seen !! k = Some n → k < fuel → is_path (chain fuel parent (Some n)) n.
Proof.
  intros Hord. revert k n. induction fuel as [|fuel IH]; intros k n Hk Hlt; [lia|].
  simpl. destruct (ord_parent _ _ Hord k n Hk) as [(-> & -> & E)|(j & p & Hj & Hp & E & Hedge)];
    rewrite E; simpl.
  - assert (chain fuel parent None = []) as -> by by destruct fuel.
    split_and!; [done|done|]. intros [|k'] a b; simpl; [done|]. by rewrite lookup_nil.
  - destruct (IH j p Hp ltac:(lia)) as (Hhead & Hlast & Hedges).
    destruct (chain fuel parent (Some p)) as [|p' l]; [done|]. simpl in Hhead. injection Hhead as ->.
    split_and!; [done|done|]. intros [|k'] a b; simpl.
    + by intros [= <-] [= <-].
    + apply Hedges.
Qed.

Record searching (parent : gmap nat (option nat)) (stack : list nat) : Prop := {
  srch_ordered : ∃ seen, ordered parent seen;
  srch_from : from ∈ dom parent;
  srch_stack n : n ∈ stack → n ∈ dom parent;
  srch_done n : n ∈ dom parent → n ∈ stack ∨ (n ≠ to ∧ ∀ m, waits_on w n m → m ∈ dom parent);
  srch_known n : n ∈ dom parent → n ∈ dom (attempts w);
}.

Lemma searching_step parent node stack :
  searching parent (node :: stack) → node ≠ to →
  let st := foldl (visit node) (parent, stack) (successors w node) in
  searching st.1 st.2 ∧ length st.2 + size parent = length stack + size st.1.
Proof.
  intros [[seen Hord] Hfrom Hstack Hdone Hkn] Hne.
  assert (node ∈ dom parent) as Hnode by (apply Hstack; left).
  destruct (visits parent seen stack node (successors w node)) as (Hord' & Hdom & Hm & Hst); [done|done|done|].
  split; [|done]. constructor.
  - done.
  - rewrite Hdom. set_solver.
  - intros n [Hn|[Hn _]]%Hst; rewrite Hdom, elem_of_union, elem_of_list_to_set;
      [right; apply Hstack; by right|by left].
  - intros n. rewrite Hst, Hdom, elem_of_union, elem_of_list_to_set.
    destruct (decide (n ∈ dom parent)) as [Hn|Hn]; [|tauto]. intros _.
    destruct (Hdone n Hn) as [[->|?]%elem_of_cons|[Hnt Hm']].
    + right. split; [done|]. intros m Hedge. rewrite elem_of_union, elem_of_list_to_set. by left.
    + tauto.
    + right. split; [done|]. intros m Hedge. apply elem_of_union_r. auto.
  - intros n. rewrite Hdom, elem_of_union, elem_of_list_to_set. intros [Hn|Hn]; [|auto].
    apply elem_of_dom. by apply (Hknown node).
Qed.

Lemma searching_size parent stack : searching parent stack → size parent ≤ size (attempts w).
Proof.
  intros Hs. rewrite <- !size_dom. apply subseteq_size. intros n. apply (srch_known _ _ Hs).
Qed.

Lemma path_loop_spec fuel parent stack :
  searching parent stack → length stack + (size (attempts w) - size parent) < fuel →
  let p := path_loop fuel w to parent stack in
  (p = [] → ¬ rtc (waits_on w) from to) ∧ (p ≠ [] → is_path p to).
Proof.
  revert parent stack. induction fuel as [|fuel IH]; intros parent stack Hs Hfuel; [lia|].
  destruct stack as [|node stack]; simpl.
  - split; [|done]. intros _ Hrtc. destruct Hs as [_ Hfrom _ Hdone _].
    assert (∀ x y, rtc (waits_on w) x y → x ∈ dom parent → y ∈ dom parent) as Hclosed.
    { induction 1 as [x|x y z Hxy _ IHr]; intros Hx; [done|]. apply IHr.
      destruct (Hdone x Hx) as [?%elem_of_nil|[_ H]]; [done|auto]. }
    pose proof (Hclosed _ _ Hrtc Hfrom) as Hto.
    by destruct (Hdone to Hto) as [?%elem_of_nil|[? _]].
  - destruct (decide (node = to)) as [->|Hne].
    + pose proof Hs as [[seen Hord] _ Hstack _ _].
      assert (to ∈ seen) as [k Hk]%list_elem_of_lookup by (apply (ord_seen _ _ Hord), Hstack; left).
      pose proof (chain_path parent seen (size parent) k to Hord Hk) as Hpath.
      rewrite <- (ordered_size _ _ Hord) in *. specialize (Hpath (lookup_lt_Some _ _ _ Hk)).
      split; [|done]. intros E. rewrite E in Hpath. by destruct Hpath.
    + destruct (searching_step parent node stack Hs Hne) as [Hs' Hm].
      pose proof (searching_size _ _ Hs). pose proof (searching_size _ _ Hs').
      destruct (foldl (visit node) (parent, stack) (successors w node)) as [parent' stack'].
      apply IH; [done|]. simpl in *. lia.
Qed.
End path_to.

(** [path_to]: nothing just when there is no path, and otherwise one. *)
Lemma path_rtc w from p to : is_path w from p to → rtc (waits_on w) from to.
Proof.
  revert to. induction p as [|x [|y p] IH]; intros to (Hhead & Hlast & Hedges); [done|..]; simpl in *.
  - by simplify_eq.
  - injection Hhead as ->. eapply rtc_r; [apply (IH y)|by apply (Hedges 0)].
    split_and!; [done|done|]. intros k a b Hb Ha. by apply (Hedges (S k)).
Qed.

Lemma path_to_spec w from to :
  known w → is_Some (attempts w !! from) →
  (path_to from to w = [] ↔ ¬ rtc (waits_on w) from to) ∧
  (path_to from to w ≠ [] → is_path w from (path_to from to w) to).
Proof.
  intros Hknown Hfrom.
  assert (searching w from to {[from := None]} [from]) as Hs.
  { constructor.
    - exists [from]. constructor; [apply NoDup_singleton|intros n; rewrite dom_singleton; set_solver|].
      intros k n [-> <-]%list_lookup_singleton_Some. left. by rewrite lookup_singleton_eq.
    - rewrite dom_singleton. set_solver.
    - intros n. rewrite dom_singleton. set_solver.
    - intros n. rewrite dom_singleton. set_solver.
    - intros n. rewrite dom_singleton. intros ->%elem_of_singleton. by apply elem_of_dom. }
  pose proof (searching_size _ _ _ _ _ Hs) as Hsize. rewrite map_size_singleton in Hsize.
  destruct (path_loop_spec w from to Hknown (S (size (attempts w))) _ _ Hs) as [H1 H2].
  { rewrite map_size_singleton. simpl. lia. }
  unfold path_to. split; [|done]. split; [done|]. intros Hno.
  destruct (path_loop _ _ _ _ _) as [|x p] eqn:E; [done|]. exfalso. apply Hno.
  apply path_rtc with (x :: p). by apply H2.
Qed.

(** ** Hurrying *)

Definition is_hurried (w : world) (a : nat) : Prop := hurried (attempt w a) = true.
#[export] Instance is_hurried_dec w a : Decision (is_hurried w a).
Proof. unfold is_hurried. apply _. Defined.
Definition hurry_closed (w : world) : Prop :=
  ∀ a b, is_hurried w a → waits_on w a b → is_hurried w b.

(** [w'] is [w] with more attempts hurried, and those promoted in the line. *)
Record hurries (w w' : world) : Prop := {
  hur_attempts a : ∃ b : bool, attempts w' !! a =
    (λ x, if b then with_flags (set_hurried (flags_of x)) x else x) <$> attempts w !! a;
  hur_rest : waits w' = waits w ∧ m_waits w' = m_waits w ∧ m_running w' = m_running w ∧
    stop_reacquires w' = stop_reacquires w ∧ stop_attempts w' = stop_attempts w ∧
    reacquires w' = reacquires w ∧ drains w' = drains w ∧ answered w' = answered w ∧
    issued w' = issued w;
  hur_promoted a : a ∈ promotions w' ↔ a ∈ promotions w ∨ (is_hurried w' a ∧ ¬ is_hurried w a);
}.

Lemma hurries_refl w : hurries w w.
Proof.
  constructor; [|done|tauto]. intros a. exists false. by destruct (attempts w !! a).
Qed.

Lemma hurries_mono w w' a : hurries w w' → is_hurried w a → is_hurried w' a.
Proof.
  intros [Ha _ _]. unfold is_hurried, attempt. rewrite !lookup_total_alt.
  destruct (Ha a) as [b ->]. by destruct (attempts w !! a), b.
Qed.

Lemma hurries_trans w1 w2 w3 : hurries w1 w2 → hurries w2 w3 → hurries w1 w3.
Proof.
  intros H12 H23. constructor.
  - intros a. destruct (hur_attempts _ _ H12 a) as [b1 E1], (hur_attempts _ _ H23 a) as [b2 E2].
    exists (b1 || b2). rewrite E2, E1. by destruct (attempts w1 !! a) as [[]|], b1, b2.
  - destruct (hur_rest _ _ H12) as (?&?&?&?&?&?&?&?&?), (hur_rest _ _ H23) as (?&?&?&?&?&?&?&?&?).
    split_and!; congruence.
  - intros a. rewrite (hur_promoted _ _ H23), (hur_promoted _ _ H12).
    pose proof (hurries_mono _ _ a H12) as M12. pose proof (hurries_mono _ _ a H23) as M23.
    unfold is_hurried in *. destruct (hurried (attempt w1 a)), (hurried (attempt w2 a)), (hurried (attempt w3 a));
      naive_solver.
Qed.

Lemma hurries_successors w w' a : hurries w w' → successors w' a = successors w a.
Proof.
  intros [Ha _ _]. unfold successors, attempt. rewrite !lookup_total_alt.
  destruct (Ha a) as [b ->]. by destruct (attempts w !! a), b.
Qed.

Lemma hurries_lookup w w' a : hurries w w' → is_Some (attempts w !! a) ↔ is_Some (attempts w' !! a).
Proof. intros [Ha _ _]. destruct (Ha a) as [b ->]. by rewrite fmap_is_Some. Qed.

(** What is left for [hurry_loop] to do: the attempts not hurried yet, with
    their successors. *)
Definition unhurried_work (w : world) : nat :=
  map_sum (λ x, if hurried x then 0 else S (S (size (edges_out x)))) (attempts w).

Lemma successors_length w a x : attempts w !! a = Some x → length (successors w a) ≤ S (size (edges_out x)).
Proof.
  intros Hx. unfold successors. rewrite (attempt_lookup _ _ _ Hx), length_app.
  assert (length (elements (dom (edges_out x))) = size (edges_out x)) as -> by (by rewrite <- size_dom).
  assert (length (if bool_decide (phase x = pending) then option_list (predecessor x) else []) ≤ 1); [|lia].
  destruct (bool_decide _); [destruct (predecessor x)|]; simpl; lia.
Qed.

Definition hurry_one (a : nat) (w : world) : world := promote a (change a set_hurried w).

Lemma attempt_hurry_one w node x a :
  attempts w !! node = Some x →
  attempt (hurry_one node w) a =
    if decide (node = a) then with_flags (set_hurried (flags_of x)) x else attempt w a.
Proof.
  intros Hx. unfold attempt. rewrite !lookup_total_alt. unfold hurry_one. cbn [attempts promote].
  rewrite lookup_change. case_decide; [subst; by rewrite Hx|done].
Qed.

Lemma hurry_one_hurries w node x :
  attempts w !! node = Some x → hurried x = false → hurries w (hurry_one node w).
Proof.
  intros Hx Hh. constructor.
  - intros a. exists (bool_decide (node = a)). unfold hurry_one. cbn [attempts promote].
    rewrite lookup_change. case_bool_decide.
    + by rewrite decide_True.
    + rewrite decide_False by done. by destruct (attempts w !! a).
  - done.
  - intros a. unfold is_hurried. rewrite (attempt_hurry_one _ _ _ _ Hx). cbn [promotions promote hurry_one].
    rewrite elem_of_app, list_elem_of_singleton. case_decide as Ha; simpl.
    + subst. rewrite (attempt_lookup _ _ _ Hx), Hh. naive_solver.
    + naive_solver.
Qed.

Lemma hurry_one_work w node x :
  attempts w !! node = Some x → hurried x = false →
  unhurried_work (hurry_one node w) + S (S (size (edges_out x))) = unhurried_work w.
Proof.
  intros Hx Hh. unfold unhurried_work, hurry_one, change. cbn [attempts promote set_attempts].
  pose proof (map_sum_alter (λ x, if hurried x then 0 else S (S (size (edges_out x))))
    (λ x, with_flags (set_hurried (flags_of x)) x) _ node x Hx) as H.
  simpl in H. rewrite Hh in H. lia.
Qed.

Lemma hurry_loop_spec fuel stack w :
  known w → (∀ n, n ∈ stack → is_Some (attempts w !! n)) →
  (∀ a b, is_hurried w a → waits_on w a b → is_hurried w b ∨ b ∈ stack) →
  length stack + unhurried_work w ≤ fuel →
  let w' := hurry_loop fuel stack w in
  hurries w w' ∧ hurry_closed w' ∧ (∀ n, n ∈ stack → is_hurried w' n) ∧
  (∀ a, is_hurried w' a → is_hurried w a ∨ ∃ n, n ∈ stack ∧ rtc (waits_on w) n a).
Proof.
  assert (∀ w, (∀ a b, is_hurried w a → waits_on w a b → is_hurried w b ∨ b ∈ @nil nat) →
    hurries w w ∧ hurry_closed w ∧ (∀ n, n ∈ @nil nat → is_hurried w n) ∧
    (∀ a, is_hurried w a → is_hurried w a ∨ ∃ n, n ∈ @nil nat ∧ rtc (waits_on w) n a)) as Hdone.
  { intros w0 Hcl. split_and!; [apply hurries_refl| |by intros ? ?%elem_of_nil|by left].
    intros a b Ha Hab. destruct (Hcl a b Ha Hab) as [?|?%elem_of_nil]; done. }
  revert stack w. induction fuel as [|fuel IH]; intros stack w Hknown Hstack Hclosed Hfuel;
    (destruct stack as [|node rest]; [by apply Hdone|simpl in Hfuel; simpl]); [lia|].
  destruct (Hstack node) as [x Hx]; [left|]. rewrite (attempt_lookup _ _ _ Hx).
  destruct (hurried x) eqn:Hh.
  - assert (is_hurried w node) as Hnode by (unfold is_hurried; by rewrite (attempt_lookup _ _ _ Hx)).
    destruct (IH rest w) as (H1 & H2 & H3 & H4); [done|by intros; apply Hstack; right| |simpl in *; lia|].
    { intros a b Ha Hab. destruct (Hclosed a b Ha Hab) as [?|[->|?]%elem_of_cons]; auto. }
    split_and!; [done|done| |].
    + intros n [->|Hn]%elem_of_cons; [by eapply hurries_mono|auto].
    + intros a [?|(n & Hn & ?)]%H4; [by left|right]. exists n. split; [by right|done].
  - pose proof (hurry_one_hurries w node x Hx Hh) as Hone.
    pose proof (hurry_one_work w node x Hx Hh) as Hwork.
    pose proof (successors_length w node x Hx) as Hlen.
    assert (∀ a, successors (hurry_one node w) a = successors w a) as Hsucc
      by (intros a; by apply hurries_successors).
    destruct (IH (rev (successors w node) ++ rest) (hurry_one node w)) as (H1 & H2 & H3 & H4).
    + intros a b. unfold waits_on. rewrite Hsucc, <- (hurries_lookup _ _ _ Hone). apply Hknown.
    + intros n. rewrite <- (hurries_lookup _ _ _ Hone), elem_of_app, elem_of_rev.
      intros [Hn|Hn]; [by apply (Hknown node)|apply Hstack; by right].
    + intros a b. unfold is_hurried, waits_on. rewrite Hsucc, !(attempt_hurry_one _ _ _ _ Hx).
      rewrite elem_of_app, elem_of_rev. intros Ha Hab. destruct (decide (node = b)); [by left|].
      destruct (decide (node = a)) as [->|]; [right; by left|].
      destruct (Hclosed a b Ha Hab) as [?|[->|?]%elem_of_cons]; [by left|done|right; by right].
    + rewrite length_app, length_rev. lia.
    + fold (hurry_one node w). rewrite Hsucc. split_and!.
      * by eapply hurries_trans.
      * done.
      * intros n [->|Hn]%elem_of_cons; [|apply H3; rewrite elem_of_app; by right].
        eapply hurries_mono; [done|]. unfold is_hurried. rewrite (attempt_hurry_one _ _ _ _ Hx).
        by rewrite decide_True.
      * assert (∀ n a, rtc (waits_on (hurry_one node w)) n a → rtc (waits_on w) n a) as Hrtc.
        { intros n a. apply rtc_congruence with (f := id). unfold waits_on. intros ? ?. by rewrite Hsucc. }
        intros a [Ha|(n & Hn & Hna)]%H4.
        -- unfold is_hurried in Ha. rewrite (attempt_hurry_one _ _ _ _ Hx) in Ha.
           case_decide as E; [right; exists node; rewrite E; split; [left|done]|by left].
        -- right. apply Hrtc in Hna. rewrite elem_of_app, elem_of_rev in Hn. destruct Hn as [Hn|Hn].
           ++ exists node. split; [left|]. by eapply rtc_l.
           ++ exists n. split; [by right|done].
Qed.

Lemma hurry_spec a w :
  known w → is_Some (attempts w !! a) →
  (∀ b c, is_hurried w b → waits_on w b c → is_hurried w c ∨ c = a) →
  hurries w (hurry a w) ∧ hurry_closed (hurry a w) ∧ is_hurried (hurry a w) a ∧
  ∀ b, is_hurried (hurry a w) b → is_hurried w b ∨ rtc (waits_on w) a b.
Proof.
  intros Hknown Ha Hclosed.
  assert (unhurried_work w ≤ map_sum (λ x, S (S (size (edges_out x)))) (attempts w)) as Hle.
  { apply map_sum_le. intros x. destruct (hurried x); lia. }
  unfold hurry. destruct (hurry_loop_spec (hurry_work w) [a] w) as (H1 & H2 & H3 & H4); [done| | | |].
  - by intros n ->%list_elem_of_singleton.
  - intros b c Hb Hbc. rewrite list_elem_of_singleton. by apply (Hclosed b c).
  - unfold hurry_work. simpl. lia.
  - split_and!; [done|done|apply H3; left|]. intros b [?|(n & ->%list_elem_of_singleton & ?)]%H4; auto.
Qed.
