(* ===== verification/CoordinatorInv.v ===== *)
(** * The invariant of the coordinator

    Two groups of facts beyond [mirrored]: the graph of who waits on whom is
    acyclic and hurrying is closed under it ([graph_ok]); and permits, waits and
    the requests to take permits back fit together ([permits_ok]). Operations
    that change things in several steps break single facts in between, so
    [permits_ok] takes the attempts and waits that are excused for now. *)

From S2P Require Export Search.

(** ** The graph *)

Record graph_ok (w : world) : Prop := {
  gr_known : known w;
  gr_acyclic a : ¬ tc (waits_on w) a a;
  gr_hurried : hurry_closed w;
  gr_promoted a : a ∈ promotions w ↔ is_hurried w a;
}.

Lemma edge_total_pos w a b : edge_total w a b ≠ 0 ↔ ∃ i wt, waits w !! i = Some wt ∧ is_edge a b wt = true.
Proof.
  unfold edge_total. rewrite map_size_non_empty_iff. split.
  - intros (i & wt & H)%map_choose. apply map_lookup_filter_Some in H as [H1 H2]. by exists i, wt.
  - intros (i & wt & Hi & He) Hnil. apply (f_equal (.!! i)) in Hnil.
    rewrite lookup_empty in Hnil. apply map_lookup_filter_None in Hnil as [Hn|Hn]; [congruence|].
    by apply (Hn wt).
Qed.

Lemma is_edge_iff a b wt :
  is_edge a b wt = true ↔ wait_state wt = blocked ∧ requester wt = Some a ∧ target wt = b.
Proof. unfold is_edge. rewrite !andb_true_iff, !bool_decide_eq_true. tauto. Qed.

(** [waits_on], read off the waits and the flags. *)
Definition waits_for (w : world) (a b : nat) : Prop :=
  (∃ i wt, waits w !! i = Some wt ∧ wait_state wt = blocked ∧ requester wt = Some a ∧ target wt = b) ∨
  (∃ f, flags_at w a = Some f ∧ f_phase f = pending ∧ f_predecessor f = Some b).

Lemma waits_on_iff w a b : mirrored w → waits_on w a b ↔ waits_for w a b.
Proof.
  intros Hok. unfold waits_on, waits_for, successors. rewrite elem_of_app, elem_of_elements, elem_of_dom.
  destruct (attempts w !! a) as [x|] eqn:Hx.
  - rewrite (attempt_lookup _ _ _ Hx), (mir_edges _ Hok a x b Hx).
    assert (is_Some (to_count (edge_total w a b)) ↔ edge_total w a b ≠ 0) as ->.
    { unfold to_count. destruct (decide (edge_total w a b = 0)) as [E|E]; split; done. }
    rewrite edge_total_pos. setoid_rewrite is_edge_iff. apply or_iff_compat_l. split.
    + case_bool_decide as Hp; [|by intros ?%elem_of_nil]. destruct (predecessor x) as [p|] eqn:E; simpl;
        [|by intros ?%elem_of_nil]. intros ->%list_elem_of_singleton.
      exists (flags_of x). split; [apply flags_at_Some; by exists x|]. done.
    + intros (f & (x' & Hx' & ->)%flags_at_Some & Hp & Hpr). simplify_eq. simpl in *.
      rewrite bool_decide_true, Hpr by done. simpl. by apply list_elem_of_singleton.
  - unfold attempt. rewrite lookup_total_alt, Hx. simpl. split.
    + intros [[n Hn]|?%elem_of_nil]; [by rewrite lookup_empty in Hn|done].
    + intros [(i & wt & Hi & _ & Hr & _)|(f & Hf & _)].
      * by destruct (mir_requester _ Hok i wt a Hi Hr) as [? ?%mk_is_Some%not_eq_None_Some].
      * unfold flags_at in Hf. by rewrite Hx in Hf.
Qed.

Lemma is_hurried_flags w a : is_hurried w a ↔ ∃ f, flags_at w a = Some f ∧ f_hurried f = true.
Proof.
  unfold is_hurried, attempt, flags_at. rewrite lookup_total_alt. destruct (attempts w !! a) as [x|]; simpl.
  - split; [by exists (flags_of x)|by intros (? & [= <-] & ?)].
  - split; [done|by intros (? & ? & _)].
Qed.

Lemma flags_known w a : is_Some (flags_at w a) ↔ is_Some (attempts w !! a).
Proof. unfold flags_at. apply fmap_is_Some. Qed.

(** Fewer edges, the same attempts as hurried as before. *)
Lemma graph_shrink w w' :
  graph_ok w → (∀ a, is_Some (attempts w !! a) → is_Some (attempts w' !! a)) →
  (∀ a b, waits_on w' a b → waits_on w a b) →
  (∀ a, is_hurried w' a ↔ is_hurried w a) → promotions w' = promotions w → graph_ok w'.
Proof.
  intros [Hk Hac Hh Hp] Hknown Hsub Hhur Hprom. constructor.
  - intros a b Hab%Hsub. by apply Hknown, (Hk a).
  - intros a Ha. apply (Hac a). revert Ha. apply tc_congruence with (f := id). apply Hsub.
  - intros a b. rewrite !Hhur. intros Ha Hab%Hsub. by apply (Hh a).
  - intros a. by rewrite Hprom, Hp, Hhur.
Qed.

Lemma frame_hurried w w' a : frame w w' → is_hurried w' a ↔ is_hurried w a.
Proof. intros (Hf & _). by rewrite !is_hurried_flags, Hf. Qed.

Lemma frame_known w w' a : frame w w' → is_Some (attempts w !! a) → is_Some (attempts w' !! a).
Proof. intros (Hf & _). by rewrite <- !flags_known, Hf. Qed.

(** The waits that are blocked in [w'] were blocked in [w] already. *)
Lemma graph_frame w w' :
  mirrored w → mirrored w' → frame w w' →
  (∀ i wt, waits w' !! i = Some wt → wait_state wt = blocked → waits w !! i = Some wt) →
  graph_ok w → graph_ok w'.
Proof.
  intros Hm Hm' Hframe Hw Hok. pose proof Hframe as (Hf & _ & _ & _ & _ & _ & Hp).
  apply (graph_shrink w); try done.
  - intros a. by apply frame_known.
  - intros a b. rewrite !waits_on_iff by done. unfold waits_for. rewrite Hf. naive_solver.
  - intros a. by apply frame_hurried.
Qed.

Lemma answers_blocked w w' i wt :
  answers w w' → waits w' !! i = Some wt → wait_state wt ≠ done → waits w !! i = Some wt.
Proof.
  intros (_ & _ & H) Hi Hnd. destruct (H i) as [E|(wt0 & r & _ & _ & E)]; [congruence|].
  rewrite E in Hi. injection Hi as <-. by destruct Hnd.
Qed.

Lemma graph_answers w w' : mirrored w → answers w w' → graph_ok w → graph_ok w'.
Proof.
  intros Hm Ha. pose proof Ha as (Hm' & Hf & _). apply graph_frame; [done..|].
  intros i wt Hi Hb. eapply answers_blocked; [done..|congruence].
Qed.

(** A change of flags that gives no attempt that is not started a new
    predecessor and hurries nothing. *)
Lemma graph_change a g w :
  mirrored w →
  (∀ f, flags_at w a = Some f →
     f_hurried (g f) = f_hurried f ∧
     (f_phase (g f) = pending → f_phase f = pending ∧
        (f_predecessor (g f) = f_predecessor f ∨ f_predecessor (g f) = None))) →
  graph_ok w → graph_ok (change a g w).
Proof.
  intros Hm Hg Hok. apply (graph_shrink w); try done.
  - intros b. rewrite <- !flags_known, flags_change. case_decide; [|done].
    intros [f Hf]. rewrite Hf. by eexists.
  - intros b c. rewrite !waits_on_iff by (done || by apply mirrored_change). unfold waits_for.
    intros [?|(f' & Hf' & Hp & Hpr)]; [by left|right]. rewrite flags_change in Hf'.
    case_decide as Hab; [subst b|by exists f'].
    destruct (flags_at w a) as [f|] eqn:Hf; [|done]. simpl in Hf'. injection Hf' as <-.
    exists f. destruct (Hg f eq_refl) as [_ H]. destruct (H Hp) as [? [E|E]]; [|congruence].
    split_and!; congruence.
  - intros b. rewrite !is_hurried_flags, flags_change. case_decide as Hab; [subst b|done].
    destruct (flags_at w a) as [f|] eqn:Hf; simpl; [|done]. destruct (Hg f eq_refl) as [E _].
    split; intros (? & [= <-] & ?); eexists; (split; [done|congruence]).
Qed.

(** ** Permits *)

Definition nobody : nat → Prop := λ _, False.
Definition only (a : nat) : nat → Prop := λ b, b = a.

(** [E]: attempts being stopped, whose waits are still to be cancelled. [B]:
    waits whose target has completed and which are about to be told. [R]:
    attempts whose permit has just come back and whose waits are about to be. *)
Record permits_ok (E B R : nat → Prop) (w : world) : Prop := {
  pm_requests_once : NoDup (reacquires w ++ issued w);
  pm_requests a : a ∈ reacquires w ++ issued w ↔ ∃ f, flags_at w a = Some f ∧ f_outstanding f = true;
  pm_outstanding a f : flags_at w a = Some f → (f_outstanding f = true ↔ f_permit f = reacquiring);
  pm_lease a f : flags_at w a = Some f →
    (f_lease f = None ↔ f_permit f = none) ∧ (f_permit f = held ↔ f_lease f = Some true);
  pm_phase a f : flags_at w a = Some f →
    (f_permit f = none ↔ f_phase f = pending ∨ f_phase f = queued) ∧
    (f_phase f = ended → f_stopping f = true) ∧
    (f_stopping f = true → f_phase f = running ∨ f_phase f = ended);
  pm_running o a : m_running w !! o = Some a ↔
    output_at w a = Some o ∧ f_phase <$> flags_at w a = Some running;
  pm_requester i wt a f : waits w !! i = Some wt → active wt → requester wt = Some a →
    flags_at w a = Some f → ¬ E a → f_stopping f = false ∧ f_phase f = running;
  pm_held i wt a f : waits w !! i = Some wt → wait_state wt = blocked → requester wt = Some a →
    flags_at w a = Some f → ¬ R a → f_permit f ≠ held;
  pm_ready i wt : waits w !! i = Some wt → wait_state wt = ready →
    ∃ a f, requester wt = Some a ∧ flags_at w a = Some f ∧ (f_outstanding f = true ∨ R a);
  pm_blocked i wt f : waits w !! i = Some wt → wait_state wt = blocked → ¬ B i →
    flags_at w (target wt) = Some f → f_result f = None;
  pm_drain a f : flags_at w a = Some f → ¬ R a → f_drain f = true →
    f_phase f = ended ∧ f_outstanding f = true;
  pm_drains_once : NoDup (drains w);
  pm_drains a : a ∈ drains w → ∃ f, flags_at w a = Some f ∧ f_phase f = ended ∧ f_drain f = false ∧
    f_outstanding f = false;
  pm_ended_request a f : flags_at w a = Some f → ¬ E a → f_phase f = ended →
    f_outstanding f = true → f_drain f = true;
}.

Record inv (w : world) : Prop := {
  inv_mirrored : mirrored w;
  inv_graph : graph_ok w;
  inv_permits : permits_ok nobody nobody nobody w;
}.

Lemma permits_weaken (E B R E' B' R' : nat → Prop) w :
  (∀ a, E a → E' a) → (∀ i, B i → B' i) → (∀ a, R a → R' a) →
  permits_ok E B R w → permits_ok E' B' R' w.
Proof.
  intros HE HB HR []. constructor; try done.
  - intros i wt a f ? ? ? ? Hn. eapply pm_requester0; eauto.
  - intros i wt a f ? ? ? ? Hn. eapply pm_held0; eauto.
  - intros i wt ? ?. destruct (pm_ready0 i wt) as (a & f & ? & ? & ?); [done..|]. exists a, f. naive_solver.
  - intros i wt f ? ? Hn. eapply pm_blocked0; eauto.
  - intros a f ? Hn. eapply pm_drain0; eauto.
  - intros a f ? Hn. eapply pm_ended_request0; eauto.
Qed.

(** Waits that stopped being blocked, or active, take nothing away. *)
Lemma permits_frame E B R w w' :
  frame w w' →
  (∀ i wt, waits w' !! i = Some wt → wait_state wt ≠ done → waits w !! i = Some wt) →
  permits_ok E B R w → permits_ok E B R w'.
Proof.
  intros (Hf & Ho & Hr & Hre & His & Hd & _) Hw [].
  constructor; rewrite ?Hre, ?His, ?Hr, ?Hd; try setoid_rewrite Hf; try setoid_rewrite Ho; try done.
  - intros i wt a f Hi Hact. by eapply pm_requester0; eauto.
  - intros i wt a f Hi Hb. eapply pm_held0; [apply Hw; [done|congruence]|done].
  - intros i wt Hi Hst. eapply (pm_ready0 i); [apply Hw; [done|congruence]|done].
  - intros i wt f Hi Hb. eapply pm_blocked0; [apply Hw; [done|congruence]|done].
Qed.

Lemma permits_answers E B R w w' : answers w w' → permits_ok E B R w → permits_ok E B R w'.
Proof.
  intros Ha. pose proof Ha as (_ & Hf & _). apply permits_frame; [done|].
  intros i wt. by apply answers_blocked.
Qed.

Lemma inv_answers w w' : inv w → answers w w' → inv w'.
Proof.
  intros [Hm Hg Hp] Ha. split.
  - apply Ha.
  - by eapply graph_answers.
  - by eapply permits_answers.
Qed.

(** Worlds that differ only in what the invariant does not look at. *)
Lemma inv_same w w' :
  attempts w' = attempts w → waits w' = waits w → m_waits w' = m_waits w →
  m_running w' = m_running w → reacquires w' = reacquires w → issued w' = issued w →
  drains w' = drains w → promotions w' = promotions w → inv w → inv w'.
Proof.
  intros Ha Hw Hm Hr Hre His Hd Hp Hinv. apply (inv_answers w); [done|]. split_and!.
  - eapply mirrored_same_links; [..|apply Hinv]; [done|done|intros a; by rewrite Ha].
  - split_and!; try done; intros a; unfold flags_at, output_at; by rewrite Ha.
  - intros i. left. by rewrite Hw.
Qed.

(** ** Changing one attempt's flags *)

Lemma flags_change_inv a g w b f' :
  flags_at (change a g w) b = Some f' →
  ∃ f, flags_at w b = Some f ∧ f' = if decide (a = b) then g f else f.
Proof.
  rewrite flags_change. case_decide; [|by exists f'].
  destruct (flags_at w b) as [f|]; simpl; [|done]. intros [= <-]. by exists f.
Qed.

Lemma flags_change_eq a g w f : flags_at w a = Some f → flags_at (change a g w) a = Some (g f).
Proof. intros Hf. by rewrite flags_change, decide_True, Hf. Qed.

(** A change that alters none of the flags below. *)
Lemma permits_change E B R a g w :
  (∀ f, flags_at w a = Some f →
     f_phase (g f) = f_phase f ∧ f_permit (g f) = f_permit f ∧ f_stopping (g f) = f_stopping f ∧
     f_result (g f) = f_result f ∧ f_lease (g f) = f_lease f ∧ f_outstanding (g f) = f_outstanding f ∧
     f_drain (g f) = f_drain f) →
  permits_ok E B R w → permits_ok E B R (change a g w).
Proof.
  intros Hg [].
  assert (∀ b f', flags_at (change a g w) b = Some f' → ∃ f, flags_at w b = Some f ∧
    f_phase f' = f_phase f ∧ f_permit f' = f_permit f ∧ f_stopping f' = f_stopping f ∧
    f_result f' = f_result f ∧ f_lease f' = f_lease f ∧ f_outstanding f' = f_outstanding f ∧
    f_drain f' = f_drain f) as Hback.
  { intros b f' (f & Hf & ->)%flags_change_inv. exists f. split; [done|].
    case_decide; [subst; by apply Hg|done]. }
  assert (∀ b f, flags_at w b = Some f → ∃ f', flags_at (change a g w) b = Some f' ∧
    f_phase f' = f_phase f ∧ f_outstanding f' = f_outstanding f ∧ f_drain f' = f_drain f) as Hfwd.
  { intros b f Hf. rewrite flags_change, Hf. case_decide; [subst|by exists f].
    exists (g f). split; [done|]. by destruct (Hg f Hf) as (? & _ & _ & _ & _ & ? & ?). }
  constructor; simpl; try done.
  - intros b. rewrite pm_requests0. split.
    + intros (f & Hf & Ho). destruct (Hfwd b f Hf) as (f' & ? & _ & E' & _). exists f'. by rewrite E'.
    + intros (f' & (f & ? & ? & ? & ? & ? & ? & Eo & ?)%Hback & Ho). exists f. by rewrite <- Eo.
  - intros b f' (f & Hf & ? & -> & ? & ? & ? & -> & ?)%Hback. by apply (pm_outstanding0 b).
  - intros b f' (f & Hf & ? & -> & ? & ? & -> & ? & ?)%Hback. by apply (pm_lease0 b).
  - intros b f' (f & Hf & -> & -> & -> & ? & ? & ? & ?)%Hback. by apply (pm_phase0 b).
  - intros o b. rewrite pm_running0, output_change. apply and_iff_compat_l. split.
    + intros (f & Hf & E')%fmap_Some. destruct (Hfwd b f Hf) as (f' & -> & E1 & _). simpl. by rewrite E1, E'.
    + intros (f' & (f & -> & E1 & _)%Hback & E')%fmap_Some. simpl. by rewrite <- E1, <- E'.
  - intros i wt b f' Hi Hact Hr (f & Hf & -> & ? & -> & _)%Hback. by eapply pm_requester0.
  - intros i wt b f' Hi Hact Hr (f & Hf & ? & -> & _)%Hback. by eapply pm_held0.
  - intros i wt Hi Hst. destruct (pm_ready0 i wt Hi Hst) as (b & f & Hb & Hf & Ho).
    destruct (Hfwd b f Hf) as (f' & Hf' & _ & E' & _). exists b, f'. by rewrite E'.
  - intros i wt f' Hi Hb Hnb (f & Hf & ? & ? & ? & -> & _)%Hback. by eapply pm_blocked0.
  - intros b f' (f & Hf & -> & ? & ? & ? & ? & -> & ->)%Hback. by apply (pm_drain0 b).
  - intros b (f & Hf & ? & ? & ?)%pm_drains0. destruct (Hfwd b f Hf) as (f' & ? & E1 & E2 & E3).
    exists f'. by rewrite E1, E2, E3.
  - intros b f' (f & Hf & -> & ? & ? & ? & ? & -> & ->)%Hback. by apply (pm_ended_request0 b).
Qed.

Lemma requests_at E B R w a f :
  permits_ok E B R w → flags_at w a = Some f → a ∈ reacquires w ++ issued w ↔ f_outstanding f = true.
Proof.
  intros Hok Hf. rewrite (pm_requests _ _ _ _ Hok), Hf. split; [by intros (? & [= <-] & ?)|by exists f].
Qed.

Lemma running_at E B R w a f o :
  permits_ok E B R w → flags_at w a = Some f →
  m_running w !! o = Some a ↔ output_at w a = Some o ∧ f_phase f = running.
Proof.
  intros Hok Hf. rewrite (pm_running _ _ _ _ Hok), Hf. simpl.
  apply and_iff_compat_l. split; [by intros [= ->]|by intros ->].
Qed.

(** What one attempt's own flags must agree on. *)
Record flags_ok (f : flags) : Prop := {
  fl_outstanding : f_outstanding f = true ↔ f_permit f = reacquiring;
  fl_lease : (f_lease f = None ↔ f_permit f = none) ∧ (f_permit f = held ↔ f_lease f = Some true);
  fl_phase : (f_permit f = none ↔ f_phase f = pending ∨ f_phase f = queued) ∧
    (f_phase f = ended → f_stopping f = true) ∧
    (f_stopping f = true → f_phase f = running ∨ f_phase f = ended);
}.

Lemma permits_flags E B R w a f : permits_ok E B R w → flags_at w a = Some f → flags_ok f.
Proof.
  intros [] Hf. split; [by apply (pm_outstanding0 a)|by apply (pm_lease0 a)|by apply (pm_phase0 a)].
Qed.

Lemma not_outstanding f : flags_ok f → f_permit f ≠ reacquiring → f_outstanding f = false.
Proof. intros [Ho _ _] Hp. destruct (f_outstanding f); [|done].
  destruct Hp. by apply Ho. Qed.

(** A world that differs from [w] in what [a]'s flags are, and in the lists [a]
    is on accordingly. *)
Record differs_at (a : nat) (f f' : flags) (w w' : world) : Prop := {
  df_flag : flags_at w a = Some f;
  df_flags b : flags_at w' b = if decide (a = b) then Some f' else flags_at w b;
  df_outputs b : output_at w' b = output_at w b;
  df_waits : waits w' = waits w;
  df_requests_once : NoDup (reacquires w' ++ issued w');
  df_requests b : b ∈ reacquires w' ++ issued w' ↔
    if decide (a = b) then f_outstanding f' = true else b ∈ reacquires w ++ issued w;
  df_running o b : m_running w' !! o = Some b ↔
    if decide (a = b) then output_at w a = Some o ∧ f_phase f' = running else m_running w !! o = Some b;
  df_drains_once : NoDup (drains w');
  df_drains b : b ∈ drains w' → if decide (a = b) then f_phase f' = ended ∧ f_drain f' = false ∧
    f_outstanding f' = false else b ∈ drains w;
}.

Lemma permits_differ (E B R E' B' R' : nat → Prop) a f f' w w' :
  permits_ok E B R w → differs_at a f f' w w' → flags_ok f' →
  (∀ b, b ≠ a → (E b → E' b) ∧ (R b → R' b)) → (∀ i, B i → B' i) →
  (∀ i wt, waits w !! i = Some wt → active wt → requester wt = Some a → ¬ E' a →
     f_stopping f' = false ∧ f_phase f' = running) →
  (∀ i wt, waits w !! i = Some wt → wait_state wt = blocked → requester wt = Some a → ¬ R' a →
     f_permit f' ≠ held) →
  (∀ i wt, waits w !! i = Some wt → wait_state wt = ready → requester wt = Some a →
     f_outstanding f' = true ∨ R' a) →
  (∀ i wt, waits w !! i = Some wt → wait_state wt = blocked → target wt = a → ¬ B' i →
     f_result f' = None) →
  (¬ E' a → f_phase f' = ended → f_outstanding f' = true → f_drain f' = true) →
  (¬ R' a → f_drain f' = true → f_phase f' = ended ∧ f_outstanding f' = true) →
  permits_ok E' B' R' w'.
Proof.
  intros [] [Hf Hflags Hout Hwaits Honce Hreq Hrun Hdonce Hdr] [] Hexc HB Hstop Hheld Hready Hres Hended Hdrain.
  assert (∀ b f2, flags_at w' b = Some f2 → (b = a ∧ f2 = f') ∨ (b ≠ a ∧ flags_at w b = Some f2)) as Hback.
  { intros b f2. rewrite Hflags. case_decide; [intros [= <-]; by left|]. by right. }
  constructor; try rewrite Hwaits; try done.
  - intros b. rewrite Hreq, Hflags. case_decide.
    + split; [intros H'; by exists f'|by intros (? & [= <-] & ?)].
    + apply pm_requests0.
  - intros b f2 [[-> ->]|[_ H]]%Hback; [done|by apply (pm_outstanding0 b)].
  - intros b f2 [[-> ->]|[_ H]]%Hback; [done|by apply (pm_lease0 b)].
  - intros b f2 [[-> ->]|[_ H]]%Hback; [done|by apply (pm_phase0 b)].
  - intros o b. rewrite Hrun, Hout, Hflags. case_decide; [subst b; simpl|apply pm_running0].
    apply and_iff_compat_l. split; [by intros ->|by intros [= ->]].
  - intros i wt b f2 Hi Hact Hr [[-> ->]|[Hne H]]%Hback He; [by eapply Hstop|].
    eapply pm_requester0; [done..|]. destruct (Hexc b Hne). tauto.
  - intros i wt b f2 Hi Hact Hr [[-> ->]|[Hne H]]%Hback He; [by eapply Hheld|].
    eapply pm_held0; [done..|]. destruct (Hexc b Hne). tauto.
  - intros i wt Hi Hst. destruct (pm_ready0 i wt Hi Hst) as (b & f2 & Hb & Hf2 & Ho).
    destruct (decide (a = b)) as [<-|Hne].
    + exists a, f'. rewrite Hflags, decide_True by done. split_and!; [done..|]. by eapply Hready.
    + exists b, f2. rewrite Hflags, decide_False by done. split_and!; [done..|].
      destruct (Hexc b) as [_ ?]; [done|]. tauto.
  - intros i wt f2 Hi Hb Hnb [[Ht ->]|[Hne H]]%Hback; [by eapply Hres|].
    eapply pm_blocked0; [done..| |done]. auto.
  - intros b f2 [[-> ->]|[Hne H]]%Hback HR; [auto|]. eapply pm_drain0; [done|].
    destruct (Hexc b Hne). tauto.
  - intros b Hb%Hdr. rewrite Hflags. case_decide; [by exists f'|by apply pm_drains0].
  - intros b f2 [[-> ->]|[Hne H]]%Hback HE; [auto|]. eapply pm_ended_request0; [done|].
    destruct (Hexc b Hne). tauto.
Qed.

(** ** Steps of the operations *)

Lemma differs_change E B R a f g w :
  permits_ok E B R w → flags_at w a = Some f →
  f_outstanding (g f) = f_outstanding f → (f_phase (g f) = running ↔ f_phase f = running) →
  (f_phase f = ended → f_phase (g f) = ended ∧ f_drain (g f) = f_drain f) →
  differs_at a f (g f) w (change a g w).
Proof.
  intros Hok Hf Hout Hrun Hend. constructor; simpl; try done.
  - intros b. rewrite flags_change. case_decide; [subst; by rewrite Hf|done].
  - intros b. apply output_change.
  - apply (pm_requests_once _ _ _ _ Hok).
  - intros b. case_decide; [subst b|done]. rewrite Hout. by apply (requests_at E B R).
  - intros o b. case_decide; [subst b|done]. rewrite Hrun. by apply (running_at E B R).
  - apply (pm_drains_once _ _ _ _ Hok).
  - intros b Hb. case_decide; [subst b|done].
    apply (pm_drains _ _ _ _ Hok) in Hb as (f0 & Hf0 & He & Hd & Ho). rewrite Hf in Hf0. injection Hf0 as <-.
    destruct (Hend He) as [-> ->]. by rewrite Hout.
Qed.

Lemma permits_mono_waits (E B R : nat → Prop) a w f :
  permits_ok E B R w → flags_at w a = Some f →
  (∀ i wt, waits w !! i = Some wt → active wt → requester wt = Some a → ¬ E a →
     f_stopping f = false ∧ f_phase f = running) ∧
  (∀ i wt, waits w !! i = Some wt → wait_state wt = blocked → requester wt = Some a → ¬ R a →
     f_permit f ≠ held) ∧
  (∀ i wt, waits w !! i = Some wt → wait_state wt = ready → requester wt = Some a →
     f_outstanding f = true ∨ R a) ∧
  (∀ i wt, waits w !! i = Some wt → wait_state wt = blocked → target wt = a → ¬ B i →
     f_result f = None) ∧
  (¬ E a → f_phase f = ended → f_outstanding f = true → f_drain f = true) ∧
  (¬ R a → f_drain f = true → f_phase f = ended ∧ f_outstanding f = true).
Proof.
  intros Hok Hf. split_and!;
    [intros i wt Hi Hst Hr|intros i wt Hi Hst Hr|intros i wt Hi Hst Hr|intros i wt Hi Hst Hr| |];
    [intros HE| intros HR| |intros HB|by apply (pm_ended_request _ _ _ _ Hok)
    |by apply (pm_drain _ _ _ _ Hok)].
  - by eapply (pm_requester _ _ _ _ Hok).
  - by eapply (pm_held _ _ _ _ Hok).
  - destruct (pm_ready _ _ _ _ Hok i wt Hi Hst) as (b & f0 & Hb & Hf0 & Ho).
    rewrite Hr in Hb. injection Hb as <-. rewrite Hf in Hf0. injection Hf0 as <-. done.
  - eapply (pm_blocked _ _ _ _ Hok); [done..|]. by rewrite Hr.
Qed.

Definition give_back_flags (f : flags) : flags :=
  set_lease (match f_lease f with Some _ => Some false | None => None end) (set_permit released f).

Lemma give_back_permits E B R a f w :
  permits_ok E B R w → flags_at w a = Some f → f_permit f = held → permits_ok E B R (give_back a w).
Proof.
  intros Hok Hf Hheld. pose proof (permits_flags _ _ _ _ _ _ Hok Hf) as Hfl.
  destruct (permits_mono_waits _ _ _ _ _ _ Hok Hf) as (H1 & H2 & H3 & H4 & H5 & H6).
  apply (permits_differ E B R _ _ _ a f (give_back_flags f) w); try done.
  - by apply (differs_change E B R a f give_back_flags).
  - pose proof Hfl as [Ho [Hl1 Hl2] [Hp1 [Hp2 Hp3]]]. rewrite Hheld in *.
    assert (f_lease f = Some true) as Hlease by tauto.
    assert (f_outstanding f = false) as Hout by (apply not_outstanding; [done|congruence]).
    unfold give_back_flags. constructor; simpl; rewrite ?Hlease, ?Hout; naive_solver.
Qed.

Lemma give_back_mirrored_graph a w :
  mirrored w → graph_ok w → mirrored (give_back a w) ∧ graph_ok (give_back a w).
Proof.
  intros Hm Hg. split; [by apply mirrored_change|]. apply graph_change; [done| |done].
  intros f _. simpl. auto.
Qed.

Definition reacquire_flags (f : flags) : flags := set_outstanding true (set_permit reacquiring f).

Lemma reacquire_permits E B R a f w :
  permits_ok E B R w → flags_at w a = Some f → f_permit f = released → f_stopping f = false →
  permits_ok E B R (reacquire a w).
Proof.
  intros Hok Hf Hrel Hstop. pose proof (permits_flags _ _ _ _ _ _ Hok Hf) as Hfl.
  destruct (permits_mono_waits _ _ _ _ _ _ Hok Hf) as (H1 & H2 & H3 & H4 & H5 & H6).
  assert (f_outstanding f = false) as Hout by (apply not_outstanding; [done|congruence]).
  pose proof Hfl as [Ho [Hl1 Hl2] [Hp1 [Hp2 Hp3]]]. rewrite Hrel in *.
  assert (f_phase f ≠ ended) as Hne by (intros E1; rewrite Hp2 in Hstop; done).
  assert (a ∉ reacquires w ++ issued w) as Hnew.
  { rewrite (pm_requests _ _ _ _ Hok), Hf. naive_solver. }
  apply (permits_differ E B R _ _ _ a f (reacquire_flags f) w); try done.
  - constructor; simpl; try done.
    + intros b. transitivity (flags_at (change a reacquire_flags w) b); [done|]. rewrite flags_change.
      case_decide; [subst; by rewrite Hf|done].
    + intros b. apply output_change.
    + rewrite <- app_assoc. simpl. rewrite <- Permutation_middle. apply NoDup_cons.
      split; [done|]. apply (pm_requests_once _ _ _ _ Hok).
    + intros b. rewrite <- app_assoc. simpl. rewrite <- Permutation_middle, elem_of_cons.
      case_decide; [subst; naive_solver|]. naive_solver.
    + intros o b. case_decide; [subst b|done]. by apply (running_at E B R).
    + apply (pm_drains_once _ _ _ _ Hok).
    + intros b Hb. case_decide; [subst b|done].
      apply (pm_drains _ _ _ _ Hok) in Hb as (f0 & Hf0 & He0 & _). congruence.
  - constructor; simpl; naive_solver.
  - intros. simpl. by left.
  - intros HR Hdr. by destruct (H6 HR Hdr).
Qed.
