(* ===== verification/CoordinatorOps.v ===== *)
(** * Every operation of the coordinator keeps its invariant

    Each lemma also says what the operation does to waits and flags, which the
    coordinator's promises (CoordinatorSpec) are read off. *)

From S2P Require Export CoordinatorInv.

(** What every step of an operation keeps, whoever is excused from [permits_ok]. *)
Record keeps (E B R : nat → Prop) (w : world) : Prop := {
  kp_mirrored : mirrored w;
  kp_graph : graph_ok w;
  kp_permits : permits_ok E B R w;
}.

Lemma inv_keeps w : inv w ↔ keeps nobody nobody nobody w.
Proof. split; by intros [? ? ?]. Qed.

Lemma keeps_answers E B R w w' : keeps E B R w → answers w w' → keeps E B R w'.
Proof.
  intros [Hm Hg Hp] Ha. split; [apply Ha|by eapply graph_answers|by eapply permits_answers].
Qed.

Lemma attempt_flags w a f :
  flags_at w a = Some f →
  phase (attempt w a) = f_phase f ∧ permit (attempt w a) = f_permit f ∧
  stopping (attempt w a) = f_stopping f ∧ reacquire_outstanding (attempt w a) = f_outstanding f ∧
  drain (attempt w a) = f_drain f ∧ hurried (attempt w a) = f_hurried f ∧
  result (attempt w a) = f_result f ∧ lease (attempt w a) = f_lease f ∧ doomed (attempt w a) = f_doomed f.
Proof. intros (x & Hx & ->)%flags_at_Some. by rewrite (attempt_lookup _ _ _ Hx). Qed.

Lemma flags_Some w a : is_Some (attempts w !! a) → ∃ f, flags_at w a = Some f.
Proof. intros [x Hx]. exists (flags_of x). apply flags_at_Some. by exists x. Qed.

Lemma flags_attempt w a f : flags_at w a = Some f → ∃ x, attempts w !! a = Some x.
Proof. intros (x & Hx & _)%flags_at_Some. by exists x. Qed.

(** The requests of [a], as its own list has them. *)
Lemma elem_of_waits_by_me w a i :
  mirrored w → is_Some (attempts w !! a) →
  i ∈ waits_by_me (attempt w a) ↔ ∃ wt, waits w !! i = Some wt ∧ active wt ∧ requester wt = Some a.
Proof. intros Hm [x Hx]. rewrite (attempt_lookup _ _ _ Hx). by apply mir_by. Qed.

Lemma elem_of_waits_on_me w a i :
  mirrored w → is_Some (attempts w !! a) →
  i ∈ waits_on_me (attempt w a) ↔ ∃ wt, waits w !! i = Some wt ∧ wait_state wt = blocked ∧ target wt = a.
Proof. intros Hm [x Hx]. rewrite (attempt_lookup _ _ _ Hx). by apply mir_on. Qed.

Lemma blocked_active wt : wait_state wt = blocked → active wt.
Proof. unfold active. congruence. Qed.

Lemma ready_active wt : wait_state wt = ready → active wt.
Proof. unfold active. congruence. Qed.

Lemma any_blocked w a :
  mirrored w → is_Some (attempts w !! a) →
  existsb (is_blocked w) (waits_by_me (attempt w a)) = true ↔
  ∃ i wt, waits w !! i = Some wt ∧ wait_state wt = blocked ∧ requester wt = Some a.
Proof.
  intros Hm Ha. rewrite existsb_exists. split.
  - intros (i & Hin & Hb). apply list_elem_of_In in Hin.
    apply (elem_of_waits_by_me w a i Hm Ha) in Hin as (wt & Hi & _ & Hr).
    unfold is_blocked in Hb. rewrite (wait_lookup _ _ _ Hi) in Hb. apply bool_decide_eq_true in Hb.
    by exists i, wt.
  - intros (i & wt & Hi & Hb & Hr). exists i. split.
    + apply list_elem_of_In, elem_of_waits_by_me; [done..|]. exists wt. split_and!; [done|by apply blocked_active|done].
    + unfold is_blocked. rewrite (wait_lookup _ _ _ Hi). by apply bool_decide_eq_true.
Qed.

(** ** Giving permits back *)

Lemma give_back_keeps E B R a f w :
  keeps E B R w → flags_at w a = Some f → f_permit f = held → keeps E B R (give_back a w).
Proof.
  intros [Hm Hg Hp] Hf Hheld. destruct (give_back_mirrored_graph a w Hm Hg).
  split; [done|done|by eapply give_back_permits].
Qed.

Lemma give_back_if_waiting_keeps E B R a f w :
  keeps E B R w → flags_at w a = Some f → keeps E B R (give_back_if_waiting a w).
Proof.
  intros Hk Hf. unfold give_back_if_waiting. destruct (_ && _) eqn:Hc; [|done]. bool_to_prop.
  destruct (attempt_flags w a f Hf) as (_ & E1 & _). apply (give_back_keeps E B R a f); congruence.
Qed.

(** The excuse of an attempt whose permit came back ends once it has given the
    permit back again if it has to. *)
Lemma permits_unexcuse E B R a f w :
  permits_ok E B R w → flags_at w a = Some f →
  (∀ i wt, waits w !! i = Some wt → wait_state wt = blocked → requester wt = Some a → f_permit f ≠ held) →
  (∀ i wt, waits w !! i = Some wt → wait_state wt = ready → requester wt = Some a → f_outstanding f = true) →
  (f_drain f = true → f_phase f = ended ∧ f_outstanding f = true) →
  permits_ok E B (λ b, b ≠ a ∧ R b) w.
Proof.
  intros Hp Hf Hb Hr Hd. constructor; try (by destruct Hp).
  - intros i wt b fb Hi Hbl Hreq Hfb Hn. destruct (decide (b = a)) as [->|Hne].
    + rewrite Hf in Hfb. injection Hfb as <-. by eapply Hb.
    + eapply (pm_held _ _ _ _ Hp); [done..|]. naive_solver.
  - intros i wt Hi Hst. destruct (pm_ready _ _ _ _ Hp i wt Hi Hst) as (b & fb & Hreq & Hfb & Ho).
    exists b, fb. split_and!; [done..|]. destruct (decide (b = a)) as [->|Hne]; [|tauto].
    rewrite Hf in Hfb. injection Hfb as <-. left. by eapply Hr.
  - intros b fb Hfb Hn. destruct (decide (b = a)) as [->|Hne].
    + rewrite Hf in Hfb. by injection Hfb as <-.
    + apply (pm_drain _ _ _ _ Hp b fb Hfb). tauto.
Qed.

Lemma give_back_if_waiting_fits B R a f w :
  keeps nobody B R w → flags_at w a = Some f →
  keeps nobody B R (give_back_if_waiting a w) ∧
  ∃ f', flags_at (give_back_if_waiting a w) a = Some f' ∧ (f' = f ∨ f' = give_back_flags f) ∧
    ∀ i wt, waits w !! i = Some wt → wait_state wt = blocked → requester wt = Some a → f_permit f' ≠ held.
Proof.
  intros Hk Hf. pose proof Hk as [Hm Hg Hp]. destruct (attempt_flags w a f Hf) as (_ & Eper & Est & _).
  pose proof (flags_attempt _ _ _ Hf) as Hx.
  split; [by eapply give_back_if_waiting_keeps|]. unfold give_back_if_waiting.
  destruct (bool_decide (permit (attempt w a) = held)) eqn:Hheld; simpl; bool_to_prop.
  2:{ exists f. split_and!; [done|by left|congruence]. }
  destruct (negb (stopping (attempt w a)) && existsb (is_blocked w) (waits_by_me (attempt w a))) eqn:Hc.
  - exists (give_back_flags f). split_and!; [by apply (flags_change_eq a give_back_flags)|by right|done].
  - exists f. split_and!; [done|by left|]. intros i wt Hi Hb Hr. exfalso.
    assert (f_stopping f = false) as Hns.
    { destruct (pm_requester _ _ _ _ Hp i wt a f) as [? _];
        [done|by apply blocked_active|done|done|by intros []|done]. }
    rewrite Est, Hns in Hc. simpl in Hc. apply not_true_iff_false in Hc. apply Hc.
    apply any_blocked; [done|done|]. by exists i, wt.
Qed.

(** ** Cancelling the waits of an attempt *)

Lemma cancel_waits_of_spec a w :
  mirrored w → is_Some (attempts w !! a) →
  answers w (cancel_waits_of a w) ∧
  (∀ i wt, waits w !! i = Some wt → active wt → requester wt = Some a →
     waits (cancel_waits_of a w) !! i = Some (settle done canceled wt)) ∧
  (∀ i wt, waits w !! i = Some wt → ¬ (active wt ∧ requester wt = Some a) →
     waits (cancel_waits_of a w) !! i = Some wt).
Proof.
  intros Hm Ha. pose proof (λ i, elem_of_waits_by_me w a i Hm Ha) as Hby.
  destruct (answers_fold (λ _ _, Some canceled) (waits_by_me (attempt w a)) w Hm) as (H1 & H2 & H3).
  - destruct Ha as [x Hx]. rewrite (attempt_lookup _ _ _ Hx). by apply (mir_by_nodup _ Hm a).
  - intros i (wt & ? & ? & _)%Hby. by exists wt.
  - split_and!; [done| |].
    + intros i wt Hi Hact Hr. destruct (H3 i wt) as (_ & _ & _ & E); [|done|done].
      apply Hby. by exists wt.
    + intros i wt Hi Hno. unfold cancel_waits_of. rewrite H2; [done|].
      intros (wt' & Hi' & ? & ?)%Hby. apply Hno. by simplify_eq.
Qed.

(** [a] is stopped, its waits not yet cancelled. *)
Lemma set_stopping_permits a f w :
  inv w → flags_at w a = Some f → f_phase f = running →
  keeps (only a) nobody nobody (change a set_stopping w).
Proof.
  intros [Hm Hg Hp] Hf Hrun. pose proof (permits_flags _ _ _ _ _ _ Hp Hf) as Hfl.
  destruct (permits_mono_waits _ _ _ _ _ _ Hp Hf) as (H1 & H2 & H3 & H4 & H5 & H6).
  split; [by apply mirrored_change|apply graph_change; [done| |done]; intros f0 _; simpl; auto|].
  apply (permits_differ nobody nobody nobody _ _ _ a f (set_stopping f) w); try done.
  - by apply (differs_change nobody nobody nobody a f set_stopping).
  - destruct Hfl as [? [? ?] [? [? ?]]]. constructor; simpl; try done. split_and!; auto.
Qed.

(** Once its waits are cancelled [a] is no longer excused. *)
Lemma permits_stopped a w w' :
  permits_ok (only a) nobody nobody w → answers w w' →
  (∀ i wt, waits w' !! i = Some wt → active wt → requester wt ≠ Some a) →
  (∀ f, flags_at w' a = Some f → f_phase f ≠ ended) →
  permits_ok nobody nobody nobody w'.
Proof.
  intros Hp Ha Hno Hne. apply (permits_answers _ _ _ w w' Ha) in Hp. constructor; try (by destruct Hp).
  - intros i wt b f Hi Hact Hr Hf _. eapply (pm_requester _ _ _ _ Hp); [done..|]. intros ->. by eapply Hno.
  - intros b f Hf _ He. apply (pm_ended_request _ _ _ _ Hp b f Hf); [|done]. intros ->. by eapply Hne.
Qed.

Lemma push_same_keeps w w' :
  attempts w' = attempts w → waits w' = waits w → m_waits w' = m_waits w →
  m_running w' = m_running w → reacquires w' = reacquires w → issued w' = issued w →
  drains w' = drains w → promotions w' = promotions w →
  (∀ a, flags_at w' a = flags_at w a) ∧ (inv w → inv w').
Proof.
  intros. split; [intros a; unfold flags_at; congruence|by apply inv_same].
Qed.

Lemma stop_attempt_spec a f w :
  inv w → flags_at w a = Some f → f_phase f = running →
  inv (stop_attempt a w) ∧
  (∀ b, flags_at (stop_attempt a w) b = if decide (a = b) then Some (set_stopping f) else flags_at w b) ∧
  (∀ i wt, waits w !! i = Some wt →
     waits (stop_attempt a w) !! i =
       Some (if decide (active wt ∧ requester wt = Some a) then settle done canceled wt else wt)) ∧
  m_running (stop_attempt a w) = m_running w.
Proof.
  intros Hinv Hf Hrun. pose proof (set_stopping_permits a f w Hinv Hf Hrun) as Hk.
  set (w1 := change a set_stopping w) in *.
  assert (is_Some (attempts w1 !! a)) as Ha1.
  { apply flags_known. unfold w1. rewrite (flags_change_eq _ _ _ _ Hf). by eexists. }
  destruct (cancel_waits_of_spec a w1) as (Hans & Hc1 & Hc2); [apply Hk|done|].
  set (w2 := cancel_waits_of a w1) in *.
  assert (inv w2) as Hinv2.
  { destruct Hk as [Hm Hg Hp]. split; [apply Hans|by eapply graph_answers|].
    apply (permits_stopped a w1); [done|done| |].
    2:{ intros f2. destruct Hans as (_ & (Hfr & _) & _). rewrite Hfr. unfold w1.
        rewrite (flags_change_eq _ _ _ _ Hf). intros [= <-]. simpl. congruence. }
    intros i wt Hi Hact Hr.
    pose proof (answers_blocked _ _ _ _ Hans Hi Hact) as Hi1.
    rewrite (Hc1 i wt Hi1 Hact Hr) in Hi. injection Hi as Hi. rewrite <- Hi in Hact. by destruct Hact. }
  assert (∀ b, flags_at w2 b = if decide (a = b) then Some (set_stopping f) else flags_at w b) as Hfl.
  { intros b. destruct Hans as (_ & (Hfr & _) & _). rewrite Hfr. unfold w1. rewrite flags_change.
    case_decide; [subst; by rewrite Hf|done]. }
  assert (∀ i wt, waits w !! i = Some wt → waits w2 !! i =
    Some (if decide (active wt ∧ requester wt = Some a) then settle done canceled wt else wt)) as Hw.
  { intros i wt Hi. case_decide as Hc; [destruct Hc; by apply Hc1|by apply Hc2]. }
  assert (m_running w2 = m_running w) as Hr by apply Hans.
  unfold stop_attempt. fold w1 w2. destruct (reacquire_outstanding (attempt w2 a)).
  - destruct (push_same_keeps w2 (push_stop_attempt a (push_stop_reacquire a w2))) as [E1 E2]; [done..|].
    split_and!; [by apply E2|intros b; by rewrite E1|done|done].
  - destruct (push_same_keeps w2 (push_stop_attempt a w2)) as [E1 E2]; [done..|].
    split_and!; [by apply E2|intros b; by rewrite E1|done|done].
Qed.

(** ** Completing an attempt *)

Definition except (i : nat) (B : nat → Prop) : nat → Prop := λ j, j ≠ i ∧ B j.

Lemma keeps_settled E B R i w :
  keeps E B R w → (∀ wt, waits w !! i = Some wt → wait_state wt ≠ blocked) → keeps E (except i B) R w.
Proof.
  intros [Hm Hg Hp] Hi. split; [done|done|]. constructor; try (by destruct Hp).
  intros j wt f Hj Hb Hn Hf. eapply (pm_blocked _ _ _ _ Hp); [done..| |done].
  intros HB. apply Hn. split; [|done]. intros ->. by eapply Hi.
Qed.

(** Becoming ready, for a requester whose permit is on its way back. *)
Lemma make_ready_keeps E B R i r wt a f w :
  keeps E B R w → waits w !! i = Some wt → wait_state wt = blocked → requester wt = Some a →
  flags_at w a = Some f → f_outstanding f = true →
  keeps E B R (make_ready i r w) ∧ (∀ b, flags_at (make_ready i r w) b = flags_at w b) ∧
  waits (make_ready i r w) = <[i := settle ready r wt]> (waits w).
Proof.
  intros [Hm Hg Hp] Hi Hb Hr Hf Hout.
  destruct (make_ready_spec i r w wt Hm Hi Hb) as (Hm' & Hfr & Hw & _).
  split_and!; [|apply Hfr|done]. split; [done|apply (graph_frame w); try done|].
  - intros j wtj. rewrite Hw. destruct (decide (i = j)) as [<-|].
    + rewrite lookup_insert_eq. by intros [= <-].
    + by rewrite lookup_insert_ne.
  - pose proof Hfr as (Ef & Eo & Er & Ere & Ei & Ed & _).
    assert (∀ j wtj, waits (make_ready i r w) !! j = Some wtj →
      (j = i ∧ wtj = settle ready r wt) ∨ waits w !! j = Some wtj) as Hback.
    { intros j wtj. rewrite Hw. destruct (decide (i = j)) as [<-|].
      - rewrite lookup_insert_eq. intros [= <-]. by left.
      - rewrite lookup_insert_ne by done. by right. }
    constructor; rewrite ?Ere, ?Ei, ?Er, ?Ed; try setoid_rewrite Ef; try setoid_rewrite Eo;
      try (by destruct Hp).
    + intros j wtj b fb [[-> ->]|Hj]%Hback Hact Hrq; [|by apply (pm_requester _ _ _ _ Hp j wtj)].
      apply (pm_requester _ _ _ _ Hp i wt); [done|by apply blocked_active|done].
    + intros j wtj b fb [[-> ->]|Hj]%Hback Hst; [done|by apply (pm_held _ _ _ _ Hp j wtj)].
    + intros j wtj [[-> ->]|Hj]%Hback Hst; [|by apply (pm_ready _ _ _ _ Hp j wtj)].
      exists a, f. auto.
    + intros j wtj fb [[-> ->]|Hj]%Hback Hst; [done|by apply (pm_blocked _ _ _ _ Hp j wtj)].
Qed.

(** How a blocked wait is told its result. *)
Inductive told (r : error_code) (wt : Wait) (w : world) : Wait → Prop :=
  | told_outsider : requester wt = None → told r wt w (settle done r wt)
  | told_held a : requester wt = Some a → f_permit <$> flags_at w a = Some held →
      told r wt w (settle done r wt)
  | told_later a : requester wt = Some a →
      (f_permit <$> flags_at w a = Some released ∨ f_permit <$> flags_at w a = Some reacquiring) →
      told r wt w (settle ready r wt).

Lemma told_not_blocked r wt w wt' : told r wt w wt' → wait_state wt' ≠ blocked.
Proof. by destruct 1. Qed.

(** Only permits and the requests for them change. *)
Definition only_permits (w w' : world) : Prop :=
  ∀ a, (λ f, (f_phase f, f_stopping f, f_doomed f, f_hurried f, f_result f, f_predecessor f, f_drain f)) <$>
         flags_at w' a =
       (λ f, (f_phase f, f_stopping f, f_doomed f, f_hurried f, f_result f, f_predecessor f, f_drain f)) <$>
         flags_at w a.

Lemma only_permits_change a g w :
  (∀ f, (f_phase (g f), f_stopping (g f), f_doomed (g f), f_hurried (g f), f_result (g f),
         f_predecessor (g f), f_drain (g f)) =
        (f_phase f, f_stopping f, f_doomed f, f_hurried f, f_result f, f_predecessor f, f_drain f)) →
  only_permits w (change a g w).
Proof.
  intros Hg b. rewrite flags_change. case_decide; [|done].
  destruct (flags_at w b); simpl; [by rewrite Hg|done].
Qed.

Lemma only_permits_frame w w' : frame w w' → only_permits w w'.
Proof. intros (Hf & _) a. by rewrite Hf. Qed.

Lemma only_permits_trans w1 w2 w3 : only_permits w1 w2 → only_permits w2 w3 → only_permits w1 w3.
Proof. intros H12 H23 a. by rewrite H23. Qed.

Lemma only_permits_give_back a w : only_permits w (give_back_if_waiting a w).
Proof.
  unfold give_back_if_waiting. destruct (_ && _); [|done]. by apply only_permits_change.
Qed.

Lemma give_back_waits a w : waits (give_back_if_waiting a w) = waits w.
Proof. unfold give_back_if_waiting. by destruct (_ && _). Qed.

Lemma reacquire_keeps E B R a f w :
  keeps E B R w → flags_at w a = Some f → f_permit f = released → f_stopping f = false →
  keeps E B R (reacquire a w) ∧ flags_at (reacquire a w) a = Some (reacquire_flags f) ∧
  waits (reacquire a w) = waits w.
Proof.
  intros [Hm Hg Hp] Hf Hrel Hns. split_and!; [|by apply (flags_change_eq a reacquire_flags)|done]. split.
  - apply (mirrored_same_links (change a reacquire_flags w)); [done..|]. by apply mirrored_change.
  - assert (graph_ok (change a reacquire_flags w)) as Hg'
      by (apply graph_change; [done|intros f0 _; simpl; auto|done]).
    apply (graph_shrink (change a reacquire_flags w)); done.
  - by apply reacquire_permits with f.
Qed.

Lemma ready_wait_spec B i r wt w :
  keeps nobody B nobody w → waits w !! i = Some wt → wait_state wt = blocked →
  keeps nobody (except i B) nobody (ready_wait i r w) ∧ only_permits w (ready_wait i r w) ∧
  ∃ wt', told r wt w wt' ∧ waits (ready_wait i r w) = <[i := wt']> (waits w).
Proof.
  intros Hk Hi Hb. pose proof Hk as [Hm Hg Hp].
  assert (active wt) as Hact by by apply blocked_active.
  assert (∀ r0, keeps nobody B nobody (answer i r0 w) ∧ frame w (answer i r0 w) ∧
    waits (answer i r0 w) = <[i := settle done r0 wt]> (waits w)) as Hans.
  { intros r0. destruct (answer_spec i r0 w wt Hm Hi Hact) as (? & ? & ?). split_and!; [|done|done].
    eapply keeps_answers; [done|]. by apply answers_answer with wt. }
  assert (∀ w' wt', waits w' = <[i := wt']> (waits w) → wait_state wt' ≠ blocked →
    keeps nobody B nobody w' → keeps nobody (except i B) nobody w') as Hexc.
  { intros w' wt' Hw' Hnb Hk'. apply keeps_settled; [done|]. intros wt0. rewrite Hw', lookup_insert_eq.
    by intros [= <-]. }
  unfold ready_wait. rewrite (wait_lookup _ _ _ Hi). destruct (requester wt) as [a|] eqn:Hr.
  2:{ destruct (Hans r) as (Hk' & Hfr & Hw'). split_and!; [by eapply Hexc|by apply only_permits_frame|].
      eexists. split; [by apply told_outsider|done]. }
  destruct (flags_Some w a) as [f Hf]; [by apply (mir_requester _ Hm i wt)|].
  destruct (pm_requester _ _ _ _ Hp i wt a f) as [Hns Hrun]; [done..|by intros []|].
  pose proof (permits_flags _ _ _ _ _ _ Hp Hf) as [_ _ [Hnone _]].
  destruct (attempt_flags w a f Hf) as (_ & -> & -> & _). rewrite Hns.
  destruct (f_permit f) eqn:Hper.
  - destruct Hnone as [Hnone _]. destruct (Hnone eq_refl); congruence.
  - destruct (Hans r) as (Hk' & Hfr & Hw').
    assert (flags_at (answer i r w) a = Some f) as Hf' by (destruct Hfr as (-> & _); done).
    split_and!.
    + eapply (Hexc _ (settle done r wt)); [by rewrite give_back_waits|done|].
      by eapply give_back_if_waiting_keeps.
    + eapply only_permits_trans; [by apply only_permits_frame|apply only_permits_give_back].
    + eexists. split; [by apply (told_held r wt w a); rewrite ?Hf; simpl; rewrite ?Hper|].
      by rewrite give_back_waits.
  - destruct (reacquire_keeps _ _ _ a f w Hk Hf Hper Hns) as (Hk1 & Hf1 & Hw1).
    destruct (make_ready_keeps _ _ _ i r wt a (reacquire_flags f) (reacquire a w) Hk1) as (Hk2 & Hf2 & Hw2);
      [by rewrite Hw1|done..|].
    split_and!.
    + eapply (Hexc _ (settle ready r wt)); [by rewrite Hw2, Hw1|done|done].
    + intros b. rewrite Hf2. by apply (only_permits_change a reacquire_flags).
    + eexists. split; [apply (told_later r wt w a); [done|left; rewrite Hf; simpl; by rewrite Hper]|].
      by rewrite Hw2, Hw1.
  - assert (f_outstanding f = true) as Hout
      by (apply (permits_flags _ _ _ _ _ _ Hp) in Hf as [Ho _ _]; by apply Ho).
    destruct (make_ready_keeps _ _ _ i r wt a f w Hk) as (Hk2 & Hf2 & Hw2); [done..|].
    split_and!.
    + by eapply (Hexc _ (settle ready r wt)).
    + intros b. by rewrite Hf2.
    + eexists. split; [apply (told_later r wt w a); [done|right; rewrite Hf; simpl; by rewrite Hper]|done].
Qed.

Lemma ready_waits_spec r l w :
  keeps nobody (λ i, i ∈ l) nobody w → NoDup l →
  (∀ i, i ∈ l → ∃ wt, waits w !! i = Some wt ∧ wait_state wt = blocked) →
  let w' := foldl (λ w i, ready_wait i r w) w l in
  inv w' ∧ only_permits w w' ∧ (∀ i, i ∉ l → waits w' !! i = waits w !! i) ∧
  (∀ i wt, i ∈ l → waits w !! i = Some wt →
     ∃ w0 wt', only_permits w w0 ∧ told r wt w0 wt' ∧ waits w' !! i = Some wt').
Proof.
  revert w. induction l as [|i l IH]; intros w Hk Hnd Hl; simpl.
  { split_and!; [|done|done|by intros ? ? ?%elem_of_nil]. apply inv_keeps.
    destruct Hk as [Hm Hg Hp]. split; [done|done|].
    eapply permits_weaken; [..|exact Hp]; try done. by intros ? ?%elem_of_nil. }
  apply NoDup_cons in Hnd as [Hnew Hnd]. destruct (Hl i) as (wt & Hi & Hb); [left|].
  destruct (ready_wait_spec _ i r wt w Hk Hi Hb) as (Hk1 & Hop & wt' & Htold & Hw1).
  assert (∀ j, j ≠ i → waits (ready_wait i r w) !! j = waits w !! j) as Hoth
    by (intros j ?; by rewrite Hw1, lookup_insert_ne).
  destruct (IH (ready_wait i r w)) as (Hinv & Hop' & Hout & Hin).
  { destruct Hk1 as [Hm Hg Hp]. split; [done|done|].
    eapply permits_weaken; [..|exact Hp]; try done.
    intros j [Hj [->|?]%elem_of_cons]; done. }
  { done. }
  { intros j Hj. rewrite Hoth by (by intros ->). apply Hl. by right. }
  split_and!; [done|by eapply only_permits_trans| |].
  - intros j [? ?]%not_elem_of_cons. by rewrite Hout, Hoth.
  - intros j wtj [->|Hj]%elem_of_cons Hwj.
    + exists w, wt'. split_and!; [done| |]; rewrite Hi in Hwj; injection Hwj as <-; [done|].
      by rewrite Hout, Hw1, lookup_insert_eq.
    + destruct (Hin j wtj Hj) as (w0 & wtj' & ? & ? & ?); [rewrite Hoth; [done|by intros ->]|].
      exists w0, wtj'. split_and!; [by eapply only_permits_trans|done..].
Qed.

Definition complete_flags (r : error_code) (f : flags) : flags := set_predecessor None (set_result r f).

Lemma complete_spec a r f w :
  inv w → flags_at w a = Some f →
  inv (complete a r w) ∧
  (∀ b, (λ f, (f_phase f, f_stopping f, f_doomed f, f_hurried f, f_drain f)) <$> flags_at (complete a r w) b =
        (λ f, (f_phase f, f_stopping f, f_doomed f, f_hurried f, f_drain f)) <$> flags_at w b) ∧
  (∀ b, f_result <$> flags_at (complete a r w) b =
        if decide (a = b) then Some (Some r) else f_result <$> flags_at w b) ∧
  (∀ i wt, waits w !! i = Some wt → ¬ (wait_state wt = blocked ∧ target wt = a) →
     waits (complete a r w) !! i = Some wt) ∧
  (∀ i wt, waits w !! i = Some wt → wait_state wt = blocked → target wt = a →
     ∃ w0 wt', only_permits (change a (complete_flags r) w) w0 ∧
       told r wt w0 wt' ∧ waits (complete a r w) !! i = Some wt').
Proof.
  intros [Hm Hg Hp] Hf. pose proof (flags_attempt _ _ _ Hf) as Ha.
  pose proof (permits_flags _ _ _ _ _ _ Hp Hf) as Hfl.
  destruct (permits_mono_waits _ _ _ _ _ _ Hp Hf) as (H1 & H2 & H3 & H4 & H5 & H6).
  set (w1 := change a (complete_flags r) w).
  assert (waits_on_me (attempt w1 a) = waits_on_me (attempt w a)) as Hlist.
  { destruct Ha as [x Hx]. unfold w1, attempt. rewrite !lookup_total_alt, lookup_change, decide_True, Hx; done. }
  pose proof (λ i, elem_of_waits_on_me w a i Hm Ha) as Hon.
  assert (keeps nobody (λ i, i ∈ waits_on_me (attempt w1 a)) nobody w1) as Hk.
  { split; [by apply mirrored_change|apply graph_change; [done| |done]; intros f0 _; simpl; auto|].
    rewrite Hlist. apply (permits_differ nobody nobody nobody _ _ _ a f (complete_flags r f) w); try done.
    - by apply (differs_change nobody nobody nobody a f (complete_flags r)).
    - by destruct Hfl.
    - intros i wt Hi Hb Ht Hn. destruct Hn. apply Hon. by exists wt. }
  destruct (ready_waits_spec r (waits_on_me (attempt w1 a)) w1 Hk) as (Hinv & Hop & Hout & Hin).
  { rewrite Hlist. destruct Ha as [x Hx]. rewrite (attempt_lookup _ _ _ Hx). by apply (mir_on_nodup _ Hm a). }
  { rewrite Hlist. intros i (wt & ? & ? & _)%Hon. by exists wt. }
  assert (∀ i, i ∈ waits_on_me (attempt w1 a) ↔ ∃ wt, waits w !! i = Some wt ∧ wait_state wt = blocked ∧
    target wt = a) as Hon1 by (intros i; rewrite Hlist; apply Hon).
  assert (complete a r w = foldl (λ w i, ready_wait i r w) w1 (waits_on_me (attempt w1 a))) as -> by done.
  split_and!; [done| | | |].
  - intros b. specialize (Hop b). unfold w1 in *. rewrite flags_change in Hop.
    destruct (flags_at (foldl _ _ _) b) as [f1|], (flags_at w b) as [f2|] eqn:Hf2;
      case_decide; simplify_eq/=; congruence.
  - intros b. specialize (Hop b). unfold w1 in *. rewrite flags_change in Hop.
    destruct (flags_at (foldl _ _ _) b) as [f1|], (flags_at w b) as [f2|] eqn:Hf2;
      case_decide; simplify_eq/=; congruence.
  - intros i wt Hi Hno. rewrite Hout; [done|]. intros (wt' & Hi' & ? & ?)%Hon1. apply Hno. by simplify_eq.
  - intros i wt Hi Hb Ht. apply Hin; [|done]. apply Hon1. by exists wt.
Qed.

Lemma only_permits_result w w' a : only_permits w w' → f_result <$> flags_at w' a = f_result <$> flags_at w a.
Proof.
  intros H. specialize (H a). destruct (flags_at w' a), (flags_at w a); simplify_eq/=; congruence.
Qed.

(** ** Cancelling a request, ending, and permits coming back *)

Lemma answered_at i r w wt j :
  waits w !! i = Some wt →
  waits (answer i r w) !! j = if decide (i = j) then Some (settle done r wt) else waits w !! j.
Proof.
  intros Hi. destruct (waits_answer i r w wt Hi) as [-> _].
  case_decide; [subst; apply lookup_insert_eq|by apply lookup_insert_ne].
Qed.

Lemma cancel_wait_spec i wt w :
  inv w → waits w !! i = Some wt →
  inv (cancel_wait i w) ∧ only_permits w (cancel_wait i w) ∧
  (∀ j, waits (cancel_wait i w) !! j =
     if decide (i = j) then Some (if decide (wait_state wt = done) then wt else settle done canceled wt)
     else waits w !! j).
Proof.
  intros Hinv Hi. unfold cancel_wait. rewrite (wait_lookup _ _ _ Hi).
  destruct (decide (wait_state wt = done)) as [Hd|Hact].
  { rewrite bool_decide_true by done. split_and!; [done|done|].
    intros j. case_decide; [by subst|done]. }
  rewrite bool_decide_false by done.
  pose proof (answers_answer i canceled w wt (inv_mirrored _ Hinv) Hi Hact) as Hans.
  pose proof (inv_answers _ _ Hinv Hans) as Hinv1. pose proof Hans as (_ & Hfr & _).
  assert (∀ j, waits (answer i canceled w) !! j =
    if decide (i = j) then Some (settle done canceled wt) else waits w !! j) as Hw
    by (intros j; by apply answered_at).
  destruct (requester wt) as [a|] eqn:Hr; [|split_and!; [done|by apply only_permits_frame|done]].
  destruct (_ && _) eqn:Hc; [|split_and!; [done|by apply only_permits_frame|done]]. bool_to_prop.
  destruct (flags_Some w a) as [f Hf].
  { by apply (mir_requester _ (inv_mirrored _ Hinv) i wt). }
  assert (flags_at (answer i canceled w) a = Some f) as Hf1 by (destruct Hfr as (-> & _); done).
  destruct (attempt_flags _ a f Hf1) as (_ & Eper & Est & _).
  apply inv_keeps in Hinv1 as Hk1.
  destruct (reacquire_keeps _ _ _ a f _ Hk1 Hf1) as (Hk2 & _ & Hw2); [congruence..|].
  split_and!; [by apply inv_keeps| |by intros j; rewrite Hw2].
  eapply only_permits_trans; [by apply only_permits_frame|]. by apply only_permits_change.
Qed.

Lemma on_outer_stop_spec a f w :
  inv w → flags_at w a = Some f →
  inv (on_outer_stop a w) ∧
  (∀ b, flags_at (on_outer_stop a w) b =
     if decide (a = b ∧ f_phase f = running) then Some (set_stopping f) else flags_at w b).
Proof.
  intros Hinv Hf. destruct (attempt_flags w a f Hf) as (Eph & _ & Est & _). unfold on_outer_stop.
  rewrite Eph, Est. destruct (bool_decide (f_phase f = running)) eqn:Hrun; bool_to_prop; simpl.
  - destruct (f_stopping f) eqn:Hst; simpl.
    + destruct (push_same_keeps w (push_stop_attempt a w)) as [E1 E2]; [done..|].
      split; [by apply E2|]. intros b. rewrite E1. case_decide as Hb; [|done].
      destruct Hb as [<- _]. rewrite Hf. f_equal. destruct f; simpl in *. by subst.
    + destruct (stop_attempt_spec a f w Hinv Hf Hrun) as (? & Hfl & _). split; [done|].
      intros b. rewrite Hfl. repeat case_decide; naive_solver.
  - destruct (push_same_keeps w (push_stop_attempt a w)) as [E1 E2]; [done..|].
    split; [by apply E2|]. intros b. rewrite E1. case_decide as Hb; [by destruct Hb|done].
Qed.

Lemma inv_drains E B R w w' :
  keeps E B R w → attempts w' = attempts w → waits w' = waits w → m_waits w' = m_waits w →
  m_running w' = m_running w → reacquires w' = reacquires w → issued w' = issued w →
  promotions w' = promotions w → NoDup (drains w') →
  (∀ a, a ∈ drains w' → a ∈ drains w ∨ ∃ f, flags_at w a = Some f ∧ f_phase f = ended ∧
     f_drain f = false ∧ f_outstanding f = false) →
  keeps E B R w'.
Proof.
  intros [Hm Hg Hp] Ha Hw Hmw Hr Hre His Hpr Hnd Hd.
  assert (∀ b, flags_at w' b = flags_at w b) as Hf by (intros b; unfold flags_at; by rewrite Ha).
  assert (∀ b, output_at w' b = output_at w b) as Ho by (intros b; unfold output_at; by rewrite Ha).
  split.
  - eapply mirrored_same_links; [..|exact Hm]; [done|done|intros b; by rewrite Ha].
  - assert (∀ b, attempt w' b = attempt w b) as Hat by (intros b; unfold attempt; by rewrite Ha).
    apply (graph_shrink w); [done|intros b; by rewrite Ha| | |done].
    + intros b c. unfold waits_on, successors. by rewrite Hat.
    + intros b. unfold is_hurried. by rewrite Hat.
  - constructor; rewrite ?Hre, ?His, ?Hr, ?Hw; try setoid_rewrite Hf; try setoid_rewrite Ho;
      try (by destruct Hp).
    intros b [?|?]%Hd; [by apply (pm_drains _ _ _ _ Hp)|done].
Qed.

Definition end_flags (f : flags) : flags := set_stopping (set_phase ended f).

(** [a] has ended, its waits not yet cancelled. *)
Lemma end_permits a f w :
  inv w → flags_at w a = Some f → f_phase f = running →
  let w1 := change a end_flags w in
  keeps (only a) nobody nobody (set_running (delete (output (attempt w1 a)) (m_running w1)) w1).
Proof.
  intros [Hm Hg Hp] Hf Hrun w1. pose proof (permits_flags _ _ _ _ _ _ Hp Hf) as Hfl.
  destruct (permits_mono_waits _ _ _ _ _ _ Hp Hf) as (H1 & H2 & H3 & H4 & H5 & H6).
  assert (output_at w a = Some (output (attempt w1 a))) as Hout.
  { destruct (flags_attempt _ _ _ Hf) as [x Hx]. unfold w1, attempt, output_at.
    rewrite lookup_total_alt, lookup_change, decide_True, Hx by done. done. }
  set (o := output (attempt w1 a)) in *.
  assert (∀ o', m_running w !! o' = Some a ↔ o' = o) as Hra.
  { intros o'. rewrite (running_at _ _ _ w a f) by done. rewrite Hout.
    split; [by intros [[= ->] _]|by intros ->]. }
  split.
  - apply (mirrored_same_links w1); [done..|]. by apply mirrored_change.
  - assert (graph_ok w1) as Hg1 by (apply graph_change; [done|intros f0 _; simpl; split; [done|by intros]|done]).
    by apply (graph_shrink w1).
  - apply (permits_differ nobody nobody nobody _ _ _ a f (end_flags f) w); try done.
    + constructor; simpl; try done.
      * intros b. transitivity (flags_at w1 b); [done|]. unfold w1. rewrite flags_change.
        case_decide; [subst; by rewrite Hf|done].
      * intros b. apply (output_change a end_flags).
      * apply (pm_requests_once _ _ _ _ Hp).
      * intros b. case_decide; [subst b|done]. by apply (requests_at nobody nobody nobody).
      * intros o' b. rewrite lookup_delete_Some. case_decide as Hab; [subst b|].
        -- split; [|by intros [_ ?]]. intros [Hne ->%Hra]. done.
        -- split; [by intros [_ ?]|]. intros Hb. split; [|done]. intros Ho.
           assert (m_running w !! o' = Some a) by (by apply Hra). congruence.
      * apply (pm_drains_once _ _ _ _ Hp).
      * intros b Hb. case_decide; [subst b|done].
        apply (pm_drains _ _ _ _ Hp) in Hb as (f0 & Hf0 & He & _). congruence.
    + destruct Hfl as [? ? [Hnone _]]. constructor; simpl; try done.
      split_and!; [|done|by right]. rewrite Hnone, Hrun. split; by intros [?|?].
    + intros HR Hdr. destruct (H6 HR Hdr). congruence.
Qed.

Lemma finish_spec a f w :
  inv w → flags_at w a = Some f → f_phase f = running →
  inv (finish a w) ∧
  (∀ b, flags_at (finish a w) b =
     if decide (a = b) then Some (set_drain (f_outstanding f) (end_flags f)) else flags_at w b) ∧
  (∀ i wt, waits w !! i = Some wt →
     waits (finish a w) !! i =
       Some (if decide (active wt ∧ requester wt = Some a) then settle done canceled wt else wt)) ∧
  drains (finish a w) = (if f_outstanding f then drains w else drains w ++ [a]).
Proof.
  intros Hinv Hf Hrun. pose proof (end_permits a f w Hinv Hf Hrun) as Hk. cbv zeta in Hk.
  set (w1 := change a end_flags w) in *.
  set (w2 := set_running (delete (output (attempt w1 a)) (m_running w1)) w1) in *.
  assert (∀ b, flags_at w2 b = if decide (a = b) then Some (end_flags f) else flags_at w b) as Hfl2.
  { intros b. transitivity (flags_at w1 b); [done|]. unfold w1. rewrite flags_change.
    case_decide; [subst; by rewrite Hf|done]. }
  assert (is_Some (attempts w2 !! a)) as Ha2.
  { apply flags_known. rewrite Hfl2, decide_True by done. by eexists. }
  destruct (cancel_waits_of_spec a w2) as (Hans & Hc1 & Hc2); [apply Hk|done|].
  pose proof (keeps_answers _ _ _ _ _ Hk Hans) as Hk3.
  set (w3 := cancel_waits_of a w2) in *.
  assert (∀ b, flags_at w3 b = if decide (a = b) then Some (end_flags f) else flags_at w b) as Hfl3.
  { intros b. destruct Hans as (_ & (-> & _) & _). apply Hfl2. }
  assert (∀ i wt, waits w !! i = Some wt → waits w3 !! i =
    Some (if decide (active wt ∧ requester wt = Some a) then settle done canceled wt else wt)) as Hw.
  { intros i wt Hi. case_decide as Hc; [destruct Hc; by apply Hc1|by apply Hc2]. }
  assert (drains w3 = drains w) as Hd3 by apply Hans.
  assert (flags_at w3 a = Some (end_flags f)) as Hf3 by (by rewrite Hfl3, decide_True).
  assert (∀ i wt, waits w3 !! i = Some wt → active wt → requester wt ≠ Some a) as Hno.
  { intros i wt Hi Hact Hr. pose proof (answers_blocked _ _ _ _ Hans Hi Hact) as Hi2.
    rewrite (Hc1 i wt Hi2 Hact Hr) in Hi. injection Hi as Hi. rewrite <- Hi in Hact. by destruct Hact. }
  pose proof (inv_permits _ Hinv) as Hp0.
  assert (f_drain f = false) as Hdf.
  { destruct (f_drain f) eqn:E; [|done]. destruct (pm_drain _ _ _ _ Hp0 a f Hf (λ x, x) E). congruence. }
  assert (a ∉ drains w) as Hnd.
  { intros (f0 & Hf0 & He & _)%(pm_drains _ _ _ _ Hp0). congruence. }
  pose proof Hk3 as [Hm3 Hg3 Hp3].
  destruct (permits_mono_waits _ _ _ _ _ _ Hp3 Hf3) as (_ & H2 & H3 & H4 & _ & H6).
  assert (finish a w = if reacquire_outstanding (attempt w3 a)
    then push_stop_reacquire a (change a (set_drain true) w3) else push_drain a w3) as -> by done.
  destruct (attempt_flags _ _ _ Hf3) as (_ & _ & _ & Eout & _). rewrite Eout. simpl.
  destruct (f_outstanding f) eqn:Hout.
  - set (w4 := change a (set_drain true) w3).
    assert (inv w4) as Hinv4.
    { split; [by apply mirrored_change|apply graph_change; [done|intros f0 _; simpl; auto|done]|].
      pose proof (permits_flags _ _ _ _ _ _ Hp3 Hf3) as [? ? ?].
      apply (permits_differ (only a) nobody nobody _ _ _ a (end_flags f) (set_drain true (end_flags f)) w3);
        try done.
      - constructor; simpl; try done.
        + intros b. unfold w4. rewrite flags_change. case_decide; [subst; by rewrite Hf3|done].
        + intros b. apply output_change.
        + apply (pm_requests_once _ _ _ _ Hp3).
        + intros b. case_decide; [subst b|done]. by apply (requests_at _ _ _ _ _ _ Hp3 Hf3).
        + intros o b. case_decide; [subst b|done]. by apply (running_at _ _ _ _ _ _ _ Hp3 Hf3).
        + rewrite Hd3. apply (pm_drains_once _ _ _ _ Hp0).
        + intros b. rewrite Hd3. intros Hb. case_decide; [by subst b|done].
      - intros i wt Hi Hact Hr. by destruct (Hno i wt). }
    destruct (push_same_keeps w4 (push_stop_reacquire a w4)) as [E1 E2]; [done..|].
    split_and!; [by apply E2| |done|done].
    intros b. rewrite E1. unfold w4. rewrite flags_change, Hfl3. by case_decide.
  - assert (end_flags f = set_drain false (end_flags f)) as Hsame by (destruct f; simpl in *; by subst).
    assert (∀ b, flags_at (push_drain a w3) b = flags_at w3 b) as Hfl by done.
    split_and!; [|intros b; by rewrite Hfl, Hfl3, <- Hsame|done|simpl; by rewrite Hd3].
    apply inv_keeps. apply (inv_drains nobody nobody nobody w3); try done.
    + split; [done|done|]. constructor; try (by destruct Hp3).
      * intros i wt b fb Hi Hact Hr Hfb _. apply (pm_requester _ _ _ _ Hp3 i wt b fb); try done.
        intros ->. by destruct (Hno i wt).
      * intros b fb Hfb _ He Ho. apply (pm_ended_request _ _ _ _ Hp3 b fb); try done.
        intros ->. rewrite Hf3 in Hfb. injection Hfb as <-. simpl in Ho. congruence.
    + simpl. rewrite Hd3. apply NoDup_snoc; [apply (pm_drains_once _ _ _ _ Hp0)|done].
    + simpl. intros b. rewrite elem_of_app, list_elem_of_singleton. intros [?| ->]; [by left|right].
      exists (end_flags f). by rewrite Hf3.
Qed.

(** The provider answers the request of [a], which leaves the lists it was on. *)
Definition back (a : nat) (granted : bool) (re asked : list nat) (w : world) : world :=
  let w := set_reacquires re asked w in
  if granted then change a (set_lease (Some true)) w else w.

Definition back_flags (granted : bool) (f : flags) : flags :=
  set_permit (if granted then held else released)
    (set_outstanding false (if granted then set_lease (Some true) f else f)).

Definition returned (a : nat) (granted : bool) (w : world) : world :=
  change a (λ f, set_permit (if granted then held else released) (set_outstanding false f)) w.

Lemma flags_returned a granted re asked f w b :
  flags_at w a = Some f →
  flags_at (returned a granted (back a granted re asked w)) b =
    if decide (a = b) then Some (back_flags granted f) else flags_at w b.
Proof.
  intros Hf. unfold returned, back. rewrite flags_change. destruct granted; case_decide; try done.
  - subst. rewrite flags_change, decide_True by done.
    change (flags_at (set_reacquires re asked w) b) with (flags_at w b). by rewrite Hf.
  - by rewrite flags_change, decide_False.
  - subst. change (flags_at (set_reacquires re asked w) b) with (flags_at w b). by rewrite Hf.
Qed.

Lemma returned_keeps a granted re asked f w :
  inv w → flags_at w a = Some f → f_outstanding f = true →
  a :: (re ++ asked) ≡ₚ reacquires w ++ issued w →
  keeps nobody nobody (only a) (returned a granted (back a granted re asked w)).
Proof.
  intros [Hm Hg Hp] Hf Hout Hperm. pose proof (permits_flags _ _ _ _ _ _ Hp Hf) as Hfl.
  destruct (permits_mono_waits _ _ _ _ _ _ Hp Hf) as (H1 & H2 & H3 & H4 & H5 & H6).
  set (w1 := returned a granted (back a granted re asked w)).
  assert (∀ b, flags_at w1 b = if decide (a = b) then Some (back_flags granted f) else flags_at w b) as Hfl1
    by (intros b; by apply flags_returned).
  assert (mirrored (set_reacquires re asked w)) as Hm0 by (by apply (mirrored_same_links w)).
  assert (graph_ok (set_reacquires re asked w)) as Hg0 by (by apply (graph_shrink w)).
  assert (mirrored (back a granted re asked w) ∧ graph_ok (back a granted re asked w)) as [Hmb Hgb].
  { unfold back. destruct granted; [|done]. split; [by apply mirrored_change|].
    apply graph_change; [done|intros f0 _; simpl; auto|done]. }
  pose proof (pm_requests_once _ _ _ _ Hp) as Hnd. rewrite <- Hperm in Hnd.
  apply NoDup_cons in Hnd as [Hna Hnd].
  assert (reacquires w1 = re ∧ issued w1 = asked ∧ m_running w1 = m_running w ∧ drains w1 = drains w ∧
    waits w1 = waits w) as (Ere & Eis & Erun & Edr & Ewt) by (unfold w1, back; by destruct granted).
  split.
  - by apply mirrored_change.
  - apply graph_change; [done|intros f0 _; simpl; auto|done].
  - apply (permits_differ nobody nobody nobody _ _ _ a f (back_flags granted f) w); try done.
    + constructor; try done.
      * intros b. unfold w1, returned, back. rewrite output_change. destruct granted; [by rewrite output_change|done].
      * by rewrite Ere, Eis.
      * intros b. rewrite Ere, Eis. case_decide; [subst b; by destruct granted|].
        rewrite <- Hperm, elem_of_cons. split; [by right|by intros [?|?]].
      * intros o b. rewrite Erun. case_decide; [subst b|done]. rewrite (running_at _ _ _ _ _ _ _ Hp Hf).
        by destruct granted.
      * rewrite Edr. apply (pm_drains_once _ _ _ _ Hp).
      * intros b. rewrite Edr. intros Hb. case_decide; [subst b|done].
        apply (pm_drains _ _ _ _ Hp) in Hb as (f0 & Hf0 & _ & _ & ?). congruence.
    + destruct Hfl as [Ho [Hl1 Hl2] [Hp1 [Hp2 Hp3]]].
      assert (f_permit f = reacquiring) as Hre by (by apply Ho).
      rewrite Hre in *. constructor; destruct granted; simpl; try done.
      * destruct (f_lease f) as [[]|] eqn:El; [|by split|].
        -- by destruct Hl2 as [_ Hl2]; specialize (Hl2 eq_refl).
        -- by destruct Hl1 as [Hl1 _]; specialize (Hl1 eq_refl).
      * split_and!; [|done|done]. split; [done|]. intros Hpq. by apply Hp1 in Hpq.
      * split_and!; [|done|done]. split; [done|]. intros Hpq. by apply Hp1 in Hpq.
    + intros i wt Hi Hact Hr HE. destruct (H1 i wt Hi Hact Hr HE). by destruct granted.
    + intros i wt Hi Hb Hr. by right.
    + intros i wt Hi Hb Ht HB. rewrite <- (H4 i wt Hi Hb Ht HB). by destruct granted.
Qed.

(** What [a]'s ready requests are answered with. *)
Definition ready_answer (granted stopping : bool) (wt : Wait) : error_code :=
  if granted && negb stopping then wait_result wt else canceled.

Definition answer_ready (a : nat) (granted : bool) (w : world) (i : nat) : option error_code :=
  if bool_decide (wait_state (wait_of w i) = ready)
  then Some (ready_answer granted (stopping (attempt w a)) (wait_of w i)) else None.

Lemma foldl_ext_state {A B} (f g : A → B → A) (l : list B) a :
  (∀ x y, f x y = g x y) → foldl f a l = foldl g a l.
Proof. intros H. revert a. induction l as [|y l IH]; intros a; simpl; [done|]. by rewrite H. Qed.

Lemma answer_ready_spec a granted f w :
  keeps nobody nobody (only a) w → flags_at w a = Some f →
  let w' := foldl (λ w i, match answer_ready a granted w i with Some r => answer i r w | None => w end)
              w (waits_by_me (attempt w a)) in
  answers w w' ∧
  (∀ i wt, waits w !! i = Some wt → waits w' !! i =
     Some (if decide (wait_state wt = ready ∧ requester wt = Some a)
           then settle done (ready_answer granted (f_stopping f) wt) wt else wt)) ∧
  (∀ i, waits w !! i = None → waits w' !! i = None).
Proof.
  intros [Hm Hg Hp] Hf w'. assert (is_Some (attempts w !! a)) as Ha by by eapply flags_attempt.
  pose proof (λ i, elem_of_waits_by_me w a i Hm Ha) as Hby.
  destruct (answers_fold (answer_ready a granted) (waits_by_me (attempt w a)) w Hm) as (H1 & H2 & H3).
  - destruct Ha as [x Hx]. rewrite (attempt_lookup _ _ _ Hx). by apply (mir_by_nodup _ Hm a).
  - intros i (wt & ? & ? & _)%Hby. by exists wt.
  - fold w' in H1, H2, H3. split_and!; [done| |].
    + intros i wt Hi. destruct (decide (i ∈ waits_by_me (attempt w a))) as [Hin|Hin].
      * destruct (H3 i wt Hin Hi) as (w0 & Hans & Hi0 & ->). unfold answer_ready.
        apply Hby in Hin as (wt' & Hi' & Hact & Hr). rewrite Hi in Hi'. injection Hi' as <-.
        rewrite (wait_lookup _ _ _ Hi0).
        assert (flags_at w0 a = Some f) as Hf0 by (destruct Hans as (_ & (-> & _) & _); done).
        destruct (attempt_flags _ _ _ Hf0) as (_ & _ & -> & _).
        destruct (decide (wait_state wt = ready)) as [Hst|Hst].
        -- by rewrite bool_decide_true, decide_True.
        -- rewrite bool_decide_false, decide_False; [done|naive_solver|done].
      * rewrite H2 by done. rewrite decide_False; [done|]. intros [Hst Hr]. apply Hin, Hby.
        exists wt. split_and!; [done|by apply ready_active|done].
    + intros i Hi. rewrite H2; [done|]. intros (wt & ? & _)%Hby. congruence.
Qed.

Lemma let_drain_keeps a f w :
  keeps nobody nobody (only a) w → flags_at w a = Some f → f_outstanding f = false →
  (∀ i wt, waits w !! i = Some wt → wait_state wt = ready → requester wt ≠ Some a) →
  (∀ i wt, waits w !! i = Some wt → wait_state wt = blocked → requester wt = Some a → f_permit f ≠ held) →
  (f_drain f = true → f_phase f = ended ∧ a ∉ drains w) →
  inv (let_drain a w) ∧
  (∀ b, flags_at (let_drain a w) b = if decide (a = b) then Some (set_drain false f) else flags_at w b) ∧
  waits (let_drain a w) = waits w ∧
  drains (let_drain a w) = (if f_drain f then drains w ++ [a] else drains w).
Proof.
  intros Hk Hf Hout Hnr Hnb Hdr. destruct (attempt_flags _ _ _ Hf) as (_ & _ & _ & _ & Edr & _).
  assert (∀ w2 f2, keeps nobody nobody (only a) w2 → flags_at w2 a = Some f2 → waits w2 = waits w →
    f_permit f2 = f_permit f → f_drain f2 = false → inv w2) as Hun.
  { intros w2 f2 [Hm2 Hg2 Hp2] Hf2 Hw2 Hper2 Hd2. apply inv_keeps. split; [done|done|].
    eapply permits_weaken; [..|apply (permits_unexcuse nobody nobody (only a) a f2 w2)]; try done.
    - intros b [? ?]. done.
    - rewrite Hw2, Hper2. done.
    - rewrite Hw2. intros i wt Hi Hst Hr. by destruct (Hnr i wt).
    - congruence. }
  unfold let_drain. rewrite Edr. destruct (f_drain f) eqn:Ed.
  - destruct (Hdr eq_refl) as [Hend Hnin]. set (w1 := change a (set_drain false) w).
    assert (∀ b, flags_at w1 b = if decide (a = b) then Some (set_drain false f) else flags_at w b) as Hfl.
    { intros b. unfold w1. rewrite flags_change. case_decide; [subst; by rewrite Hf|done]. }
    split_and!; [|done|done|done]. pose proof Hk as [Hm Hg Hp].
    pose proof (permits_flags _ _ _ _ _ _ Hp Hf) as [? ? ?].
    destruct (permits_mono_waits _ _ _ _ _ _ Hp Hf) as (H1 & H2 & H3 & H4 & H5 & H6).
    assert (keeps nobody nobody (only a) w1) as Hk1.
    { split; [by apply mirrored_change|apply graph_change; [done|intros f0 _; simpl; auto|done]|].
      apply (permits_differ nobody nobody (only a) _ _ _ a f (set_drain false f) w); try done.
      - constructor; try done; simpl.
        + apply output_change.
        + apply (pm_requests_once _ _ _ _ Hp).
        + intros b. case_decide; [subst b|done]. by apply (requests_at _ _ _ _ _ _ Hp Hf).
        + intros o b. case_decide; [subst b|done]. by apply (running_at _ _ _ _ _ _ _ Hp Hf).
        + apply (pm_drains_once _ _ _ _ Hp).
        + intros b Hb. case_decide; [by subst b|done].
      - intros ? ?. simpl. congruence. }
    apply (Hun _ (set_drain false f)); try done.
    + apply (inv_drains _ _ _ w1); try done.
      * simpl. apply NoDup_snoc; [apply (pm_drains_once _ _ _ _ Hp)|done].
      * simpl. intros b. rewrite elem_of_app, list_elem_of_singleton. intros [?| ->]; [by left|right].
        exists (set_drain false f). rewrite Hfl, decide_True by done. done.
    + transitivity (flags_at w1 a); [done|]. by rewrite Hfl, decide_True.
  - split_and!; [by apply (Hun w f)| |done|done]. intros b. case_decide; [subst b|done].
    rewrite Hf. f_equal. destruct f; simpl in *; by subst.
Qed.

Lemma on_reacquired_spec a granted re asked f w :
  inv w → flags_at w a = Some f → f_outstanding f = true →
  a :: (re ++ asked) ≡ₚ reacquires w ++ issued w →
  let w' := on_reacquired a granted (back a granted re asked w) in
  inv w' ∧
  (∀ i wt, waits w !! i = Some wt → waits w' !! i =
     Some (if decide (wait_state wt = ready ∧ requester wt = Some a)
           then settle done (ready_answer granted (f_stopping f) wt) wt else wt)) ∧
  (∀ b, a ≠ b → flags_at w' b = flags_at w b) ∧
  (∃ f', flags_at w' a = Some f' ∧ f_outstanding f' = false ∧ f_drain f' = false ∧
     f_phase f' = f_phase f ∧ f_stopping f' = f_stopping f ∧ f_doomed f' = f_doomed f ∧
     f_hurried f' = f_hurried f) ∧
  drains w' = (if f_drain f then drains w ++ [a] else drains w).
Proof.
  intros Hinv Hf Hout Hperm w'. pose proof (returned_keeps a granted re asked f w Hinv Hf Hout Hperm) as Hk1.
  set (w1 := returned a granted (back a granted re asked w)) in *.
  assert (∀ b, flags_at w1 b = if decide (a = b) then Some (back_flags granted f) else flags_at w b) as Hfl1
    by (intros b; by apply flags_returned).
  assert (waits w1 = waits w ∧ drains w1 = drains w) as [Hw1 Hd1] by (unfold w1, back; by destruct granted).
  assert (flags_at w1 a = Some (back_flags granted f)) as Hf1 by (by rewrite Hfl1, decide_True).
  destruct (answer_ready_spec a granted (back_flags granted f) w1 Hk1 Hf1) as (Hans & Hw2 & _).
  set (w2 := foldl _ w1 (waits_by_me (attempt w1 a))) in *.
  pose proof (keeps_answers _ _ _ _ _ Hk1 Hans) as Hk2. pose proof Hans as (_ & (Hfl2 & _ & _ & _ & _ & Hd2 & _) & _).
  assert (flags_at w2 a = Some (back_flags granted f)) as Hf2 by (by rewrite Hfl2).
  destruct (give_back_if_waiting_fits nobody (only a) a _ w2 Hk2 Hf2) as (Hk3 & f3 & Hf3 & Hcase & Hnb).
  set (w3 := give_back_if_waiting a w2) in *.
  assert (waits w3 = waits w2) as Hw3 by apply give_back_waits.
  assert (drains w3 = drains w) as Hd3.
  { unfold w3, give_back_if_waiting. rewrite <- Hd1, <- Hd2. by destruct (_ && _). }
  assert (f_outstanding f3 = false ∧ f_drain f3 = f_drain f ∧ f_phase f3 = f_phase f ∧
    f_stopping f3 = f_stopping f ∧ f_doomed f3 = f_doomed f ∧ f_hurried f3 = f_hurried f)
    as (E1 & E2 & E3 & E4 & E5 & E6) by (by destruct Hcase as [-> | ->]; destruct granted).
  assert (f_stopping (back_flags granted f) = f_stopping f) as Est by (by destruct granted).
  pose proof (inv_permits _ Hinv) as Hp.
  destruct (let_drain_keeps a f3 w3 Hk3 Hf3 E1) as (Hinv4 & Hfl4 & Hw4 & Hd4).
  { rewrite Hw3. intros i wt Hi Hst Hr. pose proof (answers_blocked _ _ i wt Hans Hi ltac:(congruence)) as Hi1.
    rewrite (Hw2 i wt Hi1), decide_True in Hi by done. injection Hi as Hi. rewrite <- Hi in Hst. done. }
  { rewrite Hw3. done. }
  { rewrite E2, E3, Hd3. intros Hdr. split; [apply (pm_drain _ _ _ _ Hp a f Hf (λ x, x) Hdr)|].
    intros (f0 & Hf0 & _ & ? & _)%(pm_drains _ _ _ _ Hp). congruence. }
  assert (w' = let_drain a w3) as ->.
  { unfold w', on_reacquired, w3, w2, w1, returned. do 2 f_equal. apply foldl_ext_state.
    intros x i. unfold answer_ready, ready_answer. by destruct (bool_decide _). }
  split_and!; [done| | | |].
  - intros i wt Hi. rewrite Hw4, Hw3, (Hw2 i wt), Est by (by rewrite Hw1). done.
  - intros b Hb. rewrite Hfl4, decide_False by done. unfold w3.
    assert (flags_at (give_back_if_waiting a w2) b = flags_at w2 b) as ->.
    { unfold give_back_if_waiting. destruct (_ && _); [|done]. unfold give_back.
      by rewrite flags_change, decide_False. }
    by rewrite Hfl2, Hfl1, decide_False.
  - exists (set_drain false f3). by rewrite Hfl4, decide_True.
  - by rewrite Hd4, E2, Hd3.
Qed.

(** ** New attempts, and their start *)

Lemma create_spec a built before w :
  inv w → attempts w !! a = None → (∀ b, before = Some b → is_Some (attempts w !! b)) →
  inv (create_attempt a built before w).
Proof.
  intros [Hm Hg Hp] Ha Hb. unfold create_attempt.
  set (before' := match before with Some b => _ | None => None end).
  assert (∀ b, before' = Some b → is_Some (attempts w !! b)) as Hb'.
  { intros b. unfold before'. destruct before as [c|]; [|done]. case_bool_decide; [done|].
    intros [= <-]. by apply Hb. }
  clearbody before'. set (w' := set_attempts _ w).
  assert (∀ b, attempts w' !! b = if decide (a = b) then Some (new_attempt built before') else attempts w !! b)
    as Hl.
  { intros b. simpl. case_decide; [subst; apply lookup_insert_eq|by apply lookup_insert_ne]. }
  assert (∀ b, flags_at w' b = if decide (a = b) then Some (flags_of (new_attempt built before'))
    else flags_at w b) as Hfl by (intros b; unfold flags_at; rewrite Hl; by case_decide).
  assert (flags_at w a = None) as Hfa by (unfold flags_at; by rewrite Ha).
  assert (∀ i wt, waits w !! i = Some wt → target wt ≠ a ∧ requester wt ≠ Some a) as Hno.
  { intros i wt Hi. split.
    - intros E. destruct (mir_target _ Hm i wt Hi). congruence.
    - intros E. destruct (mir_requester _ Hm i wt a Hi E). congruence. }
  assert (mirrored w') as Hm'.
  { constructor; try apply Hm; simpl.
    - intros b x. rewrite Hl. case_decide; [intros [= <-]; apply NoDup_nil_2|apply (mir_by_nodup _ Hm)].
    - intros b x i. rewrite Hl. case_decide; [intros [= <-]; subst b|apply (mir_by _ Hm)].
      simpl. split; [by intros ?%elem_of_nil|intros (wt & Hi & _ & ?)]. by destruct (Hno i wt Hi).
    - intros b x. rewrite Hl. case_decide; [intros [= <-]; apply NoDup_nil_2|apply (mir_on_nodup _ Hm)].
    - intros b x i. rewrite Hl. case_decide; [intros [= <-]; subst b|apply (mir_on _ Hm)].
      simpl. split; [by intros ?%elem_of_nil|intros (wt & Hi & _ & ?)]. by destruct (Hno i wt Hi).
    - intros b x c. rewrite Hl. case_decide; [intros [= <-]; subst b|apply (mir_edges _ Hm)].
      simpl. rewrite lookup_empty. unfold to_count. rewrite decide_True; [done|].
      apply dec_stable. change (edge_total w' a c) with (edge_total w a c). rewrite edge_total_pos.
      intros (i & wt & Hi & (_ & ? & _)%is_edge_iff). by destruct (Hno i wt Hi).
    - intros i wt Hi. rewrite Hl. case_decide; [by eexists|by apply (mir_target _ Hm i)].
    - intros i wt b Hi Hr. rewrite Hl. case_decide; [by eexists|by apply (mir_requester _ Hm i wt)]. }
  split; [done| |].
  - assert (∀ b c, waits_on w' b c ↔ waits_on w b c ∨ (b = a ∧ before' = Some c)) as Hon.
    { intros b c. rewrite !waits_on_iff by done. unfold waits_for. rewrite Hfl. simpl.
      case_decide as Hab; [subst b; rewrite Hfa|naive_solver]. split.
      - intros [?|(f & [= <-] & _ & ?)]; [left; by left|by right].
      - intros [[?|(f & ? & _)]|[_ ?]]; [by left|done|]. right. by eexists. }
    assert (∀ b c, waits_on w b c → b ≠ a ∧ c ≠ a) as Hold.
    { intros b c Hbc. split; intros ->; [|destruct (gr_known _ Hg b a Hbc); congruence].
      apply waits_on_iff in Hbc as [(i & wt & Hi & _ & Hr & _)|(f & Hf & _)]; [|congruence|done].
      by destruct (Hno i wt Hi). }
    assert (∀ c, before' = Some c → c ≠ a) as Hbef by (intros c Hc ->; destruct (Hb' a Hc); congruence).
    constructor.
    + intros b c [Hbc|[-> Hbc]]%Hon; rewrite Hl; case_decide; try by eexists.
      * by apply (gr_known _ Hg b).
      * by apply Hb'.
    + assert (∀ b c, tc (waits_on w') b c → c ≠ a ∧ (b ≠ a → tc (waits_on w) b c)) as Htc.
      { induction 1 as [b c [Hbc|[-> Hbc]]%Hon|b c d [Hbc|[-> Hbc]]%Hon Hcd [IH1 IH2]].
        - split; [by destruct (Hold b c Hbc)|]. intros _. by constructor.
        - split; [by apply Hbef|by intros []].
        - split; [done|]. intros _. eapply tc_l; [done|]. apply IH2. by destruct (Hold b c Hbc).
        - split; [done|by intros []]. }
      intros b Hb0. destruct (Htc b b Hb0) as [Hne Htcb]. by apply (gr_acyclic _ Hg b), Htcb.
    + intros b c Hhb [Hbc|[-> Hbc]]%Hon.
      * destruct (Hold b c Hbc).
        assert (∀ d, d ≠ a → is_hurried w' d ↔ is_hurried w d) as Hh
          by (intros d ?; by rewrite !is_hurried_flags, Hfl, decide_False by done).
        apply Hh; [done|]. apply Hh in Hhb; [|done]. by apply (gr_hurried _ Hg b).
      * rewrite is_hurried_flags, Hfl, decide_True in Hhb by done. by destruct Hhb as (? & [= <-] & ?).
    + intros b. simpl. rewrite (gr_promoted _ Hg), !is_hurried_flags, Hfl. case_decide; [subst b|done].
      rewrite Hfa. split; [by intros (? & ? & _)|by intros (? & [= <-] & ?)].
  - assert (∀ b f, flags_at w' b = Some f → (b = a ∧ f = flags_of (new_attempt built before')) ∨
      (b ≠ a ∧ flags_at w b = Some f)) as Hback.
    { intros b f. rewrite Hfl. case_decide; [intros [= <-]; by left|by right]. }
    constructor; simpl.
    + apply (pm_requests_once _ _ _ _ Hp).
    + intros b. rewrite (pm_requests _ _ _ _ Hp), Hfl. case_decide; [subst b; rewrite Hfa|done].
      split; [by intros (? & ? & _)|by intros (? & [= <-] & ?)].
    + intros b f [[-> ->]|[_ Hf]]%Hback; [done|by apply (pm_outstanding _ _ _ _ Hp b)].
    + intros b f [[-> ->]|[_ Hf]]%Hback; [done|by apply (pm_lease _ _ _ _ Hp b)].
    + intros b f [[-> ->]|[_ Hf]]%Hback; [|by apply (pm_phase _ _ _ _ Hp b)].
      simpl. split_and!; [|done|done]. split; [by left|done].
    + intros o b. rewrite (pm_running _ _ _ _ Hp), Hfl. unfold output_at. rewrite Hl.
      case_decide; [subst b; rewrite Hfa, Ha|done]. simpl. split; intros [? ?]; done.
    + intros i wt b f Hi Hact Hr [[-> ->]|[_ Hf]]%Hback; [by destruct (Hno i wt Hi)|].
      by apply (pm_requester _ _ _ _ Hp i wt).
    + intros i wt b f Hi Hb0 Hr [[-> ->]|[_ Hf]]%Hback; [by destruct (Hno i wt Hi)|].
      by apply (pm_held _ _ _ _ Hp i wt b).
    + intros i wt Hi Hst. destruct (pm_ready _ _ _ _ Hp i wt Hi Hst) as (b & f & ? & Hf & ?).
      exists b, f. rewrite Hfl. case_decide; [subst; congruence|done].
    + intros i wt f Hi Hb0 Hn [[E ->]|[_ Hf]]%Hback; [by destruct (Hno i wt Hi)|].
      by apply (pm_blocked _ _ _ _ Hp i wt f).
    + intros b f [[-> ->]|[_ Hf]]%Hback; [done|by apply (pm_drain _ _ _ _ Hp b)].
    + apply (pm_drains_once _ _ _ _ Hp).
    + intros b (f & Hf & ?)%(pm_drains _ _ _ _ Hp). exists f. rewrite Hfl.
      case_decide; [subst; congruence|done].
    + intros b f [[-> ->]|[_ Hf]]%Hback; [done|by apply (pm_ended_request _ _ _ _ Hp b)].
Qed.

Definition run_flags (f : flags) : flags := set_predecessor None (set_phase queued f).

Lemma run_attempt_spec a f w :
  inv w → flags_at w a = Some f → f_phase f = pending → inv (run_attempt a w).
Proof.
  intros [Hm Hg Hp] Hf Hph. pose proof (permits_flags _ _ _ _ _ _ Hp Hf) as Hfl.
  destruct (permits_mono_waits _ _ _ _ _ _ Hp Hf) as (H1 & H2 & H3 & H4 & H5 & H6).
  split; [by apply mirrored_change|apply graph_change; [done|intros f0 _; simpl; split; [done|by intros]|done]|].
  apply (permits_differ nobody nobody nobody _ _ _ a f (run_flags f) w); try done.
  - apply (differs_change nobody nobody nobody a f run_flags); try done; simpl.
    + by rewrite Hph.
    + by rewrite Hph.
  - destruct Hfl as [Hout Hl [Hnone [? Hst]]]. rewrite Hph in *.
    constructor; [exact Hout|exact Hl|]. simpl. split_and!; [|done|].
    + rewrite Hnone. split; intros _; [by right|by left].
    + intros Hs. by destruct (Hst Hs).
  - intros i wt Hi Hact Hr HE. destruct (H1 i wt Hi Hact Hr HE). congruence.
  - intros HR Hd. destruct (H6 HR Hd). congruence.
Qed.

Definition permit_flags (f : flags) : flags := set_lease (Some true) (set_permit held (set_phase running f)).

Lemma on_permit_spec a f w :
  inv w → flags_at w a = Some f → f_phase f = queued → m_running w !! output (attempt w a) = None →
  inv (on_permit a w).
Proof.
  intros [Hm Hg Hp] Hf Hph Hfree. pose proof (permits_flags _ _ _ _ _ _ Hp Hf) as Hfl.
  destruct (permits_mono_waits _ _ _ _ _ _ Hp Hf) as (H1 & H2 & H3 & H4 & H5 & H6).
  unfold on_permit. set (w1 := change a permit_flags w).
  assert (output (attempt w1 a) = output (attempt w a) ∧ output_at w a = Some (output (attempt w a))) as [Ho1 Ho].
  { destruct (flags_attempt _ _ _ Hf) as [x Hx]. unfold w1, attempt, output_at.
    rewrite !lookup_total_alt, lookup_change, decide_True, Hx by done. done. }
  assert (mirrored w1) as Hm1 by by apply mirrored_change.
  assert (graph_ok w1) as Hg1 by (apply graph_change; [done|intros f0 _; simpl; by split|done]).
  change (change a _ w) with w1. set (w2 := set_running _ w1).
  split; [by apply (mirrored_same_links w1)|by apply (graph_shrink w1)|].
  pose proof Hfl as [Hout [Hl1 Hl2] [Hnone [? Hst]]]. rewrite Hph in *.
  assert (f_permit f = none) as Hper by (apply Hnone; by right).
  assert (f_outstanding f = false) as Hno by (apply not_outstanding; [done|congruence]).
  assert (f_stopping f = false) as Hns.
  { destruct (f_stopping f); [|done]. by destruct (Hst eq_refl). }
  apply (permits_differ nobody nobody nobody _ _ _ a f (permit_flags f) w); try done.
  - constructor; simpl; try done.
    + intros b. transitivity (flags_at w1 b); [done|]. unfold w1. rewrite flags_change.
      case_decide; [subst; by rewrite Hf|done].
    + intros b. apply (output_change a permit_flags).
    + apply (pm_requests_once _ _ _ _ Hp).
    + intros b. case_decide; [subst b|done]. by apply (requests_at _ _ _ _ _ _ Hp Hf).
    + intros o b. rewrite lookup_emplace, Ho1. destruct (m_running w !! o) as [c|] eqn:E.
      * case_decide; [subst b|done]. split; [|by intros [? _]; congruence].
        intros [= ->]. apply (running_at _ _ _ _ _ _ _ Hp Hf) in E as [? ?]. congruence.
      * rewrite Ho. destruct (decide (output (attempt w a) = o)) as [<-|Hoo].
        -- split; [by intros [= <-]; rewrite decide_True|]. case_decide; [by subst b|congruence].
        -- split; [done|]. case_decide; [intros [[= ?] _]; done|congruence].
    + apply (pm_drains_once _ _ _ _ Hp).
    + intros b Hb. case_decide; [subst b|done].
      apply (pm_drains _ _ _ _ Hp) in Hb as (f0 & Hf0 & He & _). congruence.
  - constructor; simpl; rewrite ?Hno, ?Hns; try done. split_and!; [|done|done].
    split; [done|by intros [?|?]].
  - intros i wt Hi Hb Hr HR.
    destruct (H1 i wt Hi (blocked_active _ Hb) Hr HR). congruence.
  - intros HR Hd. destruct (H6 HR Hd). congruence.
Qed.

(** ** Cycles *)

Definition dooms (f : flags) : bool := bool_decide (f_phase f = running) && negb (f_stopping f).
Definition doom_flags (f : flags) : flags := if dooms f then set_stopping (set_doomed f) else f.

Lemma set_doomed_inv a w : inv w → inv (change a set_doomed w).
Proof.
  intros [Hm Hg Hp]. split; [by apply mirrored_change|apply graph_change; [done|intros f0 _; simpl; auto|done]|].
  by apply permits_change.
Qed.

Lemma doom_spec a f w :
  inv w → flags_at w a = Some f →
  inv (doom a w) ∧
  (∀ b, flags_at (doom a w) b = if decide (a = b) then Some (doom_flags f) else flags_at w b) ∧
  (∀ i wt, waits w !! i = Some wt →
     waits (doom a w) !! i =
       Some (if decide (dooms f = true ∧ active wt ∧ requester wt = Some a)
             then settle done canceled wt else wt)).
Proof.
  intros Hinv Hf. destruct (attempt_flags _ _ _ Hf) as (Eph & _ & Est & _).
  unfold doom, doom_flags, dooms. rewrite Eph, Est.
  destruct (bool_decide (f_phase f = running) && negb (f_stopping f)) eqn:Hc; bool_to_prop.
  - assert (flags_at (change a set_doomed w) a = Some (set_doomed f)) as Hf1 by by apply flags_change_eq.
    destruct (stop_attempt_spec a (set_doomed f) _ (set_doomed_inv a w Hinv) Hf1) as (? & Hfl & Hw & _); [done|].
    split_and!; [done| |].
    + intros b. rewrite Hfl, flags_change. destruct (decide (a = b)); done.
    + intros i wt Hi. rewrite (Hw i wt Hi). f_equal. apply decide_ext.
      split; [by intros [? ?]|by intros (_ & ? & ?)].
  - split_and!; [done| |].
    + intros b. by destruct (decide (a = b)) as [<-|].
    + intros i wt Hi. rewrite decide_False; [done|]. by intros [? _].
Qed.

Lemma dooms_doom f : dooms (doom_flags f) = false.
Proof.
  unfold doom_flags. destruct (dooms f) eqn:E; [|done]. unfold dooms. simpl. apply andb_false_r.
Qed.

(** The requests of the attempts on [cycle] that run and are not stopping. *)
Definition doomed_request (w : world) (cycle : list nat) (wt : Wait) : Prop :=
  active wt ∧ ∃ b f, requester wt = Some b ∧ b ∈ cycle ∧ flags_at w b = Some f ∧ dooms f = true.

Lemma doom_fold_spec cycle w :
  inv w → (∀ a, a ∈ cycle → is_Some (attempts w !! a)) →
  let w' := foldl (λ w a, doom a w) w cycle in
  inv w' ∧
  (∀ b f, flags_at w b = Some f →
     flags_at w' b = Some (if decide (b ∈ cycle) then doom_flags f else f)) ∧
  (∀ i wt, waits w !! i = Some wt →
     (doomed_request w cycle wt → waits w' !! i = Some (settle done canceled wt)) ∧
     (¬ doomed_request w cycle wt → waits w' !! i = Some wt)).
Proof.
  revert w. induction cycle as [|a cycle IH]; intros w Hinv Hk; simpl.
  { split_and!; [done|done|]. intros i wt Hi. split; [|done]. by intros (_ & b & f & _ & ?%elem_of_nil & _). }
  destruct (flags_Some w a) as [f Hf]; [apply Hk; left|].
  destruct (doom_spec a f w Hinv Hf) as (Hinv1 & Hfl1 & Hw1).
  destruct (IH (doom a w)) as (Hinv' & Hfl & Hw).
  { done. }
  { intros b Hb. rewrite <- flags_known, Hfl1. destruct (decide (a = b)); [done|].
    apply flags_known, Hk. by right. }
  split_and!; [done| |].
  - intros b fb Hb. destruct (decide (a = b)) as [<-|Hne].
    + rewrite (Hfl a (doom_flags f)) by (by rewrite Hfl1, decide_True). rewrite Hf in Hb. injection Hb as <-.
      f_equal. assert (doom_flags (doom_flags f) = doom_flags f) as E
        by (unfold doom_flags at 1; by rewrite dooms_doom).
      destruct (decide (a ∈ cycle)), (decide (a ∈ a :: cycle)) as [|[]]; (done || left).
    + rewrite (Hfl b fb) by (by rewrite Hfl1, decide_False). f_equal.
      apply decide_ext. rewrite elem_of_cons. naive_solver.
  - intros i wt Hi. pose proof (Hw1 i wt Hi) as Hi1.
    assert (doomed_request (doom a w) cycle wt → doomed_request w (a :: cycle) wt) as Hback.
    { intros (Hact & b & fb & Hr & Hb & Hfb & Hd). rewrite Hfl1 in Hfb. case_decide as Hab.
      - injection Hfb as <-. by rewrite dooms_doom in Hd.
      - split; [done|]. exists b, fb. split_and!; [done|by right|done..]. }
    case_decide as Hc.
    + destruct Hc as (Hd & Hact & Hr).
      split; [|intros []; split; [done|]; exists a, f; split_and!; [done|left|done..]].
      intros _. destruct (Hw i _ Hi1) as [_ Hno]. rewrite Hno; [done|]. by intros [[] _].
    + destruct (Hw i wt Hi1) as [Hyes Hno]. split; intros Hdoom; [|by apply Hno; intros ?%Hback].
      apply Hyes. destruct Hdoom as (Hact & b & fb & Hr & Hb & Hfb & Hd). split; [done|].
      assert (a ≠ b) as Hab by (intros <-; apply Hc; assert (f = fb) as -> by congruence; by split_and!).
      exists b, fb. rewrite Hfl1, decide_False by done.
      apply elem_of_cons in Hb as [->|Hb]; [done|]. done.
Qed.

(** The stops that dooming them leaves to be carried out. *)
Lemma answer_stop_attempts i r w : stop_attempts (answer i r w) = stop_attempts w.
Proof.
  unfold answer, unlink. cbv zeta. by repeat case_match.
Qed.

Lemma cancel_waits_of_stop_attempts a w : stop_attempts (cancel_waits_of a w) = stop_attempts w.
Proof.
  unfold cancel_waits_of. generalize (waits_by_me (attempt w a)) as l. intros l. revert w.
  induction l as [|i l IH]; intros w; simpl; [done|]. by rewrite IH, answer_stop_attempts.
Qed.

Lemma doom_stop_attempts a f w :
  flags_at w a = Some f → stop_attempts (doom a w) = stop_attempts w ++ (if dooms f then [a] else []).
Proof.
  intros Hf. destruct (attempt_flags _ _ _ Hf) as (Eph & _ & Est & _). unfold doom, dooms. rewrite Eph, Est.
  destruct (_ && _); [|by rewrite app_nil_r]. unfold stop_attempt.
  by destruct (reacquire_outstanding _); simpl; rewrite cancel_waits_of_stop_attempts.
Qed.

Lemma doom_fold_stops cycle w a f :
  inv w → (∀ a, a ∈ cycle → is_Some (attempts w !! a)) →
  a ∈ cycle → flags_at w a = Some f → dooms f = true →
  a ∈ stop_attempts (foldl (λ w a, doom a w) w cycle).
Proof.
  assert (∀ cycle w, inv w → (∀ a, a ∈ cycle → is_Some (attempts w !! a)) →
    ∀ a, a ∈ stop_attempts w ∨ (a ∈ cycle ∧ ∃ f, flags_at w a = Some f ∧ dooms f = true) →
    a ∈ stop_attempts (foldl (λ w a, doom a w) w cycle)) as Hgen.
  2: { intros ?? Ha Hf Hd. apply Hgen; [done..|]. right. split; [done|]. by exists f. }
  clear. induction cycle as [|b cycle IH]; intros w Hinv Hk a; simpl; [by intros [?|[?%elem_of_nil _]]|].
  destruct (flags_Some w b) as [fb Hfb]; [apply Hk; left|].
  destruct (doom_spec b fb w Hinv Hfb) as (Hinv1 & Hfl1 & _). intros Ha. apply IH; [done| |].
  { intros c Hc. rewrite <- flags_known, Hfl1. destruct (decide (b = c)); [done|].
    apply flags_known, Hk. by right. }
  rewrite (doom_stop_attempts b fb w Hfb), elem_of_app. destruct Ha as [?|[Hin (f & Hf & Hd)]]; [by left; left|].
  destruct (decide (b = a)) as [<-|Hne].
  - simplify_eq. rewrite Hd. left. right. left.
  - apply elem_of_cons in Hin as [->|Hin]; [done|]. right. split; [done|]. exists f.
    by rewrite Hfl1, decide_False.
Qed.

(** ** Waiting *)

Lemma tc_add {A} (R R' : relation A) (r t : A) :
  (∀ x y, R' x y → R x y ∨ (x = r ∧ y = t)) →
  ∀ x y, tc R' x y → tc R x y ∨ (rtc R x r ∧ rtc R t y).
Proof.
  intros HR x y. induction 1 as [x y Hxy|x y z Hxy _ IH].
  - apply HR in Hxy as [?|[-> ->]]; [left; by constructor|by right].
  - apply HR in Hxy as [Hxy|[-> ->]].
    + destruct IH as [?|[? ?]]; [left; by eapply tc_l|right]. split; [by eapply rtc_l|done].
    + right. split; [done|]. destruct IH as [?|[_ ?]]; [by apply tc_rtc|done].
Qed.

Lemma link_waits_on i t r w x y :
  mirrored w → mirrored (link i t r w) → waits w !! i = None →
  waits_on (link i t r w) x y ↔ waits_on w x y ∨ (r = Some x ∧ y = t).
Proof.
  intros Hm Hm' Hi. rewrite !waits_on_iff by done. unfold waits_for.
  destruct (link_waits i t r w) as (Hw & _ & _). pose proof (link_frame i t r w) as (Hf & _).
  rewrite Hw, Hf. split.
  - intros [(j & wt & Hj & Hb & Hr & Ht)|?]; [|left; by right].
    destruct (decide (i = j)) as [<-|].
    + rewrite lookup_insert_eq in Hj. injection Hj as <-. simpl in *. right. by split.
    + rewrite lookup_insert_ne in Hj by done. left. left. by exists j, wt.
  - intros [[(j & wt & Hj & ?)|?]|[-> ->]]; [|by right|].
    + left. exists j, wt. rewrite lookup_insert_ne by congruence. done.
    + left. exists i, (new_wait t (Some x)). by rewrite lookup_insert_eq.
Qed.

(** A wait linked but its requester not yet told, nor its target hurried. *)
Lemma link_permits i t r ft w :
  permits_ok nobody nobody nobody w → waits w !! i = None →
  flags_at w t = Some ft → f_result ft = None →
  (∀ a, r = Some a → ∃ f, flags_at w a = Some f ∧ f_stopping f = false ∧ f_phase f = running) →
  permits_ok nobody nobody (λ a, r = Some a) (link i t r w).
Proof.
  intros Hp Hi Hft Hres Hr. destruct (link_waits i t r w) as (Hw & _ & _).
  pose proof (link_frame i t r w) as (Ef & Eo & Er & Ere & Ei & Ed & _).
  assert (∀ j wt, waits (link i t r w) !! j = Some wt → (j = i ∧ wt = new_wait t r) ∨ waits w !! j = Some wt)
    as Hback.
  { intros j wt. rewrite Hw. destruct (decide (i = j)) as [<-|].
    - rewrite lookup_insert_eq. intros [= <-]. by left.
    - rewrite lookup_insert_ne by done. by right. }
  constructor; rewrite ?Ere, ?Ei, ?Er, ?Ed; try setoid_rewrite Ef; try setoid_rewrite Eo;
    try (by destruct Hp).
  - intros j wt b f [[-> ->]|Hj]%Hback Hact Hrq Hf HE; [|by apply (pm_requester _ _ _ _ Hp j wt b)].
    simpl in Hrq. destruct (Hr b Hrq) as (f' & ? & ? & ?). by simplify_eq.
  - intros j wt b f [[-> ->]|Hj]%Hback Hb Hrq Hf HR; [done|].
    apply (pm_held _ _ _ _ Hp j wt b f); try done. by intros [].
  - intros j wt [[-> ->]|Hj]%Hback Hst; [done|].
    destruct (pm_ready _ _ _ _ Hp j wt Hj Hst) as (b & f & ? & ? & [?|[]]). exists b, f. auto.
  - intros j wt f [[-> ->]|Hj]%Hback Hb HB Hf; [simpl in Hf; congruence|].
    by apply (pm_blocked _ _ _ _ Hp j wt f).
  - intros b f Hf _. apply (pm_drain _ _ _ _ Hp b f Hf). by intros [].
Qed.

(** Hurrying changes nothing [permits_ok] looks at. *)
Lemma hurries_keeps E B R w w' :
  mirrored w → permits_ok E B R w → hurries w w' →
  mirrored w' ∧ permits_ok E B R w' ∧
  (∀ a f, flags_at w a = Some f → ∃ f', flags_at w' a = Some f' ∧ f_permit f' = f_permit f ∧
     f_phase f' = f_phase f ∧ f_stopping f' = f_stopping f ∧ f_drain f' = f_drain f ∧
     f_outstanding f' = f_outstanding f).
Proof.
  intros Hm Hp Hh. destruct (hur_rest _ _ Hh) as (Hw & Hmw & Hr & _ & _ & Hre & Hd & _ & Hi).
  assert (mirrored w') as Hm'.
  { apply (mirrored_same_links w); [done|done| |done]. intros a.
    destruct (hur_attempts _ _ Hh a) as [b ->]. by destruct (attempts w !! a), b. }
  assert (∀ a f', flags_at w' a = Some f' → ∃ f, flags_at w a = Some f ∧
    (f' = f ∨ f' = set_hurried f)) as Hback.
  { intros a f'. unfold flags_at. destruct (hur_attempts _ _ Hh a) as [b ->].
    destruct (attempts w !! a) as [x|]; simpl; [|done]. intros [= <-]. exists (flags_of x).
    split; [done|]. destruct b; [by right|by left]. }
  assert (∀ a f, flags_at w a = Some f → ∃ f', flags_at w' a = Some f' ∧
    (f' = f ∨ f' = set_hurried f)) as Hfwd.
  { intros a f Hf. unfold flags_at in *. destruct (hur_attempts _ _ Hh a) as [b ->].
    destruct (attempts w !! a) as [x|]; simpl in *; [|done]. injection Hf as <-.
    eexists. split; [done|]. destruct b; [by right|by left]. }
  assert (∀ a, output_at w' a = output_at w a) as Hout.
  { intros a. unfold output_at. destruct (hur_attempts _ _ Hh a) as [b ->]. by destruct (attempts w !! a), b. }
  split_and!; [done| |].
  - constructor; rewrite ?Hre, ?Hi, ?Hr, ?Hd, ?Hw.
    + apply (pm_requests_once _ _ _ _ Hp).
    + intros a. rewrite (pm_requests _ _ _ _ Hp). split.
      * intros (f & (f' & ? & [-> | ->])%Hfwd & ?); eauto.
      * intros (f' & (f & ? & [-> | ->])%Hback & ?); eauto.
    + intros a f' (f & Hf & [-> | ->])%Hback; by apply (pm_outstanding _ _ _ _ Hp a f).
    + intros a f' (f & Hf & [-> | ->])%Hback; by apply (pm_lease _ _ _ _ Hp a f).
    + intros a f' (f & Hf & [-> | ->])%Hback; by apply (pm_phase _ _ _ _ Hp a f).
    + intros o a. rewrite (pm_running _ _ _ _ Hp), Hout. apply and_iff_compat_l.
      rewrite !fmap_Some. split.
      * intros (f & (f' & ? & [-> | ->])%Hfwd & ?); eauto.
      * intros (f' & (f & ? & [-> | ->])%Hback & ?); eauto.
    + intros i wt a f' ? ? ? (f & Hf & [-> | ->])%Hback HE; by apply (pm_requester _ _ _ _ Hp i wt a f).
    + intros i wt a f' ? ? ? (f & Hf & [-> | ->])%Hback HR; by apply (pm_held _ _ _ _ Hp i wt a f).
    + intros i wt Hj Hst. destruct (pm_ready _ _ _ _ Hp i wt Hj Hst) as (a & f & ? & (f' & ? & [-> | ->])%Hfwd & ?);
        eauto.
    + intros i wt f' ? ? ? (f & Hf & [-> | ->])%Hback; by apply (pm_blocked _ _ _ _ Hp i wt f).
    + intros a f' (f & Hf & [-> | ->])%Hback; by apply (pm_drain _ _ _ _ Hp a f).
    + apply (pm_drains_once _ _ _ _ Hp).
    + intros a (f & (f' & ? & [-> | ->])%Hfwd & ?)%(pm_drains _ _ _ _ Hp); eauto.
    + intros a f' (f & Hf & [-> | ->])%Hback; by apply (pm_ended_request _ _ _ _ Hp a f).
  - intros a f (f' & Hf' & [-> | ->])%Hfwd; eexists; (split; [done|]); done.
Qed.

(** The attempt a request comes from. *)
Definition from_attempt (from : option path) (w : world) : option nat := from ≫= λ o, m_running w !! o.

Lemma from_attempt_running from w a :
  inv w → from_attempt from w = Some a → ∃ f, flags_at w a = Some f ∧ f_phase f = running.
Proof.
  intros [_ _ Hp] Ha. destruct from as [o|]; [|done]. apply (pm_running _ _ _ _ Hp) in Ha as [_ Hf].
  destruct (flags_at w a) as [f|]; [|done]. simpl in Hf. injection Hf as Hf. by exists f.
Qed.

(** What a request left waiting leaves behind. *)
Definition linked_wait (i t : nat) (r : option nat) (w : world) : world :=
  let w1 := link i t r w in
  match r with
  | Some a => block a (if hurried (attempt w1 a) then hurry t w1 else w1)
  | None => hurry t w1
  end.

Lemma block_unexcuses a f w :
  mirrored w → graph_ok w → permits_ok nobody nobody (λ b, Some a = Some b) w → flags_at w a = Some f →
  f_phase f = running →
  (∀ i wt, waits w !! i = Some wt → wait_state wt = ready → requester wt = Some a → f_outstanding f = true) →
  (f_drain f = true → f_phase f = ended ∧ f_outstanding f = true) →
  inv (block a w) ∧ waits (block a w) = waits w.
Proof.
  intros Hm Hg Hp Hf Hrun Hready Hdrain. destruct (attempt_flags _ _ _ Hf) as (_ & Eper & _).
  unfold block. rewrite Eper. destruct (bool_decide (f_permit f = held)) eqn:Hheld; bool_to_prop.
  - split; [|done]. destruct (give_back_mirrored_graph a w Hm Hg). apply inv_keeps. split; [done|done|].
    pose proof (give_back_permits _ _ _ a f w Hp Hf Hheld) as Hp'.
    eapply (permits_weaken nobody nobody (λ b, b ≠ a ∧ Some a = Some b)); [done|done|intros b [? [= ->]]; done|].
    apply (permits_unexcuse _ _ _ a (give_back_flags f)); try done.
    by apply (flags_change_eq a give_back_flags).
  - split; [|done]. apply inv_keeps. split; [done|done|].
    eapply (permits_weaken nobody nobody (λ b, b ≠ a ∧ Some a = Some b)); [done|done|intros b [? [= ->]]; done|].
    by apply (permits_unexcuse _ _ _ a f).
Qed.

(** Linking keeps the graph acyclic, if the target does not wait on the requester. *)
Lemma link_acyclic i t r w :
  inv w → mirrored (link i t r w) → waits w !! i = None → is_Some (attempts w !! t) →
  (∀ a, r = Some a → ¬ rtc (waits_on w) t a) →
  known (link i t r w) ∧ (∀ a, ¬ tc (waits_on (link i t r w)) a a) ∧
  (∀ b c, is_hurried (link i t r w) b → waits_on (link i t r w) b c →
     is_hurried (link i t r w) c ∨ (c = t ∧ r = Some b)).
Proof.
  intros [Hm Hg Hp] Hm' Hi Ht Hno.
  pose proof (λ x y, link_waits_on i t r w x y Hm Hm' Hi) as Hon.
  pose proof (link_frame i t r w) as Hframe. split_and!.
  - intros x y [Hxy|[-> ->]]%Hon; eapply frame_known; [done| |done|done]. by apply (gr_known _ Hg x).
  - intros x Hx. destruct r as [a|].
    + apply (tc_add (waits_on w) _ a t) in Hx as [Hx|[H1 H2]].
      * by apply (gr_acyclic _ Hg x).
      * apply (Hno a eq_refl). by etrans.
      * intros y z [?|[[= ->] ->]]%Hon; auto.
    + apply (gr_acyclic _ Hg x). revert Hx. apply tc_congruence with (f := id).
      intros y z [?|[? _]]%Hon; done.
  - intros x y Hx [Hxy|[-> ->]]%Hon; [left|by right].
    apply (frame_hurried _ _ _ Hframe). apply (frame_hurried _ _ _ Hframe) in Hx.
    by apply (gr_hurried _ Hg x).
Qed.

Lemma linked_wait_spec i t r ft w :
  inv w → waits w !! i = None → flags_at w t = Some ft → f_result ft = None →
  (∀ a, r = Some a → (∃ f, flags_at w a = Some f ∧ f_stopping f = false ∧ f_phase f = running) ∧
     ¬ rtc (waits_on w) t a) →
  inv (linked_wait i t r w) ∧ waits (linked_wait i t r w) = <[i := new_wait t r]> (waits w).
Proof.
  intros Hinv Hi Hft Hres Hr. pose proof Hinv as [Hm Hg Hp].
  assert (is_Some (attempts w !! t)) as Ht by (apply flags_known; by rewrite Hft).
  assert (mirrored (link i t r w)) as Hm1.
  { apply link_mirrored; [done..|]. intros a Ha. destruct (Hr a Ha) as [(f & Hf & _) _].
    apply flags_known. by rewrite Hf. }
  destruct (link_acyclic i t r w) as (Hk1 & Hac1 & Hh1); [done..|naive_solver|].
  assert (permits_ok nobody nobody (λ a, r = Some a) (link i t r w)) as Hp1.
  { apply link_permits with ft; [done..|]. intros a Ha. by apply Hr. }
  pose proof (link_frame i t r w) as (Hf1 & _ & _ & _ & _ & _ & Hpr1).
  destruct (link_waits i t r w) as (Hw1 & _ & _).
  assert (is_Some (attempts (link i t r w) !! t)) as Ht1 by (apply flags_known; by rewrite Hf1, Hft).
  assert (∀ a, a ∈ promotions (link i t r w) ↔ is_hurried (link i t r w) a) as Hprom1.
  { intros a. rewrite Hpr1, (gr_promoted _ Hg). symmetry. apply frame_hurried, link_frame. }
  set (w1 := link i t r w) in *.
  assert ((∀ b c, is_hurried w1 b → waits_on w1 b c → is_hurried w1 c ∨ c = t) →
    hurries w1 (hurry t w1) ∧ graph_ok (hurry t w1)) as Hhur.
  { intros Hcl. destruct (hurry_spec t w1) as (Hh & Hcl' & _ & _); [done..|]. split; [done|].
    constructor.
    - intros b c. unfold waits_on. rewrite (hurries_successors _ _ _ Hh). intros Hbc.
      rewrite <- (hurries_lookup _ _ _ Hh). by apply (Hk1 b).
    - intros b Hb. apply (Hac1 b). revert Hb. apply tc_congruence with (f := id).
      intros x y. unfold waits_on. by rewrite (hurries_successors _ _ _ Hh).
    - done.
    - intros b. rewrite (hur_promoted _ _ Hh), Hprom1. pose proof (hurries_mono _ _ b Hh) as Hmono.
      split; [tauto|]. intros Hb. destruct (decide (is_hurried w1 b)) as [|Hn]; [by left|by right]. }
  unfold linked_wait. fold w1. destruct r as [a|].
  - destruct (Hr a eq_refl) as [(f & Hf & Hns & Hrun) _].
    assert (flags_at w1 a = Some f) as Hfa by (by rewrite Hf1).
    assert (∀ j wt, waits w !! j = Some wt → wait_state wt = ready → requester wt = Some a →
      f_outstanding f = true) as Hready.
    { destruct (permits_mono_waits _ _ _ _ _ _ Hp Hf) as (_ & _ & H3 & _).
      intros j wt Hj Hst Hrq. by destruct (H3 j wt Hj Hst Hrq). }
    assert (f_drain f = false) as Hdr.
    { destruct (f_drain f) eqn:E; [|done]. destruct (pm_drain _ _ _ _ Hp a f Hf (λ x, x) E). congruence. }
    assert (∀ j wt, waits w1 !! j = Some wt → wait_state wt = ready → requester wt = Some a →
      f_outstanding f = true) as Hready1.
    { intros j wt. rewrite Hw1. destruct (decide (i = j)) as [<-|].
      - rewrite lookup_insert_eq. by intros [= <-].
      - rewrite lookup_insert_ne by done. apply Hready. }
    destruct (attempt_flags _ _ _ Hfa) as (_ & _ & _ & _ & _ & Ehur & _). rewrite Ehur.
    destruct (f_hurried f) eqn:Hh.
    + destruct Hhur as [Hh' Hg2].
      { intros b c Hb Hbc. destruct (Hh1 b c Hb Hbc) as [?|[-> _]]; auto. }
      destruct (hurries_keeps _ _ _ _ _ Hm1 Hp1 Hh') as (Hm2 & Hp2 & Hfl2).
      destruct (Hfl2 a f Hfa) as (f2 & Hf2 & E1 & E2 & E3 & E4 & E5).
      destruct (hur_rest _ _ Hh') as (Ew & _).
      destruct (block_unexcuses a f2 (hurry t w1)) as [? Ew2]; try done; [congruence| |congruence|].
      * rewrite Ew, E5. apply Hready1.
      * by rewrite Ew2, Ew, Hw1.
    + destruct (block_unexcuses a f w1) as [? Ew2]; try done; [|congruence].
      constructor; try done. intros b c Hb Hbc. destruct (Hh1 b c Hb Hbc) as [?|[-> [= <-]]]; [done|].
      apply is_hurried_flags in Hb as (f' & Hf' & ?). congruence.
  - destruct Hhur as [Hh' Hg2].
    { intros b c Hb Hbc. destruct (Hh1 b c Hb Hbc) as [?|[-> _]]; auto. }
    destruct (hurries_keeps _ _ _ _ _ Hm1 Hp1 Hh') as (Hm2 & Hp2 & _).
    destruct (hur_rest _ _ Hh') as (Ew & _). split; [|by rewrite Ew, Hw1].
    split; [done|done|]. by eapply permits_weaken; [..|exact Hp2].
Qed.
