(* ===== verification/CoordinatorSteps.v ===== *)
(** * Every event keeps the coordinator's invariant

    What a request returns at once, or leaves behind, in each of its cases; then
    one lemma per event, and the invariant of every reachable world. *)

From S2P Require Export CoordinatorOps.

(** ** Requests *)

Inductive wait_case (i t : nat) (from : option path) (w : world) : option error_code * world → Prop :=
  | case_known f r : flags_at w t = Some f → f_result f = Some r → wait_case i t from w (Some r, w)
  | case_stopping a f ft : from_attempt from w = Some a → flags_at w a = Some f → f_stopping f = true →
      flags_at w t = Some ft → f_result ft = None → wait_case i t from w (Some canceled, w)
  | case_cycle a f ft cycle : from_attempt from w = Some a → flags_at w a = Some f →
      f_stopping f = false → flags_at w t = Some ft → f_result ft = None → is_path w t cycle a →
      wait_case i t from w (Some dependency_cycle, foldl (λ w a, doom a w) w cycle)
  | case_blocked r f : from_attempt from w = r → flags_at w t = Some f → f_result f = None →
      (∀ a, r = Some a →
         (∃ f, flags_at w a = Some f ∧ f_stopping f = false ∧ f_phase f = running) ∧
         ¬ rtc (waits_on w) t a) →
      wait_case i t from w (None, linked_wait i t r w).

Lemma wait_cases i t from w :
  inv w → is_Some (attempts w !! t) → wait_case i t from w (wait i t from false w).
Proof.
  intros Hinv Ht. destruct (flags_Some _ _ Ht) as [f Hf].
  destruct (attempt_flags _ _ _ Hf) as (_ & _ & _ & _ & _ & _ & Eres & _).
  unfold wait. destruct (result (attempt w t)) as [r|] eqn:Hr; [apply case_known with f; congruence|].
  change (from ≫= λ o, m_running w !! o) with (from_attempt from w).
  destruct (from_attempt from w) as [a|] eqn:Ha.
  - destruct (from_attempt_running _ _ _ Hinv Ha) as (fa & Hfa & Hrun).
    destruct (attempt_flags _ _ _ Hfa) as (_ & _ & Est & _). rewrite Est.
    destruct (f_stopping fa) eqn:Hst; [apply case_stopping with a fa f; congruence|].
    destruct (path_to_spec w t a) as [Hnone Hsome]; [apply Hinv|done|]. cbv zeta.
    destruct (path_to t a w) as [|x p] eqn:E; simpl.
    + change (wait_case i t from w (None, linked_wait i t (Some a) w)).
      apply case_blocked with f; [done|done|congruence|]. intros ? [= <-].
      split; [by exists fa|by apply Hnone].
    + apply (case_cycle i t from w a fa f (x :: p)); try done. by apply Hsome.
  - change (wait_case i t from w (None, linked_wait i t None w)).
    apply case_blocked with f; [done|done|congruence|done].
Qed.

Lemma path_known w from p n :
  known w → is_Some (attempts w !! from) → is_path w from p n →
  ∀ a, a ∈ p → is_Some (attempts w !! a).
Proof.
  intros Hk Hfrom (_ & Hlast & Hedges) a [k Ha]%list_elem_of_lookup.
  destruct (p !! S k) as [b|] eqn:Hb; [apply (Hk b); by apply (Hedges k)|].
  assert (S k = length p) as Hlen by (apply lookup_lt_Some in Ha; apply lookup_ge_None in Hb; lia).
  rewrite last_lookup, <- Hlen in Hlast. simpl in Hlast. by simplify_eq.
Qed.

Lemma wait_inv i t from stop w :
  inv w → waits w !! i = None → is_Some (attempts w !! t) → inv (wait i t from stop w).2.
Proof.
  intros Hinv Hi Ht. destruct stop; [done|].
  destruct (wait_cases i t from w Hinv Ht) as [f r Hf Hr|a f ft Ha Hf Hst Hft Hres|a f ft cycle Ha Hf Hst Hft Hres Hpath|r f Hfrom Hf Hr Hreq]; try done; simpl.
  - apply doom_fold_spec; [done|]. apply (path_known w t cycle a); [apply Hinv|done|done].
  - by apply linked_wait_spec with f.
Qed.

(** ** Events *)

Lemma initial_inv : inv initial.
Proof.
  assert (∀ a, attempts initial !! a = None) as Ha by (intros a; apply lookup_empty).
  assert (∀ i, waits initial !! i = None) as Hw by (intros i; apply lookup_empty).
  assert (∀ a, flags_at initial a = None) as Hf by (intros a; unfold flags_at; by rewrite Ha).
  assert (∀ a b, ¬ waits_on initial a b) as Hon
    by (intros a b; unfold waits_on; rewrite default_successors by done; by intros ?%elem_of_nil).
  split.
  - constructor; try (by intros; simplify_eq); try apply NoDup_nil_2.
    intros i. split; [by intros ?%elem_of_nil|]. intros (wt & Hi & _). by rewrite Hw in Hi.
  - constructor.
    + intros a b Hab. by destruct (Hon a b).
    + intros a Ha'. inversion Ha' as [? b Hab|? b ? Hab]; subst; by destruct (Hon _ _ Hab).
    + intros a b _ Hab. by destruct (Hon a b).
    + intros a. rewrite is_hurried_flags, Hf. split; [by intros ?%elem_of_nil|naive_solver].
  - constructor; try (by intros; congruence); try apply NoDup_nil_2.
    + intros a. rewrite Hf. split; [by intros ?%elem_of_nil|naive_solver].
    + intros o a. simpl. rewrite lookup_empty, Hf. split; [done|by intros [_ ?]].
    + by intros a ?%elem_of_nil.
Qed.

Lemma requests_out w a :
  inv w → a ∈ reacquires w ++ issued w → ∃ f, flags_at w a = Some f ∧ f_outstanding f = true.
Proof. intros Hinv. apply (pm_requests _ _ _ _ (inv_permits _ Hinv)). Qed.

(** Asking the permit provider moves a request from one list to the other. *)
Lemma inv_requests w re asked :
  inv w → re ++ asked ≡ₚ reacquires w ++ issued w → inv (set_reacquires re asked w).
Proof.
  intros [Hm Hg Hp] Hperm. split; [by apply (mirrored_same_links w)|by apply (graph_shrink w)|].
  constructor; try (by destruct Hp); simpl.
  - rewrite Hperm. apply Hp.
  - intros a. rewrite Hperm. apply Hp.
Qed.

Lemma take_back_inv a throws w w' :
  inv w → step (TakeBack a throws) w = Some w' → inv w'.
Proof.
  intros Hinv. simpl. destruct (decide (a ∈ reacquires w)) as [Hin|]; [|done]. intros [= <-].
  destruct (requests_out w a Hinv) as (f & Hf & Hout); [by apply elem_of_app; left|].
  pose proof (erase_one_perm _ _ Hin) as Hperm. case_match.
  - apply (on_reacquired_spec a false (erase_one a (reacquires w)) (issued w) f w); [done..|].
    rewrite Hperm at 2. done.
  - change (inv (set_reacquires (erase_one a (reacquires w)) (issued w ++ [a]) w)).
    apply inv_requests; [done|]. rewrite Hperm at 2. simpl.
    rewrite app_assoc, (Permutation_app_comm _ [a]). done.
Qed.

Lemma on_reacquired_inv a granted w w' :
  inv w → step (OnReacquired a granted) w = Some w' → inv w'.
Proof.
  intros Hinv. simpl. destruct (decide (a ∈ issued w)) as [Hin|]; [|done]. intros [= <-].
  destruct (requests_out w a Hinv) as (f & Hf & Hout); [by apply elem_of_app; right|].
  pose proof (erase_one_perm _ _ Hin) as Hperm.
  apply (on_reacquired_spec a granted (reacquires w) (erase_one a (issued w)) f w); [done..|].
  rewrite Hperm at 2. apply Permutation_middle.
Qed.

Lemma effect_inv w w' :
  inv w → attempts w' = attempts w → waits w' = waits w → m_waits w' = m_waits w →
  m_running w' = m_running w → reacquires w' = reacquires w → issued w' = issued w →
  promotions w' = promotions w → (drains w' = drains w ∨ ∃ a, drains w' = erase_one a (drains w)) → inv w'.
Proof.
  intros Hinv ? ? ? ? ? ? ? Hd. apply inv_keeps, (inv_drains nobody nobody nobody w); try done.
  - by apply inv_keeps.
  - pose proof (pm_drains_once _ _ _ _ (inv_permits _ Hinv)).
    destruct Hd as [-> | [a ->]]; [done|by apply erase_one_NoDup].
  - intros a Ha. left. pose proof (pm_drains_once _ _ _ _ (inv_permits _ Hinv)).
    destruct Hd as [E | [b E]]; rewrite E in Ha; [done|]. by apply elem_of_erase_one in Ha as [_ ?].
Qed.

Ltac step_guard H :=
  match goal with |- (if ?c then _ else _) = _ → _ => destruct c eqn:H; [intros [= <-]|done] end;
  rewrite ?andb_true_iff, ?bool_decide_eq_true in H.

Lemma step_inv e w w' : inv w → step e w = Some w' → inv w'.
Proof.
  intros Hinv. destruct e as [a built before|a|a|i t from stop|i|a r|a|a|a throws|a granted|a|a|a|i].
  - simpl. destruct (bool_decide (attempts w !! a = None)) eqn:Ha; simpl; [|done]. bool_to_prop.
    destruct before as [b|]; [step_guard Hb|intros [= <-]]; apply create_spec; naive_solver.
  - simpl. step_guard H. destruct H as [Ha Hp]. destruct (flags_Some _ _ Ha) as [f Hf].
    apply run_attempt_spec with f; [done..|]. by destruct (attempt_flags _ _ _ Hf) as (<- & _).
  - simpl. step_guard H. destruct H as [[Ha Hp] Hr]. destruct (flags_Some _ _ Ha) as [f Hf].
    apply on_permit_spec with f; [done..| |done]. by destruct (attempt_flags _ _ _ Hf) as (<- & _).
  - simpl. step_guard H. destruct H as [Hi Ht]. by apply wait_inv.
  - simpl. step_guard H. destruct H as [wt Hi]. by apply cancel_wait_spec with wt.
  - simpl. step_guard H. destruct (flags_Some _ _ H) as [f Hf]. by apply complete_spec with f.
  - simpl. step_guard H. destruct H as [Ha Hp]. destruct (flags_Some _ _ Ha) as [f Hf].
    apply finish_spec with f; [done..|]. by destruct (attempt_flags _ _ _ Hf) as (<- & _).
  - simpl. step_guard H. destruct (flags_Some _ _ H) as [f Hf]. by apply on_outer_stop_spec with f.
  - by apply take_back_inv.
  - by apply on_reacquired_inv.
  - simpl. case_match; [intros [= <-]|done]. apply (effect_inv w); by auto.
  - simpl. case_match; [intros [= <-]|done]. apply (effect_inv w); by auto.
  - simpl. case_match; [intros [= <-]|done]. apply (effect_inv w); try done. right. by exists a.
  - simpl. case_match; [intros [= <-]|done]. apply (effect_inv w); by auto.
Qed.

Lemma run_inv es w w' : inv w → run es w = Some w' → inv w'.
Proof.
  revert w. induction es as [|e es IH]; intros w Hinv; simpl; [by intros [= <-]|].
  destruct (step e w) as [w1|] eqn:He; simpl; [|done]. apply IH. by apply (step_inv e w).
Qed.

Lemma reachable_inv w : reachable w → inv w.
Proof. intros [es Hes]. by apply (run_inv es initial), Hes; apply initial_inv. Qed.
