(* ===== verification/CoordinatorSpec.v ===== *)
(** * What the build coordinator promises

    In every world that calls, permits and stop requests can lead to, in any
    order. *)

From S2P Require Export CoordinatorSteps.

Definition world_of (es : list event) : world := default initial (run es initial).

Definition runs (es : list event) : bool := bool_decide (is_Some (run es initial)).

Lemma world_of_reachable es : runs es = true → reachable (world_of es).
Proof.
  unfold runs, world_of. intros H. bool_to_prop. destruct H as [w Hw]. exists es. by rewrite Hw.
Qed.

(** An attempt at [pa] waiting on one at [pb]. *)
Lemma ex_wait_reachable : reachable (world_of ex_wait).
Proof. apply world_of_reachable. vm_compute. reflexivity. Qed.

(** The links the coordinator keeps say exactly which requests wait: an
    attempt lists the requests it made that are not done and those blocked on it,
    each once, it counts towards each other attempt the blocked requests it made
    of it, with no entry for none, and [m_waits] lists all that are not done. *)
Theorem links_are_the_waits (w : world) :
  reachable w →
  NoDup (m_waits w) ∧
  (∀ i, i ∈ m_waits w ↔ ∃ wt, waits w !! i = Some wt ∧ wait_state wt ≠ done) ∧
  ∀ a x, attempts w !! a = Some x →
    NoDup (waits_by_me x) ∧ NoDup (waits_on_me x) ∧
    (∀ i, i ∈ waits_by_me x ↔
       ∃ wt, waits w !! i = Some wt ∧ wait_state wt ≠ done ∧ requester wt = Some a) ∧
    (∀ i, i ∈ waits_on_me x ↔
       ∃ wt, waits w !! i = Some wt ∧ wait_state wt = blocked ∧ target wt = a) ∧
    (∀ b n, edges_out x !! b = Some n ↔ n = edge_total w a b ∧ n ≠ 0).
Proof.
  intros [Hm _ _]%reachable_inv. split_and!; [apply (mir_waits_nodup _ Hm)|apply (mir_waits _ Hm)|].
  intros a x Hx. split_and!; [by apply (mir_by_nodup _ Hm a)|by apply (mir_on_nodup _ Hm a)| | |].
  - intros i. by apply (mir_by _ Hm a x i).
  - intros i. by apply (mir_on _ Hm a x i).
  - intros b n. rewrite (mir_edges _ Hm a x b Hx). unfold to_count.
    case_decide; split; [done|naive_solver|by intros [= <-]|by intros [-> _]].
Qed.

Lemma links_are_the_waits_witness :
  reachable (world_of ex_wait) ∧ NoDup (m_waits (world_of ex_wait)) ∧
  edge_count (world_of ex_wait) 1 2 = 1.
Proof.
  pose proof ex_wait_reachable as Hr.
  split; [done|]. split; [|vm_compute; reflexivity]. by destruct (links_are_the_waits (world_of ex_wait) Hr) as (? & _).
Defined.

(** C9. An attempt waits for another when a request it made is blocked on the
    other, or when it has not started and stands behind the other at its output.
    No attempt ever waits for itself so, directly or through others; and from any
    attempt, going on to what it waits for leads to one that waits for nothing. *)
Theorem never_deadlocked (w : world) (a : nat) :
  reachable w →
  ¬ tc (waits_for w) a a ∧
  (∃ b, rtc (waits_for w) a b ∧ ∀ c, ¬ waits_for w b c).
Proof.
  intros [Hm Hg _]%reachable_inv.
  assert (∀ x y, waits_on w x y ↔ waits_for w x y) as Hon by (intros; by apply waits_on_iff).
  assert (∀ x, ¬ tc (waits_for w) x x) as Hac.
  { intros x Hx. apply (gr_acyclic _ Hg x). revert Hx. apply tc_congruence with (f := id). intros ? ?. apply Hon. }
  split; [done|]. assert (sn (waits_for w) a) as Hsn.
  { apply tc_finite_sn; [done|]. apply (pred_finite_impl (λ b, b ∈ dom (attempts w))).
    - exists (elements (dom (attempts w))). intros b. by rewrite elem_of_elements.
    - intros b Hb. apply elem_of_dom. induction Hb as [x y Hxy|]; [|done].
      by apply (gr_known _ Hg x), Hon. }
  induction Hsn as [a _ IH]. destruct (successors w a) as [|b l] eqn:E.
  - exists a. split; [done|]. intros c Hc%Hon. unfold waits_on in Hc. rewrite E in Hc. by apply elem_of_nil in Hc.
  - assert (waits_for w a b) as Hab by (apply Hon; unfold waits_on; rewrite E; left).
    destruct (IH b Hab) as (c & ? & ?). exists c. split; [by eapply rtc_l|done].
Qed.

Lemma never_deadlocked_witness :
  reachable (world_of ex_wait) ∧ ¬ tc (waits_for (world_of ex_wait)) 1 1.
Proof.
  pose proof ex_wait_reachable as Hr.
  split; [done|]. apply (never_deadlocked (world_of ex_wait) 1 Hr).
Defined.

(** The search for a cycle ends, and is exact: it gives a path of attempts
    each waiting on the next, from the target to the requester, if there is one,
    and nothing otherwise. *)
Theorem path_to_exact (w : world) (from to : nat) :
  reachable w → is_Some (attempts w !! from) →
  (path_to from to w = [] ↔ ¬ rtc (waits_on w) from to) ∧
  (path_to from to w ≠ [] → is_path w from (path_to from to w) to).
Proof. intros [_ Hg _]%reachable_inv Hfrom. apply path_to_spec; [apply Hg|done]. Qed.

Lemma path_to_exact_witness :
  reachable (world_of ex_wait) ∧ is_Some (attempts (world_of ex_wait) !! 1) ∧
  is_path (world_of ex_wait) 1 [2; 1] 2.
Proof.
  pose proof ex_wait_reachable as Hr.
  assert (is_Some (attempts (world_of ex_wait) !! 1)) as Ha by (apply (bool_decide_eq_true _); vm_compute; reflexivity).
  split_and!; [done..|]. apply (path_to_exact (world_of ex_wait) 1 2 Hr Ha). vm_compute. done.
Defined.

(** C31. An attempt never holds its permit while a request it made is blocked;
    one whose target has completed waits only for that permit, which has been
    asked for; a permit is asked for at most once at a time, by exactly the
    attempts that are taking theirs back; a lease is gone only while there is no
    permit; and no request is left waiting by an attempt that is stopping or has
    ended. *)
Theorem permits_follow_waits (w : world) (a : nat) (f : flags) :
  reachable w → flags_at w a = Some f →
  (f_lease f = Some true ↔ f_permit f = held) ∧
  NoDup (reacquires w ++ issued w) ∧
  (a ∈ reacquires w ++ issued w ↔ f_permit f = reacquiring) ∧
  ∀ i wt, waits w !! i = Some wt → requester wt = Some a → wait_state wt ≠ done →
    f_stopping f = false ∧ f_phase f = running ∧ f_permit f ≠ none ∧
    (wait_state wt = blocked → f_permit f ≠ held) ∧
    (wait_state wt = ready → f_permit f = reacquiring).
Proof.
  intros [_ _ Hp]%reachable_inv Hf. destruct (pm_lease _ _ _ _ Hp a f Hf) as [_ Hl].
  pose proof (pm_outstanding _ _ _ _ Hp a f Hf) as Hout.
  split_and!; [by rewrite Hl|apply Hp|by rewrite (requests_at _ _ _ _ _ _ Hp Hf)|].
  intros i wt Hi Hr Hact.
  destruct (pm_requester _ _ _ _ Hp i wt a f Hi Hact Hr Hf (λ x, x)) as [Hst Hrun].
  destruct (pm_phase _ _ _ _ Hp a f Hf) as [Hnone _].
  split_and!; [done|done|rewrite Hnone; intros [?|?]; congruence| |].
  - intros Hb. by apply (pm_held _ _ _ _ Hp i wt a f Hi Hb Hr Hf (λ x, x)).
  - intros Hst'. apply Hout. destruct (pm_ready _ _ _ _ Hp i wt Hi Hst') as (b & f' & Hb & Hf' & [?|[]]).
    by simplify_eq.
Qed.

Lemma permits_follow_waits_witness :
  reachable (world_of ex_wait) ∧
  flags_at (world_of ex_wait) 1 = Some (give_back_flags (permit_flags (run_flags (flags_of (new_attempt pa None))))) ∧
  wait_state (wait_of (world_of ex_wait) 10) = blocked ∧
  f_permit (give_back_flags (permit_flags (run_flags (flags_of (new_attempt pa None))))) ≠ held.
Proof.
  pose proof ex_wait_reachable as Hr.
  assert (flags_at (world_of ex_wait) 1 =
    Some (give_back_flags (permit_flags (run_flags (flags_of (new_attempt pa None)))))) as Hf
    by (vm_compute; reflexivity).
  split; [done|]. split; [done|]. split; [vm_compute; reflexivity|].
  destruct (permits_follow_waits _ _ _ Hr Hf) as (_ & _ & _ & H).
  assert (waits (world_of ex_wait) !! 10 = Some (wait_of (world_of ex_wait) 10)) as Hw
    by (vm_compute; reflexivity).
  destruct (H 10 _ Hw ltac:(vm_compute; reflexivity) ltac:(vm_compute; done)) as (_ & _ & _ & H' & _).
  apply H'. vm_compute. reflexivity.
Defined.

(** A request is never left blocked on an attempt that has completed: when
    [a] completes, every request blocked on it is told - done with its result at
    once if nobody asks or the requester still has its permit, and otherwise
    ready with that result until the permit is back - and no other request
    changes. *)
Theorem completion_tells_all (w : world) (a : nat) (r : error_code) :
  reachable w → is_Some (attempts w !! a) →
  (∀ i wt f, waits w !! i = Some wt → wait_state wt = blocked → flags_at w (target wt) = Some f →
     f_result f = None) ∧
  (∀ i wt, waits (complete a r w) !! i = Some wt → wait_state wt = blocked → target wt ≠ a) ∧
  ∀ i wt, waits w !! i = Some wt →
    (wait_state wt = blocked ∧ target wt = a →
       ∃ st, waits (complete a r w) !! i = Some (settle st r wt) ∧
         (st = done ∨ (st = ready ∧ requester wt ≠ None))) ∧
    (¬ (wait_state wt = blocked ∧ target wt = a) → waits (complete a r w) !! i = Some wt).
Proof.
  intros Hinv%reachable_inv [f Hf]%flags_Some. pose proof Hinv as [_ _ Hp].
  destruct (complete_spec a r f w Hinv Hf) as (Hinv' & _ & Hres & Hsame & Htold).
  assert (∀ i wt f, waits w !! i = Some wt → wait_state wt = blocked → flags_at w (target wt) = Some f →
     f_result f = None) as H1.
  { intros i wt f' Hi Hb. by apply (pm_blocked _ _ _ _ Hp i wt f' Hi Hb (λ x, x)). }
  split_and!; [done| |].
  - intros i wt Hi Hb Ht. specialize (Hres a). rewrite decide_True in Hres by done.
    destruct (flags_at (complete a r w) a) as [f'|] eqn:Hf'; [|done]. simpl in Hres.
    pose proof (pm_blocked _ _ _ _ (inv_permits _ Hinv') i wt f' Hi Hb (λ x, x)) as H.
    rewrite Ht in H. specialize (H Hf'). congruence.
  - intros i wt Hi. split; [|by apply Hsame]. intros [Hb Ht].
    destruct (Htold i wt Hi Hb Ht) as (w0 & wt' & _ & Hwt' & ->).
    destruct Hwt' as [Hr|b Hr _|b Hr _]; eexists; (split; [done|]); auto. right. by rewrite Hr.
Qed.

Definition ex_done : list event := ex_wait ++ [Finish 2; Complete 2 no_error].

Lemma completion_tells_all_witness :
  let w := world_of (ex_wait ++ [Finish 2]) in
  reachable w ∧ is_Some (attempts w !! 2) ∧ wait_state (wait_of w 10) = blocked ∧
  ∃ st, waits (complete 2 no_error w) !! 10 = Some (settle st no_error (wait_of w 10)).
Proof.
  assert (reachable (world_of (ex_wait ++ [Finish 2]))) as Hr
    by (apply world_of_reachable; vm_compute; reflexivity).
  assert (is_Some (attempts (world_of (ex_wait ++ [Finish 2])) !! 2)) as Ha
    by (apply (bool_decide_eq_true _); vm_compute; reflexivity).
  split; [done|]. split; [done|]. split; [vm_compute; reflexivity|].
  destruct (completion_tells_all _ _ no_error Hr Ha) as (_ & _ & H).
  destruct (H 10 (wait_of (world_of (ex_wait ++ [Finish 2])) 10)) as [(st & Hst & _) _];
    [vm_compute; reflexivity|split; vm_compute; reflexivity|by exists st].
Defined.

(** What closes a cycle: the attempt made for [from] being waited for by [t],
    directly or through others - [t] itself included. *)
Definition closes_cycle (w : world) (from : option path) (t : nat) : Prop :=
  ∃ a, from ≫= (m_running w !!.) = Some a ∧ rtc (waits_for w) t a.

Lemma closes_cycle_iff w from t : mirrored w →
  closes_cycle w from t ↔ ∃ a, from ≫= (m_running w !!.) = Some a ∧ rtc (waits_on w) t a.
Proof.
  intros Hm. unfold closes_cycle. split; intros (a & Ha & Hr); exists a; (split; [done|]);
    revert Hr; apply rtc_congruence with (f := id); intros x y; by apply waits_on_iff.
Qed.

(** C14. A request whose stop was requested is canceled at once. Any other is
    answered at once exactly when its target has completed (with its result), the
    attempt it comes from is stopping (canceled), or it would close a cycle of
    attempts that wait for one another (a deadlock reported); otherwise it is
    left blocked on its target, linked to the attempt it comes from. *)
Theorem requests_are_exact (w : world) (i t : nat) (from : option path) (stop_requested : bool) (ft : flags) :
  reachable w → flags_at w t = Some ft →
  let from_stopping := ∃ a f, from ≫= (m_running w !!.) = Some a ∧ flags_at w a = Some f ∧ f_stopping f = true in
  if stop_requested then wait i t from stop_requested w = (Some canceled, w)
  else match f_result ft with
  | Some r => wait i t from stop_requested w = (Some r, w)
  | None =>
      (from_stopping → wait i t from stop_requested w = (Some canceled, w)) ∧
      (¬ from_stopping → closes_cycle w from t →
         (wait i t from stop_requested w).1 = Some dependency_cycle) ∧
      (¬ from_stopping → ¬ closes_cycle w from t →
         (wait i t from stop_requested w).1 = None ∧
         (waits w !! i = None →
          waits (wait i t from stop_requested w).2 = <[i := new_wait t (from ≫= (m_running w !!.))]> (waits w)))
  end.
Proof.
  intros Hinv%reachable_inv Hft from_stopping. destruct stop_requested; [done|].
  pose proof (closes_cycle_iff w from t (inv_mirrored _ Hinv)) as Hcl.
  destruct (wait_cases i t from w Hinv) as [f r Hf Hr|a f ft' Ha Hf Hst Hft' Hres|a f ft' cycle Ha Hf Hst Hft' Hres Hpath|r f Hr Hf Hres Hreq];
    [apply flags_known; by rewrite Hft|..].
  - simplify_eq. by rewrite Hr.
  - simplify_eq. rewrite Hres. assert from_stopping by by exists a, f. done.
  - simplify_eq. rewrite Hres. split; [|split].
    + intros (a' & f' & Ha' & Hf' & ?). unfold from_attempt in Ha. simplify_eq. congruence.
    + done.
    + intros _ Hno. destruct Hno. apply Hcl. exists a. split; [done|].
      by apply path_rtc with cycle.
  - simplify_eq. rewrite Hres. split; [|split].
    + intros (a & f' & Ha & Hf' & ?). destruct (Hreq a Ha) as [(f'' & ? & ? & _) _]. simplify_eq. congruence.
    + intros _ (a & Ha & Hrtc)%Hcl. by destruct (Hreq a Ha) as [_ []].
    + intros _ _. split; [done|]. intros Hi. by apply linked_wait_spec with ft.
Qed.

Lemma ex_wait_waits : waits_for (world_of ex_wait) 1 2.
Proof.
  apply waits_on_iff; [|apply (bool_decide_unpack _); vm_compute; exact I].
  apply reachable_inv, ex_wait_reachable.
Qed.

Lemma requests_are_exact_witness :
  reachable (world_of ex_wait) ∧
  ∃ ft, flags_at (world_of ex_wait) 1 = Some ft ∧
  (wait 11 1 (Some pb) false (world_of ex_wait)).1 = Some dependency_cycle.
Proof.
  pose proof ex_wait_reachable as Hr. split; [done|].
  destruct (flags_at (world_of ex_wait) 1) as [ft|] eqn:Hf; [|exfalso; vm_compute in Hf; discriminate Hf].
  exists ft. split; [done|].
  assert (f_result ft = None) as Hres by (vm_compute in Hf; by injection Hf as <-).
  pose proof (requests_are_exact _ 11 1 (Some pb) false ft Hr Hf) as H. cbv zeta iota in H.
  rewrite Hres in H. destruct H as (_ & H & _). apply H.
  - intros (a & f & Ha & Hf' & Hst). vm_compute in Ha. injection Ha as <-.
    vm_compute in Hf'. injection Hf' as <-. done.
  - exists 2. split; [vm_compute; reflexivity|]. apply rtc_once, ex_wait_waits.
Defined.



(** Whatever an attempt the coordinator hurries waits on is hurried too,
    however the graph grows; those asked for by nobody's command are where it
    starts; and a ticket is promoted in the permit provider's line exactly for
    the attempts hurried. *)
Theorem hurried_together (w : world) (a b : nat) :
  reachable w → is_hurried w a → rtc (waits_on w) a b → is_hurried w b ∧ b ∈ promotions w.
Proof.
  intros [_ Hg _]%reachable_inv Ha Hab. rewrite (gr_promoted _ Hg).
  assert (is_hurried w b); [|done]. induction Hab as [|x y z Hxy _ IH]; [done|].
  by apply IH, (gr_hurried _ Hg x).
Qed.

Definition ex_hurry : list event := ex_wait ++ [WaitFor 12 1 None false].

Lemma hurried_together_witness :
  is_hurried (world_of ex_hurry) 1 ∧ waits_on (world_of ex_hurry) 1 2 ∧ 2 ∈ promotions (world_of ex_hurry).
Proof.
  assert (reachable (world_of ex_hurry)) as Hr by (apply world_of_reachable; vm_compute; reflexivity).
  assert (is_hurried (world_of ex_hurry) 1) as Hh by (vm_compute; reflexivity).
  assert (waits_on (world_of ex_hurry) 1 2) as Hon by (apply (bool_decide_unpack _); vm_compute; exact I).
  split; [done|]. split; [done|]. apply (hurried_together _ 1 2 Hr Hh). by apply rtc_once.
Defined.

(** When an attempt's permit comes back, or cannot, every request of its
    that only waits for it is done: with its target's result if the permit was
    given and the attempt is not stopping, canceled otherwise; no other request
    changes, and no ready one of its is left. *)
Theorem permits_come_back (w : world) (a : nat) (granted : bool) (f : flags) :
  reachable w → a ∈ issued w → flags_at w a = Some f →
  ∃ w', step (OnReacquired a granted) w = Some w' ∧
    (∀ i wt, waits w !! i = Some wt →
       waits w' !! i = Some
         (if decide (wait_state wt = ready ∧ requester wt = Some a)
          then settle done (if granted && negb (f_stopping f) then wait_result wt else canceled) wt
          else wt)) ∧
    (f_phase f = ended → drains w' = drains w ++ [a]) ∧
    (f_phase f ≠ ended → drains w' = drains w) ∧
    a ∉ reacquires w' ++ issued w'.
Proof.
  intros Hinv%reachable_inv Hin Hf. pose proof Hinv as [_ _ Hp].
  assert (f_outstanding f = true) as Hout.
  { apply (requests_at _ _ _ _ _ _ Hp Hf), elem_of_app. by right. }
  destruct (on_reacquired_spec a granted (reacquires w) (erase_one a (issued w)) f w)
    as (Hinv' & Hw & _ & (f' & Hf' & Hout' & _) & Hd); [done..| |].
  { rewrite (erase_one_perm _ _ Hin) at 2. apply Permutation_middle. }
  eexists. split; [simpl; by rewrite decide_True|]. split_and!.
  - apply Hw.
  - intros Hend. change (drains (on_reacquired a granted (back a granted (reacquires w) (erase_one a (issued w)) w)) =
      drains w ++ [a]). by rewrite Hd, (pm_ended_request _ _ _ _ Hp a f Hf (λ x, x) Hend Hout).
  - intros Hend. change (drains (on_reacquired a granted (back a granted (reacquires w) (erase_one a (issued w)) w)) =
      drains w). rewrite Hd. destruct (f_drain f) eqn:E; [|done].
    by destruct (pm_drain _ _ _ _ Hp a f Hf (λ x, x) E).
  - change (a ∉ reacquires (on_reacquired a granted (back a granted (reacquires w) (erase_one a (issued w)) w)) ++
      issued (on_reacquired a granted (back a granted (reacquires w) (erase_one a (issued w)) w))).
    rewrite (requests_at _ _ _ _ _ _ (inv_permits _ Hinv') Hf'). congruence.
Qed.

Definition ex_back : list event := ex_done ++ [TakeBack 1 false].

Lemma permits_come_back_witness :
  ∃ w', step (OnReacquired 1 true) (world_of ex_back) = Some w' ∧ 1 ∉ reacquires w' ++ issued w'.
Proof.
  assert (reachable (world_of ex_back)) as Hr by (apply world_of_reachable; vm_compute; reflexivity).
  assert (1 ∈ issued (world_of ex_back)) as Hin by (apply (bool_decide_unpack _); vm_compute; exact I).
  destruct (flags_at (world_of ex_back) 1) as [f|] eqn:Hf; [|exfalso; vm_compute in Hf; discriminate Hf].
  destruct (permits_come_back _ 1 true f Hr Hin Hf) as (w' & Hs & _ & _ & _ & Hn).
  exists w'. exact (conj Hs Hn).
Defined.

(** An attempt ends exactly once its last request to take a permit back
    has been answered: [finish] cancels every request it made, and lets it drain
    at once if no such request is out, otherwise when that is answered; so an
    attempt is never drained twice, nor while a request of it is out. *)
Theorem attempts_drain_once (w : world) (a : nat) (f : flags) :
  reachable w → flags_at w a = Some f →
  NoDup (drains w) ∧
  (a ∈ drains w → f_phase f = ended ∧ a ∉ reacquires w ++ issued w) ∧
  (f_phase f = ended → (f_drain f = true ↔ a ∈ reacquires w ++ issued w)) ∧
  (f_phase f = running →
     drains (finish a w) = (if f_outstanding f then drains w else drains w ++ [a]) ∧
     ∀ i wt, waits (finish a w) !! i = Some wt → requester wt = Some a → wait_state wt = done).
Proof.
  intros Hinv%reachable_inv Hf. pose proof Hinv as [_ _ Hp].
  pose proof (requests_at _ _ _ _ _ _ Hp Hf) as Hreq. split_and!.
  - apply Hp.
  - intros (f' & Hf' & ? & ? & Hout)%(pm_drains _ _ _ _ Hp). simplify_eq. rewrite Hreq. split; [done|congruence].
  - intros Hend. rewrite Hreq. split.
    + by intros Hd; destruct (pm_drain _ _ _ _ Hp a f Hf (λ x, x) Hd).
    + by apply (pm_ended_request _ _ _ _ Hp a f Hf (λ x, x)).
  - intros Hrun. destruct (finish_spec a f w Hinv Hf Hrun) as (Hinv' & Hfl & Hw & Hd).
    split; [done|]. intros i wt Hi Hr. destruct (decide (wait_state wt = done)) as [|Hact]; [done|].
    specialize (Hfl a). rewrite decide_True in Hfl by done.
    destruct (pm_requester _ _ _ _ (inv_permits _ Hinv') i wt a _ Hi Hact Hr Hfl (λ x, x)) as [Hst _].
    done.
Qed.

Lemma attempts_drain_once_witness :
  reachable (world_of ex_wait) ∧
  ∀ i wt, waits (finish 1 (world_of ex_wait)) !! i = Some wt → requester wt = Some 1 → wait_state wt = done.
Proof.
  pose proof ex_wait_reachable as Hr. split; [done|].
  destruct (flags_at (world_of ex_wait) 1) as [f|] eqn:Hf; [|exfalso; vm_compute in Hf; discriminate Hf].
  destruct (attempts_drain_once _ 1 f Hr Hf) as (_ & _ & _ & H). apply H.
  vm_compute in Hf. by injection Hf as <-.
Defined.
