(* ===== verification/DirectoryTree.v ===== *)
(** * Directory trees (src/directorytree.hpp, src/directorytreeutil.cpp)

    What every tree offers, as a class of the operations with the laws a tree at
    rest keeps, and [DirectoryTreeUtil], proved against those laws alone: its
    comparison of two trees says they are equal exactly when they are. *)

From S2P Require Export Prelude Path.

Record FileInfo := { file_size : nat; file_mtime : Z }.
Record DirectoryInfo := { directory_mtime : Z }.
Inductive EntryInfo := AFile (f : FileInfo) | ADirectory (d : DirectoryInfo).
Record FileContent := { bytes : str; content_info : FileInfo }.
Record TreeEntry := { entry_name : str; entry_info : EntryInfo }.
Record DirectoryTreeDiff := {
  everything_dirty : bool;
  entries_changed : list path;
  child_lists_changed : list path;
}.

#[global] Instance FileInfo_eq_dec : EqDecision FileInfo.
Proof. solve_decision. Defined.
#[global] Instance DirectoryInfo_eq_dec : EqDecision DirectoryInfo.
Proof. solve_decision. Defined.
#[global] Instance EntryInfo_eq_dec : EqDecision EntryInfo.
Proof. solve_decision. Defined.
#[global] Instance FileContent_eq_dec : EqDecision FileContent.
Proof. solve_decision. Defined.
#[global] Instance TreeEntry_eq_dec : EqDecision TreeEntry.
Proof. solve_decision. Defined.

Class DirectoryTree (T : Type) := {
  status : T → path → expected error_code EntryInfo;
  ls : T → path → expected error_code (list TreeEntry);
  read : T → path → Z → nat → expected error_code str;
  read_whole : T → path → expected error_code FileContent;
}.

(** The root, and a path below it written with plain names only. *)
Definition root : path := Path false [].
Definition canonical (p : path) : Prop := root_directory p = false ∧ Forall is_name (names p).
Definition child (p : path) (n : str) : path := p // of_string n.

Definition is_directory_at {T} `{DirectoryTree T} (t : T) (p : path) : Prop :=
  ∃ d, status t p = Value (ADirectory d).

(** What a tree that is not being changed promises. *)
Class LawfulTree (T : Type) `{DirectoryTree T} (ok : T → Prop) := {
  law_root t : ok t → is_directory_at t root;
  law_parent t p n : ok t → canonical p → is_name n → has_value (status t (child p n)) = true →
    is_directory_at t p;
  law_depth t : ok t → ∃ depth, ∀ p, canonical p → has_value (status t p) = true →
    length (names p) ≤ depth;
  law_file t p i : ok t →
    status t p = Value (AFile i) ↔ ∃ c, read_whole t p = Value c ∧ content_info c = i;
  law_size t p c : ok t → read_whole t p = Value c → file_size (content_info c) = length (bytes c);
  law_directory t p : ok t → is_directory_at t p → read_whole t p = Unexpected (make_error_code is_a_directory);
  law_read t p c offset n : ok t → read_whole t p = Value c → (0 ≤ offset)%Z →
    read t p offset n = Value (take n (drop (Z.to_nat offset) (bytes c)));
  law_ls t p : ok t → has_value (ls t p) = true ↔ is_directory_at t p;
  law_entries t p es : ok t → canonical p → ls t p = Value es →
    NoDup (entry_name <$> es) ∧
    ∀ n i, {| entry_name := n; entry_info := i |} ∈ es ↔ is_name n ∧ status t (child p n) = Value i;
}.

(** ** [DirectoryTreeUtil] *)

Definition describe (p : path) : str := if is_empty p then lit "<root>" else generic_string p.
Definition kind_name (i : EntryInfo) : str :=
  match i with AFile _ => lit "a file" | ADirectory _ => lit "a directory" end.

Fixpoint join (values : list str) : str :=
  match values with
  | [] => []
  | [v] => v
  | v :: values' => v ++ lit ", " ++ join values'
  end.

Definition sorted_names (es : list TreeEntry) : list str := sort_by str_leb (entry_name <$> es).

Definition same_kind (i j : EntryInfo) : bool :=
  match i, j with AFile _, AFile _ | ADirectory _, ADirectory _ => true | _, _ => false end.

Section util.
Context {A B : Type} `{DirectoryTree A, DirectoryTree B} (a : A) (b : B).

Definition diff_files (p : path) (f g : FileInfo) : str :=
  match read a p 0 (file_size f), read b p 0 (file_size g) with
  | Value x, Value y =>
      if decide (x = y) then []
      else format [describe p; lit ": content differs ("; show (length x); lit " bytes in a, ";
                   show (length y); lit " bytes in b)"]
  | Unexpected _, _ => format [describe p; lit ": failed to read from "; lit "a"]
  | _, _ => format [describe p; lit ": failed to read from "; lit "b"]
  end.

(** The first child whose comparison says anything. *)
Fixpoint diff_children (diff : str → option str) (ns : list str) : option str :=
  match ns with
  | [] => Some []
  | n :: ns' => d ← diff n; if is_nil d then diff_children diff ns' else Some d
  end.

(** [None] if the nesting is deeper than [fuel]. *)
Fixpoint diff_at (fuel : nat) (p : path) : option str :=
  match fuel with
  | 0 => None
  | S fuel' =>
      match status a p, status b p with
      | Unexpected _, Unexpected _ => Some []
      | Value _, Unexpected _ =>
          Some (format [describe p; lit ": exists in "; lit "a"; lit " but not the other"])
      | Unexpected _, Value _ =>
          Some (format [describe p; lit ": exists in "; lit "b"; lit " but not the other"])
      | Value i, Value j =>
          if negb (same_kind i j) then
            Some (format [describe p; lit ": is "; kind_name i; lit " in a and "; kind_name j; lit " in b"])
          else
            match i, j with
            | AFile f, AFile g => Some (diff_files p f g)
            | _, _ =>
                match ls a p, ls b p with
                | Value la, Value lb =>
                    let names_a := sorted_names la in
                    let names_b := sorted_names lb in
                    if decide (names_a = names_b)
                    then diff_children (λ n, diff_at fuel' (child p n)) names_a
                    else Some (format [describe p; lit ": children differ (a has ["; join names_a;
                                       lit "], b has ["; join names_b; lit "])"])
                | Unexpected _, _ => Some (format [describe p; lit ": failed to list "; lit "a"])
                | _, _ => Some (format [describe p; lit ": failed to list "; lit "b"])
                end
            end
      end
  end.

Definition diff (fuel : nat) : option str := diff_at fuel root.
Definition equal (fuel : nat) : option bool := is_nil <$> diff fuel.
End util.

(** [open_by_status]: the file's info, or the error a tree with nothing to
    build opens with. *)
Definition open_by_status {T} `{DirectoryTree T} (t : T) (p : path) : expected error_code FileInfo :=
  match status t p with
  | Value (AFile f) => Value f
  | Value (ADirectory _) => Unexpected (make_error_code is_a_directory)
  | Unexpected e => Unexpected e
  end.

(** ** Lemmas *)

#[local] Arguments format : simpl never.
#[local] Arguments lit : simpl never.

Lemma root_canonical : canonical root.
Proof. by split. Qed.

Lemma child_names p n : canonical p → is_name n → child p n = Path false (names p ++ [n]).
Proof.
  intros [Hr Hp] (Hn & _ & _ & Hs). unfold child. by rewrite append_name, Hr.
Qed.

Lemma child_canonical p n : canonical p → is_name n → canonical (child p n).
Proof.
  intros Hp Hn. rewrite child_names by done. destruct Hp as [Hr Hp]. split; [done|]; simpl.
  apply Forall_app. split; [done|by apply Forall_singleton].
Qed.

Lemma format_nonempty p s l : format (p :: s :: l) = [] → s = [].
Proof. unfold format. simpl. intros E. apply app_eq_nil in E as [_ E]. by apply app_eq_nil in E as [? _]. Qed.

Lemma diff_children_spec (diff : str → option str) ns :
  (∀ n, n ∈ ns → is_Some (diff n)) →
  ∃ d, diff_children diff ns = Some d ∧ (d = [] ↔ ∀ n, n ∈ ns → diff n = Some []).
Proof.
  induction ns as [|n ns IH]; intros Hall; simpl.
  - exists []. split; [done|]. split; [by intros _ n ?%elem_of_nil|done].
  - destruct (Hall n) as [d Hd]; [left|]. rewrite Hd. simpl. destruct (is_nil d) eqn:E.
    + apply is_nil_true in E as ->. destruct IH as (d & -> & Hiff); [intros m Hm; apply Hall; by right|].
      exists d. split; [done|]. rewrite Hiff. setoid_rewrite elem_of_cons. naive_solver.
    + apply is_nil_false in E. exists d. split; [done|]. split; [done|].
      intros H. specialize (H n (list_elem_of_here _ _)). congruence.
Qed.

Lemma entry_names {T} `{DirectoryTree T} (ok : T → Prop) `{!LawfulTree T ok} t p es n :
  ok t → canonical p → ls t p = Value es →
  n ∈ entry_name <$> es ↔ is_name n ∧ has_value (status t (child p n)) = true.
Proof.
  intros Ht Hp Hls. destruct (law_entries t p es Ht Hp Hls) as [_ He].
  rewrite list_elem_of_fmap. split.
  - intros ([m i] & -> & [Hm Hi]%He). simpl. by rewrite Hi.
  - intros [Hn Hi]. destruct (status t (child p n)) as [i|] eqn:E; [|done].
    exists {| entry_name := n; entry_info := i |}. split; [done|]. by apply He.
Qed.

Lemma sorted_names_eq (la lb : list TreeEntry) :
  NoDup (entry_name <$> la) → NoDup (entry_name <$> lb) →
  sorted_names la = sorted_names lb ↔ ∀ n, n ∈ entry_name <$> la ↔ n ∈ entry_name <$> lb.
Proof.
  intros Hla Hlb. unfold sorted_names. split.
  - intros E n. by rewrite <- (elem_of_sort_by str_leb n (entry_name <$> la)), E, elem_of_sort_by.
  - intros E. destruct str_leb_order as (? & ? & ?). apply sort_by_unique; [done..|].
    by apply NoDup_Permutation.
Qed.

(** The same names: what is below [p] in [a] is below it in [b]. *)
Section compare.
Context {A B : Type} `{DirectoryTree A, DirectoryTree B}.
Context (ok_a : A → Prop) (ok_b : B → Prop) `{!LawfulTree A ok_a, !LawfulTree B ok_b}.
Context (a : A) (b : B) (Ha : ok_a a) (Hb : ok_b b).

(** The trees agree at [p]: nothing in either, a directory in both, or the same
    bytes in both. *)
Definition agree_at (p : path) : Prop :=
  match status a p, status b p with
  | Unexpected _, Unexpected _ => True
  | Value (ADirectory _), Value (ADirectory _) => True
  | Value (AFile _), Value (AFile _) =>
      ∃ c d, read_whole a p = Value c ∧ read_whole b p = Value d ∧ bytes c = bytes d
  | _, _ => False
  end.

Definition below (p : path) (ns : list str) : path := Path false (names p ++ ns).

Lemma below_child p n ns : canonical p → is_name n → below (child p n) ns = below p (n :: ns).
Proof. intros Hp Hn. unfold below. rewrite child_names by done. simpl. by rewrite <- app_assoc. Qed.

Lemma below_nil p : canonical p → below p [] = p.
Proof. intros [Hr _]. destruct p as [r ns]. unfold below. simpl in *. by rewrite app_nil_r, Hr. Qed.
Lemma missing_below p ns :
  canonical p → Forall is_name ns → has_value (status a p) = false → has_value (status b p) = false →
  agree_at (below p ns).
Proof.
  revert p. induction ns as [|n ns IH]; intros p Hp Hns Hna Hnb.
  - rewrite below_nil by done. unfold agree_at. by destruct (status a p), (status b p).
  - apply Forall_cons in Hns as [Hn Hns]. rewrite <- below_child by done. apply IH; [|done|..].
    + by apply child_canonical.
    + destruct (has_value (status a (child p n))) eqn:E; [|done].
      apply (law_parent a p n Ha Hp Hn) in E as [d E]. by rewrite E in Hna.
    + destruct (has_value (status b (child p n))) eqn:E; [|done].
      apply (law_parent b p n Hb Hp Hn) in E as [d E]. by rewrite E in Hnb.
Qed.

(** A file has nothing below it. *)
Lemma file_below {T} `{DirectoryTree T} (ok : T → Prop) `{!LawfulTree T ok} t p f n :
  ok t → canonical p → is_name n → status t p = Value (AFile f) → has_value (status t (child p n)) = false.
Proof.
  intros Ht Hp Hn Hf. destruct (has_value (status t (child p n))) eqn:E; [|done].
  apply (law_parent t p n Ht Hp Hn) in E as [d E]. congruence.
Qed.

Lemma whole_file {T} `{DirectoryTree T} (ok : T → Prop) `{!LawfulTree T ok} t p f :
  ok t → status t p = Value (AFile f) →
  ∃ c, read_whole t p = Value c ∧ read t p 0 (file_size f) = Value (bytes c).
Proof.
  intros Ht Hf. apply (law_file t p f Ht) in Hf as (c & Hc & <-). exists c. split; [done|].
  rewrite (law_read t p c _ _ Ht Hc), (law_size t p c Ht Hc) by lia. simpl.
  by rewrite drop_0, firstn_all.
Qed.

Lemma diff_files_spec p f g :
  status a p = Value (AFile f) → status b p = Value (AFile g) →
  diff_files a b p f g = [] ↔ agree_at p.
Proof.
  intros Hf Hg. destruct (whole_file ok_a a p f Ha Hf) as (c & Hc & Hrc).
  destruct (whole_file ok_b b p g Hb Hg) as (d & Hd & Hrd).
  unfold diff_files, agree_at. rewrite Hf, Hg, Hrc, Hrd. split.
  - case_decide; [|by intros ?%format_nonempty]. intros _. by exists c, d.
  - intros (c' & d' & ? & ? & ?). rewrite decide_True; congruence.
Qed.

Lemma agree_below_root p : canonical p → (∀ ns, Forall is_name ns → agree_at (below p ns)) → agree_at p.
Proof. intros Hp H'. rewrite <- below_nil by done. by apply H'. Qed.

(** Names in one listing and not in the other are a disagreement below. *)
Lemma disagreeing_names p la lb :
  canonical p → ls a p = Value la → ls b p = Value lb →
  (∀ ns, Forall is_name ns → agree_at (below p ns)) → sorted_names la = sorted_names lb.
Proof.
  intros Hp Hla Hlb Hall. apply sorted_names_eq.
  - by apply (law_entries a p la Ha Hp Hla).
  - by apply (law_entries b p lb Hb Hp Hlb).
  - intros n. rewrite (entry_names ok_a a p la), (entry_names ok_b b p lb) by done.
    enough (is_name n → has_value (status a (child p n)) = true ↔ has_value (status b (child p n)) = true)
      by tauto.
    intros Hn. specialize (Hall [n] ltac:(by apply Forall_singleton)).
    rewrite <- (below_child p n []) in Hall by done.
    rewrite below_nil in Hall by by apply child_canonical.
    unfold agree_at in Hall. by destruct (status a (child p n)) as [[]|], (status b (child p n)) as [[]|].
Qed.

Lemma diff_at_spec depth fuel p :
  (∀ q, canonical q → has_value (status a q) = true ∨ has_value (status b q) = true → length (names q) ≤ depth) →
  canonical p → depth + 2 ≤ fuel + length (names p) →
  (length (names p) ≤ S depth) →
  ∃ d, diff_at a b fuel p = Some d ∧ (d = [] ↔ ∀ ns, Forall is_name ns → agree_at (below p ns)).
Proof.
  intros Hdepth. revert p. induction fuel as [|fuel IH]; intros p Hp Hfuel Hlen; [lia|]. simpl.
  destruct (status a p) as [i|] eqn:Hi, (status b p) as [j|] eqn:Hj.
  2: { eexists; split; [done|]. split; [by intros ?%format_nonempty|]. intros Hall%agree_below_root; [|done].
       unfold agree_at in Hall. rewrite Hi, Hj in Hall. by destruct i. }
  2: { eexists; split; [done|]. split; [by intros ?%format_nonempty|]. intros Hall%agree_below_root; [|done].
       unfold agree_at in Hall. by rewrite Hi, Hj in Hall. }
  2: { eexists; split; [done|]. split; [|done]. intros _ ns Hns. apply missing_below; by rewrite ?Hi, ?Hj. }
  destruct i as [f|da], j as [g|db]; simpl.
  - eexists; split; [done|]. rewrite (diff_files_spec p f g Hi Hj). split; [|by apply agree_below_root].
    intros Hag [|n ns] Hns; [by rewrite below_nil|]. apply Forall_cons in Hns as [Hn Hns].
    rewrite <- below_child by done. apply missing_below; [by apply child_canonical|done|..].
    + by apply (file_below ok_a a p f).
    + by apply (file_below ok_b b p g).
  - eexists; split; [done|]. split; [by intros ?%format_nonempty|]. intros Hall%agree_below_root; [|done].
    unfold agree_at in Hall. by rewrite Hi, Hj in Hall.
  - eexists; split; [done|]. split; [by intros ?%format_nonempty|]. intros Hall%agree_below_root; [|done].
    unfold agree_at in Hall. by rewrite Hi, Hj in Hall.
  - destruct (ls a p) as [la|] eqn:Hla.
    2: { pose proof (law_ls a p Ha) as [_ H1]. rewrite Hla in H1. by ospecialize (H1 _); [exists da|]. }
    destruct (ls b p) as [lb|] eqn:Hlb.
    2: { pose proof (law_ls b p Hb) as [_ H1]. rewrite Hlb in H1. by ospecialize (H1 _); [exists db|]. }
    assert (∀ n, is_name n ∧ has_value (status a (child p n)) = true →
      ∃ d, diff_at a b fuel (child p n) = Some d ∧
        (d = [] ↔ ∀ ns, Forall is_name ns → agree_at (below (child p n) ns))) as Hrec.
    { intros n [Hn Hs]. pose proof (child_canonical p n Hp Hn) as Hc.
      pose proof (Hdepth (child p n) Hc (or_introl Hs)) as Hle.
      assert (length (names (child p n)) = S (length (names p))) as Hl
        by (rewrite child_names by done; simpl; rewrite length_app; simpl; lia).
      apply IH; [done|lia..]. }
    case_decide as Heq.
    + destruct (diff_children_spec (λ n, diff_at a b fuel (child p n)) (sorted_names la)) as (d & -> & Hd).
      { intros n Hn%elem_of_sort_by. destruct (Hrec n) as (d & -> & _); [|by eexists].
        by apply (entry_names ok_a a p la n Ha Hp Hla). }
      eexists; split; [done|]. rewrite Hd. split.
      * intros Hnone [|n ns] Hns; [rewrite below_nil by done; unfold agree_at; by rewrite Hi, Hj|].
        apply Forall_cons in Hns as [Hn Hns]. rewrite <- below_child by done.
        destruct (has_value (status a (child p n))) eqn:Hs.
        -- destruct (Hrec n) as (d' & Hd' & Hiff); [done|]. apply Hiff; [|done].
           assert (n ∈ sorted_names la) as Hin.
           { apply elem_of_sort_by, (entry_names ok_a a p la n Ha Hp Hla). done. }
           specialize (Hnone n Hin). simpl in Hnone. congruence.
        -- apply missing_below; [by apply child_canonical|done|done|].
           destruct (has_value (status b (child p n))) eqn:Hs'; [|done].
           assert (n ∈ entry_name <$> lb) as Hin by by apply (entry_names ok_b b p lb n Hb Hp Hlb).
           apply (elem_of_sort_by str_leb) in Hin. fold (sorted_names lb) in Hin. rewrite <- Heq in Hin.
           apply elem_of_sort_by, (entry_names ok_a a p la n Ha Hp Hla) in Hin as [_ ?]. congruence.
      * intros Hall n Hn%elem_of_sort_by. apply (entry_names ok_a a p la n Ha Hp Hla) in Hn as [Hn Hs].
        destruct (Hrec n) as (d' & Hd' & Hiff); [done|]. simpl. rewrite Hd'. f_equal. apply Hiff.
        intros ns Hns. rewrite below_child by done. apply Hall. by apply Forall_cons.
    + eexists; split; [done|]. split; [by intros ?%format_nonempty|]. intros Hall.
      by destruct Heq; apply (disagreeing_names p).
Qed.

(** C40. [DirectoryTreeUtil::equal] ends, given enough levels of nesting, and is
    exact: it says two trees are equal just when every path names nothing in
    either, a directory in both, or files of the same bytes in both. *)
Theorem tree_comparison_exact : ∃ depth, ∀ fuel, depth ≤ fuel →
  ∃ answer, equal a b fuel = Some answer ∧ (answer = true ↔ ∀ p, canonical p → agree_at p).
Proof.
  destruct (law_depth a Ha) as [da Hda], (law_depth b Hb) as [db Hdb].
  exists (da + db + 2). intros fuel Hfuel.
  destruct (diff_at_spec (da + db) fuel root) as (d & Hd & Hiff); [|apply root_canonical|simpl; lia|simpl; lia|].
  { intros q Hq [Hs|Hs]; [specialize (Hda q Hq Hs)|specialize (Hdb q Hq Hs)]; lia. }
  exists (is_nil d). unfold equal, diff. rewrite Hd. split; [done|]. rewrite is_nil_true, Hiff. split.
  - intros Hall p [Hr Hp]. specialize (Hall (names p) Hp). unfold below, root in Hall. simpl in Hall.
    destruct p as [r ns]. simpl in *. by rewrite Hr.
  - intros Hall ns Hns. apply Hall. by split.
Qed.
End compare.
