(* ===== verification/InMemoryTree.v ===== *)
(** * The tree in memory (src/inmemorydirectorytree.hpp, src/inmemorydirectorytree.cpp)

    [InMemoryDirectoryTree::Impl]: its entries by normalized path, and its
    subscribers, with what each has been told. A mutator gives [None] where the
    code's assertions stop it. Each runs as a whole under the tree's lock; its
    subscribers are told after that, in the order they subscribed. *)

From S2P Require Export DirectoryTree.

(** [normalize]: POSIX paths have no root name. *)
Definition normalize (p : path) : option path :=
  if is_empty p then Some root
  else if is_absolute p || has_root_path p then None
  else
    let normal := lexically_normal p in
    if bool_decide (head (path_elements normal) = Some dot_dot) then None
    else Some (if decide (normal = of_string dot) then root else normal).

Fixpoint runs_out (directory entry : list str) : bool :=
  match directory, entry with
  | [], _ :: _ => true
  | x :: directory', y :: entry' => bool_decide (x = y) && runs_out directory' entry'
  | _, _ => false
  end.
Definition is_within (entry directory : path) : bool :=
  runs_out (path_elements directory) (path_elements entry).

Record Node := { info : EntryInfo; content : option str }.
#[global] Instance Node_eq_dec : EqDecision Node.
Proof. solve_decision. Defined.

Definition holds_directory (i : EntryInfo) : bool := match i with ADirectory _ => true | AFile _ => false end.

(** Subscribers are known by numbers; [notified] is every call of a callback. *)
Record Impl := {
  m_entries : gmap path Node;
  m_subscribers : list nat;
  notified : list (nat * DirectoryTreeDiff);
}.

Definition create : Impl := {|
  m_entries := {[ root := {| info := ADirectory {| directory_mtime := 0 |}; content := None |} ]};
  m_subscribers := []; notified := [] |}.

Definition notify_subscribers (d : DirectoryTreeDiff) (s : Impl) : Impl := {|
  m_entries := m_entries s; m_subscribers := m_subscribers s;
  notified := notified s ++ map (λ i, (i, d)) (m_subscribers s) |}.
Definition set_entries m (s : Impl) : Impl := {|
  m_entries := m; m_subscribers := m_subscribers s; notified := notified s |}.

Definition parent_is_directory (s : Impl) (q : path) : bool :=
  match m_entries s !! parent_path q with Some n => holds_directory (info n) | None => false end.

Definition changes entries lists : DirectoryTreeDiff := {|
  everything_dirty := false; entries_changed := entries; child_lists_changed := lists |}.

Definition under_root (p : path) : option path :=
  q ← normalize p; if is_empty q then None else Some q.

(** [assert]: going on only if the condition holds. *)
Definition asserted (b : bool) : option unit := if b then Some tt else None.

Definition write_file (p : path) (c : str) (mtime : Z) (s : Impl) : option Impl :=
  q ← under_root p;
  _ ← asserted (parent_is_directory s q);
  _ ← asserted (match m_entries s !! q with Some n => negb (holds_directory (info n)) | None => true end);
  let d := changes [q] (match m_entries s !! q with None => [parent_path q] | Some _ => [] end) in
  let n := {| info := AFile {| file_size := length c; file_mtime := mtime |}; content := Some c |} in
  Some (notify_subscribers d (set_entries (<[q := n]> (m_entries s)) s)).

Definition make_directory (p : path) (mtime : Z) (s : Impl) : option Impl :=
  q ← under_root p;
  _ ← asserted (parent_is_directory s q);
  _ ← asserted (bool_decide (m_entries s !! q = None));
  let n := {| info := ADirectory {| directory_mtime := mtime |}; content := None |} in
  Some (notify_subscribers (changes [q] [parent_path q]) (set_entries (<[q := n]> (m_entries s)) s)).

Definition goes_with (q k : path) : bool := bool_decide (k = q) || is_within k q.

Definition remove (p : path) (s : Impl) : option Impl :=
  q ← under_root p;
  _ ← asserted (bool_decide (m_entries s !! q ≠ None));
  let removed := filter (λ e, goes_with q e.1 = true) (in_order (m_entries s)) in
  let kept := filter (λ e, goes_with q e.1 = false) (m_entries s) in
  Some (notify_subscribers (changes removed.*1 [parent_path q]) (set_entries kept s)).

Definition set_info_mtime (mtime : Z) (i : EntryInfo) : EntryInfo :=
  match i with
  | AFile f => AFile {| file_size := file_size f; file_mtime := mtime |}
  | ADirectory _ => ADirectory {| directory_mtime := mtime |}
  end.

Definition set_mtime (p : path) (mtime : Z) (s : Impl) : option Impl :=
  q ← normalize p;
  n ← m_entries s !! q;
  let n' := {| info := set_info_mtime mtime (info n); content := content n |} in
  Some (notify_subscribers (changes [q] []) (set_entries (<[q := n']> (m_entries s)) s)).

Definition missing {A} : expected error_code A := Unexpected (make_error_code no_such_file_or_directory).

Definition find (s : Impl) (p : path) : expected error_code Node :=
  match normalize p with
  | None => missing
  | Some q => match m_entries s !! q with Some n => Value n | None => missing end
  end.

Definition status_of (s : Impl) (p : path) : expected error_code EntryInfo :=
  n ← find s p; Value (info n).

Definition ls_of (s : Impl) (p : path) : expected error_code (list TreeEntry) :=
  match normalize p with
  | None => missing
  | Some q =>
      match m_entries s !! q with
      | Some n =>
          if holds_directory (info n) then
            Value (omap (λ e, if negb (bool_decide (e.1 = q)) && bool_decide (parent_path e.1 = q)
                              then Some {| entry_name := filename e.1; entry_info := info e.2 |}
                              else None) (in_order (m_entries s)))
          else missing
      | None => missing
      end
  end.

Definition read_of (s : Impl) (p : path) (offset : Z) (size : nat) : expected error_code str :=
  match normalize p with
  | None => missing
  | Some q =>
      if bool_decide (offset < 0)%Z then Unexpected (make_error_code invalid_argument)
      else if bool_decide (size = 0) then Value []
      else
        match m_entries s !! q with
        | None => missing
        | Some n =>
            if holds_directory (info n) then Unexpected (make_error_code is_a_directory)
            else
              let c := default [] (content n) in
              if bool_decide (length c <= Z.to_nat offset) then Value []
              else Value (take size (drop (Z.to_nat offset) c))
        end
  end.

Definition read_whole_of (s : Impl) (p : path) : expected error_code FileContent :=
  n ← find s p;
  match info n with
  | AFile f => Value {| bytes := default [] (content n); content_info := f |}
  | ADirectory _ => Unexpected (make_error_code is_a_directory)
  end.

#[global] Instance InMemoryDirectoryTree : DirectoryTree Impl := {|
  status := status_of; ls := ls_of; read := read_of; read_whole := read_whole_of |}.

(** A subscription is given the next number not in use, as a new list node
    is. *)
Definition subscribe_to_changes (i : nat) (s : Impl) : option Impl :=
  _ ← asserted (bool_decide (i ∉ m_subscribers s));
  Some {| m_entries := m_entries s; m_subscribers := m_subscribers s ++ [i]; notified := notified s |}.
Definition unsubscribe (i : nat) (s : Impl) : Impl := {|
  m_entries := m_entries s; m_subscribers := filter (λ j, j ≠ i) (m_subscribers s); notified := notified s |}.

Inductive operation :=
  | WriteFile (p : path) (c : str) (mtime : Z)
  | MakeDirectory (p : path) (mtime : Z)
  | Remove (p : path)
  | SetMtime (p : path) (mtime : Z)
  | Subscribe (i : nat)
  | Unsubscribe (i : nat).

Definition perform (o : operation) (s : Impl) : option Impl :=
  match o with
  | WriteFile p c mtime => write_file p c mtime s
  | MakeDirectory p mtime => make_directory p mtime s
  | Remove p => remove p s
  | SetMtime p mtime => set_mtime p mtime s
  | Subscribe i => subscribe_to_changes i s
  | Unsubscribe i => Some (unsubscribe i s)
  end.

Fixpoint perform_all (os : list operation) (s : Impl) : option Impl :=
  match os with [] => Some s | o :: os' => s' ← perform o s; perform_all os' s' end.

Definition ex_operations : list operation :=
  [MakeDirectory (of_string (lit "src")) 1; Subscribe 7;
   WriteFile (of_string (lit "./src/a.c")) (lit "int") 2; WriteFile (of_string (lit "b")) (lit "xy") 3].
Definition ex_tree : Impl := default create (perform_all ex_operations create).
Example memory_tree_ex1 : read ex_tree (of_string (lit "src/../src/a.c")) 1 5 = Value (lit "nt").
Proof. vm_compute. reflexivity. Qed.
Example memory_tree_ex2 :
  (match ls ex_tree root with Value es => entry_name <$> es | Unexpected _ => [] end) = [lit "b"; lit "src"].
Proof. vm_compute. reflexivity. Qed.
Example memory_tree_ex3 : (fst <$> notified ex_tree) = [7; 7].
Proof. vm_compute. reflexivity. Qed.
