(* ===== verification/InMemoryTreeSpec.v ===== *)
(** * What the tree in memory promises

    Its entries are always a tree; it keeps the laws of [DirectoryTree]; each
    mutator does what it says and nothing else; and what it tells its
    subscribers names everything that changed. *)

From S2P Require Export InMemoryTree.

(** ** Normalized paths *)

(** Only the path [.] ends in a dot once normal. *)
Lemma lexically_normal_dot p :
  root_directory p = false → Forall (λ n, slash ∉ n) (names p) →
  filename (lexically_normal p) = dot → lexically_normal p = Path false [dot].
Proof.
  intros Hr Hs. unfold lexically_normal. destruct (is_empty p) eqn:He.
  { unfold is_empty in He. rewrite Hr in He. simpl in He. apply is_nil_true in He.
    unfold filename. by rewrite He. }
  pose proof (normalize_names_stack (root_directory p) (names p) [] false Hs) as Hst.
  destruct (normalize_names _ _ _ _) as [stack sep]. simpl in Hst.
  destruct Hst as (k & ns & Hst & Hns); [by exists 0, []|].
  destruct stack as [|x l]; rewrite Hr; [done|]. unfold filename. simpl. destruct (sep && _); simpl.
  { by rewrite last_snoc. }
  rewrite app_nil_r, last_snoc. simpl. intros ->. destruct ns as [|n ns].
  - by destruct k.
  - apply Forall_cons in Hns as [(_ & Hd & _) _]. simpl in Hst. congruence.
Qed.

Lemma normalize_canonical p : canonical p → normalize p = Some p.
Proof.
  intros [Hr Hp]. destruct p as [r ns]. simpl in *. subst. unfold normalize, is_empty, is_absolute, has_root_path.
  simpl. destruct ns as [|n ns]; [done|]. simpl.
  rewrite lexically_normal_plain by done.
  apply Forall_cons in Hp as [(H1 & H2 & H3 & H4) _]. unfold path_elements. simpl.
  rewrite bool_decide_false by congruence. f_equal. apply decide_False. intros E.
  rewrite of_string_name in E; [congruence|done|]. apply (bool_decide_eq_true _). by vm_compute.
Qed.

Lemma normalize_of_string s q :
  normalize (of_string s) = Some q → q = root ∨ has_filename q = true → canonical q.
Proof.
  intros Hq Hf. pose proof (of_string_slash_free s) as Hs. revert Hq. unfold normalize.
  destruct (is_empty (of_string s)) eqn:He; [intros [= <-]; apply root_canonical|].
  destruct (is_absolute _ || has_root_path _) eqn:Ha; [done|]. apply orb_false_elim in Ha as [Ha _].
  destruct (bool_decide _) eqn:Hd; [done|]. bool_to_prop. intros [= E].
  case_decide as Hdot; [subst q; apply root_canonical|].
  assert (root_directory q = false) as Hr.
  { subst q. unfold lexically_normal, is_absolute in *. rewrite He. destruct (normalize_names _ _ _ _) as [[|x l] sep]; done. }
  destruct (decide (q = root)) as [->|Hne]; [apply root_canonical|].
  destruct Hf as [->|Hf]; [done|]. rewrite <- E in *. unfold path_elements in Hd. rewrite Hr in Hd. simpl in Hd.
  destruct (lexically_normal_inside (of_string s)) as [_ _ Hall]; try done.
  - intros Hnil. apply Hne. destruct (lexically_normal (of_string s)) as [r ns]; simpl in *; by subst.
  - unfold has_filename in Hf. apply negb_true_iff in Hf. by apply is_nil_false.
  - intros Hfd. apply Hdot. by apply lexically_normal_dot.
Qed.

(** ** The tree *)

Definition node_ok (n : Node) : Prop :=
  match info n with
  | AFile f => ∃ c, content n = Some c ∧ file_size f = length c
  | ADirectory _ => content n = None
  end.

Definition directory_at (m : gmap path Node) (p : path) : Prop :=
  ∃ n, m !! p = Some n ∧ holds_directory (info n) = true.

(** The entries are a tree: a directory at the root, every other entry in a
    directory, and every file with as many bytes as it says. *)
Record well_formed (s : Impl) : Prop := {
  wf_root : directory_at (m_entries s) root;
  wf_canonical p n : m_entries s !! p = Some n → canonical p;
  wf_parent p n : m_entries s !! p = Some n → p ≠ root → directory_at (m_entries s) (parent_path p);
  wf_node p n : m_entries s !! p = Some n → node_ok n;
}.

Lemma create_well_formed : well_formed create.
Proof.
  constructor; simpl.
  - eexists. by rewrite lookup_singleton_eq.
  - intros p n [<- <-]%lookup_singleton_Some. apply root_canonical.
  - intros p n [<- <-]%lookup_singleton_Some. done.
  - intros p n [<- <-]%lookup_singleton_Some. done.
Qed.

Lemma find_Value s p n : find s p = Value n ↔ ∃ q, normalize p = Some q ∧ m_entries s !! q = Some n.
Proof.
  unfold find, missing. destruct (normalize p) as [q|]; [|naive_solver].
  destruct (m_entries s !! q) eqn:E; naive_solver.
Qed.

Lemma find_canonical s p n : canonical p → find s p = Value n ↔ m_entries s !! p = Some n.
Proof. intros Hp. rewrite find_Value, normalize_canonical by done. naive_solver. Qed.

Lemma status_Value s p i : status_of s p = Value i ↔ ∃ n, find s p = Value n ∧ info n = i.
Proof. unfold status_of. destruct (find s p); simpl; naive_solver. Qed.

Lemma holds_directory_true i : holds_directory i = true ↔ ∃ d, i = ADirectory d.
Proof. destruct i; simpl; naive_solver. Qed.

Lemma is_directory_at_find s p :
  is_directory_at s p ↔ ∃ n, find s p = Value n ∧ holds_directory (info n) = true.
Proof.
  unfold is_directory_at. simpl. setoid_rewrite status_Value. setoid_rewrite holds_directory_true. naive_solver.
Qed.

Lemma parent_child p n : canonical p → is_name n → parent_path (child p n) = p ∧ filename (child p n) = n ∧ child p n ≠ p.
Proof.
  intros Hp Hn. rewrite child_names by done. unfold parent_path, filename. simpl.
  rewrite removelast_last, last_snoc. destruct p as [r ns], Hp as [Hr Hp]. simpl in *. subst. split_and!; [done..|].
  intros [= E]. apply (f_equal length) in E. rewrite length_app in E. simpl in E. lia.
Qed.

Lemma child_parent k : canonical k → k ≠ root →
  canonical (parent_path k) ∧ is_name (filename k) ∧ child (parent_path k) (filename k) = k.
Proof.
  intros [Hr Hk] Hne. destruct k as [r ns]. simpl in *. subst.
  assert (ns ≠ []) as Hns by (intros ->; done).
  pose proof (path_split (Path false ns) Hns) as Hs. simpl in Hs.
  rewrite Hs in Hk. apply Forall_app in Hk as [Hk1 Hk2]. rewrite Forall_singleton in Hk2.
  assert (canonical (parent_path (Path false ns))) as Hc by by split.
  split; [exact Hc|split; [exact Hk2|]]. rewrite child_names by done. simpl. by rewrite <- Hs.
Qed.

Lemma in_order_keys {A} (m : gmap path A) : NoDup (in_order m).*1.
Proof. unfold in_order. rewrite sort_by_perm. apply NoDup_fst_map_to_list. Qed.

Lemma bounded_depth (m : gmap path Node) : ∃ depth, ∀ p n, m !! p = Some n → length (names p) ≤ depth.
Proof.
  induction m as [|p n m Hp [depth IH]] using map_ind.
  - exists 0. intros p n. by rewrite lookup_empty.
  - exists (length (names p) + depth). intros q k [[<- <-]|[? Hq]]%lookup_insert_Some; [lia|].
    specialize (IH q k Hq). lia.
Qed.

(** The children a listing finds. *)
Definition entry_at (q : path) (e : path * Node) : option TreeEntry :=
  if negb (bool_decide (e.1 = q)) && bool_decide (parent_path e.1 = q)
  then Some {| entry_name := filename e.1; entry_info := info e.2 |} else None.

Lemma entry_at_Some q e t :
  entry_at q e = Some t ↔ e.1 ≠ q ∧ parent_path e.1 = q ∧ t = {| entry_name := filename e.1; entry_info := info e.2 |}.
Proof.
  unfold entry_at. destruct (bool_decide (e.1 = q)) eqn:E1, (bool_decide (parent_path e.1 = q)) eqn:E2;
    bool_to_prop; simpl; naive_solver.
Qed.

Lemma entries_distinct (l : list (path * Node)) q :
  NoDup l.*1 → (∀ k n, (k, n) ∈ l → canonical k) → NoDup (entry_name <$> omap (entry_at q) l).
Proof.
  induction l as [|[k n] l IH]; simpl; intros Hnd Hcan; [constructor|].
  apply NoDup_cons in Hnd as [Hk Hnd].
  assert (NoDup (entry_name <$> omap (entry_at q) l)) as Hl.
  { apply IH; [done|]. intros k' n' ?. apply (Hcan k' n'). by right. }
  destruct (entry_at q (k, n)) as [t|] eqn:E; [|done]. simpl. apply NoDup_cons. split; [|done].
  apply entry_at_Some in E as (Hkq & Hp & ->). simpl in *.
  intros (t' & Ht & ([k' n'] & Hin & E)%list_elem_of_omap)%list_elem_of_fmap.
  apply entry_at_Some in E as (Hkq' & Hp' & ->). simpl in *.
  apply Hk. assert (k = k') as ->; [|by apply list_elem_of_fmap; exists (k', n')].
  assert (canonical k) as Hc by (apply (Hcan k n); left).
  assert (canonical k') as Hc' by (apply (Hcan k' n'); by right).
  destruct (decide (k = root)) as [->|Hr]; [by destruct Hkq|].
  destruct (decide (k' = root)) as [->|Hr']; [by destruct Hkq'|].
  destruct (child_parent k Hc Hr) as (_ & _ & <-). destruct (child_parent k' Hc' Hr') as (_ & _ & <-).
  by rewrite Hp, Hp', Ht.
Qed.

#[global] Instance InMemoryDirectoryTree_lawful : LawfulTree Impl well_formed.
Proof.
  constructor.
  - intros s [(n & Hn & Hd) _ _ _]. apply is_directory_at_find. exists n. split; [|done].
    by apply find_canonical; [apply root_canonical|].
  - intros s p n Hs Hp Hn. simpl. destruct (status_of s (child p n)) as [i|] eqn:E; [|done]. intros _.
    apply status_Value in E as (x & Hx & _). apply find_canonical in Hx; [|by apply child_canonical].
    destruct (parent_child p n Hp Hn) as (Hpar & _ & _).
    destruct (wf_parent s Hs _ _ Hx) as (d & Hd & Hdir).
    { rewrite child_names by done. unfold root. intros [= E]. by apply app_nil in E as [_ ?]. }
    rewrite Hpar in Hd. apply is_directory_at_find. exists d. split; [by apply find_canonical|done].
  - intros s Hs. destruct (bounded_depth (m_entries s)) as [depth Hd]. exists depth.
    intros p Hp. simpl. destruct (status_of s p) as [i|] eqn:E; [|done]. intros _.
    apply status_Value in E as (n & Hn & _). apply find_canonical in Hn; [|done]. by apply (Hd p n).
  - intros s p i Hs. simpl. unfold read_whole_of. rewrite status_Value. split.
    + intros (n & Hn & Hi). rewrite Hn. simpl. rewrite Hi. by eexists.
    + intros (c & Hc & <-). destruct (find s p) as [n|] eqn:E; simpl in Hc; [|done].
      exists n. split; [done|]. destruct (info n) as [f|]; [|done]. by injection Hc as <-.
  - intros s p c Hs. simpl. unfold read_whole_of. destruct (find s p) as [n|] eqn:E; simpl; [|done].
    apply find_Value in E as (q & _ & Hq). pose proof (wf_node s Hs q n Hq) as Hok. unfold node_ok in Hok.
    destruct (info n) as [f|]; [|done]. intros [= <-]. simpl. destruct Hok as (c & -> & ->). done.
  - intros s p Hs (n & Hn & (d & Hd)%holds_directory_true)%is_directory_at_find. simpl.
    unfold read_whole_of. rewrite Hn. simpl. by rewrite Hd.
  - intros s p c offset k Hs. simpl. unfold read_whole_of, read_of, find.
    destruct (normalize p) as [q|]; simpl; [|done]. destruct (m_entries s !! q) as [n|]; simpl; [|done].
    destruct (info n) as [f|]; simpl; [|done]. intros [= <-] Hoff. simpl.
    rewrite bool_decide_false by lia. case_bool_decide; [by subst|].
    case_bool_decide; [|done]. by rewrite drop_ge, take_nil.
  - intros s p Hs. simpl. rewrite is_directory_at_find. unfold ls_of. setoid_rewrite find_Value.
    destruct (normalize p) as [q|]; simpl; [|split; [done|naive_solver]].
    destruct (m_entries s !! q) as [n|] eqn:E; simpl; [|split; [done|naive_solver]].
    destruct (holds_directory (info n)) eqn:Hd; simpl.
    + split; [|done]. intros _. exists n. split; [by exists q|done].
    + split; [done|]. intros (n' & (q' & [= <-] & ?) & ?). simplify_eq. congruence.
  - intros s p es Hs Hp. simpl. unfold ls_of. rewrite normalize_canonical by done.
    destruct (m_entries s !! p) as [n|] eqn:Hn; [|done]. destruct (holds_directory (info n)); [|done].
    intros [= <-]. change (omap _ ?l) with (omap (entry_at p) l). split.
    + apply entries_distinct; [apply in_order_keys|]. intros k x Hk%elem_of_in_order. by apply (wf_canonical s Hs k x).
    + intros m i. rewrite list_elem_of_omap. setoid_rewrite entry_at_Some. split.
      * intros ([k x] & Hk%elem_of_in_order & Hne & Hpar & [= -> ->]). simpl in *.
        pose proof (wf_canonical s Hs k x Hk) as Hc.
        destruct (decide (k = root)) as [->|Hr]; [by destruct Hne|].
        destruct (child_parent k Hc Hr) as (_ & Hname & Hch). split; [done|].
        rewrite <- Hpar, Hch. apply status_Value. exists x. split; [by apply find_canonical|done].
      * intros [Hm (x & Hx & <-)%status_Value]. apply find_canonical in Hx; [|by apply child_canonical].
        destruct (parent_child p m Hp Hm) as (H1 & H2 & H3).
        exists (child p m, x). rewrite elem_of_in_order. simpl. by rewrite H1, H2.
Qed.

(** ** What the mutators do *)

Lemma asserted_Some b u : asserted b = Some u ↔ b = true.
Proof. by destruct b, u. Qed.

Lemma under_root_Some p q : under_root p = Some q ↔ normalize p = Some q ∧ is_empty q = false.
Proof.
  unfold under_root. destruct (normalize p) as [q'|]; simpl; [|naive_solver].
  destruct (is_empty q') eqn:E; split.
  - done.
  - intros [[= ->] ?]. congruence.
  - by intros [= ->].
  - by intros [[= ->] _].
Qed.

Lemma parent_is_directory_true s q : parent_is_directory s q = true ↔ directory_at (m_entries s) (parent_path q).
Proof. unfold parent_is_directory, directory_at. destruct (m_entries s !! parent_path q); naive_solver. Qed.

(** [s'] is [s] with other entries, its subscribers told of [d]. *)
Definition tells (d : DirectoryTreeDiff) (m : gmap path Node) (s s' : Impl) : Prop :=
  s' = notify_subscribers d (set_entries m s).

Definition file_node (c : str) (mtime : Z) : Node :=
  {| info := AFile {| file_size := length c; file_mtime := mtime |}; content := Some c |}.
Definition directory_node (mtime : Z) : Node :=
  {| info := ADirectory {| directory_mtime := mtime |}; content := None |}.

Lemma write_file_Some p c mtime s s' :
  write_file p c mtime s = Some s' ↔
  ∃ q, normalize p = Some q ∧ is_empty q = false ∧ directory_at (m_entries s) (parent_path q) ∧
    ¬ directory_at (m_entries s) q ∧
    tells (changes [q] (match m_entries s !! q with None => [parent_path q] | Some _ => [] end))
          (<[q := file_node c mtime]> (m_entries s)) s s'.
Proof.
  unfold write_file, tells. split.
  - intros (q & [Hq He]%under_root_Some & ([] & Hp%asserted_Some & ([] & Hn%asserted_Some & [= <-])%bind_Some)
      %bind_Some)%bind_Some.
    exists q. split_and!; [done|done|by apply parent_is_directory_true| |done].
    intros (n & Hn' & Hd). by rewrite Hn', Hd in Hn.
  - intros (q & Hq & He & Hp%parent_is_directory_true & Hno & ->).
    rewrite (proj2 (under_root_Some p q)) by done. simpl. rewrite Hp. simpl.
    destruct (m_entries s !! q) as [n|] eqn:E; [|done].
    destruct (holds_directory (info n)) eqn:Hd; [|done]. destruct Hno. by exists n.
Qed.

Lemma make_directory_Some p mtime s s' :
  make_directory p mtime s = Some s' ↔
  ∃ q, normalize p = Some q ∧ is_empty q = false ∧ directory_at (m_entries s) (parent_path q) ∧
    m_entries s !! q = None ∧
    tells (changes [q] [parent_path q]) (<[q := directory_node mtime]> (m_entries s)) s s'.
Proof.
  unfold make_directory, tells. split.
  - intros (q & [Hq He]%under_root_Some & ([] & Hp%asserted_Some & ([] & Hn%asserted_Some & [= <-])%bind_Some)
      %bind_Some)%bind_Some. bool_to_prop.
    exists q. split_and!; [done|done|by apply parent_is_directory_true|done|done].
  - intros (q & Hq & He & Hp%parent_is_directory_true & Hno & ->).
    rewrite (proj2 (under_root_Some p q)) by done. simpl. rewrite Hp. simpl. by rewrite bool_decide_true.
Qed.

Lemma remove_Some p s s' :
  remove p s = Some s' ↔
  ∃ q, normalize p = Some q ∧ is_empty q = false ∧ m_entries s !! q ≠ None ∧
    tells (changes (filter (λ e, goes_with q e.1 = true) (in_order (m_entries s))).*1 [parent_path q])
          (filter (λ e, goes_with q e.1 = false) (m_entries s)) s s'.
Proof.
  unfold remove, tells. split.
  - intros (q & [Hq He]%under_root_Some & ([] & Hn%asserted_Some & [= <-])%bind_Some)%bind_Some.
    bool_to_prop. by exists q.
  - intros (q & Hq & He & Hno & ->).
    rewrite (proj2 (under_root_Some p q)) by done. simpl. by rewrite bool_decide_true.
Qed.

Lemma set_mtime_Some p mtime s s' :
  set_mtime p mtime s = Some s' ↔
  ∃ q n, normalize p = Some q ∧ m_entries s !! q = Some n ∧
    tells (changes [q] []) (<[q := {| info := set_info_mtime mtime (info n); content := content n |}]> (m_entries s)) s s'.
Proof.
  unfold set_mtime, tells. split.
  - intros (q & Hq & (n & Hn & [= <-])%bind_Some)%bind_Some. by exists q, n.
  - intros (q & n & Hq & Hn & ->). rewrite Hq. simpl. by rewrite Hn.
Qed.

(** [k] is [q] or below it. *)
Lemma goes_with_true q k : canonical q → canonical k →
  goes_with q k = true ↔ names q `prefix_of` names k.
Proof.
  intros [Hq _] [Hk _]. destruct q as [r ns], k as [r' ms]. simpl in *. subst. unfold goes_with, is_within, path_elements. simpl.
  rewrite orb_true_iff, bool_decide_eq_true.
  assert (∀ a b, runs_out a b = true ↔ ∃ x l, b = a ++ x :: l) as Hrun.
  { induction a as [|x a IH]; intros [|y b]; simpl.
    - split; [done|]. by intros (? & ? & ?).
    - split; [by eexists _, _|done].
    - split; [done|]. by intros (? & ? & ?).
    - rewrite andb_true_iff, bool_decide_eq_true, IH. naive_solver. }
  rewrite Hrun. split.
  - intros [[= ->]|(x & l & ->)]; [done|by eexists].
  - intros [[|x l] ->]; [left; by rewrite app_nil_r|right; by eexists _, _].
Qed.

Lemma parent_prefix q k : canonical k → k ≠ root →
  names q `prefix_of` names (parent_path k) → names q `prefix_of` names k.
Proof.
  intros Hk Hne Hp. etrans; [done|]. destruct k as [r ns], Hk as [Hr Hk]. simpl in *. subst.
  destruct ns as [|x l _] using rev_ind; [done|]. rewrite removelast_last. by apply prefix_app_r.
Qed.

Lemma well_formed_insert s q n m d :
  well_formed s → canonical q → q ≠ root → directory_at (m_entries s) (parent_path q) → node_ok n →
  (directory_at (m_entries s) q → holds_directory (info n) = true) →
  tells d (<[q := n]> (m_entries s)) s m → well_formed m.
Proof.
  intros Hs Hq Hne Hpar Hn Hdir ->. constructor; simpl.
  - destruct (wf_root s Hs) as (r & ? & ?). exists r. by rewrite lookup_insert_ne.
  - intros p x [[<- _]|[_ Hx]]%lookup_insert_Some; [done|]. by apply (wf_canonical s Hs p x).
  - assert (∀ p, directory_at (m_entries s) p → directory_at (<[q := n]> (m_entries s)) p) as Hmono.
    { intros p (x & Hx & Hd). destruct (decide (q = p)) as [<-|].
      - exists n. rewrite lookup_insert_eq. split; [done|]. apply Hdir. by exists x.
      - exists x. by rewrite lookup_insert_ne. }
    intros p x [[<- _]|[_ Hx]]%lookup_insert_Some Hp; apply Hmono; [done|]. by apply (wf_parent s Hs p x).
  - intros p x [[_ <-]|[_ Hx]]%lookup_insert_Some; [done|]. by apply (wf_node s Hs p x).
Qed.

(** What is asked of a caller: the path names an entry, so it ends in a name. *)
Definition names_entry (p : path) : Prop := ∃ q, normalize p = Some q ∧ canonical q.
Definition allowed (o : operation) : Prop :=
  match o with WriteFile p _ _ | MakeDirectory p _ => names_entry p | _ => True end.

Lemma not_empty_root q : canonical q → is_empty q = false → q ≠ root.
Proof. intros _ He ->. done. Qed.

Lemma perform_well_formed o s s' :
  well_formed s → allowed o → perform o s = Some s' → well_formed s'.
Proof.
  intros Hs Ho. destruct o as [p c mtime|p mtime|p|p mtime|i|i]; simpl.
  - intros (q & Hq & He & Hpar & Hno & Ht)%write_file_Some. destruct Ho as (q' & Hq' & Hc). simplify_eq.
    eapply (well_formed_insert s q' (file_node c mtime)); try done.
    + by apply not_empty_root.
    + by exists c.
  - intros (q & Hq & He & Hpar & Hno & Ht)%make_directory_Some. destruct Ho as (q' & Hq' & Hc). simplify_eq.
    eapply (well_formed_insert s q' (directory_node mtime)); try done. by apply not_empty_root.
  - intros (q & Hq & He & Hin & ->)%remove_Some. destruct (m_entries s !! q) as [nq|] eqn:Hnq; [|done].
    pose proof (wf_canonical s Hs q nq Hnq) as Hc. pose proof (not_empty_root q Hc He) as Hne.
    assert (∀ k n, filter (λ e : path * Node, goes_with q e.1 = false) (m_entries s) !! k = Some n ↔
      m_entries s !! k = Some n ∧ ¬ names q `prefix_of` names k) as Hf.
    { intros k n. rewrite map_lookup_filter_Some. simpl. apply and_iff_given; intros Hk.
      rewrite <- goes_with_true by (done || by apply (wf_canonical s Hs k n)). by rewrite not_true_iff_false. }
    constructor; simpl; unfold directory_at; setoid_rewrite Hf.
    + destruct (wf_root s Hs) as (r & Hr & Hd). exists r. split_and!; [done| |done].
      intros Hp%prefix_nil_inv. apply Hne. destruct q, Hc as [Hr' _]. simpl in *. by subst.
    + intros k n [Hk _]. by apply (wf_canonical s Hs k n).
    + intros k n [Hk Hnp] Hkr. destruct (wf_parent s Hs k n Hk Hkr) as (d & Hd & Hdir).
      exists d. split_and!; [done| |done]. intros Hp. apply Hnp. apply parent_prefix; [|done|done].
      by apply (wf_canonical s Hs k n).
    + intros k n [Hk _]. by apply (wf_node s Hs k n).
  - intros (q & n & Hq & Hn & ->)%set_mtime_Some. pose proof (wf_canonical s Hs q n Hn) as Hc.
    assert (∀ x, holds_directory (set_info_mtime mtime x) = holds_directory x) as Hh by by intros [].
    set (n' := {| info := set_info_mtime mtime (info n); content := content n |}).
    assert (∀ p, directory_at (m_entries s) p → directory_at (<[q := n']> (m_entries s)) p) as Hmono.
    { intros p' (x & Hx & Hd). destruct (decide (q = p')) as [<-|].
      - exists n'. rewrite lookup_insert_eq. simplify_eq. split; [done|]. simpl. by rewrite Hh.
      - exists x. by rewrite lookup_insert_ne. }
    constructor; simpl.
    + apply Hmono, Hs.
    + intros p' x [[<- _]|[_ Hx]]%lookup_insert_Some; [done|]. by apply (wf_canonical s Hs p' x).
    + intros p' x [[<- _]|[_ Hx]]%lookup_insert_Some Hp; apply Hmono; [by apply (wf_parent s Hs q n)|].
      by apply (wf_parent s Hs p' x).
    + intros p' x [[_ <-]|[_ Hx]]%lookup_insert_Some; [|by apply (wf_node s Hs p' x)].
      pose proof (wf_node s Hs q n Hn) as Hok. unfold node_ok in *. simpl. by destruct (info n).
  - unfold subscribe_to_changes. intros (? & ? & [= <-])%bind_Some. by destruct Hs; constructor.
  - intros [= <-]. by destruct Hs; constructor.
Qed.

Lemma perform_all_well_formed os s s' :
  well_formed s → Forall allowed os → perform_all os s = Some s' → well_formed s'.
Proof.
  intros Hs Hos. revert s Hs. induction Hos as [|o os Ho Hos IH]; intros s Hs; simpl.
  - by intros [= <-].
  - destruct (perform o s) as [s1|] eqn:E; simpl; [|done]. apply IH. by apply (perform_well_formed o s).
Qed.

Lemma names_entry_of_string s :
  match normalize (of_string s) with Some q => bool_decide (q = root) || has_filename q | None => false end = true →
  names_entry (of_string s).
Proof.
  unfold names_entry. destruct (normalize (of_string s)) as [q|] eqn:E; [|done]. intros Hq. exists q.
  split; [done|]. apply (normalize_of_string s); [done|]. apply orb_prop in Hq as [H|?]; [left|by right].
  by apply bool_decide_eq_true in H.
Qed.

Lemma ex_operations_allowed : Forall allowed ex_operations.
Proof.
  repeat constructor; simpl; apply names_entry_of_string; by vm_compute.
Qed.

Lemma ex_tree_well_formed : well_formed ex_tree.
Proof.
  apply (perform_all_well_formed ex_operations create); [apply create_well_formed|apply ex_operations_allowed|].
  vm_compute. reflexivity.
Qed.

(** C39. However a tree in memory is built up and changed, and whenever anyone
    subscribes, its entries stay a tree, and it is a [DirectoryTree] that keeps
    every law of one. *)
Theorem memory_tree_stays_a_tree (os : list operation) (s : Impl) :
  Forall allowed os → perform_all os create = Some s →
  well_formed s ∧ LawfulTree Impl well_formed.
Proof.
  intros Hos Hrun. split; [|apply _]. apply (perform_all_well_formed os create); [|done..].
  apply create_well_formed.
Qed.

Lemma memory_tree_stays_a_tree_witness : perform_all ex_operations create = Some ex_tree ∧ well_formed ex_tree.
Proof.
  assert (perform_all ex_operations create = Some ex_tree) as Hrun by (vm_compute; reflexivity).
  split; [exact Hrun|].
  exact (proj1 (memory_tree_stays_a_tree ex_operations ex_tree ex_operations_allowed Hrun)).
Defined.

(** Each mutator of the tree does exactly what it says. Writing gives the
    file its bytes, size and time; making a directory makes it; removing takes
    away an entry and all below it; setting a time sets it; every other path
    has what it had. They succeed just when what they ask for holds. *)
Theorem mutators_exact (s : Impl) (p q : path) (c : str) (mtime : Z) :
  well_formed s → normalize p = Some q → canonical q → q ≠ root →
  (is_Some (write_file p c mtime s) ↔
     is_directory_at s (parent_path q) ∧ ¬ is_directory_at s q) ∧
  (is_Some (make_directory p mtime s) ↔
     is_directory_at s (parent_path q) ∧ has_value (status s q) = false) ∧
  (is_Some (remove p s) ↔ has_value (status s q) = true) ∧
  (∀ s' x, write_file p c mtime s = Some s' → canonical x →
     find s' x = if decide (x = q) then Value (file_node c mtime) else find s x) ∧
  (∀ s' x, make_directory p mtime s = Some s' → canonical x →
     find s' x = if decide (x = q) then Value (directory_node mtime) else find s x) ∧
  (∀ s' x, remove p s = Some s' → canonical x →
     find s' x = if decide (names q `prefix_of` names x) then missing else find s x) ∧
  (∀ s' x, set_mtime p mtime s = Some s' → canonical x →
     status s' x = if decide (x = q)
                   then i ← status s q; Value (set_info_mtime mtime i) else status s x).
Proof.
  intros Hs Hq Hc Hne.
  assert (is_empty q = false) as He.
  { destruct q as [r ns], Hc as [Hr _]. simpl in *. subst. destruct ns; [done|done]. }
  assert (∀ x, canonical x → directory_at (m_entries s) x ↔ is_directory_at s x) as Hdir.
  { intros x Hx. rewrite is_directory_at_find. unfold directory_at.
    setoid_rewrite find_canonical; [done|done]. }
  assert (canonical (parent_path q)) as Hcp by by apply child_parent.
  assert (∀ x, canonical x → has_value (status s x) = true ↔ is_Some (m_entries s !! x)) as Hval.
  { intros x Hx. simpl. unfold status_of, find. rewrite normalize_canonical by done.
    destruct (m_entries s !! x); simpl; split; try done; by intros [? [=]]. }
  assert (∀ s' x, canonical x → find s' x = match m_entries s' !! x with Some n => Value n | None => missing end)
    as Hfind by (intros s' x Hx; unfold find; by rewrite normalize_canonical).
  split_and!.
  - rewrite <- !Hdir by done. split.
    + intros (s' & (q' & ? & _ & ? & ? & _)%write_file_Some). by simplify_eq.
    + intros [? ?]. eexists. apply write_file_Some. by exists q.
  - rewrite <- Hdir, <- not_true_iff_false, Hval, <- eq_None_not_Some by done. split.
    + intros (s' & (q' & ? & _ & ? & ? & _)%make_directory_Some). by simplify_eq.
    + intros [? ?]. eexists. apply make_directory_Some. by exists q.
  - rewrite Hval, <- (not_eq_None_Some (m_entries s !! q)) by done. split.
    + intros (s' & (q' & ? & _ & ? & _)%remove_Some). by simplify_eq.
    + intros ?. eexists. apply remove_Some. by exists q.
  - intros s' x (q' & ? & _ & _ & _ & ->)%write_file_Some Hx. simplify_eq. rewrite !Hfind by done. simpl.
    case_decide; [subst; by rewrite lookup_insert_eq|by rewrite lookup_insert_ne].
  - intros s' x (q' & ? & _ & _ & _ & ->)%make_directory_Some Hx. simplify_eq. rewrite !Hfind by done. simpl.
    case_decide; [subst; by rewrite lookup_insert_eq|by rewrite lookup_insert_ne].
  - intros s' x (q' & ? & _ & _ & ->)%remove_Some Hx. simplify_eq. rewrite !Hfind by done. simpl.
    rewrite map_lookup_filter. destruct (m_entries s !! x) as [n|]; simpl; [|by case_decide].
    pose proof (goes_with_true q x Hc Hx) as Hg.
    destruct (goes_with q x); case_decide as Hp; simpl; naive_solver.
  - intros s' x (q' & n & ? & Hn & ->)%set_mtime_Some Hx. simplify_eq. simpl. unfold status_of.
    rewrite !Hfind by done. simpl. case_decide; [subst; rewrite lookup_insert_eq, Hn; done|].
    by rewrite lookup_insert_ne.
Qed.

Lemma mutators_exact_witness :
  ∃ s', write_file (of_string (lit "src/./b.c")) (lit "z") 9 ex_tree = Some s' ∧
    find s' (of_string (lit "src/b.c")) = Value (file_node (lit "z") 9) ∧
    find s' (of_string (lit "b")) = find ex_tree (of_string (lit "b")).
Proof.
  pose proof ex_tree_well_formed as Hs.
  assert (canonical (of_string (lit "src/b.c")) ∧ canonical (of_string (lit "b"))) as [Hc Hb].
  { split; [apply (normalize_of_string (lit "src/b.c"))|apply (normalize_of_string (lit "b"))];
      try (vm_compute; reflexivity); right; vm_compute; reflexivity. }
  destruct (mutators_exact ex_tree (of_string (lit "src/./b.c")) (of_string (lit "src/b.c")) (lit "z") 9 Hs
    ltac:(vm_compute; reflexivity) Hc ltac:(by vm_compute)) as (_ & _ & _ & H & _).
  destruct (write_file (of_string (lit "src/./b.c")) (lit "z") 9 ex_tree) as [s'|] eqn:E;
    [|vm_compute in E; discriminate E].
  exists s'. split; [reflexivity|]. split.
  - rewrite (H s' _ eq_refl Hc). rewrite decide_True by reflexivity. reflexivity.
  - rewrite (H s' _ eq_refl Hb). rewrite decide_False; [reflexivity|]. apply (bool_decide_unpack _). vm_compute. exact I.
Defined.

(** The names a listing gives, in no order. *)
Definition listed (s : Impl) (x : path) (n : str) : Prop :=
  match ls s x with Value es => n ∈ entry_name <$> es | Unexpected _ => False end.

Lemma listed_child s x n : well_formed s → canonical x →
  listed s x n ↔ is_name n ∧ has_value (status s (child x n)) = true.
Proof.
  intros Hs Hx. unfold listed. destruct (ls s x) as [es|] eqn:E.
  - by apply (entry_names well_formed).
  - split; [done|]. intros [Hn Hv]. apply (law_parent s x n Hs Hx Hn) in Hv.
    apply (law_ls s x Hs) in Hv. by rewrite E in Hv.
Qed.

(** A diff that names everything that differs. *)
Definition reports (d : DirectoryTreeDiff) (s s' : Impl) : Prop :=
  ∀ x, canonical x → x ∉ entries_changed d →
    status s' x = status s x ∧ read_whole s' x = read_whole s x ∧
    (x ∉ child_lists_changed d → ∀ n, listed s' x n ↔ listed s x n).

(** It is enough that entries elsewhere stay, and that what comes or goes does
    so in a directory reported, or goes with its directory. *)
Lemma reports_entries d s s' :
  well_formed s → well_formed s' →
  (∀ x, canonical x → x ∉ entries_changed d → m_entries s' !! x = m_entries s !! x) →
  (∀ x, canonical x → x ≠ root → x ∈ entries_changed d → parent_path x ∉ entries_changed d →
     parent_path x ∉ child_lists_changed d → is_Some (m_entries s' !! x) ↔ is_Some (m_entries s !! x)) →
  reports d s s'.
Proof.
  intros Hs Hs' Hsame Hkeep x Hx Hnx.
  assert (∀ y, canonical y → m_entries s' !! y = m_entries s !! y → find s' y = find s y) as Hfind.
  { intros y Hy E. unfold find. by rewrite normalize_canonical, E. }
  assert (find s' x = find s x) as E by by apply Hfind, Hsame.
  split_and!.
  - simpl. unfold status_of. by rewrite E.
  - simpl. unfold read_whole_of. by rewrite E.
  - intros Hl n. rewrite !listed_child by done. apply and_iff_given. intros Hn.
    pose proof (child_canonical x n Hx Hn) as Hc. destruct (parent_child x n Hx Hn) as (Hp & _ & Hne).
    assert (∀ s, has_value (status s (child x n)) = true ↔ is_Some (m_entries s !! child x n)) as Hv.
    { intros t. simpl. unfold status_of, find. rewrite normalize_canonical by done.
      destruct (m_entries t !! child x n); simpl; split; try done; by intros [? [=]]. }
    rewrite !Hv. destruct (decide (child x n ∈ entries_changed d)) as [Hin|Hout]; [|by rewrite Hsame].
    apply Hkeep; [done| |done|by rewrite Hp..].
    rewrite child_names by done. unfold root. intros [= E']. by apply app_nil in E' as [_ ?].
Qed.

(** C38. What a change tells the tree's subscribers is all of it, and everyone
    subscribed is told once, in the order they subscribed: any path not among
    the changed entries has the status and the bytes it had, and any directory
    whose children are not reported as changed either lists the same names. *)
Theorem changes_are_reported (s s' : Impl) (o : operation) :
  well_formed s → allowed o → perform o s = Some s' →
  match o with Subscribe _ | Unsubscribe _ => False | _ => True end →
  ∃ d, notified s' = notified s ++ map (λ i, (i, d)) (m_subscribers s) ∧
    everything_dirty d = false ∧ reports d s s'.
Proof.
  intros Hs Ho Hperf Hmut. pose proof (perform_well_formed o s s' Hs Ho Hperf) as Hs'.
  destruct o as [p c mtime|p mtime|p|p mtime|i|i]; simpl in *; [..|done|done].
  - apply write_file_Some in Hperf as (q & _ & _ & _ & _ & ->). eexists. split; [done|]. split; [done|].
    apply reports_entries; [done..| |]; simpl.
    + intros x _ Hx%not_elem_of_cons. rewrite lookup_insert_ne; [done|]. by intros ->; destruct Hx.
    + intros x _ _ ->%list_elem_of_singleton _ Hl. rewrite lookup_insert_eq.
      destruct (m_entries s !! q); [done|]. by destruct Hl; left.
  - apply make_directory_Some in Hperf as (q & _ & _ & _ & _ & ->). eexists. split; [done|]. split; [done|].
    apply reports_entries; [done..| |]; simpl.
    + intros x _ Hx%not_elem_of_cons. rewrite lookup_insert_ne; [done|]. by intros ->; destruct Hx.
    + intros x _ _ ->%list_elem_of_singleton _ Hl. by destruct Hl; left.
  - apply remove_Some in Hperf as (q & _ & _ & Hin & ->). eexists. split; [done|]. split; [done|].
    assert (∀ x, x ∈ (filter (λ e : path * Node, goes_with q e.1 = true) (in_order (m_entries s))).*1 ↔
      is_Some (m_entries s !! x) ∧ goes_with q x = true) as Hrem.
    { intros x. rewrite list_elem_of_fmap. setoid_rewrite list_elem_of_filter. split.
      - intros ([k n] & -> & Hg & Hk%elem_of_in_order). by split; [exists n|].
      - intros [[n Hn] Hg]. exists (x, n). by rewrite elem_of_in_order. }
    apply reports_entries; [done..| |]; simpl; setoid_rewrite Hrem.
    + intros x _ Hx. rewrite map_lookup_filter. destruct (m_entries s !! x) as [n|] eqn:E; [|done]. simpl.
      destruct (goes_with q x) eqn:Hg; [|done]. destruct Hx. by split; [exists n|].
    + intros x Hx Hxr [Hxin Hg] Hnp Hl. destruct Hxin as [n Hn].
      destruct (m_entries s !! q) as [nq|] eqn:Hnq; [|done]. pose proof (wf_canonical s Hs q nq Hnq) as Hc.
      destruct (child_parent x Hx Hxr) as (Hpc & _ & _).
      destruct (wf_parent s Hs x n Hn Hxr) as (np & Hnp' & _).
      exfalso. apply Hnp. split; [by exists np|]. apply goes_with_true; [done..|].
      apply goes_with_true in Hg; [|done..]. destruct Hg as [k Hk].
      destruct k as [|y k _] using rev_ind.
      * destruct Hl. rewrite app_nil_r in Hk. apply list_elem_of_singleton.
        destruct x as [? ?], q as [? ?], Hx as [? _], Hc as [? _]. simpl in *. by subst.
      * exists k. unfold parent_path. simpl. rewrite Hk, app_assoc. by rewrite removelast_last.
  - apply set_mtime_Some in Hperf as (q & n & _ & Hn & ->). eexists. split; [done|]. split; [done|].
    apply reports_entries; [done..| |]; simpl.
    + intros x _ Hx%not_elem_of_cons. rewrite lookup_insert_ne; [done|]. by intros ->; destruct Hx.
    + intros x _ _ ->%list_elem_of_singleton _ _. rewrite lookup_insert_eq. by rewrite Hn.
Qed.

Lemma changes_are_reported_witness :
  ∃ s' d, perform (Remove (of_string (lit "src"))) ex_tree = Some s' ∧
    notified s' = notified ex_tree ++ [(7, d)] ∧ reports d ex_tree s'.
Proof.
  pose proof ex_tree_well_formed as Hs.
  destruct (perform (Remove (of_string (lit "src"))) ex_tree) as [s'|] eqn:E; [|vm_compute in E; discriminate E].
  destruct (changes_are_reported ex_tree s' (Remove (of_string (lit "src"))) Hs I E I) as (d & Hn & _ & Hr).
  exists s', d. split; [reflexivity|]. split; [exact Hn|exact Hr].
Defined.

(** Two trees in memory that differ in one byte. *)
Definition ex_other : Impl := default create (write_file (of_string (lit "b")) (lit "xz") 3 ex_tree).
Lemma ex_other_well_formed : well_formed ex_other.
Proof.
  apply (perform_well_formed (WriteFile (of_string (lit "b")) (lit "xz") 3) ex_tree).
  - apply ex_tree_well_formed.
  - apply names_entry_of_string. by vm_compute.
  - vm_compute. reflexivity.
Qed.

Lemma tree_comparison_exact_witness :
  equal ex_tree ex_other 10 = Some false ∧
  ∃ depth answer, equal ex_tree ex_other depth = Some answer ∧
    (answer = true ↔ ∀ p, canonical p → agree_at ex_tree ex_other p).
Proof.
  split; [vm_compute; reflexivity|].
  destruct (tree_comparison_exact well_formed well_formed ex_tree ex_other
    ex_tree_well_formed ex_other_well_formed) as [depth H].
  destruct (H depth (le_n depth)) as (answer & He & Hiff). exists depth, answer. exact (conj He Hiff).
Defined.
