(* ===== verification/FileSnapshots.v ===== *)
(** * Snapshots of files (src/filesnapshots.hpp, src/filesnapshots.cpp)

    The generations a tree's notifications move on, and the newest snapshot of
    each file, held for as long as anyone holds it. A [take] is a coroutine: it
    runs one step at a time, between which the tree changes, notifications come,
    other takes run and snapshots are let go of. [versions] is every state the
    tree has had, oldest first, which nothing of the code reads but the last
    of. Snapshots are known by their addresses, which are free again once a
    snapshot has been deleted. *)

From S2P Require Export DirectoryTree.

Record FileSnapshot := {
  snapshot_path : path;
  snapshot_bytes : str;
  snapshot_mtime : Z;
  generation : nat;
}.

Definition snapshot_info (s : FileSnapshot) : FileInfo :=
  {| file_size := length (snapshot_bytes s); file_mtime := snapshot_mtime s |}.

(** [same] on files. *)
Definition same (a b : FileInfo) : bool :=
  bool_decide (file_size a = file_size b) && bool_decide (file_mtime a = file_mtime b).

(** Where a [take] is. *)
Inductive stage :=
  | Numbered (before : nat)
  | Looked (before : nat) (i : FileInfo)
  | Comparing (before : nat) (i : FileInfo) (address : nat)
  | Reading (before : nat)
  | Made (address : nat)
  | Finished (r : expected error_code nat).

(** The take is of [taken]; it began when the tree had had [since] versions and
    the file's generation was [began]. *)
Record Take := { taken : path; since : nat; began : nat; at_stage : stage }.

Section snapshots.
Context {T : Type} `{DirectoryTree T}.

Record FileSnapshots := {
  versions : list T;
  m_clock : nat;
  m_everything : nat;
  m_generations : gmap path nat;
  m_current : gmap path nat;
  allocated : gmap nat FileSnapshot;
  holders : gmap nat nat;
  takes : gmap nat Take;
}.

Definition start (t : T) : FileSnapshots := {|
  versions := [t]; m_clock := 0; m_everything := 0; m_generations := ∅; m_current := ∅;
  allocated := ∅; holders := ∅; takes := ∅ |}.

Definition set_numbers clock everything generations (s : FileSnapshots) : FileSnapshots := {|
  versions := versions s; m_clock := clock; m_everything := everything; m_generations := generations;
  m_current := m_current s; allocated := allocated s; holders := holders s; takes := takes s |}.
Definition set_current m (s : FileSnapshots) : FileSnapshots := {|
  versions := versions s; m_clock := m_clock s; m_everything := m_everything s;
  m_generations := m_generations s; m_current := m; allocated := allocated s; holders := holders s;
  takes := takes s |}.
Definition set_memory all held (s : FileSnapshots) : FileSnapshots := {|
  versions := versions s; m_clock := m_clock s; m_everything := m_everything s;
  m_generations := m_generations s; m_current := m_current s; allocated := all; holders := held;
  takes := takes s |}.
Definition set_takes m (s : FileSnapshots) : FileSnapshots := {|
  versions := versions s; m_clock := m_clock s; m_everything := m_everything s;
  m_generations := m_generations s; m_current := m_current s; allocated := allocated s;
  holders := holders s; takes := m |}.
Definition add_version t (s : FileSnapshots) : FileSnapshots := {|
  versions := versions s ++ [t]; m_clock := m_clock s; m_everything := m_everything s;
  m_generations := m_generations s; m_current := m_current s; allocated := allocated s;
  holders := holders s; takes := takes s |}.

(** One path of a diff that does not say everything is dirty. *)
Definition entry_changed (s : FileSnapshots) (p : path) : FileSnapshots :=
  set_current (delete p (m_current s))
    (set_numbers (S (m_clock s)) (m_everything s) (<[p := S (m_clock s)]> (m_generations s)) s).

Definition changed (d : DirectoryTreeDiff) (s : FileSnapshots) : FileSnapshots :=
  if everything_dirty d
  then set_current ∅ (set_numbers (S (m_clock s)) (S (m_clock s)) ∅ s)
  else foldl entry_changed s (entries_changed d).

Definition generation_of (s : FileSnapshots) (p : path) : nat :=
  Nat.max (m_everything s) (default 0 (m_generations s !! p)).
Definition latest (s : FileSnapshots) : nat := m_clock s.
Definition held (s : FileSnapshots) : nat := size (m_current s).

Definition holders_of (s : FileSnapshots) (a : nat) : nat := default 0 (holders s !! a).
Definition hold (a : nat) (s : FileSnapshots) : FileSnapshots :=
  set_memory (allocated s) (<[a := S (holders_of s a)]> (holders s)) s.
Definition let_go (a : nat) (s : FileSnapshots) : FileSnapshots :=
  set_memory (allocated s) (<[a := holders_of s a - 1]> (holders s)) s.

(** The deleter, [Forget]. *)
Definition forget (a : nat) (s : FileSnapshots) : FileSnapshots :=
  match allocated s !! a with
  | None => s
  | Some f =>
      let current := if decide (m_current s !! snapshot_path f = Some a)
                     then delete (snapshot_path f) (m_current s) else m_current s in
      set_current current (set_memory (delete a (allocated s)) (delete a (holders s)) s)
  end.

(** [file_status] is what a tree with nothing to build is opened with. *)
Definition file_status (t : T) (p : path) : expected error_code FileInfo := open_by_status t p.

Definition moves (k : nat) (st : stage) (s : FileSnapshots) : FileSnapshots :=
  set_takes (alter (λ x, {| taken := taken x; since := since x; began := began x; at_stage := st |}) k (takes s)) s.

(** One step of the take [k], with [fresh] the address of a snapshot it makes. *)
Definition take_step (k fresh : nat) (s : FileSnapshots) : option FileSnapshots :=
  x ← takes s !! k;
  t ← last (versions s);
  let p := taken x in
  match at_stage x with
  | Numbered before =>
      match file_status t p with
      | Unexpected e => Some (moves k (Finished (Unexpected e)) s)
      | Value i => Some (moves k (Looked before i) s)
      end
  | Looked before i =>
      match m_current s !! p with
      | Some a => if decide (holders_of s a = 0) then Some (moves k (Reading before) s)
                  else Some (moves k (Comparing before i a) (hold a s))
      | None => Some (moves k (Reading before) s)
      end
  | Comparing before i a =>
      f ← allocated s !! a;
      if bool_decide (generation f = before) && same (snapshot_info f) i
      then Some (moves k (Finished (Value a)) s)
      else Some (moves k (Reading before) (let_go a s))
  | Reading before =>
      match read_whole t p with
      | Unexpected e => Some (moves k (Finished (Unexpected e)) s)
      | Value c =>
          if decide (allocated s !! fresh = None) then
            let f := {| snapshot_path := p; snapshot_bytes := bytes c;
                        snapshot_mtime := file_mtime (content_info c); generation := before |} in
            Some (moves k (Made fresh) (set_memory (<[fresh := f]> (allocated s)) (<[fresh := 1]> (holders s)) s))
          else None
      end
  | Made a => Some (moves k (Finished (Value a)) (set_current (<[p := a]> (m_current s)) s))
  | Finished _ => None
  end.

Inductive event :=
  | TreeChanges (t : T)
  | Changed (d : DirectoryTreeDiff)
  | TakeBegins (k : nat) (p : path)
  | TakeGoesOn (k fresh : nat)
  | Holds (a : nat)  (** a holder hands another one a reference *)
  | LetsGo (a : nat)
  | Deletes (a : nat).  (** by whoever let go of the last reference *)

(** The references the takes themselves hold, which nobody else lets go of. *)
Definition is_taking (a : nat) (x : Take) : bool :=
  match at_stage x with Comparing _ _ b | Made b => bool_decide (a = b) | _ => false end.
Definition taking (s : FileSnapshots) (a : nat) : nat :=
  map_sum (λ x, if is_taking a x then 1 else 0) (takes s).

Definition step (e : event) (s : FileSnapshots) : option FileSnapshots :=
  match e with
  | TreeChanges t => Some (add_version t s)
  | Changed d => Some (changed d s)
  | TakeBegins k p =>
      if decide (takes s !! k = None) then
        Some (set_takes (<[k := {| taken := p; since := length (versions s); began := generation_of s p;
                                   at_stage := Numbered (generation_of s p) |}]> (takes s)) s)
      else None
  | TakeGoesOn k fresh => take_step k fresh s
  | Holds a => if decide (taking s a < holders_of s a) then Some (hold a s) else None
  | LetsGo a => if decide (taking s a < holders_of s a) then Some (let_go a s) else None
  | Deletes a => if decide (is_Some (allocated s !! a) ∧ holders_of s a = 0) then Some (forget a s) else None
  end.

Fixpoint run (es : list event) (s : FileSnapshots) : option FileSnapshots :=
  match es with [] => Some s | e :: es' => s' ← step e s; run es' s' end.
End snapshots.
Arguments FileSnapshots : clear implicits.
Arguments event : clear implicits.
