(* ===== verification/FileSnapshotsSpec.v ===== *)
(** * What snapshots promise

    However takes, changes of the tree, notifications and holders interleave. *)

From S2P Require Export FileSnapshots InMemoryTreeSpec.

Section spec.
Context {T : Type} `{DirectoryTree T} (ok : T → Prop) `{!LawfulTree T ok}.
Implicit Types s : FileSnapshots T.

(** [t] was a state of the tree after it had had [n]. *)
Definition seen_since s (n : nat) (t : T) : Prop := ∃ m, n ≤ S m ∧ versions s !! m = Some t.

Definition read_from (f : FileSnapshot) (t : T) : Prop :=
  ∃ c, read_whole t (snapshot_path f) = Value c ∧ snapshot_bytes f = bytes c ∧
       snapshot_mtime f = file_mtime (content_info c).

Definition stage_ok s (x : Take) : Prop :=
  match at_stage x with
  | Numbered before | Reading before => before = began x
  | Looked before i => before = began x ∧
      ∃ t, seen_since s (since x) t ∧ status t (taken x) = Value (AFile i)
  | Comparing before i a => before = began x ∧
      (∃ t, seen_since s (since x) t ∧ status t (taken x) = Value (AFile i)) ∧
      ∃ f, allocated s !! a = Some f ∧ snapshot_path f = taken x
  | Made a => ∃ f t, allocated s !! a = Some f ∧ snapshot_path f = taken x ∧ generation f = began x ∧
      seen_since s (since x) t ∧ read_from f t
  | Finished _ => True
  end.

Record sound s : Prop := {
  so_versions : versions s ≠ [] ∧ Forall ok (versions s);
  so_current p a : m_current s !! p = Some a → ∃ f, allocated s !! a = Some f ∧ snapshot_path f = p;
  so_allocated a f : allocated s !! a = Some f →
    generation f ≤ generation_of s (snapshot_path f) ∧ ∃ t, t ∈ versions s ∧ read_from f t;
  so_numbers : m_everything s ≤ m_clock s ∧ ∀ p g, m_generations s !! p = Some g → g ≤ m_clock s;
  so_takes k x : takes s !! k = Some x →
    stage_ok s x ∧ since x ≤ length (versions s) ∧ began x ≤ generation_of s (taken x);
  so_taking a : taking s a ≤ holders_of s a;
  so_holders a : 0 < holders_of s a → is_Some (allocated s !! a);
}.

Lemma start_sound t : ok t → sound (start t).
Proof.
  intros Ht. constructor; simpl.
  - split; [done|by apply Forall_singleton].
  - intros p a Hp. by rewrite lookup_empty in Hp.
  - intros a f Ha. by rewrite lookup_empty in Ha.
  - split; [lia|]. intros p g Hp. by rewrite lookup_empty in Hp.
  - intros k x Hk. by rewrite lookup_empty in Hk.
  - intros a. done.
  - intros a. unfold holders_of. simpl. rewrite lookup_empty. simpl. lia.
Qed.

(** ** Generations *)

Lemma entry_changed_generation s p q :
  m_everything s ≤ m_clock s → (∀ p g, m_generations s !! p = Some g → g ≤ m_clock s) →
  generation_of (entry_changed s p) q = if decide (p = q) then S (m_clock s) else generation_of s q.
Proof.
  intros He Hg. unfold generation_of; simpl. case_decide as E; [subst; rewrite lookup_insert_eq; simpl; lia|].
  by rewrite lookup_insert_ne.
Qed.

Lemma generation_latest s p :
  m_everything s ≤ m_clock s → (∀ p g, m_generations s !! p = Some g → g ≤ m_clock s) →
  generation_of s p ≤ latest s.
Proof.
  intros He Hg. unfold generation_of, latest. destruct (m_generations s !! p) as [g|] eqn:E; simpl; [|lia].
  specialize (Hg p g E). lia.
Qed.

(** What [changed] does to the numbers. *)
Record moved_on (P : path → Prop) s s' : Prop := {
  mo_numbers : m_everything s' ≤ m_clock s' ∧ ∀ p g, m_generations s' !! p = Some g → g ≤ m_clock s';
  mo_grows p : generation_of s p ≤ generation_of s' p;
  mo_changed p : P p → latest s < generation_of s' p ∧ m_current s' !! p = None;
  mo_same p : ¬ P p → generation_of s' p = generation_of s p ∧ m_current s' !! p = m_current s !! p;
  mo_latest : latest s ≤ latest s';
  mo_rest : versions s' = versions s ∧ allocated s' = allocated s ∧ holders s' = holders s ∧ takes s' = takes s;
}.

Lemma entries_moved_on l s :
  m_everything s ≤ m_clock s → (∀ p g, m_generations s !! p = Some g → g ≤ m_clock s) →
  moved_on (λ p, p ∈ l) s (foldl entry_changed s l).
Proof.
  revert s. induction l as [|q l IH]; intros s He Hg; simpl.
  - constructor; try done. by intros p ?%elem_of_nil.
  - destruct (IH (entry_changed s q)) as [Hnum Hgrow Hch Hsame Hlat Hrest].
    + simpl. lia.
    + simpl. intros p g [[<- <-]|[_ Hp]]%lookup_insert_Some; [lia|]. specialize (Hg p g Hp). lia.
    + pose proof (λ p, entry_changed_generation s q p He Hg) as Hgen.
      pose proof (λ p, generation_latest s p He Hg) as Hle.
      constructor; try done.
      * intros p. specialize (Hgrow p). rewrite Hgen in Hgrow. specialize (Hle p). unfold latest in *.
        case_decide; lia.
      * intros p [->|Hp]%elem_of_cons.
        -- destruct (decide (q ∈ l)) as [Hin|Hout].
           ++ destruct (Hch q Hin) as [H1 H2]. split; [|done]. unfold latest in *. simpl in H1. lia.
           ++ destruct (Hsame q Hout) as [-> ->]. rewrite Hgen, decide_True by done. simpl.
              rewrite lookup_delete_eq. unfold latest. split; [lia|done].
        -- destruct (Hch p Hp) as [H1 H2]. split; [|done]. unfold latest in *. simpl in H1. lia.
      * intros p [Hpq Hp]%not_elem_of_cons. destruct (Hsame p Hp) as [-> ->].
        rewrite Hgen, decide_False by done. simpl. by rewrite lookup_delete_ne.
      * unfold latest in *. simpl in Hlat. lia.
Qed.

Lemma changed_moved_on d s :
  m_everything s ≤ m_clock s → (∀ p g, m_generations s !! p = Some g → g ≤ m_clock s) →
  moved_on (λ p, everything_dirty d = true ∨ p ∈ entries_changed d) s (changed d s).
Proof.
  intros He Hg. unfold changed. destruct (everything_dirty d) eqn:Ed.
  - pose proof (λ p, generation_latest s p He Hg) as Hle. unfold latest in *.
    constructor; unfold generation_of, latest; simpl; try done.
    + intros p. specialize (Hle p). unfold generation_of in Hle. rewrite lookup_empty. simpl. lia.
    + intros p _. rewrite !lookup_empty. simpl. split; [lia|done].
    + intros p Hn. destruct Hn. by left.
    + lia.
  - destruct (entries_moved_on (entries_changed d) s He Hg) as [H1 H2 H3 H4 H5 H6].
    constructor; try done.
    + intros p [|]; [done|by apply H3].
    + intros p Hn. apply H4. intros ?. apply Hn. by right.
Qed.

(** ** The steps *)

Lemma seen_since_mono s s' n t : (∃ l, versions s' = versions s ++ l) → seen_since s n t → seen_since s' n t.
Proof. intros [l E] (m & ? & Hm). exists m. split; [done|]. rewrite E. by apply lookup_app_l_Some. Qed.

Lemma stage_ok_mono s s' x :
  (∃ l, versions s' = versions s ++ l) →
  (∀ a f, is_taking a x = true → allocated s !! a = Some f → allocated s' !! a = Some f) →
  stage_ok s x → stage_ok s' x.
Proof.
  intros Hv Ha. unfold stage_ok, is_taking in *. destruct (at_stage x) as [b|b i|b i a|b|a|r]; try done.
  - intros (? & t & ? & ?). split; [done|]. exists t. split; [by eapply seen_since_mono|done].
  - intros (? & (t & ? & ?) & f & Hf & ?). split_and!; [done| |].
    + exists t. split; [by eapply seen_since_mono|done].
    + exists f. split; [|done]. apply Ha; [by apply bool_decide_eq_true|done].
  - intros (f & t & Hf & ? & ? & ? & ?). exists f, t. split_and!; try done; [|by eapply seen_since_mono].
    apply Ha; [by apply bool_decide_eq_true|done].
Qed.

Lemma taking_pos s a k x : takes s !! k = Some x → is_taking a x = true → 0 < taking s a.
Proof.
  intros Hk Hx. unfold taking.
  pose proof (map_sum_alter (λ x, if is_taking a x then 1 else 0)
    (λ y, {| taken := taken y; since := since y; began := began y; at_stage := Numbered 0 |}) _ _ _ Hk) as E.
  cbv beta in E. rewrite Hx in E. simpl in E. lia.
Qed.

Definition at_most (b : bool) : nat := if b then 1 else 0.

Lemma moves_sound s k x st :
  sound s → takes s !! k = Some x →
  let x' := {| taken := taken x; since := since x; began := began x; at_stage := st |} in
  stage_ok s x' →
  (∀ a, taking s a + at_most (is_taking a x') ≤ holders_of s a + at_most (is_taking a x)) →
  sound (moves k st s).
Proof.
  intros [Hv Hc Ha Hn Ht Htk Hh] Hk x' Hst Hle. constructor; try done.
  - simpl. intros j y. destruct (decide (k = j)) as [<-|Hne].
    + rewrite lookup_alter_eq, Hk. intros [= <-]. by destruct (Ht k x Hk).
    + rewrite lookup_alter_ne by done. apply Ht.
  - intros a. specialize (Hle a). specialize (Htk a). unfold taking, moves in *. simpl.
    pose proof (map_sum_alter (λ x, if is_taking a x then 1 else 0)
      (λ y, {| taken := taken y; since := since y; began := began y; at_stage := st |}) _ _ _ Hk) as E.
    simpl in E. fold x' in E. unfold at_most in Hle. change (holders_of (set_takes _ s) a) with (holders_of s a). lia.
Qed.

Lemma holders_of_insert s m a n b :
  holders_of (set_memory m (<[a := n]> (holders s)) s) b = if decide (a = b) then n else holders_of s b.
Proof.
  unfold holders_of. simpl. case_decide; [subst; by rewrite lookup_insert_eq|by rewrite lookup_insert_ne].
Qed.

Lemma hold_sound s a : sound s → 0 < holders_of s a → sound (hold a s).
Proof.
  intros [Hv Hc Ha Hn Ht Htk Hh] Hpos. constructor; try done; unfold hold; intros b; rewrite holders_of_insert.
  - specialize (Htk b). change (taking (set_memory _ _ s) b) with (taking s b). case_decide; [subst; lia|done].
  - case_decide; [subst|]; intros ?; apply Hh; [done|lia].
Qed.

Lemma let_go_sound s a : sound s → taking s a < holders_of s a → sound (let_go a s).
Proof.
  intros [Hv Hc Ha Hn Ht Htk Hh] Hlt. constructor; try done; unfold let_go; intros b; rewrite holders_of_insert.
  - specialize (Htk b). change (taking (set_memory _ _ s) b) with (taking s b). case_decide; [subst; lia|done].
  - case_decide; [subst|]; intros ?; apply Hh; lia.
Qed.

Lemma allocate_sound s a f :
  sound s → allocated s !! a = None → generation f ≤ generation_of s (snapshot_path f) →
  (∃ t, t ∈ versions s ∧ read_from f t) →
  sound (set_memory (<[a := f]> (allocated s)) (<[a := 1]> (holders s)) s).
Proof.
  intros [Hv Hc Ha Hn Ht Htk Hh] Hfree Hg Hf.
  assert (∀ b g, allocated s !! b = Some g → <[a := f]> (allocated s) !! b = Some g) as Hkeep.
  { intros b g Hb. rewrite lookup_insert_ne; [done|]. intros ->. congruence. }
  constructor; try done.
  - simpl. intros p b Hp. destruct (Hc p b Hp) as (g & Hb & ?). exists g. by split; [apply Hkeep|].
  - simpl. intros b g [[<- <-]|[_ Hb]]%lookup_insert_Some; [done|]. by apply Ha in Hb.
  - simpl. intros k x Hk. destruct (Ht k x Hk) as (Hs & ?). split; [|done].
    revert Hs. apply stage_ok_mono; [by exists []; rewrite app_nil_r|]. simpl. intros b g _. apply Hkeep.
  - intros b. rewrite holders_of_insert. specialize (Htk b). change (taking (set_memory _ _ s) b) with (taking s b).
    case_decide as E; [subst b|done]. destruct (decide (0 < holders_of s a)) as [Hpos|]; [|lia].
    apply Hh in Hpos as [g Hg']. congruence.
  - intros b. rewrite holders_of_insert. simpl. case_decide as E; [subst; rewrite lookup_insert_eq; by eexists|].
    rewrite lookup_insert_ne by done. apply Hh.
Qed.

Lemma publish_sound s a f :
  sound s → allocated s !! a = Some f → sound (set_current (<[snapshot_path f := a]> (m_current s)) s).
Proof.
  intros [Hv Hc Ha Hn Ht Htk Hh] Hf. constructor; try done.
  simpl. intros p b [[<- <-]|[_ Hp]]%lookup_insert_Some; [by exists f|by apply Hc].
Qed.

Lemma forget_sound s a : sound s → holders_of s a = 0 → sound (forget a s).
Proof.
  intros Hs Hzero. pose proof Hs as [Hv Hc Ha Hn Ht Htk Hh]. unfold forget.
  destruct (allocated s !! a) as [f|] eqn:Hf; [|done]. constructor; try done.
  - simpl. intros p b Hp.
    assert (m_current s !! p = Some b ∧ b ≠ a) as [Hp' Hne].
    { case_decide as E.
      - apply lookup_delete_Some in Hp as [Hne Hp]. split; [done|]. intros ->.
        destruct (Hc p a Hp) as (g & Hg & ?). simplify_eq.
      - split; [done|]. intros ->. apply E. destruct (Hc p a Hp) as (g & Hg & ?). by simplify_eq. }
    destruct (Hc p b Hp') as (g & Hg & ?). exists g. by rewrite lookup_delete_ne.
  - simpl. intros b g [_ Hb]%lookup_delete_Some. by apply Ha in Hb.
  - simpl. intros k x Hk. destruct (Ht k x Hk) as (Hst & ?). split; [|done].
    revert Hst. apply stage_ok_mono; [by exists []; rewrite app_nil_r|]. simpl. intros b g Hx Hb.
    rewrite lookup_delete_ne; [done|]. intros ->.
    pose proof (taking_pos s b k x Hk Hx). specialize (Htk b). lia.
  - intros b. unfold holders_of. simpl. destruct (decide (a = b)) as [<-|Hne].
    + rewrite lookup_delete_eq. simpl. specialize (Htk a). rewrite Hzero in Htk. exact Htk.
    + rewrite lookup_delete_ne by done. apply Htk.
  - intros b. unfold holders_of. simpl. destruct (decide (a = b)) as [<-|Hne].
    + rewrite lookup_delete_eq. simpl. lia.
    + rewrite !lookup_delete_ne by done. apply Hh.
Qed.

Lemma changed_sound s d : sound s → sound (changed d s).
Proof.
  intros [Hv Hc Ha Hn Ht Htk Hh]. destruct Hn as [Hn1 Hn2].
  destruct (changed_moved_on d s Hn1 Hn2) as [Hnum Hgrow Hch Hsame Hlat (E1 & E2 & E3 & E4)].
  constructor; rewrite ?E1, ?E2, ?E4; try done.
  - intros p a Hp. destruct (decide (everything_dirty d = true ∨ p ∈ entries_changed d)) as [Hin|Hout].
    + destruct (Hch p Hin) as [_ ?]. congruence.
    + destruct (Hsame p Hout) as [_ E]. rewrite E in Hp. by apply Hc.
  - intros a f Hf. destruct (Ha a f Hf) as [? ?]. split; [|done]. etrans; [done|apply Hgrow].
  - intros k x Hk. destruct (Ht k x Hk) as (Hst & ? & ?). split_and!; [|done|etrans; [done|apply Hgrow]].
    revert Hst. apply stage_ok_mono; [exists []; by rewrite app_nil_r|]. by rewrite E2.
  - intros a. unfold taking, holders_of. rewrite E3, E4. apply Htk.
  - intros a. unfold holders_of. rewrite E3. apply Hh.
Qed.

Lemma add_version_sound s t : sound s → ok t → sound (add_version t s).
Proof.
  intros [Hv Hc Ha Hn Ht Htk Hh] Hok. constructor; try done; simpl.
  - split; [by destruct (versions s)|]. apply Forall_app. split; [apply Hv|by apply Forall_singleton].
  - intros a f Hf. destruct (Ha a f Hf) as [? (t' & ? & ?)]. split; [done|]. exists t'.
    split; [|done]. apply elem_of_app. by left.
  - intros k x Hk. destruct (Ht k x Hk) as (Hst & ? & ?). split_and!; [|rewrite length_app; lia|done].
    revert Hst. apply stage_ok_mono; [by exists [t]|done].
Qed.

Lemma begin_sound s k p :
  sound s → takes s !! k = None →
  sound (set_takes (<[k := {| taken := p; since := length (versions s); began := generation_of s p;
                              at_stage := Numbered (generation_of s p) |}]> (takes s)) s).
Proof.
  intros [Hv Hc Ha Hn Ht Htk Hh] Hk. constructor; try done; simpl.
  - intros j x [[<- <-]|[_ Hj]]%lookup_insert_Some; [done|by apply (Ht j)].
  - intros a. specialize (Htk a). unfold taking in *. simpl. by rewrite map_sum_insert.
Qed.

Lemma last_version s : sound s → ∃ t, last (versions s) = Some t ∧ ok t ∧ ∀ n, n ≤ length (versions s) → seen_since s n t.
Proof.
  intros [[Hne Hok] _ _ _ _ _ _]. destruct (last (versions s)) as [t|] eqn:E.
  - exists t. split; [done|]. apply last_Some in E as [l E]. split.
    + rewrite Forall_forall in Hok. apply Hok. rewrite E. apply elem_of_app. right. left.
    + intros n Hn. exists (length l). rewrite E, length_app in *. simpl in *. split; [lia|].
      by rewrite list_lookup_middle.
  - by apply last_None in E.
Qed.

Lemma file_status_Value t p i : file_status t p = Value i ↔ status t p = Value (AFile i).
Proof. unfold file_status, open_by_status. destruct (status t p) as [[f|d]|e]; naive_solver. Qed.

Lemma same_true i j : same i j = true ↔ i = j.
Proof.
  unfold same. rewrite andb_true_iff, !bool_decide_eq_true. destruct i, j; simpl.
  split; [by intros [-> ->]|by intros [= -> ->]].
Qed.

Definition with_stage (st : stage) (x : Take) : Take :=
  {| taken := taken x; since := since x; began := began x; at_stage := st |}.

Lemma lookup_moves s k x st : takes s !! k = Some x → takes (moves k st s) !! k = Some (with_stage st x).
Proof. intros Hk. simpl. by rewrite lookup_alter_eq, Hk. Qed.

(** What a step of a take leaves it at. *)
Lemma take_step_sound s s' k fresh :
  sound s → take_step k fresh s = Some s' →
  sound s' ∧ versions s' = versions s ∧
  ∃ x st, takes s !! k = Some x ∧ takes s' !! k = Some (with_stage st x) ∧
    (∀ a, st = Finished (Value a) → 0 < holders_of s' a ∧ ∃ f t u,
       allocated s' !! a = Some f ∧ snapshot_path f = taken x ∧ generation f = began x ∧
       u ∈ versions s' ∧ read_from f u ∧
       seen_since s' (since x) t ∧ status t (taken x) = Value (AFile (snapshot_info f))).
Proof.
  intros Hs Hstep. destruct (last_version s Hs) as (t & Hlast & Hok & Hseen).
  unfold take_step in Hstep. destruct (takes s !! k) as [x|] eqn:Hk; [|done]. simpl in Hstep.
  rewrite Hlast in Hstep. simpl in Hstep.
  destruct (so_takes s Hs k x Hk) as (Hst & Hsince & Hbegan). specialize (Hseen (since x) Hsince).
  pose proof (so_taking s Hs) as Htk.
  assert (∀ a, at_most (is_taking a x) ≤ taking s a) as Hmine.
  { intros a. destruct (is_taking a x) eqn:E; simpl; [|lia]. by apply (taking_pos s a k x). }
  unfold stage_ok in Hst. destruct (at_stage x) as [b|b i|b i a|b|a|r] eqn:Ex.
  - destruct (file_status t (taken x)) as [i|e] eqn:Ei; injection Hstep as <-.
    + split; [|split; [done|]].
      * apply (moves_sound s k x (Looked b i)); [done..| |].
        -- split; [done|]. exists t. split; [done|by apply file_status_Value].
        -- intros a. specialize (Htk a). simpl. lia.
      * exists x, (Looked b i). split_and!; [done|by apply lookup_moves|done].
    + split; [|split; [done|]].
      * apply (moves_sound s k x (Finished (Unexpected e))); [done..|]. intros a. specialize (Htk a). simpl. lia.
      * exists x, (Finished (Unexpected e)). split_and!; [done|by apply lookup_moves|done].
  - destruct Hst as (Hb & Hsaw). destruct (m_current s !! taken x) as [a|] eqn:Ea.
    + destruct (so_current s Hs _ _ Ea) as (f & Hf & Hfp). destruct (decide (holders_of s a = 0)) as [Hz|Hz];
        injection Hstep as <-.
      * split; [|split; [done|]].
        -- apply (moves_sound s k x (Reading b)); [done..|]. intros c. specialize (Htk c). simpl. lia.
        -- exists x, (Reading b). split_and!; [done|by apply lookup_moves|done].
      * split; [|split; [done|]].
        -- apply (moves_sound (hold a s) k x (Comparing b i a)); [apply hold_sound; [done|lia]|done| |].
           ++ split_and!; [done|done|by exists f].
           ++ intros c. unfold hold. rewrite holders_of_insert. specialize (Htk c).
              change (taking (set_memory _ _ s) c) with (taking s c). unfold is_taking at 1. cbn [at_stage].
              destruct (decide (a = c)) as [<-|]; [rewrite bool_decide_true by done; simpl; lia|].
              rewrite bool_decide_false by congruence. simpl. lia.
        -- exists x, (Comparing b i a). split_and!; [done| |done]. by apply (lookup_moves (hold a s)).
    + injection Hstep as <-. split; [|split; [done|]].
      * apply (moves_sound s k x (Reading b)); [done..|]. intros c. specialize (Htk c). simpl. lia.
      * exists x, (Reading b). split_and!; [done|by apply lookup_moves|done].
  - destruct Hst as (Hb & (u & Hu & Hui) & f & Hf & Hfp). rewrite Hf in Hstep. simpl in Hstep.
    assert (is_taking a x = true) as Hxa by (unfold is_taking; rewrite Ex; by apply bool_decide_eq_true).
    pose proof (Hmine a) as Hma. rewrite Hxa in Hma. simpl in Hma. pose proof (Htk a) as Htka.
    destruct (_ && _) eqn:Esame; injection Hstep as <-.
    + apply andb_prop in Esame as [Eg Ei]. apply bool_decide_eq_true in Eg. apply same_true in Ei.
      split; [|split; [done|]].
      * apply (moves_sound s k x (Finished (Value a))); [done..|]. intros c. specialize (Htk c). simpl. lia.
      * exists x, (Finished (Value a)). split_and!; [done|by apply lookup_moves|].
        intros c [= <-]. change (holders_of (moves k _ s) a) with (holders_of s a). split; [lia|].
        destruct (so_allocated s Hs a f Hf) as (_ & w & Hw & Hfw).
        exists f, u, w. split_and!; [done|done|congruence|done|done|done|congruence].
    + change (moves k (Reading b) (let_go a s)) with (let_go a (moves k (Reading b) s)).
      assert (takes (moves k (Reading b) s) !! k = Some (with_stage (Reading b) x)) as Hk'
        by by apply lookup_moves.
      split; [|split; [done|]].
      * apply let_go_sound.
        -- apply (moves_sound s k x (Reading b)); [done..|]. intros c. specialize (Htk c). simpl. lia.
        -- change (holders_of (moves k _ s) a) with (holders_of s a). unfold taking, moves. simpl.
           pose proof (map_sum_alter (λ x, if is_taking a x then 1 else 0)
             (λ y, {| taken := taken y; since := since y; began := began y; at_stage := Reading b |})
             _ _ _ Hk) as E.
           cbv beta in E. rewrite Hxa in E. simpl in E. unfold taking in Htka. lia.
      * exists x, (Reading b). split_and!; [done|done|done].
  - subst b. destruct (read_whole t (taken x)) as [c|e] eqn:Ec.
    + destruct (decide (allocated s !! fresh = None)) as [Hfree|]; [|done]. injection Hstep as <-.
      set (f := {| snapshot_path := taken x; snapshot_bytes := bytes c;
                   snapshot_mtime := file_mtime (content_info c); generation := began x |}).
      assert (read_from f t) as Hft by by exists c.
      set (s1 := set_memory (<[fresh := f]> (allocated s)) (<[fresh := 1]> (holders s)) s).
      assert (sound s1) as Hs1.
      { apply allocate_sound; [done|done|done|]. exists t. split; [|done].
        apply last_Some in Hlast as [l ->]. apply elem_of_app. right. left. }
      assert (taking s fresh = 0) as Hnone.
      { specialize (Htk fresh). destruct (decide (0 < holders_of s fresh)) as [Hpos|]; [|lia].
        apply (so_holders s Hs) in Hpos as [g Hg]. congruence. }
      split; [|split; [done|]].
      * apply (moves_sound s1 k x (Made fresh)); [done|done| |].
        -- exists f, t. split_and!; try done. simpl. by rewrite lookup_insert_eq.
        -- intros d. unfold s1. rewrite holders_of_insert. specialize (Htk d).
           change (taking (set_memory _ _ s) d) with (taking s d). unfold is_taking at 1. cbn [at_stage].
           destruct (decide (fresh = d)) as [<-|]; [rewrite bool_decide_true by done; simpl; lia|].
           rewrite bool_decide_false by congruence. simpl. lia.
      * exists x, (Made fresh). split_and!; [done| |done]. by apply (lookup_moves s1).
    + injection Hstep as <-. split; [|split; [done|]].
      * apply (moves_sound s k x (Finished (Unexpected e))); [done..|]. intros a. specialize (Htk a). simpl. lia.
      * exists x, (Finished (Unexpected e)). split_and!; [done|by apply lookup_moves|done].
  - injection Hstep as <-. destruct Hst as (f & u & Hf & Hfp & Hg & Hu & Hfu).
    assert (is_taking a x = true) as Hxa by (unfold is_taking; rewrite Ex; by apply bool_decide_eq_true).
    pose proof (Hmine a) as Hma. rewrite Hxa in Hma. simpl in Hma. pose proof (Htk a) as Htka.
    rewrite <- Hfp. set (s1 := set_current (<[snapshot_path f := a]> (m_current s)) s).
    split; [|split; [done|]].
    + apply (moves_sound s1 k x (Finished (Value a))); [by apply publish_sound|done..|].
      intros c. specialize (Htk c). change (taking s1 c) with (taking s c).
      change (holders_of s1 c) with (holders_of s c). simpl. lia.
    + exists x, (Finished (Value a)). split_and!; [done|by apply (lookup_moves s1)|].
      intros c [= <-]. change (holders_of (moves k _ s1) a) with (holders_of s a). split; [lia|].
      assert (ok u) as Hoku.
      { destruct Hu as (m & _ & Hm). apply list_elem_of_lookup_2 in Hm.
        destruct (so_versions s Hs) as [_ Hall]. rewrite Forall_forall in Hall. by apply Hall. }
      assert (u ∈ versions s) as Huin by (destruct Hu as (m & _ & Hm); by apply list_elem_of_lookup_2 in Hm).
      exists f, u, u. split_and!; try done. destruct Hfu as (c & Hc & Eb & Em).
      rewrite Hfp in Hc. apply (law_file u (taken x) _ Hoku). exists c. split; [done|].
      unfold snapshot_info. rewrite Eb, Em, <- (law_size u (taken x) c Hoku Hc). by destruct (content_info c).
  - done.
Qed.

(** A step of a take changes no count but its own, and hands the taker what it
    ends with. *)
Definition ends_with_snapshot (st : stage) (a : nat) : bool :=
  match st with Finished (Value b) => bool_decide (a = b) | _ => false end.

Lemma moves_counts s s1 k x st :
  takes s !! k = Some x → takes s1 = takes s →
  (∀ a, holders_of s1 a + at_most (is_taking a x) =
        holders_of s a + at_most (is_taking a (with_stage st x)) + at_most (ends_with_snapshot st a)) →
  ∃ y st', takes s !! k = Some y ∧ takes (moves k st s1) = <[k := with_stage st' y]> (takes s) ∧
    ∀ a, holders_of (moves k st s1) a + taking s a =
         holders_of s a + taking (moves k st s1) a + at_most (ends_with_snapshot st' a).
Proof.
  intros Hk Ht Ha. exists x, st. split; [done|]. split.
  - simpl. by rewrite Ht, (alter_insert _ _ _ x Hk).
  - intros a. specialize (Ha a). change (holders_of (moves k st s1) a) with (holders_of s1 a).
    assert (taking (moves k st s1) a = taking (moves k st s) a) as -> by (unfold taking; simpl; by rewrite Ht).
    pose proof (map_sum_alter (λ x, if is_taking a x then 1 else 0)
      (λ y, {| taken := taken y; since := since y; began := began y; at_stage := st |}) _ _ _ Hk) as E.
    unfold taking, moves. simpl in *. fold (with_stage st x) in E. unfold at_most in *. lia.
Qed.

Lemma take_step_counts s s' k fresh :
  sound s → take_step k fresh s = Some s' →
  ∃ x st, takes s !! k = Some x ∧ takes s' = <[k := with_stage st x]> (takes s) ∧
    ∀ a, holders_of s' a + taking s a = holders_of s a + taking s' a + at_most (ends_with_snapshot st a).
Proof.
  intros Hs Hstep. unfold take_step, mbind, option_bind in Hstep.
  repeat break_match_hyp Hstep; try discriminate Hstep; injection Hstep as <-;
    match goal with E : takes s !! k = Some _ |- _ => rewrite <- E; eapply moves_counts; [exact E|done|] end;
    intros c;
    unfold hold, let_go, is_taking; rewrite ?holders_of_insert; simpl;
    try match goal with E : at_stage _ = _ |- _ => rewrite E end; simpl; try done; repeat case_decide; subst;
    rewrite ?bool_decide_true, ?bool_decide_false by done; simpl; try lia.
  all: try (change (holders_of (set_current _ s)) with (holders_of s)).
  all: try congruence.
  all: try lia.
  all: first
    [assert (holders_of s c = 0) by
       (destruct (decide (0 < holders_of s c)) as [Hc|]; [apply (so_holders s Hs) in Hc as [? ?]; congruence|lia]);
     lia
    |match goal with E : at_stage ?t = Comparing _ _ ?c, Heqo : takes ?s !! ?k = Some ?t |- _ =>
       pose proof (taking_pos s c k t Heqo) as Hpos; unfold is_taking in Hpos; rewrite E in Hpos;
       specialize (Hpos (bool_decide_eq_true_2 (c = c) eq_refl)); pose proof (so_taking s Hs c); lia
     end].
Qed.

(** The trees a run goes through keep their laws. *)
Definition lawful_event (e : event T) : Prop := match e with TreeChanges t => ok t | _ => True end.

Lemma snapshot_step_sound e s s' : sound s → lawful_event e → step e s = Some s' → sound s'.
Proof.
  intros Hs He. destruct e as [t|d|k p|k fresh|a|a|a]; simpl.
  - intros [= <-]. by apply add_version_sound.
  - intros [= <-]. by apply changed_sound.
  - case_decide; [|done]. intros [= <-]. by apply begin_sound.
  - intros Hstep. by eapply take_step_sound.
  - case_decide; [|done]. intros [= <-]. apply hold_sound; [done|lia].
  - case_decide; [|done]. intros [= <-]. by apply let_go_sound.
  - case_decide as Hd; [|done]. intros [= <-]. apply forget_sound; [done|apply Hd].
Qed.

Lemma run_sound es s s' : sound s → Forall lawful_event es → run es s = Some s' → sound s'.
Proof.
  intros Hs Hes. revert s Hs. induction Hes as [|e es He Hes IH]; intros s Hs; simpl; [by intros [= <-]|].
  destruct (step e s) as [s1|] eqn:E; simpl; [|done]. apply IH. by apply (snapshot_step_sound e s).
Qed.

(** C37. A take gives a snapshot of the file asked for, of the generation the file
    had when the take began, whose bytes and time are those of one state of the
    tree, and whose size and time the tree itself reported for the file at some
    moment since; it is allocated, and held for the taker. *)
Theorem takes_give_one_version (t0 : T) (es : list (event T)) s s' (k fresh : nat) (x : Take) (a : nat) :
  ok t0 → Forall lawful_event es → run es (start t0) = Some s →
  take_step k fresh s = Some s' → takes s' !! k = Some x → at_stage x = Finished (Value a) →
  0 < holders_of s' a ∧
  ∃ f, allocated s' !! a = Some f ∧ snapshot_path f = taken x ∧ generation f = began x ∧
    (∃ u c, u ∈ versions s' ∧ read_whole u (taken x) = Value c ∧
       snapshot_bytes f = bytes c ∧ snapshot_mtime f = file_mtime (content_info c)) ∧
    (∃ n t, since x ≤ S n ∧ versions s' !! n = Some t ∧
       status t (taken x) = Value (AFile (snapshot_info f))).
Proof.
  intros H0 Hes Hrun Hstep Hx Hst.
  pose proof (run_sound es (start t0) s (start_sound t0 H0) Hes Hrun) as Hs.
  destruct (take_step_sound s s' k fresh Hs Hstep) as (_ & _ & y & st & Hy & Hy' & Hfin).
  rewrite Hy' in Hx. injection Hx as <-. simpl in Hst.
  destruct (Hfin a Hst) as (Hpos & f & t & u & Hf & Hp & Hg & Hu & (c & Hc & Hb & Hm) & (n & Hn & Ht) & Hi).
  split; [done|]. exists f. simpl. split_and!; [done..| |].
  - exists u, c. rewrite <- Hp. done.
  - by exists n, t.
Qed.

(** A change reported moves on the generation of every file it names, past
    any there was, and takes their snapshots out of the current ones; no other
    file's generation or snapshot changes; and no generation is past the latest. *)
Theorem generations_move_on (t0 : T) (es : list (event T)) s (d : DirectoryTreeDiff) (p : path) :
  ok t0 → Forall lawful_event es → run es (start t0) = Some s →
  generation_of s p ≤ latest s ∧
  (everything_dirty d = true ∨ p ∈ entries_changed d →
     latest s < generation_of (changed d s) p ∧ m_current (changed d s) !! p = None) ∧
  (everything_dirty d = false → p ∉ entries_changed d →
     generation_of (changed d s) p = generation_of s p ∧ m_current (changed d s) !! p = m_current s !! p) ∧
  (∀ a, m_current s !! p = Some a → ∃ f, allocated s !! a = Some f ∧ snapshot_path f = p).
Proof.
  intros H0 Hes Hrun.
  pose proof (run_sound es (start t0) s (start_sound t0 H0) Hes Hrun) as Hs.
  destruct (so_numbers s Hs) as [Hn1 Hn2].
  destruct (changed_moved_on d s Hn1 Hn2) as [_ _ Hch Hsame _ _]. split_and!.
  - by apply generation_latest.
  - apply Hch.
  - intros Hd Hp. apply Hsame. intros [?|?]; [congruence|done].
  - intros a. by apply (so_current s Hs).
Qed.
End spec.

(** A take of [b] while the tree in memory changes it and says so. *)
Definition ex_takes : list (event Impl) :=
  [TakeBegins 1 (of_string (lit "b")); TakeGoesOn 1 0; TakeGoesOn 1 0; TakeGoesOn 1 5;
   TreeChanges ex_other;
   Changed {| everything_dirty := false; entries_changed := [of_string (lit "b")]; child_lists_changed := [] |}].
Definition ex_taken : FileSnapshots Impl := default (start ex_tree) (run ex_takes (start ex_tree)).

Lemma ex_takes_lawful : Forall (lawful_event well_formed) ex_takes.
Proof.
  unfold ex_takes. repeat (apply Forall_cons_2; [first [exact I|apply ex_other_well_formed]|]).
  apply Forall_nil_2.
Qed.

Definition stage_of (o : option (FileSnapshots Impl)) (k : nat) : option stage :=
  s ← o; at_stage <$> takes s !! k.
Lemma ex_takes_run : run ex_takes (start ex_tree) = Some ex_taken.
Proof.
  unfold ex_taken. assert (bool_decide (is_Some (run ex_takes (start ex_tree))) = true) as H by (vm_compute; reflexivity).
  apply bool_decide_eq_true in H as [s ->]. done.
Qed.

Lemma takes_give_one_version_witness :
  ∃ s' x, take_step 1 0 ex_taken = Some s' ∧ takes s' !! 1 = Some x ∧ at_stage x = Finished (Value 5) ∧
    0 < holders_of s' 5.
Proof.
  assert (stage_of (take_step 1 0 ex_taken) 1 = Some (Finished (Value 5))) as Hst by (vm_compute; reflexivity).
  destruct (take_step 1 0 ex_taken) as [s'|] eqn:Hs; [|discriminate Hst].
  unfold stage_of in Hst. simpl in Hst. destruct (takes s' !! 1) as [x|] eqn:Hx; [|discriminate Hst].
  injection Hst as Hst. exists s', x. split; [reflexivity|]. split; [exact Hx|]. split; [exact Hst|].
  exact (proj1 (takes_give_one_version well_formed ex_tree ex_takes ex_taken s' 1 0 x 5
    ex_tree_well_formed ex_takes_lawful ex_takes_run Hs Hx Hst)).
Defined.

Lemma generations_move_on_witness :
  generation_of ex_taken (of_string (lit "b")) = 1 ∧
  generation_of ex_taken (of_string (lit "b")) ≤ latest ex_taken.
Proof.
  split; [vm_compute; reflexivity|].
  exact (proj1 (generations_move_on well_formed ex_tree ex_takes ex_taken
    {| everything_dirty := true; entries_changed := []; child_lists_changed := [] |}
    (of_string (lit "b")) ex_tree_well_formed ex_takes_lawful ex_takes_run)).
Defined.
