(* ===== verification/MountTables.v ===== *)
(** * The tables of the mount (src/virtualfilesystem-linux.cpp)

    What [VirtualFileSystem::Impl] keeps about names, inodes and open handles,
    the attributes it makes up from the tree, and what a read or a listing gives
    back. Each operation is what runs under one lock. An inode or a handle is
    the number the kernel knows it by; a [std::weak_ptr] to a snapshot is its
    address, [FileSnapshots]' [holders] saying whether it has expired. *)

From S2P Require Export FileSnapshots.

(** ** Errors *)

Definition EINTR : Z := 4.
Definition EIO : Z := 5.
Definition ENOENT : Z := 2.
Definition EACCES : Z := 13.
Definition ESTALE : Z := 116.
Definition ECANCELED : Z := 125.
Definition ENOTCONN : Z := 107.

Definition to_errno (e : error_code) : Z :=
  match e with
  | errc_code c => if (0 <? errno_of c)%Z then errno_of c else EIO
  | system_error c => if (0 <? c)%Z then c else EIO
  | _ => EIO
  end.

(** ** Attributes *)

Definition S_IFREG : Z := 32768.
Definition S_IFDIR : Z := 16384.
Definition k_file_mode : Z := Z.lor S_IFREG 365.
Definition directory_mode : Z := Z.lor S_IFDIR 365.

Record timespec := { tv_sec : Z; tv_nsec : Z }.

(** [std::chrono::clock_cast]: libstdc++'s file clock counts from 2174. *)
Definition clock_cast (time : Z) : Z := (time + 6437664000 * 1000000000)%Z.
Definition to_timespec (time : Z) : timespec :=
  let since_epoch := clock_cast time in
  let seconds := (since_epoch `div` 1000000000)%Z in
  {| tv_sec := seconds; tv_nsec := (since_epoch - seconds * 1000000000)%Z |}.

(** [struct stat]; its three times are always the same. *)
Record Stat := { st_mode : Z; st_nlink : nat; st_size : nat; st_times : timespec; st_ino : nat }.

Definition no_time : timespec := {| tv_sec := 0; tv_nsec := 0 |}.
Definition file_attributes (f : FileInfo) : Stat := {|
  st_mode := k_file_mode; st_nlink := 1; st_size := file_size f;
  st_times := to_timespec (file_mtime f); st_ino := 0 |}.
Definition directory_attributes (d : DirectoryInfo) : Stat := {|
  st_mode := directory_mode; st_nlink := 2; st_size := 0;
  st_times := to_timespec (directory_mtime d); st_ino := 0 |}.
Definition with_ino (ino : nat) (s : Stat) : Stat := {|
  st_mode := st_mode s; st_nlink := st_nlink s; st_size := st_size s; st_times := st_times s; st_ino := ino |}.

(** What the notifier is pretending about a path while it creates or removes
    it through the mount. *)
Inductive Pretence := nothing | absent | present_file | present_directory.
#[global] Instance Pretence_eq_dec : EqDecision Pretence.
Proof. solve_decision. Defined.

(** [attributes] without the locks it takes: given what is pretended to the
    caller and the tree's answer, what it replies, negated if it fails, and
    whether the entry is to be remembered. *)
Definition attributes_of (p : Pretence) (answer : expected error_code EntryInfo) : expected Z Stat :=
  if decide (p = absent) then Unexpected (- ENOENT)%Z
  else match answer with
  | Value (AFile f) => Value (file_attributes f)
  | Value (ADirectory d) => Value (directory_attributes d)
  | Unexpected e =>
      match p with
      | present_file => Value {| st_mode := k_file_mode; st_nlink := 1; st_size := 0;
                                 st_times := no_time; st_ino := 0 |}
      | present_directory => Value {| st_mode := directory_mode; st_nlink := 2; st_size := 0;
                                      st_times := no_time; st_ino := 0 |}
      | _ => Unexpected (- to_errno e)%Z
      end
  end.

Definition is_directory_info (i : EntryInfo) : bool :=
  match i with ADirectory _ => true | AFile _ => false end.
Definition file_of (i : EntryInfo) : option FileInfo :=
  match i with AFile f => Some f | ADirectory _ => None end.

(** ** Inodes *)

Record Node := {
  node_path : path;
  lookups : nat;
  opened : option FileInfo;
  node_generation : nat;
  node_snapshot : option nat;
}.
Definition new_node (name : path) : Node := {|
  node_path := name; lookups := 1; opened := None; node_generation := 0; node_snapshot := None |}.
Definition set_lookups (n : nat) (x : Node) : Node := {|
  node_path := node_path x; lookups := n; opened := opened x; node_generation := node_generation x;
  node_snapshot := node_snapshot x |}.
Definition fix_version (i : FileInfo) (g a : nat) (x : Node) : Node := {|
  node_path := node_path x; lookups := lookups x; opened := Some i; node_generation := g;
  node_snapshot := Some a |}.
Definition set_node_snapshot (a : nat) (x : Node) : Node := {|
  node_path := node_path x; lookups := lookups x; opened := opened x; node_generation := node_generation x;
  node_snapshot := Some a |}.

Record Inodes := { m_ids : gmap path nat; m_paths : gmap nat Node; m_next_inode : nat }.

Definition FUSE_ROOT_ID : nat := 1.
Definition root_only : Inodes := {|
  m_ids := {[root := FUSE_ROOT_ID]}; m_paths := {[FUSE_ROOT_ID := new_node root]};
  m_next_inode := FUSE_ROOT_ID |}.

Definition set_paths (m : gmap nat Node) (s : Inodes) : Inodes := {|
  m_ids := m_ids s; m_paths := m; m_next_inode := m_next_inode s |}.

(** Whether the inode of a name is still what the name is: no open has fixed
    it, or the file is still that version. *)
Definition still (x : Node) (file : option FileInfo) (g : nat) : bool :=
  match opened x, file with
  | None, _ => true
  | Some i, Some f => bool_decide (node_generation x = g) && same i f
  | Some _, None => false
  end.

Definition add_inode (name : path) (s : Inodes) : nat * Inodes :=
  let id := S (m_next_inode s) in
  (id, {| m_ids := <[name := id]> (m_ids s); m_paths := emplace id (new_node name) (m_paths s);
          m_next_inode := id |}).

(** [inode], once it knows the file's generation, [g]. *)
Definition inode (name : path) (file : option FileInfo) (g : nat) (s : Inodes) : option (nat * Inodes) :=
  match m_ids s !! name with
  | Some id =>
      x ← m_paths s !! id;
      if still x file g
      then Some (id, set_paths (<[id := set_lookups (S (lookups x)) x]> (m_paths s)) s)
      else Some (add_inode name s)
  | None => Some (add_inode name s)
  end.

(** [path]: [at] throws on an inode there is no node of. *)
Definition path_of (ino : nat) (s : Inodes) : option path := node_path <$> m_paths s !! ino.

Definition forget_inode (ino count : nat) (s : Inodes) : Inodes :=
  match m_paths s !! ino with
  | None => s
  | Some x =>
      if decide (ino = FUSE_ROOT_ID) then s
      else
        let left := lookups x - Nat.min count (lookups x) in
        if decide (left = 0) then {|
          m_ids := if decide (m_ids s !! node_path x = Some ino)
                   then delete (node_path x) (m_ids s) else m_ids s;
          m_paths := delete ino (m_paths s); m_next_inode := m_next_inode s |}
        else set_paths (<[ino := set_lookups left x]> (m_paths s)) s
  end.

(** ** Versions *)

(** Which snapshot an open of an inode serves: the one of the file as the open
    found it, the one the inode is fixed to, or none as that one is gone. *)
Inductive Version := Current | Older (a : nat) | Gone.

Section versions.
Context {T : Type} `{DirectoryTree T}.

(** [std::weak_ptr::lock], without the reference it takes. *)
Definition locked (s : FileSnapshots T) (w : option nat) : option nat :=
  a ← w; if decide (holders_of s a = 0) then None else Some a.

(** [version_for]: what is served. An [Older] one has been held for the
    caller, which lets go of [current] unless it is what is served. *)
Definition version_for (ino current : nat) (s : FileSnapshots T) (i : Inodes) :
    option (Version * FileSnapshots T * Inodes) :=
  f ← allocated s !! current;
  match m_paths i !! ino with
  | None => Some (Current, s, i)
  | Some x =>
      match opened x with
      | None =>
          Some (Current, s,
                set_paths (<[ino := fix_version (snapshot_info f) (generation f) current x]> (m_paths i)) i)
      | Some version =>
          match locked s (node_snapshot x) with
          | Some a => Some (Older a, hold a s, i)
          | None =>
              if bool_decide (node_generation x = generation f) && same version (snapshot_info f)
              then Some (Current, s, set_paths (<[ino := set_node_snapshot current x]> (m_paths i)) i)
              else Some (Gone, s, i)
          end
      end
  end.
End versions.

(** ** Handles *)

Record FileHandle := {
  handle_path : path;
  handle_names : list str;
  handle_snapshot : option nat;
}.
Record Handles := { m_last_handle : nat; m_handles : gmap nat FileHandle }.
Definition no_handles : Handles := {| m_last_handle := 0; m_handles := ∅ |}.

Definition retain (h : FileHandle) (s : Handles) : nat * Handles :=
  let result := S (m_last_handle s) in
  (result, {| m_last_handle := result; m_handles := emplace result h (m_handles s) |}).
Definition drop_handle (fh : nat) (s : Handles) : Handles := {|
  m_last_handle := m_last_handle s; m_handles := delete fh (m_handles s) |}.
Definition snapshot_of (fh : nat) (s : Handles) : option nat := h ← m_handles s !! fh; handle_snapshot h.

(** ** Reading and listing *)

(** What a read of [size] bytes at [offset] gives of a snapshot. *)
Definition slice (content : str) (size offset : nat) : str :=
  let start := Nat.min (length content) offset in
  take (Nat.min size (length content - start)) (drop start content).

Definition listing_of (entries : list TreeEntry) : list str := dot :: dot_dot :: (entry_name <$> entries).

(** [readdir]'s loop. [direntry_size] is how much room libfuse says an entry
    takes; what one page holds is the entries with the offset each is given. *)
Section listing.
Variable direntry_size : str → nat.

Fixpoint fill (room : nat) (i : nat) (names : list str) : list (str * nat) :=
  match names with
  | [] => []
  | n :: names' =>
      if decide (room < direntry_size n) then []
      else (n, S i) :: fill (room - direntry_size n) (S i) names'
  end.
Definition readdir (size offset : nat) (names : list str) : list (str * nat) :=
  fill size offset (drop offset names).

(** A reader goes on from the offset of the last entry it was given until it
    is given none. *)
Fixpoint list_all (fuel size offset : nat) (names : list str) : list str :=
  match fuel with
  | 0 => []
  | S fuel' =>
      match last (readdir size offset names) with
      | None => []
      | Some (_, next) => (readdir size offset names).*1 ++ list_all fuel' size next names
      end
  end.
End listing.
