(* ===== verification/MountNotifier.v ===== *)
(** * The notifier of the mount (src/virtualfilesystem-linux.cpp)

    The queue of changes to announce, the opens whose replies are held back
    until a change has been announced, and a pass of the notifier: where it is,
    and what it does each time it has the lock. A held open is known by its
    request. *)

From S2P Require Export MountTables.

Inductive ChangeKind := modified | added.
#[global] Instance ChangeKind_eq_dec : EqDecision ChangeKind.
Proof. solve_decision. Defined.

Definition Changes := gmap path ChangeKind.

Definition dominant (a b : ChangeKind) : ChangeKind := if decide (b = added) then added else a.
Definition merge_changes (into from : Changes) : Changes := union_with (λ a b, Some (dominant a b)) into from.

Definition changes_of (d : DirectoryTreeDiff) : Changes :=
  foldl (λ m p, emplace p (if decide (parent_path p ∈ child_lists_changed d) then added else modified) m)
    ∅ (entries_changed d).

Record HeldOpen := { held_path : path; held_generation : nat; held_request : nat }.

Record Notifier := {
  m_pending : Changes;
  m_everything_dirty : bool;
  m_stopping : bool;
  m_notifying : bool;
  m_announced : gmap path nat;
  m_announced_everything : nat;
  m_held_opens : list HeldOpen;
}.
Definition quiet : Notifier := {|
  m_pending := ∅; m_everything_dirty := false; m_stopping := false; m_notifying := false;
  m_announced := ∅; m_announced_everything := 0; m_held_opens := [] |}.

Definition set_queue (pending : Changes) (dirty : bool) (n : Notifier) : Notifier := {|
  m_pending := pending; m_everything_dirty := dirty; m_stopping := m_stopping n;
  m_notifying := m_notifying n; m_announced := m_announced n;
  m_announced_everything := m_announced_everything n; m_held_opens := m_held_opens n |}.
Definition set_notifying (b : bool) (n : Notifier) : Notifier := {|
  m_pending := m_pending n; m_everything_dirty := m_everything_dirty n; m_stopping := m_stopping n;
  m_notifying := b; m_announced := m_announced n;
  m_announced_everything := m_announced_everything n; m_held_opens := m_held_opens n |}.
Definition set_announced (m : gmap path nat) (everything : nat) (n : Notifier) : Notifier := {|
  m_pending := m_pending n; m_everything_dirty := m_everything_dirty n; m_stopping := m_stopping n;
  m_notifying := m_notifying n; m_announced := m;
  m_announced_everything := everything; m_held_opens := m_held_opens n |}.
Definition set_held (l : list HeldOpen) (n : Notifier) : Notifier := {|
  m_pending := m_pending n; m_everything_dirty := m_everything_dirty n; m_stopping := m_stopping n;
  m_notifying := m_notifying n; m_announced := m_announced n;
  m_announced_everything := m_announced_everything n; m_held_opens := l |}.
Definition set_stopping (n : Notifier) : Notifier := {|
  m_pending := m_pending n; m_everything_dirty := m_everything_dirty n; m_stopping := true;
  m_notifying := m_notifying n; m_announced := m_announced n;
  m_announced_everything := m_announced_everything n; m_held_opens := m_held_opens n |}.

(** [start_notifying]: also whether it started a pass, which it does unless
    the pass could not be [spawned]. *)
Definition start_notifying (spawned : bool) (n : Notifier) : bool * Notifier :=
  if m_notifying n || m_stopping n then (false, n) else (spawned, set_notifying spawned n).

(** [on_tree_changed], with the snapshots' own part of it done. *)
Definition queue_change (d : DirectoryTreeDiff) (n : Notifier) : Notifier :=
  if everything_dirty d then set_queue (m_pending n) true n
  else set_queue (merge_changes (m_pending n) (changes_of d)) (m_everything_dirty n) n.
Definition on_tree_changed (spawned : bool) (d : DirectoryTreeDiff) (n : Notifier) : bool * Notifier :=
  if m_stopping n then (false, n) else start_notifying spawned (queue_change d n).

Definition announced (p : path) (n : Notifier) : nat :=
  Nat.max (m_announced_everything n) (default 0 (m_announced n !! p)).

(** [reply_when_announced]: whether the reply is to be made now. *)
Definition reply_when_announced (spawned : bool) (p : path) (g request : nat) (n : Notifier) :
    bool * (bool * Notifier) :=
  if negb (m_stopping n) && bool_decide (announced p n < g) then
    (false, start_notifying spawned
       (set_held (m_held_opens n ++ [{| held_path := p; held_generation := g; held_request := request |}]) n))
  else (true, (false, n)).

Definition still_held (n : Notifier) (h : HeldOpen) : Prop := announced (held_path h) n < held_generation h.
#[global] Instance still_held_dec n h : Decision (still_held n h).
Proof. unfold still_held. apply _. Defined.

Definition mark_announced (p : option path) (g : nat) (n : Notifier) : list HeldOpen * Notifier :=
  let n' := match p with
            | Some p => set_announced (<[p := Nat.max (default 0 (m_announced n !! p)) g]> (m_announced n))
                          (m_announced_everything n) n
            | None => set_announced (m_announced n) (Nat.max (m_announced_everything n) g) n
            end in
  (filter (λ h, ¬ still_held n' h) (m_held_opens n), set_held (filter (still_held n') (m_held_opens n)) n').

(** ** A pass *)

(** What the notifier does to the mount from outside, through the kernel. *)
Inductive Call := Makes (directory : bool) | Removes (directory : bool) | Pokes.
Definition pretence_for_call (c : Call) : Pretence :=
  match c with
  | Makes _ => absent
  | Removes true => present_directory
  | Removes false => present_file
  | Pokes => nothing
  end.

(** Where the announcement of one path is: [announce], and what it calls. *)
Inductive announcing :=
  | AsksTree
  | ForgetsKnown
  | AsksParent (directory : bool)
  | Pretends (c : Call)
  | CallsKernel (c : Call)
  | StopsPretending (c : Call)
  | RemembersMade (directory : bool)
  | Marks.

(** Where the pass is: [Between] two announcements of a batch, of which [left]
    is still to come. [gens] and [everything] are what the batch covers. *)
Record Batch := { left : Changes; gens : gmap path nat; everything : option nat }.
Inductive Pass :=
  | NoPass
  | Starts
  | Looks
  | Between (b : Batch)
  | Announces (p : path) (kind : ChangeKind) (a : announcing) (b : Batch).

(** The loop's test, and the batch it takes if there is anything to announce. *)
Definition take_batch (known : gmap path bool) (latest : nat) (generation : path → nat) (n : Notifier) :
    option (Batch * Notifier) :=
  let covers (m : Changes) := map_imap (λ p _, Some (generation p)) m in
  if m_stopping n then None
  else if m_everything_dirty n then
    let batch := (λ _, modified) <$> known in
    Some ({| left := batch; gens := covers batch; everything := Some latest |}, set_queue ∅ false n)
  else if decide (m_pending n = ∅) then None
  else Some ({| left := m_pending n; gens := covers (m_pending n); everything := None |},
             set_queue ∅ false n).

(** The end of a pass: what was still held is let go of. *)
Definition end_pass (n : Notifier) : list HeldOpen * Notifier :=
  (m_held_opens n, set_held [] (set_notifying false n)).

(** What the announcement of [p] does after the tree's answer. *)
Definition after_status (kind : ChangeKind) (answer : expected error_code EntryInfo) : announcing :=
  match answer with
  | Unexpected _ => ForgetsKnown
  | Value i =>
      if decide (kind = added) then Pretends (Makes (is_directory_info i))
      else if is_directory_info i then Marks else CallsKernel Pokes
  end.
Definition after_forgetting (was : option bool) : announcing :=
  match was with None => Marks | Some directory => AsksParent directory end.
Definition after_parent (directory : bool) (answer : expected error_code EntryInfo) : announcing :=
  if has_value answer then Pretends (Removes directory) else Marks.
Definition after_call (c : Call) : announcing :=
  match c with Pokes => Marks | _ => StopsPretending c end.
Definition after_pretence (c : Call) : announcing :=
  match c with Makes directory => RemembersMade directory | _ => Marks end.
