(* ===== verification/Mount.v ===== *)
(** * The mount at work (src/virtualfilesystem-linux.cpp)

    [VirtualFileSystem::Impl], its threads and what they talk to: the kernel,
    whose requests the dispatcher serves one after another; the coroutines that
    finish opens and reads; the notifier; the tree, which changes and says so.
    Each step is what one of them does under one lock, or between locks, and
    any may follow any other's. A reply that the notifier makes to held opens
    is a step of each open's own, in whatever order.

    Requests are numbered as they come; the take an open waits for has its
    number. The kernel asks only for inodes and handles it has been given and
    has not given back, and in the notifier's name only while the notifier is
    in a call. A snapshot's address is never used twice here: a [weak_ptr]
    tells one that has been freed from another in its place. *)

From S2P Require Export MountNotifier.

(** ** Requests *)

Inductive op :=
  | Lookup (parent : nat) (name : str)
  | Forget (ino count : nat)
  | GetAttr (ino fh : nat)
  | Mknod (parent : nat) (name : str)
  | Mkdir (parent : nat) (name : str)
  | Create (parent : nat) (name : str)
  | Unlink (parent : nat) (name : str)
  | Rmdir (parent : nat) (name : str)
  | Open (ino : nat) (read_only : bool)
  | Read (ino size offset fh : nat)
  | Write (size : nat)
  | Release (fh : nat)
  | Opendir (ino : nat)
  | Readdir (size offset fh : nat)
  | Releasedir (fh : nat).

Inductive reply :=
  | ReplyError (error : Z)
  | ReplyEntry (ino : nat) (s : Stat)
  | ReplyCreate (ino : nat) (s : Stat)
  | ReplyOpen (fh : nat)
  | ReplyAttr (s : Stat)
  | ReplyBytes (content : str)
  | ReplyListing (page : list (str * nat))
  | ReplyWrite (size : nat)
  | ReplyNone.

(** Where the dispatcher is in serving a request. *)
Inductive Purpose := ForEntry (create : bool) | ForAttr (ino : nat).
Inductive Handler :=
  | Begins (o : op)
  | EndsPretence (name : path) (expected : Pretence) (then_entry : option bool)
  | AsksPretence (name : path) (w : Purpose)
  | AsksEntry (name : path) (p : Pretence) (w : Purpose)
  | Remembers (name : path) (directory : bool) (s : Stat) (file : option FileInfo) (w : Purpose)
  | AsksGeneration (name : path) (s : Stat) (file : option FileInfo) (create : bool)
  | FindsInode (name : path) (s : Stat) (file : option FileInfo) (g : nat) (create : bool)
  | RepliesEntry (ino : nat) (s : Stat) (create : bool)
  | TakesBack (ino : nat)
  | RepliesAttr (s : Stat)
  | AsksNode (ino fh : nat)
  | AsksName (ino fh : nat)
  | ListsNames (name : path)
  | RemembersNames (name : path) (entries : list TreeEntry) (all : list str)
  | RetainsListing (name : path) (all : list str)
  | RepliesListing (fh : nat)
  | DropsListing (fh : nat)
  | SpawnsOpen (ino : nat) (name : path)
  | AsksReadName (ino size offset fh : nat)
  | SpawnsRead (name : path) (size offset : nat).

Record Dispatch := { serving : nat; caller : nat; handling : Handler }.

(** Where a coroutine is: [open_file] or [read_file]. *)
Inductive Asked := OpenOf (ino : nat) (name : path) | ReadOf (name : path) (size offset : nat).
Inductive Progress :=
  | AwaitsTree
  | BeginsTake
  | AwaitsTake
  | Chooses (current : nat)
  | LetsGoOf (current : nat) (version : option nat)
  | Retains (version : nat)
  | AsksAnnounced (fh g : nat)
  | IsHeld (fh : nat)
  | RepliesOpen (fh : nat)
  | Drops (fh : nat)
  | RepliesBytes (content : str)
  | Fails (error : Z).
Record Request := { cancellation : Z; asked : Asked; progress : Progress }.

Definition at_progress (p : Progress) (r : Request) : Request := {|
  cancellation := cancellation r; asked := asked r; progress := p |}.
(** [Request::cancel]: the first cause stays. *)
Definition cancel_request (cause : Z) (r : Request) : Request := {|
  cancellation := if decide (cancellation r = 0%Z) then cause else cancellation r;
  asked := asked r; progress := progress r |}.
(** What [Request::reply_error] replies. *)
Definition error_to_reply (error : Z) (r : Request) : Z :=
  if decide (error = ECANCELED ∧ cancellation r = EINTR) then EINTR else error.

(** How an awaited call ends: with a result, by stopping, or by throwing. *)
Inductive Outcome (A : Type) := Completes (a : A) | StopsHere | Throws.
Arguments Completes {A} a.
Arguments StopsHere {A}.
Arguments Throws {A}.

(** How far the destructor has come. *)
Inductive Life := Mounted | Unsubscribed | Unheld | Canceled | Joined | Unmounted.
#[global] Instance Life_eq_dec : EqDecision Life.
Proof. solve_decision. Defined.

Section mount.
Context {T : Type} `{DirectoryTree T}.

(** What the kernel has of ours: how often each inode, and which handles. *)
Record Kernel := { kernel_lookups : gmap nat nat; kernel_handles : gset nat }.

Record Mount := {
  m_snapshots : FileSnapshots T;
  m_inodes : Inodes;
  m_open : Handles;
  m_known : gmap path bool;
  m_pretending : path * Pretence;
  m_notifier : Notifier;
  m_pass : Pass;
  m_notifier_tid : nat;
  m_dispatch : option Dispatch;
  m_requests : gmap nat Request;
  m_replies : list (nat * reply);
  next_request : nat;
  next_address : nat;
  kernel : Kernel;
  life : Life;
}.
Definition set_snapshots (x : FileSnapshots T) (m : Mount) : Mount := {|
  m_snapshots := x; m_inodes := m_inodes m; m_open := m_open m; m_known := m_known m;
  m_pretending := m_pretending m; m_notifier := m_notifier m; m_pass := m_pass m;
  m_notifier_tid := m_notifier_tid m; m_dispatch := m_dispatch m; m_requests := m_requests m;
  m_replies := m_replies m; next_request := next_request m; next_address := next_address m;
  kernel := kernel m; life := life m |}.
Definition set_inodes (x : Inodes) (m : Mount) : Mount := {|
  m_snapshots := m_snapshots m; m_inodes := x; m_open := m_open m; m_known := m_known m;
  m_pretending := m_pretending m; m_notifier := m_notifier m; m_pass := m_pass m;
  m_notifier_tid := m_notifier_tid m; m_dispatch := m_dispatch m; m_requests := m_requests m;
  m_replies := m_replies m; next_request := next_request m; next_address := next_address m;
  kernel := kernel m; life := life m |}.
Definition set_open (x : Handles) (m : Mount) : Mount := {|
  m_snapshots := m_snapshots m; m_inodes := m_inodes m; m_open := x; m_known := m_known m;
  m_pretending := m_pretending m; m_notifier := m_notifier m; m_pass := m_pass m;
  m_notifier_tid := m_notifier_tid m; m_dispatch := m_dispatch m; m_requests := m_requests m;
  m_replies := m_replies m; next_request := next_request m; next_address := next_address m;
  kernel := kernel m; life := life m |}.
Definition set_known (x : gmap path bool) (m : Mount) : Mount := {|
  m_snapshots := m_snapshots m; m_inodes := m_inodes m; m_open := m_open m; m_known := x;
  m_pretending := m_pretending m; m_notifier := m_notifier m; m_pass := m_pass m;
  m_notifier_tid := m_notifier_tid m; m_dispatch := m_dispatch m; m_requests := m_requests m;
  m_replies := m_replies m; next_request := next_request m; next_address := next_address m;
  kernel := kernel m; life := life m |}.
Definition set_pretending (x : path * Pretence) (m : Mount) : Mount := {|
  m_snapshots := m_snapshots m; m_inodes := m_inodes m; m_open := m_open m; m_known := m_known m;
  m_pretending := x; m_notifier := m_notifier m; m_pass := m_pass m; m_notifier_tid := m_notifier_tid m;
  m_dispatch := m_dispatch m; m_requests := m_requests m; m_replies := m_replies m;
  next_request := next_request m; next_address := next_address m; kernel := kernel m; life := life m |}.
Definition set_notifier (x : Notifier) (m : Mount) : Mount := {|
  m_snapshots := m_snapshots m; m_inodes := m_inodes m; m_open := m_open m; m_known := m_known m;
  m_pretending := m_pretending m; m_notifier := x; m_pass := m_pass m;
  m_notifier_tid := m_notifier_tid m; m_dispatch := m_dispatch m; m_requests := m_requests m;
  m_replies := m_replies m; next_request := next_request m; next_address := next_address m;
  kernel := kernel m; life := life m |}.
Definition set_pass (x : Pass) (tid : nat) (m : Mount) : Mount := {|
  m_snapshots := m_snapshots m; m_inodes := m_inodes m; m_open := m_open m; m_known := m_known m;
  m_pretending := m_pretending m; m_notifier := m_notifier m; m_pass := x; m_notifier_tid := tid;
  m_dispatch := m_dispatch m; m_requests := m_requests m; m_replies := m_replies m;
  next_request := next_request m; next_address := next_address m; kernel := kernel m; life := life m |}.
Definition set_dispatch (x : option Dispatch) (m : Mount) : Mount := {|
  m_snapshots := m_snapshots m; m_inodes := m_inodes m; m_open := m_open m; m_known := m_known m;
  m_pretending := m_pretending m; m_notifier := m_notifier m; m_pass := m_pass m;
  m_notifier_tid := m_notifier_tid m; m_dispatch := x; m_requests := m_requests m;
  m_replies := m_replies m; next_request := next_request m; next_address := next_address m;
  kernel := kernel m; life := life m |}.
Definition set_requests (x : gmap nat Request) (m : Mount) : Mount := {|
  m_snapshots := m_snapshots m; m_inodes := m_inodes m; m_open := m_open m; m_known := m_known m;
  m_pretending := m_pretending m; m_notifier := m_notifier m; m_pass := m_pass m;
  m_notifier_tid := m_notifier_tid m; m_dispatch := m_dispatch m; m_requests := x;
  m_replies := m_replies m; next_request := next_request m; next_address := next_address m;
  kernel := kernel m; life := life m |}.
Definition set_kernel (x : Kernel) (m : Mount) : Mount := {|
  m_snapshots := m_snapshots m; m_inodes := m_inodes m; m_open := m_open m; m_known := m_known m;
  m_pretending := m_pretending m; m_notifier := m_notifier m; m_pass := m_pass m;
  m_notifier_tid := m_notifier_tid m; m_dispatch := m_dispatch m; m_requests := m_requests m;
  m_replies := m_replies m; next_request := next_request m; next_address := next_address m; kernel := x;
  life := life m |}.
Definition set_life (x : Life) (m : Mount) : Mount := {|
  m_snapshots := m_snapshots m; m_inodes := m_inodes m; m_open := m_open m; m_known := m_known m;
  m_pretending := m_pretending m; m_notifier := m_notifier m; m_pass := m_pass m;
  m_notifier_tid := m_notifier_tid m; m_dispatch := m_dispatch m; m_requests := m_requests m;
  m_replies := m_replies m; next_request := next_request m; next_address := next_address m;
  kernel := kernel m; life := x |}.
Definition add_reply (r : nat) (x : reply) (m : Mount) : Mount := {|
  m_snapshots := m_snapshots m; m_inodes := m_inodes m; m_open := m_open m; m_known := m_known m;
  m_pretending := m_pretending m; m_notifier := m_notifier m; m_pass := m_pass m;
  m_notifier_tid := m_notifier_tid m; m_dispatch := m_dispatch m; m_requests := m_requests m;
  m_replies := m_replies m ++ [(r, x)]; next_request := next_request m; next_address := next_address m;
  kernel := kernel m; life := life m |}.
Definition count_request  (m : Mount) : Mount := {|
  m_snapshots := m_snapshots m; m_inodes := m_inodes m; m_open := m_open m; m_known := m_known m;
  m_pretending := m_pretending m; m_notifier := m_notifier m; m_pass := m_pass m;
  m_notifier_tid := m_notifier_tid m; m_dispatch := m_dispatch m; m_requests := m_requests m;
  m_replies := m_replies m; next_request := S (next_request m); next_address := next_address m;
  kernel := kernel m; life := life m |}.
Definition count_address  (m : Mount) : Mount := {|
  m_snapshots := m_snapshots m; m_inodes := m_inodes m; m_open := m_open m; m_known := m_known m;
  m_pretending := m_pretending m; m_notifier := m_notifier m; m_pass := m_pass m;
  m_notifier_tid := m_notifier_tid m; m_dispatch := m_dispatch m; m_requests := m_requests m;
  m_replies := m_replies m; next_request := next_request m; next_address := S (next_address m);
  kernel := kernel m; life := life m |}.

End mount.
Arguments Mount : clear implicits.
