(* ===== verification/MountRun.v ===== *)
(** * What the mount's threads do (src/virtualfilesystem-linux.cpp)

    The handlers of requests, the coroutines, the notifier's pass and the
    destructor, one stretch of code at a time. [None] is a step that cannot
    be taken: it is not that thread's turn, or what the code relies on does
    not hold. *)

From S2P Require Export Mount.

Section run.
Context {T : Type} `{DirectoryTree T}.
Variable direntry_size : str → nat.
Implicit Types m : Mount T.

(** ** The dispatcher *)

Definition is_self_request (pid : nat) m : bool :=
  negb (bool_decide (m_notifier_tid m = 0)) && bool_decide (pid = m_notifier_tid m).

Definition handle_next (h : Handler) (d : Dispatch) m : Mount T :=
  set_dispatch (Some {| serving := serving d; caller := caller d; handling := h |}) m.
(** The last thing a handler does. *)
Definition reply_with (x : reply) (d : Dispatch) m : Mount T := set_dispatch None (add_reply (serving d) x m).
(** What [Bridge] replies when a handler throws anything but what carries a
    code: [std::out_of_range], from [at]. *)
Definition reply_thrown (d : Dispatch) m : Mount T := reply_with (ReplyError EIO) d m.

Definition with_path (ino : nat) (k : path → Handler) (d : Dispatch) m : Mount T :=
  match path_of ino (m_inodes m) with
  | Some p => handle_next (k p) d m
  | None => reply_thrown d m
  end.

(** Reading through a handle that has its snapshot. *)
Definition read_snapshot (size offset a : nat) (d : Dispatch) m : option (Mount T) :=
  f ← allocated (m_snapshots m) !! a;
  Some (reply_with (ReplyBytes (slice (snapshot_bytes f) size offset)) d m).

(** Letting go of a handle, and of the snapshot it has. *)
Definition drop (fh : nat) m : Mount T :=
  let m' := set_open (drop_handle fh (m_open m)) m in
  match snapshot_of fh (m_open m) with
  | Some a => set_snapshots (let_go a (m_snapshots m)) m'
  | None => m'
  end.

Definition begin_request (o : op) (d : Dispatch) m : option (Mount T) :=
  match o with
  | Lookup parent name => Some (with_path parent (λ p, AsksPretence (child p name) (ForEntry false)) d m)
  | Forget ino count =>
      Some (reply_with ReplyNone d (set_inodes (forget_inode ino count (m_inodes m)) m))
  | GetAttr ino fh =>
      match snapshot_of fh (m_open m) with
      | Some a => f ← allocated (m_snapshots m) !! a;
                  Some (handle_next (RepliesAttr (with_ino ino (file_attributes (snapshot_info f)))) d m)
      | None => Some (handle_next (AsksNode ino fh) d m)
      end
  | Mknod parent name | Mkdir parent name =>
      Some (with_path parent (λ p, EndsPretence (child p name) absent (Some false)) d m)
  | Create parent name => Some (with_path parent (λ p, EndsPretence (child p name) absent (Some true)) d m)
  | Unlink parent name => Some (with_path parent (λ p, EndsPretence (child p name) present_file None) d m)
  | Rmdir parent name => Some (with_path parent (λ p, EndsPretence (child p name) present_directory None) d m)
  | Open ino read_only =>
      if read_only then Some (with_path ino (SpawnsOpen ino) d m)
      else Some (reply_with (if is_self_request (caller d) m then ReplyOpen 0 else ReplyError EACCES) d m)
  | Read ino size offset fh =>
      match snapshot_of fh (m_open m) with
      | Some a => read_snapshot size offset a d m
      | None => Some (handle_next (AsksReadName ino size offset fh) d m)
      end
  | Write size =>
      Some (reply_with (if is_self_request (caller d) m then ReplyWrite size else ReplyError EACCES) d m)
  | Release fh | Releasedir fh => Some (reply_with (ReplyError 0) d (drop fh m))
  | Opendir ino => Some (with_path ino ListsNames d m)
  | Readdir size offset fh =>
      Some (match m_handles (m_open m) !! fh with
            | Some h => reply_with (ReplyListing (readdir direntry_size size offset (handle_names h))) d m
            | None => reply_thrown d m
            end)
  end.

(** [attributes] has given [s]; what is left of [entry] or [getattr]. *)
Definition attributed (name : path) (s : Stat) (file : option FileInfo) (w : Purpose) : Handler :=
  match w with
  | ForEntry create => AsksGeneration name s file create
  | ForAttr ino => RepliesAttr (with_ino ino s)
  end.

(** The name a handle was opened by, or the inode's. *)
Definition name_of (ino fh : nat) m : option path :=
  if decide (fh = 0) then path_of ino (m_inodes m) else handle_path <$> m_handles (m_open m) !! fh.

(** A request has been handed to a coroutine; it fails at once if none could
    be [spawned]. *)
Definition spawn (spawned : bool) (a : Asked) (d : Dispatch) m : Mount T :=
  let r := {|
    cancellation := if decide (life m = Mounted ∨ life m = Unsubscribed ∨ life m = Unheld) then 0%Z else ECANCELED;
    asked := a;
    progress := if spawned && negb (bool_decide (life m = Joined)) then AwaitsTree else Fails ECANCELED |} in
  set_dispatch None (set_requests (<[serving d := r]> (m_requests m)) m).

Definition kernel_gains (ino : nat) (k : Kernel) : Kernel := {|
  kernel_lookups := <[ino := S (default 0 (kernel_lookups k !! ino))]> (kernel_lookups k);
  kernel_handles := kernel_handles k |}.
Definition kernel_opens (fh : nat) (k : Kernel) : Kernel := {|
  kernel_lookups := kernel_lookups k; kernel_handles := {[fh]} ∪ kernel_handles k |}.

(** One stretch of the handler under way; [accepted] is whether the kernel
    takes a reply it could refuse. *)
Definition serve (accepted spawned : bool) m : option (Mount T) :=
  d ← m_dispatch m;
  t ← last (versions (m_snapshots m));
  match handling d with
  | Begins o => begin_request o d m
  | EndsPretence name expected then_entry =>
      if is_self_request (caller d) m && bool_decide (m_pretending m = (name, expected))
      then let m' := set_pretending (name, nothing) m in
           Some (match then_entry with
                 | Some create => handle_next (AsksPretence name (ForEntry create)) d m'
                 | None => reply_with (ReplyError 0) d m'
                 end)
      else Some (reply_with (ReplyError EACCES) d m)
  | AsksPretence name w =>
      let p := if is_self_request (caller d) m && bool_decide ((m_pretending m).1 = name)
               then (m_pretending m).2 else nothing in
      Some (handle_next (AsksEntry name p w) d m)
  | AsksEntry name p w =>
      Some (match attributes_of p (status t name) with
            | Unexpected e => reply_with (ReplyError (- e)) d m
            | Value s =>
                match status t name with
                | Value i => handle_next (Remembers name (is_directory_info i) s (file_of i) w) d m
                | Unexpected _ => handle_next (attributed name s None w) d m
                end
            end)
  | Remembers name directory s file w =>
      Some (handle_next (attributed name s file w) d (set_known (<[name := directory]> (m_known m)) m))
  | AsksGeneration name s file create =>
      let g := match file with Some _ => generation_of (m_snapshots m) name | None => 0 end in
      Some (handle_next (FindsInode name s file g create) d m)
  | FindsInode name s file g create =>
      Some (match inode name file g (m_inodes m) with
            | Some (ino, i) => handle_next (RepliesEntry ino (with_ino ino s) create) d (set_inodes i m)
            | None => reply_thrown d m
            end)
  | RepliesEntry ino s create =>
      let m' := add_reply (serving d) (if create then ReplyCreate ino s else ReplyEntry ino s) m in
      Some (if accepted then set_dispatch None (set_kernel (kernel_gains ino (kernel m)) m')
            else handle_next (TakesBack ino) d m')
  | TakesBack ino => Some (set_dispatch None (set_inodes (forget_inode ino 1 (m_inodes m)) m))
  | RepliesAttr s => Some (reply_with (ReplyAttr s) d m)
  | AsksNode ino fh =>
      Some (match m_paths (m_inodes m) !! ino ≫= opened with
            | Some i => handle_next (RepliesAttr (with_ino ino (file_attributes i))) d m
            | None => handle_next (AsksName ino fh) d m
            end)
  | AsksName ino fh =>
      Some (match name_of ino fh m with
            | Some name => handle_next (AsksPretence name (ForAttr ino)) d m
            | None => reply_thrown d m
            end)
  | ListsNames name =>
      Some (match ls t name with
            | Unexpected e => reply_with (ReplyError (to_errno e)) d m
            | Value entries => handle_next (RemembersNames name entries (listing_of entries)) d m
            end)
  | RemembersNames name entries all =>
      Some (match entries with
            | [] => handle_next (RetainsListing name all) d m
            | e :: entries' =>
                handle_next (RemembersNames name entries' all) d
                  (set_known (<[child name (entry_name e) := is_directory_info (entry_info e)]> (m_known m)) m)
            end)
  | RetainsListing name all =>
      let '(fh, h) := retain {| handle_path := name; handle_names := all; handle_snapshot := None |} (m_open m) in
      Some (handle_next (RepliesListing fh) d (set_open h m))
  | RepliesListing fh =>
      let m' := add_reply (serving d) (ReplyOpen fh) m in
      Some (if accepted then set_dispatch None (set_kernel (kernel_opens fh (kernel m)) m')
            else handle_next (DropsListing fh) d m')
  | DropsListing fh => Some (set_dispatch None (drop fh m))
  | SpawnsOpen ino name => Some (spawn spawned (OpenOf ino name) d m)
  | AsksReadName ino size offset fh =>
      Some (match name_of ino fh m with
            | Some name => handle_next (SpawnsRead name size offset) d m
            | None => reply_thrown d m
            end)
  | SpawnsRead name size offset => Some (spawn spawned (ReadOf name size offset) d m)
  end.

(** ** The coroutines *)

Definition update (r : nat) (p : Progress) m : Mount T :=
  set_requests (alter (at_progress p) r (m_requests m)) m.
(** The coroutine has ended. *)
Definition finish (r : nat) m : Mount T := set_requests (delete r (m_requests m)) m.

Definition start_pass (started : bool) m : Mount T := if started then set_pass Starts (m_notifier_tid m) m else m.

(** What stopping or throwing does: the request is replied to by whoever had
    it last. *)
Definition ends_badly (r : nat) (x : Request) (throws : bool) m : option (Mount T) :=
  if throws then Some (update r (Fails EIO) m)
  else if decide (cancellation x = 0%Z) then None else Some (update r (Fails ECANCELED) m).

(** [m_tree.open] ends. *)
Definition open_ends (r : nat) (o : Outcome (expected error_code FileInfo)) m : option (Mount T) :=
  x ← m_requests m !! r;
  match asked x, progress x with
  | OpenOf _ _, AwaitsTree =>
      match o with
      | Completes (Value _) => Some (update r BeginsTake m)
      | Completes (Unexpected e) => Some (update r (Fails (to_errno e)) m)
      | StopsHere => ends_badly r x false m
      | Throws => ends_badly r x true m
      end
  | _, _ => None
  end.

(** [m_tree.read] ends, with what the tree has now unless it stops or throws. *)
Definition read_ends (r : nat) (o : Outcome unit) m : option (Mount T) :=
  x ← m_requests m !! r;
  t ← last (versions (m_snapshots m));
  match asked x, progress x with
  | ReadOf name size offset, AwaitsTree =>
      match o with
      | Completes _ =>
          match read t name (Z.of_nat offset) size with
          | Value bytes => Some (update r (RepliesBytes (take (Nat.min size (length bytes)) bytes)) m)
          | Unexpected e => Some (update r (Fails (to_errno e)) m)
          end
      | StopsHere => ends_badly r x false m
      | Throws => ends_badly r x true m
      end
  | _, _ => None
  end.

(** One step of the take that open [r] waits for. *)
Definition take_goes_on (r : nat) m : option (Mount T) :=
  x ← m_requests m !! r;
  match progress x with
  | AwaitsTake =>
      s ← take_step r (next_address m) (m_snapshots m);
      Some (count_address (set_snapshots s m))
  | _ => None
  end.

(** The take stops or throws while it waits for the tree. *)
Definition take_ends_badly (r : nat) (throws : bool) m : option (Mount T) :=
  x ← m_requests m !! r;
  k ← takes (m_snapshots m) !! r;
  match progress x, at_stage k with
  | AwaitsTake, Reading _ => ends_badly r x throws m
  | _, _ => None
  end.

Definition go_on (accepted spawned : bool) (r : nat) m : option (Mount T) :=
  x ← m_requests m !! r;
  match asked x, progress x with
  | OpenOf _ name, BeginsTake =>
      s ← step (TakeBegins r name) (m_snapshots m);
      Some (update r AwaitsTake (set_snapshots s m))
  | OpenOf _ _, AwaitsTake =>
      k ← takes (m_snapshots m) !! r;
      match at_stage k with
      | Finished (Value a) => Some (update r (Chooses a) m)
      | Finished (Unexpected e) => Some (update r (Fails (to_errno e)) m)
      | _ => None
      end
  | OpenOf ino _, Chooses current =>
      '(v, s, i) ← version_for ino current (m_snapshots m) (m_inodes m);
      let m' := set_snapshots s (set_inodes i m) in
      Some (update r (match v with
                      | Current => Retains current
                      | Older a => LetsGoOf current (Some a)
                      | Gone => LetsGoOf current None
                      end) m')
  | OpenOf _ _, LetsGoOf current version =>
      Some (update r (match version with Some a => Retains a | None => Fails ESTALE end)
              (set_snapshots (let_go current (m_snapshots m)) m))
  | OpenOf _ name, Retains version =>
      f ← allocated (m_snapshots m) !! version;
      let '(fh, h) := retain {| handle_path := name; handle_names := []; handle_snapshot := Some version |} (m_open m) in
      Some (update r (AsksAnnounced fh (generation f)) (set_open h m))
  | OpenOf _ name, AsksAnnounced fh g =>
      let '(now, (started, n)) := reply_when_announced spawned name g r (m_notifier m) in
      Some (start_pass started (update r (if now then RepliesOpen fh else IsHeld fh) (set_notifier n m)))
  | OpenOf _ _, RepliesOpen fh =>
      let m' := add_reply r (ReplyOpen fh) m in
      Some (if accepted then finish r (set_kernel (kernel_opens fh (kernel m)) m') else update r (Drops fh) m')
  | OpenOf _ _, Drops fh => Some (finish r (drop fh m))
  | ReadOf _ _ _, RepliesBytes content => Some (finish r (add_reply r (ReplyBytes content) m))
  | _, Fails e => Some (finish r (add_reply r (ReplyError (error_to_reply e x)) m))
  | _, _ => None
  end.

(** A held open's reply is called. *)
Definition let_reply (x : Request) : Request :=
  match progress x with IsHeld fh => at_progress (RepliesOpen fh) x | _ => x end.
Definition release (l : list HeldOpen) m : Mount T :=
  set_requests (foldl (λ rs h, alter let_reply (held_request h) rs) (m_requests m) l) m.

(** ** The notifier *)

Definition end_of_pass m : Mount T :=
  let '(l, n) := end_pass (m_notifier m) in
  release l (set_pass NoPass 0 (set_notifier n m)).

Definition marks (p : option path) (g : nat) (next : Pass) m : Mount T :=
  let '(l, n) := mark_announced p g (m_notifier m) in
  release l (set_pass next (m_notifier_tid m) (set_notifier n m)).

(** One stretch of [announce] of [p]. *)
Definition announce (p : path) (kind : ChangeKind) (a : announcing) (b : Batch) m : option (Mount T) :=
  t ← last (versions (m_snapshots m));
  let goes_to a' m' := set_pass (Announces p kind a' b) (m_notifier_tid m) m' in
  match a with
  | AsksTree => Some (goes_to (after_status kind (status t p)) m)
  | ForgetsKnown => Some (goes_to (after_forgetting (m_known m !! p)) (set_known (delete p (m_known m)) m))
  | AsksParent directory => Some (goes_to (after_parent directory (status t (parent_path p))) m)
  | Pretends c => Some (goes_to (CallsKernel c) (set_pretending (p, pretence_for_call c) m))
  | CallsKernel c => Some (goes_to (after_call c) m)
  | StopsPretending c => Some (goes_to (after_pretence c) (set_pretending (p, nothing) m))
  | RemembersMade directory => Some (goes_to Marks (set_known (<[p := directory]> (m_known m)) m))
  | Marks => g ← gens b !! p; Some (marks (Some p) g (Between b) m)
  end.

(** One stretch of the pass under way, [tid] its thread and [pick] the path
    whose turn it is in the batch. *)
Definition pass_step (tid : nat) (pick : path) m : option (Mount T) :=
  match m_pass m with
  | NoPass => None
  | Starts => if decide (tid = 0) then None else Some (set_pass Looks tid m)
  | Looks =>
      match take_batch (m_known m) (latest (m_snapshots m)) (generation_of (m_snapshots m)) (m_notifier m) with
      | Some (b, n) => Some (set_pass (Between b) (m_notifier_tid m) (set_notifier n m))
      | None => Some (end_of_pass m)
      end
  | Between b =>
      if decide (left b = ∅) then
        Some (match everything b with
              | Some g => marks None g Looks m
              | None => set_pass Looks (m_notifier_tid m) m
              end)
      else
        kind ← left b !! pick;
        Some (set_pass (Announces pick kind AsksTree
                          {| left := delete pick (left b); gens := gens b; everything := everything b |})
                (m_notifier_tid m) m)
  | Announces p kind a b => announce p kind a b m
  end.

(** Memory runs out in the pass, which does not happen between a pretence and
    its end. *)
Definition pass_fails m : option (Mount T) :=
  match m_pass m with
  | NoPass | Starts | Announces _ _ (CallsKernel (Makes _ | Removes _)) _ | Announces _ _ (StopsPretending _) _ => None
  | _ => Some (end_of_pass m)
  end.

(** ** The destructor *)

Definition cancel_all m : Mount T := set_requests (cancel_request ECANCELED <$> m_requests m) m.

Definition destroy m : option (Mount T) :=
  match life m with
  | Mounted => Some (set_life Unsubscribed (set_notifier (set_stopping (m_notifier m)) m))
  | Unsubscribed =>
      match m_pass m with
      | NoPass => Some (set_life Unheld (release (m_held_opens (m_notifier m))
                                           (set_notifier (set_held [] (m_notifier m)) m)))
      | _ => None
      end
  | Unheld => Some (set_life Canceled (cancel_all m))
  | Canceled => if decide (m_requests m = ∅) then Some (set_life Joined m) else None
  | Joined => match m_dispatch m with
              | None => if decide (m_requests m = ∅) then Some (set_life Unmounted m) else None
              | Some _ => None
              end
  | Unmounted => None
  end.

(** ** The kernel *)

Definition knows_inode (ino : nat) m : Prop :=
  ino = FUSE_ROOT_ID ∨ 0 < default 0 (kernel_lookups (kernel m) !! ino).
Definition knows_handle (fh : nat) m : Prop := fh = 0 ∨ fh ∈ kernel_handles (kernel m).

(** What the kernel may ask. *)
Definition may_ask (o : op) m : Prop :=
  match o with
  | Lookup ino _ | Mknod ino _ | Mkdir ino _ | Create ino _ | Unlink ino _ | Rmdir ino _
  | Open ino _ | Opendir ino => knows_inode ino m
  | Forget ino count => count ≤ default 0 (kernel_lookups (kernel m) !! ino)
  | GetAttr ino fh | Read ino _ _ fh => knows_inode ino m ∧ knows_handle fh m
  | Write _ => True
  | Release fh => knows_handle fh m
  | Readdir _ _ fh | Releasedir fh => fh ∈ kernel_handles (kernel m)
  end.

(** The notifier's own thread asks only from inside a call. *)
Definition may_be_from (pid : nat) m : Prop :=
  0 < pid ∧ (pid = m_notifier_tid m → ∃ p kind c b, m_pass m = Announces p kind (CallsKernel c) b).

(** What a request the kernel has made leaves it with. *)
Definition kernel_after (o : op) (k : Kernel) : Kernel :=
  match o with
  | Forget ino count => {|
      kernel_lookups := alter (λ n, n - count) ino (kernel_lookups k); kernel_handles := kernel_handles k |}
  | Release fh | Releasedir fh => {|
      kernel_lookups := kernel_lookups k; kernel_handles := kernel_handles k ∖ {[fh]} |}
  | _ => k
  end.

Definition dispatch (pid : nat) (o : op) m : Mount T :=
  count_request (set_kernel (kernel_after o (kernel m))
    (set_dispatch (Some {| serving := next_request m; caller := pid; handling := Begins o |}) m)).

(** ** Steps *)

Inductive mount_event :=
  | TreeBecomes (t : T)
  | Notifies (d : DirectoryTreeDiff) (spawned : bool)
  | SnapshotDies (a : nat)
  | Asks (pid : nat) (o : op)
  | Serves (accepted spawned : bool)
  | OpenEnds (r : nat) (o : Outcome (expected error_code FileInfo))
  | ReadEnds (r : nat) (o : Outcome unit)
  | TakeGoesForward (r : nat)
  | TakeEndsBadly (r : nat) (throws : bool)
  | GoesOn (r : nat) (accepted spawned : bool)
  | Interrupts (r : nat)
  | PassGoesOn (tid : nat) (pick : path)
  | PassFails
  | Destroys.

#[global] Instance may_ask_dec o m : Decision (may_ask o m).
Proof. destruct o; simpl; unfold knows_inode, knows_handle; apply _. Defined.

Definition in_call (p : Pass) : bool := match p with Announces _ _ (CallsKernel _) _ => true | _ => false end.
Lemma in_call_true p : in_call p = true ↔ ∃ q kind c b, p = Announces q kind (CallsKernel c) b.
Proof.
  split; [|by intros (? & ? & ? & ? & ->)].
  destruct p as [| | | |q kind [] b]; simpl; try discriminate. intros _. by eexists _, _, _, _.
Qed.
#[global] Instance may_be_from_dec pid m : Decision (may_be_from pid m).
Proof.
  refine (cast_if (decide (0 < pid ∧ (pid = m_notifier_tid m → in_call (m_pass m) = true))));
    unfold may_be_from; by rewrite <- in_call_true.
Defined.

Definition mount_step (e : mount_event) m : option (Mount T) :=
  match e with
  | TreeBecomes t => Some (set_snapshots (add_version t (m_snapshots m)) m)
  | Notifies d spawned =>
      if decide (life m = Mounted) then
        let '(started, n) := on_tree_changed spawned d (m_notifier m) in
        Some (start_pass started (set_notifier n (set_snapshots (changed d (m_snapshots m)) m)))
      else None
  | SnapshotDies a =>
      s ← step (Deletes a) (m_snapshots m);
      Some (set_snapshots s m)
  | Asks pid o =>
      if decide (m_dispatch m = None ∧ life m ≠ Unmounted ∧ may_ask o m ∧ may_be_from pid m)
      then Some (dispatch pid o m) else None
  | Serves accepted spawned => serve accepted spawned m
  | OpenEnds r o => open_ends r o m
  | ReadEnds r o => read_ends r o m
  | TakeGoesForward r => take_goes_on r m
  | TakeEndsBadly r throws => take_ends_badly r throws m
  | GoesOn r accepted spawned => go_on accepted spawned r m
  | Interrupts r =>
      x ← m_requests m !! r;
      match progress x with
      | Drops _ => None
      | _ => Some (set_requests (<[r := cancel_request EINTR x]> (m_requests m)) m)
      end
  | PassGoesOn tid pick => pass_step tid pick m
  | PassFails => pass_fails m
  | Destroys => destroy m
  end.

Fixpoint mount_run (es : list mount_event) m : option (Mount T) :=
  match es with [] => Some m | e :: es' => m' ← mount_step e m; mount_run es' m' end.

(** The mount as constructed, over the tree [t]. *)
Definition mounted (t : T) : Mount T := {|
  m_snapshots := start t; m_inodes := root_only; m_open := no_handles; m_known := ∅;
  m_pretending := (root, nothing); m_notifier := quiet; m_pass := NoPass; m_notifier_tid := 0;
  m_dispatch := None; m_requests := ∅; m_replies := []; next_request := 0; next_address := 0;
  kernel := {| kernel_lookups := ∅; kernel_handles := ∅ |}; life := Mounted |}.
End run.
Arguments mount_event : clear implicits.
