(* ===== verification/MountFacts.v ===== *)
(** * What every step of the mount leaves as it was

    The case analysis the invariants of the mount share. *)

From S2P Require Export MountRun.

(** Splits [H], that a step of the mount goes to some state, into the ways it
    can. *)
Ltac mount_unfold H :=
  unfold mount_step, open_ends, read_ends, take_goes_on, take_ends_badly, go_on, pass_step, announce,
    pass_fails, destroy, ends_badly, start_pass, end_of_pass, marks, end_pass, mark_announced, spawn,
    begin_request, read_snapshot, with_path, reply_thrown, retain, mbind, option_bind in H.
Ltac leaves H :=
  mount_unfold H; repeat break_match_hyp H; try discriminate H; try (injection H as <-).
Ltac serve_leaves H := unfold mount_step, serve in H; leaves H.

Section facts.
Context {T : Type} `{DirectoryTree T}.
Variable direntry_size : str → nat.
Implicit Types m : Mount T.

(** Dropping a handle touches the handles and the snapshots only. *)
Lemma drop_m_inodes fh m : m_inodes (drop fh m) = m_inodes m.
Proof. unfold drop. by destruct (snapshot_of fh (m_open m)). Qed.
Lemma drop_kernel fh m : kernel (drop fh m) = kernel m.
Proof. unfold drop. by destruct (snapshot_of fh (m_open m)). Qed.
Lemma drop_m_dispatch fh m : m_dispatch (drop fh m) = m_dispatch m.
Proof. unfold drop. by destruct (snapshot_of fh (m_open m)). Qed.
Lemma drop_m_known fh m : m_known (drop fh m) = m_known m.
Proof. unfold drop. by destruct (snapshot_of fh (m_open m)). Qed.
Lemma drop_m_pretending fh m : m_pretending (drop fh m) = m_pretending m.
Proof. unfold drop. by destruct (snapshot_of fh (m_open m)). Qed.
Lemma drop_m_notifier fh m : m_notifier (drop fh m) = m_notifier m.
Proof. unfold drop. by destruct (snapshot_of fh (m_open m)). Qed.
Lemma drop_m_pass fh m : m_pass (drop fh m) = m_pass m.
Proof. unfold drop. by destruct (snapshot_of fh (m_open m)). Qed.
Lemma drop_m_notifier_tid fh m : m_notifier_tid (drop fh m) = m_notifier_tid m.
Proof. unfold drop. by destruct (snapshot_of fh (m_open m)). Qed.
Lemma drop_m_requests fh m : m_requests (drop fh m) = m_requests m.
Proof. unfold drop. by destruct (snapshot_of fh (m_open m)). Qed.
Lemma drop_m_replies fh m : m_replies (drop fh m) = m_replies m.
Proof. unfold drop. by destruct (snapshot_of fh (m_open m)). Qed.
Lemma drop_next_request fh m : next_request (drop fh m) = next_request m.
Proof. unfold drop. by destruct (snapshot_of fh (m_open m)). Qed.
Lemma drop_next_address fh m : next_address (drop fh m) = next_address m.
Proof. unfold drop. by destruct (snapshot_of fh (m_open m)). Qed.
Lemma drop_life fh m : life (drop fh m) = life m.
Proof. unfold drop. by destruct (snapshot_of fh (m_open m)). Qed.
Lemma drop_m_open fh m : m_open (drop fh m) = drop_handle fh (m_open m).
Proof. unfold drop. by destruct (snapshot_of fh (m_open m)). Qed.

(** Steps of anyone but the dispatcher and the kernel. *)
Definition off_dispatch (e : mount_event T) : Prop :=
  match e with Asks _ _ | Serves _ _ => False | _ => True end.

#[global] Instance off_dispatch_dec e : Decision (off_dispatch e).
Proof. destruct e; simpl; apply _. Defined.

Lemma off_dispatch_keeps e m m' :
  off_dispatch e → mount_step direntry_size e m = Some m' →
  m_dispatch m' = m_dispatch m ∧ kernel_lookups (kernel m') = kernel_lookups (kernel m) ∧
  next_request m' = next_request m.
Proof.
  intros He Hstep. destruct e; try done; leaves Hstep; try done;
    simpl; by rewrite ?drop_m_dispatch, ?drop_kernel, ?drop_next_request.
Qed.
End facts.

Create HintDb mount.
#[export] Hint Rewrite @drop_m_inodes @drop_kernel @drop_m_dispatch @drop_m_known @drop_m_pretending @drop_m_notifier @drop_m_pass @drop_m_notifier_tid @drop_m_requests @drop_m_replies @drop_next_request @drop_next_address @drop_life @drop_m_open : mount.
