(* ===== verification/MountInodes.v ===== *)
(** * The inodes are those the kernel has

    Every inode's lookups are the kernel's own and those on their way to it or
    back, so that an inode lives exactly as long as the kernel may ask for it. *)

From S2P Require Export MountFacts.

Section inodes.
Context {T : Type} `{DirectoryTree T}.
Variable direntry_size : str → nat.
Implicit Types m : Mount T.

(** Lookups that the dispatcher is giving the kernel, or giving up for it. *)
Definition in_flight (o : option Dispatch) (ino : nat) : nat :=
  match handling <$> o with
  | Some (RepliesEntry i _ _) | Some (TakesBack i) => if decide (i = ino) then 1 else 0
  | Some (Begins (Forget i count)) => if decide (i = ino) then count else 0
  | _ => 0
  end.
Definition kernel_count m (ino : nat) : nat := default 0 (kernel_lookups (kernel m) !! ino).
Definition lookups_of (s : Inodes) (ino : nat) : nat := default 0 (lookups <$> m_paths s !! ino).

(** The inode a handler has yet to look up. *)
Definition needs_inode (h : Handler) : option nat :=
  match h with
  | Begins (Lookup i _ | Mknod i _ | Mkdir i _ | Create i _ | Unlink i _ | Rmdir i _ | Open i _
            | Opendir i | GetAttr i _ | Read i _ _ _)
  | AsksNode i _ | AsksName i _ | AsksReadName i _ _ _ => Some i
  | _ => None
  end.

Record well_numbered (s : Inodes) : Prop := {
  wn_ids p i : m_ids s !! p = Some i → path_of i s = Some p;
  wn_bound i : is_Some (m_paths s !! i) → i ≤ m_next_inode s;
  wn_root : path_of FUSE_ROOT_ID s = Some root;
  wn_next : 1 ≤ m_next_inode s;
  wn_positive i x : m_paths s !! i = Some x → 0 < lookups x;
}.

Record inodes_ok m : Prop := {
  io_numbered : well_numbered (m_inodes m);
  io_counts i : i ≠ FUSE_ROOT_ID → lookups_of (m_inodes m) i = kernel_count m i + in_flight (m_dispatch m) i;
  io_needed d i : m_dispatch m = Some d → needs_inode (handling d) = Some i → is_Some (m_paths (m_inodes m) !! i);
}.

(** ** The tables *)

(** Tables that differ in what the nodes say about versions only. *)
Record same_nodes (s s' : Inodes) : Prop := {
  sn_ids : m_ids s' = m_ids s;
  sn_next : m_next_inode s' = m_next_inode s;
  sn_paths i : path_of i s' = path_of i s;
  sn_lookups i : lookups <$> m_paths s' !! i = lookups <$> m_paths s !! i;
}.

Lemma same_nodes_refl s : same_nodes s s.
Proof. done. Qed.

Lemma same_nodes_insert i x y s :
  m_paths s !! i = Some x → node_path y = node_path x → lookups y = lookups x →
  same_nodes s (set_paths (<[i := y]> (m_paths s)) s).
Proof.
  intros Hx Hp Hl. constructor; try done; intros j; unfold path_of; simpl;
    destruct (decide (i = j)) as [<-|?]; rewrite ?lookup_insert_eq, ?Hx; simpl; rewrite ?lookup_insert_ne by done;
    congruence.
Qed.

Lemma same_nodes_present s s' i : same_nodes s s' → is_Some (m_paths s' !! i) ↔ is_Some (m_paths s !! i).
Proof. intros [_ _ Hp _]. specialize (Hp i). unfold path_of in Hp. rewrite <- !(fmap_is_Some node_path), Hp. done. Qed.

Lemma same_nodes_numbered s s' : same_nodes s s' → well_numbered s → well_numbered s'.
Proof.
  intros Hs [Hi Hb Hr Hn Hp]. pose proof (λ i, same_nodes_present s s' i Hs) as Hin.
  destruct Hs as [Ei En Ep El]. constructor.
  - intros p i. rewrite Ei, Ep. apply Hi.
  - intros i. rewrite Hin, En. apply Hb.
  - by rewrite Ep.
  - by rewrite En.
  - intros i x Hx. specialize (El i). rewrite Hx in El. destruct (m_paths s !! i) as [y|] eqn:Hy; [|done].
    injection El as ->. by apply (Hp i).
Qed.

Lemma version_for_same_nodes ino current (s : FileSnapshots T) i v s' i' :
  version_for ino current s i = Some (v, s', i') → same_nodes i i'.
Proof.
  unfold version_for, mbind, option_bind. intros H0.
  repeat break_match_hyp H0; try discriminate H0; injection H0 as <- <- <-; try done; by eapply same_nodes_insert.
Qed.

(** [inode] gives the inode a name has, or a new one. *)
Lemma inode_spec name file g s ino s' :
  well_numbered s → inode name file g s = Some (ino, s') →
  well_numbered s' ∧ path_of ino s' = Some name ∧
  lookups_of s' ino = S (lookups_of s ino) ∧
  (∀ i, i ≠ ino → m_paths s' !! i = m_paths s !! i).
Proof.
  intros Hs. pose proof Hs as [Hi Hb Hr Hn Hp]. unfold inode, mbind, option_bind. intros E.
  assert (add_inode name s = (ino, s') → well_numbered s' ∧ path_of ino s' = Some name ∧
    lookups_of s' ino = S (lookups_of s ino) ∧ (∀ i, i ≠ ino → m_paths s' !! i = m_paths s !! i)) as Hadd.
  { unfold add_inode. intros [= <- <-].
    assert (m_paths s !! S (m_next_inode s) = None) as Hfree.
    { apply eq_None_not_Some. intros Hsome. apply Hb in Hsome. lia. }
    unfold path_of, lookups_of. simpl. unfold emplace. rewrite Hfree, lookup_insert_eq. simpl.
    split_and!; [|done|done|].
    - constructor; unfold path_of; simpl.
      + intros p i [[<- <-]|[_ Hpi]]%lookup_insert_Some; [by rewrite lookup_insert_eq|].
        rewrite lookup_insert_ne; [by apply Hi|]. intros <-. apply Hi in Hpi. unfold path_of in Hpi. by rewrite Hfree in Hpi.
      + intros i Hsome. destruct (decide (i = S (m_next_inode s))) as [->|]; [done|].
        rewrite lookup_insert_ne in Hsome by done. apply Hb in Hsome. lia.
      + rewrite lookup_insert_ne; [done|]. unfold FUSE_ROOT_ID. lia.
      + lia.
      + intros i x [[<- <-]|[_ Hx]]%lookup_insert_Some; [simpl; lia|by apply (Hp i)].
    - intros i Hne. by rewrite lookup_insert_ne. }
  destruct (m_ids s !! name) as [id|] eqn:Hid; [|by apply Hadd, (inj Some)].
  pose proof (Hi _ _ Hid) as Hpath. destruct (m_paths s !! id) as [x|] eqn:Hx; [|done].
  destruct (still x file g); [|by apply Hadd, (inj Some)]. injection E as <- <-.
  assert (node_path x = name) as Hname by (unfold path_of in Hpath; rewrite Hx in Hpath; simpl in Hpath; congruence).
  unfold lookups_of, path_of. simpl. rewrite lookup_insert_eq, Hx. simpl. split_and!; [|congruence|done|].
  - constructor; unfold path_of; simpl; try done.
    + intros p i Hpi. apply Hi in Hpi. unfold path_of in Hpi. destruct (decide (id = i)) as [<-|?].
      * rewrite lookup_insert_eq. by rewrite Hx in Hpi.
      * by rewrite lookup_insert_ne.
    + intros i. destruct (decide (id = i)) as [<-|?].
      * intros _. apply Hb. by rewrite Hx.
      * rewrite lookup_insert_ne by done. apply Hb.
    + destruct (decide (id = FUSE_ROOT_ID)) as [->|?].
      * rewrite lookup_insert_eq. unfold path_of in Hr. by rewrite Hx in Hr.
      * by rewrite lookup_insert_ne.
    + intros i y [[<- <-]|[_ Hy]]%lookup_insert_Some; [simpl; lia|by apply (Hp i)].
  - intros i Hne. by rewrite lookup_insert_ne.
Qed.

Lemma forget_inode_spec ino count s :
  well_numbered s → ino ≠ FUSE_ROOT_ID →
  well_numbered (forget_inode ino count s) ∧
  lookups_of (forget_inode ino count s) ino = lookups_of s ino - count ∧
  ∀ i, i ≠ ino → m_paths (forget_inode ino count s) !! i = m_paths s !! i.
Proof.
  intros Hs Hne. pose proof Hs as [Hi Hb Hr Hn Hp]. unfold forget_inode, lookups_of.
  destruct (m_paths s !! ino) as [x|] eqn:Hx; [|by rewrite Hx]. rewrite decide_False by done.
  case_decide as Hz; simpl.
  - rewrite lookup_delete_eq. simpl. split_and!; [|lia|by intros i ?; rewrite lookup_delete_ne].
    constructor; unfold path_of; simpl; try done.
    + intros p i Hpi. assert (m_ids s !! p = Some i) as Hpi'.
      { case_decide; [by apply lookup_delete_Some in Hpi as [_ ?]|done]. }
      apply Hi in Hpi' as Hpath. unfold path_of in Hpath. destruct (decide (ino = i)) as [<-|?].
      * rewrite Hx in Hpath. injection Hpath as Hpath. rewrite Hpath, decide_True in Hpi by done.
        by rewrite lookup_delete_eq in Hpi.
      * by rewrite lookup_delete_ne.
    + intros i. destruct (decide (ino = i)) as [<-|?].
      * rewrite lookup_delete_eq. by intros [? ?].
      * rewrite lookup_delete_ne by done. apply Hb.
    + by rewrite lookup_delete_ne.
    + intros i y [_ Hy]%lookup_delete_Some. by apply (Hp i).
  - rewrite lookup_insert_eq. simpl. split_and!; [|lia|by intros i ?; rewrite lookup_insert_ne].
    constructor; unfold path_of; simpl; try done.
    + intros p i Hpi. apply Hi in Hpi. unfold path_of in Hpi. destruct (decide (ino = i)) as [<-|?].
      * rewrite lookup_insert_eq. by rewrite Hx in Hpi.
      * by rewrite lookup_insert_ne.
    + intros i. destruct (decide (ino = i)) as [<-|?].
      * intros _. apply Hb. by rewrite Hx.
      * rewrite lookup_insert_ne by done. apply Hb.
    + by rewrite lookup_insert_ne.
    + intros i y [[<- <-]|[_ Hy]]%lookup_insert_Some; [simpl; lia|by apply (Hp i)].
Qed.

Lemma forget_root count s : forget_inode FUSE_ROOT_ID count s = s.
Proof. unfold forget_inode. by destruct (m_paths s !! FUSE_ROOT_ID). Qed.

Lemma present_counted s i : well_numbered s → is_Some (m_paths s !! i) ↔ 0 < lookups_of s i.
Proof.
  intros Hs. unfold lookups_of. destruct (m_paths s !! i) as [x|] eqn:Hx; simpl.
  - split; [intros _; by apply (wn_positive s Hs i)|by eexists].
  - split; [by intros [? ?]|lia].
Qed.

(** ** Every step *)

Lemma inodes_ok_same m m' :
  inodes_ok m → same_nodes (m_inodes m) (m_inodes m') → kernel_lookups (kernel m') = kernel_lookups (kernel m) →
  (∀ i, in_flight (m_dispatch m') i = in_flight (m_dispatch m) i) →
  (∀ d' i, m_dispatch m' = Some d' → needs_inode (handling d') = Some i →
     ∃ d, m_dispatch m = Some d ∧ needs_inode (handling d) = Some i) →
  inodes_ok m'.
Proof.
  intros [Hw Hc Hn] Hs Hk Hf Hd. constructor.
  - by eapply same_nodes_numbered.
  - intros i Hi. unfold kernel_count, lookups_of. rewrite Hk, Hf, (sn_lookups _ _ Hs). by apply Hc.
  - intros d' i Hd' Hi. rewrite (same_nodes_present _ _ _ Hs). destruct (Hd d' i Hd' Hi) as (d & ? & ?). by apply (Hn d).
Qed.

Lemma off_dispatch_same_nodes e m m' :
  off_dispatch e → mount_step direntry_size e m = Some m' → same_nodes (m_inodes m) (m_inodes m').
Proof.
  intros He Hstep. destruct e; try done; leaves Hstep; try done;
    first [by eapply version_for_same_nodes|simpl; by rewrite drop_m_inodes].
Qed.

(** A handler that keeps what the dispatcher has in flight, and goes on to
    look up no inode it was not already going to. *)
Ltac same_inodes Hok Hd Hh :=
  apply (inodes_ok_same _ _ Hok); simpl; rewrite ?drop_m_inodes, ?drop_kernel, ?drop_m_dispatch;
  [done|done|intros ?; unfold in_flight; rewrite Hd; simpl; rewrite Hh; done
  |intros ? ? E1 E2; try discriminate E1; injection E1 as <-; simpl in E2;
   first [discriminate E2|eexists; split; [exact Hd|rewrite Hh; exact E2]]].

(** A handler that changes how often one inode is looked up. *)
Lemma inodes_ok_change m m' ino :
  inodes_ok m → well_numbered (m_inodes m') →
  (∀ i, i ≠ ino → m_paths (m_inodes m') !! i = m_paths (m_inodes m) !! i ∧ kernel_count m' i = kernel_count m i ∧
                  in_flight (m_dispatch m') i = in_flight (m_dispatch m) i) →
  (ino ≠ FUSE_ROOT_ID → lookups_of (m_inodes m') ino = kernel_count m' ino + in_flight (m_dispatch m') ino) →
  (∀ d, m_dispatch m' = Some d → needs_inode (handling d) = None) →
  inodes_ok m'.
Proof.
  intros [Hw Hc Hn] Hw' Hrest Hino Hd. constructor; [done| |].
  - intros i Hi. destruct (decide (i = ino)) as [->|Hne]; [by apply Hino|].
    destruct (Hrest i Hne) as (Hp & Hk & Hf). unfold lookups_of. rewrite Hp, Hk, Hf. by apply Hc.
  - intros d i E Hi. rewrite (Hd d E) in Hi. discriminate Hi.
Qed.

Lemma forgets_inodes_ok m m' d ino count :
  inodes_ok m → m_dispatch m = Some d → (∀ i, in_flight (Some d) i = if decide (ino = i) then count else 0) →
  m_inodes m' = forget_inode ino count (m_inodes m) → kernel m' = kernel m → m_dispatch m' = None → inodes_ok m'.
Proof.
  intros Hok Hd Hf Ei Ek Ed. pose proof (io_numbered m Hok) as Hw. destruct (decide (ino = FUSE_ROOT_ID)) as [->|Hne].
  - apply (inodes_ok_change m m' FUSE_ROOT_ID Hok); rewrite ?Ei, ?Ed, ?forget_root; try done.
    intros i Hi. unfold kernel_count. rewrite Ek, Hd, Hf, decide_False by done. done.
  - destruct (forget_inode_spec ino count (m_inodes m) Hw Hne) as (Hw' & Hl & Hrest).
    apply (inodes_ok_change m m' ino Hok); rewrite ?Ei, ?Ed; try done.
    + intros i Hi. rewrite Hrest by done. unfold kernel_count. rewrite Ek, Hd, Hf, decide_False by done. done.
    + intros _. rewrite Hl. pose proof (io_counts m Hok ino Hne) as Hc. rewrite Hd, Hf, decide_True in Hc by done.
      unfold kernel_count in *. rewrite Ek. unfold in_flight. simpl. lia.
Qed.

Lemma gains_inodes_ok m m' d ino s create :
  inodes_ok m → m_dispatch m = Some d → handling d = RepliesEntry ino s create →
  m_inodes m' = m_inodes m → kernel m' = kernel_gains ino (kernel m) → m_dispatch m' = None → inodes_ok m'.
Proof.
  intros Hok Hd Hh Ei Ek Ed. apply (inodes_ok_change m m' ino Hok); rewrite ?Ei, ?Ed; try done.
  - apply (io_numbered m Hok).
  - intros i Hi. unfold kernel_count, in_flight. rewrite Ek, Hd. simpl. rewrite Hh, lookup_insert_ne by done.
    by rewrite decide_False by done.
  - intros Hne. rewrite (io_counts m Hok ino Hne). unfold kernel_count, in_flight. rewrite Ek, Hd. simpl.
    rewrite Hh, lookup_insert_eq, decide_True by done. simpl. lia.
Qed.

Lemma finds_inodes_ok m m' d name file g ino s create :
  inodes_ok m → m_dispatch m = Some d → (∀ i, in_flight (Some d) i = 0) →
  inode name file g (m_inodes m) = Some (ino, m_inodes m') → kernel m' = kernel m →
  handling <$> m_dispatch m' = Some (RepliesEntry ino s create) → inodes_ok m'.
Proof.
  intros Hok Hd Hf Ei Ek Ed.
  destruct (inode_spec _ _ _ _ _ _ (io_numbered m Hok) Ei) as (Hw & _ & Hl & Hrest).
  assert (∀ i, in_flight (m_dispatch m') i = if decide (ino = i) then 1 else 0) as Hf'.
  { intros i. unfold in_flight. by rewrite Ed. }
  apply (inodes_ok_change m m' ino Hok); try done.
  - intros i Hi. rewrite Hf', Hd, Hf, decide_False by done. unfold kernel_count. rewrite Ek. by rewrite Hrest.
  - intros Hne. rewrite Hl, (io_counts m Hok ino Hne), Hf', Hd, Hf, decide_True by done. unfold kernel_count. rewrite Ek. lia.
  - intros d' Hd'. rewrite Hd' in Ed. simpl in Ed. injection Ed as ->. done.
Qed.

Lemma serve_inodes_ok accepted spawned m m' :
  inodes_ok m → serve direntry_size accepted spawned m = Some m' → inodes_ok m'.
Proof.
  intros Hok Hstep. serve_leaves Hstep.
  all: try (same_inodes Hok Heqo Heqh).
  all: try (destruct w; same_inodes Hok Heqo Heqh).
  - eapply (forgets_inodes_ok m _ d ino count); [done|done| |done..].
    intros i. unfold in_flight. simpl. by rewrite Heqh.
  - eapply (finds_inodes_ok m _ d name file g n (with_ino n s) create); [done|done| |done..].
    intros i0. unfold in_flight. simpl. by rewrite Heqh.
  - by eapply (gains_inodes_ok m _ d ino s true).
  - by eapply (gains_inodes_ok m _ d ino s false).
  - eapply (forgets_inodes_ok m _ d ino 1); [done|done| |done..].
    intros i. unfold in_flight. simpl. by rewrite Heqh.
Qed.

Lemma asks_inodes_ok pid o m m' :
  inodes_ok m → mount_step direntry_size (Asks pid o) m = Some m' → inodes_ok m'.
Proof.
  intros Hok. simpl. case_decide as Hd; [|done]. destruct Hd as (Hd & _ & Hask & _). intros [= <-].
  pose proof (io_numbered m Hok) as Hw.
  assert (∀ i, knows_inode i m → is_Some (m_paths (m_inodes m) !! i)) as Hknown.
  { intros i Hi. destruct (decide (i = FUSE_ROOT_ID)) as [->|Hne].
    - pose proof (wn_root _ Hw) as Hr. unfold path_of in Hr. by apply fmap_Some in Hr as (x & -> & _).
    - destruct Hi as [|Hi]; [done|]. apply present_counted; [done|]. rewrite (io_counts m Hok i Hne).
      unfold kernel_count. lia. }
  constructor; [done| |].
  - intros i Hi. pose proof (io_counts m Hok i Hi) as Hc. rewrite Hd in Hc. unfold kernel_count in *.
    change (lookups_of (m_inodes (dispatch pid o m)) i) with (lookups_of (m_inodes m) i). rewrite Hc. simpl.
    unfold in_flight. simpl. destruct o; simpl; try lia. destruct (decide (ino = i)) as [->|Hne].
    + rewrite lookup_alter_eq. simpl in Hask. destruct (kernel_lookups (kernel m) !! i); simpl in *; lia.
    + rewrite lookup_alter_ne by done. lia.
  - simpl. intros d i [= <-] Hi. apply Hknown. destruct o; simpl in *; naive_solver.
Qed.

Lemma step_inodes_ok e m m' : inodes_ok m → mount_step direntry_size e m = Some m' → inodes_ok m'.
Proof.
  intros Hok Hstep. destruct (decide (off_dispatch e)) as [He|He].
  - destruct (off_dispatch_keeps direntry_size e m m' He Hstep) as (Hd & Hk & _).
    pose proof (off_dispatch_same_nodes e m m' He Hstep) as Hn.
    apply (inodes_ok_same m m' Hok Hn Hk); rewrite Hd; [done|]. intros d i E Hi. by exists d.
  - destruct e; try (by destruct He); [by eapply asks_inodes_ok|by eapply serve_inodes_ok].
Qed.

Lemma mounted_inodes_ok t : inodes_ok (mounted t).
Proof.
  constructor; simpl.
  - constructor; unfold path_of, root_only; simpl.
    + intros p i [<- <-]%lookup_singleton_Some. by rewrite lookup_singleton_eq.
    + intros i. destruct (decide (FUSE_ROOT_ID = i)) as [<-|?]; [done|]. rewrite lookup_singleton_ne by done. by intros [? ?].
    + by rewrite lookup_singleton_eq.
    + done.
    + intros i x [<- <-]%lookup_singleton_Some. simpl. lia.
  - intros i Hi. unfold lookups_of, kernel_count, root_only. simpl. by rewrite lookup_singleton_ne, lookup_empty.
  - done.
Qed.

Lemma run_inodes_ok es m m' : inodes_ok m → mount_run direntry_size es m = Some m' → inodes_ok m'.
Proof.
  revert m. induction es as [|e es IH]; intros m Hok; simpl; [by intros [= <-]|].
  destruct (mount_step direntry_size e m) as [m1|] eqn:E; [|done]. simpl. apply IH. by eapply step_inodes_ok.
Qed.
End inodes.
