(* ===== verification/MountRequests.v ===== *)
(** * Every request of the kernel's is answered once

    A ledger of the requests: who has each, whether it still owes a reply, and
    the replies made. *)

From S2P Require Export MountInodes.

(** ** The ledger *)

(** [answers] are the requests replied to in order, [count] how many there have
    been; coroutines have those in [owing], each with whether it owes a reply,
    and the dispatcher has [serving]. *)
Record ledger (answers : list nat) (count : nat) (owing : gmap nat bool) (serving : option (nat * bool)) : Prop := {
  le_once : NoDup answers;
  le_answered r : r ∈ answers → r < count ∧ owing !! r ≠ Some true ∧ serving ≠ Some (r, true);
  le_unanswered r : r < count → r ∈ answers ∨ owing !! r = Some true ∨ serving = Some (r, true);
  le_owing r b : owing !! r = Some b → r < count ∧ ∀ b', serving ≠ Some (r, b');
  le_serving r b : serving = Some (r, b) → r < count;
}.

Section ledger.
Context {L : list nat} {n : nat} {om : gmap nat bool}.

Lemma ledger_asks : ledger L n om None → ledger L (S n) om (Some (n, true)).
Proof.
  intros [H1 H2 H3 H4 H5]. constructor; [done| | | |].
  - intros r Hr. destruct (H2 r Hr) as (? & ? & _). split_and!; [lia|done|]. intros [= ->]. lia.
  - intros r Hr. destruct (decide (r = n)) as [->|]; [by right; right|].
    destruct (H3 r) as [?|[?|?]]; [lia|by left|by right; left|done].
  - intros r b Hr. destruct (H4 r b Hr) as (? & _). split; [lia|]. intros b' [= ->]. lia.
  - intros r b [= <- <-]. lia.
Qed.


Lemma ledger_reply_keeps r : ledger L n om (Some (r, true)) → ledger (L ++ [r]) n om (Some (r, false)).
Proof.
  intros [H1 H2 H3 H4 H5]. constructor.
  - apply NoDup_app. split_and!; [done| |apply NoDup_singleton]. intros x Hx ->%list_elem_of_singleton.
    by destruct (H2 r Hx) as (_ & _ & ?).
  - intros x [Hx| ->%list_elem_of_singleton]%elem_of_app.
    + destruct (H2 x Hx) as (? & ? & ?). split_and!; [done..|]. by intros [= ->].
    + split_and!; [by apply (H5 r true)| |done]. intros Ho. by destruct (proj2 (H4 r true Ho) true).
  - intros x Hx. destruct (H3 x Hx) as [?|[?|E]]; [left; apply elem_of_app; by left|by right; left|].
    injection E as <-. left. apply elem_of_app. right. by apply list_elem_of_singleton.
  - intros x b Hx. destruct (H4 x b Hx) as [? Hne]. split; [done|]. intros b' [= -> _]. by apply (Hne true).
  - intros x b [= <- <-]. by apply (H5 r true).
Qed.

Lemma ledger_done r : ledger L n om (Some (r, false)) → ledger L n om None.
Proof.
  intros [H1 H2 H3 H4 H5]. constructor; [done| | | |].
  - intros x Hx. destruct (H2 x Hx) as (? & ? & _). done.
  - intros x Hx. destruct (H3 x Hx) as [?|[?|?]]; [by left|by right; left|done].
  - intros x b Hx. destruct (H4 x b Hx) as [? _]. done.
  - done.
Qed.

Lemma ledger_spawn r : ledger L n om (Some (r, true)) → ledger L n (<[r := true]> om) None.
Proof.
  intros [H1 H2 H3 H4 H5]. constructor; [done| | | |].
  - intros x Hx. destruct (H2 x Hx) as (? & ? & ?). split_and!; [done| |done].
    rewrite lookup_insert_ne; [done|]. by intros <-.
  - intros x Hx. destruct (H3 x Hx) as [?|[?|E]]; [by left| |].
    + right; left. destruct (decide (r = x)) as [<-|]; [by rewrite lookup_insert_eq|by rewrite lookup_insert_ne].
    + injection E as <-. right; left. by rewrite lookup_insert_eq.
  - intros x b [[<- <-]|[_ Hx]]%lookup_insert_Some; [split; [by apply (H5 r true)|done]|].
    by destruct (H4 x b Hx).
  - done.
Qed.

Lemma ledger_answer dp r : ledger L n om dp → om !! r = Some true → ledger (L ++ [r]) n (<[r := false]> om) dp.
Proof.
  intros [H1 H2 H3 H4 H5] Hr. destruct (H4 r true Hr) as [Hlt Hdp]. constructor.
  - apply NoDup_app. split_and!; [done| |apply NoDup_singleton]. intros x Hx ->%list_elem_of_singleton.
    by destruct (H2 r Hx) as (_ & ? & _).
  - intros x [Hx| ->%list_elem_of_singleton]%elem_of_app.
    + destruct (H2 x Hx) as (? & ? & ?). split_and!; [done| |done].
      destruct (decide (r = x)) as [<-|]; [by rewrite lookup_insert_eq|by rewrite lookup_insert_ne].
    + split_and!; [done|by rewrite lookup_insert_eq|apply Hdp].
  - intros x Hx. destruct (decide (r = x)) as [<-|Hne].
    + left. apply elem_of_app. right. by apply list_elem_of_singleton.
    + rewrite lookup_insert_ne by done. destruct (H3 x Hx) as [?|[?|?]]; [left; apply elem_of_app; by left|auto..].
  - intros x b [[<- <-]|[_ Hx]]%lookup_insert_Some; [done|by apply (H4 x b)].
  - done.
Qed.

Lemma ledger_finish dp r : ledger L n om dp → om !! r = Some false → ledger L n (delete r om) dp.
Proof.
  intros [H1 H2 H3 H4 H5] Hr. constructor; [done| | | |done].
  - intros x Hx. destruct (H2 x Hx) as (? & ? & ?). split_and!; [done| |done].
    destruct (decide (r = x)) as [<-|]; [by rewrite lookup_delete_eq|by rewrite lookup_delete_ne].
  - intros x Hx. destruct (H3 x Hx) as [?|[Ho|?]]; [by left| |by right; right].
    right; left. rewrite lookup_delete_ne; [done|]. intros ->. congruence.
  - intros x b [_ Hx]%lookup_delete_Some. by apply (H4 x b).
Qed.
End ledger.

Lemma ledger_answer_finish {L n om} dp r :
  ledger L n om dp → om !! r = Some true → ledger (L ++ [r]) n (delete r om) dp.
Proof.
  intros Hl Hr. rewrite <- (delete_insert_eq om r false).
  apply ledger_finish; [by apply ledger_answer|by rewrite lookup_insert_eq].
Qed.
Lemma ledger_reply_done {L n om} r : ledger L n om (Some (r, true)) → ledger (L ++ [r]) n om None.
Proof. intros Hl. by apply (ledger_done r), ledger_reply_keeps. Qed.

(** ** The ledger of a mount *)

Definition owes_reply (h : Handler) : bool :=
  match h with TakesBack _ | DropsListing _ => false | _ => true end.
Definition owes_answer (p : Progress) : bool := match p with Drops _ => false | _ => true end.

Section requests.
Context {T : Type} `{DirectoryTree T}.
Variable direntry_size : str → nat.
Implicit Types m : Mount T.

Definition owing_of (rs : gmap nat Request) : gmap nat bool := (λ x, owes_answer (progress x)) <$> rs.
Definition serving_of (o : option Dispatch) : option (nat * bool) :=
  (λ d, (serving d, owes_reply (handling d))) <$> o.
Definition requests_ok m : Prop :=
  ledger (m_replies m).*1 (next_request m) (owing_of (m_requests m)) (serving_of (m_dispatch m)).

Lemma owing_update r x p rs :
  rs !! r = Some x → owing_of (alter (at_progress p) r rs) = <[r := owes_answer p]> (owing_of rs).
Proof.
  intros Hx. unfold owing_of. apply map_eq. intros i. rewrite lookup_fmap. destruct (decide (r = i)) as [<-|].
  - by rewrite lookup_alter_eq, lookup_insert_eq, Hx.
  - by rewrite lookup_alter_ne, lookup_insert_ne, lookup_fmap.
Qed.

Lemma owing_update_same r x p rs :
  rs !! r = Some x → owes_answer p = owes_answer (progress x) → owing_of (alter (at_progress p) r rs) = owing_of rs.
Proof.
  intros Hx Hp. rewrite (owing_update r x p rs Hx). apply insert_id. unfold owing_of. by rewrite lookup_fmap, Hx, Hp.
Qed.

Lemma owing_delete r rs : owing_of (delete r rs) = delete r (owing_of rs).
Proof. unfold owing_of. by rewrite fmap_delete. Qed.

Lemma owing_alter_same f r rs : (∀ x, owes_answer (progress (f x)) = owes_answer (progress x)) →
  owing_of (alter f r rs) = owing_of rs.
Proof.
  intros Hf. unfold owing_of. apply map_eq. intros i. rewrite !lookup_fmap. destruct (decide (r = i)) as [<-|].
  - rewrite lookup_alter_eq. destruct (rs !! r); simpl; [by rewrite Hf|done].
  - by rewrite lookup_alter_ne.
Qed.

Lemma owing_release l rs : owing_of (foldl (λ rs h, alter let_reply (held_request h) rs) rs l) = owing_of rs.
Proof.
  revert rs. induction l as [|h l IH]; intros rs; simpl; [done|]. rewrite IH.
  apply owing_alter_same. intros x. unfold let_reply. by destruct (progress x) eqn:E; simpl; rewrite ?E.
Qed.

Lemma owing_cancel rs cause : owing_of (cancel_request cause <$> rs) = owing_of rs.
Proof. unfold owing_of. rewrite <- map_fmap_compose. by apply map_fmap_ext. Qed.

Lemma serve_requests_ok accepted spawned m m' :
  requests_ok m → serve direntry_size accepted spawned m = Some m' → requests_ok m'.
Proof.
  intros Hok Hstep. unfold requests_ok in *. serve_leaves Hstep;
    unfold serving_of in Hok; simpl in Hok; rewrite Heqh in Hok; simpl in Hok.
  all: simpl; rewrite ?fmap_app, ?drop_m_replies, ?drop_next_request, ?drop_m_requests; simpl.
  all: first
    [exact Hok|by apply ledger_reply_done|by apply ledger_reply_keeps|by apply (ledger_done (serving d))
    |destruct w; exact Hok|idtac].
  all: unfold owing_of; rewrite fmap_insert; by apply ledger_spawn.
Qed.

(** What a step of a coroutine's, the notifier's or the destructor's does. *)
Lemma off_dispatch_requests_ok e m m' :
  off_dispatch e → requests_ok m → mount_step direntry_size e m = Some m' → requests_ok m'.
Proof.
  intros He Hok Hstep. destruct (off_dispatch_keeps direntry_size e m m' He Hstep) as (Hd & _ & Hn).
  unfold requests_ok in *. rewrite Hd, Hn. clear Hd Hn. destruct e; try done; leaves Hstep; try done.
  all: simpl; rewrite ?owing_release, ?owing_cancel, ?drop_m_replies, ?drop_m_requests, ?fmap_app; try done.
  all: match goal with Hx : m_requests ?m !! ?r = Some ?x |- _ =>
    assert (owing_of (m_requests m) !! r = Some (owes_answer (progress x))) as Ho
      by (unfold owing_of; by rewrite lookup_fmap, Hx);
    match goal with
    | Hp : progress x = _ |- _ =>
        rewrite Hp in Ho; simpl in Ho;
        first
          [rewrite (owing_update_same r x _ _ Hx) by (by rewrite Hp); done
          |rewrite owing_delete; by apply ledger_answer_finish
          |rewrite owing_delete; by apply ledger_finish
          |rewrite (owing_update r x _ _ Hx); by apply ledger_answer
          |unfold owing_of; rewrite fmap_insert, insert_id; [done|unfold owing_of in Ho; simpl; by rewrite Ho, Hp]]
    end
  end.
Qed.

Lemma step_requests_ok e m m' : requests_ok m → mount_step direntry_size e m = Some m' → requests_ok m'.
Proof.
  intros Hok Hstep. destruct (decide (off_dispatch e)) as [He|He]; [by eapply off_dispatch_requests_ok|].
  destruct e; try (by destruct He); [|by eapply serve_requests_ok].
  revert Hstep. simpl. case_decide as Hd; [|done]. destruct Hd as (Hd & _). intros [= <-].
  unfold requests_ok in *. rewrite Hd in Hok. by apply ledger_asks.
Qed.

Lemma mounted_requests_ok t : requests_ok (mounted t).
Proof. constructor; simpl; try done; [apply NoDup_nil_2|by intros r ?%elem_of_nil|lia]. Qed.
End requests.
