(* ===== verification/MountHandles.v ===== *)
(** * What is open stays as it was opened

    Handles belong to the kernel, or to whoever is giving them to it or taking
    them back; snapshots are held once for each handle and each coroutine that
    has one, so that none is deleted while an open file is read from it. *)

From S2P Require Export FileSnapshotsSpec MountRequests.

Section handles.
Context {T : Type} `{DirectoryTree T} (ok : T → Prop) `{!LawfulTree T ok}.
Variable direntry_size : str → nat.
Implicit Types m : Mount T.

Definition count_if (P : Prop) `{Decision P} : nat := if decide P then 1 else 0.

(** ** References to snapshots *)

(** How often a coroutine holds [a], given where the take of its own is. *)
Definition take_holds (k : option Take) (a : nat) : nat :=
  match k with Some x => at_most (ends_with_snapshot (at_stage x) a) | None => 0 end.
Definition holds (k : option Take) (a : nat) (p : Progress) : nat :=
  match p with
  | AwaitsTake => take_holds k a
  | Chooses c => count_if (c = a)
  | LetsGoOf c v => count_if (c = a) + count_if (v = Some a)
  | Retains v => count_if (v = a)
  | _ => 0
  end.
Definition handle_holds (a : nat) (h : FileHandle) : nat := count_if (handle_snapshot h = Some a).

Definition handle_references (a : nat) (hs : gmap nat FileHandle) : nat := map_sumi (λ _, handle_holds a) hs.
Definition request_references (s : FileSnapshots T) (a : nat) (rs : gmap nat Request) : nat :=
  map_sumi (λ r x, holds (takes s !! r) a (progress x)) rs.
Definition references m (a : nat) : nat :=
  handle_references a (m_handles (m_open m)) + request_references (m_snapshots m) a (m_requests m).

(** ** Owners of handles *)

Definition owned_handle (p : Progress) : option nat :=
  match p with AsksAnnounced fh _ | IsHeld fh | RepliesOpen fh | Drops fh => Some fh | _ => None end.
Definition handled_handle (h : Handler) : option nat :=
  match h with
  | Begins (Release fh | Releasedir fh) | RepliesListing fh | DropsListing fh => Some fh
  | _ => None
  end.
Definition dispatch_handle (o : option Dispatch) : option nat := d ← o; handled_handle (handling d).
Definition request_owners (fh : nat) (rs : gmap nat Request) : nat :=
  map_sumi (λ _ x, count_if (owned_handle (progress x) = Some fh)) rs.
Definition owners m (fh : nat) : nat :=
  count_if (fh ∈ kernel_handles (kernel m)) + count_if (dispatch_handle (m_dispatch m) = Some fh) +
  request_owners fh (m_requests m).

(** The handle a handler has yet to look up, beside what it may drop. *)
Definition needs_handle (h : Handler) : option nat :=
  match h with
  | Begins (Readdir _ _ fh) => Some fh
  | Begins (GetAttr _ fh | Read _ _ _ fh) | AsksNode _ fh | AsksName _ fh | AsksReadName _ _ _ fh =>
      if decide (fh = 0) then None else Some fh
  | _ => None
  end.

(** ** What each coroutine has *)

Definition snapshot_at m (a : nat) (name : path) : Prop :=
  ∃ f, allocated (m_snapshots m) !! a = Some f ∧ snapshot_path f = name.
Definition handle_at m (fh : nat) (name : path) : Prop :=
  ∃ h, m_handles (m_open m) !! fh = Some h ∧ handle_path h = name ∧ is_Some (handle_snapshot h).

Definition request_ok m (r : nat) (x : Request) : Prop :=
  match asked x, progress x with
  | OpenOf _ _, (AwaitsTree | BeginsTake) => takes (m_snapshots m) !! r = None
  | OpenOf _ name, AwaitsTake => ∃ k, takes (m_snapshots m) !! r = Some k ∧ taken k = name ∧
      ∀ a, at_stage k = Finished (Value a) → snapshot_at m a name
  | OpenOf _ name, Chooses c => snapshot_at m c name
  | OpenOf _ name, LetsGoOf c v => snapshot_at m c name ∧ ∀ a, v = Some a → snapshot_at m a name
  | OpenOf _ name, Retains v => snapshot_at m v name
  | OpenOf _ name, (AsksAnnounced fh _ | IsHeld fh | RepliesOpen fh | Drops fh) => handle_at m fh name
  | ReadOf _ _ _, (AwaitsTree | RepliesBytes _) => True
  | _, Fails _ => True
  | _, _ => False
  end.

Record handles_ok m : Prop := {
  ho_sound : sound ok (m_snapshots m);
  ho_counts a : holders_of (m_snapshots m) a = taking (m_snapshots m) a + references m a;
  ho_fresh a : is_Some (allocated (m_snapshots m) !! a) → a < next_address m;
  ho_numbers fh : is_Some (m_handles (m_open m) !! fh) → 1 ≤ fh ≤ m_last_handle (m_open m);
  ho_owners fh : 1 ≤ fh → owners m fh = count_if (is_Some (m_handles (m_open m) !! fh));
  ho_paths fh h a : m_handles (m_open m) !! fh = Some h → handle_snapshot h = Some a → snapshot_at m a (handle_path h);
  ho_requests r x : m_requests m !! r = Some x → request_ok m r x;
  ho_takes r : is_Some (takes (m_snapshots m) !! r) → r < next_request m ∧ ∀ d, m_dispatch m = Some d → serving d ≠ r;
  ho_needed d fh : m_dispatch m = Some d → needs_handle (handling d) = Some fh → fh ∈ kernel_handles (kernel m);
  ho_listing d fh : m_dispatch m = Some d → handling d = RepliesListing fh → 1 ≤ fh;
  ho_zero : 0 ∉ kernel_handles (kernel m);
}.

Lemma count_if_eq P Q `{Decision P, Decision Q} : (P ↔ Q) → count_if P = count_if Q.
Proof. intros HPQ. unfold count_if. by rewrite (decide_ext P Q). Qed.
Lemma count_if_true P `{Decision P} : P → count_if P = 1.
Proof. intros HP. unfold count_if. by rewrite decide_True. Qed.
Lemma count_if_false P `{Decision P} : ¬ P → count_if P = 0.
Proof. intros HP. unfold count_if. by rewrite decide_False. Qed.

(** ** What holds a snapshot keeps it *)

Lemma held_allocated m a : handles_ok m → 0 < references m a → is_Some (allocated (m_snapshots m) !! a).
Proof. intros Hok Hpos. apply (so_holders ok _ (ho_sound m Hok)). rewrite (ho_counts m Hok). lia. Qed.

Lemma request_references_le s a rs r x :
  rs !! r = Some x → holds (takes s !! r) a (progress x) ≤ request_references s a rs.
Proof. intros Hx. exact (map_sumi_le_member (λ r x, holds (takes s !! r) a (progress x)) rs r x Hx). Qed.

Lemma handle_references_le a hs fh h : hs !! fh = Some h → handle_holds a h ≤ handle_references a hs.
Proof. intros Hh. exact (map_sumi_le_member (λ _, handle_holds a) hs fh h Hh). Qed.

Lemma request_ok_mono m m' r x :
  request_ok m r x → takes (m_snapshots m') !! r = takes (m_snapshots m) !! r →
  (∀ a name, 0 < holds (takes (m_snapshots m) !! r) a (progress x) → snapshot_at m a name → snapshot_at m' a name) →
  (∀ fh name, owned_handle (progress x) = Some fh → handle_at m fh name → handle_at m' fh name) →
  request_ok m' r x.
Proof.
  intros Hx Ht Ha Hh. unfold request_ok in *. rewrite Ht.
  destruct (asked x), (progress x); try done; simpl in *; try (by apply Hh).
  - destruct Hx as (k & Hk & Hn & Hs). exists k. split_and!; [done..|]. intros a Hf. apply Ha; [|by apply Hs].
    unfold take_holds. rewrite Hk, Hf. simpl. rewrite bool_decide_true by done. simpl. lia.
  - apply Ha; [|done]. rewrite count_if_true by done. lia.
  - destruct Hx as [Hc Hv]. split.
    + apply Ha; [|done]. rewrite (count_if_true (current = current)) by done. lia.
    + intros a Hva. apply Ha; [|by apply Hv]. rewrite (count_if_true (version = Some a)) by done. lia.
  - apply Ha; [|done]. rewrite count_if_true by done. lia.
Qed.

(** ** Steps of a coroutine *)

Definition with_request (r : nat) (x : Request) (p : option Progress) (rs : gmap nat Request) : gmap nat Request :=
  match p with Some p => <[r := at_progress p x]> rs | None => delete r rs end.

Lemma with_request_sum f r x p rs :
  rs !! r = Some x →
  map_sumi f (with_request r x p rs) + f r x = map_sumi f rs + default 0 ((λ p, f r (at_progress p x)) <$> p).
Proof.
  intros Hx. destruct p as [p|]; simpl.
  - by apply map_sumi_update.
  - rewrite (map_sumi_delete f rs r x Hx). lia.
Qed.

Lemma with_request_other r x p rs r' : r ≠ r' → with_request r x p rs !! r' = rs !! r'.
Proof. intros Hne. destruct p; simpl; [by rewrite lookup_insert_ne|by rewrite lookup_delete_ne]. Qed.

(** The coroutine of [r] goes on to [p], or ends. *)
Lemma handles_ok_moves m m' r x p :
  handles_ok m → m_requests m !! r = Some x → m_requests m' = with_request r x p (m_requests m) →
  sound ok (m_snapshots m') → allocated (m_snapshots m') = allocated (m_snapshots m) →
  (∀ i, i ≠ r → takes (m_snapshots m') !! i = takes (m_snapshots m) !! i) →
  (is_Some (takes (m_snapshots m') !! r) → r < next_request m ∧ ∀ d, m_dispatch m = Some d → serving d ≠ r) →
  m_dispatch m' = m_dispatch m → next_request m' = next_request m → next_address m' = next_address m →
  (∀ a, holders_of (m_snapshots m') a + taking (m_snapshots m) a + holds (takes (m_snapshots m) !! r) a (progress x) +
          handle_references a (m_handles (m_open m)) =
        holders_of (m_snapshots m) a + taking (m_snapshots m') a +
          default 0 (holds (takes (m_snapshots m') !! r) a <$> p) + handle_references a (m_handles (m_open m'))) →
  (∀ fh, is_Some (m_handles (m_open m') !! fh) → 1 ≤ fh ≤ m_last_handle (m_open m')) →
  (∀ fh, 1 ≤ fh → count_if (is_Some (m_handles (m_open m') !! fh)) + count_if (owned_handle (progress x) = Some fh) +
           count_if (fh ∈ kernel_handles (kernel m)) =
         count_if (is_Some (m_handles (m_open m) !! fh)) + count_if ((p ≫= owned_handle) = Some fh) +
           count_if (fh ∈ kernel_handles (kernel m'))) →
  (∀ fh h, m_handles (m_open m) !! fh = Some h → owned_handle (progress x) ≠ Some fh → m_handles (m_open m') !! fh = Some h) →
  (∀ fh h a, m_handles (m_open m') !! fh = Some h → handle_snapshot h = Some a → snapshot_at m a (handle_path h)) →
  (∀ p', p = Some p' → request_ok m' r (at_progress p' x)) →
  (∀ fh, fh ∈ kernel_handles (kernel m) → fh ∈ kernel_handles (kernel m')) → 0 ∉ kernel_handles (kernel m') →
  handles_ok m'.
Proof.
  intros Hok Hx Er Hs Ea Et Hnew Ed En Enx Hc Hnum Hown Hkeep Hpaths Hreq Hker Hzero.
  assert (∀ a name, snapshot_at m a name → snapshot_at m' a name) as Hsnap.
  { intros a name. unfold snapshot_at. by rewrite Ea. }
  constructor; rewrite ?Ea, ?Ed, ?En, ?Enx; try done.
  - intros a. specialize (Hc a). pose proof (ho_counts m Hok a) as Hold. unfold references, request_references in *.
    rewrite Er.
    rewrite (map_sumi_ext _ (λ r' x', if decide (r' = r) then holds (takes (m_snapshots m') !! r) a (progress x')
                                     else holds (takes (m_snapshots m) !! r') a (progress x')) (with_request _ _ _ _)).
    2: { intros i y _. case_decide as E; [by rewrite E|]. by rewrite Et. }
    pose proof (with_request_sum (λ r' x', if decide (r' = r) then holds (takes (m_snapshots m') !! r) a (progress x')
                                     else holds (takes (m_snapshots m) !! r') a (progress x')) r x p _ Hx) as E1.
    pose proof (map_sumi_delete (λ r' x', holds (takes (m_snapshots m) !! r') a (progress x')) _ r x Hx) as E2.
    pose proof (map_sumi_delete (λ r' x', if decide (r' = r) then holds (takes (m_snapshots m') !! r) a (progress x')
                                     else holds (takes (m_snapshots m) !! r') a (progress x')) _ r x Hx) as E3.
    rewrite (map_sumi_ext _ (λ r' x', holds (takes (m_snapshots m) !! r') a (progress x')) (delete r _)) in E3.
    2: { intros i y [Hne _]%lookup_delete_Some. by rewrite decide_False by done. }
    cbv beta in *. rewrite !(decide_True (P := r = r)) in * by done. destruct p as [p|]; simpl in *;
      rewrite ?(decide_True (P := r = r)) in * by done; lia.
  - apply (ho_fresh m Hok).
  - intros fh Hfh. specialize (Hown fh Hfh). pose proof (ho_owners m Hok fh Hfh) as Hold.
    unfold owners, request_owners in *. rewrite Ed, Er.
    pose proof (with_request_sum (λ _ x, count_if (owned_handle (progress x) = Some fh)) r x p _ Hx) as E.
    cbv beta in E. destruct p; simpl in *; rewrite ?(count_if_false (None = Some fh)) in * by done; lia.
  - intros fh h a Hh Hsn. apply Hsnap. by eapply Hpaths.
  - intros r' x' Hx'. destruct (decide (r = r')) as [<-|Hne].
    + rewrite Er in Hx'. destruct p as [p|]; simpl in Hx'; [|by rewrite lookup_delete_eq in Hx'].
      rewrite lookup_insert_eq in Hx'. injection Hx' as <-. by apply Hreq.
    + rewrite Er, with_request_other in Hx' by done. pose proof (ho_requests m Hok r' x' Hx') as Hold.
      apply (request_ok_mono m); [done|by apply Et| |].
      * intros a name _. apply Hsnap.
      * intros fh name Ho (h & Hh & Hp & Hsn). exists h. split; [|done]. apply Hkeep; [done|]. intros Hx2.
        assert (1 ≤ fh) as Hfh by (by apply (ho_numbers m Hok fh)).
        pose proof (ho_owners m Hok fh Hfh) as Hone. unfold owners, request_owners in Hone.
        rewrite (map_sumi_delete _ _ r x Hx) in Hone.
        pose proof (map_sumi_le_member (λ _ x, count_if (owned_handle (progress x) = Some fh))
          (delete r (m_requests m)) r' x') as Hle.
        rewrite lookup_delete_ne in Hle by done. specialize (Hle Hx'). cbv beta in *.
        rewrite (count_if_true (owned_handle (progress x) = _)) in Hone by done.
        rewrite (count_if_true (owned_handle (progress x') = _)) in Hle by done.
        rewrite (count_if_true (is_Some _)) in Hone by by eexists. lia.
  - intros i Hi. destruct (decide (i = r)) as [->|Hne]; [by apply Hnew|].
    rewrite Et in Hi by done. by apply (ho_takes m Hok i).
  - intros d fh Hd Hn. apply Hker. by apply (ho_needed m Hok d).
  - apply (ho_listing m Hok).
Qed.

(** ** Steps of anyone else *)

(** What the notifier and the destructor do to coroutines changes nothing that
    they hold. *)
Record same_work (x y : Request) : Prop := {
  sw_holds k a : holds k a (progress y) = holds k a (progress x);
  sw_owned : owned_handle (progress y) = owned_handle (progress x);
  sw_ok m r : request_ok m r x → request_ok m r y;
}.
Definition same_requests (rs rs' : gmap nat Request) : Prop :=
  ∀ r, match rs !! r, rs' !! r with Some x, Some y => same_work x y | None, None => True | _, _ => False end.

Lemma same_work_refl x : same_work x x.
Proof. done. Qed.

Lemma same_requests_refl rs : same_requests rs rs.
Proof. intros r. by destruct (rs !! r). Qed.

Lemma same_requests_trans rs rs' rs'' : same_requests rs rs' → same_requests rs' rs'' → same_requests rs rs''.
Proof.
  intros H1 H2 r. specialize (H1 r). specialize (H2 r).
  destruct (rs !! r), (rs' !! r), (rs'' !! r); try done. destruct H1 as [A B C], H2 as [A' B' C'].
  constructor; [intros; by rewrite A', A|by rewrite B', B|intros; by apply C', C].
Qed.

Lemma same_work_progress x y : asked y = asked x → progress y = progress x → same_work x y.
Proof.
  intros Ha Hp. constructor; [intros; by rewrite Hp|by rewrite Hp|]. intros m r. unfold request_ok. by rewrite Ha, Hp.
Qed.

Lemma same_work_let_reply x : same_work x (let_reply x).
Proof.
  unfold let_reply. destruct (progress x) eqn:E; try apply same_work_refl.
  constructor; simpl; [intros; by rewrite E|by rewrite E|]. intros m r. unfold request_ok. rewrite E. simpl.
  by destruct (asked x).
Qed.

Lemma same_requests_alter f r rs : (∀ x, same_work x (f x)) → same_requests rs (alter f r rs).
Proof.
  intros Hf i. destruct (decide (r = i)) as [<-|]; [rewrite lookup_alter_eq|rewrite lookup_alter_ne by done].
  - destruct (rs !! r); simpl; [apply Hf|done].
  - by destruct (rs !! i).
Qed.

Lemma same_requests_release l rs : same_requests rs (foldl (λ rs h, alter let_reply (held_request h) rs) rs l).
Proof.
  revert rs. induction l as [|h l IH]; intros rs; simpl; [apply same_requests_refl|].
  eapply same_requests_trans; [|apply IH]. apply same_requests_alter, same_work_let_reply.
Qed.

Lemma same_requests_cancel cause rs : same_requests rs (cancel_request cause <$> rs).
Proof. intros r. rewrite lookup_fmap. destruct (rs !! r); simpl; [by apply same_work_progress|done]. Qed.

Lemma same_requests_interrupt r x cause rs : rs !! r = Some x → same_requests rs (<[r := cancel_request cause x]> rs).
Proof.
  intros Hx. rewrite <- (alter_insert (cancel_request cause) rs r x Hx). apply same_requests_alter.
  intros y. by apply same_work_progress.
Qed.

(** The snapshots after something that holds and lets go of none. *)
Record same_snapshots (s s' : FileSnapshots T) : Prop := {
  ss_sound : sound ok s';
  ss_allocated : allocated s' = allocated s;
  ss_takes : takes s' = takes s;
}.

(** A step of anyone but a coroutine or a take. *)
Lemma handles_ok_other m m' :
  handles_ok m → same_requests (m_requests m) (m_requests m') → same_snapshots (m_snapshots m) (m_snapshots m') →
  next_request m ≤ next_request m' → next_address m' = next_address m →
  (∀ a, holders_of (m_snapshots m') a + handle_references a (m_handles (m_open m)) =
        holders_of (m_snapshots m) a + handle_references a (m_handles (m_open m'))) →
  (∀ fh, is_Some (m_handles (m_open m') !! fh) → 1 ≤ fh ≤ m_last_handle (m_open m')) →
  (∀ fh, 1 ≤ fh → count_if (is_Some (m_handles (m_open m') !! fh)) + count_if (dispatch_handle (m_dispatch m) = Some fh) +
           count_if (fh ∈ kernel_handles (kernel m)) =
         count_if (is_Some (m_handles (m_open m) !! fh)) + count_if (dispatch_handle (m_dispatch m') = Some fh) +
           count_if (fh ∈ kernel_handles (kernel m'))) →
  (∀ fh h, m_handles (m_open m) !! fh = Some h → dispatch_handle (m_dispatch m) ≠ Some fh →
     m_handles (m_open m') !! fh = Some h) →
  (∀ fh h a, m_handles (m_open m') !! fh = Some h → handle_snapshot h = Some a → snapshot_at m a (handle_path h)) →
  (∀ d, m_dispatch m' = Some d →
     (next_request m ≤ serving d ∨ ∃ d0, m_dispatch m = Some d0 ∧ serving d = serving d0) ∧
     ∀ fh, (needs_handle (handling d) = Some fh → fh ∈ kernel_handles (kernel m')) ∧
           (handling d = RepliesListing fh → 1 ≤ fh)) →
  0 ∉ kernel_handles (kernel m') →
  handles_ok m'.
Proof.
  intros Hok Hr [Hs Ea Et] Hn Enx Hc Hnum Hown Hkeep Hpaths Hd Hzero.
  assert (∀ a name, snapshot_at m a name → snapshot_at m' a name) as Hsnap.
  { intros a name. unfold snapshot_at. by rewrite Ea. }
  assert (∀ f g, (∀ r x y, same_work x y → g r y = f r x) →
    map_sumi g (m_requests m') = map_sumi f (m_requests m)) as Hsum.
  { intros f g Hfg. apply map_sumi_pointwise. intros i. specialize (Hr i).
    destruct (m_requests m !! i), (m_requests m' !! i); simpl; try done. f_equal. by apply Hfg. }
  constructor; rewrite ?Ea, ?Enx; try done.
  - intros a. specialize (Hc a). pose proof (ho_counts m Hok a) as Hold. unfold references, request_references in *.
    rewrite (Hsum (λ r x, holds (takes (m_snapshots m) !! r) a (progress x))).
    2: { intros r x y Hxy. by rewrite Et, (sw_holds _ _ Hxy). }
    assert (taking (m_snapshots m') a = taking (m_snapshots m) a) as -> by (unfold taking; by rewrite Et). lia.
  - apply (ho_fresh m Hok).
  - intros fh Hfh. specialize (Hown fh Hfh). pose proof (ho_owners m Hok fh Hfh) as Hold.
    unfold owners, request_owners in *. rewrite (Hsum (λ _ x, count_if (owned_handle (progress x) = Some fh))); [lia|].
    intros _ x y Hxy. by rewrite (sw_owned _ _ Hxy).
  - intros fh h a Hh Hsn. apply Hsnap. by eapply Hpaths.
  - intros r y Hy. specialize (Hr r). rewrite Hy in Hr. destruct (m_requests m !! r) as [x|] eqn:Hx; [|done].
    apply (sw_ok _ _ Hr). apply (request_ok_mono m); [by apply (ho_requests m Hok)|by rewrite Et| |].
    + intros a name _. apply Hsnap.
    + intros fh name Ho (h & Hh & Hp & Hsn). exists h. split; [|done]. apply Hkeep; [done|]. intros Hx2.
      assert (1 ≤ fh) as Hfh by (by apply (ho_numbers m Hok fh)).
      pose proof (ho_owners m Hok fh Hfh) as Hone. unfold owners, request_owners in Hone.
      pose proof (map_sumi_le_member (λ _ x, count_if (owned_handle (progress x) = Some fh)) _ r x Hx) as Hle.
      cbv beta in *. rewrite (count_if_true (dispatch_handle _ = _)) in Hone by done.
      rewrite (count_if_true (owned_handle (progress x) = _)) in Hle by done.
      rewrite (count_if_true (is_Some _)) in Hone by by eexists. lia.
  - intros r Hk. rewrite Et in Hk. destruct (ho_takes m Hok r Hk) as [Hlt Hne]. split; [lia|].
    intros d Hd'. destruct (Hd d Hd') as [[Hle|(d0 & Hd0 & ->)] _]; [lia|by apply Hne].
  - intros d fh Hd' Hnd. by apply (Hd d Hd').
  - intros d fh Hd' Hl. by apply (Hd d Hd').
Qed.

(** A step that touches neither snapshots nor handles. *)
Lemma handles_ok_quiet m m' :
  handles_ok m → same_requests (m_requests m) (m_requests m') → m_snapshots m' = m_snapshots m →
  m_open m' = m_open m → kernel_handles (kernel m') = kernel_handles (kernel m) →
  dispatch_handle (m_dispatch m') = dispatch_handle (m_dispatch m) →
  next_request m' = next_request m → next_address m' = next_address m →
  (∀ d, m_dispatch m' = Some d → ∃ d0, m_dispatch m = Some d0 ∧ serving d = serving d0 ∧
     (needs_handle (handling d) = None ∨ needs_handle (handling d) = needs_handle (handling d0)) ∧
     ((∀ fh, handling d ≠ RepliesListing fh) ∨ handling d = handling d0)) →
  handles_ok m'.
Proof.
  intros Hok Hr Es Eo Ek Ed En Ea Hd. apply (handles_ok_other m m' Hok Hr); rewrite ?Es, ?Eo, ?Ek, ?Ed, ?Ea, ?En; try done.
  - constructor; [apply (ho_sound m Hok)|done|done].
  - apply (ho_numbers m Hok).
  - apply (ho_paths m Hok).
  - intros d Hd'. destruct (Hd d Hd') as (d0 & Hd0 & Hsv & Hn & Hl). split; [right; by exists d0|].
    intros fh. split; intros Hfh.
    + apply (ho_needed m Hok d0); [done|]. by destruct Hn as [Hn|Hn]; rewrite Hn in Hfh.
    + apply (ho_listing m Hok d0); [done|]. destruct Hl as [Hl|Hl]; [by destruct (Hl fh)|congruence].
  - apply (ho_zero m Hok).
Qed.

(** ** Handles given and taken *)

Lemma retain_spec m h fh hs :
  handles_ok m → retain h (m_open m) = (fh, hs) →
  m_handles (m_open m) !! fh = None ∧ 1 ≤ fh ∧ m_handles hs = <[fh := h]> (m_handles (m_open m)) ∧ m_last_handle hs = fh ∧
  (∀ i, is_Some (m_handles hs !! i) → 1 ≤ i ≤ fh) ∧
  (∀ a, handle_references a (m_handles hs) = handle_holds a h + handle_references a (m_handles (m_open m))).
Proof.
  intros Hok. unfold retain. intros [= <- <-]. simpl.
  assert (m_handles (m_open m) !! S (m_last_handle (m_open m)) = None) as Hfree.
  { apply eq_None_not_Some. intros Hsome. apply (ho_numbers m Hok) in Hsome. lia. }
  unfold emplace. rewrite Hfree. split_and!; [done|lia|done|done| |].
  - intros i. destruct (decide (S (m_last_handle (m_open m)) = i)) as [<-|Hne]; [lia|].
    rewrite lookup_insert_ne by done. intros Hi. apply (ho_numbers m Hok) in Hi. lia.
  - intros a. unfold handle_references. by rewrite map_sumi_insert.
Qed.

Lemma references_positive m fh h a :
  handles_ok m → m_handles (m_open m) !! fh = Some h → handle_snapshot h = Some a →
  taking (m_snapshots m) a < holders_of (m_snapshots m) a.
Proof.
  intros Hok Hh Ha. rewrite (ho_counts m Hok a). unfold references.
  pose proof (handle_references_le a _ fh h Hh) as Hle. unfold handle_holds in Hle. rewrite count_if_true in Hle by done. lia.
Qed.

(** Letting go of a snapshot that is held. *)
Lemma let_go_same m a :
  handles_ok m → taking (m_snapshots m) a < holders_of (m_snapshots m) a →
  same_snapshots (m_snapshots m) (let_go a (m_snapshots m)) ∧
  ∀ b, holders_of (let_go a (m_snapshots m)) b + count_if (a = b) = holders_of (m_snapshots m) b.
Proof.
  intros Hok Hlt. split.
  - constructor; [by apply let_go_sound, Hlt; apply (ho_sound m Hok)|done|done].
  - intros b. unfold let_go. rewrite holders_of_insert. unfold count_if. case_decide; [subst; lia|lia].
Qed.

Lemma drop_spec m fh :
  handles_ok m →
  same_snapshots (m_snapshots m) (m_snapshots (drop fh m)) ∧
  ∀ a, holders_of (m_snapshots (drop fh m)) a + handle_references a (m_handles (m_open m)) =
       holders_of (m_snapshots m) a + handle_references a (m_handles (m_open (drop fh m))).
Proof.
  intros Hok. rewrite drop_m_open. unfold drop, snapshot_of, drop_handle, mbind, option_bind. simpl.
  assert (same_snapshots (m_snapshots m) (m_snapshots m)) as Hsame.
  { constructor; [apply (ho_sound m Hok)|done|done]. }
  destruct (m_handles (m_open m) !! fh) as [h|] eqn:Hh; [|by rewrite delete_id].
  assert (∀ a, handle_references a (m_handles (m_open m)) =
    handle_holds a h + handle_references a (delete fh (m_handles (m_open m)))) as Hsum.
  { intros a. by apply (map_sumi_delete (λ _, handle_holds a)). }
  destruct (handle_snapshot h) as [b|] eqn:Hb; simpl.
  - destruct (let_go_same m b Hok) as [Hs Hl]; [by eapply references_positive|]. split; [done|].
    intros a. specialize (Hl a). rewrite Hsum. unfold handle_holds. rewrite Hb.
    rewrite (count_if_eq (Some b = Some a) (b = a)) by naive_solver. lia.
  - split; [done|]. intros a. rewrite Hsum. unfold handle_holds. rewrite Hb, count_if_false by done. lia.
Qed.

Lemma drop_keeps m fh i h :
  m_handles (m_open (drop fh m)) !! i = Some h → i ≠ fh ∧ m_handles (m_open m) !! i = Some h.
Proof. rewrite drop_m_open. simpl. intros [? ?]%lookup_delete_Some. done. Qed.

Lemma is_Some_delete {A} (hs : gmap nat A) fh i :
  count_if (is_Some (delete fh hs !! i)) = if decide (fh = i) then 0 else count_if (is_Some (hs !! i)).
Proof.
  case_decide; [subst; rewrite lookup_delete_eq; apply count_if_false; by intros [? ?]|by rewrite lookup_delete_ne].
Qed.
Lemma is_Some_insert {A} (hs : gmap nat A) fh i h :
  count_if (is_Some (<[fh := h]> hs !! i)) = if decide (fh = i) then 1 else count_if (is_Some (hs !! i)).
Proof.
  case_decide; [subst; rewrite lookup_insert_eq; apply count_if_true; by eexists|by rewrite lookup_insert_ne].
Qed.

(** An owner of a handle is the only one there is. *)
Lemma owned_exists m fh : handles_ok m → 1 ≤ fh → 0 < owners m fh → is_Some (m_handles (m_open m) !! fh) ∧ owners m fh = 1.
Proof.
  intros Hok Hfh Ho. rewrite (ho_owners m Hok fh Hfh) in *. unfold count_if in *. case_decide; [done|lia].
Qed.

(** ** The dispatcher *)

Ltac quiet_handles Hok Hd Hh :=
  apply (handles_ok_quiet _ _ Hok); simpl;
  [apply same_requests_refl|done|done|done|unfold dispatch_handle; rewrite Hd; simpl; rewrite Hh; done|done|done|
   intros ? E; first [discriminate E|injection E as <-; eexists; split; [exact Hd|]; split; [done|];
   split; [simpl; rewrite Hh; simpl; auto|left; done]]].

Lemma drops_handles_ok m m' d fh :
  handles_ok m → m_dispatch m = Some d → handled_handle (handling d) = Some fh →
  m_requests m' = m_requests m → m_snapshots m' = m_snapshots (drop fh m) → m_open m' = drop_handle fh (m_open m) →
  kernel m' = kernel m → m_dispatch m' = None → next_request m' = next_request m → next_address m' = next_address m →
  handles_ok m'.
Proof.
  intros Hok Hd Hh Er Es Eo Ek Ed En Ea. destruct (drop_spec m fh Hok) as [Hs Hc]. rewrite drop_m_open in Hc.
  apply (handles_ok_other m m' Hok); rewrite ?Er, ?Es, ?Eo, ?Ek, ?Ed, ?En, ?Ea; try done.
  - apply same_requests_refl.
  - simpl. intros i. destruct (decide (fh = i)) as [<-|]; [rewrite lookup_delete_eq; by intros [? ?]|].
    rewrite lookup_delete_ne by done. apply (ho_numbers m Hok).
  - intros i Hi. simpl. rewrite is_Some_delete. unfold dispatch_handle. rewrite Hd. simpl. rewrite Hh.
    rewrite (count_if_eq (Some fh = Some i) (fh = i)) by naive_solver.
    rewrite (count_if_false (None = Some i)) by done.
    destruct (decide (fh = i)) as [<-|Hf]; [|rewrite (count_if_false (fh = i)) by done; lia].
    rewrite (count_if_true (fh = fh)) by done.
    destruct (owned_exists m fh Hok Hi) as [Hx _]; [|rewrite (count_if_true _ Hx); lia].
    unfold owners, dispatch_handle. rewrite Hd. simpl. rewrite Hh, (count_if_true (Some fh = _)) by done. lia.
  - intros i h Hi. unfold dispatch_handle. rewrite Hd. simpl. rewrite Hh. intros Hne. rewrite lookup_delete_ne; [done|].
    congruence.
  - simpl. intros i h a [_ Hi]%lookup_delete_Some. by apply (ho_paths m Hok i).
  - apply (ho_zero m Hok).
Qed.

Lemma lists_handles_ok m m' d h fh hs :
  handles_ok m → m_dispatch m = Some d → handled_handle (handling d) = None → handle_snapshot h = None →
  retain h (m_open m) = (fh, hs) →
  m_requests m' = m_requests m → m_snapshots m' = m_snapshots m → m_open m' = hs → kernel m' = kernel m →
  m_dispatch m' = Some {| serving := serving d; caller := caller d; handling := RepliesListing fh |} →
  next_request m' = next_request m → next_address m' = next_address m →
  handles_ok m'.
Proof.
  intros Hok Hd Hh Hnone Hret Er Es Eo Ek Ed En Ea.
  destruct (retain_spec m h fh hs Hok Hret) as (Hfree & Hfh & Ehs & Elast & Hnum & Hsum).
  apply (handles_ok_other m m' Hok); rewrite ?Er, ?Es, ?Eo, ?Ek, ?Ed, ?En, ?Ea, ?Elast, ?Ehs; try done.
  - apply same_requests_refl.
  - constructor; [apply (ho_sound m Hok)|done|done].
  - intros a. rewrite <- Ehs, Hsum. unfold handle_holds. rewrite Hnone, count_if_false by done. lia.
  - by rewrite <- Ehs.
  - intros i Hi. rewrite is_Some_insert. unfold dispatch_handle. rewrite Hd. simpl. rewrite Hh.
    rewrite (count_if_eq (Some fh = Some i) (fh = i)) by naive_solver.
    rewrite (count_if_false (None = Some i)) by done. destruct (decide (fh = i)) as [<-|Hf].
    + rewrite (count_if_true (fh = fh)) by done. rewrite (count_if_false (is_Some _)); [lia|].
      rewrite Hfree. by intros [? ?].
    + rewrite (count_if_false (fh = i)) by done. lia.
  - intros i g Hi _. rewrite lookup_insert_ne; [done|]. intros <-. congruence.
  - intros i g a [[<- <-]|[_ Hi]]%lookup_insert_Some; [by rewrite Hnone|by apply (ho_paths m Hok i)].
  - intros d' [= <-]. split; [right; by exists d|]. intros i. split; [done|]. by intros [= <-].
  - apply (ho_zero m Hok).
Qed.

(** A handle given to the kernel. *)
Lemma kernel_owns m fh i :
  1 ≤ fh → count_if (fh ∈ kernel_handles (kernel m)) = 0 →
  count_if (i ∈ kernel_handles (kernel_opens fh (kernel m))) =
    count_if (fh = i) + count_if (i ∈ kernel_handles (kernel m)).
Proof.
  intros Hfh Hnot. destruct (decide (fh = i)) as [<-|Hne].
  - rewrite Hnot, (count_if_true (fh = fh)) by done. apply count_if_true. simpl. set_solver.
  - rewrite (count_if_false (fh = i)) by done. apply count_if_eq. simpl. set_solver.
Qed.

Lemma gives_handles_ok m m' d fh :
  handles_ok m → m_dispatch m = Some d → handling d = RepliesListing fh → 1 ≤ fh →
  m_requests m' = m_requests m → m_snapshots m' = m_snapshots m → m_open m' = m_open m →
  kernel m' = kernel_opens fh (kernel m) → m_dispatch m' = None →
  next_request m' = next_request m → next_address m' = next_address m →
  handles_ok m'.
Proof.
  intros Hok Hd Hh Hfh Er Es Eo Ek Ed En Ea.
  assert (count_if (dispatch_handle (m_dispatch m) = Some fh) = 1) as Hmine.
  { apply count_if_true. unfold dispatch_handle. rewrite Hd. simpl. by rewrite Hh. }
  assert (count_if (fh ∈ kernel_handles (kernel m)) = 0) as Hnot.
  { destruct (owned_exists m fh Hok Hfh) as [_ Hone]; unfold owners in *; lia. }
  apply (handles_ok_other m m' Hok); rewrite ?Er, ?Es, ?Eo, ?Ek, ?Ed, ?En, ?Ea; try done.
  - apply same_requests_refl.
  - constructor; [apply (ho_sound m Hok)|done|done].
  - apply (ho_numbers m Hok).
  - intros i Hi. rewrite kernel_owns by done. unfold dispatch_handle at 1. rewrite Hd. simpl. rewrite Hh. simpl.
    rewrite (count_if_eq (Some fh = Some i) (fh = i)) by naive_solver.
    rewrite (count_if_false (dispatch_handle None = Some i)) by done. lia.
  - apply (ho_paths m Hok).
  - simpl. pose proof (ho_zero m Hok). intros [E|?]%elem_of_union; [|done]. apply elem_of_singleton in E. lia.
Qed.

(** A request handed to a coroutine. *)
Lemma spawns_handles_ok m m' d x :
  handles_ok m → requests_ok m → m_dispatch m = Some d →
  (progress x = AwaitsTree ∨ ∃ e, progress x = Fails e) → owes_reply (handling d) = true → handled_handle (handling d) = None →
  m_requests m' = <[serving d := x]> (m_requests m) → m_snapshots m' = m_snapshots m → m_open m' = m_open m →
  kernel m' = kernel m → m_dispatch m' = None →
  next_request m' = next_request m → next_address m' = next_address m →
  handles_ok m'.
Proof.
  intros Hok Hreq Hd Hx Hh Hn Er Es Eo Ek Ed En Ea.
  assert (m_requests m !! serving d = None) as Hfree.
  { destruct (m_requests m !! serving d) as [y|] eqn:Hy; [|done]. exfalso.
    destruct (le_owing _ _ _ _ Hreq (serving d) (owes_answer (progress y))) as [_ Hne].
    - unfold owing_of. by rewrite lookup_fmap, Hy.
    - by destruct (Hne (owes_reply (handling d))); unfold serving_of; rewrite Hd. }
  assert (takes (m_snapshots m) !! serving d = None) as Hnotake.
  { apply eq_None_not_Some. intros Hk. by apply (proj2 (ho_takes m Hok _ Hk) d). }
  destruct Hok as [H1 H2 H3 H4 H5 H6 H7 H8 H9 H10 H11]. constructor; rewrite ?Es, ?Eo, ?Ek, ?Ed, ?En, ?Ea; try done.
  - intros a. rewrite H2. unfold references, request_references. rewrite Es, Eo, Er, map_sumi_insert by done.
    assert (holds (takes (m_snapshots m) !! serving d) a (progress x) = 0) as ->; [|lia].
    by destruct Hx as [->|[e ->]].
  - intros fh Hfh. rewrite <- (H5 fh Hfh). unfold owners, request_owners. rewrite Ek, Ed, Er, map_sumi_insert, Hd by done.
    simpl. rewrite Hn. rewrite (count_if_false (owned_handle (progress x) = Some fh)); [simpl; lia|].
    by destruct Hx as [->|[e ->]].
  - intros fh h a. unfold snapshot_at. rewrite Es. apply H6.
  - intros r y. rewrite Er. intros [[<- <-]|[_ Hy]]%lookup_insert_Some.
    + unfold request_ok. rewrite Es. destruct (asked x), Hx as [->|[e ->]]; done.
    + apply (request_ok_mono m); [by apply H7|by rewrite Es| |].
      * intros a name _. unfold snapshot_at. by rewrite Es.
      * intros fh name _. unfold handle_at. by rewrite Eo.
  - intros r Hr. destruct (H8 r Hr) as [? _]. done.
Qed.

Lemma serve_handles_ok accepted spawned m m' :
  handles_ok m → requests_ok m → serve direntry_size accepted spawned m = Some m' → handles_ok m'.
Proof.
  intros Hok Hreq Hstep. serve_leaves Hstep.
  all: try (quiet_handles Hok Heqo Heqh).
  all: try (destruct w; quiet_handles Hok Heqo Heqh).
  all: try (eapply (spawns_handles_ok m _ d); [done|done|done| |by rewrite Heqh|by rewrite Heqh|done..]; simpl; eauto; fail).
  1-2, 5: eapply (drops_handles_ok m _ d fh); [done|done|by rewrite Heqh|..]; simpl;
    rewrite ?drop_m_requests, ?drop_m_open, ?drop_kernel, ?drop_next_request, ?drop_next_address; done.
  - eapply (lists_handles_ok m _ d); [done|done|by rewrite Heqh| |done..]. done.
  - eapply (gives_handles_ok m _ d fh); [done|done|done| |done..]. by apply (ho_listing m Hok d).
Qed.

(** ** Everyone else *)

Lemma asks_handles_ok pid o m m' :
  handles_ok m → mount_step direntry_size (Asks pid o) m = Some m' → handles_ok m'.
Proof.
  intros Hok. simpl. case_decide as Hd; [|done]. destruct Hd as (Hd & _ & Hask & _). intros [= <-].
  assert (dispatch_handle (m_dispatch m) = None) as Hnone by (unfold dispatch_handle; by rewrite Hd).
  assert (∀ fh, 1 ≤ fh →
    count_if (dispatch_handle (Some {| serving := next_request m; caller := pid; handling := Begins o |}) = Some fh) +
      count_if (fh ∈ kernel_handles (kernel_after o (kernel m))) = count_if (fh ∈ kernel_handles (kernel m))) as Hgive.
  { intros fh Hfh. unfold dispatch_handle. simpl. destruct o; simpl; try done; simpl in Hask;
      (rewrite (count_if_eq (Some fh0 = Some fh) (fh0 = fh)) by naive_solver; destruct (decide (fh0 = fh)) as [->|Hne];
       [rewrite (count_if_true (fh = fh)) by done; rewrite (count_if_false (fh ∈ _ ∖ _)) by set_solver;
        rewrite count_if_true; [done|unfold knows_handle in Hask; first [done|by destruct Hask; [exfalso; lia|]]]
       |rewrite (count_if_false (fh0 = fh)) by done; apply count_if_eq; set_solver]). }
  apply (handles_ok_other m _ Hok); simpl; try done.
  - apply same_requests_refl.
  - constructor; [apply (ho_sound m Hok)|done|done].
  - lia.
  - apply (ho_numbers m Hok).
  - intros fh Hfh. specialize (Hgive fh Hfh). simpl in Hgive. rewrite Hnone, (count_if_false (None = Some fh)) by done. lia.
  - apply (ho_paths m Hok).
  - intros d [= <-]. split; [by left|]. intros fh. split; [|done]. simpl.
    destruct o; simpl in *; try done; unfold knows_handle in *; try case_decide; try done; intros [= <-]; naive_solver.
  - pose proof (ho_zero m Hok). destruct o; simpl; set_solver.
Qed.

Lemma snapshots_handles_ok m m' :
  handles_ok m → same_snapshots (m_snapshots m) (m_snapshots m') →
  (∀ a, holders_of (m_snapshots m') a = holders_of (m_snapshots m) a) →
  same_requests (m_requests m) (m_requests m') → m_open m' = m_open m → kernel m' = kernel m →
  m_dispatch m' = m_dispatch m → next_request m' = next_request m → next_address m' = next_address m →
  handles_ok m'.
Proof.
  intros Hok Hs Hh Hr Eo Ek Ed En Ea. apply (handles_ok_other m m' Hok); rewrite ?Eo, ?Ek, ?Ed, ?En, ?Ea; try done.
  - intros a. by rewrite Hh.
  - apply (ho_numbers m Hok).
  - apply (ho_paths m Hok).
  - intros d Hd. split; [right; by exists d|]. intros fh. split; [by apply (ho_needed m Hok d)|by apply (ho_listing m Hok d)].
  - apply (ho_zero m Hok).
Qed.

Lemma tree_handles_ok t m : ok t → handles_ok m → handles_ok (set_snapshots (add_version t (m_snapshots m)) m).
Proof.
  intros Ht Hok. apply (snapshots_handles_ok m); try done; [|apply same_requests_refl].
  constructor; [|done|done]. by apply add_version_sound, Ht; apply (ho_sound m Hok).
Qed.

Lemma changed_same_snapshots d m : handles_ok m → same_snapshots (m_snapshots m) (changed d (m_snapshots m)).
Proof.
  intros Hok. pose proof (ho_sound m Hok) as Hs. destruct (so_numbers ok _ Hs) as [H1 H2].
  destruct (mo_rest _ _ _ (changed_moved_on d (m_snapshots m) H1 H2)) as (_ & E1 & _ & E2).
  constructor; [by apply changed_sound|done|done].
Qed.

Lemma changed_holders d (s : FileSnapshots T) a : sound ok s → holders_of (changed d s) a = holders_of s a.
Proof.
  intros Hs. destruct (so_numbers ok _ Hs) as [H1 H2].
  destruct (mo_rest _ _ _ (changed_moved_on d s H1 H2)) as (_ & _ & E & _). unfold holders_of. by rewrite E.
Qed.

(** Steps that leave the snapshots and the handles alone. *)
Lemma off_quiet_handles_ok m m' :
  handles_ok m → same_requests (m_requests m) (m_requests m') → m_snapshots m' = m_snapshots m → m_open m' = m_open m →
  kernel m' = kernel m → m_dispatch m' = m_dispatch m → next_request m' = next_request m →
  next_address m' = next_address m → handles_ok m'.
Proof.
  intros Hok Hr Es Eo Ek Ed En Ea. apply (snapshots_handles_ok m); rewrite ?Es; try done.
  constructor; [apply (ho_sound m Hok)|done|done].
Qed.

(** A deleted snapshot is one that nobody has. *)
Lemma dies_handles_ok a s m :
  handles_ok m → step (Deletes a) (m_snapshots m) = Some s → handles_ok (set_snapshots s m).
Proof.
  intros Hok. simpl. case_decide as Hd; [|done]. destruct Hd as [[f Hf] Hz]. intros [= <-].
  pose proof (ho_sound m Hok) as Hs. pose proof (forget_sound ok _ a Hs Hz) as Hs'.
  assert (∀ b, b ≠ a → allocated (FileSnapshots.forget a (m_snapshots m)) !! b = allocated (m_snapshots m) !! b) as Hall.
  { intros b Hb. unfold FileSnapshots.forget. rewrite Hf. simpl. by rewrite lookup_delete_ne. }
  assert (takes (FileSnapshots.forget a (m_snapshots m)) = takes (m_snapshots m)) as Ht.
  { unfold FileSnapshots.forget. by rewrite Hf. }
  assert (∀ b, holders_of (FileSnapshots.forget a (m_snapshots m)) b = holders_of (m_snapshots m) b) as Hh.
  { intros b. unfold FileSnapshots.forget. rewrite Hf. unfold holders_of. simpl. destruct (decide (a = b)) as [<-|Hne].
    - rewrite lookup_delete_eq. unfold holders_of in Hz. by rewrite Hz.
    - by rewrite lookup_delete_ne. }
  assert (∀ b name, 0 < references m b → snapshot_at m b name → snapshot_at (set_snapshots (FileSnapshots.forget a (m_snapshots m)) m) b name) as Hsnap.
  { intros b name Hb (g & Hg & Hn). exists g. split; [|done]. simpl. rewrite Hall; [done|]. intros ->.
    pose proof (ho_counts m Hok a). lia. }
  pose proof Hok as [H1 H2 H3 H4 H5 H6 H7 H8 H9 H10 H11].
  constructor; simpl; rewrite ?Ht; try done.
  - intros b. rewrite Hh, (H2 b). unfold references. simpl. unfold request_references, taking. by rewrite Ht.
  - intros b. destruct (decide (b = a)) as [->|Hb]; [|rewrite Hall by done; apply H3].
    intros _. apply H3. by eexists.
  - intros fh h b Hfh Hb. apply Hsnap; [|by eapply H6]. unfold references.
    pose proof (handle_references_le b _ fh h Hfh) as Hle. unfold handle_holds in Hle. rewrite count_if_true in Hle by done. lia.
  - intros r x Hx. apply (request_ok_mono m); [by apply H7|simpl; by rewrite Ht| |done].
    intros b name Hb. apply Hsnap. unfold references.
    pose proof (request_references_le (m_snapshots m) b _ r x Hx). lia.
Qed.

(** ** Takes *)

Lemma take_step_allocated k fresh (s s' : FileSnapshots T) :
  take_step k fresh s = Some s' →
  (∀ x, takes s !! k = Some x → ∀ r, at_stage x ≠ Finished r) ∧
  ∀ a f, allocated s !! a = Some f → allocated s' !! a = Some f.
Proof.
  unfold take_step, mbind, option_bind. intros Hstep.
  repeat break_match_hyp Hstep; try discriminate Hstep; injection Hstep as <-;
    (split; [intros x; intros [= <-]; congruence|]); try done.
  intros b g Hb. simpl. rewrite lookup_insert_ne; [done|]. intros <-. congruence.
Qed.

Lemma take_step_fresh k fresh (s s' : FileSnapshots T) a :
  take_step k fresh s = Some s' → is_Some (allocated s' !! a) → is_Some (allocated s !! a) ∨ a = fresh.
Proof.
  unfold take_step, mbind, option_bind. intros Hstep.
  repeat break_match_hyp Hstep; try discriminate Hstep; injection Hstep as <-; simpl; try (by left).
  destruct (decide (fresh = a)) as [->|]; [by right|]. rewrite lookup_insert_ne by done. by left.
Qed.

Lemma take_handles_ok m r x s :
  handles_ok m → m_requests m !! r = Some x → progress x = AwaitsTake →
  take_step r (next_address m) (m_snapshots m) = Some s →
  handles_ok (count_address (set_snapshots s m)).
Proof.
  intros Hok Hx Hp Hstep. pose proof Hok as [H1 H2 H3 H4 H5 H6 H7 H8 H9 H10 H11].
  destruct (take_step_sound ok _ _ _ _ H1 Hstep) as (Hs & _ & k & st & Hk & Hk' & Hfin).
  destruct (take_step_counts ok _ _ _ _ H1 Hstep) as (k2 & st2 & Hk2 & Et & Hc).
  destruct (take_step_allocated _ _ _ _ Hstep) as [Hrun Hkeep]. simplify_eq.
  rewrite Et, lookup_insert_eq in Hk'. injection Hk' as ->.
  assert (∀ a name, snapshot_at m a name → snapshot_at (count_address (set_snapshots s m)) a name) as Hsnap.
  { intros a name (f & Hf & Hn). exists f. split; [by apply Hkeep|done]. }
  assert (∀ i, i ≠ r → takes s !! i = takes (m_snapshots m) !! i) as Eother.
  { intros i Hi. by rewrite Et, lookup_insert_ne. }
  constructor; simpl; try done.
  - intros a. specialize (Hc a). specialize (H2 a). unfold references, request_references in *. simpl.
    pose proof (map_sumi_delete (λ r x, holds (takes (m_snapshots m) !! r) a (progress x)) _ r x Hx) as E1.
    pose proof (map_sumi_delete (λ r x, holds (takes s !! r) a (progress x)) _ r x Hx) as E2.
    rewrite (map_sumi_ext (λ r x, holds (takes s !! r) a (progress x))
      (λ r x, holds (takes (m_snapshots m) !! r) a (progress x)) (delete r _)) in E2.
    2: { intros i y [Hi _]%lookup_delete_Some. by rewrite Eother by done. }
    cbv beta in *. rewrite Hp in E1, E2. simpl in E1, E2.
    assert (takes s !! r = Some (with_stage st k)) as Ekr by by rewrite Et, lookup_insert_eq.
    rewrite Hk in E1. rewrite Ekr in E2. unfold take_holds in *. simpl in *.
    assert (ends_with_snapshot (at_stage k) a = false) as E0.
    { destruct (at_stage k) eqn:E; try done. by destruct (Hrun _ Hk r0). }
    rewrite E0 in E1. simpl in E1. lia.
  - intros a Ha. destruct (take_step_fresh _ _ _ _ _ Hstep Ha) as [Hold| ->]; [apply H3 in Hold; lia|lia].
  - intros fh h a Hh Ha. apply Hsnap. by eapply H6.
  - intros i y Hy. destruct (decide (i = r)) as [->|Hne].
    + rewrite Hx in Hy. injection Hy as <-. pose proof (H7 r x Hx) as Hreq. unfold request_ok in *. rewrite Hp in *.
      destruct (asked x); [|done]. destruct Hreq as (k' & Hk'' & Hn & _). simplify_eq. simpl. rewrite Et, lookup_insert_eq.
      eexists. split; [done|]. simpl. split; [done|]. intros a ->. destruct (Hfin a eq_refl) as (_ & f & t & u & Hf & Hfp & _).
      by exists f.
    + apply (request_ok_mono m); [by apply H7|by apply Eother| |done]. intros a name _. apply Hsnap.
  - intros i Hi. destruct (decide (i = r)) as [->|Hne]; [apply H8; by rewrite Hk|].
    rewrite Eother in Hi by done. by apply H8.
Qed.

(** ** What the inodes say of versions *)

(** A node that an open has fixed knows the snapshot of its version, and what
    that is for as long as there is one; and an open's name is its inode's. *)
Record versions_ok m : Prop := {
  vo_nodes i x v : m_paths (m_inodes m) !! i = Some x → opened x = Some v →
    ∃ a, node_snapshot x = Some a ∧ a < next_address m ∧
      ∀ f, allocated (m_snapshots m) !! a = Some f →
        snapshot_info f = v ∧ generation f = node_generation x ∧ snapshot_path f = node_path x;
  vo_requests r x ino name : m_requests m !! r = Some x → asked x = OpenOf ino name →
    ino ≤ m_next_inode (m_inodes m) ∧ ∀ p, path_of ino (m_inodes m) = Some p → p = name;
  vo_dispatch d ino name : m_dispatch m = Some d → handling d = SpawnsOpen ino name →
    ino ≤ m_next_inode (m_inodes m) ∧ ∀ p, path_of ino (m_inodes m) = Some p → p = name;
}.

(** ** Coroutines *)

(** A coroutine that goes on with what it has. *)
Lemma handles_ok_progress m m' r x p :
  handles_ok m → m_requests m !! r = Some x → m_requests m' = with_request r x p (m_requests m) →
  m_snapshots m' = m_snapshots m → m_open m' = m_open m → kernel m' = kernel m → m_dispatch m' = m_dispatch m →
  next_request m' = next_request m → next_address m' = next_address m →
  (∀ a, holds (takes (m_snapshots m) !! r) a (progress x) = default 0 (holds (takes (m_snapshots m) !! r) a <$> p)) →
  (p ≫= owned_handle) = owned_handle (progress x) →
  (∀ p', p = Some p' → request_ok m r (at_progress p' x)) →
  handles_ok m'.
Proof.
  intros Hok Hx Er Es Eo Ek Ed En Ea Hh Hown Hreq.
  apply (handles_ok_moves m m' r x p Hok Hx Er); rewrite ?Es, ?Eo, ?Ek, ?Hown; try done.
  - apply (ho_sound m Hok).
  - apply (ho_takes m Hok).
  - intros a. rewrite Hh. lia.
  - apply (ho_numbers m Hok).
  - apply (ho_paths m Hok).
  - intros p' Hp. specialize (Hreq p' Hp). apply (request_ok_mono m); [done|by rewrite Es| |].
    + intros a name _. unfold snapshot_at. by rewrite Es.
    + intros fh name _. unfold handle_at. by rewrite Eo.
  - apply (ho_zero m Hok).
Qed.

Lemma begins_take_handles_ok m r x ino name s :
  handles_ok m → requests_ok m → m_requests m !! r = Some x → asked x = OpenOf ino name → progress x = BeginsTake →
  step (TakeBegins r name) (m_snapshots m) = Some s → handles_ok (update r AwaitsTake (set_snapshots s m)).
Proof.
  intros Hok Hreq Hx Ha Hp. simpl. case_decide as Hnone; [|done]. intros [= <-].
  set (k := {| taken := name; since := length (versions (m_snapshots m));
               began := generation_of (m_snapshots m) name;
               at_stage := Numbered (generation_of (m_snapshots m) name) |}).
  apply (handles_ok_moves m _ r x (Some AwaitsTake) Hok Hx); simpl; try done.
  - by rewrite (alter_insert _ _ _ _ Hx).
  - apply begin_sound; [apply (ho_sound m Hok)|done].
  - intros i Hi. by rewrite lookup_insert_ne.
  - intros _. destruct (le_owing _ _ _ _ Hreq r (owes_answer (progress x))) as [Hlt Hne].
    { unfold owing_of. by rewrite lookup_fmap, Hx. }
    split; [done|]. intros d Hd <-. by destruct (Hne (owes_reply (handling d))); unfold serving_of; rewrite Hd.
  - intros a. rewrite lookup_insert_eq, Hp. simpl. unfold taking. simpl. rewrite map_sum_insert by done. simpl.
    change (holders_of (set_takes _ (m_snapshots m)) a) with (holders_of (m_snapshots m) a). lia.
  - apply (ho_numbers m Hok).
  - intros fh Hfh. rewrite Hp. simpl. lia.
  - apply (ho_paths m Hok).
  - intros p' [= <-]. unfold request_ok. simpl. rewrite Ha. exists k. rewrite lookup_insert_eq. done.
  - apply (ho_zero m Hok).
Qed.

Lemma chooses_older_handles_ok m r x ino name current a :
  handles_ok m → m_requests m !! r = Some x → asked x = OpenOf ino name → progress x = Chooses current →
  0 < holders_of (m_snapshots m) a → snapshot_at m a name →
  handles_ok (update r (LetsGoOf current (Some a)) (set_snapshots (hold a (m_snapshots m)) m)).
Proof.
  intros Hok Hx Ha Hp Hpos Hsn. pose proof (ho_requests m Hok r x Hx) as Hreq. unfold request_ok in Hreq.
  rewrite Ha, Hp in Hreq.
  apply (handles_ok_moves m _ r x (Some (LetsGoOf current (Some a))) Hok Hx); simpl; try done.
  - by rewrite (alter_insert _ _ _ _ Hx).
  - by apply hold_sound, Hpos; apply (ho_sound m Hok).
  - apply (ho_takes m Hok).
  - intros b. rewrite Hp. simpl. unfold hold. rewrite holders_of_insert.
    change (taking (set_memory _ _ (m_snapshots m)) b) with (taking (m_snapshots m) b).
    rewrite (count_if_eq (Some a = Some b) (a = b)) by naive_solver.
    destruct (decide (a = b)) as [<-|Hne]; [rewrite (count_if_true (a = a)) by done; lia|].
    rewrite (count_if_false (a = b)) by done. lia.
  - apply (ho_numbers m Hok).
  - intros fh Hfh. rewrite Hp. simpl. lia.
  - apply (ho_paths m Hok).
  - intros p' [= <-]. unfold request_ok. simpl. rewrite Ha. split; [done|]. by intros b [= <-].
  - apply (ho_zero m Hok).
Qed.

Lemma lets_go_handles_ok m r x ino name current v p :
  handles_ok m → m_requests m !! r = Some x → asked x = OpenOf ino name → progress x = LetsGoOf current v →
  p = match v with Some a => Retains a | None => Fails ESTALE end →
  handles_ok (update r p (set_snapshots (let_go current (m_snapshots m)) m)).
Proof.
  intros Hok Hx Ha Hp Ep. pose proof (ho_requests m Hok r x Hx) as Hreq. unfold request_ok in Hreq.
  rewrite Ha, Hp in Hreq. destruct Hreq as [_ Hv].
  pose proof (request_references_le (m_snapshots m) current _ r x Hx) as Hle. rewrite Hp in Hle. simpl in Hle.
  rewrite (count_if_true (current = current)) in Hle by done.
  destruct (let_go_same m current Hok) as [Hs Hl]; [rewrite (ho_counts m Hok); unfold references; lia|].
  apply (handles_ok_moves m _ r x (Some p) Hok Hx); simpl; try done.
  - by rewrite (alter_insert _ _ _ _ Hx).
  - apply (ss_sound _ _ Hs).
  - apply (ho_takes m Hok).
  - intros b. specialize (Hl b). rewrite Hp. simpl.
    change (taking (let_go current (m_snapshots m)) b) with (taking (m_snapshots m) b). subst p. destruct v as [a|]; simpl.
    + rewrite (count_if_eq (Some a = Some b) (a = b)) by naive_solver. lia.
    + rewrite (count_if_false (None = Some b)) by done. lia.
  - apply (ho_numbers m Hok).
  - intros fh Hfh. rewrite Hp. subst p. destruct v; simpl; lia.
  - apply (ho_paths m Hok).
  - intros p' [= <-]. unfold request_ok. simpl. rewrite Ha. subst p. destruct v as [a|]; [|done]. by apply Hv.
  - apply (ho_zero m Hok).
Qed.

Lemma retains_handles_ok m r x ino name version g fh hs :
  handles_ok m → m_requests m !! r = Some x → asked x = OpenOf ino name → progress x = Retains version →
  retain {| handle_path := name; handle_names := []; handle_snapshot := Some version |} (m_open m) = (fh, hs) →
  handles_ok (update r (AsksAnnounced fh g) (set_open hs m)).
Proof.
  intros Hok Hx Ha Hp Hret. pose proof (ho_requests m Hok r x Hx) as Hreq. unfold request_ok in Hreq.
  rewrite Ha, Hp in Hreq. destruct (retain_spec m _ fh hs Hok Hret) as (Hfree & Hfh & Ehs & Elast & Hnum & Hsum).
  apply (handles_ok_moves m _ r x (Some (AsksAnnounced fh g)) Hok Hx); simpl; rewrite ?Elast; try done.
  - by rewrite (alter_insert _ _ _ _ Hx).
  - apply (ho_sound m Hok).
  - apply (ho_takes m Hok).
  - intros a. rewrite Hp, Hsum. simpl. unfold handle_holds. simpl.
    rewrite (count_if_eq (Some version = Some a) (version = a)) by naive_solver. lia.
  - intros i Hi. rewrite Ehs, is_Some_insert, Hp. simpl. rewrite (count_if_false (None = Some i)) by done.
    rewrite (count_if_eq (Some fh = Some i) (fh = i)) by naive_solver. destruct (decide (fh = i)) as [<-|Hne].
    + rewrite (count_if_true (fh = fh)) by done. rewrite (count_if_false (is_Some _)); [lia|].
      rewrite Hfree. by intros [? ?].
    + rewrite (count_if_false (fh = i)) by done. lia.
  - intros i h Hi _. rewrite Ehs, lookup_insert_ne; [done|]. intros <-. congruence.
  - intros i h a. rewrite Ehs. intros [[<- <-]|[_ Hi]]%lookup_insert_Some; [by intros [= <-]|by apply (ho_paths m Hok i)].
  - intros p' [= <-]. unfold request_ok. simpl. rewrite Ha. eexists. simpl. rewrite Ehs, lookup_insert_eq. done.
  - apply (ho_zero m Hok).
Qed.

Lemma request_handle m r x ino name fh :
  handles_ok m → m_requests m !! r = Some x → asked x = OpenOf ino name → owned_handle (progress x) = Some fh →
  1 ≤ fh ∧ is_Some (m_handles (m_open m) !! fh) ∧ count_if (fh ∈ kernel_handles (kernel m)) = 0.
Proof.
  intros Hok Hx Ha Hp. pose proof (ho_requests m Hok r x Hx) as Hreq. unfold request_ok in Hreq. rewrite Ha in Hreq.
  assert (handle_at m fh name) as (h & Hh & _) by (destruct (progress x); simpl in Hp; by simplify_eq).
  assert (is_Some (m_handles (m_open m) !! fh)) as Hsome by by eexists.
  pose proof (ho_numbers m Hok fh Hsome) as [Hfh _]. split_and!; [done|done|].
  pose proof (ho_owners m Hok fh Hfh) as Ho. rewrite (count_if_true _ Hsome) in Ho. unfold owners, request_owners in Ho.
  pose proof (map_sumi_le_member (λ _ x, count_if (owned_handle (progress x) = Some fh)) _ r x Hx) as Hle.
  cbv beta in Hle. rewrite (count_if_true (owned_handle (progress x) = _)) in Hle by done. lia.
Qed.

Lemma replies_open_handles_ok m m' r x ino name fh :
  handles_ok m → m_requests m !! r = Some x → asked x = OpenOf ino name → progress x = RepliesOpen fh →
  m_requests m' = delete r (m_requests m) → m_snapshots m' = m_snapshots m → m_open m' = m_open m →
  kernel m' = kernel_opens fh (kernel m) → m_dispatch m' = m_dispatch m →
  next_request m' = next_request m → next_address m' = next_address m → handles_ok m'.
Proof.
  intros Hok Hx Ha Hp Er Es Eo Ek Ed En Ea.
  destruct (request_handle m r x ino name fh Hok Hx Ha) as (Hfh & Hsome & Hnot); [by rewrite Hp|].
  apply (handles_ok_moves m m' r x None Hok Hx Er); rewrite ?Es, ?Eo, ?Ek; try done.
  - apply (ho_sound m Hok).
  - apply (ho_takes m Hok).
  - intros a. rewrite Hp. simpl. lia.
  - apply (ho_numbers m Hok).
  - intros i Hi. rewrite kernel_owns, Hp by done. simpl.
    rewrite (count_if_eq (Some fh = Some i) (fh = i)) by naive_solver. rewrite (count_if_false (None = Some i)) by done. lia.
  - apply (ho_paths m Hok).
  - simpl. set_solver.
  - simpl. pose proof (ho_zero m Hok). intros [E|?]%elem_of_union; [|done]. apply elem_of_singleton in E. lia.
Qed.

Lemma drops_open_handles_ok m m' r x ino name fh :
  handles_ok m → m_requests m !! r = Some x → asked x = OpenOf ino name → progress x = Drops fh →
  m_requests m' = delete r (m_requests m) → m_snapshots m' = m_snapshots (drop fh m) → m_open m' = drop_handle fh (m_open m) →
  kernel m' = kernel m → m_dispatch m' = m_dispatch m →
  next_request m' = next_request m → next_address m' = next_address m → handles_ok m'.
Proof.
  intros Hok Hx Ha Hp Er Es Eo Ek Ed En Ea. destruct (drop_spec m fh Hok) as [[Hs Eal Et] Hc]. rewrite drop_m_open in Hc.
  destruct (request_handle m r x ino name fh Hok Hx Ha) as (Hfh & Hsome & Hnot); [by rewrite Hp|].
  apply (handles_ok_moves m m' r x None Hok Hx Er); rewrite ?Es, ?Eo, ?Ek, ?Et; try done.
  - apply (ho_takes m Hok).
  - intros a. specialize (Hc a). rewrite Hp. simpl in *.
    assert (taking (m_snapshots (drop fh m)) a = taking (m_snapshots m) a) as -> by (unfold taking; by rewrite Et). lia.
  - simpl. intros i. destruct (decide (fh = i)) as [<-|]; [rewrite lookup_delete_eq; by intros [? ?]|].
    rewrite lookup_delete_ne by done. apply (ho_numbers m Hok).
  - intros i Hi. simpl. rewrite is_Some_delete, Hp. simpl.
    rewrite (count_if_eq (Some fh = Some i) (fh = i)) by naive_solver. rewrite (count_if_false (None = Some i)) by done.
    destruct (decide (fh = i)) as [<-|Hne].
    + rewrite (count_if_true (fh = fh)), (count_if_true _ Hsome) by done. lia.
    + rewrite (count_if_false (fh = i)) by done. lia.
  - intros i h Hi. rewrite Hp. simpl. intros Hne. rewrite lookup_delete_ne; [done|congruence].
  - simpl. intros i h a [_ Hi]%lookup_delete_Some. by apply (ho_paths m Hok i).
  - apply (ho_zero m Hok).
Qed.
End handles.
