(* ===== verification/MountSteps.v ===== *)
(** * Every step keeps what is open

    The invariants of handles, snapshots and the versions of inodes, together,
    for every step of the mount. *)

From S2P Require Export MountHandles.

Section steps.
Context {T : Type} `{DirectoryTree T} (ok : T → Prop) `{!LawfulTree T ok}.
Variable direntry_size : str → nat.
Implicit Types m : Mount T.

Notation handles_ok := (handles_ok ok).

(** ** What [version_for] serves *)

Lemma version_for_cases ino current (s s' : FileSnapshots T) i i' v :
  version_for ino current s i = Some (v, s', i') →
  ∃ f, allocated s !! current = Some f ∧
  match v with
  | Current => s' = s ∧
      (i' = i ∧ m_paths i !! ino = None ∨
       ∃ x, m_paths i !! ino = Some x ∧
         (opened x = None ∧ i' = set_paths (<[ino := fix_version (snapshot_info f) (generation f) current x]> (m_paths i)) i ∨
          opened x = Some (snapshot_info f) ∧ node_generation x = generation f ∧ locked s (node_snapshot x) = None ∧
          i' = set_paths (<[ino := set_node_snapshot current x]> (m_paths i)) i))
  | Older a => s' = hold a s ∧ i' = i ∧ ∃ x v, m_paths i !! ino = Some x ∧ opened x = Some v ∧
      node_snapshot x = Some a ∧ 0 < holders_of s a
  | Gone => s' = s ∧ i' = i ∧ ∃ x v, m_paths i !! ino = Some x ∧ opened x = Some v ∧
      locked s (node_snapshot x) = None ∧ ¬ (node_generation x = generation f ∧ v = snapshot_info f)
  end.
Proof.
  unfold version_for, mbind, option_bind. intros E.
  destruct (allocated s !! current) as [f|]; [|done]. exists f. split; [done|].
  destruct (m_paths i !! ino) as [x|] eqn:Hx; [|injection E as <- <- <-; split; [done|by left]].
  destruct (opened x) as [w|] eqn:Hw; [|injection E as <- <- <-; split; [done|]; right; exists x; eauto].
  destruct (locked s (node_snapshot x)) as [a|] eqn:Ha.
  - injection E as <- <- <-. split_and!; [done|done|]. exists x, w. unfold locked in Ha.
    destruct (node_snapshot x) as [b|]; [|done]. simpl in Ha. case_decide; [done|]. injection Ha as ->.
    split_and!; [done..|lia].
  - destruct (_ && _) eqn:Es; injection E as <- <- <-.
    + bool_to_prop. apply same_true in H1. subst w. split; [done|]. right. exists x. eauto 10.
    + split_and!; [done..|]. exists x, w. split_and!; [done..|]. intros [Hg ->].
      rewrite bool_decide_true in Es by done. simpl in Es. by rewrite (proj2 (same_true _ _)) in Es.
Qed.

(** ** Coroutines *)

Ltac progresses Hok Hx q :=
  eapply (handles_ok_progress _ _ _ _ _ q Hok Hx); simpl;
  [by rewrite ?(alter_insert _ _ _ _ Hx)|done|done|done|done|done|done| | |].

Lemma go_on_handles_ok accepted spawned r m m' :
  handles_ok m → requests_ok m → versions_ok m → go_on accepted spawned r m = Some m' → handles_ok m'.
Proof.
  intros Hok Hreq Hv Hstep. unfold go_on, mbind, option_bind in Hstep.
  destruct (m_requests m !! r) as [x|] eqn:Hx; [|done].
  pose proof (ho_requests _ m Hok r x Hx) as Hmine. unfold request_ok in Hmine.
  destruct (asked x) as [ino name|name size offset] eqn:Ha.
  - destruct (progress x) as [| | |current|current version|version|fh g|fh|fh|fh|content|e] eqn:Hp; try discriminate Hstep.
    + destruct (step _ _) as [s|] eqn:E; [|done]. injection Hstep as <-. by eapply (begins_take_handles_ok ok m r x ino name).
    + destruct Hmine as (k & Hk & Hn & Hsn). rewrite Hk in Hstep.
      destruct (at_stage k) as [| | | | |[a|e]] eqn:Est; try discriminate Hstep; injection Hstep as <-.
      * progresses Hok Hx (Some (Chooses a)).
        -- intros b. rewrite Hp, Hk. simpl. rewrite Est. simpl. unfold count_if. repeat case_decide; subst; done.
        -- by rewrite Hp.
        -- intros p' [= <-]. unfold request_ok. simpl. rewrite Ha. by apply Hsn.
      * progresses Hok Hx (Some (Fails (to_errno e))).
        -- intros b. rewrite Hp, Hk. simpl. by rewrite Est.
        -- by rewrite Hp.
        -- intros p' [= <-]. unfold request_ok. simpl. by rewrite Ha.
    + destruct (version_for _ _ _ _) as [[[v s] i]|] eqn:E; [|done]. injection Hstep as <-.
      apply version_for_cases in E as (f & Hf & Hcase). destruct v as [|a|].
      * destruct Hcase as [-> _]. progresses Hok Hx (Some (Retains current)); rewrite ?Hp; try done.
        intros p' [= <-]. unfold request_ok. simpl. by rewrite Ha.
      * destruct Hcase as (-> & -> & y & w & Hy & Hw & Hay & Hpos).
        eapply (off_quiet_handles_ok ok (update r (LetsGoOf current (Some a)) (set_snapshots (hold a (m_snapshots m)) m)));
          [|apply same_requests_refl|done..].
        eapply (chooses_older_handles_ok ok m r x ino name); try done.
        destruct (vo_nodes m Hv ino y w Hy Hw) as (b & Hb & _ & Hfb). rewrite Hay in Hb. injection Hb as <-.
        destruct (so_holders ok _ (ho_sound ok m Hok) a Hpos) as [g Hg]. exists g. split; [done|].
        destruct (Hfb g Hg) as (_ & _ & ->). apply (vo_requests m Hv r x ino name Hx Ha).
        unfold path_of. by rewrite Hy.
      * destruct Hcase as (-> & -> & _). progresses Hok Hx (Some (LetsGoOf current None)); rewrite ?Hp; try done.
        intros p' [= <-]. unfold request_ok. simpl. by rewrite Ha.
    + injection Hstep as <-. by eapply (lets_go_handles_ok ok m r x ino name current version).
    + destruct (allocated _ !! version) as [f|]; [|done].
      destruct (retain _ _) as [fh hs] eqn:Hret. injection Hstep as <-. by eapply (retains_handles_ok ok m r x ino name version).
    + destruct (reply_when_announced _ _ _ _ _) as [now [started n]]. injection Hstep as <-.
      eapply (handles_ok_progress ok m _ r x (Some (if now then RepliesOpen fh else IsHeld fh)) Hok Hx);
        try (by unfold start_pass; destruct started).
      * unfold start_pass. destruct started; simpl; by rewrite (alter_insert _ _ _ _ Hx).
      * intros a. rewrite Hp. by destruct now.
      * rewrite Hp. by destruct now.
      * intros p' [= <-]. unfold request_ok. simpl. rewrite Ha. by destruct now.
    + destruct accepted; injection Hstep as <-.
      * by eapply (replies_open_handles_ok ok m _ r x ino name fh).
      * progresses Hok Hx (Some (Drops fh)); rewrite ?Hp; try done.
        intros p' [= <-]. unfold request_ok. simpl. by rewrite Ha.
    + injection Hstep as <-. eapply (drops_open_handles_ok ok m _ r x ino name fh); try done; simpl; autorewrite with mount; done.
    + injection Hstep as <-. progresses Hok Hx (@None Progress); by rewrite ?Hp.
  - destruct (progress x) eqn:Hp; try discriminate Hstep; injection Hstep as <-;
      progresses Hok Hx (@None Progress); by rewrite ?Hp.
Qed.

(** ** Every event *)

(** The trees a run goes through keep their laws. *)
Definition lawful (e : mount_event T) : Prop := match e with TreeBecomes t => ok t | _ => True end.

Ltac off_quiet Hok :=
  apply (off_quiet_handles_ok ok _ _ Hok); simpl;
  [first [apply same_requests_refl|apply same_requests_release|apply same_requests_cancel]|done..].

Lemma awaiting_handles_ok e m m' :
  match e with OpenEnds _ _ | ReadEnds _ _ | TakeEndsBadly _ _ => True | _ => False end →
  handles_ok m → mount_step direntry_size e m = Some m' → handles_ok m'.
Proof.
  intros He Hok Hstep. destruct e; try done; leaves Hstep;
    match goal with Hx : m_requests ?m !! ?r = Some ?x |- _ =>
      pose proof (ho_requests ok _ Hok r x Hx) as Hmine; unfold request_ok in Hmine;
      match goal with Hp : progress x = _ |- _ =>
        rewrite Hp in Hmine;
        match goal with |- handles_ok (update _ ?p _) =>
          progresses Hok Hx (Some p); rewrite ?Hp; try done
        end
      end
    end.
  all: try (intros p' [= <-]; unfold request_ok; simpl; destruct (asked _); done).
  all: match goal with Hk : takes _ !! _ = Some ?k, Hs : at_stage ?k = _ |- _ =>
    intros a; rewrite Hk; simpl; by rewrite Hs end.
Qed.

Lemma notifies_handles_ok d started n m :
  handles_ok m → handles_ok (start_pass started (set_notifier n (set_snapshots (changed d (m_snapshots m)) m))).
Proof.
  intros Hok. apply (snapshots_handles_ok ok m); unfold start_pass; try (by destruct started).
  - destruct started; by apply changed_same_snapshots.
  - intros a. destruct started; simpl; apply (changed_holders ok), (ho_sound ok m Hok).
  - destruct started; apply same_requests_refl.
Qed.

Lemma pass_handles_ok e m m' :
  match e with PassGoesOn _ _ | PassFails | Destroys => True | _ => False end →
  handles_ok m → mount_step direntry_size e m = Some m' → handles_ok m'.
Proof. intros He Hok Hstep. destruct e; try done; leaves Hstep; off_quiet Hok. Qed.

Lemma step_handles_ok e m m' :
  lawful e → handles_ok m → requests_ok m → versions_ok m → mount_step direntry_size e m = Some m' → handles_ok m'.
Proof.
  intros He Hok Hreq Hv Hstep. destruct e.
  - injection Hstep as <-. by apply tree_handles_ok.
  - simpl in Hstep. case_decide; [|done]. destruct (on_tree_changed _ _ _) as [started n]. injection Hstep as <-.
    by apply notifies_handles_ok.
  - simpl in Hstep. case_decide as Hd; [|done]. injection Hstep as <-.
    apply (dies_handles_ok ok a); [done|]. simpl. by rewrite decide_True.
  - by eapply asks_handles_ok.
  - by eapply serve_handles_ok.
  - by apply (awaiting_handles_ok (OpenEnds r o) m).
  - by apply (awaiting_handles_ok (ReadEnds r o) m).
  - simpl in Hstep. unfold take_goes_on, mbind, option_bind in Hstep.
    destruct (m_requests m !! r) as [x|] eqn:Hx; [|done]. destruct (progress x) eqn:Hp; try done.
    destruct (take_step _ _ _) as [s|] eqn:Hs; [|done]. injection Hstep as <-. by eapply take_handles_ok.
  - by apply (awaiting_handles_ok (TakeEndsBadly r throws) m).
  - by eapply go_on_handles_ok.
  - simpl in Hstep. unfold mbind, option_bind in Hstep. destruct (m_requests m !! r) as [x|] eqn:Hx; [|done].
    destruct (progress x); try done; injection Hstep as <-;
      (apply (off_quiet_handles_ok ok m); [done|by apply same_requests_interrupt|done..]).
  - by apply (pass_handles_ok (PassGoesOn tid pick) m).
  - by apply (pass_handles_ok PassFails m).
  - by apply (pass_handles_ok Destroys m).
Qed.

(** ** Versions *)

Lemma versions_ok_mono m m' :
  versions_ok m → well_numbered (m_inodes m) →
  (∀ i x', m_paths (m_inodes m') !! i = Some x' → opened x' ≠ None →
     ∃ x, m_paths (m_inodes m) !! i = Some x ∧ node_path x' = node_path x ∧ opened x' = opened x ∧
          node_generation x' = node_generation x ∧ node_snapshot x' = node_snapshot x) →
  m_next_inode (m_inodes m) ≤ m_next_inode (m_inodes m') →
  (∀ i p, path_of i (m_inodes m') = Some p → path_of i (m_inodes m) = Some p ∨ m_next_inode (m_inodes m) < i) →
  next_address m ≤ next_address m' →
  (∀ a f, allocated (m_snapshots m') !! a = Some f → allocated (m_snapshots m) !! a = Some f ∨ next_address m ≤ a) →
  (∀ r x', m_requests m' !! r = Some x' →
     (∃ x, m_requests m !! r = Some x ∧ asked x' = asked x) ∨
     (∃ d, m_dispatch m = Some d ∧ ∀ ino name, asked x' = OpenOf ino name → handling d = SpawnsOpen ino name)) →
  (∀ d ino name, m_dispatch m' = Some d → handling d = SpawnsOpen ino name →
     m_dispatch m = Some d ∨ path_of ino (m_inodes m) = Some name) →
  versions_ok m'.
Proof.
  intros [Hn Hr Hd] Hw Hnodes Hnext Hpath Haddr Hall Hreq Hdis.
  assert (∀ ino name, (ino ≤ m_next_inode (m_inodes m) ∧ ∀ p, path_of ino (m_inodes m) = Some p → p = name) →
    ino ≤ m_next_inode (m_inodes m') ∧ ∀ p, path_of ino (m_inodes m') = Some p → p = name) as Hkeep.
  { intros ino name [Hle Hp]. split; [lia|]. intros p Hp'. destruct (Hpath _ _ Hp') as [?|?]; [by apply Hp|lia]. }
  constructor.
  - intros i x' v Hx' Hv. destruct (Hnodes i x' Hx') as (x & Hx & Ep & Eo & Eg & Es); [by rewrite Hv|].
    destruct (Hn i x v Hx) as (a & Ha & Hlt & Hf); [congruence|]. exists a. rewrite Es, Eg, Ep.
    split_and!; [done|lia|]. intros f Hf'. destruct (Hall a f Hf') as [?|?]; [by apply Hf|lia].
  - intros r x' ino name Hx' Ha. apply Hkeep. destruct (Hreq r x' Hx') as [(x & Hx & E)|(d & Hd' & E)].
    + apply (Hr r x); [done|congruence].
    + apply (Hd d); [done|by apply E].
  - intros d ino name Hd' Hh. apply Hkeep. destruct (Hdis d ino name Hd' Hh) as [?|Hp]; [by apply (Hd d)|].
    split; [apply (wn_bound _ Hw)|intros p ?; congruence]. unfold path_of in Hp.
    apply fmap_Some in Hp as (x & -> & _). by eexists.
Qed.

(** Requests keep what they asked for. *)
Lemma asked_release l (rs : gmap nat Request) r x' :
  foldl (λ rs h, alter let_reply (held_request h) rs) rs l !! r = Some x' → ∃ x, rs !! r = Some x ∧ asked x' = asked x.
Proof.
  revert rs. induction l as [|h l IH]; intros rs; simpl; [intros ?; by eexists|].
  intros (x & Hx & E)%IH. destruct (decide (held_request h = r)) as [<-|Hne].
  - rewrite lookup_alter_eq in Hx. destruct (rs !! held_request h) as [y|]; [|done]. injection Hx as <-.
    exists y. split; [done|]. rewrite E. unfold let_reply. by destruct (progress y).
  - rewrite lookup_alter_ne in Hx by done. by exists x.
Qed.

Lemma asked_alter p r (rs : gmap nat Request) i x' :
  alter (at_progress p) r rs !! i = Some x' → ∃ x, rs !! i = Some x ∧ asked x' = asked x.
Proof.
  destruct (decide (r = i)) as [<-|Hne]; [rewrite lookup_alter_eq|rewrite lookup_alter_ne by done; intros ?; by eexists].
  destruct (rs !! r) as [y|]; [|done]. intros [= <-]. by exists y.
Qed.

Lemma asked_delete r (rs : gmap nat Request) i x' : delete r rs !! i = Some x' → ∃ x : Request, rs !! i = Some x ∧ asked x' = asked x.
Proof. intros [_ ?]%lookup_delete_Some. by exists x'. Qed.

Lemma asked_cancel cause (rs : gmap nat Request) i x' : (cancel_request cause <$> rs) !! i = Some x' → ∃ x, rs !! i = Some x ∧ asked x' = asked x.
Proof. rewrite lookup_fmap. destruct (rs !! i) as [y|]; [|done]. intros [= <-]. by exists y. Qed.

(** Steps that leave the tables and the snapshots alone. *)
Lemma versions_ok_quiet m m' :
  versions_ok m → well_numbered (m_inodes m) → m_inodes m' = m_inodes m →
  allocated (m_snapshots m') = allocated (m_snapshots m) → next_address m' = next_address m →
  (∀ r x', m_requests m' !! r = Some x' →
     (∃ x, m_requests m !! r = Some x ∧ asked x' = asked x) ∨
     (∃ d, m_dispatch m = Some d ∧ ∀ ino name, asked x' = OpenOf ino name → handling d = SpawnsOpen ino name)) →
  (∀ d ino name, m_dispatch m' = Some d → handling d = SpawnsOpen ino name →
     m_dispatch m = Some d ∨ path_of ino (m_inodes m) = Some name) →
  versions_ok m'.
Proof.
  intros Hv Hw Ei Ea En Hr Hd. apply (versions_ok_mono m m' Hv Hw); rewrite ?Ei, ?Ea, ?En; try done.
  - intros i x' Hx' _. by exists x'.
  - intros i p ?. by left.
  - intros a f ?. by left.
Qed.

Lemma drop_allocated fh m : allocated (m_snapshots (drop fh m)) = allocated (m_snapshots m).
Proof. unfold drop. by destruct (snapshot_of fh (m_open m)). Qed.

Lemma off_dispatch_requests e m m' r x' :
  off_dispatch e → mount_step direntry_size e m = Some m' → m_requests m' !! r = Some x' →
  ∃ x, m_requests m !! r = Some x ∧ asked x' = asked x.
Proof.
  intros He Hstep. destruct e; try done; leaves Hstep; simpl; rewrite ?drop_m_requests; try (by intros ?; eexists);
    first [apply asked_alter|apply asked_delete|apply asked_release|apply asked_cancel|idtac].
  all: intros [[<- <-]|[_ ?]]%lookup_insert_Some; by eexists.
Qed.

Lemma take_step_back k fresh (s s' : FileSnapshots T) a f :
  take_step k fresh s = Some s' → allocated s' !! a = Some f → allocated s !! a = Some f ∨ fresh ≤ a.
Proof.
  unfold take_step, mbind, option_bind. intros Hstep.
  repeat break_match_hyp Hstep; try discriminate Hstep; injection Hstep as <-; simpl; try (by left).
  intros [[<- _]|[_ ?]]%lookup_insert_Some; [by right|by left].
Qed.

(** Steps of anyone but the dispatcher, but for an open choosing its version. *)
Lemma off_dispatch_tables e m m' :
  off_dispatch e → handles_ok m → mount_step direntry_size e m = Some m' →
  (∀ r x c accepted spawned, e = GoesOn r accepted spawned → m_requests m !! r = Some x → progress x ≠ Chooses c) →
  m_inodes m' = m_inodes m ∧ next_address m ≤ next_address m' ∧
  ∀ a f, allocated (m_snapshots m') !! a = Some f → allocated (m_snapshots m) !! a = Some f ∨ next_address m ≤ a.
Proof.
  intros He Hok Hstep Hnot. destruct e; try done.
  6: { simpl in Hstep. unfold take_goes_on, mbind, option_bind in Hstep. repeat break_match_hyp Hstep; try discriminate Hstep.
       injection Hstep as <-. simpl. split_and!; [done|lia|]. intros b g. by apply (take_step_back r). }
  2: { simpl in Hstep. case_decide; [|done]. destruct (on_tree_changed _ _ _) as [started n]. injection Hstep as <-.
       pose proof (ss_allocated _ _ _ (changed_same_snapshots ok d m Hok)) as E. unfold start_pass.
       destruct started; simpl; rewrite E; split_and!; try done; intros; by left. }
  2: { simpl in Hstep. case_decide as Hd; [|done]. injection Hstep as <-. simpl. split_and!; [done..|].
       intros b f. unfold FileSnapshots.forget. destruct (allocated _ !! a); [|by left]. simpl.
       intros [_ ?]%lookup_delete_Some. by left. }
  all: leaves Hstep; simpl; rewrite ?drop_m_inodes, ?drop_allocated, ?drop_next_address;
    try (split_and!; [done|done|intros; by left]).
  - simpl in Heqo0. case_decide; [|done]. injection Heqo0 as <-. split_and!; [done|done|intros; by left].
  - by destruct (Hnot r r0 current accepted spawned).
  - by destruct (Hnot r r0 current accepted spawned).
  - by destruct (Hnot r r0 current accepted spawned).
Qed.

(** An open choosing its version fixes its inode's, or finds it fixed. *)
Lemma chooses_versions_ok m r x ino name current v s i p :
  handles_ok m → inodes_ok m → versions_ok m → m_requests m !! r = Some x → asked x = OpenOf ino name →
  progress x = Chooses current → version_for ino current (m_snapshots m) (m_inodes m) = Some (v, s, i) →
  versions_ok (update r p (set_snapshots s (set_inodes i m))).
Proof.
  intros Hok Hio Hv Hx Ha Hp E. pose proof (io_numbered m Hio) as Hw.
  pose proof (ho_requests ok m Hok r x Hx) as Hmine. unfold request_ok in Hmine. rewrite Ha, Hp in Hmine.
  destruct Hmine as (f & Hf & Hfn). destruct (vo_requests m Hv r x ino name Hx Ha) as [_ Hname].
  assert (∀ s', allocated s' = allocated (m_snapshots m) →
    versions_ok (update r p (set_snapshots s' (set_inodes (m_inodes m) m)))) as Hsame.
  { intros s' Es. apply (versions_ok_quiet m); try done; simpl.
    - intros j y Hy. left. by apply asked_alter in Hy.
    - intros d j n Hd _. by left. }
  apply version_for_cases in E as (g & Hg & Hcase). rewrite Hf in Hg. injection Hg as <-.
  destruct v as [|a|]; [|destruct Hcase as (-> & -> & _); by apply Hsame..].
  destruct Hcase as [-> [[-> _]|(y & Hy & Hcase)]]; [by apply Hsame|].
  assert (∃ z, i = set_paths (<[ino := z]> (m_paths (m_inodes m))) (m_inodes m) ∧ node_path z = node_path y ∧ lookups z = lookups y ∧
    opened z = Some (snapshot_info f) ∧ node_generation z = generation f ∧ node_snapshot z = Some current) as (z & -> & Ep & El & Eo & Eg & Es).
  { destruct Hcase as [[_ ->]|(E1 & E2 & _ & ->)]; eexists; split_and!; try done. }
  assert (same_nodes (m_inodes m) (set_paths (<[ino := z]> (m_paths (m_inodes m))) (m_inodes m))) as Hsn
    by by apply (same_nodes_insert _ y).
  destruct Hv as [Hn Hr Hd]. constructor; simpl.
  - intros j w v [[<- <-]|[_ Hw']]%lookup_insert_Some; [|by apply (Hn j w)]. rewrite Eo. intros [= <-]. exists current.
    split_and!; [done|apply (ho_fresh ok m Hok); by eexists|]. intros h Hh. rewrite Hf in Hh. injection Hh as <-.
    split_and!; [done|done|]. rewrite Hfn, Ep. symmetry. apply Hname. unfold path_of. by rewrite Hy.
  - intros j w k n Hj Hk. apply asked_alter in Hj as (w' & Hw' & Ew).
    destruct (Hr j w' k n Hw') as [Hle Hpk]; [congruence|]. split; [done|]. intros q.
    rewrite (sn_paths _ _ Hsn k). apply Hpk.
  - intros d k n Hd' Hh. destruct (Hd d k n Hd' Hh) as [Hle Hpk]. split; [done|]. intros q.
    rewrite (sn_paths _ _ Hsn k). apply Hpk.
Qed.

Lemma off_dispatch_versions_ok e m m' :
  off_dispatch e → handles_ok m → inodes_ok m → versions_ok m → mount_step direntry_size e m = Some m' → versions_ok m'.
Proof.
  intros He Hok Hio Hv Hstep. destruct (off_dispatch_keeps direntry_size e m m' He Hstep) as (Hd & _).
  assert ((∃ r accepted spawned x c, e = GoesOn r accepted spawned ∧ m_requests m !! r = Some x ∧ progress x = Chooses c) ∨
    (∀ r x c accepted spawned, e = GoesOn r accepted spawned → m_requests m !! r = Some x → progress x ≠ Chooses c))
    as [(r & accepted & spawned & x & c & -> & Hx & Hp)|Hnot].
  { destruct e as [| | | | | | | | |r accepted spawned| | | |]; try (right; intros ? ? ? ? ? [=]; fail).
    destruct (m_requests m !! r) as [x|] eqn:Hx; [|right; intros ? ? ? ? ? [= <- _ _] ?; congruence].
    destruct (progress x) as [| | |c| | | | | | | |] eqn:Hp;
      try (right; intros ? ? ? ? ? [= <- _ _] ?; simplify_eq; congruence).
    left. by exists r, accepted, spawned, x, c. }
  - pose proof (ho_requests ok m Hok r x Hx) as Hmine. unfold request_ok in Hmine. rewrite Hp in Hmine.
    destruct (asked x) as [ino name|] eqn:Ha; [|done].
    simpl in Hstep. unfold go_on, mbind, option_bind in Hstep. rewrite Hx, Ha, Hp in Hstep.
    destruct (version_for _ _ _ _) as [[[v s] i]|] eqn:E; [|done]. injection Hstep as <-.
    by apply (chooses_versions_ok m r x ino name c v s i).
  - destruct (off_dispatch_tables e m m' He Hok Hstep Hnot) as (Ei & En & Ea).
    apply (versions_ok_mono m m' Hv (io_numbered m Hio)); rewrite ?Ei, ?Hd; try done.
    + intros i x' Hx' _. by exists x'.
    + intros i p ?. by left.
    + intros r x' Hx'. left. by eapply off_dispatch_requests.
    + intros d ino name Hd' _. by left.
Qed.

(** What an operation on the tables can do to nodes that an open has fixed: let
    go of them. *)
Record versions_stay (s s' : Inodes) : Prop := {
  vs_nodes i x' : m_paths s' !! i = Some x' → opened x' ≠ None →
    ∃ x, m_paths s !! i = Some x ∧ node_path x' = node_path x ∧ opened x' = opened x ∧
         node_generation x' = node_generation x ∧ node_snapshot x' = node_snapshot x;
  vs_next : m_next_inode s ≤ m_next_inode s';
  vs_paths i p : path_of i s' = Some p → path_of i s = Some p ∨ m_next_inode s < i;
}.

Lemma versions_stay_refl s : versions_stay s s.
Proof. constructor; [intros i x' Hx _; by exists x'|done|by left]. Qed.

Lemma versions_stay_lookups i x n s :
  m_paths s !! i = Some x → versions_stay s (set_paths (<[i := set_lookups n x]> (m_paths s)) s).
Proof.
  intros Hx. constructor; [|done|]; simpl.
  - intros j y [[<- <-]|[_ Hy]]%lookup_insert_Some _; [by exists x|by exists y].
  - intros j p. unfold path_of. simpl. intros (y & [[<- <-]|[_ Hy]]%lookup_insert_Some & E)%fmap_Some; left.
    + by rewrite Hx, E.
    + by rewrite Hy, E.
Qed.

Lemma inode_versions_stay name file g s ino s' :
  well_numbered s → inode name file g s = Some (ino, s') → versions_stay s s'.
Proof.
  intros Hw. unfold inode, mbind, option_bind. intros E.
  assert (add_inode name s = (ino, s') → versions_stay s s') as Hadd.
  { unfold add_inode. intros [= <- <-].
    assert (m_paths s !! S (m_next_inode s) = None) as Hfree.
    { apply eq_None_not_Some. intros Hsome. apply (wn_bound _ Hw) in Hsome. lia. }
    constructor; simpl; unfold emplace, path_of; simpl; unfold emplace; rewrite ?Hfree; [|lia|].
    - intros i y [[<- <-]|[_ Hy]]%lookup_insert_Some Ho; [done|by exists y].
    - intros i p (y & [[<- <-]|[_ Hy]]%lookup_insert_Some & E')%fmap_Some; [right; lia|left; by rewrite Hy, E']. }
  destruct (m_ids s !! name) as [id|]; [|by apply Hadd, (inj Some)].
  destruct (m_paths s !! id) as [x|] eqn:Hx; [|done].
  destruct (still x file g); [|by apply Hadd, (inj Some)]. injection E as <- <-. by apply versions_stay_lookups.
Qed.

Lemma forget_versions_stay ino count s : versions_stay s (forget_inode ino count s).
Proof.
  unfold forget_inode. destruct (m_paths s !! ino) as [x|] eqn:Hx; [|apply versions_stay_refl].
  case_decide; [apply versions_stay_refl|]. case_decide; [|by apply versions_stay_lookups].
  constructor; simpl; [|done|].
  - intros i y [_ Hy]%lookup_delete_Some _. by exists y.
  - intros i p. unfold path_of. simpl. intros (y & [_ Hy]%lookup_delete_Some & E)%fmap_Some. left. by rewrite Hy, E.
Qed.

Lemma serve_versions_ok accepted spawned m m' :
  inodes_ok m → versions_ok m → serve direntry_size accepted spawned m = Some m' → versions_ok m'.
Proof.
  intros Hio Hv Hstep. pose proof (io_numbered m Hio) as Hw.
  assert (versions_stay (m_inodes m) (m_inodes m') ∧ next_address m' = next_address m ∧
    allocated (m_snapshots m') = allocated (m_snapshots m) ∧
    (∀ r x', m_requests m' !! r = Some x' → (∃ x, m_requests m !! r = Some x ∧ asked x' = asked x) ∨
      (∃ d, m_dispatch m = Some d ∧ ∀ ino name, asked x' = OpenOf ino name → handling d = SpawnsOpen ino name)) ∧
    (∀ d ino name, m_dispatch m' = Some d → handling d = SpawnsOpen ino name →
       m_dispatch m = Some d ∨ path_of ino (m_inodes m) = Some name)) as ([Hn Hx Hp] & Ea & Es & Hr & Hd).
  2: { apply (versions_ok_mono m m' Hv Hw); rewrite ?Ea, ?Es; try done. intros a f ?. by left. }
  serve_leaves Hstep; simpl; rewrite ?drop_m_inodes, ?drop_next_address, ?drop_allocated, ?drop_m_requests.
  all: (split; [first [apply versions_stay_refl|apply forget_versions_stay|by eapply inode_versions_stay]|]).
  all: (split; [done|split; [done|]]).
  all: (split; [try (intros r x' Hx'; left; by exists x')|]).
  all: try (intros ? ? ?; intros [= <-] Eh; simpl in Eh; first [discriminate Eh|injection Eh as -> ->; by right]).
  all: try (intros ? ? ?; discriminate).
  all: try (destruct w; intros ? ? ?; intros [= <-] Eh; discriminate).
  all: intros r x' [[<- <-]|[_ Hx']]%lookup_insert_Some; [right; exists d; split; [done|]; simpl; by intros ? ? [= <- <-]|left; by exists x'].
Qed.

Lemma step_versions_ok e m m' :
  handles_ok m → inodes_ok m → versions_ok m → mount_step direntry_size e m = Some m' → versions_ok m'.
Proof.
  intros Hok Hio Hv Hstep. destruct (decide (off_dispatch e)) as [He|He]; [by eapply off_dispatch_versions_ok|].
  destruct e; try (by destruct He); [|by eapply serve_versions_ok].
  simpl in Hstep. case_decide; [|done]. injection Hstep as <-.
  apply (versions_ok_quiet m); try done; [by apply io_numbered|intros r x' ?; left; by exists x'|].
  intros d ino name [= <-]. done.
Qed.

(** ** Every run *)

Record sound_mount m : Prop := {
  sm_inodes : inodes_ok m;
  sm_requests : requests_ok m;
  sm_handles : handles_ok m;
  sm_versions : versions_ok m;
}.

Lemma mounted_sound t : ok t → sound_mount (mounted t).
Proof.
  intros Ht. constructor; [apply mounted_inodes_ok|apply mounted_requests_ok| |].
  - constructor; simpl; try done; try (by intros ? [? ?]). by apply start_sound.
  - constructor; simpl; try done. unfold root_only. simpl. by intros i x v [_ <-]%lookup_singleton_Some.
Qed.

Lemma step_sound_mount e m m' : lawful e → sound_mount m → mount_step direntry_size e m = Some m' → sound_mount m'.
Proof.
  intros He [Hi Hr Hh Hv] Hstep. constructor;
    [by eapply step_inodes_ok|by eapply step_requests_ok|by eapply step_handles_ok|by eapply step_versions_ok].
Qed.

Lemma run_sound_mount es m m' :
  Forall lawful es → sound_mount m → mount_run direntry_size es m = Some m' → sound_mount m'.
Proof.
  intros Hes. revert m. induction Hes as [|e es He Hes IH]; intros m Hs; simpl; [by intros [= <-]|].
  destruct (mount_step direntry_size e m) as [m1|] eqn:E; [|done]. simpl. apply IH. by eapply step_sound_mount.
Qed.
End steps.
