(* ===== verification/MountOpen.v ===== *)
(** * Handles and versions over time

    What a handle is opened on, and what an inode is fixed to, from one state
    of the mount to a later one. *)

From S2P Require Export MountSteps.

Section open.
Context {T : Type} `{DirectoryTree T} (ok : T → Prop) `{!LawfulTree T ok}.
Variable direntry_size : str → nat.
Implicit Types m : Mount T.

Notation sound_mount := (sound_mount ok).

Lemma step_keeps_snapshot e m m' a f :
  sound_mount m → mount_step direntry_size e m = Some m' →
  allocated (m_snapshots m) !! a = Some f → 0 < references m a → allocated (m_snapshots m') !! a = Some f.
Proof.
  intros [_ _ Hok _] Hstep Hf Ha. destruct e.
  3: { simpl in Hstep. case_decide as Hd; [|done]. injection Hstep as <-. simpl. unfold FileSnapshots.forget.
       destruct Hd as [[g Hg] Hz]. rewrite Hg. simpl. rewrite lookup_delete_ne; [done|]. intros ->.
       pose proof (ho_counts ok m Hok a). lia. }
  2: { simpl in Hstep. case_decide; [|done]. destruct (on_tree_changed _ _ _) as [started n]. injection Hstep as <-.
       unfold start_pass. destruct started; simpl; by rewrite (ss_allocated _ _ _ (changed_same_snapshots ok d m Hok)). }
  2: { simpl in Hstep. case_decide; [|done]. by injection Hstep as <-. }
  2: { serve_leaves Hstep; simpl; by rewrite ?drop_allocated. }
  4: { simpl in Hstep. unfold take_goes_on, mbind, option_bind in Hstep. repeat break_match_hyp Hstep; try discriminate Hstep.
       injection Hstep as <-. simpl. by eapply take_step_allocated. }
  5: { leaves Hstep; simpl; rewrite ?drop_allocated; try done;
       try (match goal with E : version_for _ _ _ _ = Some _ |- _ =>
         apply version_for_cases in E as (g & Hg & Hcase); simpl in Hcase; destruct Hcase as [-> _]; done end).
       simpl in Heqo0. case_decide; [|done]. by injection Heqo0 as <-. }
  all: leaves Hstep; done.
Qed.

(** A handle's number is never given again. *)
Lemma step_handles_back e m m' :
  mount_step direntry_size e m = Some m' →
  m_last_handle (m_open m) ≤ m_last_handle (m_open m') ∧
  ∀ fh h, m_handles (m_open m') !! fh = Some h → m_handles (m_open m) !! fh = Some h ∨ m_last_handle (m_open m) < fh.
Proof.
  intros Hstep.
  assert (∀ g h' fh h, emplace g h' (m_handles (m_open m)) !! fh = Some h →
    m_handles (m_open m) !! fh = Some h ∨ g ≤ fh) as Hret.
  { intros g h' fh h. rewrite lookup_emplace. destruct (m_handles (m_open m) !! fh); [by left|].
    case_decide; [right; lia|done]. }
  destruct e; leaves Hstep; simpl; rewrite ?drop_m_open; simpl;
    try (split; [done|intros ? ?; first [by left|intros [_ ?]%lookup_delete_Some; by left]]).
  - serve_leaves Hstep; simpl; rewrite ?drop_m_open; simpl;
      try (split; [done|intros ? ?; first [by left|intros [_ ?]%lookup_delete_Some; by left]]).
    split; [lia|]. intros ? ?. apply Hret.
  - split; [lia|]. intros ? ?. apply Hret.
Qed.

(** ** Versions stay fixed *)

(** Nodes that an open has fixed stay as they are while there are such. *)
Definition fixed_stay (s s' : Inodes) : Prop := ∀ i x x' v,
  m_paths s !! i = Some x → opened x = Some v → m_paths s' !! i = Some x' →
  node_path x' = node_path x ∧ opened x' = Some v ∧ node_generation x' = node_generation x.

Lemma fixed_stay_refl s : fixed_stay s s.
Proof. intros i x x' v Hx Hv Hx'. by simplify_eq. Qed.

Lemma fixed_stay_insert i x y s :
  m_paths s !! i = Some x →
  (∀ v, opened x = Some v → node_path y = node_path x ∧ opened y = Some v ∧ node_generation y = node_generation x) →
  fixed_stay s (set_paths (<[i := y]> (m_paths s)) s).
Proof.
  intros Hx Hy j z z' v Hz Hv. simpl. intros [[<- <-]|[_ Hz']]%lookup_insert_Some; simplify_eq; [by apply Hy|done].
Qed.

Lemma inode_fixed_stay name file g s ino s' :
  well_numbered s → inode name file g s = Some (ino, s') → fixed_stay s s'.
Proof.
  intros Hw. unfold inode, mbind, option_bind. intros E.
  assert (add_inode name s = (ino, s') → fixed_stay s s') as Hadd.
  { unfold add_inode. intros [= <- <-] i x x' v Hx Hv. simpl. rewrite lookup_emplace, Hx. intros [= <-]. done. }
  destruct (m_ids s !! name) as [id|]; [|by apply Hadd, (inj Some)].
  destruct (m_paths s !! id) as [x|] eqn:Hx; [|done].
  destruct (still x file g); [|by apply Hadd, (inj Some)]. injection E as <- <-.
  by apply (fixed_stay_insert _ x).
Qed.

Lemma forget_fixed_stay ino count s : fixed_stay s (forget_inode ino count s).
Proof.
  unfold forget_inode. destruct (m_paths s !! ino) as [x|] eqn:Hx; [|apply fixed_stay_refl].
  case_decide; [apply fixed_stay_refl|]. case_decide; [|by apply (fixed_stay_insert _ x)].
  intros i y y' v Hy Hv. simpl. intros [_ Hy']%lookup_delete_Some. by simplify_eq.
Qed.

Lemma version_for_fixed_stay ino current (s : FileSnapshots T) i v s' i' :
  version_for ino current s i = Some (v, s', i') → fixed_stay i i'.
Proof.
  intros (f & Hf & Hcase)%version_for_cases. destruct v as [|a|].
  - destruct Hcase as [_ [[-> _]|(x & Hx & [[Hn ->]|(Ho & Hg & _ & ->)])]]; [apply fixed_stay_refl|..];
      apply (fixed_stay_insert _ x); try done; intros v; by rewrite Hn.
  - destruct Hcase as (_ & -> & _). apply fixed_stay_refl.
  - destruct Hcase as (_ & -> & _). apply fixed_stay_refl.
Qed.

Lemma step_fixed_stay e m m' : sound_mount m → mount_step direntry_size e m = Some m' → fixed_stay (m_inodes m) (m_inodes m').
Proof.
  intros [Hio _ _ _] Hstep. pose proof (io_numbered m Hio) as Hw. destruct e; leaves Hstep; simpl; rewrite ?drop_m_inodes;
    try apply fixed_stay_refl.
  - serve_leaves Hstep; simpl; rewrite ?drop_m_inodes;
      first [apply fixed_stay_refl|apply forget_fixed_stay|by eapply inode_fixed_stay].
  - by eapply version_for_fixed_stay.
  - by eapply version_for_fixed_stay.
  - by eapply version_for_fixed_stay.
Qed.

(** An inode's number is never given again. *)
Definition no_return (s s' : Inodes) : Prop :=
  m_next_inode s ≤ m_next_inode s' ∧
  ∀ i, is_Some (m_paths s' !! i) → i ≤ m_next_inode s → is_Some (m_paths s !! i).

Lemma same_nodes_no_return s s' : same_nodes s s' → no_return s s'.
Proof.
  intros Hs. split; [by rewrite (sn_next _ _ Hs)|]. intros i Hi _. by apply (same_nodes_present s s').
Qed.

Lemma step_no_return e m m' : sound_mount m → mount_step direntry_size e m = Some m' → no_return (m_inodes m) (m_inodes m').
Proof.
  intros [Hio _ _ _] Hstep. pose proof (io_numbered m Hio) as Hw.
  assert (∀ ino count, no_return (m_inodes m) (forget_inode ino count (m_inodes m))) as Hforget.
  { intros ino count. unfold forget_inode. destruct (m_paths (m_inodes m) !! ino) as [x|] eqn:Hx; [|done].
    case_decide; [done|]. case_decide.
    - split; [done|]. simpl. intros i [? [_ ?]%lookup_delete_Some] _. by eexists.
    - split; [done|]. simpl. intros i [? [[<- _]|[_ ?]]%lookup_insert_Some] _; by eexists. }
  destruct (decide (off_dispatch e)) as [He|He].
  { by eapply same_nodes_no_return, off_dispatch_same_nodes. }
  destruct e; try done; leaves Hstep; [done|].
  serve_leaves Hstep; simpl; rewrite ?drop_m_inodes; try done.
  match goal with E : inode _ _ _ _ = Some _ |- _ => revert E end. unfold inode, mbind, option_bind. intros E.
  assert (∀ name, no_return (m_inodes m) (add_inode name (m_inodes m)).2) as Hadd.
  { intros name'. split; [simpl; lia|]. simpl. intros j [y Hy] Hj. rewrite lookup_emplace in Hy.
    destruct (m_paths (m_inodes m) !! j); [by eexists|]. case_decide; [lia|done]. }
  repeat break_match_hyp E; try done; injection E as <- <-; try apply (Hadd _).
  split; [done|]. simpl. intros j [? [[<- _]|[_ ?]]%lookup_insert_Some] _; by eexists.
Qed.

(** ** Over a run *)

Lemma run_handles_back es m m' fh h a f :
  Forall (lawful ok) es → sound_mount m → mount_run direntry_size es m = Some m' → fh ≤ m_last_handle (m_open m) →
  m_handles (m_open m') !! fh = Some h →
  m_handles (m_open m) !! fh = Some h ∧
  (handle_snapshot h = Some a → allocated (m_snapshots m) !! a = Some f → allocated (m_snapshots m') !! a = Some f).
Proof.
  intros Hes. revert m. induction Hes as [|e es He Hes IH]; intros m Hs; simpl; [by intros [= <-]|].
  destruct (mount_step direntry_size e m) as [m1|] eqn:E; [|done]. simpl. intros Hrun Hfh Hh.
  destruct (step_handles_back e m m1 E) as [Hlast Hback].
  destruct (IH m1) as [Hh1 Hf1]; [by eapply step_sound_mount|done|lia|done|].
  destruct (Hback fh h Hh1) as [Hh0|]; [|lia]. split; [done|]. intros Ha Hf. apply Hf1; [done|].
  apply (step_keeps_snapshot e m); [done..|]. unfold references.
  pose proof (handle_references_le a _ fh h Hh0) as Hle. unfold handle_holds in Hle. rewrite count_if_true in Hle by done. lia.
Qed.

Lemma run_inodes_back es m m' i x x' v :
  Forall (lawful ok) es → sound_mount m → mount_run direntry_size es m = Some m' →
  m_paths (m_inodes m) !! i = Some x → opened x = Some v → m_paths (m_inodes m') !! i = Some x' →
  node_path x' = node_path x ∧ opened x' = Some v ∧ node_generation x' = node_generation x.
Proof.
  intros Hes Hs Hrun Hx Hv Hx'.
  assert (no_return (m_inodes m) (m_inodes m') ∧ fixed_stay (m_inodes m) (m_inodes m')) as [_ Hstay]; [|by eapply Hstay].
  clear i x x' v Hx Hv Hx'. revert m Hs Hrun. induction Hes as [|e es He Hes IH]; intros m Hs; simpl.
  { intros [= <-]. split; [done|apply fixed_stay_refl]. }
  destruct (mount_step direntry_size e m) as [m1|] eqn:E; [|done]. simpl. intros Hrun.
  destruct (IH m1) as [[Hn1 Hb1] Hf1]; [by eapply step_sound_mount|done|].
  destruct (step_no_return e m m1 Hs E) as [Hn Hb]. split.
  - split; [lia|]. intros i Hi Hle. apply Hb; [|done]. apply Hb1; [done|lia].
  - intros i x x' v Hx Hv Hx'.
    destruct (Hb1 i) as [x1 Hx1]; [by eexists| |].
    { pose proof (wn_bound _ (io_numbered m (sm_inodes ok m Hs)) i (ex_intro _ x Hx)). lia. }
    destruct (step_fixed_stay e m m1 Hs E i x x1 v Hx Hv Hx1) as (Ep & Eo & Eg).
    destruct (Hf1 i x1 x' v Hx1 Eo Hx') as (-> & -> & ->). done.
Qed.
End open.
