(* ===== verification/MountAnnounce.v ===== *)
(** * Opens wait for what they serve to be announced

    The opens the notifier holds back are the coroutines that wait for it; a
    pass is under way exactly while the notifier says so; and a pretence lasts
    no longer than the notifier's call it is for. *)

From S2P Require Export MountOpen.

(** ** Opens at the gate *)

(** Where an open that has its handle is with the notifier. *)
Inductive Gate := Asking (g : nat) | Holding | Replying.
Definition gate_of (x : Request) : option (path * nat * Gate) :=
  match asked x, progress x with
  | OpenOf _ name, AsksAnnounced fh g => Some (name, fh, Asking g)
  | OpenOf _ name, IsHeld fh => Some (name, fh, Holding)
  | OpenOf _ name, RepliesOpen fh => Some (name, fh, Replying)
  | _, _ => None
  end.
Definition let_through (x : path * nat * Gate) : path * nat * Gate :=
  match x with (name, fh, Holding) => (name, fh, Replying) | _ => x end.

(** What is held, against what the coroutines are at: [gate] says where each
    is, [gen] of which generation a handle's snapshot is. *)
Record held_ok (n : Notifier) (gate : nat → option (path * nat * Gate)) (gen : nat → nat → Prop) : Prop := {
  hd_once : NoDup (held_request <$> m_held_opens n);
  hd_held h : h ∈ m_held_opens n → ∃ fh, gate (held_request h) = Some (held_path h, fh, Holding) ∧
    gen fh (held_generation h) ∧ still_held n h;
  hd_holding r name fh : gate r = Some (name, fh, Holding) → r ∈ held_request <$> m_held_opens n;
  hd_asking r name fh g : gate r = Some (name, fh, Asking g) → gen fh g;
}.

Section held.
Implicit Types gate : nat → option (path * nat * Gate).
Implicit Types gen : nat → nat → Prop.

Lemma held_ok_same n n' gate gate' gen gen' :
  held_ok n gate gen → m_held_opens n' = m_held_opens n → (∀ p, announced p n' = announced p n) →
  (∀ r, gate' r = gate r) →
  (∀ r name fh y g, gate r = Some (name, fh, y) → y ≠ Replying → gen fh g → gen' fh g) → held_ok n' gate' gen'.
Proof.
  intros [H1 H2 H3 H4] El Ea Eg Hgen. constructor; rewrite ?El.
  - done.
  - intros h Hh. destruct (H2 h Hh) as (fh & Hr & Hf & Hs). exists fh. rewrite Eg. split_and!; [done|by eapply Hgen|].
    unfold still_held. by rewrite Ea.
  - intros r name fh. rewrite Eg. apply H3.
  - intros r name fh g. rewrite Eg. intros Hr. eapply Hgen; [done|done|]. by eapply H4.
Qed.

(** An open that is not held goes on, and is not held after. *)
Lemma held_ok_passes n gate gate' gen r :
  held_ok n gate gen → (∀ i, i ≠ r → gate' i = gate i) →
  (∀ name fh, gate r ≠ Some (name, fh, Holding)) → (∀ name fh, gate' r ≠ Some (name, fh, Holding)) →
  (∀ name fh g, gate' r = Some (name, fh, Asking g) → gen fh g) → held_ok n gate' gen.
Proof.
  intros [H1 H2 H3 H4] Eg Hr Hr' Ha. constructor.
  - done.
  - intros h Hh. destruct (H2 h Hh) as (fh & Hg & Hrest). exists fh.
    rewrite Eg; [done|]. intros E. rewrite E in Hg. by apply Hr in Hg.
  - intros i name fh Hi. destruct (decide (i = r)) as [->|Hne]; [by apply Hr' in Hi|].
    rewrite Eg in Hi by done. by eapply H3.
  - intros i name fh g Hi. destruct (decide (i = r)) as [->|Hne]; [by eapply Ha|].
    rewrite Eg in Hi by done. by eapply H4.
Qed.

(** An open is held. *)
Lemma held_ok_holds n n' gate gate' gen r name fh g :
  held_ok n gate gen → gate r = Some (name, fh, Asking g) → announced name n < g →
  (∀ i, i ≠ r → gate' i = gate i) → gate' r = Some (name, fh, Holding) →
  m_held_opens n' = m_held_opens n ++ [{| held_path := name; held_generation := g; held_request := r |}] →
  (∀ p, announced p n' = announced p n) → held_ok n' gate' gen.
Proof.
  intros [H1 H2 H3 H4] Hr Hlt Eg Hr' El Ea.
  assert (r ∉ held_request <$> m_held_opens n) as Hnew.
  { intros (h & -> & Hh)%list_elem_of_fmap. destruct (H2 h Hh) as (fh' & Hg & _). congruence. }
  constructor; rewrite ?El, ?fmap_app; simpl.
  - apply NoDup_app. split_and!; [done| |apply NoDup_singleton]. intros i Hi ->%list_elem_of_singleton. done.
  - intros h [Hh| ->%list_elem_of_singleton]%elem_of_app.
    + destruct (H2 h Hh) as (fh' & Hg & Hf & Hs). exists fh'. rewrite Eg by congruence.
      split_and!; [done..|]. unfold still_held. by rewrite Ea.
    + exists fh. simpl. split_and!; [done|by eapply H4|]. unfold still_held. simpl. by rewrite Ea.
  - intros i name' fh' Hi. apply elem_of_app. destruct (decide (i = r)) as [->|Hne].
    + right. by apply list_elem_of_singleton.
    + left. rewrite Eg in Hi by done. by eapply H3.
  - intros i name' fh' g' Hi. destruct (decide (i = r)) as [->|Hne]; [congruence|].
    rewrite Eg in Hi by done. by eapply H4.
Qed.

(** Those in [l] are let through. *)
Lemma held_ok_releases n n' gate gate' gen (l : list HeldOpen) :
  held_ok n gate gen → (∀ r, gate' r = if decide (r ∈ held_request <$> l) then let_through <$> gate r else gate r) →
  NoDup (held_request <$> m_held_opens n') →
  (∀ h, h ∈ m_held_opens n' ↔ h ∈ m_held_opens n ∧ held_request h ∉ held_request <$> l) →
  (∀ h, h ∈ m_held_opens n' → still_held n' h) → held_ok n' gate' gen.
Proof.
  intros [H1 H2 H3 H4] Eg Hd Hin Hst. constructor.
  - done.
  - intros h Hh. pose proof (proj1 (Hin h) Hh) as [Hh0 Hl]. destruct (H2 h Hh0) as (fh & Hg & Hf & _).
    exists fh. rewrite Eg, decide_False by done. split_and!; [done..|by apply Hst].
  - intros r name fh. rewrite Eg. case_decide as Hr.
    + destruct (gate r) as [[[? ?] []]|]; simpl; congruence.
    + intros Hg. apply H3, list_elem_of_fmap in Hg as (h & -> & Hh). apply list_elem_of_fmap. exists h. by rewrite Hin.
  - intros r name fh g. rewrite Eg. case_decide as Hr; [|apply H4].
    destruct (gate r) as [[[? ?] []]|] eqn:E; simpl; try congruence. intros [= <- <- <-]. by eapply H4.
Qed.
End held.

(** ** What the notifier does to the queue *)

Lemma NoDup_fmap_same {A B} (f : A → B) l x y : NoDup (f <$> l) → x ∈ l → y ∈ l → f x = f y → x = y.
Proof.
  intros Hd [i Hi]%list_elem_of_lookup_1 [j Hj]%list_elem_of_lookup_1 Hf.
  assert (i = j) as ->; [|congruence].
  apply (proj1 (NoDup_alt _) Hd i j (f x)); rewrite list_lookup_fmap; [by rewrite Hi|rewrite Hj; simpl; congruence].
Qed.

Lemma queue_change_same d n :
  m_held_opens (queue_change d n) = m_held_opens n ∧ m_stopping (queue_change d n) = m_stopping n ∧
  m_notifying (queue_change d n) = m_notifying n ∧ (∀ p, announced p (queue_change d n) = announced p n) ∧
  m_announced_everything (queue_change d n) = m_announced_everything n.
Proof. unfold queue_change. by destruct (everything_dirty d). Qed.

Lemma start_notifying_spec spawned n b n' :
  start_notifying spawned n = (b, n') →
  m_held_opens n' = m_held_opens n ∧ m_stopping n' = m_stopping n ∧ (∀ p, announced p n' = announced p n) ∧
  m_announced_everything n' = m_announced_everything n ∧
  m_pending n' = m_pending n ∧ m_everything_dirty n' = m_everything_dirty n ∧ m_notifying n' = m_notifying n || b ∧
  (b = true → m_notifying n = false ∧ m_stopping n = false).
Proof.
  unfold start_notifying. destruct (m_notifying n) eqn:E, (m_stopping n) eqn:Es; simpl; intros [= <- <-]; simpl;
    rewrite ?E, ?Es; by destruct spawned.
Qed.

Lemma mark_announced_spec p g n l n' :
  mark_announced p g n = (l, n') →
  m_stopping n' = m_stopping n ∧ m_notifying n' = m_notifying n ∧ m_pending n' = m_pending n ∧
  m_everything_dirty n' = m_everything_dirty n ∧
  (∀ q, announced q n' = match p with Some p' => if decide (p' = q) then Nat.max (announced q n) g else announced q n
                                     | None => Nat.max (announced q n) g end) ∧
  (∀ h, h ∈ m_held_opens n' ↔ h ∈ m_held_opens n ∧ still_held n' h) ∧
  (∀ h, h ∈ l ↔ h ∈ m_held_opens n ∧ ¬ still_held n' h) ∧ m_held_opens n' `sublist_of` m_held_opens n.
Proof.
  unfold mark_announced. intros [= <- <-]. split_and!; try (by destruct p).
  - intros q. destruct p as [p|]; unfold announced; simpl; [case_decide as E|]; [subst; rewrite lookup_insert_eq|
      rewrite lookup_insert_ne by done|]; simpl; lia.
  - intros h. simpl. rewrite list_elem_of_filter. destruct p; tauto.
  - intros h. rewrite list_elem_of_filter. destruct p; tauto.
  - simpl. apply sublist_filter.
Qed.

(** What is let through is what is no longer held. *)
Lemma mark_announced_held p g n l n' gate gate' gen :
  mark_announced p g n = (l, n') → held_ok n gate gen →
  (∀ r, gate' r = if decide (r ∈ held_request <$> l) then let_through <$> gate r else gate r) → held_ok n' gate' gen.
Proof.
  intros (_ & _ & _ & _ & _ & Hin & Hl & Hsub)%mark_announced_spec Hok Hg.
  apply (held_ok_releases n n' gate gate' gen l Hok Hg).
  - eapply sublist_NoDup; [apply Hok|by apply fmap_sublist].
  - intros h. rewrite Hin. split.
    + intros [Hh Hs]. split; [done|]. intros (h' & E & Hh')%list_elem_of_fmap. apply Hl in Hh' as [Hh' Hs'].
      rewrite (NoDup_fmap_same held_request _ h h' (hd_once _ _ _ Hok) Hh Hh' E) in Hs. done.
    + intros [Hh Hs]. split; [done|]. destruct (decide (still_held n' h)) as [?|Hn]; [done|]. destruct Hs.
      apply list_elem_of_fmap. exists h. by rewrite Hl.
  - intros h Hh. by apply Hin.
Qed.

Lemma end_held n n' gate gate' gen :
  held_ok n gate gen → m_held_opens n' = [] →
  (∀ r, gate' r = if decide (r ∈ held_request <$> m_held_opens n) then let_through <$> gate r else gate r) →
  held_ok n' gate' gen.
Proof.
  intros Hok El Hg. apply (held_ok_releases n n' gate gate' gen (m_held_opens n) Hok Hg); rewrite El.
  - apply NoDup_nil_2.
  - intros h. split; [by intros ?%elem_of_nil|]. intros [Hh []]. by apply list_elem_of_fmap_2.
  - by intros h ?%elem_of_nil.
Qed.

(** ** The notifier of a mount *)

Definition idle (p : Pass) : bool := match p with NoPass => true | _ => false end.
Definition nameless (p : Pass) : bool := match p with NoPass | Starts => true | _ => false end.
Definition gens_ok (p : Pass) : Prop :=
  match p with
  | Between b => ∀ q, is_Some (left b !! q) → is_Some (gens b !! q)
  | Announces p _ _ b => is_Some (gens b !! p) ∧ ∀ q, is_Some (left b !! q) → is_Some (gens b !! q)
  | _ => True
  end.

Section announce.
Context {T : Type} `{DirectoryTree T} (ok : T → Prop) `{!LawfulTree T ok}.
Variable direntry_size : str → nat.
Implicit Types m : Mount T.

Notation sound_mount := (sound_mount ok).

Definition gate_at m (r : nat) : option (path * nat * Gate) := m_requests m !! r ≫= gate_of.
Definition opened_at m (fh g : nat) : Prop :=
  ∃ h a f, m_handles (m_open m) !! fh = Some h ∧ handle_snapshot h = Some a ∧
    allocated (m_snapshots m) !! a = Some f ∧ generation f = g.

Record notifier_ok m : Prop := {
  nt_notifying : m_notifying (m_notifier m) = negb (idle (m_pass m));
  nt_stopping : m_stopping (m_notifier m) = negb (bool_decide (life m = Mounted));
  nt_tid : bool_decide (m_notifier_tid m = 0) = nameless (m_pass m);
  nt_destroyed : life m ≠ Mounted → life m ≠ Unsubscribed → m_pass m = NoPass ∧ m_held_opens (m_notifier m) = [];
  nt_gens : gens_ok (m_pass m);
  nt_pretends : (m_pretending m).2 = nothing ∨ ∃ p kind c b, m_pretending m = (p, pretence_for_call c) ∧
    (m_pass m = Announces p kind (CallsKernel c) b ∨ m_pass m = Announces p kind (StopsPretending c) b);
  nt_held : held_ok (m_notifier m) (gate_at m) (opened_at m);
}.

(** ** What keeps what is held *)

Lemma gate_handle m r name fh y :
  handles_ok ok m → gate_at m r = Some (name, fh, y) → handle_at m fh name.
Proof.
  intros Hok. unfold gate_at. destruct (m_requests m !! r) as [x|] eqn:Hx; simpl; [|done].
  pose proof (ho_requests ok m Hok r x Hx) as Hr. unfold request_ok in Hr. unfold gate_of.
  destruct (asked x) as [ino n|]; [|done]. by destruct (progress x); try done; intros [= <- <- <-].
Qed.

Lemma opened_at_stays e m m' r name fh y y' g :
  sound_mount m → sound_mount m' → mount_step direntry_size e m = Some m' →
  gate_at m r = Some (name, fh, y) → gate_at m' r = Some (name, fh, y') → opened_at m fh g → opened_at m' fh g.
Proof.
  intros Hs Hs' Hstep Hr Hr' (h & a & f & Hh & Ha & Hf & Hg).
  destruct (gate_handle m' r name fh y' (sm_handles ok m' Hs') Hr') as (h' & Hh' & _).
  destruct (step_handles_back direntry_size e m m' Hstep) as [Hlast Hback].
  pose proof (ho_numbers ok m (sm_handles ok m Hs) fh (ex_intro _ h Hh)) as Hle.
  destruct (Hback fh h' Hh') as [E|]; [|lia]. exists h', a, f. rewrite Hh in E. injection E as <-.
  split_and!; try done. eapply (step_keeps_snapshot ok direntry_size e m m'); try done. unfold references.
  pose proof (handle_references_le a _ fh h Hh) as Hr1. unfold handle_holds in Hr1. rewrite count_if_true in Hr1 by done. lia.
Qed.

Lemma gate_release l m r :
  (foldl (λ rs h, alter let_reply (held_request h) rs) (m_requests m) l !! r ≫= gate_of) =
  (if decide (r ∈ held_request <$> l) then let_through <$> gate_at m r else gate_at m r).
Proof.
  unfold gate_at. assert (∀ x, gate_of (let_reply x) = let_through <$> gate_of x) as Hx.
  { intros x. unfold gate_of, let_reply. destruct (progress x) eqn:Ep, (asked x) eqn:E; simpl; by rewrite ?E, ?Ep. }
  assert (∀ x : option (path * nat * Gate), let_through <$> (let_through <$> x) = let_through <$> x) as Hidem.
  { by intros [[[? ?] []]|]. }
  generalize (m_requests m). induction l as [|h l IH]; intros rs; [done|].
  cbn [foldl]. rewrite IH, fmap_cons. destruct (decide (r = held_request h)) as [->|Hne].
  - rewrite lookup_alter_eq. rewrite (decide_True (P := _ ∈ _ :: _)) by by left.
    destruct (rs !! held_request h) as [x|]; simpl; [|by case_decide]. rewrite Hx, Hidem. by case_decide.
  - rewrite lookup_alter_ne by done.
    rewrite (decide_ext (r ∈ held_request h :: (held_request <$> l)) (r ∈ held_request <$> l)); [done|].
    rewrite elem_of_cons. tauto.
Qed.

(** Those let go of go on, and the others stay. *)
Lemma gate_of_release l m : ∀ r, gate_at (release l m) r = if decide (r ∈ held_request <$> l) then let_through <$> gate_at m r else gate_at m r.
Proof. apply gate_release. Qed.

Lemma gate_update r p m i :
  gate_at (update r p m) i = if decide (i = r) then (at_progress p <$> m_requests m !! r) ≫= gate_of else gate_at m i.
Proof.
  unfold gate_at, update. simpl. case_decide as E.
  - subst. rewrite lookup_alter_eq. by destruct (m_requests m !! r).
  - by rewrite lookup_alter_ne.
Qed.

(** ** Steps that have nothing to do with the notifier *)

Definition at_gate (e : mount_event T) : bool :=
  match e with Notifies _ _ | GoesOn _ _ _ | PassGoesOn _ _ | PassFails | Destroys => true | _ => false end.

Lemma aside_keeps e m m' :
  at_gate e = false → mount_step direntry_size e m = Some m' →
  m_notifier m' = m_notifier m ∧ m_pass m' = m_pass m ∧ m_notifier_tid m' = m_notifier_tid m ∧ life m' = life m ∧
  (m_pretending m' = m_pretending m ∨ (m_pretending m').2 = nothing).
Proof.
  intros He Hstep. destruct e; try done; leaves Hstep; simpl; try (by split_and!; [..|left]).
  serve_leaves Hstep; simpl; autorewrite with mount; split_and!; try done; first [by left|by right].
Qed.

Lemma aside_gates e m m' r :
  sound_mount m → at_gate e = false → mount_step direntry_size e m = Some m' → gate_at m' r = gate_at m r.
Proof.
  intros Hs He Hstep. unfold gate_at. destruct e; try done; leaves Hstep; simpl; try done.
  1: { pose proof (sm_requests ok m Hs) as Hl. serve_leaves Hstep; simpl; autorewrite with mount; try done.
       all: unfold requests_ok, serving_of in Hl; simpl in Hl.
       all: destruct (decide (serving d = r)) as [<-|]; [rewrite lookup_insert_eq|by rewrite lookup_insert_ne].
       all: destruct (m_requests m !! serving d) as [x|] eqn:Hx; simpl; [|by destruct (_ && _)].
       all: destruct (le_owing _ _ _ _ Hl (serving d) (owes_answer (progress x))) as [_ Hne];
         [unfold owing_of; by rewrite lookup_fmap, Hx|]; destruct (Hne (owes_reply (handling d))); by rewrite Heqo. }
  all: unfold update; simpl.
  all: match goal with |- context [alter _ ?k _] => destruct (decide (k = r)) as [<-|];
         [rewrite lookup_alter_eq|by rewrite lookup_alter_ne]
       | |- context [<[?k := _]> _] => destruct (decide (k = r)) as [<-|];
         [rewrite lookup_insert_eq|by rewrite lookup_insert_ne] end.
  all: match goal with Hx : m_requests _ !! _ = Some ?x |- _ => rewrite Hx; simpl; unfold gate_of; simpl end.
  all: repeat match goal with Hx : progress _ = _ |- _ => rewrite Hx; clear Hx
    | Hx : asked _ = _ |- _ => rewrite Hx; clear Hx end; try done.
  all: by destruct (asked _).
Qed.

(** ** Steps of a coroutine *)

(** What an open does about being announced. *)
Inductive gate_moves m m' (r : nat) : Prop :=
  | MovesAside :
      m_notifier m' = m_notifier m → m_pass m' = m_pass m →
      (∀ name fh y, gate_at m r = Some (name, fh, y) → y = Replying) →
      (∀ name fh, gate_at m' r ≠ Some (name, fh, Holding)) →
      (∀ name fh g, gate_at m' r = Some (name, fh, Asking g) → opened_at m' fh g) →
      (∀ name fh, gate_at m' r ≠ Some (name, fh, Replying)) → gate_moves m m' r
  | MovesThrough spawned name fh g now started n' :
      gate_at m r = Some (name, fh, Asking g) →
      reply_when_announced spawned name g r (m_notifier m) = (now, (started, n')) →
      gate_at m' r = Some (name, fh, if now then Replying else Holding) →
      m_notifier m' = n' → m_pass m' = (if started then Starts else m_pass m) →
      m_snapshots m' = m_snapshots m → m_open m' = m_open m → gate_moves m m' r.

Lemma goes_on_keeps r accepted spawned m m' :
  mount_step direntry_size (GoesOn r accepted spawned) m = Some m' →
  m_notifier_tid m' = m_notifier_tid m ∧ life m' = life m ∧ m_pretending m' = m_pretending m ∧
  ∀ i, i ≠ r → gate_at m' i = gate_at m i.
Proof.
  intros Hstep. unfold gate_at. leaves Hstep; simpl; autorewrite with mount; split_and!; try done.
  all: intros i' Hi; by rewrite ?lookup_alter_ne, ?lookup_delete_ne.
Qed.

Lemma goes_on_gates r accepted spawned m m' :
  handles_ok ok m → mount_step direntry_size (GoesOn r accepted spawned) m = Some m' → gate_moves m m' r.
Proof.
  intros Hok Hstep. leaves Hstep; try (apply MovesAside; unfold gate_at, update, finish; simpl; autorewrite with mount;
    rewrite ?lookup_alter_eq, ?lookup_delete_eq; try done; rewrite ?Heqo; simpl; unfold gate_of; simpl;
    repeat match goal with Hx : progress _ = _ |- _ => rewrite Hx; clear Hx
    | Hx : asked _ = _ |- _ => rewrite Hx; clear Hx end; try done; congruence).
  - assert (m_handles (m_open m) !! S (m_last_handle (m_open m)) = None) as Hnew.
    { destruct (m_handles (m_open m) !! _) as [h|] eqn:E; [|done].
      pose proof (ho_numbers ok m Hok _ (ex_intro _ h E)). lia. }
    apply MovesAside; unfold gate_at, update; simpl; rewrite ?lookup_alter_eq, ?Heqo; simpl; unfold gate_of; simpl;
      rewrite ?Heqa, ?Heqp; try done.
    intros name' fh g [= <- <- <-]. eexists _, version, f. simpl. rewrite lookup_emplace, Hnew, decide_True by done.
      by split_and!.
  - eapply MovesThrough with (started := true) (spawned := spawned); try done; unfold gate_at; simpl;
      rewrite ?lookup_alter_eq, Heqo; simpl; unfold gate_of; simpl; by rewrite ?Heqa, ?Heqp.
  - eapply MovesThrough with (started := true) (spawned := spawned); try done; unfold gate_at; simpl;
      rewrite ?lookup_alter_eq, Heqo; simpl; unfold gate_of; simpl; by rewrite ?Heqa, ?Heqp.
  - eapply MovesThrough with (started := false) (spawned := spawned); try done; unfold gate_at; simpl;
      rewrite ?lookup_alter_eq, Heqo; simpl; unfold gate_of; simpl; by rewrite ?Heqa, ?Heqp.
  - eapply MovesThrough with (started := false) (spawned := spawned); try done; unfold gate_at; simpl;
      rewrite ?lookup_alter_eq, Heqo; simpl; unfold gate_of; simpl; by rewrite ?Heqa, ?Heqp.
Qed.

(** ** The invariant *)

Lemma held_stays e m m' :
  sound_mount m → sound_mount m' → mount_step direntry_size e m = Some m' →
  (∀ r name fh y, gate_at m r = Some (name, fh, y) → y ≠ Replying → ∃ y', gate_at m' r = Some (name, fh, y')) →
  held_ok (m_notifier m) (gate_at m) (opened_at m) → held_ok (m_notifier m) (gate_at m) (opened_at m').
Proof.
  intros Hs Hs' Hstep Hg Hok. apply (held_ok_same _ _ _ _ _ _ Hok); try done. intros r name fh y g Hr Hy Ho.
  destruct (Hg r name fh y Hr Hy) as [y' Hr']. by apply (opened_at_stays e m m' r name fh y y').
Qed.

Lemma aside_notifier_ok e m m' :
  at_gate e = false → sound_mount m → sound_mount m' → notifier_ok m → mount_step direntry_size e m = Some m' → notifier_ok m'.
Proof.
  intros He Hs Hs' [H1 H2 H3 H4 H5 H6 H7] Hstep.
  destruct (aside_keeps e m m' He Hstep) as (En & Ep & Et & El & Epr).
  constructor; rewrite ?En, ?Ep, ?Et, ?El; try done.
  - destruct Epr as [->|Hn]; [done|by left].
  - pose proof (λ r, aside_gates e m m' r Hs He Hstep) as Hg.
    apply (held_ok_same (m_notifier m) _ (gate_at m) (gate_at m') (opened_at m')); try done.
    apply (held_stays e m); try done. intros r name fh y Hr _. exists y. by rewrite Hg.
Qed.

Lemma goes_on_notifier_ok r accepted spawned m m' :
  sound_mount m → sound_mount m' → notifier_ok m → mount_step direntry_size (GoesOn r accepted spawned) m = Some m' →
  notifier_ok m'.
Proof.
  intros Hs Hs' [H1 H2 H3 H4 H5 H6 H7] Hstep.
  destruct (goes_on_keeps r accepted spawned m m' Hstep) as (Et & El & Epr & Eg).
  destruct (goes_on_gates r accepted spawned m m' (sm_handles ok m Hs) Hstep)
    as [En Ep Hr Hr' Ha Hre|sp name fh g now started n' Hr Hgate Hr' En Ep Es Eo].
  - constructor; rewrite ?En, ?Ep, ?Et, ?El, ?Epr; try done.
    assert (held_ok (m_notifier m) (gate_at m) (opened_at m')) as H7'.
    { apply (held_stays (GoesOn r accepted spawned) m); try done. intros i name fh y Hi Hy. exists y.
      rewrite Eg; [done|]. intros ->. by apply Hr in Hi. }
    apply (held_ok_passes _ (gate_at m) _ _ r); try done. intros name fh E. by apply Hr in E.
  - assert (held_ok (m_notifier m) (gate_at m) (opened_at m')) as H7'.
    { apply (held_stays (GoesOn r accepted spawned) m); try done. intros i name' fh' y Hi Hy.
      destruct (decide (i = r)) as [->|]; [|exists y; by rewrite Eg].
      rewrite Hr in Hi. injection Hi as <- <- <-. by eexists. }
    unfold reply_when_announced in Hgate. destruct (negb _ && _) eqn:Eb.
    + injection Hgate as <- Hst. apply start_notifying_spec in Hst as (Eh & Esp & Ean & _ & _ & _ & Enot & Hstart).
      apply andb_true_iff in Eb as [Hns%negb_true_iff Hlt%bool_decide_eq_true]. simpl in Eh, Esp, Enot.
      assert (started = true → m_pass m = NoPass) as Hidle.
      { intros [Hn _]%Hstart. simpl in Hn. rewrite H1 in Hn. destruct (m_pass m); done. }
      constructor; rewrite ?En, ?Et, ?El, ?Epr; try (destruct started; rewrite Ep; [specialize (Hidle eq_refl)|]); try done.
      * by rewrite Enot, orb_true_r.
      * by rewrite Enot, orb_false_r.
      * congruence.
      * rewrite H3. by rewrite Hidle.
      * intros Hm Hu. destruct (H4 Hm Hu) as [_ _]. rewrite H2, bool_decide_false in Hns by done. done.
      * intros Hm Hu. rewrite H2, bool_decide_false in Hns by done. done.
      * left. destruct H6 as [?|(p & k & c & b & _ & [?|?])]; [done|congruence..].
      * by apply (held_ok_holds (m_notifier m) _ (gate_at m) _ _ r name fh g).
    + injection Hgate as <- <- <-. constructor; rewrite ?En, ?Ep, ?Et, ?El, ?Epr; try done.
      apply (held_ok_passes _ (gate_at m) _ _ r); try done; rewrite ?Hr, ?Hr'; done.
Qed.

Lemma notifies_notifier_ok d spawned m m' :
  sound_mount m → sound_mount m' → notifier_ok m → mount_step direntry_size (Notifies d spawned) m = Some m' →
  notifier_ok m'.
Proof.
  intros Hs Hs' [H1 H2 H3 H4 H5 H6 H7] Hstep. pose proof Hstep as Hstep0. simpl in Hstep. case_decide as Hl; [|done].
  assert (m_stopping (m_notifier m) = false) as Hns by by rewrite H2, Hl.
  unfold on_tree_changed in Hstep. rewrite Hns in Hstep.
  destruct (start_notifying _ _) as [started n] eqn:Est. injection Hstep as <-.
  destruct (queue_change_same d (m_notifier m)) as (Qh & Qs & Qn & Qa & _).
  apply start_notifying_spec in Est as (Eh & Esp & Ean & _ & _ & _ & Enot & Hstart).
  rewrite Qh in Eh. rewrite Qs in Esp. rewrite Qn in Enot.
  assert (started = true → m_pass m = NoPass) as Hidle.
  { intros [Hn _]%Hstart. rewrite Qn, H1 in Hn. destruct (m_pass m); done. }
  set (m' := start_pass started _) in *.
  assert (m_notifier m' = n ∧ m_notifier_tid m' = m_notifier_tid m ∧ life m' = life m ∧ m_pretending m' = m_pretending m ∧
          m_pass m' = if started then Starts else m_pass m) as (En & Et & El & Epr & Ep) by (unfold m'; by destruct started).
  assert (∀ r, gate_at m' r = gate_at m r) as Eg by (intros r; unfold gate_at, m'; by destruct started).
  clearbody m'. constructor; rewrite ?En, ?Et, ?El, ?Epr; try (destruct started; rewrite Ep; [specialize (Hidle eq_refl)|]); try done.
  - by rewrite Enot, orb_true_r.
  - by rewrite Enot, orb_false_r.
  - congruence.
  - rewrite H3. by rewrite Hidle.
  - left. destruct H6 as [?|(p & k & c & b & _ & [?|?])]; [done|congruence..].
  - apply (held_ok_same (m_notifier m) _ (gate_at m) _ (opened_at m')); try done; [|intros p; by rewrite Ean, Qa].
    apply (held_stays (Notifies d spawned) m); try done. intros r name fh y Hr _. exists y. by rewrite Eg.
Qed.

(** ** Steps of a pass *)

Lemma release_keeps (l : list HeldOpen) m :
  m_notifier (release l m) = m_notifier m ∧ m_pass (release l m) = m_pass m ∧
  m_notifier_tid (release l m) = m_notifier_tid m ∧ life (release l m) = life m ∧
  m_pretending (release l m) = m_pretending m.
Proof. done. Qed.

Lemma released_stay (l : list HeldOpen) m m' :
  (∀ r, gate_at m' r = if decide (r ∈ held_request <$> l) then let_through <$> gate_at m r else gate_at m r) →
  ∀ r name fh y, gate_at m r = Some (name, fh, y) → y ≠ Replying → ∃ y', gate_at m' r = Some (name, fh, y').
Proof.
  intros Hg r name fh y Hr _. rewrite Hg, Hr. case_decide; [|by eexists]. destruct y; by eexists.
Qed.

Lemma marks_notifier_ok e m p g next :
  sound_mount m → sound_mount (marks p g next m) → notifier_ok m → mount_step direntry_size e m = Some (marks p g next m) →
  nameless (m_pass m) = false → nameless next = false → gens_ok next → (m_pretending m).2 = nothing →
  notifier_ok (marks p g next m).
Proof.
  intros Hs Hs' [H1 H2 H3 H4 H5 H6 H7] Hstep Hname Hnext Hgens Hpr. unfold marks in *.
  destruct (mark_announced p g (m_notifier m)) as [l n] eqn:Em. set (m' := release l _) in *.
  assert (∀ r, gate_at m' r = if decide (r ∈ held_request <$> l) then let_through <$> gate_at m r else gate_at m r) as Hg.
  { intros r. unfold m'. by rewrite gate_of_release. }
  pose proof (mark_announced_spec _ _ _ _ _ Em) as (Esp & Enot & _).
  constructor; simpl; rewrite ?Esp, ?Enot; try done.
  - rewrite H1. destruct (m_pass m), next; done.
  - rewrite H3, Hname, Hnext. done.
  - intros Hm Hu. destruct (H4 Hm Hu) as [Hp _]. by rewrite Hp in Hname.
  - by left.
  - apply (mark_announced_held p g (m_notifier m) l n (gate_at m) (gate_at m')); [done| |done].
    apply (held_stays e m); try done. by eapply released_stay.
Qed.

Lemma end_of_pass_notifier_ok e m :
  sound_mount m → sound_mount (end_of_pass m) → notifier_ok m → mount_step direntry_size e m = Some (end_of_pass m) →
  (m_pretending m).2 = nothing → notifier_ok (end_of_pass m).
Proof.
  intros Hs Hs' [H1 H2 H3 H4 H5 H6 H7] Hstep Hpr. unfold end_of_pass, end_pass in *.
  set (m' := release _ _) in *.
  assert (∀ r, gate_at m' r = if decide (r ∈ held_request <$> m_held_opens (m_notifier m))
                              then let_through <$> gate_at m r else gate_at m r) as Hg.
  { intros r. unfold m'. by rewrite gate_of_release. }
  constructor; simpl; try done.
  - by left.
  - apply (end_held (m_notifier m) _ (gate_at m) (gate_at m')); [|done|done].
    apply (held_stays e m); try done. by eapply released_stay.
Qed.

Lemma covers_all (f : path → nat) (batch : Changes) q :
  is_Some (batch !! q) → map_imap (λ p _, Some (f p)) batch !! q = Some (f q).
Proof. intros [x Hq]. rewrite map_lookup_imap. unfold Changes in *. by rewrite Hq. Qed.

(** The pass goes on, and nothing it announces is marked. *)
Lemma pass_moves_notifier_ok m m' :
  notifier_ok m → m_requests m' = m_requests m → m_snapshots m' = m_snapshots m → m_open m' = m_open m →
  life m' = life m → m_held_opens (m_notifier m') = m_held_opens (m_notifier m) →
  (∀ p, announced p (m_notifier m') = announced p (m_notifier m)) →
  m_stopping (m_notifier m') = m_stopping (m_notifier m) → m_notifying (m_notifier m') = m_notifying (m_notifier m) →
  idle (m_pass m) = false → nameless (m_pass m') = false → m_notifier_tid m' ≠ 0 → gens_ok (m_pass m') →
  ((m_pretending m').2 = nothing ∨ ∃ p kind c b, m_pretending m' = (p, pretence_for_call c) ∧
    (m_pass m' = Announces p kind (CallsKernel c) b ∨ m_pass m' = Announces p kind (StopsPretending c) b)) →
  notifier_ok m'.
Proof.
  intros [H1 H2 H3 H4 H5 H6 H7] Er Es Eo El Eh Ea Est Enot Hidle Hname Htid Hgens Hpr.
  constructor; rewrite ?El, ?Est, ?Enot; try done.
  - rewrite H1, Hidle. by destruct (m_pass m').
  - by rewrite bool_decide_false.
  - intros Hm Hu. destruct (H4 Hm Hu) as [Hp _]. by rewrite Hp in Hidle.
  - apply (held_ok_same _ _ _ _ _ _ H7); try done.
    + intros r. unfold gate_at. by rewrite Er.
    + intros r name fh y g _ _. unfold opened_at. by rewrite Es, Eo.
Qed.

(** Where a pass is when nothing may be pretended. *)
Definition honest (p : Pass) : bool :=
  match p with Announces _ _ (CallsKernel (Makes _ | Removes _) | StopsPretending _) _ => false | _ => true end.

Lemma honest_pretends m : notifier_ok m → honest (m_pass m) = true → (m_pretending m).2 = nothing.
Proof.
  intros Hok Hh. destruct (nt_pretends m Hok) as [?|(p & kind & c & b & E & [Hp|Hp])]; [done|..]; rewrite Hp in Hh; [|done].
  rewrite E. by destruct c.
Qed.

Lemma pass_step_notifier_ok tid pick m m' :
  sound_mount m → sound_mount m' → notifier_ok m → mount_step direntry_size (PassGoesOn tid pick) m = Some m' →
  notifier_ok m'.
Proof.
  intros Hs Hs' Hok Hstep. pose proof Hstep as Hstep0. simpl in Hstep.
  pose proof (honest_pretends m Hok) as Hhon. pose proof (nt_tid m Hok) as Htid. pose proof (nt_gens m Hok) as Hgens.
  unfold pass_step in Hstep. destruct (m_pass m) as [| | |b|p kind a b] eqn:Hp; [done|..]; simpl in Htid.
  - case_decide; [done|]. injection Hstep as <-. apply (pass_moves_notifier_ok m); try done; [by rewrite Hp|]. left. by apply Hhon.
  - apply bool_decide_eq_false in Htid. destruct (take_batch _ _ _ _) as [[b n]|] eqn:Eb; injection Hstep as <-.
    + assert (∀ q, is_Some (left b !! q) → is_Some (gens b !! q)) as Hb.
      { revert Eb. unfold take_batch. repeat case_match; intros [= <- <-]; simpl;
          intros q Hq; by eexists; apply covers_all. }
      assert (m_held_opens n = m_held_opens (m_notifier m) ∧ m_stopping n = m_stopping (m_notifier m) ∧
        m_notifying n = m_notifying (m_notifier m) ∧ ∀ p, announced p n = announced p (m_notifier m)) as (E1 & E2 & E3 & E4).
      { revert Eb. unfold take_batch. repeat case_match; by intros [= <- <-]. }
      apply (pass_moves_notifier_ok m); try done; [by rewrite Hp|]. left. by apply Hhon.
    + apply (end_of_pass_notifier_ok (PassGoesOn tid pick)); try done. by apply Hhon.
  - apply bool_decide_eq_false in Htid. case_decide.
    + destruct (everything b); injection Hstep as <-.
      * apply (marks_notifier_ok (PassGoesOn tid pick)); try done; [by rewrite Hp|by apply Hhon].
      * apply (pass_moves_notifier_ok m); try done; [by rewrite Hp|]. left. by apply Hhon.
    + unfold mbind, option_bind in Hstep. destruct (left b !! pick) as [kind|] eqn:Hk; [|done]. injection Hstep as <-.
      apply (pass_moves_notifier_ok m); try done; [by rewrite Hp| |left; by apply Hhon].
      split; [apply Hgens; by eexists|]. simpl. intros q [x [_ Hq]%lookup_delete_Some]. apply Hgens. by eexists.
  - apply bool_decide_eq_false in Htid. unfold announce, mbind, option_bind in Hstep.
    destruct (last (versions (m_snapshots m))) as [t|]; [|done].
    destruct a; try (injection Hstep as <-; apply (pass_moves_notifier_ok m); try done; [by rewrite Hp|]; left; by apply Hhon).
    + injection Hstep as <-. apply (pass_moves_notifier_ok m); try done; [by rewrite Hp|]. right. by eexists p, kind, c, b; split; [|left].
    + injection Hstep as <-. apply (pass_moves_notifier_ok m); try done; [by rewrite Hp|].
      destruct (nt_pretends m Hok) as [Hn|(p' & kind' & c' & b' & E & [Hp'|Hp'])]; [by left| |congruence].
      rewrite Hp in Hp'. injection Hp' as <- <- <- <-.
      destruct c; simpl; [right; by eexists p, kind, _, b; split; [|right]..|left; simpl; by rewrite E].
    + injection Hstep as <-. apply (pass_moves_notifier_ok m); try done; [by rewrite Hp|by left].
    + destruct Hgens as [[g Hg] Hgens]. rewrite Hg in Hstep. injection Hstep as <-.
      apply (marks_notifier_ok (PassGoesOn tid pick)); try done; [by rewrite Hp|by apply Hhon].
Qed.

Lemma pass_fails_notifier_ok m m' :
  sound_mount m → sound_mount m' → notifier_ok m → mount_step direntry_size PassFails m = Some m' → notifier_ok m'.
Proof.
  intros Hs Hs' Hok Hstep. pose proof Hstep as Hstep0. pose proof (honest_pretends m Hok) as Hhon.
  simpl in Hstep. unfold pass_fails in Hstep. repeat break_match_hyp Hstep; try discriminate Hstep; injection Hstep as <-;
    (apply (end_of_pass_notifier_ok PassFails); [done..|by apply Hhon]).
Qed.

(** ** The destructor *)

Lemma destroy_notifier_ok m m' :
  sound_mount m → sound_mount m' → notifier_ok m → mount_step direntry_size Destroys m = Some m' → notifier_ok m'.
Proof.
  intros Hs Hs' Hok Hstep. pose proof Hstep as Hstep0. destruct Hok as [H1 H2 H3 H4 H5 H6 H7].
  simpl in Hstep. unfold destroy in Hstep. destruct (life m) eqn:El.
  - injection Hstep as <-. constructor; simpl; try done.
    apply (held_ok_same _ _ _ _ _ _ H7); try done.
  - destruct (m_pass m) eqn:Hp; try done. injection Hstep as <-. set (m' := set_life _ _) in *.
    assert (∀ r, gate_at m' r = if decide (r ∈ held_request <$> m_held_opens (m_notifier m))
                                then let_through <$> gate_at m r else gate_at m r) as Hg.
    { intros r. exact (gate_release _ (set_notifier (set_held [] (m_notifier m)) m) r). }
    assert (m_notifier m' = set_held [] (m_notifier m) ∧ m_pass m' = m_pass m ∧ m_notifier_tid m' = m_notifier_tid m ∧
            m_pretending m' = m_pretending m ∧ life m' = Unheld) as (En & Ep & Et & Epr & El') by done.
    clearbody m'. constructor; rewrite ?En, ?Ep, ?Et, ?Epr, ?El', ?Hp; simpl; try done.
    + apply (end_held (m_notifier m) _ (gate_at m) (gate_at m')); [|done|done].
      apply (held_stays Destroys m); try done. by eapply released_stay.
  - injection Hstep as <-. destruct H4 as [Hp Hh]; [done..|]. set (m' := set_life _ _) in *.
    assert (∀ r, gate_at m' r = gate_at m r) as Hg.
    { intros r. unfold gate_at, m'. simpl. rewrite lookup_fmap. by destruct (m_requests m !! r). }
    assert (m_notifier m' = m_notifier m ∧ m_pass m' = m_pass m ∧ m_notifier_tid m' = m_notifier_tid m ∧
            m_pretending m' = m_pretending m ∧ life m' = Canceled) as (En & Ep & Et & Epr & El') by done.
    clearbody m'. constructor; rewrite ?En, ?Ep, ?Et, ?Epr, ?El'; try done.
    apply (held_ok_same (m_notifier m) _ (gate_at m) _ (opened_at m')); try done.
    apply (held_stays Destroys m); try done. intros r name fh y Hr _. exists y. by rewrite Hg.
  - case_decide; [|done]. injection Hstep as <-. destruct H4 as [Hp Hh]; [done..|]. constructor; done.
  - destruct (m_dispatch m); [done|]. case_decide; [|done]. injection Hstep as <-. destruct H4 as [Hp Hh]; [done..|].
    constructor; done.
  - done.
Qed.

Lemma step_notifier_ok e m m' :
  sound_mount m → sound_mount m' → notifier_ok m → mount_step direntry_size e m = Some m' → notifier_ok m'.
Proof.
  intros Hs Hs' Hok Hstep. destruct (at_gate e) eqn:He; [|by apply (aside_notifier_ok e m)].
  destruct e; try done.
  - by apply (notifies_notifier_ok d spawned m).
  - by apply (goes_on_notifier_ok r accepted spawned m).
  - by apply (pass_step_notifier_ok tid pick m).
  - by apply (pass_fails_notifier_ok m).
  - by apply (destroy_notifier_ok m).
Qed.

Lemma mounted_notifier_ok t : notifier_ok (mounted t).
Proof.
  constructor; simpl; try done; [by left|]. constructor; simpl; try done.
  - apply NoDup_nil_2.
  - by intros h ?%elem_of_nil.
Qed.

(** ** Every run *)

Lemma run_notifier_ok es m m' :
  Forall (lawful ok) es → sound_mount m → notifier_ok m → mount_run direntry_size es m = Some m' →
  sound_mount m' ∧ notifier_ok m'.
Proof.
  intros Hes. revert m. induction Hes as [|e es He Hes IH]; intros m Hs Hn; simpl; [by intros [= <-]|].
  destruct (mount_step direntry_size e m) as [m1|] eqn:E; [|done]. simpl.
  assert (sound_mount m1) as Hs1 by by eapply step_sound_mount.
  apply IH; [done|]. by apply (step_notifier_ok e m).
Qed.
End announce.
