(* ===== verification/MountCoverage.v ===== *)
(** * Every change is announced

    While no pass fails, each generation there is of a file has been announced
    or is on its way to it, so that no open waits for nothing, and none is
    answered before what it serves has been announced. *)

From S2P Require Export MountAnnounce.

(** ** What a pass will have announced *)

Definition batch_covers (b : Batch) (p : path) (g : nat) : Prop :=
  (∃ e, everything b = Some e ∧ g ≤ e) ∨ (is_Some (left b !! p) ∧ ∃ g', gens b !! p = Some g' ∧ g ≤ g').
Definition pass_covers (a : Pass) (p : path) (g : nat) : Prop :=
  match a with
  | Between b => batch_covers b p g
  | Announces q _ _ b => batch_covers b p g ∨ (p = q ∧ ∃ g', gens b !! p = Some g' ∧ g ≤ g')
  | _ => False
  end.
Definition covered (n : Notifier) (a : Pass) (p : path) (g : nat) : Prop :=
  g ≤ announced p n ∨ m_everything_dirty n = true ∨ is_Some (m_pending n !! p) ∨ pass_covers a p g.

Lemma changes_of_all d p : p ∈ entries_changed d → is_Some (changes_of d !! p).
Proof.
  unfold changes_of, Changes.
  assert (∀ l (c : gmap path ChangeKind), p ∈ l ∨ p ∈ dom c → p ∈ dom (foldl (λ m p, emplace p
    (if decide (parent_path p ∈ child_lists_changed d) then added else modified) m) c l)) as Hl.
  { induction l as [|q l IH]; intros c; simpl; [by intros [?%elem_of_nil|]|].
    intros Hp. apply IH. rewrite elem_of_dom_emplace. set_solver. }
  intros Hp. apply elem_of_dom, Hl. by left.
Qed.

Lemma merge_changes_all (a b : Changes) p : is_Some (a !! p) ∨ is_Some (b !! p) → is_Some (merge_changes a b !! p).
Proof.
  unfold merge_changes, Changes in *. rewrite lookup_union_with.
  destruct (a !! p), (b !! p); simpl; intros [[? ?]|[? ?]]; try done; by eexists.
Qed.

Lemma queue_change_covers d n p :
  everything_dirty d = true ∨ p ∈ entries_changed d →
  m_everything_dirty (queue_change d n) = true ∨ is_Some (m_pending (queue_change d n) !! p).
Proof.
  unfold queue_change. destruct (everything_dirty d); simpl; [by left|]. intros [|Hp]; [done|].
  right. apply merge_changes_all. right. by apply changes_of_all.
Qed.

Lemma queue_change_keeps d n p :
  (m_everything_dirty n = true → m_everything_dirty (queue_change d n) = true) ∧
  (is_Some (m_pending n !! p) → is_Some (m_pending (queue_change d n) !! p)).
Proof.
  unfold queue_change. destruct (everything_dirty d); simpl; [done|]. split; [done|].
  intros Hp. apply merge_changes_all. by left.
Qed.

Lemma covered_mono n n' a a' p g :
  covered n a p g → announced p n ≤ announced p n' →
  (m_everything_dirty n = true → m_everything_dirty n' = true) → (is_Some (m_pending n !! p) → is_Some (m_pending n' !! p)) →
  (pass_covers a p g → pass_covers a' p g) → covered n' a' p g.
Proof. unfold covered. intros [?|[?|[?|?]]] Ha Hd Hp Hc; [left; lia|tauto..]. Qed.

Section coverage.
Context {T : Type} `{DirectoryTree T} (ok : T → Prop) `{!LawfulTree T ok}.
Variable direntry_size : str → nat.
Implicit Types m : Mount T.

Notation sound_mount := (sound_mount ok).
Notation generation m p := (generation_of (m_snapshots m) p).

Record announcements_ok m : Prop := {
  an_covered p : m_stopping (m_notifier m) = false → covered (m_notifier m) (m_pass m) p (generation m p);
  an_replying r name fh : gate_at m r = Some (name, fh, Replying) →
    m_stopping (m_notifier m) = true ∨ ∃ g, opened_at m fh g ∧ g ≤ announced name (m_notifier m);
}.

(** ** Generations *)

Definition numbers (s : FileSnapshots T) : nat * nat * gmap path nat := (m_clock s, m_everything s, m_generations s).

Lemma same_generation (s s' : FileSnapshots T) p : numbers s' = numbers s → generation_of s' p = generation_of s p.
Proof. unfold generation_of. by intros [= _ -> ->]. Qed.

Lemma take_step_numbers k fresh (s s' : FileSnapshots T) : take_step k fresh s = Some s' → numbers s' = numbers s.
Proof.
  unfold take_step, mbind, option_bind. intros Hstep.
  by repeat break_match_hyp Hstep; try discriminate Hstep; injection Hstep as <-.
Qed.

Lemma drop_numbers fh m : numbers (m_snapshots (drop fh m)) = numbers (m_snapshots m).
Proof. unfold drop. by destruct (snapshot_of fh (m_open m)). Qed.

Lemma version_for_numbers ino current (s s' : FileSnapshots T) i i' v :
  version_for ino current s i = Some (v, s', i') → numbers s' = numbers s.
Proof.
  unfold version_for, mbind, option_bind. intros Hstep.
  by repeat break_match_hyp Hstep; try discriminate Hstep; injection Hstep as <- <- <-.
Qed.

Lemma step_numbers e m m' :
  mount_step direntry_size e m = Some m' → (∀ d spawned, e ≠ Notifies d spawned) →
  numbers (m_snapshots m') = numbers (m_snapshots m).
Proof.
  intros Hstep Hne. destruct e; try (by destruct (Hne d spawned)).
  - by leaves Hstep.
  - leaves Hstep. simpl. unfold step, FileSnapshots.forget in *. repeat break_match_hyp Heqo; try discriminate Heqo.
    all: by injection Heqo as <-.
  - by leaves Hstep.
  - by serve_leaves Hstep; simpl; rewrite ?drop_numbers.
  - by leaves Hstep.
  - by leaves Hstep.
  - leaves Hstep. simpl. by eapply take_step_numbers.
  - by leaves Hstep.
  - leaves Hstep; simpl; rewrite ?drop_numbers; try done.
    + simpl in Heqo0. case_decide; [|done]. by injection Heqo0 as <-.
    + by eapply version_for_numbers.
    + by eapply version_for_numbers.
    + by eapply version_for_numbers.
  - by leaves Hstep.
  - by leaves Hstep.
  - by leaves Hstep.
  - by leaves Hstep.
Qed.

(** ** Steps *)

Definition was_announced m name fh : Prop :=
  m_stopping (m_notifier m) = true ∨ ∃ g, opened_at m fh g ∧ g ≤ announced name (m_notifier m).

Lemma replying_stays e m m' r name fh y :
  sound_mount m → sound_mount m' → mount_step direntry_size e m = Some m' →
  gate_at m r = Some (name, fh, y) → gate_at m' r = Some (name, fh, Replying) →
  (m_stopping (m_notifier m) = true → m_stopping (m_notifier m') = true) →
  announced name (m_notifier m) ≤ announced name (m_notifier m') → was_announced m name fh → was_announced m' name fh.
Proof.
  intros Hs Hs' Hstep Hr Hr' Hst Ha [?|(g & Hg & Hle)]; [left; by apply Hst|right].
  exists g. split; [|lia]. by apply (opened_at_stays ok direntry_size e m m' r name fh y Replying).
Qed.

Lemma aside_announcements_ok e m m' :
  at_gate e = false → sound_mount m → sound_mount m' → announcements_ok m → mount_step direntry_size e m = Some m' →
  announcements_ok m'.
Proof.
  intros He Hs Hs' [H1 H2] Hstep. destruct (aside_keeps direntry_size e m m' He Hstep) as (En & Ep & _).
  pose proof (λ r, aside_gates ok direntry_size e m m' r Hs He Hstep) as Hg.
  assert (numbers (m_snapshots m') = numbers (m_snapshots m)) as Enum.
  { apply (step_numbers e); [done|]. by intros ? ? ->. }
  constructor; rewrite ?En, ?Ep.
  - intros p. rewrite (same_generation _ _ p Enum). apply H1.
  - intros r name fh Hr. pose proof Hr as Hr0. rewrite Hg in Hr0. rewrite <- En.
    apply (replying_stays e m m' r name fh Replying); try done; rewrite ?En; try done. by apply (H2 r).
Qed.

Lemma goes_on_announcements_ok r accepted spawned m m' :
  sound_mount m → sound_mount m' → notifier_ok m → announcements_ok m →
  mount_step direntry_size (GoesOn r accepted spawned) m = Some m' → announcements_ok m'.
Proof.
  intros Hs Hs' Hn [H1 H2] Hstep.
  destruct (goes_on_keeps direntry_size r accepted spawned m m' Hstep) as (_ & _ & _ & Eg).
  assert (numbers (m_snapshots m') = numbers (m_snapshots m)) as Enum by by eapply step_numbers.
  destruct (goes_on_gates ok direntry_size r accepted spawned m m' (sm_handles ok m Hs) Hstep)
    as [En Ep Hr Hr' Ha Hre|sp name fh g now started n' Hr Hgate Hr' En Ep Es Eo].
  - constructor; rewrite ?En, ?Ep.
    + intros p. rewrite (same_generation _ _ p Enum). apply H1.
    + intros i name fh Hi. rewrite <- En. destruct (decide (i = r)) as [->|]; [by apply Hre in Hi|].
      pose proof Hi as Hi0. rewrite Eg in Hi0 by done.
      apply (replying_stays (GoesOn r accepted spawned) m m' i name fh Replying); try done; rewrite ?En; try done. by apply (H2 i).
  - assert (m_stopping n' = m_stopping (m_notifier m) ∧ m_pending n' = m_pending (m_notifier m) ∧
      m_everything_dirty n' = m_everything_dirty (m_notifier m) ∧ (∀ p, announced p n' = announced p (m_notifier m)) ∧
      (started = true → m_pass m = NoPass) ∧
      (now = true → m_stopping n' = true ∨ g ≤ announced name n')) as (E1 & E2 & E3 & E4 & Hidle & Hnow).
    { unfold reply_when_announced in Hgate. destruct (negb _ && _) eqn:Eb.
      - injection Hgate as <- Hst. apply start_notifying_spec in Hst as (_ & Esp & Ean & _ & Ep1 & Ed & _ & Hstart).
        split_and!; try done. intros [Hx _]%Hstart. simpl in Hx. rewrite (nt_notifying m Hn) in Hx. by destruct (m_pass m).
      - injection Hgate as <- <- <-. split_and!; try done. intros _.
        apply andb_false_iff in Eb as [Hb%negb_false_iff|Hb%bool_decide_eq_false]; [by left|right; lia]. }
    constructor; rewrite ?En.
    + intros p. rewrite (same_generation _ _ p Enum), E1. intros Hp.
      apply (covered_mono (m_notifier m) _ (m_pass m)); rewrite ?E2, ?E3, ?E4; try done; [by apply H1|].
      rewrite Ep. destruct started; [by rewrite Hidle|done].
    + intros i name' fh' Hi. rewrite <- En. destruct (decide (i = r)) as [->|].
      * rewrite Hr' in Hi. destruct now; [|done]. injection Hi as <- <-.
        destruct Hnow as [?|Hle]; [done|left; by rewrite En|right; rewrite En]. exists g. split; [|done].
        destruct (hd_asking _ _ _ (nt_held m Hn) r name fh g Hr) as (h & a & f & Hrest).
        exists h, a, f. by rewrite Es, Eo.
      * pose proof Hi as Hi0. rewrite Eg in Hi0 by done.
        apply (replying_stays (GoesOn r accepted spawned) m m' i name' fh' Replying); try done; rewrite ?En, ?E1, ?E4; try done.
        by apply (H2 i).
Qed.

Lemma notifies_announcements_ok d spawned m m' :
  sound_mount m → sound_mount m' → notifier_ok m → announcements_ok m →
  mount_step direntry_size (Notifies d spawned) m = Some m' → announcements_ok m'.
Proof.
  intros Hs Hs' Hn [H1 H2] Hstep. pose proof Hstep as Hstep0. simpl in Hstep. case_decide as Hl; [|done].
  assert (m_stopping (m_notifier m) = false) as Hns by by rewrite (nt_stopping m Hn), Hl.
  unfold on_tree_changed in Hstep. rewrite Hns in Hstep.
  destruct (start_notifying _ _) as [started n] eqn:Est. injection Hstep as <-.
  destruct (queue_change_same d (m_notifier m)) as (_ & Qs & Qn & Qa & _).
  apply start_notifying_spec in Est as (_ & Esp & Ean & _ & Epe & Edi & _ & Hstart).
  assert (started = true → m_pass m = NoPass) as Hidle.
  { intros [Hx _]%Hstart. rewrite Qn, (nt_notifying m Hn) in Hx. by destruct (m_pass m). }
  destruct (so_numbers ok _ (ho_sound ok m (sm_handles ok m Hs))) as [Hnum1 Hnum2].
  pose proof (mo_same _ _ _ (changed_moved_on d (m_snapshots m) Hnum1 Hnum2)) as Hsame.
  set (m' := start_pass started _) in *.
  assert (m_notifier m' = n ∧ m_snapshots m' = changed d (m_snapshots m) ∧
          m_pass m' = if started then Starts else m_pass m) as (En & Esn & Ep) by (unfold m'; by destruct started).
  assert (∀ r, gate_at m' r = gate_at m r) as Eg by (intros r; unfold gate_at, m'; by destruct started).
  clearbody m'. constructor; rewrite ?En, ?Ep, ?Esn.
  - intros p _. destruct (decide (everything_dirty d = true ∨ p ∈ entries_changed d)) as [Hp|Hp].
    + destruct (queue_change_covers d (m_notifier m) p Hp) as [?|?]; unfold covered; rewrite Edi, Epe; tauto.
    + destruct (Hsame p Hp) as [-> _]. destruct (queue_change_keeps d (m_notifier m) p) as [Hk1 Hk2].
      apply (covered_mono (m_notifier m) _ (m_pass m)); rewrite ?Ean, ?Qa, ?Edi, ?Epe; try done; [by apply H1|].
      destruct started; [by rewrite Hidle|done].
  - intros r name fh Hr. pose proof Hr as Hr0. rewrite Eg in Hr0. rewrite <- En.
    apply (replying_stays (Notifies d spawned) m m' r name fh Replying); try done;
      rewrite ?En, ?Esp, ?Qs, ?Ean, ?Qa; try done. by apply (H2 r).
Qed.

(** A step of the pass that lets no open through. *)
Lemma pass_moves_announcements_ok m m' :
  announcements_ok m → m_requests m' = m_requests m → m_snapshots m' = m_snapshots m → m_open m' = m_open m →
  (∀ p, announced p (m_notifier m') = announced p (m_notifier m)) → m_stopping (m_notifier m') = m_stopping (m_notifier m) →
  (∀ p, m_stopping (m_notifier m) = false → covered (m_notifier m) (m_pass m) p (generation m p) →
     covered (m_notifier m') (m_pass m') p (generation m p)) →
  announcements_ok m'.
Proof.
  intros [H1 H2] Er Es Eo Ea Est Hc. constructor; rewrite ?Est, ?Es.
  - intros p Hp. apply Hc; [done|by apply H1].
  - intros r name fh Hr. unfold gate_at in Hr. rewrite Er in Hr. rewrite Ea.
    destruct (H2 r name fh Hr) as [?|(g & (h & a & f & Hg) & Hle)]; [by left|right].
    exists g. split; [|done]. exists h, a, f. by rewrite Es, Eo.
Qed.

Lemma marks_announcements_ok e m p g next :
  sound_mount m → sound_mount (marks p g next m) → notifier_ok m → announcements_ok m →
  mount_step direntry_size e m = Some (marks p g next m) →
  (∀ q i, pass_covers (m_pass m) q i → pass_covers next q i ∨
     (i ≤ g ∧ match p with Some p' => p' = q | None => True end)) →
  announcements_ok (marks p g next m).
Proof.
  intros Hs Hs' Hn [H1 H2] Hstep Hc. unfold marks in *.
  destruct (mark_announced p g (m_notifier m)) as [l n] eqn:Em. set (m' := release l _) in *.
  assert (∀ r, gate_at m' r = if decide (r ∈ held_request <$> l) then let_through <$> gate_at m r else gate_at m r) as Hg.
  { intros r. unfold m'. by rewrite gate_of_release. }
  apply mark_announced_spec in Em as (Esp & _ & Epe & Edi & Ean & _ & Hl & _).
  assert (∀ q, announced q (m_notifier m) ≤ announced q n) as Hmono.
  { intros q. rewrite Ean. destruct p; [case_decide|]; lia. }
  assert (m_notifier m' = n ∧ m_pass m' = next ∧ m_snapshots m' = m_snapshots m ∧ m_open m' = m_open m) as (En & Ep & Esn & Eo) by done.
  clearbody m'. constructor; rewrite ?En, ?Ep, ?Esn.
  - intros q. rewrite Esp. intros Hq. destruct (H1 q Hq) as [?|[?|[?|Hp]]]; unfold covered.
    + left. specialize (Hmono q). lia.
    + right; left. congruence.
    + right; right; left. by rewrite Epe.
    + destruct (Hc q _ Hp) as [?|[Hi Hpq]]; [by right; right; right|]. left. rewrite Ean.
      destruct p; [rewrite decide_True by done|]; lia.
  - intros r name fh Hr. rewrite <- En. fold (was_announced m' name fh).
    pose proof Hr as Hr0. rewrite Hg in Hr0. case_decide as Hin.
    + apply list_elem_of_fmap in Hin as (h & -> & [Hh Hns]%Hl).
      destruct (hd_held _ _ _ (nt_held m Hn) h Hh) as (fh' & Hgate & Hgen & _).
      rewrite Hgate in Hr0. injection Hr0 as <- <-. right. exists (held_generation h). split.
      * by apply (opened_at_stays ok direntry_size e m m' (held_request h) (held_path h) fh' Holding Replying).
      * unfold still_held in Hns. rewrite En. lia.
    + apply (replying_stays e m m' r name fh Replying); try done; rewrite ?En, ?Esp; try done. by apply (H2 r).
Qed.

(** Nothing is held at the end of a pass that is not told to stop. *)
Lemma end_finds_none_held m :
  sound_mount m → notifier_ok m → announcements_ok m → m_pass m = Looks →
  m_stopping (m_notifier m) = false → m_everything_dirty (m_notifier m) = false → m_pending (m_notifier m) = ∅ →
  m_held_opens (m_notifier m) = [] ∧ ∀ p, generation m p ≤ announced p (m_notifier m).
Proof.
  intros Hs Hn [H1 _] Hp Hst Hd Hpe.
  assert (∀ p, generation m p ≤ announced p (m_notifier m)) as Hall.
  { intros p. destruct (H1 p Hst) as [?|[?|[[x Hx]|Hx]]]; [done|congruence| |by rewrite Hp in Hx].
    rewrite Hpe in Hx. unfold Changes in Hx. by rewrite lookup_empty in Hx. }
  split; [|done]. destruct (m_held_opens (m_notifier m)) as [|h l] eqn:E; [done|].
  destruct (hd_held _ _ _ (nt_held m Hn) h) as (fh & Hgate & (x & a & f & Hh & Ha & Hf & Hg) & Hstill); [rewrite E; by left|].
  destruct (gate_handle ok m _ _ _ _ (sm_handles ok m Hs) Hgate) as (x' & Hx' & Hpath & _). rewrite Hh in Hx'. injection Hx' as <-.
  destruct (ho_paths ok m (sm_handles ok m Hs) fh x a Hh Ha) as (f' & Hf' & Hpf). rewrite Hf in Hf'. injection Hf' as <-.
  destruct (so_allocated ok _ (ho_sound ok m (sm_handles ok m Hs)) a f Hf) as [Hle _].
  unfold still_held in Hstill. specialize (Hall (held_path h)). rewrite Hpf, Hpath in Hle. lia.
Qed.

Lemma take_batch_None known latest generation n :
  take_batch known latest generation n = None ↔
  m_stopping n = true ∨ (m_everything_dirty n = false ∧ m_pending n = ∅).
Proof. unfold take_batch. repeat case_match; naive_solver. Qed.

Lemma end_of_pass_announcements_ok e m :
  sound_mount m → sound_mount (end_of_pass m) → notifier_ok m → announcements_ok m →
  mount_step direntry_size e m = Some (end_of_pass m) → m_pass m = Looks →
  m_stopping (m_notifier m) = true ∨ (m_everything_dirty (m_notifier m) = false ∧ m_pending (m_notifier m) = ∅) →
  announcements_ok (end_of_pass m).
Proof.
  intros Hs Hs' Hn Han Hstep Hp Hend. constructor.
  - intros p Hst. simpl in Hst. destruct Hend as [?|[Hd Hpe]]; [congruence|]. left.
    by apply (end_finds_none_held m Hs Hn Han).
  - intros r name fh Hr. fold (was_announced (end_of_pass m) name fh).
    destruct (m_stopping (m_notifier m)) eqn:Hst; [by left|]. destruct Hend as [?|[Hd Hpe]]; [done|].
    destruct (end_finds_none_held m Hs Hn Han) as [Hnil _]; try done.
    pose proof Hr as Hr0. unfold end_of_pass, end_pass in Hr0. rewrite gate_of_release, Hnil, decide_False in Hr0.
    2: { intros ?%elem_of_nil. done. }
    apply (replying_stays e m _ r name fh Replying); try done. by apply (an_replying m Han r).
Qed.

Lemma take_batch_covers known (s : FileSnapshots T) n b n' p :
  generation_of s p ≤ latest s → take_batch known (latest s) (generation_of s) n = Some (b, n') →
  m_held_opens n' = m_held_opens n ∧ m_stopping n' = m_stopping n ∧ (∀ q, announced q n' = announced q n) ∧
  (covered n Looks p (generation_of s p) → covered n' (Between b) p (generation_of s p)).
Proof.
  intros Hle. unfold take_batch. repeat case_match; intros [= <- <-]; split_and!; try done; unfold covered; simpl.
  - intros _. right; right; right. left. by eexists.
  - intros [?|[?|[Hp|[]]]]; [by left|congruence|]. right; right; right. right. split; [done|].
    exists (generation_of s p). split; [|done]. by apply covers_all.
Qed.

Lemma pass_step_announcements_ok tid pick m m' :
  sound_mount m → sound_mount m' → notifier_ok m → announcements_ok m →
  mount_step direntry_size (PassGoesOn tid pick) m = Some m' → announcements_ok m'.
Proof.
  intros Hs Hs' Hn Han Hstep. pose proof Hstep as Hstep0. simpl in Hstep. pose proof (nt_gens m Hn) as Hgens.
  unfold pass_step in Hstep. destruct (m_pass m) as [| | |b|p kind a b] eqn:Hp; [done|..].
  - case_decide; [done|]. injection Hstep as <-. apply (pass_moves_announcements_ok m); try done.
    intros p _ Hc. apply (covered_mono _ _ _ _ _ _ Hc); try done. by rewrite Hp.
  - destruct (so_numbers ok _ (ho_sound ok m (sm_handles ok m Hs))) as [Hnum1 Hnum2].
    destruct (take_batch _ _ _ _) as [[b n]|] eqn:Eb; injection Hstep as <-.
    + pose proof (λ p, take_batch_covers _ _ _ _ _ p (generation_latest _ p Hnum1 Hnum2) Eb) as Hc.
      destruct (Hc root) as (_ & E2 & E3 & _). apply (pass_moves_announcements_ok m); try done.
      intros p _ Hcov. apply Hc. by rewrite <- Hp.
    + apply (end_of_pass_announcements_ok (PassGoesOn tid pick)); try done. by apply take_batch_None in Eb.
  - case_decide as El.
    + destruct (everything b) as [e|] eqn:Ev; injection Hstep as <-.
      * apply (marks_announcements_ok (PassGoesOn tid pick)); try done. rewrite Hp. intros q i [(e' & E & Hi)|[[x Hx] _]].
        -- right. split; [|done]. congruence.
        -- rewrite El in Hx. unfold Changes in Hx. by rewrite lookup_empty in Hx.
      * apply (pass_moves_announcements_ok m); try done. intros q _ Hc. apply (covered_mono _ _ _ _ _ _ Hc); try done.
        rewrite Hp. intros [(e' & E & Hi)|[[x Hx] _]]; [congruence|].
        rewrite El in Hx. unfold Changes in Hx. by rewrite lookup_empty in Hx.
    + unfold mbind, option_bind in Hstep. destruct (left b !! pick) as [kind|] eqn:Hk; [|done]. injection Hstep as <-.
      apply (pass_moves_announcements_ok m); try done. intros q _ Hc. apply (covered_mono _ _ _ _ _ _ Hc); try done.
      rewrite Hp. simpl. intros [?|[[x Hx] Hg]]; [left; by left|]. destruct (decide (q = pick)) as [->|Hne]; [by right|].
      left. right. simpl. split; [|done]. exists x. unfold Changes in *. by rewrite lookup_delete_ne.
  - unfold announce, mbind, option_bind in Hstep. destruct (last (versions (m_snapshots m))) as [t|]; [|done].
    destruct a; try (injection Hstep as <-; apply (pass_moves_announcements_ok m); try done;
      intros q _ Hc; apply (covered_mono _ _ _ _ _ _ Hc); try done; by rewrite Hp).
    destruct Hgens as [[g Hg] Hgens]. rewrite Hg in Hstep. injection Hstep as <-.
    apply (marks_announcements_ok (PassGoesOn tid pick)); try done.
    rewrite Hp. simpl. intros q i [?|[-> (g' & Hg' & Hi)]]; [by left|right]. split; [|done]. congruence.
Qed.

Lemma destroy_announcements_ok m m' :
  sound_mount m → sound_mount m' → notifier_ok m → announcements_ok m → mount_step direntry_size Destroys m = Some m' →
  announcements_ok m'.
Proof.
  intros Hs Hs' Hn [H1 H2] Hstep. simpl in Hstep.
  assert (m_stopping (m_notifier m') = true) as Hst.
  { pose proof (nt_stopping m Hn) as E. unfold destroy in Hstep. destruct (life m) eqn:El;
      repeat break_match_hyp Hstep; try discriminate Hstep; injection Hstep as <-; done. }
  constructor.
  - congruence.
  - intros. by left.
Qed.

(** ** Every run in which no pass fails *)

Definition unfailing (e : mount_event T) : Prop := lawful ok e ∧ e ≠ PassFails.

Lemma step_announcements_ok e m m' :
  unfailing e → sound_mount m → sound_mount m' → notifier_ok m → announcements_ok m →
  mount_step direntry_size e m = Some m' → announcements_ok m'.
Proof.
  intros [_ Hne] Hs Hs' Hn Han Hstep. destruct (at_gate e) eqn:He; [|by apply (aside_announcements_ok e m)].
  destruct e; try done.
  - by apply (notifies_announcements_ok d spawned m).
  - by apply (goes_on_announcements_ok r accepted spawned m).
  - by apply (pass_step_announcements_ok tid pick m).
  - by apply (destroy_announcements_ok m).
Qed.

Lemma mounted_announcements_ok t : announcements_ok (mounted t).
Proof. constructor; [|done]. intros p _. left. unfold generation_of. simpl. by rewrite lookup_empty. Qed.

Lemma run_announcements_ok es m m' :
  Forall unfailing es → sound_mount m → notifier_ok m → announcements_ok m → mount_run direntry_size es m = Some m' →
  sound_mount m' ∧ notifier_ok m' ∧ announcements_ok m'.
Proof.
  intros Hes. revert m. induction Hes as [|e es He Hes IH]; intros m Hs Hn Han; simpl; [by intros [= <-]|].
  destruct (mount_step direntry_size e m) as [m1|] eqn:E; [|done]. simpl.
  assert (sound_mount m1) as Hs1 by (apply (step_sound_mount ok direntry_size e m); [apply He|done..]).
  apply IH; [done|by apply (step_notifier_ok ok direntry_size e m)|by apply (step_announcements_ok e m)].
Qed.
End coverage.
