(* ===== verification/MountPass.v ===== *)
(** * A pass comes to an end

    Left to itself the notifier can always go on until the pass is over, and
    not forever; by then everything is announced and nobody waits. *)

From Stdlib Require Import Relation_Operators Lexicographic_Product.
From S2P Require Export MountCoverage.

Section pass.
Context {T : Type} `{DirectoryTree T} (ok : T → Prop) `{!LawfulTree T ok}.
Variable direntry_size : str → nat.
Implicit Types m : Mount T.

Notation sound_mount := (sound_mount ok).
Notation generation m p := (generation_of (m_snapshots m) p).

Definition pass_goes m m' : Prop := ∃ tid pick, mount_step direntry_size (PassGoesOn tid pick) m = Some m'.

(** ** How far a pass has to go *)

Definition rank (a : announcing) : nat :=
  match a with
  | Marks => 0 | RemembersMade _ => 1 | StopsPretending _ => 2 | CallsKernel _ => 3
  | Pretends _ => 4 | AsksParent _ => 5 | ForgetsKnown => 6 | AsksTree => 7
  end.
Definition stretch (p : Pass) : nat :=
  match p with
  | NoPass => 0
  | Looks => 1
  | Starts => 2
  | Between b => 10 * size (left b) + 2
  | Announces _ _ a b => 10 * size (left b) + 3 + rank a
  end.
Definition queued (n : Notifier) : bool := m_everything_dirty n || negb (bool_decide (m_pending n = ∅)).

(** The batches to come, and what is left of this one. *)
Definition to_go m : nat * nat := (if queued (m_notifier m) then 1 else 0, stretch (m_pass m)).

(** ** Progress *)

Lemma pass_can_go m : sound_mount m → notifier_ok m → m_pass m ≠ NoPass → ∃ m', pass_goes m m'.
Proof.
  intros Hs Hn Hp. destruct (last_version ok _ (ho_sound ok m (sm_handles ok m Hs))) as (t & Ht & _).
  pose proof (nt_gens m Hn) as Hgens. unfold pass_goes. simpl. unfold pass_step.
  destruct (m_pass m) as [| | |b|p kind a b]; [done|..].
  - exists (set_pass Looks 1 m), 1, root. done.
  - destruct (take_batch _ _ _ _) as [[b n]|]; by eexists _, 1, root.
  - case_decide as Hb; [destruct (everything b); by eexists _, 1, root|].
    destruct (map_choose (left b) Hb) as (q & k & Hq). eexists _, 1, q. unfold Changes in *. by rewrite Hq.
  - unfold announce. rewrite Ht. simpl in *. destruct a; try by eexists _, 1, root.
    destruct Hgens as [[g Hg] _]. rewrite Hg. by eexists _, 1, root.
Qed.

Lemma take_batch_queued known latest generation n b n' :
  take_batch known latest generation n = Some (b, n') → queued n = true ∧ queued n' = false.
Proof.
  unfold take_batch, queued. intros E. repeat break_match_hyp E; try discriminate E; injection E as <- <-; simpl;
    rewrite (bool_decide_true (∅ = ∅)) by done; [done|]. by rewrite bool_decide_false.
Qed.

Lemma pass_goes_down m m' : pass_goes m m' → slexprod _ _ lt lt (to_go m') (to_go m).
Proof.
  intros (tid & pick & Hstep). simpl in Hstep. unfold pass_step in Hstep. unfold to_go; simpl.
  destruct (m_pass m) as [| | |b|p kind a b]; [done|..].
  - case_decide; [done|]. injection Hstep as <-. simpl. apply right_slex. lia.
  - destruct (take_batch _ _ _ _) as [[b n]|] eqn:E; injection Hstep as <-.
    + apply left_slex. simpl. apply take_batch_queued in E as [-> ->]. lia.
    + simpl. apply right_slex. lia.
  - case_decide as Hb.
    + simpl. rewrite Hb. destruct (everything b); injection Hstep as <-; [|apply right_slex; simpl; lia].
      unfold queued, marks. destruct (mark_announced _ _ _) as [l n'] eqn:E.
      apply mark_announced_spec in E as (_ & _ & Epe & Edi & _). simpl. rewrite Epe, Edi. apply right_slex. lia.
    + unfold mbind, option_bind in Hstep. destruct (left b !! pick) as [k|] eqn:Hk; [|done]. injection Hstep as <-. simpl.
      apply right_slex. assert (size (left b) ≠ 0) by (intros E0%map_size_empty_inv; done). unfold Changes in *.
      rewrite map_size_delete_Some by by eexists. lia.
  - unfold announce, mbind, option_bind in Hstep. destruct (last _) as [t|]; [|done].
    destruct a; simpl in Hstep.
    8: { destruct (gens b !! p) as [g|]; [|done]. injection Hstep as <-. unfold marks.
         destruct (mark_announced _ _ _) as [l n'] eqn:E. apply mark_announced_spec in E as (_ & _ & Epe & Edi & _).
         simpl. unfold queued. rewrite Epe, Edi. apply right_slex. lia. }
    all: injection Hstep as <-; simpl; apply right_slex.
    all: unfold after_status, after_forgetting, after_parent, after_call, after_pretence; repeat case_match; simpl; lia.
Qed.

(** No pass goes on forever. *)
Lemma pass_terminates m : Acc (flip pass_goes) m.
Proof.
  pose proof (wf_slexprod _ _ lt lt lt_wf lt_wf) as Hwf.
  remember (to_go m) as x eqn:Ex. revert m Ex.
  induction (Hwf x) as [x _ IH]. intros m ->. constructor. intros m' Hm'.
  apply (IH (to_go m')); [by apply pass_goes_down|done].
Qed.

(** ** Where it ends *)

Record pass_over m : Prop := {
  po_none : m_pass m = NoPass;
  po_held : m_held_opens (m_notifier m) = [];
  po_waits r name fh : gate_at m r ≠ Some (name, fh, Holding);
  po_announced p : m_stopping (m_notifier m) = false → generation m p ≤ announced p (m_notifier m);
}.

Lemma last_of_pass m m' :
  sound_mount m → notifier_ok m → announcements_ok m → notifier_ok m' → pass_goes m m' → m_pass m' = NoPass → pass_over m'.
Proof.
  intros Hs Hn Han Hn' (tid & pick & Hstep) Hp.
  assert (m_pass m = Looks ∧ m' = end_of_pass m ∧ (m_stopping (m_notifier m) = true ∨
    (m_everything_dirty (m_notifier m) = false ∧ m_pending (m_notifier m) = ∅))) as (Hl & -> & Hend).
  { simpl in Hstep. unfold pass_step in Hstep. destruct (m_pass m) as [| | |b|p kind a b] eqn:E; [done|..].
    - case_decide; [done|]. by injection Hstep as <-.
    - destruct (take_batch _ _ _ _) as [[b n]|] eqn:Eb; injection Hstep as <-; [done|].
      by apply take_batch_None in Eb.
    - unfold mbind, option_bind, marks in Hstep. repeat break_match_hyp Hstep; try discriminate Hstep; by injection Hstep as <-.
    - unfold announce, mbind, option_bind, marks in Hstep.
      repeat break_match_hyp Hstep; try discriminate Hstep; by injection Hstep as <-. }
  constructor; try done.
  - intros r name fh Hr. by apply (hd_holding _ _ _ (nt_held _ Hn')), elem_of_nil in Hr.
  - simpl. intros p Hst. destruct Hend as [?|[Hd Hpe]]; [congruence|]. by apply (end_finds_none_held ok m Hs Hn Han).
Qed.

Lemma pass_ends m :
  sound_mount m → notifier_ok m → announcements_ok m → m_pass m ≠ NoPass →
  ∃ m', rtc pass_goes m m' ∧ pass_over m'.
Proof.
  intros Hs Hn Han. induction (pass_terminates m) as [m _ IH]. intros Hp.
  destruct (pass_can_go m Hs Hn Hp) as [m1 Hm1]. pose proof Hm1 as (tid & pick & Hstep).
  assert (sound_mount m1) as Hs1 by by apply (step_sound_mount ok direntry_size (PassGoesOn tid pick) m).
  assert (notifier_ok m1) as Hn1 by by apply (step_notifier_ok ok direntry_size (PassGoesOn tid pick) m).
  assert (announcements_ok m1) as Han1 by by apply (pass_step_announcements_ok ok direntry_size tid pick m).
  assert (m_pass m1 = NoPass ∨ m_pass m1 ≠ NoPass) as [E|E] by (destruct (m_pass m1); [by left|by right..]).
  - exists m1. split; [by apply rtc_once|by apply (last_of_pass m)].
  - destruct (IH m1 Hm1 Hs1 Hn1 Han1 E) as (m2 & Hrun & Hover). exists m2. split; [by eapply rtc_l|done].
Qed.
End pass.
