(* ===== verification/MountServe.v ===== *)
(** * Every request is served, and every coroutine ends

    The dispatcher can always go on with the request it has, and is done with
    it after so many steps; so is a coroutine that the tree answers or lets
    stop, unless it is held. *)

From Stdlib Require Import Relation_Operators Lexicographic_Product.
From S2P Require Export MountPass.

Section serve.
Context {T : Type} `{DirectoryTree T} (ok : T → Prop) `{!LawfulTree T ok}.
Variable direntry_size : str → nat.
Implicit Types m : Mount T.

Notation sound_mount := (sound_mount ok).

(** ** The dispatcher *)

(** A snapshot a handle has is there. *)
Lemma snapshot_there m fh a :
  handles_ok ok m → snapshot_of fh (m_open m) = Some a → is_Some (allocated (m_snapshots m) !! a).
Proof.
  unfold snapshot_of, mbind, option_bind. intros Hok. destruct (m_handles (m_open m) !! fh) as [h|] eqn:Hh; [|done].
  intros Ha. destruct (ho_paths ok m Hok fh h a Hh Ha) as (f & Hf & _). by eexists.
Qed.

Lemma serve_can_go m d accepted spawned :
  sound_mount m → m_dispatch m = Some d → ∃ m', mount_step direntry_size (Serves accepted spawned) m = Some m'.
Proof.
  intros Hs Hd. destruct (last_version ok _ (ho_sound ok m (sm_handles ok m Hs))) as (t & Ht & _).
  pose proof (snapshot_there m) as Hsn. simpl. unfold serve. rewrite Hd, Ht. simpl. destruct (handling d); simpl;
    try (by eexists); try (case_match; by eexists).
  unfold begin_request, read_snapshot. destruct o; try (by eexists); try (case_match; by eexists).
  - destruct (snapshot_of fh (m_open m)) as [a|] eqn:Ha; [|by eexists].
    destruct (Hsn fh a (sm_handles ok m Hs) Ha) as [f Hf]. rewrite Hf. by eexists.
  - destruct (snapshot_of fh (m_open m)) as [a|] eqn:Ha; [|by eexists].
    destruct (Hsn fh a (sm_handles ok m Hs) Ha) as [f Hf]. rewrite Hf. by eexists.
Qed.

(** How far a handler has to go. *)
Definition handler_stretch (h : Handler) : nat * nat :=
  match h with
  | Begins _ => (9, 0) | AsksNode _ _ => (8, 0) | EndsPretence _ _ _ | AsksName _ _ => (7, 0)
  | AsksPretence _ _ => (6, 0) | AsksEntry _ _ _ => (5, 0) | Remembers _ _ _ _ _ | ListsNames _ => (4, 0)
  | AsksGeneration _ _ _ _ => (3, 0) | RemembersNames _ entries _ => (3, length entries)
  | FindsInode _ _ _ _ _ | RetainsListing _ _ => (2, 0)
  | RepliesEntry _ _ _ | RepliesAttr _ | RepliesListing _ | AsksReadName _ _ _ _ => (1, 0)
  | TakesBack _ | DropsListing _ | SpawnsOpen _ _ | SpawnsRead _ _ _ => (0, 0)
  end.

Lemma serve_goes_down m m' d accepted spawned :
  m_dispatch m = Some d → mount_step direntry_size (Serves accepted spawned) m = Some m' →
  m_dispatch m' = None ∨ ∃ d', m_dispatch m' = Some d' ∧ serving d' = serving d ∧
    slexprod _ _ lt lt (handler_stretch (handling d')) (handler_stretch (handling d)).
Proof.
  intros Hd Hstep. serve_leaves Hstep; simpl; autorewrite with mount; try (by left); right; eexists;
    (split; [done|]); injection Hd as <-; (split; [done|]); simpl; rewrite Heqh; simpl;
    try (apply left_slex; lia); try (destruct w; apply left_slex; lia). apply right_slex. lia.
Qed.

(** What is true of every state between here and there stays so. *)
Definition serves m m' : Prop := ∃ accepted spawned, mount_step direntry_size (Serves accepted spawned) m = Some m'.

Lemma serving_ends m d :
  sound_mount m → m_dispatch m = Some d → ∃ m', rtc serves m m' ∧ m_dispatch m' = None.
Proof.
  intros Hs Hd. remember (handler_stretch (handling d)) as x eqn:Ex. revert m d Hs Hd Ex.
  induction (wf_slexprod _ _ lt lt lt_wf lt_wf x) as [x _ IH]. intros m d Hs Hd ->.
  destruct (serve_can_go m d true true Hs Hd) as [m1 Hm1].
  assert (sound_mount m1) as Hs1 by by apply (step_sound_mount ok direntry_size (Serves true true) m).
  destruct (serve_goes_down m m1 d true true Hd Hm1) as [Hd1|(d1 & Hd1 & _ & Hlt)].
  - exists m1. split; [|done]. apply rtc_once. by eexists _, _.
  - destruct (IH _ Hlt m1 d1 Hs1 Hd1 eq_refl) as (m2 & Hrun & Hd2). exists m2. split; [|done].
    eapply rtc_l; [|done]. by eexists _, _.
Qed.
End serve.
