(* ===== verification/MountUnmount.v ===== *)
(** * The mount can always be unmounted

    Once requests are canceled each coroutine can come to its end, so that the
    destructor need wait for no more than calls of the tree's that stop when
    they are asked to. *)

From S2P Require Export MountServe.

Section unmount.
Context {T : Type} `{DirectoryTree T} (ok : T → Prop) `{!LawfulTree T ok}.
Variable direntry_size : str → nat.
Implicit Types m : Mount T.

Notation sound_mount := (sound_mount ok).
Notation mount_step := (mount_step direntry_size).

(** Steps that bring nothing new, and in which a call of the tree's stops. *)
Definition helps (e : mount_event T) : Prop :=
  match e with
  | Serves _ _ | OpenEnds _ StopsHere | ReadEnds _ StopsHere | TakeGoesForward _ | TakeEndsBadly _ false
  | GoesOn _ _ _ | PassGoesOn _ _ | Destroys => True
  | _ => False
  end.
Definition helped m m' : Prop := ∃ e, helps e ∧ mount_step e m = Some m'.

(** ** How far a coroutine has to go *)

Definition take_stretch (k : option Take) : nat :=
  match at_stage <$> k with
  | Some (Numbered _) => 5 | Some (Looked _ _) => 4 | Some (Comparing _ _ _) => 3 | Some (Reading _) => 2
  | Some (Made _) => 1 | _ => 0
  end.
Definition stretch_of (k : option Take) (p : Progress) : nat :=
  match p with
  | AwaitsTree => 20 | BeginsTake => 19 | AwaitsTake => 8 + take_stretch k | Chooses _ => 7
  | LetsGoOf _ _ => 6 | Retains _ => 5 | AsksAnnounced _ _ | IsHeld _ => 4 | RepliesOpen _ => 3 | Drops _ => 2
  | RepliesBytes _ | Fails _ => 1
  end.

Lemma take_can_go (s : FileSnapshots T) k x fresh :
  sound ok s → takes s !! k = Some x → match at_stage x with Reading _ | Finished _ => False | _ => True end →
  ∃ s' x', take_step k fresh s = Some s' ∧ takes s' !! k = Some x' ∧ take_stretch (Some x') < take_stretch (Some x).
Proof.
  intros Hs Hx Hst. destruct (last_version ok s Hs) as (t & Ht & _).
  assert (∀ st (s0 : FileSnapshots T), takes s0 = takes s → takes (moves k st s0) !! k = Some (with_stage st x)) as Hm.
  { intros st s0 E. rewrite <- E in Hx. by apply lookup_moves. }
  unfold take_step. rewrite Hx, Ht. simpl. unfold take_stretch at 2. simpl. destruct (at_stage x) eqn:Ex; try done.
  - destruct (file_status t (taken x)); eexists _, _; (split; [done|split; [by apply Hm|simpl; unfold take_stretch; simpl; lia]]).
  - destruct (m_current s !! taken x) as [a|]; [case_decide|];
      eexists _, _; (split; [done|split; [by apply Hm|simpl; unfold take_stretch; simpl; lia]]).
  - assert (is_Some (allocated s !! address)) as [f Hf].
    { destruct (so_takes ok s Hs k x Hx) as [Hok _]. unfold stage_ok in Hok. rewrite Ex in Hok.
      destruct Hok as (_ & _ & f & Hf & _). by eexists. }
    rewrite Hf. simpl. case_match; eexists _, _; (split; [done|split; [by apply Hm|simpl; unfold take_stretch; simpl; lia]]).
  - eexists _, _. split; [done|split; [by apply Hm|simpl; unfold take_stretch; simpl; lia]].
Qed.

(** ** One coroutine *)

(** The coroutine of [r] has gone on or ended, and nobody else has. *)
Record drives (r : nat) (x : Request) m m' : Prop := {
  dr_other : delete r (m_requests m') = delete r (m_requests m);
  dr_mine x' : m_requests m' !! r = Some x' → cancellation x' = cancellation x ∧
    stretch_of (takes (m_snapshots m') !! r) (progress x') < stretch_of (takes (m_snapshots m) !! r) (progress x);
  dr_dispatch : m_dispatch m' = m_dispatch m;
  dr_life : life m' = life m;
}.

Lemma drives_update r x p m m0 :
  m_requests m !! r = Some x → m_requests m0 = m_requests m → m_dispatch m0 = m_dispatch m → life m0 = life m →
  stretch_of (takes (m_snapshots m0) !! r) p < stretch_of (takes (m_snapshots m) !! r) (progress x) →
  drives r x m (update r p m0).
Proof.
  intros Hx Er Ed El Hlt. unfold update. constructor; simpl; try done; rewrite Er, (alter_insert _ _ _ x Hx).
  - by rewrite delete_insert_eq.
  - rewrite lookup_insert_eq. by intros x' [= <-].
Qed.

Lemma drives_finish r x m m0 :
  m_requests m !! r = Some x → m_requests m0 = m_requests m → m_dispatch m0 = m_dispatch m → life m0 = life m →
  drives r x m (finish r m0).
Proof.
  intros Hx Er Ed El. unfold finish. constructor; simpl; try done; rewrite Er.
  - by rewrite delete_delete_eq.
  - by rewrite lookup_delete_eq.
Qed.

Lemma awaits_take_can_go m r x ino name :
  sound_mount m → m_requests m !! r = Some x → asked x = OpenOf ino name → progress x = AwaitsTake →
  cancellation x ≠ 0%Z → ∃ e m', helps e ∧ mount_step e m = Some m' ∧ drives r x m m'.
Proof.
  intros Hs Hx Ha Hp Hc. pose proof (ho_requests ok m (sm_handles ok m Hs) r x Hx) as Hr. unfold request_ok in Hr.
  rewrite Ha, Hp in Hr. destruct Hr as (k & Hk & _ & _).
  assert (stretch_of (takes (m_snapshots m) !! r) (progress x) = 8 + take_stretch (Some k)) as Hst by by rewrite Hp, Hk.
  destruct (at_stage k) as [before|before i|before i a|before|a|[a|e]] eqn:Hstage.
  4: { exists (TakeEndsBadly r false), (update r (Fails ECANCELED) m). split_and!; [done| |].
       - simpl. unfold take_ends_badly, ends_badly. rewrite Hx, Hk. simpl. by rewrite Hp, Hstage, decide_False.
       - apply drives_update; try done. rewrite Hst. simpl. lia. }
  5: { exists (GoesOn r true true), (update r (Chooses a) m). split_and!; [done| |].
       - simpl. unfold go_on. rewrite Hx. simpl. rewrite Ha, Hp, Hk. simpl. by rewrite Hstage.
       - apply drives_update; try done. rewrite Hst. simpl. lia. }
  5: { exists (GoesOn r true true), (update r (Fails (to_errno e)) m). split_and!; [done| |].
       - simpl. unfold go_on. rewrite Hx. simpl. rewrite Ha, Hp, Hk. simpl. by rewrite Hstage.
       - apply drives_update; try done. rewrite Hst. simpl. lia. }
  all: destruct (take_can_go (m_snapshots m) r k (next_address m) (ho_sound ok m (sm_handles ok m Hs)) Hk)
    as (s' & k' & Hs' & Hk' & Hlt); [by rewrite Hstage|];
    exists (TakeGoesForward r), (count_address (set_snapshots s' m)); split_and!; [done| |].
  all: try (simpl; unfold take_goes_on; rewrite Hx; simpl; rewrite Hp, Hs'; done).
  all: constructor; simpl; try done; intros x'; rewrite Hx; intros [= <-]; (split; [done|]); rewrite Hk', Hp, Hk; simpl; lia.
Qed.

Lemma coroutine_can_go m r x :
  sound_mount m → notifier_ok m → life m ≠ Mounted → life m ≠ Unsubscribed → m_requests m !! r = Some x →
  cancellation x ≠ 0%Z → ∃ e m', helps e ∧ mount_step e m = Some m' ∧ drives r x m m'.
Proof.
  intros Hs Hn Hl1 Hl2 Hx Hc. pose proof (ho_requests ok m (sm_handles ok m Hs) r x Hx) as Hr. unfold request_ok in Hr.
  destruct (last_version ok _ (ho_sound ok m (sm_handles ok m Hs))) as (t & Ht & _).
  destruct (nt_destroyed m Hn Hl1 Hl2) as [_ Hheld].
  assert (m_stopping (m_notifier m) = true) as Hst by (rewrite (nt_stopping m Hn); by rewrite bool_decide_false).
  assert (∀ m', mount_step (GoesOn r true true) m = Some m' → drives r x m m' →
    ∃ e m', helps e ∧ mount_step e m = Some m' ∧ drives r x m m') as Hgo by (intros m'; by exists (GoesOn r true true), m').
  simpl in Hgo. unfold go_on in Hgo. rewrite Hx in Hgo. simpl in Hgo.
  destruct (asked x) as [ino name|name size offset] eqn:Ha; destruct (progress x) eqn:Hp; try done.
  all: try (eapply Hgo; [done|]; first [by apply drives_finish|apply drives_update; try done; rewrite Hp; simpl; lia]).
  - exists (OpenEnds r StopsHere), (update r (Fails ECANCELED) m). split_and!; [done| |].
    + simpl. unfold open_ends, ends_badly. rewrite Hx. simpl. by rewrite Ha, Hp, decide_False.
    + apply drives_update; try done. rewrite Hp. simpl. lia.
  - eapply Hgo; [simpl; by rewrite decide_True|]. apply drives_update; try done. rewrite Hp. simpl. rewrite lookup_insert_eq.
    unfold take_stretch. simpl. lia.
  - by apply (awaits_take_can_go m r x ino name).
  - destruct Hr as (f & Hf & _). assert (∃ v s i, version_for ino current (m_snapshots m) (m_inodes m) = Some (v, s, i)) as (v & s & i & E).
    { unfold version_for. rewrite Hf. simpl. repeat case_match; by eexists _, _, _. }
    rewrite E in Hgo. simpl in Hgo. eapply Hgo; [done|]. apply drives_update; try done. rewrite Hp. destruct v; simpl; lia.
  - eapply Hgo; [done|]. apply drives_update; try done. rewrite Hp. destruct version; simpl; lia.
  - destruct Hr as (f & Hf & _). rewrite Hf in Hgo. simpl in Hgo. eapply Hgo; [done|].
    apply drives_update; try done. rewrite Hp. simpl. lia.
  - unfold reply_when_announced in Hgo. rewrite Hst in Hgo. simpl in Hgo. eapply Hgo; [done|].
    apply drives_update; try done. rewrite Hp. simpl. lia.
  - assert (gate_at m r = Some (name, fh, Holding)) as Hg by (unfold gate_at; rewrite Hx; simpl; unfold gate_of; by rewrite Ha, Hp).
    apply (hd_holding _ _ _ (nt_held m Hn)) in Hg. rewrite Hheld in Hg. by apply elem_of_nil in Hg.
  - eapply Hgo; [done|]. apply drives_finish; try done; by autorewrite with mount.
  - exists (ReadEnds r StopsHere), (update r (Fails ECANCELED) m). split_and!; [done| |].
    + simpl. unfold read_ends, ends_badly. rewrite Hx. simpl. rewrite Ht. simpl. by rewrite Ha, Hp, decide_False.
    + apply drives_update; try done. rewrite Hp. simpl. lia.
Qed.

(** ** Everything is canceled *)

Definition canceling (l : Life) : bool := match l with Canceled | Joined | Unmounted => true | _ => false end.
Record canceled_ok m : Prop := {
  ca_canceled r x : canceling (life m) = true → m_requests m !! r = Some x → cancellation x ≠ 0%Z;
  ca_unmounted : life m = Unmounted → m_dispatch m = None ∧ m_requests m = ∅;
}.

Definition same_cancellation (rs rs' : gmap nat Request) : Prop :=
  ∀ r x', rs' !! r = Some x' → ∃ x, rs !! r = Some x ∧ (cancellation x ≠ 0%Z → cancellation x' ≠ 0%Z).

Lemma same_cancellation_refl rs : same_cancellation rs rs.
Proof. intros r x' Hx. by exists x'. Qed.

Lemma same_cancellation_alter f r rs :
  (∀ x, cancellation x ≠ 0%Z → cancellation (f x) ≠ 0%Z) → same_cancellation rs (alter f r rs).
Proof.
  intros Hf i x' Hx'. destruct (decide (r = i)) as [<-|]; [rewrite lookup_alter_eq in Hx'|rewrite lookup_alter_ne in Hx' by done; by exists x'].
  destruct (rs !! r) as [x|]; [|done]. injection Hx' as <-. exists x. split; [done|apply Hf].
Qed.

Lemma same_cancellation_delete r rs : same_cancellation rs (delete r rs).
Proof. intros i x' [_ Hx']%lookup_delete_Some. by exists x'. Qed.

Lemma same_cancellation_release l (rs : gmap nat Request) :
  same_cancellation rs (foldl (λ rs h, alter let_reply (held_request h) rs) rs l).
Proof.
  revert rs. induction l as [|h l IH]; intros rs; simpl; [apply same_cancellation_refl|].
  intros r x' Hx'. destruct (IH _ r x' Hx') as (x1 & Hx1 & H1).
  destruct (same_cancellation_alter let_reply (held_request h) rs) with (r := r) (x' := x1) as (x & Hx & H0); [|done|].
  - intros x. unfold let_reply. by destruct (progress x).
  - exists x. split; [done|]. intros Hc. by apply H1, H0.
Qed.

Lemma cancel_keeps cause x : (cause ≠ 0)%Z → cancellation (cancel_request cause x) ≠ 0%Z.
Proof. simpl. by case_decide. Qed.

Lemma same_cancellation_interrupt r x rs :
  rs !! r = Some x → same_cancellation rs (<[r := cancel_request EINTR x]> rs).
Proof.
  intros Hx. rewrite <- (alter_insert (cancel_request EINTR) rs r x Hx). apply same_cancellation_alter.
  intros y _. by apply cancel_keeps.
Qed.

(** Only the dispatcher makes requests, and only the destructor moves on. *)
Lemma step_cancellations e m m' :
  mount_step e m = Some m' → (∀ a s, e ≠ Serves a s) → e ≠ Destroys →
  same_cancellation (m_requests m) (m_requests m') ∧ life m' = life m.
Proof.
  intros Hstep Hserve Hdes. destruct e; try done; try (by destruct (Hserve accepted spawned));
    leaves Hstep; simpl; autorewrite with mount; (split; [|done]);
    first [apply same_cancellation_refl|apply same_cancellation_delete|apply same_cancellation_release
      |by apply same_cancellation_interrupt|by apply same_cancellation_alter].
Qed.

Lemma serve_cancellations accepted spawned m m' :
  mount_step (Serves accepted spawned) m = Some m' →
  life m' = life m ∧ m_dispatch m ≠ None ∧
  ∀ r x', m_requests m' !! r = Some x' → m_requests m !! r = Some x' ∨ (canceling (life m) = true → cancellation x' ≠ 0%Z).
Proof.
  intros Hstep. serve_leaves Hstep; simpl; autorewrite with mount; split_and!; try done; try (by left).
  all: intros r x' [[<- <-]|[_ ?]]%lookup_insert_Some; [right; simpl|by left].
  all: try case_decide; try done; destruct (life m); simpl; naive_solver.
Qed.

Lemma step_canceled_ok e m m' : canceled_ok m → mount_step e m = Some m' → canceled_ok m'.
Proof.
  intros [H1 H2] Hstep. destruct (decide (off_dispatch e)) as [He|He].
  - destruct (off_dispatch_keeps direntry_size e m m' He Hstep) as (Ed & _).
    assert (e = Destroys ∨ e ≠ Destroys) as [->|Hne] by (destruct e; try (by right); by left).
    + simpl in Hstep. unfold destroy in Hstep. destruct (life m) eqn:El;
        repeat break_match_hyp Hstep; try discriminate Hstep; injection Hstep as <-; constructor; try done; simpl.
      * intros r x _. rewrite lookup_fmap. destruct (m_requests m !! r); [|done]. intros [= <-]. by apply cancel_keeps.
    + destruct (step_cancellations e m m' Hstep) as [Hc El]; [by intros ? ? ->|done|]. constructor; rewrite El.
      * intros r x' Hl Hx'. destruct (Hc r x' Hx') as (x & Hx & Hcx). apply Hcx. by apply (H1 r).
      * intros Hl. destruct (H2 Hl) as [Hd Hnil]. rewrite Ed. split; [done|].
        apply map_empty. intros r. destruct (m_requests m' !! r) as [x'|] eqn:E; [|done].
        destruct (Hc r x' E) as (x & Hx & _). by rewrite Hnil, lookup_empty in Hx.
  - destruct e; try (by destruct He).
    + simpl in Hstep. case_decide as Hg; [|done]. injection Hstep as <-. constructor; [done|]. intros Hl. by destruct Hg as (_ & Hne & _).
    + destruct (serve_cancellations _ _ m m' Hstep) as (El & Hd & Hr). constructor; rewrite El.
      * intros r x' Hl Hx'. destruct (Hr r x' Hx') as [Hx|Hx]; [by apply (H1 r)|by apply Hx].
      * intros Hl. by destruct (H2 Hl).
Qed.

Lemma mounted_canceled_ok t : canceled_ok (mounted t).
Proof. by constructor. Qed.

(** ** To the end *)

Record closing m : Prop := {
  cl_sound : sound_mount m;
  cl_notifier : notifier_ok m;
  cl_canceled : canceled_ok m;
}.

Lemma step_closing e m m' : lawful ok e → closing m → mount_step e m = Some m' → closing m'.
Proof.
  intros He [H1 H2 H3] Hstep. assert (sound_mount m') as Hs' by by apply (step_sound_mount ok direntry_size e m).
  constructor; [done|by apply (step_notifier_ok ok direntry_size e m)|by apply (step_canceled_ok e m)].
Qed.

Lemma helps_lawful e : helps e → lawful ok e.
Proof. by destruct e. Qed.

Lemma helped_closing m m' : closing m → rtc helped m m' → closing m'.
Proof.
  intros Hc Hrun. induction Hrun as [|m m1 m2 (e & He & Hstep) _ IH]; [done|]. apply IH.
  by apply (step_closing e m); [apply helps_lawful|..].
Qed.

(** One coroutine comes to its end. *)
Lemma coroutine_ends m r x :
  closing m → canceling (life m) = true → m_requests m !! r = Some x →
  ∃ m', rtc helped m m' ∧ m_requests m' = delete r (m_requests m) ∧ m_dispatch m' = m_dispatch m ∧ life m' = life m.
Proof.
  remember (stretch_of (takes (m_snapshots m) !! r) (progress x)) as n eqn:En. revert m x En.
  induction (lt_wf n) as [n _ IH]. intros m x -> Hc Hl Hx.
  destruct (coroutine_can_go m r x) as (e & m1 & He & Hstep & [Hother Hmine Hd Hli]); try done;
    [apply Hc|apply Hc|by intros E; rewrite E in Hl|by intros E; rewrite E in Hl|by apply (ca_canceled m (cl_canceled m Hc) r)|].
  assert (closing m1) as Hc1 by (apply (step_closing e m); [by apply helps_lawful|done..]).
  assert (helped m m1) as Hh by by exists e.
  destruct (m_requests m1 !! r) as [x1|] eqn:Hx1.
  - destruct (Hmine x1 eq_refl) as [_ Hlt].
    destruct (IH _ Hlt m1 x1 eq_refl Hc1) as (m2 & Hrun & Er & Ed & El); [by rewrite Hli|done|].
    exists m2. split_and!; [by eapply rtc_l|congruence..].
  - exists m1. split_and!; [by apply rtc_once| |done..]. rewrite <- Hother. by rewrite delete_id.
Qed.

(** All of them do. *)
Lemma coroutines_end m :
  closing m → canceling (life m) = true →
  ∃ m', rtc helped m m' ∧ m_requests m' = ∅ ∧ m_dispatch m' = m_dispatch m ∧ life m' = life m.
Proof.
  remember (m_requests m) as rs eqn:Ers. revert m Ers.
  induction rs as [|r x rs Hr IH] using map_ind; intros m Ers Hc Hl; [by exists m|].
  destruct (coroutine_ends m r x Hc Hl) as (m1 & Hrun1 & Er & Ed1 & El1); [by rewrite <- Ers, lookup_insert_eq|].
  destruct (IH m1) as (m2 & Hrun2 & Er2 & Ed2 & El2).
  - by rewrite Er, <- Ers, delete_insert_eq, delete_id.
  - by eapply helped_closing.
  - by rewrite El1.
  - exists m2. split_and!; [by eapply rtc_trans|done|congruence..].
Qed.

Lemma serves_helped m m' : rtc (serves direntry_size) m m' → rtc helped m m'.
Proof. apply rtc_subrel. intros a b (accepted & spawned & E). by exists (Serves accepted spawned). Qed.

Lemma serves_life m m' : rtc (serves direntry_size) m m' → life m' = life m.
Proof.
  induction 1 as [|m m1 m2 (accepted & spawned & E) _ IH]; [done|]. rewrite IH. by eapply serve_cancellations.
Qed.

(** The dispatcher is left with nothing to do. *)
Lemma dispatch_ends m : closing m → ∃ m', rtc helped m m' ∧ m_dispatch m' = None ∧ life m' = life m.
Proof.
  intros Hc. destruct (m_dispatch m) as [d|] eqn:Hd; [|by exists m].
  destruct (serving_ends ok direntry_size m d (cl_sound m Hc) Hd) as (m' & Hrun & Hd').
  exists m'. split_and!; [by apply serves_helped|done|by apply serves_life].
Qed.

Lemma pass_goes_helped m m' : pass_goes direntry_size m m' → helped m m' ∧ life m' = life m ∧ m_dispatch m' = m_dispatch m.
Proof.
  intros (tid & pick & Hstep). split; [by exists (PassGoesOn tid pick)|]. split.
  - by apply (step_cancellations (PassGoesOn tid pick) m m' Hstep).
  - by apply (off_dispatch_keeps direntry_size (PassGoesOn tid pick) m).
Qed.

Lemma pass_stops m :
  closing m → ∃ m', rtc helped m m' ∧ m_pass m' = NoPass ∧ life m' = life m ∧ m_dispatch m' = m_dispatch m.
Proof.
  induction (pass_terminates direntry_size m) as [m _ IH]. intros Hc.
  assert (m_pass m = NoPass ∨ m_pass m ≠ NoPass) as [Hp|Hp] by (destruct (m_pass m); [by left|by right..]); [by exists m|].
  destruct (pass_can_go ok direntry_size m (cl_sound m Hc) (cl_notifier m Hc) Hp) as [m1 Hm1].
  destruct (pass_goes_helped m m1 Hm1) as (Hh & El & Ed).
  destruct (IH m1 Hm1) as (m2 & Hrun & Hp2 & El2 & Ed2); [eapply helped_closing; [done|by apply rtc_once]|].
  exists m2. split_and!; [by eapply rtc_l|done|congruence..].
Qed.

(** The destructor's next step can be taken, and what it takes for that. *)
Lemma destroy_goes_on m :
  closing m → m_dispatch m = None → life m ≠ Unmounted →
  ∃ m', rtc helped m m' ∧ m_dispatch m' = None ∧
    match life m with
    | Mounted => life m' = Unsubscribed | Unsubscribed => life m' = Unheld | Unheld => life m' = Canceled
    | Canceled => life m' = Joined | _ => life m' = Unmounted
    end.
Proof.
  intros Hc Hd Hl.
  assert (∀ m1 m2, rtc helped m m1 → mount_step Destroys m1 = Some m2 → rtc helped m m2) as Hgo.
  { intros m1 m2 Hrun E. eapply rtc_r; [done|]. by exists Destroys. }
  destruct (life m) eqn:El.
  - eexists. split; [eapply (Hgo m); [done|simpl; unfold destroy; by rewrite El]|done].
  - destruct (pass_stops m Hc) as (m1 & Hrun & Hp & El1 & Ed1).
    eexists. split; [eapply Hgo; [done|simpl; unfold destroy; by rewrite El1, El, Hp]|]. simpl. by rewrite Ed1.
  - eexists. split; [eapply (Hgo m); [done|simpl; unfold destroy; by rewrite El]|done].
  - destruct (coroutines_end m Hc) as (m1 & Hrun & Hr & Ed1 & El1); [by rewrite El|].
    eexists. split; [eapply Hgo; [done|simpl; unfold destroy; by rewrite El1, El, decide_True]|]. simpl. by rewrite Ed1.
  - destruct (coroutines_end m Hc) as (m1 & Hrun & Hr & Ed1 & El1); [by rewrite El|].
    eexists. split; [eapply Hgo; [done|simpl; unfold destroy; by rewrite El1, El, Ed1, Hd, decide_True]|]. simpl. by rewrite Ed1.
  - done.
Qed.

Definition to_unmount (l : Life) : nat :=
  match l with Mounted => 5 | Unsubscribed => 4 | Unheld => 3 | Canceled => 2 | Joined => 1 | Unmounted => 0 end.

Lemma unmounts m : closing m → ∃ m', rtc helped m m' ∧ life m' = Unmounted ∧ closing m'.
Proof.
  intros Hc. destruct (dispatch_ends m Hc) as (m0 & Hrun0 & Hd0 & _).
  assert (closing m0) as Hc0 by by eapply helped_closing.
  assert (∃ m', rtc helped m0 m' ∧ life m' = Unmounted) as (m' & Hrun & Hl).
  2: { exists m'. split_and!; [by eapply rtc_trans|done|by eapply helped_closing]. }
  clear Hrun0 Hc m. remember (to_unmount (life m0)) as n eqn:En. revert m0 En Hd0 Hc0.
  induction (lt_wf n) as [n _ IH]. intros m -> Hd Hc.
  destruct (decide (life m = Unmounted)) as [?|Hl]; [by exists m|].
  destruct (destroy_goes_on m Hc Hd Hl) as (m1 & Hrun1 & Hd1 & Hl1).
  assert (to_unmount (life m1) < to_unmount (life m)) as Hlt by (destruct (life m); try done; rewrite Hl1; simpl; lia).
  destruct (IH _ Hlt m1 eq_refl Hd1) as (m2 & Hrun2 & Hl2); [by eapply helped_closing|].
  exists m2. split; [by eapply rtc_trans|done].
Qed.

(** By then every request has been answered. *)
Lemma unmounted_answered m : closing m → life m = Unmounted → ∀ r, r < next_request m → r ∈ (m_replies m).*1.
Proof.
  intros [Hs _ Hca] Hl r Hr. destruct (ca_unmounted m Hca Hl) as [Hd Hnil].
  destruct (le_unanswered _ _ _ _ (sm_requests ok m Hs) r Hr) as [?|[Ho|Hse]]; [done| |].
  - by rewrite Hnil in Ho.
  - by rewrite Hd in Hse.
Qed.
End unmount.
