(* ===== verification/MountTold.v ===== *)
(** * What watchers are told

    What the notifier does, read off a run: the batches it takes, what it asks
    the tree, what it makes the mount pretend, and the calls it makes through
    the kernel. No change counts as announced unless these were done for it,
    in the order that makes the kernel raise the event. *)

From S2P Require Export MountPass.

(** ** What the notifier does *)

Inductive Deed :=
  | Took (latest : nat) (all : bool) (known : gmap path bool)
  | AskedTree (p : path) (kind : ChangeKind) (answer : expected error_code EntryInfo)
  | Knew (p : path) (directory : option bool)
  | AskedParent (p : path) (answer : expected error_code EntryInfo)
  | Pretended (p : path) (what : Pretence)
  | Called (p : path) (c : Call).

(** An announcement of [p]: what was done for it, by what the tree said of it.
    A new entry is made through the mount, which says there is none; a changed
    file is written to; nothing is to be told of a changed directory; and what
    is gone is removed through the mount, which says it is there as what the
    kernel has seen - unless the kernel has not seen it, or its directory went
    too. *)
Inductive announcement (p : path) : list Deed → Prop :=
  | ToldCreation i :
      announcement p [AskedTree p added (Value i); Pretended p absent; Called p (Makes (is_directory_info i))]
  | ToldChange f : announcement p [AskedTree p modified (Value (AFile f)); Called p Pokes]
  | NothingToTell d : announcement p [AskedTree p modified (Value (ADirectory d))]
  | ToldRemoval kind e (directory : bool) i :
      announcement p [AskedTree p kind (Unexpected e); Knew p (Some directory); AskedParent p (Value i);
                      Pretended p (if directory then present_directory else present_file); Called p (Removes directory)]
  | NeverSeen kind e : announcement p [AskedTree p kind (Unexpected e); Knew p None]
  | WentWithParent kind e directory e' :
      announcement p [AskedTree p kind (Unexpected e); Knew p (Some directory); AskedParent p (Unexpected e')].

Definition announced_in (p : path) (l : list Deed) : Prop := ∃ ds, announcement p ds ∧ ds `sublist_of` l.

(** The change numbered [g] of [p] was told: an announcement of [p] was made
    that began after it - or when all was to be announced, after it, the kernel
    had not seen [p]. *)
Definition told (l : list Deed) (p : path) (g : nat) : Prop :=
  ∃ before after latest all known, l = before ++ Took latest all known :: after ∧ g ≤ latest ∧
    (announced_in p after ∨ all = true ∧ known !! p = None).

Lemma announced_in_app p l l' : announced_in p l → announced_in p (l ++ l').
Proof. intros (ds & Hd & Hs). exists ds. split; [done|]. by apply sublist_inserts_r. Qed.
Lemma told_app l l' p g : told l p g → told (l ++ l') p g.
Proof.
  intros (b & a & la & all & known & -> & Hg & Hc). exists b, (a ++ l'), la, all, known.
  rewrite <- app_assoc. split; [done|]. split; [done|]. destruct Hc; [left; by apply announced_in_app|by right].
Qed.
Lemma told_le l p g g' : g' ≤ g → told l p g → told l p g'.
Proof. intros Hle (b & a & la & all & known & -> & Hg & Hc). exists b, a, la, all, known. split; [done|]. split; [lia|done]. Qed.

(** ** How far an announcement is *)

(** What has been done for [p] when the pass is about to do [a]. *)
Definition done_so_far (p : path) (kind : ChangeKind) (a : announcing) (ds : list Deed) : Prop :=
  match a with
  | AsksTree => ds = []
  | ForgetsKnown => ∃ e, ds = [AskedTree p kind (Unexpected e)]
  | AsksParent d => ∃ e, ds = [AskedTree p kind (Unexpected e); Knew p (Some d)]
  | Pretends (Makes d) => ∃ i, kind = added ∧ d = is_directory_info i ∧ ds = [AskedTree p kind (Value i)]
  | Pretends (Removes d) => ∃ e i, ds = [AskedTree p kind (Unexpected e); Knew p (Some d); AskedParent p (Value i)]
  | Pretends Pokes => False
  | CallsKernel (Makes d) => ∃ i, kind = added ∧ d = is_directory_info i ∧ ds = [AskedTree p kind (Value i); Pretended p absent]
  | CallsKernel (Removes d) => ∃ e i, ds = [AskedTree p kind (Unexpected e); Knew p (Some d); AskedParent p (Value i);
      Pretended p (if d then present_directory else present_file)]
  | CallsKernel Pokes => ∃ f, kind = modified ∧ ds = [AskedTree p kind (Value (AFile f))]
  | StopsPretending _ | RemembersMade _ | Marks => announcement p ds
  end.

(** A batch, against what has been done since it was taken. *)
Definition batch_told (b : Batch) (latest : nat) (all : bool) (known : gmap path bool) (waits : path → Prop)
    (after : list Deed) : Prop :=
  (∀ q g, gens b !! q = Some g → g ≤ latest) ∧
  ∀ e, everything b = Some e → all = true ∧ e ≤ latest ∧
    ∀ q, is_Some (known !! q) → is_Some (left b !! q) ∨ waits q ∨ announced_in q after.

Definition pass_told (a : Pass) (l : list Deed) : Prop :=
  match a with
  | Between b => ∃ before after latest all known, l = before ++ Took latest all known :: after ∧
      batch_told b latest all known (λ _, False) after
  | Announces p kind a b => ∃ before after latest all known ds, l = before ++ Took latest all known :: after ∧
      batch_told b latest all known (eq p) after ∧ done_so_far p kind a ds ∧ ds `sublist_of` after
  | _ => True
  end.

Section told.
Context {T : Type} `{DirectoryTree T} (ok : T → Prop) `{!LawfulTree T ok}.
Variable direntry_size : str → nat.
Implicit Types m : Mount T.

Notation sound_mount := (sound_mount ok).

(** What a step of the pass does, [m'] the mount after it. *)
Definition deeds_of (e : mount_event T) m m' : list Deed :=
  match e, m_pass m, m_pass m', last (versions (m_snapshots m)) with
  | PassGoesOn _ _, Looks, Between _, _ =>
      [Took (latest (m_snapshots m)) (m_everything_dirty (m_notifier m)) (m_known m)]
  | PassGoesOn _ _, Announces p kind AsksTree _, _, Some t => [AskedTree p kind (status t p)]
  | PassGoesOn _ _, Announces p _ ForgetsKnown _, _, _ => [Knew p (m_known m !! p)]
  | PassGoesOn _ _, Announces p _ (AsksParent _) _, _, Some t => [AskedParent p (status t (parent_path p))]
  | PassGoesOn _ _, Announces _ _ (Pretends _) _, _, _ => [Pretended (m_pretending m').1 (m_pretending m').2]
  | PassGoesOn _ _, Announces p _ (CallsKernel c) _, _, _ => [Called p c]
  | _, _, _, _ => []
  end.

Fixpoint deeds (es : list (mount_event T)) m : list Deed :=
  match es with
  | [] => []
  | e :: es' =>
      match mount_step direntry_size e m with
      | Some m' => deeds_of e m m' ++ deeds es' m'
      | None => []
      end
  end.

Lemma deeds_app es es' m m' :
  mount_run direntry_size es m = Some m' → deeds (es ++ es') m = deeds es m ++ deeds es' m'.
Proof.
  revert m. induction es as [|e es IH]; intros m; simpl; [by intros [= ->]|].
  destruct (mount_step direntry_size e m) as [m1|]; [|done]. simpl. intros Hrun. by rewrite (IH m1 Hrun), app_assoc.
Qed.

(** ** What holds throughout *)

Record told_ok m (l : list Deed) : Prop := {
  tl_announced p g : 0 < g → g ≤ announced p (m_notifier m) → told l p g;
  tl_pass : pass_told (m_pass m) l;
}.

Lemma other_step e m m' :
  notifier_ok m → handles_ok ok m → mount_step direntry_size e m = Some m' → (∀ tid pick, e ≠ PassGoesOn tid pick) →
  deeds_of e m m' = [] ∧ (∀ p, announced p (m_notifier m') = announced p (m_notifier m)) ∧
  (m_pass m' = m_pass m ∨ nameless (m_pass m') = true).
Proof.
  intros Hn Hh Hstep Hne. split; [by destruct e; try done; destruct (Hne tid pick)|].
  destruct (at_gate e) eqn:He.
  2: { destruct (aside_keeps direntry_size e m m' He Hstep) as (-> & -> & _). auto. }
  destruct e; try done.
  - simpl in Hstep. case_decide; [|done]. unfold on_tree_changed in Hstep.
    destruct (m_stopping (m_notifier m)); [injection Hstep as <-; simpl; auto|].
    destruct (start_notifying _ _) as [started n] eqn:Est. injection Hstep as <-.
    destruct (queue_change_same d (m_notifier m)) as (_ & _ & _ & Qa & _).
    apply start_notifying_spec in Est as (_ & _ & Ean & _).
    destruct started; simpl; (split; [intros p; by rewrite Ean, Qa|auto]).
  - destruct (goes_on_gates ok direntry_size r accepted spawned m m' Hh Hstep)
      as [En Ep _ _ _ _|sp name fh g now started n' _ Hgate _ En Ep _ _]; [rewrite En, Ep; auto|].
    rewrite En, Ep. split; [|by destruct started; auto].
    unfold reply_when_announced in Hgate. destruct (negb _ && _); [|by injection Hgate as _ _ <-].
    injection Hgate as _ Hst. by apply start_notifying_spec in Hst as (_ & _ & Ean & _).
  - by destruct (Hne tid pick).
  - simpl in Hstep. unfold pass_fails in Hstep. repeat break_match_hyp Hstep; try discriminate Hstep; injection Hstep as <-; simpl; auto.
  - simpl in Hstep. unfold destroy in Hstep. repeat break_match_hyp Hstep; try discriminate Hstep; injection Hstep as <-; simpl; auto.
Qed.

(** *** Steps of a pass *)

Lemma mark_told p g l n n' ds :
  mark_announced p g n = (l, n') → (∀ q i, 0 < i → i ≤ announced q n → told ds q i) →
  (match p with Some p' => told ds p' g | None => ∀ q, told ds q g end) →
  ∀ q i, 0 < i → i ≤ announced q n' → told ds q i.
Proof.
  intros (_ & _ & _ & _ & Ean & _)%mark_announced_spec Hn Hp q i Hi. rewrite Ean. destruct p as [p|].
  - case_decide as E; [subst q|by apply Hn]. intros Hle.
    destruct (decide (i ≤ announced p n)); [by apply Hn|]. apply (told_le _ _ g); [lia|done].
  - intros Hle. destruct (decide (i ≤ announced q n)); [by apply Hn|]. apply (told_le _ _ g); [lia|done].
Qed.

Lemma same_told m m' l ds :
  told_ok m l → (∀ p, announced p (m_notifier m') = announced p (m_notifier m)) → pass_told (m_pass m') (l ++ ds) →
  told_ok m' (l ++ ds).
Proof.
  intros [H1 _] Ean Hp. constructor; [|done]. intros p g Hg. rewrite Ean. intros Hle. by apply told_app, H1.
Qed.

Lemma batch_told_app b la all known (W W' : path → Prop) after ds :
  (∀ q, W q → W' q ∨ announced_in q (after ++ ds)) →
  batch_told b la all known W after → batch_told b la all known W' (after ++ ds).
Proof.
  intros HW [H1 H2]. split; [done|]. intros e He. destruct (H2 e He) as (Ha & Hle & Hk). split_and!; [done..|].
  intros q Hq. destruct (Hk q Hq) as [?|[?|?]]; [by left|right; by apply HW|right; right; by apply announced_in_app].
Qed.

(** An announcement goes on: [ds] is done, and then [a'] is to be. *)
Lemma announcing_told p kind a a' b l ds :
  pass_told (Announces p kind a b) l →
  (∀ done, done_so_far p kind a done → ∃ done', done_so_far p kind a' done' ∧ done' `sublist_of` done ++ ds) →
  pass_told (Announces p kind a' b) (l ++ ds).
Proof.
  intros (bf & af & la & all & known & d & -> & Hb & Hd & Hs) Ha. destruct (Ha d Hd) as (d' & Hd' & Hs').
  exists bf, (af ++ ds), la, all, known, d'. rewrite <- app_assoc. split; [done|]. split_and!; [|done|].
  - eapply batch_told_app; [|done]. auto.
  - etrans; [done|]. by apply sublist_app.
Qed.

Lemma announce_told p kind a b m m' l tid pick :
  m_pass m = Announces p kind a b → announce p kind a b m = Some m' → notifier_ok m → told_ok m l →
  told_ok m' (l ++ deeds_of (PassGoesOn tid pick) m m').
Proof.
  intros Ep Hstep Hn Hl. pose proof (tl_pass _ _ Hl) as Hp. rewrite Ep in Hp.
  unfold deeds_of, announce, mbind, option_bind in *. rewrite Ep.
  destruct (last (versions (m_snapshots m))) as [t|]; [|done].
  assert (∀ a' m1, m' = set_pass (Announces p kind a' b) (m_notifier_tid m) m1 → m_notifier m1 = m_notifier m →
    ∀ ds, (∀ done, done_so_far p kind a done → ∃ done', done_so_far p kind a' done' ∧ done' `sublist_of` done ++ ds) →
    told_ok m' (l ++ ds)) as Hgo.
  { intros a' m1 -> En ds Ha. eapply same_told; [done|simpl; by rewrite En|]. simpl. by eapply announcing_told. }
  destruct a as [| |d|c|c|c|d|]; try (injection Hstep as Em).
  - eapply Hgo; [done|done|]. simpl. intros ? ->. exists [AskedTree p kind (status t p)]. split; [|done].
    unfold after_status. destruct (status t p) as [i|e]; [|by exists e]. destruct kind; simpl; [|by exists i].
    destruct i; simpl; [by eexists|constructor].
  - eapply Hgo; [done|done|]. simpl. intros ? (e & ->). unfold after_forgetting.
    destruct (m_known m !! p); simpl; (eexists; split; [|done]); [eauto|constructor].
  - eapply Hgo; [done|done|]. simpl. intros ? (e & ->). unfold after_parent.
    destruct (status t (parent_path p)); simpl; (eexists; split; [|done]); [eauto|constructor].
  - eapply Hgo; [done|done|]. rewrite <- Em. simpl. destruct c as [d|d|]; simpl; [..|done].
    + intros ? (i & -> & -> & ->). eexists. split; [|done]. eauto.
    + intros ? (e & i & ->). eexists. split; [|done]. destruct d; eauto.
  - eapply Hgo; [done|done|]. destruct c as [d|d|]; simpl.
    + intros ? (i & -> & -> & ->). eexists. split; [|done]. constructor.
    + intros ? (e & i & ->). eexists. split; [|done]. constructor.
    + intros ? (f & -> & ->). eexists. split; [|done]. constructor.
  - eapply Hgo; [done|done|]. intros d Hd. exists d. rewrite app_nil_r. split; [|done]. by destruct c.
  - eapply Hgo; [done|done|]. intros d' Hd. exists d'. by rewrite app_nil_r.
  - rewrite app_nil_r. destruct (gens b !! p) as [g|] eqn:Hg; [|done]. injection Hstep as <-.
    destruct Hp as (bf & af & la & all & known & ds & -> & Hb & Hd & Hs).
    assert (announced_in p af) as Hin by by exists ds.
    unfold marks. destruct (mark_announced (Some p) g (m_notifier m)) as [x n] eqn:Em.
    constructor; simpl.
    + eapply mark_told; [done|apply Hl|]. exists bf, af, la, all, known. split_and!; [done|by apply (proj1 Hb p)|by left].
    + exists bf, af, la, all, known. split; [done|]. rewrite <- (app_nil_r af).
      eapply batch_told_app; [|done]. intros ? <-. right. by rewrite app_nil_r.
Qed.

Lemma pass_step_told tid pick m m' l :
  sound_mount m → notifier_ok m → told_ok m l → mount_step direntry_size (PassGoesOn tid pick) m = Some m' →
  told_ok m' (l ++ deeds_of (PassGoesOn tid pick) m m').
Proof.
  intros Hs Hn Hl Hstep. simpl in Hstep. pose proof (tl_pass _ _ Hl) as Hp.
  unfold pass_step in Hstep. destruct (m_pass m) as [| | |b|p kind a b] eqn:Ep; [done|..|by eapply announce_told].
  - case_decide; [done|]. injection Hstep as <-. by apply (same_told m).
  - destruct (so_numbers ok _ (ho_sound ok m (sm_handles ok m Hs))) as [Hnum1 Hnum2].
    destruct (take_batch _ _ _ _) as [[b n]|] eqn:Eb; injection Hstep as <-.
    + assert (∀ q, announced q n = announced q (m_notifier m)) as Ean.
      { revert Eb. unfold take_batch. repeat case_match; by intros [= <- <-]. }
      apply (same_told m); [done|done|]. unfold deeds_of. rewrite Ep. simpl.
      exists l, [], (latest (m_snapshots m)), (m_everything_dirty (m_notifier m)), (m_known m). split; [done|].
      assert (∀ (c : Changes) q g, map_imap (λ p _, Some (generation_of (m_snapshots m) p)) c !! q = Some g →
        g ≤ latest (m_snapshots m)) as Hgen.
      { unfold Changes. intros c q g. rewrite map_lookup_imap. destruct (c !! q); simpl; [|done]. intros [= <-]. by apply generation_latest. }
      revert Eb. unfold take_batch. destruct (m_stopping _); [done|]. destruct (m_everything_dirty _).
      * intros [= <- <-]. split; [by apply Hgen|]. simpl. intros e [= <-]. split_and!; [done|lia|].
        intros q [d Hq]. left. unfold Changes. rewrite lookup_fmap. exists modified. by rewrite Hq.
      * case_decide; [done|]. intros [= <- <-]. split; [by apply Hgen|done].
    + unfold deeds_of. rewrite Ep. simpl. by apply (same_told m).
  - unfold deeds_of. rewrite Ep, app_nil_r. case_decide as El.
    + destruct Hp as (bf & af & la & all & known & -> & Hg & He).
      destruct (everything b) as [e|] eqn:Ev; injection Hstep as <-.
      * destruct (He e eq_refl) as (-> & Hle & Hk). unfold marks. destruct (mark_announced _ _ _) as [x n] eqn:Em.
        constructor; [|done]. simpl. eapply mark_told; [done|apply Hl|]. intros q.
        exists bf, af, la, true, known. split_and!; [done..|]. destruct (known !! q) eqn:Eq; [left|by right].
        destruct (Hk q) as [Hq|[[]|?]]; [by eexists| |done]. rewrite El in Hq. destruct Hq as [? Hq].
        unfold Changes in Hq. by rewrite lookup_empty in Hq.
      * constructor; [apply Hl|done].
    + unfold mbind, option_bind in Hstep. destruct (left b !! pick) as [kind|] eqn:Hk; [|done]. injection Hstep as <-.
      constructor; [apply Hl|]. simpl.
      destruct Hp as (bf & af & la & all & known & -> & Hg & He). exists bf, af, la, all, known, [].
      split_and!; [done| |done|apply sublist_nil_l]. split; [done|]. simpl. intros e Ee.
      destruct (He e Ee) as (Ha & Hle & Hq). split_and!; [done..|]. intros q [[x Hx]|[[]|?]]%Hq; [|by right; right].
      destruct (decide (pick = q)) as [->|Hne]; [by right; left|]. left. exists x. unfold Changes in *. by rewrite lookup_delete_ne.
Qed.

(** *** Every run *)

Lemma step_told e m m' l :
  sound_mount m → notifier_ok m → told_ok m l → mount_step direntry_size e m = Some m' → told_ok m' (l ++ deeds_of e m m').
Proof.
  intros Hs Hn Hl Hstep. assert ((∃ tid pick, e = PassGoesOn tid pick) ∨ ∀ tid pick, e ≠ PassGoesOn tid pick) as [(tid & pick & ->)|Hne]
    by (destruct e; eauto).
  - by apply pass_step_told.
  - destruct (other_step e m m' Hn (sm_handles ok m Hs) Hstep Hne) as (-> & Ean & Hp).
    apply (same_told m); [done..|]. rewrite app_nil_r. destruct Hp as [->|Hp]; [apply Hl|by destruct (m_pass m')].
Qed.

Lemma run_told es m m' l :
  Forall (lawful ok) es → sound_mount m → notifier_ok m → told_ok m l → mount_run direntry_size es m = Some m' →
  told_ok m' (l ++ deeds es m).
Proof.
  intros Hes. revert m l. induction Hes as [|e es He Hes IH]; intros m l Hs Hn Hl; simpl.
  { intros [= <-]. by rewrite app_nil_r. }
  destruct (mount_step direntry_size e m) as [m1|] eqn:E; [|done]. simpl. intros Hrun.
  assert (sound_mount m1) as Hs1 by by eapply step_sound_mount.
  rewrite app_assoc. apply IH; [done|by apply (step_notifier_ok ok direntry_size e m)|by apply step_told|done].
Qed.

Lemma mounted_told t : told_ok (mounted t) [].
Proof.
  constructor; [|done]. intros p g Hg. unfold announced. simpl. rewrite lookup_empty. simpl. lia.
Qed.
Lemma unfailing_all_lawful es : Forall (unfailing ok) es → Forall (lawful ok) es.
Proof. intros Hes. eapply Forall_impl; [done|]. by intros e [He _]. Qed.

Lemma told_from_the_start t es m p g :
  ok t → Forall (lawful ok) es → mount_run direntry_size es (mounted t) = Some m →
  0 < g → g ≤ announced p (m_notifier m) → told (deeds es (mounted t)) p g.
Proof.
  intros Ht Hes Hrun Hg. apply (tl_announced m (deeds es (mounted t))); [|done].
  apply (run_told es (mounted t) m []); [done|by apply mounted_sound|apply mounted_notifier_ok|apply mounted_told|done].
Qed.

Lemma mount_run_app es es' m :
  mount_run direntry_size (es ++ es') m = mount_run direntry_size es m ≫= mount_run direntry_size es'.
Proof.
  revert m. induction es as [|e es IH]; intros m; simpl; [done|].
  destruct (mount_step direntry_size e m); [simpl; apply IH|done].
Qed.

Lemma pass_goes_run m m' :
  rtc (pass_goes direntry_size) m m' →
  ∃ es, Forall (λ e, ∃ tid pick, e = PassGoesOn tid pick) es ∧ mount_run direntry_size es m = Some m'.
Proof.
  induction 1 as [m|m m1 m' (tid & pick & Hstep) _ (es & Hes & Hrun)]; [by exists []|].
  exists (PassGoesOn tid pick :: es). split; [constructor; eauto|]. cbn [mount_run]. by rewrite Hstep.
Qed.

(** Where an open is at the gate, and what its request is at. *)
Definition at_the_gate (y : Gate) (fh : nat) : Progress :=
  match y with Asking g => AsksAnnounced fh g | Holding => IsHeld fh | Replying => RepliesOpen fh end.
Lemma gate_of_request m r x ino name y :
  m_requests m !! r = Some x → asked x = OpenOf ino name → y.1.1 = name → progress x = at_the_gate y.2 y.1.2 →
  gate_at m r = Some y.
Proof.
  intros Hx Ha <- Hp. unfold gate_at. rewrite Hx. simpl. unfold gate_of. rewrite Ha, Hp.
  by destruct y as [[? ?] []].
Qed.
Lemma request_of_gate m r name fh y :
  gate_at m r = Some (name, fh, y) →
  ∃ x ino, m_requests m !! r = Some x ∧ asked x = OpenOf ino name ∧ progress x = at_the_gate y fh.
Proof.
  unfold gate_at. destruct (m_requests m !! r) as [x|]; [|done]. simpl. unfold gate_of.
  destruct (asked x) as [ino n|] eqn:Ha; [|done]. destruct (progress x) eqn:Hp; try done; intros [= <- <- <-]; by exists x, ino.
Qed.
End told.
