(* ===== verification/MountSpec.v ===== *)
(** * What the mount promises

    The properties of the virtual file system, over every run of the kernel,
    the tree and the mount's own threads. *)

From S2P Require Export InMemoryTreeSpec MountUnmount MountTold.

(** ** Listings *)

Section listings.
Variable direntry_size : str → nat.

Definition room_for (page : list str) : nat := sum_list (direntry_size <$> page).

(** A page is what fits of what is left. *)
Lemma fill_prefix room i names :
  ∃ k, k ≤ length names ∧ fill direntry_size room i names = zip (take k names) (seq (S i) k) ∧
    room_for (take k names) ≤ room ∧ (k = 0 → ∀ n, head names = Some n → room < direntry_size n).
Proof.
  revert room i. induction names as [|n names IH]; intros room i; simpl.
  - exists 0. split_and!; [lia|done|unfold room_for; simpl; lia|done].
  - case_decide as Hn.
    + exists 0. split_and!; [lia|done|unfold room_for; simpl; lia|]. by intros _ ? [= <-].
    + destruct (IH (room - direntry_size n) (S i)) as (k & Hk & E & Hroom & _). exists (S k).
      unfold room_for in *. simpl. split_and!; [lia|by rewrite E| |done]. unfold fmap in Hroom. lia.
Qed.

Lemma last_zip_seq {A} (l : list A) i k x j :
  length l = k → last (zip l (seq i k)) = Some (x, j) → S j = i + k ∧ 0 < k.
Proof.
  revert i k. induction l as [|y l IH]; intros i k <-; simpl; [done|].
  destruct l as [|z l]; [intros [= _ <-]; simpl; lia|]. intros E.
  destruct (IH (S i) _ eq_refl E) as [H1 H2]. simpl in *. lia.
Qed.

Lemma list_all_from fuel size offset names :
  (∀ n, n ∈ names → direntry_size n ≤ size) → length names - offset < fuel →
  list_all direntry_size fuel size offset names = skipn offset names.
Proof.
  intros Hfit. revert offset. induction fuel as [|fuel IH]; intros offset Hf; [lia|]. simpl. unfold readdir.
  destruct (fill_prefix size offset (skipn offset names)) as (k & Hk & E & _ & Hnone). rewrite E.
  rewrite length_drop in Hk.
  assert (length (take k (skipn offset names)) = k) as Hlen by (rewrite length_take, length_drop; lia).
  destruct (last (zip _ _)) as [[x j]|] eqn:El.
  - apply last_zip_seq in El as [Hj Hpos]; [|done]. assert (j = offset + k) as -> by lia.
    rewrite IH by lia. rewrite fst_zip by (rewrite length_seq; lia). rewrite <- drop_drop. apply take_drop.
  - apply last_None in El. assert (k = 0) as ->.
    { apply (f_equal length) in El. rewrite length_zip_with, length_seq in El. simpl in El. lia. }
    destruct (skipn offset names) as [|n l] eqn:Ed; [done|]. exfalso.
    assert (direntry_size n ≤ size); [|specialize (Hnone eq_refl n eq_refl); lia].
    apply Hfit. apply (list_elem_of_lookup_2 _ offset). assert (skipn offset names !! 0 = Some n) as Hn by by rewrite Ed.
    rewrite lookup_drop in Hn. by rewrite Nat.add_0_r in Hn.
Qed.
End listings.

(** A read is what there is of what was asked for. *)
Lemma slice_spec content size offset : slice content size offset = take size (skipn offset content).
Proof.
  unfold slice. destruct (decide (offset ≤ length content)) as [Ho|Ho].
  - rewrite (Nat.min_r (length content)) by lia. destruct (decide (size ≤ length content - offset)) as [Hs|Hs].
    + by rewrite Nat.min_l by lia.
    + rewrite Nat.min_r by lia. rewrite !take_ge by (rewrite length_drop; lia). done.
  - rewrite (Nat.min_l (length content)), Nat.sub_diag, Nat.min_0_r by lia. rewrite (drop_ge content offset) by lia. by rewrite take_nil.
Qed.

Section spec.
Context {T : Type} `{DirectoryTree T} (ok : T → Prop) `{!LawfulTree T ok}.
Variable direntry_size : str → nat.
Implicit Types m : Mount T.

Notation mount_run := (mount_run direntry_size).
Notation mount_step := (mount_step direntry_size).

Lemma mount_run_closing t es m :
  ok t → Forall (lawful ok) es → mount_run es (mounted t) = Some m → sound_mount ok m ∧ notifier_ok m ∧ closing ok m.
Proof.
  intros Ht Hes Hrun.
  assert (closing ok (mounted t)) as Hc.
  { constructor; [by apply mounted_sound|apply mounted_notifier_ok|apply mounted_canceled_ok]. }
  assert (closing ok m) as Hcl.
  { revert Hc Hrun. generalize (mounted t). induction Hes as [|e es He Hes IH]; intros m0 Hc; simpl; [by intros [= <-]|].
    destruct (mount_step e m0) as [m1|] eqn:E; [|done]. simpl. apply IH. by apply (step_closing ok direntry_size e m0). }
  split_and!; [apply Hcl..|done].
Qed.

(** C12. The mount knows an inode exactly as long as the kernel may use it: a node's
    lookups are those the kernel has, and has not forgotten, and those on
    their way to it or back; the names given inodes are their own; and a
    handler that looks an inode up finds it. *)
Theorem inodes_are_the_kernels t es m :
  mount_run es (mounted t) = Some m →
  (∀ ino, ino ≠ FUSE_ROOT_ID → lookups_of (m_inodes m) ino = kernel_count m ino + in_flight (m_dispatch m) ino) ∧
  (∀ ino, is_Some (m_paths (m_inodes m) !! ino) ↔
     ino = FUSE_ROOT_ID ∨ 0 < kernel_count m ino + in_flight (m_dispatch m) ino) ∧
  (∀ p ino, m_ids (m_inodes m) !! p = Some ino → path_of ino (m_inodes m) = Some p) ∧
  (∀ d ino, m_dispatch m = Some d → needs_inode (handling d) = Some ino → is_Some (path_of ino (m_inodes m))).
Proof.
  intros Hrun. destruct (run_inodes_ok direntry_size es _ m (mounted_inodes_ok t) Hrun) as [Hw Hc Hn]. split_and!.
  - done.
  - intros ino. destruct (decide (ino = FUSE_ROOT_ID)) as [->|Hne].
    + split; [by left|]. intros _. pose proof (wn_root _ Hw) as Hr. unfold path_of in Hr.
      destruct (m_paths _ !! _); [by eexists|done].
    + rewrite (present_counted _ ino Hw), Hc by done. naive_solver.
  - apply (wn_ids _ Hw).
  - intros d ino Hd Hi. destruct (Hn d ino Hd Hi) as [x Hx]. unfold path_of. rewrite Hx. by eexists.
Qed.

(** A handle is there exactly while one of the kernel, the dispatcher and a
    coroutine has it, and never two of them; a handle's snapshot is there as
    long as the handle is, and holds as many references as handles and
    coroutines have to it. *)
Theorem handles_are_owned_once t es m :
  ok t → Forall (lawful ok) es → mount_run es (mounted t) = Some m →
  (∀ fh, 1 ≤ fh → owners m fh ≤ 1 ∧ (is_Some (m_handles (m_open m) !! fh) ↔ owners m fh = 1)) ∧
  (∀ fh h a, m_handles (m_open m) !! fh = Some h → handle_snapshot h = Some a → snapshot_at m a (handle_path h)) ∧
  (∀ a, holders_of (m_snapshots m) a = taking (m_snapshots m) a + references m a) ∧
  (∀ d fh, m_dispatch m = Some d → needs_handle (handling d) = Some fh → is_Some (m_handles (m_open m) !! fh)).
Proof.
  intros Ht Hes Hrun. destruct (mount_run_closing t es m Ht Hes Hrun) as [[_ _ Hok _] _].
  assert (∀ fh, 1 ≤ fh → owners m fh ≤ 1 ∧ (is_Some (m_handles (m_open m) !! fh) ↔ owners m fh = 1)) as Hown.
  { intros fh Hfh. rewrite (ho_owners ok m Hok fh Hfh). unfold count_if. case_decide; naive_solver lia. }
  split_and!; [done|apply (ho_paths ok m Hok)|apply (ho_counts ok m Hok)|].
  intros d fh Hd Hn. pose proof (ho_needed ok m Hok d fh Hd Hn) as Hk.
  assert (1 ≤ fh) as Hfh. { destruct fh; [|lia]. by destruct (ho_zero ok m Hok). }
  apply (Hown fh Hfh). destruct (Hown fh Hfh) as [Hle _]. unfold owners in *. rewrite (count_if_true _ Hk) in *. lia.
Qed.

(** C4. No request is answered twice. One that has not been answered is with the
    dispatcher or with a coroutine; the dispatcher can always go on, and is
    done with what it has after some steps of its own. *)
Theorem requests_are_answered_once t es m :
  ok t → Forall (lawful ok) es → mount_run es (mounted t) = Some m →
  NoDup (m_replies m).*1 ∧
  (∀ r, r < next_request m → r ∈ (m_replies m).*1 ∨
     (∃ d, m_dispatch m = Some d ∧ serving d = r ∧ owes_reply (handling d) = true) ∨
     (∃ x, m_requests m !! r = Some x ∧ owes_answer (progress x) = true)) ∧
  (∀ d accepted spawned, m_dispatch m = Some d → is_Some (mount_step (Serves accepted spawned) m)) ∧
  ∃ m', rtc (serves direntry_size) m m' ∧ m_dispatch m' = None.
Proof.
  intros Ht Hes Hrun. destruct (mount_run_closing t es m Ht Hes Hrun) as [Hs _].
  pose proof (sm_requests ok m Hs) as Hl. split_and!.
  - apply (le_once _ _ _ _ Hl).
  - intros r Hr. destruct (le_unanswered _ _ _ _ Hl r Hr) as [?|[Ho|Hse]]; [by left|right; right|right; left].
    + unfold owing_of in Ho. rewrite lookup_fmap in Ho. destruct (m_requests m !! r) as [x|]; [|done].
      injection Ho as Ho. by exists x.
    + unfold serving_of in Hse. destruct (m_dispatch m) as [d|]; [|done]. injection Hse as <- Ho. by exists d.
  - intros d accepted spawned Hd. destruct (serve_can_go ok direntry_size m d accepted spawned Hs Hd) as [m' ->]. by eexists.
  - destruct (m_dispatch m) as [d|] eqn:Hd; [|by exists m]. by apply (serving_ends ok direntry_size m d).
Qed.

Lemma kernel_handle_there m fh : handles_ok ok m → fh ∈ kernel_handles (kernel m) → is_Some (m_handles (m_open m) !! fh).
Proof.
  intros Hok Hk. assert (1 ≤ fh) as Hfh. { destruct fh; [|lia]. by destruct (ho_zero ok m Hok). }
  apply (owned_exists ok m fh Hok Hfh). unfold owners. rewrite (count_if_true _ Hk). lia.
Qed.

(** C3. An open file is one version of it for as long as it is open: whatever
    becomes of the tree, of other opens and of the inode, each read through
    the handle gives what was asked for of the bytes one state of the tree had,
    and its attributes are of those bytes; a directory's listing stays what it
    was when it was opened, and pages of it, read until one is empty, give
    every name once and in order if no name is bigger than a page. *)
Theorem open_files_never_change t es m es' m' fh h :
  ok t → Forall (lawful ok) es → mount_run es (mounted t) = Some m →
  m_handles (m_open m) !! fh = Some h →
  Forall (lawful ok) es' → mount_run es' m = Some m' → fh ∈ kernel_handles (kernel m') →
  (∀ a f, handle_snapshot h = Some a → allocated (m_snapshots m) !! a = Some f →
     (∃ u, u ∈ versions (m_snapshots m) ∧ read_from f u) ∧
     ∀ d ino accepted spawned, m_dispatch m' = Some d →
     (∀ size offset, handling d = Begins (Read ino size offset fh) →
        mount_step (Serves accepted spawned) m' =
          Some (reply_with (ReplyBytes (take size (skipn offset (snapshot_bytes f)))) d m')) ∧
     (handling d = Begins (GetAttr ino fh) →
        mount_step (Serves accepted spawned) m' =
          Some (handle_next (RepliesAttr (with_ino ino (file_attributes (snapshot_info f)))) d m'))) ∧
  (∀ d size offset accepted spawned, m_dispatch m' = Some d → handling d = Begins (Readdir size offset fh) →
     mount_step (Serves accepted spawned) m' =
       Some (reply_with (ReplyListing (readdir direntry_size size offset (handle_names h))) d m')) ∧
  (∀ size, (∀ n, n ∈ handle_names h → direntry_size n ≤ size) →
     list_all direntry_size (S (length (handle_names h))) size 0 (handle_names h) = handle_names h).
Proof.
  intros Ht Hes Hrun Hh Hes' Hrun' Hk. destruct (mount_run_closing t es m Ht Hes Hrun) as [Hs _].
  assert (sound_mount ok m') as Hs' by by apply (run_sound_mount ok direntry_size es' m).
  destruct (kernel_handle_there m' fh (sm_handles ok m' Hs') Hk) as [h' Hh'].
  assert (fh ≤ m_last_handle (m_open m)) as Hle by (apply (ho_numbers ok m (sm_handles ok m Hs)); by eexists).
  assert (∀ a f, m_handles (m_open m) !! fh = Some h' ∧
    (handle_snapshot h' = Some a → allocated (m_snapshots m) !! a = Some f → allocated (m_snapshots m') !! a = Some f)) as Hback.
  { intros a f. by apply (run_handles_back ok direntry_size es' m). }
  assert (h' = h) as -> by (destruct (Hback 0 {| snapshot_path := root; snapshot_bytes := []; snapshot_mtime := 0; generation := 0 |}) as [E _]; congruence).
  assert (∃ u, last (versions (m_snapshots m')) = Some u) as [u Hu].
  { destruct (last_version ok _ (ho_sound ok m' (sm_handles ok m' Hs'))) as (u & Hu & _). by exists u. }
  split_and!.
  - intros a f Ha Hf. split; [apply (so_allocated ok _ (ho_sound ok m (sm_handles ok m Hs)) a f Hf)|].
    destruct (Hback a f) as [_ Hkeep]. specialize (Hkeep Ha Hf). intros d ino accepted spawned Hd.
    assert (snapshot_of fh (m_open m') = Some a) as Hsn by (unfold snapshot_of; rewrite Hh'; done).
    split; [intros size offset Hx|intros Hx]; simpl; unfold serve; rewrite Hd, Hu; simpl; rewrite Hx; simpl; rewrite Hsn;
      unfold read_snapshot; rewrite Hkeep; simpl; by rewrite ?slice_spec.
  - intros d size offset accepted spawned Hd Hx. simpl. unfold serve. rewrite Hd, Hu. simpl. rewrite Hx. simpl. by rewrite Hh'.
  - intros size Hfit. by apply list_all_from; [|lia].
Qed.

(** Which snapshot an open that has chosen goes on with. *)
Definition chosen (p : Progress) : option nat :=
  match p with Retains a | LetsGoOf _ (Some a) => Some a | _ => None end.

(** An inode is one version of its file: the first open of it fixes which,
    every later one serves that version or fails, fails only when the version's
    snapshot is gone and the file is no longer that version, and the inode
    stays fixed to it for as long as it is there. *)
Theorem inodes_are_one_version t es m r x ino name current accepted spawned m' :
  ok t → Forall (lawful ok) es → mount_run es (mounted t) = Some m →
  m_requests m !! r = Some x → asked x = OpenOf ino name → progress x = Chooses current →
  mount_step (GoesOn r accepted spawned) m = Some m' →
  ∃ p f, m_requests m' !! r = Some (at_progress p x) ∧ allocated (m_snapshots m) !! current = Some f ∧
    ∀ y, m_paths (m_inodes m') !! ino = Some y →
    ∃ v, opened y = Some v ∧
      (∀ a, chosen p = Some a → ∃ g, allocated (m_snapshots m') !! a = Some g ∧ snapshot_path g = name ∧
         snapshot_info g = v ∧ generation g = node_generation y) ∧
      (chosen p = None → p = LetsGoOf current None ∧ locked (m_snapshots m) (node_snapshot y) = None ∧
         ¬ (generation f = node_generation y ∧ snapshot_info f = v)) ∧
      ∀ es' m'' z, Forall (lawful ok) es' → mount_run es' m' = Some m'' → m_paths (m_inodes m'') !! ino = Some z →
        opened z = Some v ∧ node_generation z = node_generation y ∧ node_path z = name.
Proof.
  intros Ht Hes Hrun Hx Ha Hp Hstep. destruct (mount_run_closing t es m Ht Hes Hrun) as [Hs _].
  assert (sound_mount ok m') as Hs' by by apply (step_sound_mount ok direntry_size (GoesOn r accepted spawned) m).
  simpl in Hstep. unfold go_on in Hstep. rewrite Hx in Hstep. simpl in Hstep. rewrite Ha, Hp in Hstep.
  unfold mbind, option_bind in Hstep. destruct (version_for _ _ _ _) as [[[w s] i]|] eqn:E; [|done]. injection Hstep as <-.
  set (p := match w with Current => Retains current | Older a => LetsGoOf current (Some a) | Gone => LetsGoOf current None end) in *.
  set (m' := update r p _) in *. apply version_for_cases in E as (f & Hf & Hcase).
  assert (m_requests m' !! r = Some (at_progress p x)) as Hx' by (unfold m', update; simpl; by rewrite lookup_alter_eq, Hx).
  exists p, f. split_and!; [done|done|]. intros y Hy.
  destruct (vo_requests m' (sm_versions ok m' Hs') r (at_progress p x) ino name Hx' Ha) as [_ Hname].
  assert (node_path y = name) as Hyn by (apply Hname; unfold path_of; by rewrite Hy).
  assert (∃ v, opened y = Some v) as [v Hv].
  { change (m_inodes m') with i in Hy. destruct w.
    - destruct Hcase as [_ [[-> Hnone]|(z & Hz & [[_ ->]|(Eo & _ & _ & ->)])]]; [congruence|..];
        simpl in Hy; rewrite lookup_insert_eq in Hy; injection Hy as <-; by eexists.
    - destruct Hcase as (_ & -> & z & v & Hz & Hv & _). rewrite Hz in Hy. injection Hy as <-. by exists v.
    - destruct Hcase as (_ & -> & z & v & Hz & Hv & _). rewrite Hz in Hy. injection Hy as <-. by exists v. }
  destruct (vo_nodes m' (sm_versions ok m' Hs') ino y v Hy Hv) as (b & Hb & _ & Hversion).
  assert (allocated (m_snapshots m') = allocated (m_snapshots m)) as Eall.
  { unfold m'. simpl. destruct w; [destruct Hcase as [-> _]|destruct Hcase as (-> & _)|destruct Hcase as (-> & _)]; done. }
  exists v. split_and!; [done| | |].
  - intros a Hchosen. assert (b = a) as ->.
    { change (m_inodes m') with i in Hy. unfold p in Hchosen. destruct w as [|c|]; simpl in Hchosen; [..|done]; injection Hchosen as <-.
      - destruct Hcase as [_ [[-> Hnone]|(z & Hz & [[_ ->]|(_ & _ & _ & ->)])]]; [congruence|..];
          simpl in Hy; rewrite lookup_insert_eq in Hy; injection Hy as <-; simpl in Hb; congruence.
      - destruct Hcase as (_ & -> & z & v' & Hz & _ & Hc & _). rewrite Hz in Hy. injection Hy as <-. congruence. }
    assert (is_Some (allocated (m_snapshots m') !! a)) as [g Hg].
    { pose proof (ho_requests ok m' (sm_handles ok m' Hs') r _ Hx') as Hr. unfold request_ok in Hr. simpl in Hr.
      rewrite Ha in Hr. unfold p in *. destruct w; simpl in Hchosen; [..|done]; injection Hchosen as <-.
      - destruct Hr as (g & Hg & _). by exists g.
      - destruct Hr as [_ Hr]. destruct (Hr _ eq_refl) as (g & Hg & _). by exists g. }
    destruct (Hversion g Hg) as (H1 & H2 & H3). exists g. split_and!; [done|congruence|done|done].
  - unfold p. destruct w; simpl; [done|done|]. intros _. destruct Hcase as (-> & -> & z & v' & Hz & Hv' & Hlock & Hne).
    change (m_inodes m') with (m_inodes m) in Hy. rewrite Hz in Hy. injection Hy as <-. rewrite Hv in Hv'. injection Hv' as <-.
    split_and!; [done|done|]. intros [E1 E2]. by destruct Hne.
  - intros es' m'' z Hes' Hrun' Hz.
    destruct (run_inodes_back ok direntry_size es' m' m'' ino y z v) as (E1 & E2 & E3); try done.
    split_and!; [done|done|congruence].
Qed.

(** C6. While the mount is mounted, and so long as no pass has failed: no open is
    answered before the change it serves was told - an announcement of the file,
    begun after that change, asked the tree what became of it and made through
    the kernel the call that tells it. Until its change is told an open is held,
    and only such opens are. No change counts as announced that was not told;
    and every change of every file counts as announced, or is in the batch of
    the pass under way, or in the queue - where it stays with no pass under way
    if none could be started. *)
Theorem opens_wait_for_announcements t es m :
  ok t → Forall (unfailing ok) es → mount_run es (mounted t) = Some m → life m = Mounted →
  (∀ r x ino name fh, m_requests m !! r = Some x → asked x = OpenOf ino name → progress x = RepliesOpen fh →
     ∃ g, opened_at m fh g ∧ g ≤ announced name (m_notifier m) ∧
       (0 < g → told (deeds direntry_size es (mounted t)) name g)) ∧
  (∀ r x ino name fh, m_requests m !! r = Some x → asked x = OpenOf ino name → progress x = IsHeld fh →
     ∃ g, opened_at m fh g ∧ announced name (m_notifier m) < g ∧
       {| held_path := name; held_generation := g; held_request := r |} ∈ m_held_opens (m_notifier m)) ∧
  (∀ h, h ∈ m_held_opens (m_notifier m) → ∃ x ino fh, m_requests m !! held_request h = Some x ∧
     asked x = OpenOf ino (held_path h) ∧ progress x = IsHeld fh) ∧
  (∀ p g, 0 < g → g ≤ announced p (m_notifier m) → told (deeds direntry_size es (mounted t)) p g) ∧
  ∀ p, covered (m_notifier m) (m_pass m) p (generation_of (m_snapshots m) p).
Proof.
  intros Ht Hes Hrun Hl.
  destruct (run_announcements_ok ok direntry_size es (mounted t) m Hes (mounted_sound ok t Ht) (mounted_notifier_ok t)
    (mounted_announcements_ok t) Hrun) as (Hs & Hn & [Hcov Hrep]).
  pose proof (λ p g, told_from_the_start ok direntry_size t es m p g Ht (unfailing_all_lawful ok es Hes) Hrun) as Htold.
  assert (m_stopping (m_notifier m) = false) as Hst by (rewrite (nt_stopping m Hn), Hl; done).
  split_and!; [..|exact Htold|intros p; by apply Hcov].
  - intros r x ino name fh Hx Ha Hp. destruct (Hrep r name fh) as [?|(g & Hg & Hle)]; [|congruence|].
    { by apply (gate_of_request m r x ino name (name, fh, Replying)). }
    exists g. split_and!; [done..|]. intros Hg0. by apply Htold.
  - intros r x ino name fh Hx Ha Hp. assert (gate_at m r = Some (name, fh, Holding)) as Hg
      by (by apply (gate_of_request m r x ino name (name, fh, Holding))).
    pose proof (hd_holding _ _ _ (nt_held m Hn) r name fh Hg) as (h & -> & Hh)%list_elem_of_fmap.
    destruct (hd_held _ _ _ (nt_held m Hn) h Hh) as (fh' & Hg' & Hgen & Hstill). rewrite Hg in Hg'. injection Hg' as E <-.
    exists (held_generation h). unfold still_held in Hstill. rewrite <- E in Hstill. split_and!; [done|done|].
    destruct h. simpl in *. by subst.
  - intros h Hh. destruct (hd_held _ _ _ (nt_held m Hn) h Hh) as (fh & Hg & _).
    destruct (request_of_gate m _ _ _ _ Hg) as (x & ino & Hrest). by exists x, ino, fh.
Qed.

(** C13. A pass of the notifier that is under way, no pass having failed: its own
    steps cannot go on forever while no change arrives, and they can always go
    on, by themselves, until it is over; then no open is held, and, unless the
    mount is being taken down, every change of every file there was has been
    told, by the calls that tell it. *)
Theorem passes_announce_everything t es m :
  ok t → Forall (unfailing ok) es → mount_run es (mounted t) = Some m → m_pass m ≠ NoPass →
  Acc (flip (pass_goes direntry_size)) m ∧
  ∃ es' m', Forall (λ e, ∃ tid pick, e = PassGoesOn tid pick) es' ∧ mount_run es' m = Some m' ∧
    m_pass m' = NoPass ∧ m_held_opens (m_notifier m') = [] ∧
    (∀ r x ino name fh, m_requests m' !! r = Some x → asked x = OpenOf ino name → progress x ≠ IsHeld fh) ∧
    (m_stopping (m_notifier m') = false → ∀ p,
       generation_of (m_snapshots m') p ≤ announced p (m_notifier m') ∧
       (0 < generation_of (m_snapshots m') p →
          told (deeds direntry_size (es ++ es') (mounted t)) p (generation_of (m_snapshots m') p))).
Proof.
  intros Ht Hes Hrun Hp.
  destruct (run_announcements_ok ok direntry_size es (mounted t) m Hes (mounted_sound ok t Ht) (mounted_notifier_ok t)
    (mounted_announcements_ok t) Hrun) as (Hs & Hn & Han).
  split; [apply pass_terminates|]. destruct (pass_ends ok direntry_size m Hs Hn Han Hp) as (m' & Hgo & [H1 H2 H3 H4]).
  destruct (pass_goes_run direntry_size m m' Hgo) as (es' & Hes' & Hrun'). exists es', m'. split_and!; try done.
  - intros r x ino name fh Hx Ha Hpr. by apply (H3 r name fh), (gate_of_request m' r x ino name (name, fh, Holding)).
  - intros Hst p. split; [by apply H4|]. intros Hg.
    apply (told_from_the_start ok direntry_size t (es ++ es') m' p _ Ht); [|by rewrite mount_run_app, Hrun|done|by apply H4].
    apply Forall_app. split; [by apply unfailing_all_lawful|]. eapply Forall_impl; [done|]. by intros e (tid & pick & ->).
Qed.

(** C7. The mount can always be taken down, whatever is under way: with no new
    requests, and the tree's calls stopping once they are canceled, there are
    steps that take the destructor to its end, by when every request there
    was has been answered, once, and no coroutine or pass is left. *)
Theorem mount_can_be_taken_down t es m :
  ok t → Forall (lawful ok) es → mount_run es (mounted t) = Some m →
  ∃ m', rtc (helped direntry_size) m m' ∧ life m' = Unmounted ∧
    m_dispatch m' = None ∧ m_requests m' = ∅ ∧ m_pass m' = NoPass ∧ m_held_opens (m_notifier m') = [] ∧
    NoDup (m_replies m').*1 ∧ ∀ r, r < next_request m' → r ∈ (m_replies m').*1.
Proof.
  intros Ht Hes Hrun. destruct (mount_run_closing t es m Ht Hes Hrun) as (_ & _ & Hc).
  destruct (unmounts ok direntry_size m Hc) as (m' & Hgo & Hl & Hc').
  destruct (ca_unmounted m' (cl_canceled ok m' Hc') Hl) as [Hd Hr].
  destruct (nt_destroyed m' (cl_notifier ok m' Hc')) as [Hp Hh]; [by rewrite Hl..|].
  exists m'. split_and!; try done; [|by apply (unmounted_answered ok m')].
  apply (le_once _ _ _ _ (sm_requests ok m' (cl_sound ok m' Hc'))).
Qed.

(** Nobody but the notifier changes anything through the mount, or is told
    anything but what the tree says: to open for writing, to write, and to
    make or remove an entry are refused anyone else, with nothing else
    changed. The notifier itself is told otherwise only of the entry it is
    about to make or remove in a call under way, and only of that one may it
    end the pretence. *)
Theorem only_the_notifier_writes t es m d accepted spawned m' :
  ok t → Forall (lawful ok) es → mount_run es (mounted t) = Some m →
  m_dispatch m = Some d → mount_step (Serves accepted spawned) m = Some m' →
  (caller d ≠ m_notifier_tid m →
     ((∃ ino, handling d = Begins (Open ino false)) ∨ (∃ size, handling d = Begins (Write size)) ∨
      (∃ name p e, handling d = EndsPretence name p e) → m' = reply_with (ReplyError EACCES) d m) ∧
     ∀ name w, handling d = AsksPretence name w → m' = handle_next (AsksEntry name nothing w) d m) ∧
  (∀ name w, handling d = AsksPretence name w → m' ≠ handle_next (AsksEntry name nothing w) d m →
     ∃ kind c b, m' = handle_next (AsksEntry name (pretence_for_call c) w) d m ∧
       (m_pass m = Announces name kind (CallsKernel c) b ∨ m_pass m = Announces name kind (StopsPretending c) b)) ∧
  (m_pretending m' ≠ m_pretending m → caller d = m_notifier_tid m ∧
     ∃ name kind c b e, handling d = EndsPretence name (pretence_for_call c) e ∧ m_pretending m' = (name, nothing) ∧
       (m_pass m = Announces name kind (CallsKernel c) b ∨ m_pass m = Announces name kind (StopsPretending c) b)).
Proof.
  intros Ht Hes Hrun Hd Hstep. destruct (mount_run_closing t es m Ht Hes Hrun) as [Hs [Hn _]].
  destruct (last_version ok _ (ho_sound ok m (sm_handles ok m Hs))) as (u & Hu & _).
  assert (caller d ≠ m_notifier_tid m → is_self_request (caller d) m = false) as Hother.
  { intros Hne. unfold is_self_request. rewrite (bool_decide_false (caller d = _)) by done. by rewrite andb_false_r. }
  assert (is_self_request (caller d) m = true → caller d = m_notifier_tid m) as Hself.
  { unfold is_self_request. by intros [_ ?%bool_decide_eq_true]%andb_true_iff. }
  pose proof Hstep as Hstep0. simpl in Hstep0. unfold serve in Hstep0. rewrite Hd, Hu in Hstep0. simpl in Hstep0. split_and!.
  - intros Hne. specialize (Hother Hne). split.
    + intros [[ino Hx]|[[size Hx]|(name & p & e & Hx)]]; rewrite Hx in Hstep0; simpl in Hstep0; rewrite Hother in Hstep0;
        by injection Hstep0 as <-.
    + intros name w Hx. rewrite Hx, Hother in Hstep0. by injection Hstep0 as <-.
  - intros name w Hx Hneq. rewrite Hx in Hstep0. destruct (is_self_request _ _ && _) eqn:Eb; injection Hstep0 as <-; [|done].
    apply andb_true_iff in Eb as [_ Hname%bool_decide_eq_true].
    destruct (nt_pretends m Hn) as [Hnone|(p & kind & c & b & E & Hpass)]; [by rewrite Hnone in Hneq|].
    rewrite E in *. simpl in *. subst p. by exists kind, c, b.
  - intros Hneq. destruct (handling d) eqn:Hx; try (exfalso; apply Hneq; clear - Hstep Hd Hx; serve_leaves Hstep; simpl;
      autorewrite with mount; try done; simplify_eq; congruence).
    destruct (is_self_request _ _ && _) eqn:Eb; injection Hstep0 as <-; [|done].
    apply andb_true_iff in Eb as [Hsf Hpr%bool_decide_eq_true]. split; [by apply Hself|].
    destruct (nt_pretends m Hn) as [Hnone|(p & kind & c & b & E & Hpass)].
    + exfalso. apply Hneq. rewrite Hpr in Hnone. simpl in Hnone. subst expected. rewrite Hpr.
      by destruct then_entry.
    + rewrite Hpr in E. injection E as -> ->. exists p, kind, c, b, then_entry. split_and!; [done| |done]. by destruct then_entry.
Qed.
End spec.

(** ** A run *)

Definition ex_direntry_size (n : str) : nat := 24 + length n.
Definition ex_b : path := of_string (lit "b").
Definition ex_rewritten : DirectoryTreeDiff :=
  {| everything_dirty := false; entries_changed := [ex_b]; child_lists_changed := [] |}.
Definition ex_serves (k : nat) : list (mount_event Impl) := replicate k (Serves true true).

(** The kernel looks [b] up, and opens what it is given as request [r]. *)
Definition ex_looks : list (mount_event Impl) := Asks 100 (Lookup FUSE_ROOT_ID (lit "b")) :: ex_serves 7.
Definition ex_chooses (r ino : nat) : list (mount_event Impl) :=
  Asks 100 (Open ino true) :: ex_serves 2 ++
  [OpenEnds r (Completes (Value {| file_size := 2; file_mtime := 3 |})); GoesOn r true true] ++
  replicate 4 (TakeGoesForward r) ++ [GoesOn r true true].
Definition ex_opens (r ino : nat) : list (mount_event Impl) := ex_chooses r ino ++ replicate 3 (GoesOn r true true).

(** It has [b] open; the tree changes it; and it looks it up and opens it
    again, which the notifier holds back. *)
Definition ex_opened : list (mount_event Impl) := ex_looks ++ ex_opens 1 2 ++ [GoesOn 1 true true].
Definition ex_changes : list (mount_event Impl) := [TreeBecomes ex_other; Notifies ex_rewritten true].
Definition ex_waiting : list (mount_event Impl) := ex_opened ++ ex_changes ++ ex_looks ++ ex_opens 3 3.

Definition ex_from (m : Mount Impl) (es : list (mount_event Impl)) : Mount Impl :=
  default m (mount_run ex_direntry_size es m).
Definition ex_after : list (mount_event Impl) → Mount Impl := ex_from (mounted ex_tree).
Lemma ex_from_run m es :
  bool_decide (is_Some (mount_run ex_direntry_size es m)) = true →
  mount_run ex_direntry_size es m = Some (ex_from m es).
Proof. unfold ex_from. intros [m' ->]%bool_decide_eq_true. done. Qed.
Lemma ex_after_run es :
  bool_decide (is_Some (mount_run ex_direntry_size es (mounted ex_tree))) = true →
  mount_run ex_direntry_size es (mounted ex_tree) = Some (ex_after es).
Proof. apply ex_from_run. Qed.

Definition is_lawful (e : mount_event Impl) : bool := match e with TreeBecomes _ | PassFails => false | _ => true end.
Lemma is_lawful_unfailing es : forallb is_lawful es = true → Forall (unfailing well_formed) es.
Proof.
  induction es as [|e es IH]; simpl; [constructor|]. intros [He Hes]%andb_true_iff. constructor; [|by apply IH].
  by destruct e.
Qed.
Lemma ex_changes_unfailing : Forall (unfailing well_formed) ex_changes.
Proof. constructor; [split; [apply ex_other_well_formed|done]|]. by apply is_lawful_unfailing. Qed.
Lemma ex_waiting_unfailing : Forall (unfailing well_formed) ex_waiting.
Proof.
  unfold ex_waiting. apply Forall_app. split; [by apply is_lawful_unfailing|].
  apply Forall_app. split; [apply ex_changes_unfailing|by apply is_lawful_unfailing].
Qed.
Lemma unfailing_lawful es : Forall (unfailing (T := Impl) well_formed) es → Forall (lawful well_formed) es.
Proof. intros Hes. eapply Forall_impl; [done|]. by intros e [He _]. Qed.

Lemma inodes_are_the_kernels_witness :
  lookups_of (m_inodes (ex_after ex_looks)) 2 = 1 ∧
  lookups_of (m_inodes (ex_after ex_looks)) 2 =
    kernel_count (ex_after ex_looks) 2 + in_flight (m_dispatch (ex_after ex_looks)) 2.
Proof.
  split; [vm_compute; reflexivity|].
  apply (inodes_are_the_kernels ex_direntry_size ex_tree ex_looks (ex_after ex_looks)).
  - apply ex_after_run. vm_compute. reflexivity.
  - discriminate.
Defined.

Lemma ex_waiting_run : mount_run ex_direntry_size ex_waiting (mounted ex_tree) = Some (ex_after ex_waiting).
Proof. apply ex_after_run. vm_compute. reflexivity. Qed.
Lemma ex_opened_run : mount_run ex_direntry_size ex_opened (mounted ex_tree) = Some (ex_after ex_opened).
Proof. apply ex_after_run. vm_compute. reflexivity. Qed.
Lemma ex_opened_unfailing : Forall (unfailing well_formed) ex_opened.
Proof. by apply is_lawful_unfailing. Qed.

Lemma handles_are_owned_once_witness :
  bool_decide (is_Some (m_handles (m_open (ex_after ex_waiting)) !! 2)) = true ∧ owners (ex_after ex_waiting) 2 ≤ 1.
Proof.
  split; [vm_compute; reflexivity|].
  destruct (handles_are_owned_once well_formed ex_direntry_size ex_tree ex_waiting (ex_after ex_waiting) ex_tree_well_formed
    (unfailing_lawful _ ex_waiting_unfailing) ex_waiting_run) as [Hown _].
  apply (Hown 2). apply le_S, le_n.
Defined.

Lemma requests_are_answered_once_witness :
  (m_replies (ex_after ex_waiting)).*1 = [0; 1; 2] ∧ NoDup (m_replies (ex_after ex_waiting)).*1.
Proof.
  split; [vm_compute; reflexivity|].
  apply (requests_are_answered_once well_formed ex_direntry_size ex_tree ex_waiting (ex_after ex_waiting) ex_tree_well_formed
    (unfailing_lawful _ ex_waiting_unfailing) ex_waiting_run).
Defined.

(** A read through the handle opened before the change. *)
Definition ex_reads : list (mount_event Impl) := ex_changes ++ [Asks 100 (Read 2 10 0 1)].
Definition ex_reading : Mount Impl := ex_from (ex_after ex_opened) ex_reads.
Lemma ex_reading_run : mount_run ex_direntry_size ex_reads (ex_after ex_opened) = Some ex_reading.
Proof. apply ex_from_run. vm_compute. reflexivity. Qed.
Lemma ex_reads_unfailing : Forall (unfailing well_formed) ex_reads.
Proof. apply Forall_app. split; [apply ex_changes_unfailing|by apply is_lawful_unfailing]. Qed.

Lemma open_files_never_change_witness :
  ∃ h f d, m_handles (m_open (ex_after ex_opened)) !! 1 = Some h ∧ m_dispatch ex_reading = Some d ∧
    snapshot_bytes f = lit "xy" ∧
    mount_step ex_direntry_size (Serves true true) ex_reading =
      Some (reply_with (ReplyBytes (take 10 (skipn 0 (snapshot_bytes f)))) d ex_reading).
Proof.
  assert ((h ← m_handles (m_open (ex_after ex_opened)) !! 1; a ← handle_snapshot h;
           f ← allocated (m_snapshots (ex_after ex_opened)) !! a; Some (snapshot_bytes f)) = Some (lit "xy")) as E
    by (vm_compute; reflexivity).
  unfold mbind, option_bind in E.
  destruct (m_handles (m_open (ex_after ex_opened)) !! 1) as [h|] eqn:Hh; [|discriminate E].
  destruct (handle_snapshot h) as [a|] eqn:Ha; [|discriminate E].
  destruct (allocated (m_snapshots (ex_after ex_opened)) !! a) as [f|] eqn:Hf; [|discriminate E]. injection E as E.
  destruct (m_dispatch ex_reading) as [d|] eqn:Hd; [|vm_compute in Hd; discriminate Hd].
  exists h, f, d. split; [reflexivity|]. split; [reflexivity|]. split; [exact E|].
  destruct (open_files_never_change well_formed ex_direntry_size ex_tree ex_opened (ex_after ex_opened) ex_reads ex_reading 1 h
    ex_tree_well_formed (unfailing_lawful _ ex_opened_unfailing) ex_opened_run Hh
    (unfailing_lawful _ ex_reads_unfailing) ex_reading_run) as [H _].
  - apply (bool_decide_unpack _). vm_compute. exact I.
  - destruct (H a f Ha Hf) as [_ Hd'].
    assert (option_map handling (m_dispatch ex_reading) = Some (Begins (Read 2 10 0 1))) as E' by (vm_compute; reflexivity).
    rewrite Hd in E'. injection E' as E'. exact (proj1 (Hd' d 2 true true Hd) 10 0 E').
Defined.

(** Where the first open chooses. *)
Definition ex_choosing : list (mount_event Impl) := ex_looks ++ ex_chooses 1 2.
Lemma ex_choosing_run : mount_run ex_direntry_size ex_choosing (mounted ex_tree) = Some (ex_after ex_choosing).
Proof. apply ex_after_run. vm_compute. reflexivity. Qed.

Lemma inodes_are_one_version_witness :
  ∃ m' p, mount_step ex_direntry_size (GoesOn 1 true true) (ex_after ex_choosing) = Some m' ∧ is_Some (chosen p) ∧
    (progress <$> m_requests m' !! 1) = Some p ∧
    ∃ y v, m_paths (m_inodes m') !! 2 = Some y ∧ opened y = Some v.
Proof.
  assert (m_requests (ex_after ex_choosing) !! 1 =
    Some {| cancellation := 0; asked := OpenOf 2 ex_b; progress := Chooses 2 |}) as Hx by (vm_compute; reflexivity).
  destruct (mount_step ex_direntry_size (GoesOn 1 true true) (ex_after ex_choosing)) as [m'|] eqn:Hm;
    [|vm_compute in Hm; discriminate Hm].
  destruct (inodes_are_one_version well_formed ex_direntry_size ex_tree ex_choosing (ex_after ex_choosing) 1 _ 2 ex_b 2 true true m'
    ex_tree_well_formed (unfailing_lawful _ (is_lawful_unfailing ex_choosing eq_refl)) ex_choosing_run Hx eq_refl eq_refl Hm)
    as (p & f & Hr & _ & H).
  exists m', p. split; [reflexivity|].
  assert ((m1 ← mount_step ex_direntry_size (GoesOn 1 true true) (ex_after ex_choosing); progress <$> m_requests m1 !! 1)
    = Some (Retains 2)) as E by (vm_compute; reflexivity).
  assert (bool_decide (is_Some (m1 ← mount_step ex_direntry_size (GoesOn 1 true true) (ex_after ex_choosing);
    m_paths (m_inodes m1) !! 2)) = true) as E' by (vm_compute; reflexivity).
  rewrite Hm in E, E'. simpl in E, E'. rewrite Hr in E. injection E as E. rewrite E.
  split; [eexists; reflexivity|]. split; [rewrite Hr, E; reflexivity|].
  apply bool_decide_eq_true in E' as [y Hy]. destruct (H y Hy) as (v & Hv & _). exists y, v. split; [exact Hy|exact Hv].
Defined.

(** The pass asks about [b], pokes it, and lets the open go on. *)
Definition ex_passes : list (mount_event Impl) := replicate 7 (PassGoesOn 50 ex_b).
Lemma ex_passes_unfailing : Forall (unfailing well_formed) (ex_waiting ++ ex_passes).
Proof. apply Forall_app. split; [apply ex_waiting_unfailing|by apply is_lawful_unfailing]. Qed.

Lemma opens_wait_for_announcements_witness :
  (held_request <$> m_held_opens (m_notifier (ex_after ex_waiting))) = [3] ∧
  deeds ex_direntry_size (ex_waiting ++ ex_passes) (mounted ex_tree) =
    [Took 1 false (m_known (ex_after ex_waiting));
     AskedTree ex_b modified (Value (AFile {| file_size := 2; file_mtime := 3 |})); Called ex_b Pokes] ∧
  told (deeds ex_direntry_size (ex_waiting ++ ex_passes) (mounted ex_tree)) ex_b 1.
Proof.
  split; [vm_compute; reflexivity|]. split; [vm_compute; reflexivity|].
  refine (proj1 (proj2 (proj2 (proj2 (opens_wait_for_announcements well_formed ex_direntry_size ex_tree (ex_waiting ++ ex_passes)
    (ex_after (ex_waiting ++ ex_passes)) ex_tree_well_formed ex_passes_unfailing (ex_after_run _ _) _)))) ex_b 1 _ _).
  - vm_compute. reflexivity.
  - vm_compute. reflexivity.
  - lia.
  - apply (bool_decide_eq_true_1 _). vm_compute. reflexivity.
Defined.

Definition is_starting (p : Pass) : bool := match p with Starts => true | _ => false end.
Lemma passes_announce_everything_witness :
  is_starting (m_pass (ex_after ex_waiting)) = true ∧
  ∃ es' m', mount_run ex_direntry_size es' (ex_after ex_waiting) = Some m' ∧ m_pass m' = NoPass ∧
    m_held_opens (m_notifier m') = [].
Proof.
  assert (is_starting (m_pass (ex_after ex_waiting)) = true) as E by (vm_compute; reflexivity).
  split; [exact E|].
  destruct (passes_announce_everything well_formed ex_direntry_size ex_tree ex_waiting (ex_after ex_waiting) ex_tree_well_formed
    ex_waiting_unfailing ex_waiting_run) as [_ (es' & m' & _ & Hgo & Hp & Hh & _)].
  - intros Hp. rewrite Hp in E. discriminate E.
  - exists es', m'. split; [exact Hgo|]. split; [exact Hp|exact Hh].
Defined.

Lemma mount_can_be_taken_down_witness :
  size (m_requests (ex_after ex_waiting)) = 1 ∧
  ∃ m', rtc (helped ex_direntry_size) (ex_after ex_waiting) m' ∧ life m' = Unmounted ∧ m_requests m' = ∅.
Proof.
  split; [vm_compute; reflexivity|].
  destruct (mount_can_be_taken_down well_formed ex_direntry_size ex_tree ex_waiting (ex_after ex_waiting) ex_tree_well_formed
    (unfailing_lawful _ ex_waiting_unfailing) ex_waiting_run) as (m' & Hgo & Hl & _ & Hr & _).
  exists m'. split; [exact Hgo|]. split; [exact Hl|exact Hr].
Defined.

(** Anyone asks to write. *)
Definition ex_writes : list (mount_event Impl) := [Asks 100 (Write 1)].
Lemma only_the_notifier_writes_witness :
  ∃ d m', m_dispatch (ex_after ex_writes) = Some d ∧
    mount_step ex_direntry_size (Serves true true) (ex_after ex_writes) = Some m' ∧
    m' = reply_with (ReplyError EACCES) d (ex_after ex_writes).
Proof.
  assert ((λ d, (caller d, handling d)) <$> m_dispatch (ex_after ex_writes) = Some (100, Begins (Write 1))) as E by (vm_compute; reflexivity).
  destruct (m_dispatch (ex_after ex_writes)) as [d|] eqn:Hd; [|discriminate E]. injection E as Ec Eh.
  destruct (mount_step ex_direntry_size (Serves true true) (ex_after ex_writes)) as [m'|] eqn:Hm; [|vm_compute in Hm; discriminate Hm].
  exists d, m'. split; [reflexivity|]. split; [reflexivity|].
  assert (mount_run ex_direntry_size ex_writes (mounted ex_tree) = Some (ex_after ex_writes)) as Hrun
    by (apply ex_after_run; vm_compute; reflexivity).
  destruct (only_the_notifier_writes well_formed ex_direntry_size ex_tree ex_writes (ex_after ex_writes) d true true m'
    ex_tree_well_formed (unfailing_lawful _ (is_lawful_unfailing ex_writes eq_refl)) Hrun Hd Hm) as [H _].
  destruct H as [H _]; [rewrite Ec; vm_compute; discriminate|]. apply H. right; left. exists 1. exact Eh.
Defined.

(** A pass that cannot be started leaves an open held with none under way. *)
Definition ex_unspawned : list (mount_event Impl) :=
  ex_opened ++ [TreeBecomes ex_other; Notifies ex_rewritten false] ++ ex_looks ++ ex_chooses 3 3 ++ replicate 3 (GoesOn 3 true false).
Example held_without_a_pass :
  (held_request <$> m_held_opens (m_notifier (ex_after ex_unspawned))) = [3] ∧
  idle (m_pass (ex_after ex_unspawned)) = true ∧ life (ex_after ex_unspawned) = Mounted.
Proof. vm_compute. split; [reflexivity|]. split; reflexivity. Qed.
