(* ===== verification/RealTree.v ===== *)
(** * A directory on disk (src/realdirectorytree-linux.cpp)

    What the tree over a real directory answers, in terms of the system calls
    it makes. Where a call may be made again the answers are numbered, so that
    a read may be short or interrupted, and a file may change meanwhile. *)

From S2P Require Export DirectoryTree.

(** ** System calls *)

(** What [struct stat] says, as far as it is used; times in seconds and
    nanoseconds. An error is an [errno]. *)
Record FileStat := { stat_is_directory : bool; stat_size : nat; stat_mtim : Z * Z }.
#[global] Instance FileStat_eq_dec : EqDecision FileStat.
Proof. solve_decision. Defined.

Definition EINTR : Z := 4.

(** [FD] is what an open file is known by. A directory is opened to the list of
    what each call of [readdir] gives until the end; the calls on an open file
    are numbered. *)
Record System (FD : Type) := {
  sys_stat : path → expected Z FileStat;
  sys_opendir : path → expected Z (list (expected Z str));
  sys_fstatat : path → str → expected Z FileStat;
  sys_open : path → expected Z FD;
  sys_fstat : FD → nat → expected Z FileStat;
  sys_pread : FD → nat → nat → nat → expected Z str;
}.
Arguments sys_stat {FD}. Arguments sys_opendir {FD}. Arguments sys_fstatat {FD}.
Arguments sys_open {FD}. Arguments sys_fstat {FD}. Arguments sys_pread {FD}.

Definition last_error_code (errno : Z) : error_code := system_error errno.
Definition or_errno {A} (r : expected Z A) : expected error_code A :=
  match r with Value a => Value a | Unexpected e => Unexpected (last_error_code e) end.

(** libstdc++'s file clock counts from 2174. *)
Definition to_file_time (time : Z * Z) : Z := (time.1 * 1000000000 + time.2 - 6437664000 * 1000000000)%Z.

Definition make_info (i : FileStat) : EntryInfo :=
  if stat_is_directory i then ADirectory {| directory_mtime := to_file_time (stat_mtim i) |}
  else AFile {| file_size := stat_size i; file_mtime := to_file_time (stat_mtim i) |}.

Definition same_version (a b : FileStat) : bool :=
  bool_decide (stat_size a = stat_size b) && bool_decide (stat_mtim a = stat_mtim b).

(** ** Paths *)

(** [resolve]: [None] for a path that climbs out of the root. *)
Definition resolve (m_root : path) (p : path) : option path :=
  if is_empty p then Some m_root
  else if is_absolute p || has_root_path p then None
  else
    let normal := lexically_normal p in
    match path_elements normal with
    | first :: _ => if decide (first = dot_dot) then None else Some (m_root // normal)
    | [] => Some (m_root // normal)
    end.

Section tree.
Context {FD : Type}.
Variable sys : System FD.
Variable m_root : path.

Definition resolved {A} (p : path) (k : path → expected error_code A) : expected error_code A :=
  match resolve m_root p with
  | None => Unexpected (make_error_code no_such_file_or_directory)
  | Some absolute => k absolute
  end.

Definition status_on (p : path) : expected error_code EntryInfo :=
  resolved p (λ absolute, i ← or_errno (sys_stat sys absolute); Value (make_info i)).

(** ** Listing *)

Fixpoint entries_of (directory : path) (given : list (expected Z str)) : expected error_code (list TreeEntry) :=
  match given with
  | [] => Value []
  | Unexpected e :: _ => Unexpected (last_error_code e)
  | Value name :: given' =>
      if bool_decide (name = dot) || bool_decide (name = dot_dot) then entries_of directory given'
      else
        match sys_fstatat sys directory name with
        | Unexpected _ => entries_of directory given'
        | Value i =>
            entries ← entries_of directory given';
            Value ({| entry_name := name; entry_info := make_info i |} :: entries)
        end
  end.

Definition ls_on (p : path) : expected error_code (list TreeEntry) :=
  resolved p (λ absolute,
    match sys_opendir sys absolute with
    | Unexpected e => Unexpected (last_error_code e)
    | Value given => entries_of absolute given
    end).

(** ** Reading *)

(** The loop over [pread]: [call] numbers the calls. *)
Fixpoint pread_loop (fuel call : nat) (fd : FD) (offset capacity : nat) (contents : str) : option (expected error_code str) :=
  match fuel with
  | 0 => None
  | S fuel' =>
      if decide (length contents < capacity) then
        match sys_pread sys fd call (offset + length contents) (capacity - length contents) with
        | Unexpected e =>
            if decide (e = EINTR) then pread_loop fuel' (S call) fd offset capacity contents
            else Some (Unexpected (last_error_code e))
        | Value [] => Some (Value contents)
        | Value bytes => pread_loop fuel' (S call) fd offset capacity (contents ++ bytes)
        end
      else Some (Value contents)
  end.

Definition read_on (fuel : nat) (p : path) (offset : Z) (size : nat) : option (expected error_code str) :=
  match resolve m_root p with
  | None => Some (Unexpected (make_error_code no_such_file_or_directory))
  | Some absolute =>
      if decide (offset < 0)%Z then Some (Unexpected (make_error_code invalid_argument))
      else if decide (size = 0) then Some (Value [])
      else
        match sys_open sys absolute with
        | Unexpected e => Some (Unexpected (last_error_code e))
        | Value fd => pread_loop fuel 0 fd (Z.to_nat offset) size []
        end
  end.

(** The loop that reads to the end of the file, in a buffer that doubles when
    it is full; also how many calls there have been. *)
Fixpoint read_to_end (fuel call : nat) (fd : FD) (capacity : nat) (contents : str) : option (expected error_code str * nat) :=
  match fuel with
  | 0 => None
  | S fuel' =>
      let capacity' := if decide (length contents = capacity) then capacity * 2 else capacity in
      match sys_pread sys fd call (length contents) (capacity' - length contents) with
      | Unexpected e =>
          if decide (e = EINTR) then read_to_end fuel' (S call) fd capacity' contents
          else Some (Unexpected (last_error_code e), S call)
      | Value [] => Some (Value contents, S call)
      | Value bytes => read_to_end fuel' (S call) fd capacity' (contents ++ bytes)
      end
  end.

Definition k_read_whole_attempts : nat := 8.

(** The attempts left, [latest] what the last one gave. *)
Fixpoint attempt (fuel attempts call : nat) (fd : FD) (latest : FileContent) : option (expected error_code FileContent) :=
  match attempts with
  | 0 => Some (Value latest)
  | S attempts' =>
      match sys_fstat sys fd call with
      | Unexpected e => Some (Unexpected (last_error_code e))
      | Value before =>
          if stat_is_directory before then Some (Unexpected (make_error_code is_a_directory))
          else
            '(given, call') ← read_to_end fuel (S call) fd (S (stat_size before)) [];
            match given with
            | Unexpected e => Some (Unexpected e)
            | Value contents =>
                match sys_fstat sys fd call' with
                | Unexpected e => Some (Unexpected (last_error_code e))
                | Value after =>
                    let latest' := {|
                      bytes := contents;
                      content_info := {| file_size := length contents; file_mtime := to_file_time (stat_mtim before) |} |} in
                    if same_version before after && bool_decide (length contents = stat_size before)
                    then Some (Value latest')
                    else attempt fuel attempts' (S call') fd latest'
                end
            end
      end
  end.

Definition no_content : FileContent := {| bytes := []; content_info := {| file_size := 0; file_mtime := 0 |} |}.
Definition read_whole_on (fuel : nat) (p : path) : option (expected error_code FileContent) :=
  match resolve m_root p with
  | None => Some (Unexpected (make_error_code no_such_file_or_directory))
  | Some absolute =>
      match sys_open sys absolute with
      | Unexpected e => Some (Unexpected (last_error_code e))
      | Value fd => attempt fuel k_read_whole_attempts 0 fd no_content
      end
  end.
End tree.
