(* ===== verification/RealDisk.v ===== *)
(** * The disk beneath the real tree's root

    What the operating system keeps, as the calls of RealTree.v observe it: the
    directories by inode number, each with its children. It gives the system
    calls their answers, and the tree over them the laws of [DirectoryTree]. *)

From S2P Require Export RealTree.

Inductive Child := EDirectory (i : nat) | EFile (content : str) (mtime : Z * Z).
Record Directory := { dir_mtime : Z * Z; children : gmap str Child }.
Record Disk := { top : nat; directories : gmap nat Directory }.
#[global] Instance Child_eq_dec : EqDecision Child.
Proof. solve_decision. Defined.
#[global] Instance Directory_eq_dec : EqDecision Directory.
Proof. solve_decision. Defined.

Definition ENOENT : Z := 2.
Definition ENOTDIR : Z := 20.
Definition EISDIR : Z := 21.

(** The kernel's walk along a path from [c]. *)
Fixpoint walk (ds : gmap nat Directory) (c : Child) (ns : list str) : expected Z Child :=
  match ns with
  | [] =>
      match c with
      | EFile _ _ => Value c
      | EDirectory i => match ds !! i with Some _ => Value c | None => Unexpected ENOENT end
      end
  | n :: ns' =>
      match c with
      | EFile _ _ => Unexpected ENOTDIR
      | EDirectory i =>
          match ds !! i with
          | None => Unexpected ENOENT
          | Some dir =>
              if bool_decide (n = []) || bool_decide (n = dot) then walk ds c ns'
              else
                match children dir !! n with
                | None => Unexpected ENOENT
                | Some c' => walk ds c' ns'
                end
          end
      end
  end.

Definition stat_of (ds : gmap nat Directory) (c : Child) : FileStat :=
  match c with
  | EFile content mtime => {| stat_is_directory := false; stat_size := length content; stat_mtim := mtime |}
  | EDirectory i =>
      {| stat_is_directory := true; stat_size := 4096;
         stat_mtim := match ds !! i with Some dir => dir_mtime dir | None => (0, 0)%Z end |}
  end.

(** The tree over [disk_of], its root at [root_of]. [stat] may say what there is
    where it cannot be opened, for permissions or want of descriptors: [unopened]
    is the error then. The [n]th call on an open file is interrupted, or gives at
    most [S k] bytes; there are interruptions only among the first [interrupted]
    calls. *)
Record RealTreeOn := {
  disk_of : Disk;
  root_of : path;
  unopened : path → option Z;
  pace : nat → option nat;
  interrupted : nat;
}.

Definition beneath (above p : path) : option (list str) :=
  if bool_decide (take (length (names above)) (names p) = names above)
  then Some (drop (length (names above)) (names p)) else None.

Definition located (t : RealTreeOn) (absolute : path) : expected Z Child :=
  match beneath (root_of t) absolute with
  | None => Unexpected ENOENT
  | Some ns => walk (directories (disk_of t)) (EDirectory (top (disk_of t))) ns
  end.

Definition listing (t : RealTreeOn) (c : Child) : expected Z (list str) :=
  match c with
  | EFile _ _ => Unexpected ENOTDIR
  | EDirectory i =>
      match directories (disk_of t) !! i with
      | None => Unexpected ENOENT
      | Some dir => Value ([dot; dot_dot] ++ (map_to_list (children dir)).*1)
      end
  end.

Definition found_stat (t : RealTreeOn) (c : expected Z Child) : expected Z FileStat :=
  c' ← c; Value (stat_of (directories (disk_of t)) c').
Definition opened (t : RealTreeOn) (absolute : path) : expected Z Child :=
  c ← located t absolute;
  match unopened t absolute with Some e => Unexpected e | None => Value c end.
Definition opened_directory (t : RealTreeOn) (absolute : path) : expected Z (list (expected Z str)) :=
  c ← opened t absolute; ns ← listing t c; Value (map Value ns).
Definition found_in (t : RealTreeOn) (absolute : path) (n : str) : expected Z Child :=
  c ← located t absolute; walk (directories (disk_of t)) c [n].
Definition pread (t : RealTreeOn) (c : Child) (call offset n : nat) : expected Z str :=
  match c, pace t call with
  | EDirectory _, _ => Unexpected EISDIR
  | EFile _ _, None => Unexpected EINTR
  | EFile content _, Some k => Value (take (Nat.min n (S k)) (skipn offset content))
  end.

Definition system_of (t : RealTreeOn) : System Child := {|
  sys_stat absolute := found_stat t (located t absolute);
  sys_opendir := opened_directory t;
  sys_fstatat absolute n := found_stat t (found_in t absolute n);
  sys_open := opened t;
  sys_fstat c _ := found_stat t (Value c);
  sys_pread := pread t;
|}.

(** Fuel that is always enough. *)
Definition enough (t : RealTreeOn) (p : path) (n : nat) : nat :=
  interrupted t + n +
  match resolve (root_of t) p with
  | Some absolute => match located t absolute with Value (EFile content _) => length content | _ => 0 end
  | None => 0
  end + 2.

Definition unfinished {A} : expected error_code A := Unexpected (make_error_code io_error).
#[global] Instance RealDirectoryTree : DirectoryTree RealTreeOn := {
  status t := status_on (system_of t) (root_of t);
  ls t := ls_on (system_of t) (root_of t);
  read t p offset n := default unfinished (read_on (system_of t) (root_of t) (enough t p n) p offset n);
  read_whole t p := default unfinished (read_whole_on (system_of t) (root_of t) (enough t p 0) p);
}.

(** Directories form a tree below [top]: each has one place, and none holds the
    root. *)
Record disk_ok (d : Disk) : Prop := {
  top_there : is_Some (directories d !! top d);
  names_plain i dir n c : directories d !! i = Some dir → children dir !! n = Some c → is_name n;
  children_there i dir n j :
    directories d !! i = Some dir → children dir !! n = Some (EDirectory j) →
    is_Some (directories d !! j) ∧ j ≠ top d;
  one_place i i' dir dir' n n' j :
    directories d !! i = Some dir → children dir !! n = Some (EDirectory j) →
    directories d !! i' = Some dir' → children dir' !! n' = Some (EDirectory j) → i = i' ∧ n = n';
}.

Record tree_ok (t : RealTreeOn) : Prop := {
  tree_disk : disk_ok (disk_of t);
  tree_root : root_directory (root_of t) = true ∧ Forall is_name (names (root_of t));
  tree_pace n : interrupted t ≤ n → pace t n ≠ None;
  tree_opens absolute : unopened t absolute = None;
}.
