(* ===== verification/RealTreeSpec.v ===== *)
(** * What the tree over a real directory promises

    Its loops end, a read is a slice of the file however the calls divide it,
    and on a disk that is not being changed it keeps the laws of every tree. *)

From S2P Require Export RealDisk.

(** ** The loops over [pread] *)

Lemma filter_fewer {A} (P Q : A → Prop) `{!∀ x, Decision (P x), !∀ x, Decision (Q x)} l k :
  (∀ x, Q x → P x) → k ∈ l → P k → ¬ Q k → length (filter Q l) < length (filter P l).
Proof.
  intros HPQ Hk HP HQ.
  rewrite <- (list_filter_filter_l Q P l) by done.
  apply length_filter_lt with k; [by apply list_elem_of_filter|done].
Qed.

Section loops.
Context {FD : Type} (sys : System FD) (fd : FD).

(** The open file holds [content] throughout; it is interrupted in none but the
    first [quiet] calls. *)
Definition steady (content : str) (quiet : nat) : Prop :=
  ∀ call offset n, 0 < n →
    (sys_pread sys fd call offset n = Unexpected EINTR ∧ call < quiet) ∨
    ∃ k, 0 < k ∧ sys_pread sys fd call offset n = Value (take (Nat.min n k) (skipn offset content)).

(** The file may be changed at will, but nothing is found at [bound] or past it. *)
Definition bounded (bound quiet : nat) : Prop :=
  ∀ call offset n,
    (quiet ≤ call → sys_pread sys fd call offset n ≠ Unexpected EINTR) ∧
    (bound ≤ offset → ∀ b bs, sys_pread sys fd call offset n ≠ Value (b :: bs)).

(** The bytes read so far, and what one call adds to them. *)
Definition so_far (rest contents : str) : Prop := contents = take (length contents) rest.

Lemma so_far_more rest contents m :
  so_far rest contents → so_far rest (contents ++ take m (skipn (length contents) rest)).
Proof.
  unfold so_far. intros E. rewrite E at 1. rewrite take_take_drop, length_app, length_take, length_skipn.
  destruct (decide (m ≤ length rest - length contents)).
  - by rewrite Nat.min_l by lia.
  - by rewrite Nat.min_r, !firstn_all2 by lia.
Qed.

Lemma so_far_length rest contents : so_far rest contents → length contents ≤ length rest.
Proof. intros E. apply (f_equal length) in E. rewrite length_take in E. lia. Qed.

Lemma so_far_end rest contents m :
  so_far rest contents → 0 < m → take m (skipn (length contents) rest) = [] → contents = rest.
Proof.
  intros E Hm Hn. pose proof (so_far_length _ _ E). apply (f_equal length) in Hn.
  rewrite length_take, length_skipn in Hn. simpl in Hn. rewrite E. apply firstn_all2. lia.
Qed.

Lemma pread_loop_steady content quiet offset capacity fuel call contents :
  steady content quiet → so_far (skipn offset content) contents → length contents ≤ capacity →
  (quiet - call) + (length (skipn offset content) - length contents) < fuel →
  pread_loop sys fuel call fd offset capacity contents = Some (Value (take capacity (skipn offset content))).
Proof.
  intros Hs. revert call contents. induction fuel as [|fuel IH]; intros call contents Hc Hl Hf; [lia|]. simpl.
  destruct (decide _) as [Hlt|Hge].
  2: { do 2 f_equal. rewrite Hc. f_equal. lia. }
  destruct (Hs call (offset + length contents) (capacity - length contents)) as [[-> Hq]|(k & Hk & ->)]; [lia|..].
  { rewrite decide_True by done. apply IH; [done|lia..]. }
  rewrite <- skipn_skipn, Nat.add_comm || rewrite Nat.add_comm, <- skipn_skipn.
  set (m := Nat.min (capacity - length contents) k). assert (0 < m ≤ capacity - length contents) by lia.
  destruct (take m _) as [|b bs] eqn:E.
  - apply so_far_end in E as <-; [|done|lia]. do 2 f_equal. symmetry. apply firstn_all2. lia.
  - rewrite <- E. apply IH.
    + by apply so_far_more.
    + rewrite length_app, length_take. lia.
    + apply (f_equal length) in E. rewrite length_app, E. rewrite length_take, length_skipn in E. simpl in *. lia.
Qed.

Lemma read_to_end_later fuel call capacity contents r call' :
  read_to_end sys fuel call fd capacity contents = Some (r, call') → call < call'.
Proof.
  revert call capacity contents. induction fuel as [|fuel IH]; intros call capacity contents E; [done|].
  simpl in E. repeat case_match; simplify_eq; try lia; apply IH in E; lia.
Qed.

(** Each loop of [read_whole] ends, whoever writes the file meanwhile. *)
Lemma read_to_end_ends bound quiet fuel call capacity contents :
  bounded bound quiet → (quiet - call) + (bound - length contents) < fuel →
  ∃ r call', read_to_end sys fuel call fd capacity contents = Some (r, call') ∧ call < call'.
Proof.
  intros Hb. revert call capacity contents. induction fuel as [|fuel IH]; intros call capacity contents Hf; [lia|].
  simpl. set (capacity' := if decide _ then _ else _).
  destruct (Hb call (length contents) (capacity' - length contents)) as [H1 H2].
  destruct (sys_pread _ _ _ _ _) as [[|b bs]|e] eqn:E.
  - eexists _, _. split; [done|lia].
  - destruct (decide (bound ≤ length contents)) as [Hl|Hl]; [by destruct (H2 Hl b bs)|].
    destruct (IH (S call) capacity' (contents ++ b :: bs)) as (r & c & -> & Hc).
    { rewrite length_app. simpl. lia. }
    eexists _, _. split; [done|lia].
  - case_decide as He; [|eexists _, _; split; [done|lia]]. subst.
    destruct (IH (S call) capacity' contents) as (r & c & -> & Hc).
    { destruct (decide (quiet ≤ call)); [by destruct H1|]. lia. }
    eexists _, _. split; [done|lia].
Qed.

Lemma attempt_ends bound quiet fuel attempts call latest :
  bounded bound quiet → quiet + bound < fuel →
  attempt sys fuel attempts call fd latest ≠ None.
Proof.
  intros Hb Hf. revert call latest. induction attempts as [|attempts IH]; intros call latest; [done|]. simpl.
  destruct (sys_fstat _ _ _) as [before|e]; [|done]. destruct (stat_is_directory before); [done|].
  destruct (read_to_end_ends bound quiet fuel (S call) (S (stat_size before)) [] Hb) as (r & c & -> & _);
    [simpl; lia|].
  simpl. destruct r; [|done]. destruct (sys_fstat _ _ _); [|done]. case_match; [done|apply IH].
Qed.

(** ** A file that others write

    [h n] is what the file holds when the [n]th call is made, and its time. Any
    call may fail; no more than the first [quiet] are interrupted. *)
Record versioned (h : nat → str * (Z * Z)) (quiet bound : nat) : Prop := {
  version_stat call :
    (∃ e, sys_fstat sys fd call = Unexpected e) ∨
    sys_fstat sys fd call =
      Value {| stat_is_directory := false; stat_size := length (h call).1; stat_mtim := (h call).2 |};
  version_read call offset n : 0 < n →
    (sys_pread sys fd call offset n = Unexpected EINTR ∧ call < quiet) ∨
    (∃ e, e ≠ EINTR ∧ sys_pread sys fd call offset n = Unexpected e) ∨
    ∃ k, 0 < k ∧ sys_pread sys fd call offset n = Value (take (Nat.min n k) (skipn offset (h call).1));
  version_size call : length (h call).1 ≤ bound;
}.

Context (h : nat → str * (Z * Z)) (quiet bound : nat) (Hh : versioned h quiet bound).

(** A call on the file failed so, and not for being interrupted. *)
Definition call_failed (e : error_code) : Prop :=
  ∃ errno, e = last_error_code errno ∧ ∃ call,
    sys_fstat sys fd call = Unexpected errno ∨
    errno ≠ EINTR ∧ ∃ offset n, sys_pread sys fd call offset n = Unexpected errno.

Lemma pread_failed e call offset n :
  e ≠ EINTR → sys_pread sys fd call offset n = Unexpected e → call_failed (last_error_code e).
Proof. intros He E. exists e. split; [done|]. exists call. right. split; [done|]. by exists offset, n. Qed.

Lemma fstat_failed e call : sys_fstat sys fd call = Unexpected e → call_failed (last_error_code e).
Proof. intros E. exists e. split; [done|]. exists call. by left. Qed.

Lemma read_to_end_version content fuel call capacity contents r call' :
  read_to_end sys fuel call fd capacity contents = Some (Value r, call') →
  (∀ c, call ≤ c < call' → (h c).1 = content) →
  so_far content contents → length contents ≤ capacity → 0 < capacity → r = content.
Proof.
  revert call capacity contents. induction fuel as [|fuel IH]; intros call capacity contents; [done|].
  intros E Hv Hc Hl H0. pose proof (read_to_end_later _ _ _ _ _ _ E) as Hlt. simpl in E.
  set (capacity' := if decide _ then _ else _) in *.
  assert (length contents < capacity') by (unfold capacity'; case_decide; lia).
  destruct (version_read h quiet bound Hh call (length contents) (capacity' - length contents))
    as [[E' Hq]|[(e & He & E')|(k & Hk & E')]]; [lia|rewrite E' in E..].
  { rewrite decide_True in E by done. eapply IH; [exact E|intros; apply Hv; lia|done|lia..]. }
  { by rewrite decide_False in E by done. }
  rewrite Hv in E by lia.
  set (m := Nat.min (capacity' - length contents) k) in *. assert (0 < m ≤ capacity' - length contents) by lia.
  destruct (take m _) as [|b bs] eqn:E2.
  - apply so_far_end in E2 as <-; [by simplify_eq|done|lia].
  - rewrite <- E2 in E. eapply IH; [exact E|intros; apply Hv; lia|by apply so_far_more| |lia].
    rewrite length_app, length_take. lia.
Qed.

Lemma version_bounded capacity contents fuel call :
  length contents ≤ capacity → 0 < capacity → (quiet - call) + (bound - length contents) < fuel →
  ∃ r call', read_to_end sys fuel call fd capacity contents = Some (r, call') ∧
    ∀ e, r = Unexpected e → call_failed e.
Proof.
  revert capacity contents call. induction fuel as [|fuel IH]; intros capacity contents call Hl H0 Hf; [lia|]. simpl.
  set (capacity' := if decide _ then _ else _).
  assert (length contents < capacity') by (unfold capacity'; case_decide; lia).
  destruct (version_read h quiet bound Hh call (length contents) (capacity' - length contents))
    as [[-> Hq]|[(e & He & E)|(k & Hk & ->)]]; [lia|..].
  { rewrite decide_True by done. apply IH; lia. }
  { rewrite E, decide_False by done. eexists _, _. split; [done|]. intros ? [= <-]. by eapply pread_failed. }
  set (m := Nat.min (capacity' - length contents) k). assert (0 < m ≤ capacity' - length contents) by lia.
  destruct (take m _) as [|b bs] eqn:E; [by eexists _, _|]. rewrite <- E.
  pose proof (version_size h quiet bound Hh call).
  pose proof (f_equal length E) as E'. rewrite length_take, length_skipn in E'. simpl in E'.
  apply IH; rewrite ?length_app, ?length_take, ?length_skipn; lia.
Qed.

(** A file that changes fewer times than it is tried is handed out as it was at
    some moment, unless a call fails, or a change does not show. *)
Definition changes_among (changed : list nat) : Prop := ∀ k, h k ≠ h (S k) → k ∈ changed.

Lemma unchanged_between changed a b :
  changes_among changed → a ≤ b → (∀ k, a ≤ k < b → k ∉ changed) → h a = h b.
Proof.
  intros Hc. induction 1 as [|b Hab IH]; intros Hn; [done|].
  rewrite IH by (intros; apply Hn; lia). destruct (decide (h b = h (S b))) as [|Hne]; [done|].
  destruct (Hn b); [lia|by apply Hc].
Qed.

(** Between the calls [a] and [c] the file was changed, yet it has the size and
    the time it had. *)
Definition change_unseen (a c : nat) : Prop :=
  (h c).2 = (h a).2 ∧ length (h c).1 = length (h a).1 ∧ ∃ b, a ≤ b ≤ c ∧ h b ≠ h a.

Definition content_at (k : nat) : FileContent := {|
  bytes := (h k).1;
  content_info := {| file_size := length (h k).1; file_mtime := to_file_time (h k).2 |} |}.

Definition one_moment (r : expected error_code FileContent) : Prop :=
  match r with
  | Unexpected e => call_failed e
  | Value c => (∃ k, c = content_at k) ∨ ∃ a b, change_unseen a b
  end.

(** Nothing changes between two calls, or a change is unseen, or is seen. *)
Lemma unchanged_or_unseen a c :
  a ≤ c → (h c).2 = (h a).2 → length (h c).1 = length (h a).1 →
  (∀ b, a ≤ b ≤ c → h b = h a) ∨ change_unseen a c.
Proof.
  intros Hac Ht Hl. destruct (decide (Exists (λ b, h b ≠ h a) (seq a (S (c - a))))) as [Hex|Hno].
  - right. split; [done|]. split; [done|]. apply Exists_exists in Hex as (b & Hb%elem_of_seq & ?).
    exists b. split; [lia|done].
  - left. intros b Hb. apply dec_stable. intros Hne. apply Hno, Exists_exists. exists b.
    rewrite elem_of_seq. split; [lia|done].
Qed.

Lemma attempt_version changed fuel attempts call latest :
  changes_among changed → quiet + bound < fuel →
  length (filter (λ k, call ≤ k) changed) < attempts →
  ∃ r, attempt sys fuel attempts call fd latest = Some r ∧ one_moment r.
Proof.
  intros Hc Hf. revert call latest. induction attempts as [|attempts IH]; intros call latest Hn; [lia|]. simpl.
  destruct (version_stat h quiet bound Hh call) as [[e E0]|E0]; rewrite E0; [by eexists; split; [done|eapply fstat_failed]|].
  simpl. destruct (version_bounded (S (length (h call).1)) [] fuel (S call)) as (given & call' & E & Herr); [simpl; lia..|].
  rewrite E. simpl. destruct given as [contents|e]; [|by eexists; split; [done|apply Herr]].
  destruct (version_stat h quiet bound Hh call') as [[e E1]|E1]; rewrite E1; [by eexists; split; [done|eapply fstat_failed]|].
  pose proof (read_to_end_later _ _ _ _ _ _ E) as Hlt.
  destruct (same_version _ _ && _) eqn:Es.
  - apply andb_true_iff in Es as [Es _]. unfold same_version in Es. bool_to_prop.
    simpl in *. eexists. split; [done|]. simpl.
    destruct (unchanged_or_unseen call call') as [Hv|Hu]; [lia|destruct_and?; congruence..| |right; by exists call, call'].
    apply read_to_end_version with (content := (h call).1) in E;
      [|intros; by rewrite Hv by lia|done|simpl; lia..].
    left. exists call. by subst.
  - apply IH.
    destruct (decide (Exists (λ k, call ≤ k < call') changed)) as [Hex|Hex].
    + apply Exists_exists in Hex as (k & Hk & Hck).
      enough (length (filter (λ k, S call' ≤ k) changed) < length (filter (λ k, call ≤ k) changed)) by lia.
      apply (filter_fewer _ _ _ k); [intros; lia|done|lia..].
    + exfalso. assert (∀ c, call ≤ c ≤ call' → h c = h call) as Hv.
      { intros c Hcc. symmetry. apply (unchanged_between changed); [done|lia|].
        intros k Hk Hin. apply Hex, Exists_exists. exists k. split; [done|lia]. }
      apply read_to_end_version with (content := (h call).1) in E;
        [|intros; by rewrite Hv by lia|done|simpl; lia..].
      simplify_eq. rewrite (Hv call') in Es by lia. unfold same_version in Es. simpl in Es.
      by rewrite !bool_decide_true in Es by done.
Qed.
End loops.

(** ** Paths never leave the root *)

Lemma append_below p n ns :
  Forall is_name (names p) → p // Path false (n :: ns) = Path (root_directory p) (names p ++ n :: ns).
Proof.
  intros Hp. unfold append. simpl. destruct (has_filename p) eqn:Hfn; [done|]. f_equal.
  unfold has_filename, filename in Hfn. destruct (names p) as [|x xs _] using rev_ind; [done|].
  rewrite last_snoc in Hfn. simpl in Hfn. apply Forall_app in Hp as [_ Hx]. inversion_clear Hx as [|?? Hx' _].
  destruct Hx' as [Hx' _]. by destruct x.
Qed.

Lemma resolve_inside m_root p absolute :
  Forall (λ n, slash ∉ n) (names p) → Forall is_name (names m_root) → resolve m_root p = Some absolute →
  root_directory absolute = root_directory m_root ∧
  ∃ ns, names absolute = names m_root ++ ns ∧ Forall (λ n, n ≠ dot_dot) ns.
Proof.
  intros Hs Hroot. unfold resolve. destruct (is_empty p) eqn:He.
  { intros [= <-]. split; [done|]. exists []. by rewrite app_nil_r. }
  destruct (_ || _) eqn:Habs; [done|]. apply orb_false_elim in Habs as [_ Habs].
  assert (∃ ns, lexically_normal p = Path false ns ∧ ns ≠ [] ∧
    (head ns ≠ Some dot_dot → Forall (λ n, n ≠ dot_dot) ns)) as (ns & -> & Hne & Hdd).
  { unfold lexically_normal. rewrite He. unfold has_root_path in Habs. rewrite Habs.
    pose proof (normalize_names_stack false (names p) [] false Hs) as Hst.
    destruct (normalize_names _ _ _ _) as [stack sep]. simpl in Hst.
    destruct Hst as (k & ns & -> & Hns); [by exists 0, []|].
    destruct (ns ++ replicate k dot_dot) as [|top rest] eqn:Est.
    { exists [dot]. split; [done|]. split; [done|]. intros _. by repeat constructor. }
    eexists. split; [done|]. rewrite <- Est, rev_app_distr. split.
    - intros E. apply app_eq_nil in E as [E _]. rewrite <- rev_app_distr, Est in E. simpl in E. by destruct (rev rest).
    - destruct k as [|k].
      2: { intros []. by rewrite replicate_S_end, (rev_app_distr _ [dot_dot]). }
      intros _. simpl.
      apply Forall_app. split; [|case_match; by repeat constructor].
      apply Forall_forall. intros n Hn. apply list_elem_of_In, in_rev, list_elem_of_In in Hn.
      rewrite Forall_forall in Hns. by destruct (Hns n Hn) as (_ & _ & ? & _). }
  destruct (path_elements (Path false ns)) as [|first rest] eqn:Epe; [by destruct ns|].
  assert (ns = first :: rest) as -> by done. case_decide as Hf; [done|].
  specialize (Hdd ltac:(simpl; congruence)). intros [= <-]. rewrite append_below by done. split; [done|]. by exists (first :: rest).
Qed.

Lemma resolve_canonical m_root p :
  Forall is_name (names m_root) → canonical p →
  resolve m_root p = Some (Path (root_directory m_root) (names m_root ++ names p)).
Proof.
  intros Hroot [Hr Hp]. destruct p as [r ns]. simpl in *. subst. unfold resolve, is_empty, is_absolute, has_root_path.
  simpl. destruct ns as [|n ns]; [simpl; rewrite app_nil_r; by destruct m_root|]. simpl.
  rewrite lexically_normal_plain by done. simpl.
  apply Forall_cons in Hp as [(H1 & H2 & H3 & H4) _]. rewrite decide_False by done.
  by rewrite append_below.
Qed.

(** ** Walks *)

Lemma walk_app ds c ns ms :
  walk ds c (ns ++ ms) = (c' ← walk ds c ns; walk ds c' ms).
Proof.
  revert c. induction ns as [|n ns IH]; intros c; simpl.
  - destruct c as [i|content mtime]; [|done]. destruct (ds !! i) eqn:E; [done|]. simpl.
    destruct ms; simpl; by rewrite E.
  - destruct c as [i|content mtime]; [|done]. destruct (ds !! i); [|done].
    destruct (_ || _); [apply IH|]. destruct (children _ !! n); [apply IH|done].
Qed.

Lemma walk_name ds i dir n :
  ds !! i = Some dir → is_name n →
  walk ds (EDirectory i) [n] = match children dir !! n with Some c => walk ds c [] | None => Unexpected ENOENT end.
Proof. intros E (H1 & H2 & _). simpl. by rewrite E, !bool_decide_false. Qed.

Lemma walk_stays ds c ns c' : walk ds c ns = Value c' → walk ds c' [] = Value c'.
Proof.
  intros E. pose proof E as E'. rewrite <- (app_nil_r ns), walk_app, E in E'. done.
Qed.


(** ** Each directory has one place *)

Section places.
Context (d : Disk) (Hd : disk_ok d).

(** Directory [i] is found along [ns]. *)
Definition place (i : nat) (ns : list str) : Prop :=
  Forall is_name ns ∧ walk (directories d) (EDirectory (top d)) ns = Value (EDirectory i).

Lemma place_nil : place (top d) [].
Proof. split; [done|]. simpl. by destruct (top_there d Hd) as [dir ->]. Qed.

Lemma place_there i ns : place i ns → is_Some (directories d !! i).
Proof. intros [_ E%walk_stays]. simpl in E. by destruct (directories d !! i). Qed.

Lemma place_snoc j ns n :
  place j (ns ++ [n]) ↔
  ∃ i dir, place i ns ∧ is_name n ∧ directories d !! i = Some dir ∧ children dir !! n = Some (EDirectory j).
Proof.
  unfold place. rewrite Forall_app, Forall_singleton, walk_app. split.
  - intros [[Hns Hn] E]. destruct (walk _ _ ns) as [c|] eqn:Ec; [|done]. simpl in E.
    destruct c as [i|]; [|done]. destruct (directories d !! i) as [dir|] eqn:Ei; [|done].
    destruct Hn as (Hn1 & Hn2 & Hn3). rewrite !bool_decide_false in E by done. simpl in E.
    destruct (children dir !! n) as [c|] eqn:Ech; [|done]. destruct c as [k|]; [|done].
    destruct (directories d !! k); [|done]. simplify_eq. by exists i, dir.
  - intros (i & dir & [Hns Ei] & Hn & Hdir & Hch). split; [done|]. rewrite Ei.
    change (walk (directories d) (EDirectory i) [n] = Value (EDirectory j)). rewrite (walk_name _ i dir) by done. rewrite Hch. simpl.
    by destruct (children_there d Hd i dir n j Hdir Hch) as [[dj ->] _].
Qed.

Lemma place_unique i ns ms : place i ns → place i ms → ns = ms.
Proof.
  revert i ms. induction ns as [|n ns IH] using rev_ind; intros i ms Hns Hms.
  - destruct ms as [|m ms _] using rev_ind; [done|]. apply place_snoc in Hms as (k & dir & _ & _ & H1 & H2).
    destruct Hns as [_ Hns]. simpl in Hns. destruct (directories d !! top d); simplify_eq.
    by destruct (children_there d Hd k dir m (top d)) as [_ []].
  - apply place_snoc in Hns as (k & dir & Hk & _ & H1 & H2).
    destruct ms as [|m ms _] using rev_ind.
    + destruct Hms as [_ Hms]. simpl in Hms. destruct (directories d !! top d); simplify_eq.
      by destruct (children_there d Hd k dir n (top d)) as [_ []].
    + apply place_snoc in Hms as (k' & dir' & Hk' & _ & H3 & H4).
      destruct (one_place d Hd k k' dir dir' n m i) as [-> ->]; [done..|]. f_equal. by eapply IH.
Qed.

Lemma place_prefix i ns ms : place i (ns ++ ms) → ∃ j, place j ns.
Proof.
  revert i. induction ms as [|m ms IH] using rev_ind; intros i.
  - rewrite app_nil_r. by exists i.
  - rewrite app_assoc. intros (j & _ & Hj & _)%place_snoc. by eapply IH.
Qed.

Lemma place_depth i ns : place i ns → length ns < size (directories d).
Proof.
  intros Hi.
  assert (∃ js, length js = S (length ns) ∧ NoDup js ∧ ∀ j, j ∈ js → ∃ ms, place j ms ∧ length ms ≤ length ns)
    as (js & Hlen & Hnd & Hjs).
  { revert i Hi. induction ns as [|n ns IH] using rev_ind; intros i Hi.
    - exists [i]. split; [done|]. split; [apply NoDup_singleton|]. intros j ->%list_elem_of_singleton. by exists [].
    - pose proof Hi as (k & _ & Hk & _)%place_snoc. destruct (IH k Hk) as (js & Hlen & Hnd & Hjs).
      exists (i :: js). rewrite length_app. simpl. split; [lia|]. split.
      + constructor; [|done]. intros (ms & Hms & Hl)%Hjs. rewrite (place_unique i ms _ Hms Hi), length_app in Hl.
        simpl in Hl. lia.
      + intros j [->|Hj]%elem_of_cons; [exists (ns ++ [n]); rewrite length_app; split; [done|simpl; lia]|].
        destruct (Hjs j Hj) as (ms & ? & ?). exists ms. split; [done|lia]. }
  change (S (length ns) ≤ size (directories d)). rewrite <- size_dom, <- Hlen.
  rewrite <- (size_list_to_set (C := gset nat) js) by done.
  apply subseteq_size. intros j (ms & Hms & _)%elem_of_list_to_set%Hjs.
  apply elem_of_dom. by eapply place_there.
Qed.
End places.

(** ** The laws *)

#[local] Arguments attempt : simpl never.
#[local] Arguments pread_loop : simpl never.

Section laws.
Context (t : RealTreeOn) (Ht : tree_ok t).
Notation ds := (directories (disk_of t)).

Definition found (p : path) : expected Z Child :=
  match resolve (root_of t) p with Some absolute => located t absolute | None => Unexpected ENOENT end.

Lemma found_canonical p : canonical p → found p = walk ds (EDirectory (top (disk_of t))) (names p).
Proof.
  intros Hp. unfold found. destruct Ht as [_ [Hr Hroot] _ _]. rewrite resolve_canonical by done.
  unfold located, beneath. simpl.
  rewrite take_app_length, drop_app_length. by rewrite bool_decide_true.
Qed.

Lemma found_child p n : canonical p → is_name n → found (child p n) = (c ← found p; walk ds c [n]).
Proof.
  intros Hp Hn. rewrite !found_canonical by (try apply child_canonical; done).
  rewrite child_names by done. simpl. by rewrite walk_app.
Qed.

Lemma found_there p c : found p = Value c → walk ds c [] = Value c.
Proof.
  unfold found, located. intros E. destruct (resolve _ _); [|done]. destruct (beneath _ _); [|done].
  by eapply walk_stays.
Qed.

Lemma status_found p i :
  status t p = Value i ↔ ∃ c, found p = Value c ∧ i = make_info (stat_of ds c).
Proof.
  simpl. unfold status_on, resolved, found. destruct (resolve _ _) as [absolute|]; simpl; [|naive_solver].
  destruct (located t absolute); simpl; naive_solver.
Qed.

Lemma found_directory p : is_directory_at t p ↔ ∃ i, found p = Value (EDirectory i).
Proof.
  unfold is_directory_at. setoid_rewrite status_found. split.
  - intros (d & [i|content mtime] & Hc & E); [by eexists|done].
  - intros [i Hi]. eexists _, _. split; [done|]. done.
Qed.

Lemma opened_located absolute : opened t absolute = located t absolute.
Proof. unfold opened. destruct (located t absolute); [|done]. simpl. by rewrite (tree_opens t Ht). Qed.

Lemma read_whole_found p :
  read_whole t p =
  match resolve (root_of t) p with
  | None => Unexpected (make_error_code no_such_file_or_directory)
  | Some absolute =>
      match located t absolute with
      | Unexpected e => Unexpected (system_error e)
      | Value (EDirectory _) => Unexpected (make_error_code is_a_directory)
      | Value (EFile content mtime) =>
          Value {| bytes := content;
                   content_info := {| file_size := length content; file_mtime := to_file_time mtime |} |}
      end
  end.
Proof.
  simpl. unfold read_whole_on, enough. destruct (resolve _ _) as [absolute|]; [|done]. simpl. rewrite opened_located.
  destruct (located t absolute) as [[i|content mtime]|e]; [done| |done].
  destruct (attempt_version (system_of t) (EFile content mtime) (λ _, (content, mtime)) (interrupted t)
    (length content)) with (changed := @nil nat) (fuel := interrupted t + 0 + length content + 2)
    (attempts := k_read_whole_attempts) (call := 0) (latest := no_content) as (r & -> & Hr).
  - constructor; simpl; [by right| |done]. intros call offset n Hn. destruct (pace t call) as [k|] eqn:E.
    + right; right. exists (S k). split; [lia|done].
    + left. split; [done|]. destruct (decide (call < interrupted t)); [done|].
      destruct (tree_pace t Ht call); [lia|done].
  - by intros k.
  - lia.
  - simpl. unfold k_read_whole_attempts. lia.
  - simpl. destruct r as [c|e]; simpl in Hr.
    + by destruct Hr as [[k ->]|(a & b & _ & _ & ? & _ & ?)].
    + destruct Hr as (errno & _ & call & [E|(He & off & n & E)]); [done|]. simpl in E.
      destruct (pace t call); simplify_eq.
Qed.

Lemma read_found p offset n content mtime :
  found p = Value (EFile content mtime) → (0 ≤ offset)%Z →
  read t p offset n = Value (take n (skipn (Z.to_nat offset) content)).
Proof.
  intros E Ho. simpl. unfold read_on, enough. unfold found in E. destruct (resolve _ _) as [absolute|]; [|done].
  rewrite decide_False by lia. case_decide as Hn; [by subst|]. simpl. rewrite opened_located, E.
  rewrite pread_loop_steady with (content := content) (quiet := interrupted t); [done| |done|simpl; lia|].
  - intros call off m Hm. simpl. destruct (pace t call) as [k|] eqn:Ep.
    + right. exists (S k). split; [lia|done].
    + left. split; [done|]. destruct (decide (call < interrupted t)); [done|].
      destruct (tree_pace t Ht call); [lia|done].
  - rewrite length_skipn. simpl. lia.
Qed.

Definition entry_of (dir : Directory) (n : str) : option TreeEntry :=
  c ← children dir !! n; Some {| entry_name := n; entry_info := make_info (stat_of ds c) |}.

Lemma entry_of_Some dir n e :
  entry_of dir n = Some e ↔ ∃ c, children dir !! n = Some c ∧ e = {| entry_name := n; entry_info := make_info (stat_of ds c) |}.
Proof. unfold entry_of. destruct (children dir !! n); simpl; naive_solver. Qed.

Lemma child_there i dir n c :
  ds !! i = Some dir → children dir !! n = Some c → walk ds (EDirectory i) [n] = Value c.
Proof.
  intros Hdir Hc. destruct Ht as [Hd _ _ _].
  rewrite (walk_name _ i dir) by (done || by eapply names_plain). rewrite Hc. destruct c as [j|]; [|done]. simpl.
  by destruct (children_there _ Hd i dir n j Hdir Hc) as [[dj ->] _].
Qed.

Lemma entries_of_names absolute i dir ns :
  located t absolute = Value (EDirectory i) → ds !! i = Some dir → (∀ n, n ∈ ns → is_Some (children dir !! n)) →
  entries_of (system_of t) absolute (map Value ns) = Value (omap (entry_of dir) ns).
Proof.
  intros Hi Hdir. induction ns as [|n ns IH]; intros Hns; simpl; [done|].
  destruct (Hns n) as [c Hc]; [left|]. destruct Ht as [Hd _ _ _].
  destruct (names_plain _ Hd i dir n c Hdir Hc) as (_ & H1 & H2 & _). rewrite !bool_decide_false by done. simpl.
  assert (found_in t absolute n = Value c) as -> by (unfold found_in; rewrite Hi; by apply (child_there i dir)).
  simpl. rewrite IH by (intros; apply Hns; by right). unfold entry_of. by rewrite Hc.
Qed.

Lemma ls_found p :
  ls t p =
  match resolve (root_of t) p with
  | None => Unexpected (make_error_code no_such_file_or_directory)
  | Some absolute =>
      match located t absolute with
      | Unexpected e => Unexpected (system_error e)
      | Value (EFile _ _) => Unexpected (system_error ENOTDIR)
      | Value (EDirectory i) =>
          match ds !! i with
          | Some dir => Value (omap (entry_of dir) (map_to_list (children dir)).*1)
          | None => Unexpected (system_error ENOENT)
          end
      end
  end.
Proof.
  simpl. unfold ls_on, resolved. destruct (resolve _ _) as [absolute|]; [|done]. simpl.
  unfold opened_directory. rewrite opened_located. destruct (located t absolute) as [[i|content mtime]|e] eqn:E; [|done|done]. simpl.
  destruct (ds !! i) as [dir|] eqn:Hdir; [|done]. simpl.
  apply (entries_of_names absolute i dir); [done|done|].
  intros n ([n' c] & -> & Hc%elem_of_map_to_list)%list_elem_of_fmap. by exists c.
Qed.

Lemma ls_directory p i dir :
  found p = Value (EDirectory i) → ds !! i = Some dir →
  ls t p = Value (omap (entry_of dir) (map_to_list (children dir)).*1).
Proof.
  unfold found. rewrite ls_found. destruct (resolve _ _); [|done]. by intros -> ->.
Qed.

Lemma found_dir p i : found p = Value (EDirectory i) → is_Some (ds !! i).
Proof. intros E%found_there. simpl in E. by destruct (ds !! i). Qed.

Lemma child_entries_distinct dir : NoDup (entry_name <$> omap (entry_of dir) (map_to_list (children dir)).*1).
Proof.
  pose proof (NoDup_fst_map_to_list (children dir)) as Hnd. revert Hnd.
  generalize (map_to_list (children dir)).*1 as ns.
  induction 1 as [|n ns Hn Hns IH]; simpl; [constructor|].
  destruct (entry_of dir n) as [e|] eqn:E; [|done]. simpl. constructor; [|done].
  apply entry_of_Some in E as (c & _ & ->). simpl. intros (e & -> & He)%list_elem_of_fmap.
  apply list_elem_of_omap in He as (m & Hm & (c' & _ & ->)%entry_of_Some). by destruct Hn.
Qed.
End laws.

#[global] Instance RealDirectoryTree_lawful : LawfulTree RealTreeOn tree_ok.
Proof.
  constructor.
  - intros t Ht. apply found_directory. exists (top (disk_of t)).
    rewrite found_canonical by (done || apply root_canonical). apply (place_nil _ (tree_disk t Ht)).
  - intros t p n Ht Hp Hn Hst. apply found_directory. destruct (status t (child p n)) as [i|] eqn:E; [|done].
    apply status_found in E as (c & E & _). rewrite found_child in E by done.
    destruct (found t p) as [[i'|]|]; [by eexists|done|done].
  - intros t Ht. exists (size (directories (disk_of t))). intros p Hp Hst.
    destruct (status t p) as [i|] eqn:E; [|done].
    apply status_found in E as (c & E & _). rewrite found_canonical in E by done.
    destruct Hp as [_ Hp]. destruct (names p) as [|n ns _] using rev_ind; [simpl; lia|].
    rewrite walk_app in E. destruct (walk _ _ ns) as [[i'|]|] eqn:Ens; [|done|done].
    apply Forall_app in Hp as [Hp _]. rewrite length_app. simpl.
    assert (length ns < size (directories (disk_of t))); [|lia].
    by apply (place_depth _ (tree_disk t Ht) i').
  - intros t p i Ht. rewrite read_whole_found by done. split.
    + intros (c & E & Hi)%status_found. unfold found in E. destruct (resolve _ _); [|done]. rewrite E.
      destruct c as [j|content mtime]; [done|]. injection Hi as ->. eexists. by split.
    + intros (c & E & <-). apply status_found. unfold found. destruct (resolve _ _) as [absolute|]; [|done].
      destruct (located t absolute) as [[j|content mtime]|e]; [done| |done]. simplify_eq. by eexists.
  - intros t p c Ht. rewrite read_whole_found by done. intros E. repeat case_match; by simplify_eq.
  - intros t p Ht (i & E)%found_directory. rewrite read_whole_found by done. unfold found in E.
    destruct (resolve _ _); [|done]. by rewrite E.
  - intros t p c offset n Ht. rewrite read_whole_found by done. intros E Ho.
    destruct (resolve _ _) as [absolute|] eqn:Er; [|done].
    destruct (located t absolute) as [[j|content mtime]|e] eqn:El; [done| |done]. simplify_eq. simpl bytes.
    apply (read_found t Ht p offset n content mtime); [|done]. unfold found. by rewrite Er.
  - intros t p Ht. rewrite found_directory. split.
    + rewrite ls_found by done. unfold found. destruct (resolve _ _) as [absolute|]; [|done].
      destruct (located t absolute) as [[j|content mtime]|e]; [|done|done]. intros _. by eexists.
    + intros [i Hi]. destruct (found_dir t p i Hi) as [dir Hdir]. by rewrite (ls_directory t Ht p i dir).
  - intros t p es Ht Hp E.
    assert (is_directory_at t p) as [i Hi]%found_directory.
    { rewrite ls_found in E by done. apply found_directory. unfold found. destruct (resolve _ _) as [absolute|]; [|done].
      destruct (located t absolute) as [[j|content mtime]|e]; [|done|done]. by eexists. }
    destruct (found_dir t p i Hi) as [dir Hdir]. rewrite (ls_directory t Ht p i dir) in E by done. simplify_eq.
    split; [apply child_entries_distinct|]. intros n info. rewrite list_elem_of_omap, status_found.
    setoid_rewrite entry_of_Some. split.
    + intros (m & Hm & c & Hc & [= -> ->]). pose proof (names_plain _ (tree_disk t Ht) i dir m c Hdir Hc) as Hn.
      split; [done|]. exists c. split; [|done]. rewrite found_child by done. rewrite Hi. simpl mbind.
      by apply (child_there t Ht i dir).
    + intros (Hn & c & E & ->). rewrite found_child, Hi in E by done.
      change (walk (directories (disk_of t)) (EDirectory i) [n] = Value c) in E.
      rewrite (walk_name _ i dir) in E by done. destruct (children dir !! n) as [c'|] eqn:Hc; [|done].
      exists n. split; [apply list_elem_of_fmap; exists (n, c'); split; [done|by apply elem_of_map_to_list]|].
      exists c'. split; [done|]. f_equal. f_equal. f_equal. destruct c' as [j|]; simpl in E; [|congruence].
      destruct (directories _ !! j); [congruence|done].
Qed.
