(* ===== verification/RealWatch.v ===== *)
(** * Watching a directory for changes (src/realdirectorytree-linux.cpp)

    [RealDirectoryTree::Impl]'s watch: [start_watcher], [add_watch],
    [drain_events] and [notify_subscribers], beside what they are up against.
    Anyone may change the disk between any two of their system calls; the kernel
    puts a record of each change in a bounded queue, for the directories that
    have a watch. *)

From S2P Require Export RealTreeSpec.

(** ** inotify *)

Definition IN_MODIFY : Z := 2.
Definition IN_ATTRIB : Z := 4.
Definition IN_CLOSE_WRITE : Z := 8.
Definition IN_MOVED_FROM : Z := 64.
Definition IN_MOVED_TO : Z := 128.
Definition IN_CREATE : Z := 256.
Definition IN_DELETE : Z := 512.
Definition IN_Q_OVERFLOW : Z := 16384.
Definition IN_IGNORED : Z := 32768.
Definition IN_ISDIR : Z := 1073741824.

Definition any_of (bits : list Z) : Z := foldr Z.lor 0%Z bits.
Definition has (mask bits : Z) : bool := negb (Z.land mask bits =? 0)%Z.

Definition k_watch_mask : Z :=
  any_of [IN_CREATE; IN_DELETE; IN_MOVED_FROM; IN_MOVED_TO; IN_MODIFY; IN_ATTRIB; IN_CLOSE_WRITE].

(** A record without a name is about the watched directory itself. *)
Record inotify_event := { event_wd : Z; event_mask : Z; event_name : str }.
#[global] Instance inotify_event_eq_dec : EqDecision inotify_event.
Proof. solve_decision. Defined.

(** The kernel's part of an inotify instance. [dropped]: the queue was full and
    a record was lost. [refused]: a watch could not be planted, or a directory
    could not be opened, read on or looked at where [add_watch] goes through it. *)
Record Kernel := {
  watches : gmap nat Z;
  next_wd : Z;
  queue : list inotify_event;
  max_queued : nat;
  dropped : bool;
  refused : bool;
}.

Definition with_queue q (k : Kernel) : Kernel := {|
  watches := watches k; next_wd := next_wd k; queue := q; max_queued := max_queued k;
  dropped := dropped k; refused := refused k |}.
Definition with_watches m (k : Kernel) : Kernel := {|
  watches := m; next_wd := next_wd k; queue := queue k; max_queued := max_queued k;
  dropped := dropped k; refused := refused k |}.
Definition with_next_wd (k : Kernel) : Kernel := {|
  watches := watches k; next_wd := next_wd k + 1; queue := queue k; max_queued := max_queued k;
  dropped := dropped k; refused := refused k |}.
Definition drops (k : Kernel) : Kernel := {|
  watches := watches k; next_wd := next_wd k; queue := queue k; max_queued := max_queued k;
  dropped := true; refused := refused k |}.
Definition refuses (k : Kernel) : Kernel := {|
  watches := watches k; next_wd := next_wd k; queue := queue k; max_queued := max_queued k;
  dropped := dropped k; refused := true |}.

Definition overflow_event : inotify_event := {| event_wd := -1; event_mask := IN_Q_OVERFLOW; event_name := [] |}.

(** A record equal to the one before it is merged with it. In place of the
    first that does not fit there is one that says so. *)
Definition push (e : inotify_event) (k : Kernel) : Kernel :=
  if decide (last (queue k) = Some e) then k
  else if decide (length (queue k) < max_queued k) then with_queue (queue k ++ [e]) k
  else if decide (overflow_event ∈ queue k) then drops k
  else drops (with_queue (queue k ++ [overflow_event]) k).

(** What happens to [name] in directory [i]. *)
Definition emit (i : nat) (mask : Z) (name : str) (k : Kernel) : Kernel :=
  match watches k !! i with
  | Some wd => if has mask k_watch_mask then push {| event_wd := wd; event_mask := mask; event_name := name |} k else k
  | None => k
  end.

(** Directory [i] is gone. *)
Definition lose (i : nat) (k : Kernel) : Kernel :=
  match watches k !! i with
  | Some wd =>
      push {| event_wd := wd; event_mask := IN_IGNORED; event_name := [] |} (with_watches (delete i (watches k)) k)
  | None => k
  end.

(** ** Changes to the disk *)

Definition dir_bit (c : Child) : Z := match c with EDirectory _ => IN_ISDIR | EFile _ _ => 0 end.

Inductive Change :=
  | MakeDirectory (i : nat) (n : str) (j : nat) (time : Z * Z)
  | MakeFile (i : nat) (n : str) (content : str) (time : Z * Z)
  | WriteFile (i : nat) (n : str) (content : str) (time : Z * Z)
  | CloseFile (i : nat) (n : str)
  | SetTime (i : nat) (n : str) (time : Z * Z)
  | RemoveFile (i : nat) (n : str) (time : Z * Z)
  | RemoveDirectory (i : nat) (n : str) (time : Z * Z)
  | Rename (i : nat) (n : str) (i' : nat) (n' : str) (time : Z * Z).

Definition child_of (d : Disk) (i : nat) (n : str) : option Child :=
  dir ← directories d !! i; children dir !! n.

Definition with_directories ds (d : Disk) : Disk := {| top := top d; directories := ds |}.
Definition change_children (time : Z * Z) (f : gmap str Child → gmap str Child) (dir : Directory) : Directory :=
  {| dir_mtime := time; children := f (children dir) |}.
Definition set_child i n c time (d : Disk) : Disk :=
  with_directories (alter (change_children time <[n := c]>) i (directories d)) d.
Definition unset_child i n time (d : Disk) : Disk :=
  with_directories (alter (change_children time (delete n)) i (directories d)) d.
Definition add_directory j time (d : Disk) : Disk :=
  with_directories (<[j := {| dir_mtime := time; children := ∅ |}]> (directories d)) d.
Definition drop_directory j (d : Disk) : Disk := with_directories (delete j (directories d)) d.
Definition set_dir_mtime j time (d : Disk) : Disk :=
  with_directories (alter (λ dir, {| dir_mtime := time; children := children dir |}) j (directories d)) d.

Definition is_empty_directory (d : Disk) (j : nat) : bool :=
  match directories d !! j with Some dir => bool_decide (children dir = ∅) | None => false end.

(** What [rename] may put [c] in place of. *)
Definition may_replace (d : Disk) (c : Child) (target : option Child) : bool :=
  match c, target with
  | _, None => true
  | EFile _ _, Some (EFile _ _) => true
  | EDirectory _, Some (EDirectory j) => is_empty_directory d j
  | _, _ => false
  end.
(** Directory [i] is [c], or somewhere in it: [rename] does not move a directory
    into itself. *)
Fixpoint holds (fuel : nat) (d : Disk) (c : Child) (i : nat) : bool :=
  match fuel, c with
  | S fuel', EDirectory j =>
      bool_decide (i = j) ||
      match directories d !! j with
      | Some dir => existsb (λ e, holds fuel' d e.2 i) (map_to_list (children dir))
      | None => false
      end
  | _, _ => false
  end.
Definition drop_target (target : option Child) (d : Disk) : Disk :=
  match target with Some (EDirectory j) => drop_directory j d | _ => d end.
Definition lose_target (target : option Child) (k : Kernel) : Kernel :=
  match target with Some (EDirectory j) => lose j k | _ => k end.

(** [None] when the kernel would fail the call. *)
Definition happen (c : Change) (d : Disk) (k : Kernel) : option (Disk * Kernel) :=
  match c with
  | MakeDirectory i n j time =>
      _ ← directories d !! i;
      if bool_decide (is_name n) && bool_decide (child_of d i n = None) &&
         bool_decide (directories d !! j = None) && bool_decide (watches k !! j = None)
      then Some (set_child i n (EDirectory j) time (add_directory j time d),
                 emit i (Z.lor IN_CREATE IN_ISDIR) n k)
      else None
  | MakeFile i n content time =>
      _ ← directories d !! i;
      if bool_decide (is_name n) && bool_decide (child_of d i n = None)
      then Some (set_child i n (EFile content time) time d, emit i IN_CREATE n k) else None
  | WriteFile i n content time =>
      dir ← directories d !! i;
      match children dir !! n with
      | Some (EFile _ _) => Some (set_child i n (EFile content time) (dir_mtime dir) d, emit i IN_MODIFY n k)
      | _ => None
      end
  | CloseFile i n =>
      match child_of d i n with
      | Some (EFile _ _) => Some (d, emit i IN_CLOSE_WRITE n k)
      | _ => None
      end
  | SetTime i n time =>
      dir ← directories d !! i;
      match children dir !! n with
      | Some (EFile content _) => Some (set_child i n (EFile content time) (dir_mtime dir) d, emit i IN_ATTRIB n k)
      | Some (EDirectory j) =>
          Some (set_dir_mtime j time d,
                emit j (Z.lor IN_ATTRIB IN_ISDIR) [] (emit i (Z.lor IN_ATTRIB IN_ISDIR) n k))
      | None => None
      end
  | RemoveFile i n time =>
      match child_of d i n with
      | Some (EFile _ _) => Some (unset_child i n time d, emit i IN_DELETE n k)
      | _ => None
      end
  | RemoveDirectory i n time =>
      match child_of d i n with
      | Some (EDirectory j) =>
          if is_empty_directory d j
          then Some (drop_directory j (unset_child i n time d), lose j (emit i (Z.lor IN_DELETE IN_ISDIR) n k))
          else None
      | _ => None
      end
  | Rename i n i' n' time =>
      c ← child_of d i n;
      _ ← directories d !! i';
      let target := child_of d i' n' in
      if bool_decide (is_name n') && negb (bool_decide ((i, n) = (i', n'))) &&
         negb (holds (S (size (directories d))) d c i') && may_replace d c target
      then Some (drop_target target (set_child i' n' c time (unset_child i n time d)),
                 lose_target target
                   (emit i' (Z.lor IN_MOVED_TO (dir_bit c)) n' (emit i (Z.lor IN_MOVED_FROM (dir_bit c)) n k)))
      else None
  end.

(** ** The watch *)

(** A round of [drain_events]: what it has gathered, and the records read but
    not yet looked at. *)
Record Drain := {
  files : gset path;
  changed_directories : gset path;
  overflowed : bool;
  buffer : list inotify_event;
}.

Inductive Phase := NotWatching | Starting (subscriber : nat) | Waiting | Draining (d : Drain).

(** The calls of [add_watch] under way, the innermost first: about to plant the
    watch, about to list the directory, and going through its entries. *)
Inductive Call := Plants (p : path) | Opens (p : path) | Iterates (p : path) (ns : list str).

(** Subscribers are known by numbers; [notified] is every call of a callback. *)
Record Impl := {
  m_watch_descriptors : gmap Z path;
  m_subscribers : list nat;
  phase : Phase;
  calls : list Call;
  notified : list (nat * DirectoryTreeDiff);
}.

Definition with_descriptors m (s : Impl) : Impl := {|
  m_watch_descriptors := m; m_subscribers := m_subscribers s; phase := phase s; calls := calls s;
  notified := notified s |}.
Definition with_subscribers l (s : Impl) : Impl := {|
  m_watch_descriptors := m_watch_descriptors s; m_subscribers := l; phase := phase s; calls := calls s;
  notified := notified s |}.
Definition with_phase ph (s : Impl) : Impl := {|
  m_watch_descriptors := m_watch_descriptors s; m_subscribers := m_subscribers s; phase := ph; calls := calls s;
  notified := notified s |}.
Definition with_calls l (s : Impl) : Impl := {|
  m_watch_descriptors := m_watch_descriptors s; m_subscribers := m_subscribers s; phase := phase s; calls := l;
  notified := notified s |}.
Definition with_notified l (s : Impl) : Impl := {|
  m_watch_descriptors := m_watch_descriptors s; m_subscribers := m_subscribers s; phase := phase s; calls := calls s;
  notified := l |}.

Record World := { disk : Disk; kernel : Kernel; impl : Impl }.

(** [m_root / p], as the kernel finds it. *)
Definition seen (d : Disk) (p : path) : option Child :=
  match walk (directories d) (EDirectory (top d)) (names p) with Value c => Some c | Unexpected _ => None end.

(** [inotify_add_watch]: a directory that has a watch keeps it. Other files can
    be watched too, but then nothing that is said of them has a name. *)
Definition inotify_add_watch (fails : bool) (d : Disk) (p : path) (k : Kernel) : option Z * Kernel :=
  if fails then (None, refuses k)
  else
    match seen d p with
    | None => (None, k)
    | Some (EFile _ _) => (Some (next_wd k), with_next_wd k)
    | Some (EDirectory i) =>
        match watches k !! i with
        | Some wd => (Some wd, k)
        | None => (Some (next_wd k), with_next_wd (with_watches (<[i := next_wd k]> (watches k)) k))
        end
    end.

(** How a step of [add_watch] goes: as it should; its system call fails -
    [inotify_add_watch], [opendir] or [readdir]; [symlink_status] fails for the
    entry it looks at, though it is there; or the listing gives an entry that has
    come since it was opened, as a listing may. *)
Inductive Reply := Goes | Fails | Skips | Also (n : str).
#[global] Instance Reply_eq_dec : EqDecision Reply.
Proof. solve_decision. Defined.

(** The entry [n] of [p], a directory or not. *)
Definition enters (d : Disk) (p : path) (n : str) : list Call :=
  match seen d (p // of_string n) with
  | Some (EDirectory _) => [Plants (p // of_string n)]
  | _ => []
  end.

(** A step of the loop over the entries: whether a call failed, and the calls
    then under way. An error ends the loop, silently. *)
Definition lists (r : Reply) (d : Disk) (c : Call) (cs : list Call) : option (bool * list Call) :=
  match c with
  | Plants _ => None
  | Opens p =>
      match r with
      | Goes =>
          Some (false, match seen d p with
                       | Some (EDirectory i) =>
                           match directories d !! i with
                           | Some dir => Iterates p (map_to_list (children dir)).*1 :: cs
                           | None => cs
                           end
                       | _ => cs
                       end)
      | Fails => Some (true, cs)
      | _ => None
      end
  | Iterates p ns =>
      match r with
      | Goes => match ns with
                | [] => Some (false, cs)
                | n :: ns' => Some (false, enters d p n ++ Iterates p ns' :: cs)
                end
      | Fails => Some (true, cs)
      | Skips => match ns with
                 | [] => None
                 | _ :: ns' => Some (true, Iterates p ns' :: cs)
                 end
      | Also n => if bool_decide (is_name n) then Some (false, enters d p n ++ Iterates p ns :: cs) else None
      end
  end.

(** One step of [add_watch]. *)
Definition add_watch (r : Reply) (w : World) : option World :=
  let '{| disk := d; kernel := k; impl := s |} := w in
  match calls s with
  | [] => None
  | Plants p :: cs =>
      let '(wd, k') := inotify_add_watch (bool_decide (r = Fails)) d p k in
      let m := match wd with
               | Some wd => <[wd := p]> (m_watch_descriptors s)
               | None => m_watch_descriptors s
               end in
      Some {| disk := d; kernel := k'; impl := with_calls (Opens p :: cs) (with_descriptors m s) |}
  | c :: cs =>
      '(failed, cs') ← lists r d c cs;
      Some {| disk := d; kernel := if (failed : bool) then refuses k else k; impl := with_calls cs' s |}
  end.

Definition k_child_list_bits : Z := any_of [IN_CREATE; IN_DELETE; IN_MOVED_FROM; IN_MOVED_TO].
Definition k_appearing_bits : Z := any_of [IN_CREATE; IN_MOVED_TO].

(** The record's child: [directory / event->name]. *)
Definition relative_to (directory : path) (name : str) : path :=
  if is_empty directory then of_string name else directory // of_string name.

(** The body of the loop over the records. *)
Definition handle (e : inotify_event) (b : Drain) (s : Impl) : Drain * Impl :=
  if has (event_mask e) IN_Q_OVERFLOW then
    ({| files := files b; changed_directories := changed_directories b; overflowed := true; buffer := buffer b |}, s)
  else
    match m_watch_descriptors s !! event_wd e with
    | None => (b, s)
    | Some directory =>
        if has (event_mask e) IN_IGNORED then
          (b, with_descriptors (delete (event_wd e) (m_watch_descriptors s)) s)
        else if is_nil (event_name e) then (b, s)
        else
          let relative := relative_to directory (event_name e) in
          ({| files := {[ relative ]} ∪ files b;
              changed_directories :=
                if has (event_mask e) k_child_list_bits then {[ directory ]} ∪ changed_directories b
                else changed_directories b;
              overflowed := overflowed b; buffer := buffer b |},
           if has (event_mask e) IN_ISDIR && has (event_mask e) k_appearing_bits
           then with_calls [Plants relative] s else s)
    end.

Definition notify_subscribers (d : DirectoryTreeDiff) (s : Impl) : Impl :=
  with_notified (notified s ++ map (λ i, (i, d)) (m_subscribers s)) s.

Definition says_something (d : DirectoryTreeDiff) : bool :=
  everything_dirty d || negb (is_nil (entries_changed d)) || negb (is_nil (child_lists_changed d)).

Definition diff_of (b : Drain) : DirectoryTreeDiff := {|
  everything_dirty := overflowed b;
  entries_changed := paths_in_order (files b);
  child_lists_changed := paths_in_order (changed_directories b) |}.

Definition end_drain (b : Drain) (s : Impl) : Impl :=
  with_phase Waiting (if says_something (diff_of b) then notify_subscribers (diff_of b) s else s).

Definition fresh_drain : Drain := {|
  files := ∅; changed_directories := ∅; overflowed := false; buffer := [] |}.
Definition with_buffer l (b : Drain) : Drain := {|
  files := files b; changed_directories := changed_directories b; overflowed := overflowed b; buffer := l |}.

(** What the program does next, and what others do to the disk. [Reads n] is a
    [read] that [n] more records fit in after the first. *)
Inductive Action :=
  | Happens (c : Change)
  | Subscribes (i : nat)
  | Unsubscribes (i : nat)
  | Adds (r : Reply)
  | Started
  | Wakes
  | Reads (n : nat)
  | Handles.

Definition with_impl s (w : World) : World := {| disk := disk w; kernel := kernel w; impl := s |}.

Definition step (a : Action) (w : World) : option World :=
  let '{| disk := d; kernel := k; impl := s |} := w in
  match a with
  | Happens c => '(d', k') ← happen c d k; Some {| disk := d'; kernel := k'; impl := s |}
  | Subscribes i =>
      match phase s with
      | NotWatching => Some (with_impl (with_phase (Starting i) (with_calls [Plants root] s)) w)
      | Starting _ => None
      | _ => Some (with_impl (with_subscribers (m_subscribers s ++ [i]) s) w)
      end
  | Unsubscribes i => Some (with_impl (with_subscribers (filter (i ≠.) (m_subscribers s)) s) w)
  | Adds r => add_watch r w
  | Started =>
      match phase s, calls s with
      | Starting i, [] => Some (with_impl (with_phase Waiting (with_subscribers (m_subscribers s ++ [i]) s)) w)
      | _, _ => None
      end
  | Wakes =>
      match phase s, queue k with
      | Waiting, _ :: _ => Some (with_impl (with_phase (Draining fresh_drain) s) w)
      | _, _ => None
      end
  | Reads n =>
      match phase s, calls s with
      | Draining b, [] =>
          if is_nil (buffer b) then
            match queue k with
            | [] => Some (with_impl (end_drain b s) w)
            | _ :: _ =>
                Some {| disk := d; kernel := with_queue (skipn (S n) (queue k)) k;
                        impl := with_phase (Draining (with_buffer (take (S n) (queue k)) b)) s |}
            end
          else None
      | _, _ => None
      end
  | Handles =>
      match phase s, calls s with
      | Draining b, [] =>
          match buffer b with
          | [] => None
          | e :: es =>
              let '(b', s') := handle e (with_buffer es b) s in
              Some (with_impl (with_phase (Draining b') s') w)
          end
      | _, _ => None
      end
  end.

Fixpoint runs (acts : list Action) (w : World) : option World :=
  match acts with
  | [] => Some w
  | a :: acts' => w' ← step a w; runs acts' w'
  end.

(** The watch has nothing left to do. *)
Definition at_rest (w : World) : Prop :=
  phase (impl w) = Waiting ∧ calls (impl w) = [] ∧ queue (kernel w) = [].

(** A tree that nobody has subscribed to yet. *)
Definition initially (d : Disk) (max : nat) : World := {|
  disk := d;
  kernel := {| watches := ∅; next_wd := 1; queue := []; max_queued := max; dropped := false; refused := false |};
  impl := {| m_watch_descriptors := ∅; m_subscribers := []; phase := NotWatching; calls := []; notified := [] |} |}.
