(* ===== verification/RealWatchFacts.v ===== *)
(** * What the watch keeps true

    Changes to the disk, whatever they are, leave a tree; each directory that
    comes to a new place is announced; and between any two steps every directory
    has a watch that knows its place, or something the watch still has to do
    will give it one. *)

From S2P Require Export RealWatch.

(** ** The queue *)

Lemma push_queue e k : queue k ⊆ queue (push e k).
Proof.
  unfold push. repeat case_decide; simpl; try done.
  - set_solver.
  - set_solver.
Qed.

Lemma push_kept e k : dropped (push e k) = false → dropped k = false ∧ e ∈ queue (push e k).
Proof.
  unfold push. repeat case_decide; simpl; intros; try done.
  - split; [done|]. by apply last_Some_elem_of.
  - split; [done|]. set_solver.
Qed.

Lemma push_from e k e' : e' ∈ queue (push e k) → e' ∈ queue k ∨ e' = e ∨ e' = overflow_event.
Proof. unfold push. repeat case_decide; simpl; set_solver. Qed.

Lemma push_watches e k : watches (push e k) = watches k ∧ next_wd (push e k) = next_wd k ∧ refused (push e k) = refused k.
Proof. unfold push. by repeat case_decide. Qed.

(** What a change leaves of the kernel's part, when the directories [gone] are. *)
Record after (gone : nat → Prop) (k k' : Kernel) : Prop := {
  after_queue : queue k ⊆ queue k';
  after_dropped : dropped k' = false → dropped k = false;
  after_refused : refused k' = refused k;
  after_next : next_wd k' = next_wd k;
  after_watches i : watches k' !! i = watches k !! i ∨ gone i ∧ watches k' !! i = None;
  after_from e : e ∈ queue k' →
    e ∈ queue k ∨ e = overflow_event ∨
    ∃ i, watches k !! i = Some (event_wd e) ∧ (event_name e = [] ∨ is_name (event_name e)) ∧
      (has (event_mask e) IN_IGNORED = true → watches k' !! i = None);
}.

Lemma after_refl gone k : after gone k k.
Proof. constructor; auto. Qed.

Lemma after_trans gone k1 k2 k3 : after gone k1 k2 → after gone k2 k3 → after gone k1 k3.
Proof.
  intros H12 H23. constructor.
  - etrans; [apply H12|apply H23].
  - intros H. by apply (after_dropped _ _ _ H12), (after_dropped _ _ _ H23).
  - rewrite (after_refused _ _ _ H23). apply H12.
  - rewrite (after_next _ _ _ H23). apply H12.
  - intros i. destruct (after_watches _ _ _ H12 i) as [<-|[? E]]; [apply H23|].
    destruct (after_watches _ _ _ H23 i) as [E'|?]; [|auto]. rewrite E in E'. auto.
  - intros e [He|[->|(i & Hi & Hn & Hig)]]%(after_from _ _ _ H23); [|auto|].
    + apply (after_from _ _ _ H12) in He as [?|[->|(i & Hi & Hn & Hig)]]; [auto..|].
      right. right. exists i. split_and!; [done..|]. intros E.
      destruct (after_watches _ _ _ H23 i) as [->|[_ ->]]; auto.
    + right. right. exists i. split_and!; [|done..].
      destruct (after_watches _ _ _ H12 i) as [<-|[_ E]]; congruence.
Qed.

Lemma after_emit gone i mask n k :
  n = [] ∨ is_name n → has mask IN_IGNORED = false → after gone k (emit i mask n k).
Proof.
  intros Hn Hm. unfold emit. destruct (watches k !! i) as [wd|] eqn:E; [|apply after_refl].
  destruct (has mask k_watch_mask); [|apply after_refl].
  destruct (push_watches {| event_wd := wd; event_mask := mask; event_name := n |} k) as (Hw & Hx & Hr).
  constructor; [apply push_queue|by intros [? ?]%push_kept|done|done|left; by rewrite Hw|].
  intros e [?|[->| ->]]%push_from; [auto| |auto]. right. right. exists i. simpl. split_and!; [done..|congruence].
Qed.

Lemma emit_watches i mask n k : watches (emit i mask n k) = watches k.
Proof. unfold emit. repeat case_match; try done. apply push_watches. Qed.

Lemma after_lose (gone : nat → Prop) i k : gone i → after gone k (lose i k).
Proof.
  intros Hg. unfold lose. destruct (watches k !! i) as [wd|] eqn:E; [|apply after_refl].
  set (e0 := {| event_wd := wd; event_mask := IN_IGNORED; event_name := [] |}).
  set (k0 := with_watches _ k). destruct (push_watches e0 k0) as (Hw & Hx & Hr).
  constructor; [apply (push_queue e0 k0)|by intros [? ?]%push_kept|done|done| |].
  - intros j. rewrite Hw. simpl. destruct (decide (i = j)) as [<-|Hne].
    + right. by rewrite lookup_delete_eq.
    + left. by rewrite lookup_delete_ne.
  - intros e [?|[->| ->]]%push_from; [auto| |auto]. right. right. exists i. split_and!; [done|auto|].
    intros _. rewrite Hw. simpl. apply lookup_delete_eq.
Qed.

Lemma emit_kept i mask n k wd :
  watches k !! i = Some wd → has mask k_watch_mask = true → dropped (emit i mask n k) = false →
  {| event_wd := wd; event_mask := mask; event_name := n |} ∈ queue (emit i mask n k).
Proof. unfold emit. intros -> ->. by intros [? ?]%push_kept. Qed.

(** ** Changes *)

Ltac happen_inv H :=
  unfold happen, mbind, option_bind in H;
  repeat match type of H with
         | context [match ?x with _ => _ end] => let E := fresh "E" in destruct x eqn:E; try discriminate H
         end;
  injection H as <- <-; bool_to_prop.

Lemma child_of_Some d i n c :
  child_of d i n = Some c ↔ ∃ dir, directories d !! i = Some dir ∧ children dir !! n = Some c.
Proof. unfold child_of. destruct (directories d !! i); simpl; naive_solver. Qed.

Lemma child_of_name d i n c : disk_ok d → child_of d i n = Some c → is_name n.
Proof. intros Hd (dir & H1 & H2)%child_of_Some. by eapply names_plain. Qed.

Lemma dir_bit_ignored m c :
  m = IN_MOVED_FROM ∨ m = IN_MOVED_TO → has (Z.lor m (dir_bit c)) IN_IGNORED = false.
Proof. by intros [->| ->]; destruct c. Qed.

Lemma happen_kernel c d k d' k' :
  disk_ok d → happen c d k = Some (d', k') → after (λ i, directories d' !! i = None) k k'.
Proof.
  intros Hd H. destruct c; happen_inv H.
  all: try (apply after_emit; [right|done]; eauto using child_of_name, names_plain).
  - eapply after_trans; [|apply after_emit; [by left|done]].
    apply after_emit; [right; by eapply names_plain|done].
  - eapply after_trans; [|apply after_lose; simpl; by rewrite lookup_delete_eq].
    apply after_emit; [right; by eapply child_of_name|done].
  - apply after_trans with (emit i' (Z.lor IN_MOVED_TO (dir_bit c)) n' (emit i (Z.lor IN_MOVED_FROM (dir_bit c)) n k)).
    + eapply after_trans; [|apply after_emit; [by right|apply dir_bit_ignored; auto]].
      apply after_emit; [right; by eapply child_of_name|apply dir_bit_ignored; auto].
    + destruct (child_of d i' n') as [[j|]|]; [|apply after_refl..].
      apply after_lose. simpl. by rewrite lookup_delete_eq.
Qed.

(** *** The tree they leave *)

Definition is_there (d : Disk) (i : nat) : Prop := is_Some (directories d !! i).

Lemma child_of_there d i n c : child_of d i n = Some c → is_there d i.
Proof. intros (dir & H & _)%child_of_Some. by exists dir. Qed.

Lemma disk_ok_child_of d :
  disk_ok d ↔
  is_there d (top d) ∧
  (∀ i n c, child_of d i n = Some c → is_name n) ∧
  (∀ i n j, child_of d i n = Some (EDirectory j) → is_there d j ∧ j ≠ top d) ∧
  ∀ i i' n n' j, child_of d i n = Some (EDirectory j) → child_of d i' n' = Some (EDirectory j) → i = i' ∧ n = n'.
Proof.
  split.
  - intros Hd. split_and!; [apply Hd|intros; by eapply child_of_name| |].
    + intros i n j (dir & H1 & H2)%child_of_Some. by eapply children_there.
    + intros i i' n n' j (dir & H1 & H2)%child_of_Some (dir' & H3 & H4)%child_of_Some.
      by eapply (one_place d Hd i i').
  - intros (H1 & H2 & H3 & H4). constructor; [done| | |].
    + intros i dir n c ??. apply (H2 i n c). apply child_of_Some. eauto.
    + intros i dir n j ??. apply (H3 i n j). apply child_of_Some. eauto.
    + intros i i' dir dir' n n' j ????. apply (H4 i i' n n' j); apply child_of_Some; eauto.
Qed.

Lemma child_of_set i n c time d i' n' :
  is_there d i →
  child_of (set_child i n c time d) i' n' = if decide (i = i' ∧ n = n') then Some c else child_of d i' n'.
Proof.
  intros [dir Hi]. unfold child_of, set_child. simpl. destruct (decide (i = i')) as [<-|Hne].
  - rewrite lookup_alter_eq, Hi. simpl. destruct (decide (n = n')) as [<-|].
    + rewrite decide_True by done. apply lookup_insert_eq.
    + rewrite decide_False by naive_solver. by apply lookup_insert_ne.
  - rewrite lookup_alter_ne, decide_False by naive_solver. done.
Qed.

Lemma child_of_unset i n time d i' n' :
  child_of (unset_child i n time d) i' n' = if decide (i = i' ∧ n = n') then None else child_of d i' n'.
Proof.
  unfold child_of, unset_child. simpl. destruct (decide (i = i')) as [<-|Hne].
  - rewrite lookup_alter_eq. destruct (directories d !! i) as [dir|]; simpl; [|by case_decide].
    destruct (decide (n = n')) as [<-|].
    + rewrite decide_True by done. apply lookup_delete_eq.
    + rewrite decide_False by naive_solver. by apply lookup_delete_ne.
  - rewrite lookup_alter_ne, decide_False by naive_solver. done.
Qed.

Lemma child_of_add j time d i n :
  child_of (add_directory j time d) i n = if decide (i = j) then None else child_of d i n.
Proof.
  unfold child_of, add_directory. simpl. case_decide.
  - subst. rewrite lookup_insert_eq. simpl. apply lookup_empty.
  - by rewrite lookup_insert_ne.
Qed.

Lemma child_of_drop j d i n :
  child_of (drop_directory j d) i n = if decide (i = j) then None else child_of d i n.
Proof.
  unfold child_of, drop_directory. simpl. case_decide.
  - subst. by rewrite lookup_delete_eq.
  - by rewrite lookup_delete_ne.
Qed.

Lemma child_of_touch j time d i n : child_of (set_dir_mtime j time d) i n = child_of d i n.
Proof.
  unfold child_of, set_dir_mtime. simpl. destruct (decide (j = i)) as [<-|].
  - rewrite lookup_alter_eq. by destruct (directories d !! j).
  - by rewrite lookup_alter_ne.
Qed.

Lemma there_set i n c time d j : is_there (set_child i n c time d) j ↔ is_there d j.
Proof. apply lookup_alter_is_Some. Qed.
Lemma there_unset i n time d j : is_there (unset_child i n time d) j ↔ is_there d j.
Proof. apply lookup_alter_is_Some. Qed.
Lemma there_touch i time d j : is_there (set_dir_mtime i time d) j ↔ is_there d j.
Proof. apply lookup_alter_is_Some. Qed.
Lemma there_add i time d j : is_there (add_directory i time d) j ↔ i = j ∨ is_there d j.
Proof. apply lookup_insert_is_Some'. Qed.
Lemma there_drop i d j : is_there (drop_directory i d) j ↔ i ≠ j ∧ is_there d j.
Proof. apply lookup_delete_is_Some. Qed.

Lemma set_file_ok i n content mtime time d :
  disk_ok d → is_there d i → is_name n → disk_ok (set_child i n (EFile content mtime) time d).
Proof.
  rewrite !disk_ok_child_of. intros (H1 & H2 & H3 & H4) Hi Hn. setoid_rewrite there_set.
  split_and!; [done|intros i' n' c|intros i' n' j|intros i1 i2 n1 n2 j]; rewrite !child_of_set by done;
    repeat case_decide; naive_solver.
Qed.

Lemma unset_ok i n time d : disk_ok d → disk_ok (unset_child i n time d).
Proof.
  rewrite !disk_ok_child_of. intros (H1 & H2 & H3 & H4). setoid_rewrite there_unset.
  split_and!; [done|intros i' n' c|intros i' n' j|intros i1 i2 n1 n2 j]; rewrite !child_of_unset;
    repeat case_decide; naive_solver.
Qed.

Lemma touch_ok j time d : disk_ok d → disk_ok (set_dir_mtime j time d).
Proof.
  rewrite !disk_ok_child_of. intros (H1 & H2 & H3 & H4). setoid_rewrite there_touch.
  split_and!; [done|intros i' n' c|intros i' n' j'|intros i1 i2 n1 n2 j']; rewrite !child_of_touch; naive_solver.
Qed.

Lemma add_ok j time d : disk_ok d → ¬ is_there d j → disk_ok (add_directory j time d).
Proof.
  rewrite !disk_ok_child_of. intros (H1 & H2 & H3 & H4) Hj. setoid_rewrite there_add.
  split_and!; [by right|intros i' n' c|intros i' n' j'|intros i1 i2 n1 n2 j']; rewrite !child_of_add;
    repeat case_decide; naive_solver.
Qed.

Lemma drop_ok j d :
  disk_ok d → j ≠ top d → (∀ i n, child_of d i n ≠ Some (EDirectory j)) → disk_ok (drop_directory j d).
Proof.
  rewrite !disk_ok_child_of. intros (H1 & H2 & H3 & H4) Hj Hno. setoid_rewrite there_drop.
  split_and!; [done..|intros i' n' c|intros i' n' j'|intros i1 i2 n1 n2 j']; rewrite !child_of_drop;
    repeat case_decide; naive_solver.
Qed.

Lemma set_directory_ok i n j time d :
  disk_ok d → is_there d i → is_name n → is_there d j → j ≠ top d →
  (∀ i n, child_of d i n ≠ Some (EDirectory j)) → disk_ok (set_child i n (EDirectory j) time d).
Proof.
  rewrite !disk_ok_child_of. intros (H1 & H2 & H3 & H4) Hi Hn Hj Ht Hno. setoid_rewrite there_set.
  split_and!; [done|intros i' n' c|intros i' n' j'|intros i1 i2 n1 n2 j']; rewrite !child_of_set by done;
    repeat case_decide; naive_solver.
Qed.

Lemma happen_disk c d k d' k' : disk_ok d → happen c d k = Some (d', k') → disk_ok d'.
Proof.
  intros Hd H. pose proof (proj1 (disk_ok_child_of d) Hd) as (Htop & Hname & Hth & Hone).
  destruct c; happen_inv H; try done.
  - assert (¬ is_there d j) as Hj by (unfold is_there; intros [x Hx]; congruence).
    apply set_directory_ok; rewrite ?there_add; [by apply add_ok|right; by eexists|done|by left| |].
    + simpl. by intros ->.
    + intros i' n'. rewrite child_of_add. case_decide; [done|]. intros [? _]%Hth. done.
  - apply set_file_ok; [done|by eexists|done].
  - apply set_file_ok; [done|by eexists|by eapply names_plain].
  - by apply touch_ok.
  - apply set_file_ok; [done|by eexists|by eapply names_plain].
  - by apply unset_ok.
  - apply drop_ok; [by apply unset_ok|by eapply Hth|].
    intros i' n'. rewrite child_of_unset. case_decide as Hne; [done|]. intros E'. by destruct Hne, (Hone i i' n n' i0).
  - assert (is_there d i') as Hi' by by eexists.
    assert (disk_ok (set_child i' n' c time (unset_child i n time d))) as Hok.
    { destruct c as [j|content mtime]; [|apply set_file_ok; [by apply unset_ok|by apply there_unset|done]].
      destruct (Hth i n j) as [Hj Hjt]; [done|].
      apply set_directory_ok; rewrite ?there_unset; [by apply unset_ok|done..|].
      intros i1 n1. rewrite child_of_unset. case_decide as Hne; [done|]. intros E'. by destruct Hne, (Hone i i1 n n1 j). }
    destruct (child_of d i' n') as [[j'|]|] eqn:Ht; [|done..]. simpl.
    destruct (Hth i' n' j') as [Hj Hjt]; [done|]. apply drop_ok; [done|done|].
    intros i1 n1. rewrite child_of_set, child_of_unset by by apply there_unset.
    case_decide as H3; [|case_decide as H4; [done|]].
    + intros [= ->]. destruct (Hone i i' n n' j') as [-> ->]; done.
    + intros E'. destruct H3. by apply (Hone i' i1 n' n1 j').
Qed.

(** *** Where directories appear *)

(** The record says that directory [n] has appeared in the one watched as [wd]. *)
Record appears (e : inotify_event) (wd : Z) (n : str) : Prop := {
  appears_wd : event_wd e = wd;
  appears_name : event_name e = n;
  appears_bits : has (event_mask e) IN_ISDIR = true ∧ has (event_mask e) k_appearing_bits = true ∧
    has (event_mask e) IN_IGNORED = false ∧ has (event_mask e) IN_Q_OVERFLOW = false;
}.

Lemma happen_edge c d k d' k' i n j :
  happen c d k = Some (d', k') → child_of d' i n = Some (EDirectory j) →
  child_of d i n = Some (EDirectory j) ∨
  ∀ wd, watches k !! i = Some wd → dropped k' = false → ∃ e, e ∈ queue k' ∧ appears e wd n.
Proof.
  intros H Hj. destruct c; happen_inv H.
  - rewrite child_of_set, child_of_add in Hj by (apply there_add; right; by eexists).
    case_decide as Hc; [|case_decide; [done|by left]]. destruct Hc as [-> ->]. right. intros wd Hw Hk.
    eexists. split; [by apply (emit_kept _ _ _ _ wd)|]. by constructor.
  - rewrite child_of_set in Hj by by eexists. case_decide; [done|by left].
  - rewrite child_of_set in Hj by by eexists. case_decide; [done|by left].
  - by left.
  - rewrite child_of_touch in Hj. by left.
  - rewrite child_of_set in Hj by by eexists. case_decide; [done|by left].
  - rewrite child_of_unset in Hj. case_decide; [done|by left].
  - rewrite child_of_drop, child_of_unset in Hj. do 2 (case_decide; [done|]). by left.
  - assert (child_of (set_child i' n' c time (unset_child i0 n0 time d)) i n = Some (EDirectory j)) as Hj'.
    { destruct (child_of d i' n') as [[j'|]|]; [|done..]. simpl in Hj. rewrite child_of_drop in Hj. by case_decide. }
    rewrite child_of_set, child_of_unset in Hj' by (apply there_unset; by eexists).
    case_decide as Hc; [|case_decide; [done|by left]]. destruct Hc as [-> ->]. injection Hj' as ->. right. intros wd Hw Hk.
    set (k1 := emit i0 _ n0 k) in *. set (k2 := emit i _ n k1) in *.
    assert (dropped k2 = false ∧ queue k2 ⊆ queue (lose_target (child_of d i n) k2)) as [Hk2 Hq].
    { destruct (child_of d i n) as [[j'|]|]; [|done..]. simpl in *.
      pose proof (after_lose (λ _, True) j' k2 I) as Ha. split; [by apply Ha|apply Ha]. }
    eexists. split; [apply Hq, (emit_kept _ _ _ _ wd)|by constructor]; [|done|done].
    unfold k1. by rewrite emit_watches.
Qed.

(** A path whose directories a change has left alone. *)
Definition kept (d d' : Disk) (ns : list str) : Prop :=
  ∀ ms rest, ns = ms ++ rest → ∃ i, place d i ms ∧ place d' i ms.

Lemma child_place d i n j ns :
  disk_ok d → place d i ns → child_of d i n = Some (EDirectory j) → place d j (ns ++ [n]).
Proof.
  intros Hd Hi Hc. pose proof (child_of_name d i n _ Hd Hc). apply child_of_Some in Hc as (dir & H1 & H2).
  apply place_snoc; [done|]. by exists i, dir.
Qed.

Lemma place_same d i j ns : place d i ns → place d j ns → i = j.
Proof. intros [_ H1] [_ H2]. congruence. Qed.

Lemma happen_places c d k d' k' j ns :
  disk_ok d → happen c d k = Some (d', k') → place d' j ns →
  kept d d' ns ∨
  ∃ i ms n rest, ns = ms ++ n :: rest ∧ kept d d' ms ∧ place d' i ms ∧
    ∀ wd, watches k !! i = Some wd → dropped k' = false → ∃ e, e ∈ queue k' ∧ appears e wd n.
Proof.
  intros Hd H. pose proof (happen_disk _ _ _ _ _ Hd H) as Hd'.
  assert (top d' = top d) as Htop by (destruct c; happen_inv H; try done; by destruct (child_of d i' n') as [[]|]).
  revert j. induction ns as [|n ns IH] using rev_ind; intros j Hj.
  - left. intros ms rest E. symmetry in E. apply app_eq_nil in E as [-> _]. exists (top d). split; [by apply place_nil|].
    rewrite <- Htop. by apply place_nil.
  - apply place_snoc in Hj as (i & dir & Hi & Hn & Hdir & Hch); [|done].
    assert (child_of d' i n = Some (EDirectory j)) as Hc by (apply child_of_Some; eauto).
    destruct (IH i Hi) as [Hk|(i0 & ms & m & rest & -> & ?)].
    + destruct (happen_edge _ _ _ _ _ i n j H Hc) as [Hold|Hnew].
      * left. intros ms rest E. destruct rest as [|x xs _] using rev_ind.
        -- rewrite app_nil_r in E. subst ms. exists j. split; [|by apply (child_place d' i)].
           destruct (Hk ns []) as (i' & Hi' & Hi''); [by rewrite app_nil_r|].
           rewrite (place_same _ _ _ _ Hi'' Hi) in Hi'. by apply (child_place d i).
        -- rewrite app_assoc in E. apply app_inj_tail in E as [-> _]. by apply (Hk ms xs).
      * right. exists i, ns, n, []. done.
    + right. exists i0, ms, m, (rest ++ [n]). by rewrite <- app_assoc.
Qed.
