(* ===== verification/RealWatchInv.v ===== *)
(** * The watch between two steps

    What every step keeps: the bookkeeping of watch descriptors ([sound]), and
    that every directory has a watch that knows its place, or something the
    watch still has to do will give it one ([covered]). *)

From S2P Require Export RealWatchFacts.

Definition read_ahead (s : Impl) : list inotify_event :=
  match phase s with Draining b => buffer b | _ => [] end.
(** The records that have not been handled, the oldest first. *)
Definition records (w : World) : list inotify_event := read_ahead (impl w) ++ queue (kernel w).

Definition at_path (ns : list str) : path := Path false ns.

Definition call_ok (c : Call) : Prop :=
  match c with
  | Plants p | Opens p => canonical p
  | Iterates p ns => canonical p ∧ Forall is_name ns
  end.

Record sound (w : World) : Prop := {
  sound_disk : disk_ok (disk w);
  sound_next : (0 < next_wd (kernel w))%Z;
  sound_wd i wd : watches (kernel w) !! i = Some wd → (wd < next_wd (kernel w))%Z;
  sound_one i j wd : watches (kernel w) !! i = Some wd → watches (kernel w) !! j = Some wd → i = j;
  sound_record e : e ∈ records w →
    (event_wd e < next_wd (kernel w))%Z ∧ (event_name e = [] ∨ is_name (event_name e)) ∧
    (has (event_mask e) IN_IGNORED = true → ∀ i, watches (kernel w) !! i ≠ Some (event_wd e));
  sound_descriptor wd p : m_watch_descriptors (impl w) !! wd = Some p → canonical p;
  sound_calls : Forall call_ok (calls (impl w));
}.

(** Directory [i] has a watch that knows it is at [ns]. *)
Definition settled (w : World) (i : nat) (ns : list str) : Prop :=
  ∃ wd, watches (kernel w) !! i = Some wd ∧ m_watch_descriptors (impl w) !! wd = Some (at_path ns).

(** The call of [add_watch] will come by [ns]. *)
Definition comes_by (c : Call) (ns : list str) : Prop :=
  match c with
  | Plants p => ∃ rest, ns = names p ++ rest
  | Opens p => ∃ n rest, ns = names p ++ n :: rest
  | Iterates p todo => ∃ n rest, n ∈ todo ∧ ns = names p ++ n :: rest
  end.

Definition announced (w : World) (e : inotify_event) (ns : list str) : Prop :=
  ∃ i wd ms n rest,
    ns = ms ++ n :: rest ∧ place (disk w) i ms ∧ watches (kernel w) !! i = Some wd ∧ appears e wd n.

Definition due (w : World) (ns : list str) : Prop :=
  (∃ c, c ∈ calls (impl w) ∧ comes_by c ns) ∨ ∃ e, e ∈ records w ∧ announced w e ns.

Definition covered (w : World) : Prop :=
  phase (impl w) ≠ NotWatching → dropped (kernel w) = false → refused (kernel w) = false →
  ∀ i ns, place (disk w) i ns → settled w i ns ∨ due w ns.

(** ** Paths *)

Lemma canonical_at p : canonical p → p = at_path (names p).
Proof. destruct p. intros [Hr _]. simpl in Hr. by subst. Qed.

Lemma step_into p n : canonical p → is_name n → p // of_string n = at_path (names p ++ [n]).
Proof. apply child_names. Qed.

Lemma relative_to_name p n : canonical p → is_name n → relative_to p n = at_path (names p ++ [n]).
Proof.
  intros Hp Hn. unfold relative_to. destruct (is_empty p) eqn:E; [|by apply step_into].
  pose proof Hn as (H1 & _ & _ & H4). rewrite of_string_name by done. destruct p as [r ns], Hp as [Hr Hp].
  simpl in *. subst. unfold is_empty in E. simpl in E. by apply is_nil_true in E as ->.
Qed.

Lemma at_path_canonical p n : canonical p → is_name n → canonical (at_path (names p ++ [n])).
Proof. intros Hp Hn. rewrite <- step_into by done. by apply child_canonical. Qed.

Lemma seen_place d p i : canonical p → seen d p = Some (EDirectory i) ↔ place d i (names p).
Proof.
  intros [_ Hp]. unfold seen, place. destruct (walk _ _ _); naive_solver.
Qed.

Lemma comes_by_below c ns rest : comes_by c ns → comes_by c (ns ++ rest).
Proof.
  destruct c; simpl.
  - intros [r ->]. exists (r ++ rest). by rewrite app_assoc.
  - intros (n & r & ->). exists n, (r ++ rest). by rewrite <- app_assoc.
  - intros (n & r & Hn & ->). exists n, (r ++ rest). by rewrite <- app_assoc.
Qed.

Lemma announced_below w e ns rest : announced w e ns → announced w e (ns ++ rest).
Proof.
  intros (i & wd & ms & n & r & -> & H). exists i, wd, ms, n, (r ++ rest). by rewrite <- app_assoc.
Qed.

Lemma due_below w ns rest : due w ns → due w (ns ++ rest).
Proof.
  intros [(c & Hc & H)|(e & He & H)]; [left; exists c|right; exists e]; (split; [done|]).
  - by apply comes_by_below.
  - by apply announced_below.
Qed.

(** ** The bookkeeping *)

Lemma sound_change w c d' k' :
  sound w → happen c (disk w) (kernel w) = Some (d', k') → sound {| disk := d'; kernel := k'; impl := impl w |}.
Proof.
  intros Hw H. pose proof (happen_kernel _ _ _ _ _ (sound_disk w Hw) H) as Ha.
  assert (∀ i wd, watches k' !! i = Some wd → watches (kernel w) !! i = Some wd) as Hback.
  { intros i wd. destruct (after_watches _ _ _ Ha i) as [->|[_ ->]]; done. }
  constructor; simpl.
  - by eapply happen_disk, H; apply Hw.
  - rewrite (after_next _ _ _ Ha). apply Hw.
  - intros i wd Hi%Hback. rewrite (after_next _ _ _ Ha). by eapply sound_wd.
  - intros i j wd Hi%Hback Hj%Hback. by eapply sound_one.
  - intros e He. rewrite (after_next _ _ _ Ha). unfold records in He. simpl in He.
    assert (e ∈ records w ∨ e ∈ queue k') as [Hr|Hq] by (unfold records; set_solver).
    { destruct (sound_record w Hw e Hr) as (H1 & H2 & H3). split_and!; [done..|].
      intros Hig i Hi%Hback. by apply (H3 Hig i). }
    destruct (after_from _ _ _ Ha e Hq) as [Hr|[->|(i & Hi & Hn & Hig)]].
    + destruct (sound_record w Hw e) as (H1 & H2 & H3); [unfold records; set_solver|]. split_and!; [done..|].
      intros Hig i Hi%Hback. by apply (H3 Hig i).
    + pose proof (sound_next w Hw). simpl. split_and!; [lia|auto|done].
    + split_and!; [by eapply sound_wd|done|]. intros Hm j Hj.
      assert (i = j) as -> by (eapply (sound_one w Hw); [done|by apply Hback]). rewrite Hig in Hj; done.
  - apply Hw.
  - apply Hw.
Qed.

Lemma enters_ok d p n : canonical p → is_name n → Forall call_ok (enters d p n).
Proof.
  intros Hp Hn. unfold enters. destruct (seen d _) as [[i|]|]; [|done..]. apply Forall_singleton. simpl.
  by apply child_canonical.
Qed.

Lemma lists_ok r d c cs failed cs' :
  disk_ok d → Forall call_ok (c :: cs) → lists r d c cs = Some (failed, cs') → Forall call_ok cs'.
Proof.
  intros Hd [Hc Hcs]%Forall_cons H. destruct c as [p|p|p ns]; simpl in H; [done|..].
  - destruct r; simplify_eq; [|done]. simpl in Hc. destruct (seen d p) as [[i|]|]; [|done..].
    destruct (directories d !! i) as [dir|] eqn:Hi; [|done].
    constructor; [|done]. split; [done|]. apply Forall_forall.
    intros n ([n' c] & -> & Hc'%elem_of_map_to_list)%list_elem_of_fmap. by eapply names_plain.
  - destruct Hc as [Hp Hns]. destruct r as [| | |m].
    1: destruct ns as [|n ns].
    5: destruct (bool_decide (is_name m)) eqn:Hm; [apply bool_decide_eq_true in Hm|done].
    all: simplify_eq.
    + done.
    + apply Forall_cons in Hns as [Hn Hns]. apply Forall_app. split; [by apply enters_ok|by constructor].
    + done.
    + destruct ns as [|n ns]; simplify_eq. apply Forall_cons in Hns as [Hn Hns]. by constructor.
    + apply Forall_app. split; [by apply enters_ok|by constructor].
Qed.

Lemma refuses_sound d k s : sound {| disk := d; kernel := k; impl := s |} → sound {| disk := d; kernel := refuses k; impl := s |}.
Proof. intros []. by constructor. Qed.

Lemma add_watch_aside r w w' :
  add_watch r w = Some w' → disk w' = disk w ∧ phase (impl w') = phase (impl w) ∧
  m_subscribers (impl w') = m_subscribers (impl w) ∧ notified (impl w') = notified (impl w).
Proof.
  destruct w as [d k s]. simpl. intros H. destruct (calls s) as [|[p|p|p ns] cs]; [done|..].
  2, 3: destruct (lists r d _ cs) as [[failed cs']|]; [|done]; by injection H as <-.
  destruct (inotify_add_watch _ d p k). by injection H as <-.
Qed.

Lemma add_watch_sound w r w' : sound w → add_watch r w = Some w' → sound w'.
Proof.
  intros Hw H. destruct w as [d k s]. pose proof (sound_calls _ Hw) as Hcs. simpl in *.
  destruct (calls s) as [|c cs] eqn:Ec; [done|].
  assert (∀ failed cs', lists r d c cs = Some (failed, cs') →
    sound {| disk := d; kernel := if (failed : bool) then refuses k else k; impl := with_calls cs' s |}) as Hlist.
  { intros failed cs' Hl. assert (sound {| disk := d; kernel := k; impl := with_calls cs' s |}).
    { constructor; simpl; try apply Hw. by apply (lists_ok r d c cs failed); [apply Hw|..]. }
    destruct failed; [by apply refuses_sound|done]. }
  destruct c as [p|p|p ns]; [apply Forall_cons in Hcs as [Hp Hcs]; simpl in Hp|..].
  2, 3: destruct (lists r d _ cs) as [[failed cs']|]; [|done]; injection H as <-; by apply Hlist.
  - set (fails := bool_decide (r = Fails)) in H. destruct (inotify_add_watch fails d p k) as [wd k'] eqn:Ea. injection H as <-.
    pose proof (sound_next _ Hw) as Hnext. simpl in Hnext.
    assert (queue k' = queue k ∧ (next_wd k <= next_wd k')%Z ∧
      ∀ i wd', watches k' !! i = Some wd' → watches k !! i = Some wd' ∨
        wd' = next_wd k ∧ (next_wd k < next_wd k')%Z ∧ seen d p = Some (EDirectory i)) as (Hq & Hn & Hwt).
    { unfold inotify_add_watch in Ea. destruct fails; [injection Ea as <- <-; simpl; split_and!; [done|lia|auto]|].
      destruct (seen d p) as [[j|]|]; [|injection Ea as <- <-; simpl; split_and!; [done|lia|auto]..].
      destruct (watches k !! j) eqn:Ej; injection Ea as <- <-; simpl; split_and!; try (done || lia || auto).
      intros i wd' [[<- <-]|[Hne Hi]]%lookup_insert_Some; [right; split_and!; [done|lia|done]|auto]. }
    constructor; simpl.
    + apply Hw.
    + lia.
    + intros i wd' [Hi| (-> & ? & _)]%Hwt; [|done]. pose proof (sound_wd _ Hw i wd' Hi). simpl in *. lia.
    + intros i j wd' [Hi|(-> & _ & Hi)]%Hwt [Hj|(Hj & _ & Hj')]%Hwt.
      * by eapply (sound_one _ Hw).
      * subst. pose proof (sound_wd _ Hw i _ Hi). simpl in *. lia.
      * pose proof (sound_wd _ Hw j _ Hj). simpl in *. lia.
      * congruence.
    + intros e He. unfold records in He. simpl in He. rewrite Hq in He.
      destruct (sound_record _ Hw e He) as (H1 & H2 & H3). simpl in *. split_and!; [lia|done|].
      intros Hig i [Hi|(Hi & _)]%Hwt; [by apply (H3 Hig i)|lia].
    + intros wd' q. destruct wd as [wd|]; [|apply (sound_descriptor _ Hw)].
      intros [[_ <-]|[_ Hq']]%lookup_insert_Some; [done|by apply (sound_descriptor _ Hw wd')].
    + by constructor.
Qed.

Lemma handle_sound w e es b b' s' :
  sound w → phase (impl w) = Draining b → buffer b = e :: es → calls (impl w) = [] →
  handle e (with_buffer es b) (impl w) = (b', s') →
  sound (with_impl (with_phase (Draining b') s') w) ∧ buffer b' = es.
Proof.
  intros Hw Hph Hb Hcs H. destruct w as [d k s]. simpl in *.
  assert (buffer b' = es ∧ (∀ wd p, m_watch_descriptors s' !! wd = Some p → m_watch_descriptors s !! wd = Some p) ∧
    Forall call_ok (calls s')) as (Hb' & Hm & Hcs').
  { assert (Forall call_ok (calls s)) as Hok by by rewrite Hcs.
    destruct (sound_record _ Hw e) as (_ & Hn & _).
    { unfold records, read_ahead. simpl. rewrite Hph, Hb. left. }
    unfold handle in H. destruct (has _ IN_Q_OVERFLOW); [by simplify_eq|].
    destruct (m_watch_descriptors s !! event_wd e) as [p|] eqn:Ep; [|by simplify_eq].
    destruct (has _ IN_IGNORED).
    { simplify_eq. simpl. split_and!; [done| |done]. intros wd q [_ Hq]%lookup_delete_Some. done. }
    destruct (is_nil _) eqn:Enil; [by simplify_eq|]. apply is_nil_false in Enil. destruct Hn as [?|Hn]; [done|].
    injection H as <- <-. split_and!; [done|by case_match|]. case_match; [|done]. apply Forall_singleton. simpl.
    pose proof (sound_descriptor _ Hw _ _ Ep). rewrite relative_to_name by done. by apply at_path_canonical. }
  split; [|done]. constructor; simpl; try apply Hw.
  - intros e' He'. apply (sound_record _ Hw e'). unfold records, read_ahead in *. simpl in *.
    rewrite Hph, Hb. rewrite Hb' in He'. by right.
  - intros wd p Hp%Hm. by apply (sound_descriptor _ Hw wd).
  - done.
Qed.

(** A step that leaves the disk and the watches alone. *)
Lemma sound_mono w w' :
  sound w → disk w' = disk w → watches (kernel w') = watches (kernel w) → next_wd (kernel w') = next_wd (kernel w) →
  records w' ⊆ records w → m_watch_descriptors (impl w') = m_watch_descriptors (impl w) →
  Forall call_ok (calls (impl w')) → sound w'.
Proof.
  intros Hw Hd Hwt Hn Hr Hm Hc. constructor; rewrite ?Hd, ?Hwt, ?Hn, ?Hm; try apply Hw; [|done].
  intros e He%Hr. by apply (sound_record w Hw).
Qed.

Lemma with_subscribers_fields l s :
  m_watch_descriptors (with_subscribers l s) = m_watch_descriptors s ∧ calls (with_subscribers l s) = calls s ∧
  phase (with_subscribers l s) = phase s.
Proof. done. Qed.

Lemma end_drain_fields b s :
  m_watch_descriptors (end_drain b s) = m_watch_descriptors s ∧ calls (end_drain b s) = calls s ∧
  phase (end_drain b s) = Waiting ∧ m_subscribers (end_drain b s) = m_subscribers s.
Proof. unfold end_drain. by destruct (says_something _). Qed.

Lemma watch_step_sound a w w' : sound w → step a w = Some w' → sound w'.
Proof.
  intros Hw H. destruct w as [d k s]. pose proof (sound_calls _ Hw) as Hcs. simpl in Hcs.
  assert (read_ahead s ++ queue k = records {| disk := d; kernel := k; impl := s |}) as Hrec by done.
  destruct a; simpl in H.
  - destruct (happen c d k) as [[d' k']|] eqn:E; [|done]. injection H as <-. by apply (sound_change _ c _ _ Hw E).
  - destruct (phase s) eqn:Eph; simplify_eq; apply (sound_mono _ _ Hw); try done.
    + unfold records, read_ahead. simpl. by rewrite Eph.
    + by repeat constructor.
  - injection H as <-. by apply (sound_mono _ _ Hw).
  - by apply (add_watch_sound _ r _ Hw).
  - destruct (phase s) eqn:Eph, (calls s) eqn:Ec; simplify_eq. apply (sound_mono _ _ Hw); try done.
    + unfold records, read_ahead. simpl. by rewrite Eph.
    + simpl. by rewrite Ec.
  - destruct (phase s) eqn:Eph, (queue k) eqn:Eq; simplify_eq. apply (sound_mono _ _ Hw); try done.
    unfold records, read_ahead. simpl. by rewrite Eph.
  - destruct (phase s) as [| | |b] eqn:Eph, (calls s) eqn:Ec; try done. destruct (is_nil (buffer b)) eqn:Eb; [|done].
    apply is_nil_true in Eb. destruct (queue k) as [|e es] eqn:Eq; injection H as <-.
    + destruct (end_drain_fields b s) as (H1 & H2 & H3 & _). apply (sound_mono _ _ Hw); try done; simpl.
      * unfold records, read_ahead. simpl. rewrite Eq. apply list_subseteq_nil.
      * change (Forall call_ok (calls (end_drain b s))). by rewrite H2, Ec.
    + apply (sound_mono _ _ Hw); try done; simpl; [|by rewrite Ec].
      unfold records, read_ahead. simpl. rewrite Eph, Eb, Eq. simpl. by rewrite firstn_skipn.
  - destruct (phase s) as [| | |b] eqn:Eph, (calls s) eqn:Ec; try done. destruct (buffer b) as [|e es] eqn:Eb; [done|].
    destruct (handle e (with_buffer es b) s) as [b' s'] eqn:Eh. injection H as <-.
    by apply (handle_sound {| disk := d; kernel := k; impl := s |} e es b).
Qed.

(** ** The watches cover the tree *)

Lemma covered_change w c d' k' :
  sound w → covered w → happen c (disk w) (kernel w) = Some (d', k') →
  covered {| disk := d'; kernel := k'; impl := impl w |}.
Proof.
  intros Hw Hcov H Hph Hdr Href i ns Hi. simpl in *.
  pose proof (happen_kernel _ _ _ _ _ (sound_disk w Hw) H) as Ha.
  specialize (Hcov Hph). specialize (Hcov (after_dropped _ _ _ Ha Hdr)).
  rewrite (after_refused _ _ _ Ha) in Href. specialize (Hcov Href).
  assert (∀ j ms, place d' j ms → watches k' !! j = watches (kernel w) !! j) as Hwt.
  { intros j ms Hj. destruct (after_watches _ _ _ Ha j) as [|[Hg _]]; [done|].
    apply place_there in Hj as [x Hx]. congruence. }
  set (w' := {| disk := d'; kernel := k'; impl := impl w |}).
  assert (∀ ns, kept (disk w) d' ns → due w ns → due w' ns) as Hdue.
  { intros ms Hk [Hc|(e & He & i0 & wd & ms0 & n & rest & -> & Hp & Hi0 & Happ)]; [by left|]. right. exists e.
    split; [pose proof (after_queue _ _ _ Ha); unfold records in *; simpl; set_solver|].
    exists i0, wd, ms0, n, rest. simpl. destruct (Hk ms0 (n :: rest)) as (i1 & H1 & H2); [done|].
    rewrite (place_same _ _ _ _ H1 Hp) in H2. split_and!; [done|done| |done]. by rewrite (Hwt i0 ms0). }
  destruct (happen_places _ _ _ _ _ i ns (sound_disk w Hw) H Hi) as [Hk|(j & ms & n & rest & -> & Hk & Hj & Hnew)].
  - destruct (Hk ns []) as (i' & H1 & H2); [by rewrite app_nil_r|]. rewrite (place_same _ _ _ _ H2 Hi) in H1.
    destruct (Hcov i ns H1) as [(wd & Hwd & Hm)|Hd]; [left|right; by apply Hdue].
    exists wd. simpl. by rewrite (Hwt i ns).
  - right. destruct (Hk ms []) as (j' & H1 & H2); [by rewrite app_nil_r|]. rewrite (place_same _ _ _ _ H2 Hj) in H1.
    destruct (Hcov j ms H1) as [(wd & Hwd & Hm)|Hd]; [|by apply due_below, Hdue].
    destruct (Hnew wd Hwd Hdr) as (e & He & Happ). right. exists e. split; [unfold records; set_solver|].
    exists j, wd, ms, n, rest. simpl. by rewrite (Hwt j ms).
Qed.

(** A step that leaves what there is to do. *)
Lemma watch_covered_mono w w' :
  covered w → phase (impl w) ≠ NotWatching →
  disk w' = disk w → watches (kernel w') = watches (kernel w) →
  dropped (kernel w') = dropped (kernel w) → refused (kernel w') = refused (kernel w) →
  records w ⊆ records w' → m_watch_descriptors (impl w') = m_watch_descriptors (impl w) →
  calls (impl w) ⊆ calls (impl w') → covered w'.
Proof.
  intros Hc Hph Hd Hwt Hdr Href Hr Hm Hcs _ Hdr' Href' i ns Hi. rewrite Hd in Hi. rewrite Hdr in Hdr'. rewrite Href in Href'.
  destruct (Hc Hph Hdr' Href' i ns Hi) as [(wd & H1 & H2)|[(c & H1 & H2)|(e & H1 & j & wd & ms & n & rest & H2)]].
  - left. exists wd. by rewrite Hwt, Hm.
  - right. left. exists c. split; [set_solver|done].
  - right. right. exists e. split; [set_solver|]. exists j, wd, ms, n, rest. by rewrite Hd, Hwt.
Qed.

Lemma plants_covered p cs d k s fails wd k' :
  sound {| disk := d; kernel := k; impl := s |} → covered {| disk := d; kernel := k; impl := s |} →
  calls s = Plants p :: cs → inotify_add_watch fails d p k = (wd, k') →
  covered {| disk := d; kernel := k'; impl := with_calls (Opens p :: cs) (with_descriptors
    (match wd with Some wd => <[wd := p]> (m_watch_descriptors s) | None => m_watch_descriptors s end) s) |}.
Proof.
  intros Hw Hcov Hcs Ha Hph Hdr Href i ns Hi. simpl in *.
  pose proof (sound_calls _ Hw) as Hok. simpl in Hok. rewrite Hcs in Hok. apply Forall_cons in Hok as [Hp _]. simpl in Hp.
  destruct fails; [by injection Ha as <- <-|].
  (* the watch planted, if there is a directory at [p] *)
  assert (queue k' = queue k ∧ dropped k' = dropped k ∧ refused k' = refused k ∧
    (∀ j wd', watches k !! j = Some wd' → watches k' !! j = Some wd') ∧
    (∀ j, place d j (names p) → ∃ wd', wd = Some wd' ∧ watches k' !! j = Some wd') ∧
    ∀ j wd', wd = Some wd' → watches k !! j = Some wd' → place d j (names p)) as (Hq & Hd' & Hr' & Hext & Hnew & Hold).
  { pose proof (sound_wd _ Hw) as Hlt. pose proof (sound_one _ Hw) as Hone. simpl in *.
    unfold inotify_add_watch in Ha. setoid_rewrite <- (seen_place d p _ Hp).
    destruct (seen d p) as [[j|]|] eqn:Es; [destruct (watches k !! j) as [wd'|] eqn:Ej|..];
      injection Ha as <- <-; simpl; split_and!; try done.
    - intros j' [= <-]. eauto.
    - intros j' ? [= <-] Hj'. by rewrite (Hone j' j wd').
    - intros j' wd' Hj'. rewrite lookup_insert_ne; [done|congruence].
    - intros j' [= <-]. eexists. split; [done|]. apply lookup_insert_eq.
    - intros j' wd' [= <-] Hj'. apply Hlt in Hj'. lia.
    - intros j' wd' [= <-] Hj'. apply Hlt in Hj'. lia. }
  rewrite Hd' in Hdr. rewrite Hr' in Href.
  destruct (Hcov Hph Hdr Href i ns Hi) as [(wd' & H1 & H2)|[(c & H1 & H2)|(e & H1 & j & wd' & ms & n & rest & -> & H3 & H4 & H5)]].
  - left. exists wd'. simpl in *. split; [by apply Hext|]. destruct wd as [wd|]; [|done].
    destruct (decide (wd = wd')) as [->|]; [|by rewrite lookup_insert_ne].
    rewrite lookup_insert_eq, (canonical_at p Hp). do 2 f_equal.
    apply (place_unique d (sound_disk _ Hw) i); [by apply (Hold i wd')|done].
  - simpl in H1. rewrite Hcs in H1. apply elem_of_cons in H1 as [->|H1].
    2: { right. left. exists c. split; [by right|done]. }
    destruct H2 as [rest ->]. destruct rest as [|n rest].
    + rewrite app_nil_r in *. destruct (Hnew i Hi) as (wd' & -> & Hwd'). left. exists wd'. simpl. split; [done|].
      by rewrite lookup_insert_eq, (canonical_at p Hp).
    + right. left. exists (Opens p). split; [left|by exists n, rest].
  - right. right. exists e. unfold records in *. simpl in *. rewrite Hq. split; [done|].
    exists j, wd', ms, n, rest. simpl. split_and!; [done|done|by apply Hext|done].
Qed.

(** What is due by the call replaced is due by those in its place. *)
Lemma calls_covered d k s c cs cs' :
  covered {| disk := d; kernel := k; impl := s |} → calls s = c :: cs →
  (∀ i ns, place d i ns → comes_by c ns → ∃ c', c' ∈ cs' ∧ comes_by c' ns) → cs ⊆ cs' →
  covered {| disk := d; kernel := k; impl := with_calls cs' s |}.
Proof.
  intros Hcov Hcs Hc Hsub Hph Hdr Href i ns Hi. simpl in *.
  destruct (Hcov Hph Hdr Href i ns Hi) as [Hs|[(c' & H1 & H2)|Hr]]; [by left| |by right; right].
  right. left. simpl in H1. rewrite Hcs in H1. apply elem_of_cons in H1 as [->|H1].
  - by apply (Hc i).
  - exists c'. split; [by apply Hsub|done].
Qed.

Lemma lists_covered r d k s c cs cs' :
  sound {| disk := d; kernel := k; impl := s |} → covered {| disk := d; kernel := k; impl := s |} →
  calls s = c :: cs → lists r d c cs = Some (false, cs') →
  covered {| disk := d; kernel := k; impl := with_calls cs' s |}.
Proof.
  intros Hw Hcov Ec H. pose proof (sound_calls _ Hw) as Hok. simpl in Hok. rewrite Ec in Hok.
  apply Forall_cons in Hok as [Hp _]. apply (calls_covered _ _ _ _ _ _ Hcov Ec).
  - intros i q Hi Hq. destruct c as [p|p|p ns]; simpl in H, Hp; [done|..].
    + destruct r; simplify_eq. destruct Hq as (n & rest & ->).
      rewrite (cons_middle n _ rest), app_assoc in Hi. apply place_prefix in Hi as [j Hj]; [|apply Hw].
      pose proof Hj as (i0 & dir & Hi0 & Hn & Hdir & Hch)%place_snoc; [|apply Hw].
      apply seen_place in Hi0 as ->; [|done]. rewrite Hdir. eexists. split; [left|]. exists n, rest. split; [|done].
      apply list_elem_of_fmap. exists (n, EDirectory j). split; [done|]. by apply elem_of_map_to_list.
    + destruct Hp as [Hp Hns]. destruct Hq as (m & rest & Hm & ->).
      destruct r as [| | |e].
      1: destruct ns as [|n ns].
      5: destruct (bool_decide (is_name e)); [|done].
      all: simplify_eq.
      * by apply elem_of_nil in Hm.
      * apply Forall_cons in Hns as [Hn Hns]. apply elem_of_cons in Hm as [->|Hm].
        -- rewrite (cons_middle n _ rest), app_assoc in Hi. apply place_prefix in Hi as [j Hj]; [|apply Hw].
           unfold enters. rewrite step_into by done. apply (seen_place d (at_path _)) in Hj as ->; [|by apply at_path_canonical].
           eexists. split; [left|]. exists rest. simpl. by rewrite <- app_assoc.
        -- exists (Iterates p ns). split; [set_solver|]. by exists m, rest.
      * destruct ns; by simplify_eq.
      * exists (Iterates p ns). split; [set_solver|]. by exists m, rest.
  - destruct c as [p|p|p ns]; simpl in H; [done|..]; repeat case_match; simplify_eq; set_solver.
Qed.

Lemma add_watch_covered w r w' : sound w → covered w → add_watch r w = Some w' → covered w'.
Proof.
  intros Hw Hcov H. destruct w as [d k s]. simpl in H.
  destruct (calls s) as [|c cs] eqn:Ec; [done|].
  assert (∀ failed cs', lists r d c cs = Some (failed, cs') →
    covered {| disk := d; kernel := if (failed : bool) then refuses k else k; impl := with_calls cs' s |}) as Hlist.
  { intros [|] cs' Hl; [by intros _ _ ?|]. by apply (lists_covered r d k s c cs). }
  destruct c as [p|p|p ns].
  2, 3: destruct (lists r d _ cs) as [[failed cs']|]; [|done]; injection H as <-; by apply Hlist.
  destruct (inotify_add_watch _ d p k) as [wd k'] eqn:Ea. injection H as <-. by eapply plants_covered.
Qed.

Lemma handle_covered d k s b e es b' s' :
  let w := {| disk := d; kernel := k; impl := s |} in
  sound w → covered w → phase s = Draining b → buffer b = e :: es → calls s = [] →
  handle e (with_buffer es b) s = (b', s') →
  covered (with_impl (with_phase (Draining b') s') w).
Proof.
  intros w Hw Hcov Hph Hb Hcs H _ Hdr Href i ns Hi. simpl in *.
  assert (records w = e :: es ++ queue k) as Hrec by (unfold records, read_ahead; simpl; by rewrite Hph, Hb).
  assert (buffer b' = es) as Hb'.
  { unfold handle in H. repeat case_match; by simplify_eq. }
  set (w' := with_impl (with_phase (Draining b') s') w).
  assert (records w' = es ++ queue k) as Hrec' by (unfold records, read_ahead; simpl; by rewrite Hb').
  assert (∀ j ms, settled w j ms → settled w' j ms) as Hset.
  { intros j ms (wd & H1 & H2). exists wd. split; [done|]. simpl in *. unfold handle in H.
    repeat case_match; simplify_eq; try done. simpl. rewrite lookup_delete_ne; [done|]. intros <-.
    destruct (sound_record w Hw e) as (_ & _ & Hig); [rewrite Hrec; left|]. by apply (Hig ltac:(done) j). }
  assert (∀ ms, due w ms → due w' ms ∨ announced w e ms) as Hdue.
  { intros ms [(c & Hc & _)|(e' & He' & Ha)]; [simpl in Hc; rewrite Hcs in Hc; by apply elem_of_nil in Hc|].
    rewrite Hrec in He'. apply elem_of_cons in He' as [->|He']; [by right|]. left. right. exists e'. by rewrite Hrec'. }
  destruct (Hcov ltac:(simpl; congruence) Hdr Href i ns Hi) as [Hs|Hd]; [left; by apply Hset|].
  destruct (Hdue ns Hd) as [|(j & wd & ms & n & rest & -> & Hj & Hwd & Happ)]; [by right|]. right.
  pose proof Happ as [He1 He2 (Hb1 & Hb2 & Hb3 & Hb4)].
  destruct (Hcov ltac:(simpl; congruence) Hdr Href j ms Hj) as [(wd' & Hwd' & Hm)|Hd'].
  - simpl in *. assert (wd' = wd) as -> by congruence. left.
    assert (is_name n) as Hn.
    { rewrite (cons_middle n _ rest), app_assoc in Hi. apply place_prefix in Hi as [j' Hj']; [|apply Hw].
      destruct Hj' as [Hj' _]. apply Forall_app in Hj' as [_ Hj']. by inversion_clear Hj'. }
    assert (canonical (at_path ms)) as Hcan by by eapply (sound_descriptor w Hw).
    unfold handle in H. rewrite Hb4, He1, Hm, Hb3, He2 in H. pose proof Hn as (Hne & _).
    destruct n as [|a n]; [done|]. simpl in H. rewrite Hb1, Hb2, relative_to_name in H by done. simplify_eq. simpl.
    eexists. split; [left|]. exists rest. simpl. by rewrite <- app_assoc.
  - destruct (Hdue ms Hd') as [|(j' & wd' & ms' & n' & rest' & -> & Hj' & Hwd' & Happ')]; [by apply due_below|].
    exfalso. pose proof (appears_wd _ _ _ Happ'). simpl in *.
    assert (j' = j) as -> by (eapply (sound_one w Hw); [done|simpl; congruence]).
    pose proof (place_unique d (sound_disk w Hw) _ _ _ Hj Hj') as E.
    apply (f_equal length) in E. rewrite length_app in E. simpl in E. lia.
Qed.

Lemma step_covered a w w' : sound w → covered w → step a w = Some w' → covered w'.
Proof.
  intros Hw Hcov H. destruct w as [d k s]. destruct a; simpl in H.
  - destruct (happen c d k) as [[d' k']|] eqn:E; [|done]. injection H as <-. by apply (covered_change _ c _ _ Hw Hcov E).
  - destruct (phase s) eqn:Eph; simplify_eq; [|by apply (watch_covered_mono _ _ Hcov); simpl; rewrite ?Eph..].
    intros _ _ _ j ns Hj. right. left. exists (Plants root). simpl. split; [left|by exists ns].
  - injection H as <-. destruct (phase s) eqn:Eph; [intros Hph; simpl in Hph; congruence|..].
    all: by apply (watch_covered_mono _ _ Hcov); simpl; rewrite ?Eph.
  - by apply (add_watch_covered _ r _ Hw Hcov).
  - destruct (phase s) eqn:Eph, (calls s) eqn:Ec; simplify_eq.
    apply (watch_covered_mono _ _ Hcov); simpl; rewrite ?Eph; try done. unfold records, read_ahead. simpl. by rewrite Eph.
  - destruct (phase s) eqn:Eph, (queue k) eqn:Eq; simplify_eq.
    apply (watch_covered_mono _ _ Hcov); simpl; rewrite ?Eph; try done. unfold records, read_ahead. simpl. by rewrite Eph.
  - destruct (phase s) as [| | |b] eqn:Eph, (calls s) eqn:Ec; try done. destruct (is_nil (buffer b)) eqn:Eb; [|done].
    apply is_nil_true in Eb. destruct (queue k) as [|e es] eqn:Eq; injection H as <-.
    + destruct (end_drain_fields b s) as (H1 & H2 & H3 & _).
      apply (watch_covered_mono _ _ Hcov); try done; simpl; [by rewrite Eph| |by rewrite Ec; apply list_subseteq_nil].
      unfold records, read_ahead. simpl. rewrite Eph, Eb, Eq. apply list_subseteq_nil.
    + apply (watch_covered_mono _ _ Hcov); try done; simpl; [by rewrite Eph|].
      unfold records, read_ahead. simpl. rewrite Eph, Eb, Eq. simpl. by rewrite firstn_skipn.
  - destruct (phase s) as [| | |b] eqn:Eph, (calls s) eqn:Ec; try done. destruct (buffer b) as [|e es] eqn:Eb; [done|].
    destruct (handle e (with_buffer es b) s) as [b' s'] eqn:Eh. injection H as <-.
    by apply (handle_covered d k s b e es).
Qed.
