(* ===== verification/RealWatchTold.v ===== *)
(** * What subscribers are told

    Once a directory has a watch that knows its place, a change to an entry of
    it is always on its way to every subscriber, or the word that something was
    lost is: as a record in the queue, among what the drain has gathered, or in
    a diff they have been given. *)

From S2P Require Export RealWatchInv.

(** That an entry changed, or the set of a directory's children did. *)
Inductive Claim := EntryAt (p : path) | ListOf (p : path).

Definition claimed (cl : Claim) (d : DirectoryTreeDiff) : Prop :=
  everything_dirty d = true ∨
  match cl with EntryAt p => p ∈ entries_changed d | ListOf p => p ∈ child_lists_changed d end.

Definition gathered (cl : Claim) (b : Drain) : Prop :=
  overflowed b = true ∨
  match cl with EntryAt p => p ∈ files b | ListOf p => p ∈ changed_directories b end.

(** The record makes the claim, being about the directory at [ns]. *)
Definition makes (cl : Claim) (e : inotify_event) (ns : list str) : Prop :=
  is_name (event_name e) ∧ has (event_mask e) IN_IGNORED = false ∧ has (event_mask e) IN_Q_OVERFLOW = false ∧
  match cl with
  | EntryAt p => p = at_path (ns ++ [event_name e])
  | ListOf p => p = at_path ns ∧ has (event_mask e) k_child_list_bits = true
  end.

(** A record that will be handled while its watch is known by the right name. *)
Definition reported (cl : Claim) (w : World) : Prop :=
  ∃ l1 e l2 ns,
    records w = l1 ++ e :: l2 ∧ makes cl e ns ∧
    m_watch_descriptors (impl w) !! event_wd e = Some (at_path ns) ∧
    (∀ e', e' ∈ l1 → event_wd e' = event_wd e → has (event_mask e') IN_IGNORED = false) ∧
    (event_wd e < next_wd (kernel w))%Z ∧
    ∀ i, watches (kernel w) !! i = Some (event_wd e) → place (disk w) i ns.

(** [sub] has been told since the first [base] notifications, or will be. *)
Definition told (sub base : nat) (cl : Claim) (w : World) : Prop :=
  ∃ d, (sub, d) ∈ skipn base (notified (impl w)) ∧ claimed cl d.

Definition owed (sub base : nat) (cl : Claim) (w : World) : Prop :=
  told sub base cl w ∨
  (∃ b, phase (impl w) = Draining b ∧ gathered cl b) ∨
  (∃ e, e ∈ records w ∧ has (event_mask e) IN_Q_OVERFLOW = true) ∨
  reported cl w.

(** Steps that neither remove nor move a directory. *)
Definition leaves_directories (a : Action) (d : Disk) : bool :=
  match a with
  | Happens (RemoveDirectory _ _ _) => false
  | Happens (Rename i n _ _ _) => match child_of d i n with Some (EDirectory _) => false | _ => true end
  | _ => true
  end.

Lemma told_rest sub base cl w : at_rest w → owed sub base cl w → told sub base cl w.
Proof.
  intros (Hph & _ & Hq) [?|[(b & Hb & _)|[(e & He & _)|(l1 & e & l2 & ns & He & _)]]]; [done|congruence|..];
    unfold records, read_ahead in He; rewrite Hph, Hq in He; simpl in He.
  - by apply elem_of_nil in He.
  - by destruct l1.
Qed.

(** ** Directories stay where they are *)

Definition touched (c : Change) : list (nat * str) :=
  match c with
  | MakeDirectory i n _ _ | MakeFile i n _ _ | WriteFile i n _ _ | CloseFile i n | SetTime i n _
  | RemoveFile i n _ | RemoveDirectory i n _ => [(i, n)]
  | Rename i n i' n' _ => [(i, n); (i', n')]
  end.

Lemma happen_child c d k d' k' i n :
  happen c d k = Some (d', k') → leaves_directories (Happens c) d = true →
  child_of d' i n = child_of d i n ∨
  (i, n) ∈ touched c ∧ (∀ j, child_of d i n ≠ Some (EDirectory j)).
Proof.
  intros H Hl. destruct c; simpl in Hl; try done; happen_inv H; simpl.
  - rewrite child_of_set, child_of_add by (apply there_add; right; by eexists).
    case_decide as Hc; [right; destruct Hc as [-> ->]; split; [left|congruence]|]. left. case_decide; [|done].
    subst. unfold child_of. by rewrite H1.
  - rewrite child_of_set by by eexists. case_decide as Hc; [right; destruct Hc as [-> ->]; split; [left|congruence]|by left].
  - rewrite child_of_set by by eexists. case_decide as Hc; [right; destruct Hc as [-> ->]; split; [left|]|by left].
    intros j (dir & ? & ?)%child_of_Some. congruence.
  - by left.
  - rewrite child_of_touch. by left.
  - rewrite child_of_set by by eexists. case_decide as Hc; [right; destruct Hc as [-> ->]; split; [left|]|by left].
    intros j (dir & ? & ?)%child_of_Some. congruence.
  - rewrite child_of_unset. case_decide as Hc; [right; destruct Hc as [-> ->]; split; [left|congruence]|by left].
  - destruct c as [|content mtime]; [done|].
    destruct (child_of d i' n') as [[j'|]|] eqn:Et; [done|..]; simpl;
      (rewrite child_of_set, child_of_unset by (apply there_unset; by eexists));
      (case_decide as Hc; [right; destruct Hc as [-> ->]; split; [set_solver|congruence]|]);
      (case_decide as Hc'; [right; destruct Hc' as [-> ->]; split; [set_solver|congruence]|by left]).
Qed.

Lemma happen_stays c d k d' k' :
  happen c d k = Some (d', k') → leaves_directories (Happens c) d = true →
  ∀ i, is_there d i → is_there d' i.
Proof.
  intros H Hl i Hi. destruct c; simpl in Hl; try done; happen_inv H;
    rewrite ?there_set, ?there_unset, ?there_touch, ?there_add; auto.
  destruct c as [|content mtime]; [done|].
  destruct (child_of d i' n') as [[j'|]|] eqn:Et; [done|..]; simpl; by rewrite there_set, there_unset.
Qed.

Lemma happen_place c d k d' k' i ns :
  disk_ok d → happen c d k = Some (d', k') → leaves_directories (Happens c) d = true → place d i ns → place d' i ns.
Proof.
  intros Hd H Hl. pose proof (happen_disk _ _ _ _ _ Hd H) as Hd'. revert i.
  induction ns as [|n ns IH] using rev_ind; intros i Hi.
  - destruct Hi as [_ Hi]. simpl in Hi. destruct (directories d !! top d); [|done]. injection Hi as <-.
    replace (top d) with (top d'); [by apply place_nil|]. destruct c; happen_inv H; try done.
    by destruct (child_of d i' n') as [[]|].
  - apply place_snoc in Hi as (i0 & dir & Hi0 & Hn & H1 & H2); [|done].
    apply (child_place d' i0); [done|by apply IH|].
    assert (child_of d i0 n = Some (EDirectory i)) as Hc by (apply child_of_Some; eauto).
    destruct (happen_child _ _ _ _ _ i0 n H Hl) as [->|[_ Hno]]; [done|]. by destruct (Hno i).
Qed.

(** ** Each change is recorded *)

Lemma push_prefix e k : queue k `prefix_of` queue (push e k).
Proof. unfold push. repeat case_decide; simpl; by try apply prefix_app_r. Qed.

Lemma emit_prefix i mask n k : queue k `prefix_of` queue (emit i mask n k).
Proof. unfold emit. repeat case_match; try done. apply push_prefix. Qed.

Lemma lose_prefix i k : queue k `prefix_of` queue (lose i k).
Proof. unfold lose. case_match; [|done]. apply (push_prefix _ (with_watches _ k)). Qed.

Definition not_ignored (wd : Z) (l : list inotify_event) : Prop :=
  ∀ e, e ∈ l → event_wd e = wd → has (event_mask e) IN_IGNORED = false.

(** The queue has a record of [n] in the directory watched as [wd], or an
    overflow. *)
Definition recorded (wd : Z) (n : str) (bits : Z → Prop) (q : list inotify_event) : Prop :=
  overflow_event ∈ q ∨
  ∃ l1 e l2, q = l1 ++ e :: l2 ∧ event_wd e = wd ∧ event_name e = n ∧ bits (event_mask e) ∧ not_ignored wd l1.

Lemma recorded_more wd n bits q q' : q `prefix_of` q' → recorded wd n bits q → recorded wd n bits q'.
Proof.
  intros [q2 ->] [H|(l1 & e & l2 & -> & H)]; [left; set_solver|]. right. exists l1, e, (l2 ++ q2).
  by rewrite <- app_assoc.
Qed.

Lemma emit_recorded i mask n k wd (bits : Z → Prop) :
  watches k !! i = Some wd → has mask k_watch_mask = true → bits mask → not_ignored wd (queue k) →
  recorded wd n bits (queue (emit i mask n k)).
Proof.
  intros Hi Hm Hb Hno. unfold emit. rewrite Hi, Hm. unfold push, recorded.
  repeat case_decide; simpl; [|right|by left|left; set_solver].
  - right. destruct (queue k) as [|e q _] using rev_ind; [done|]. rewrite last_snoc in H. injection H as ->.
    eexists q, _, []. split_and!; [done..|]. intros e He. apply Hno. set_solver.
  - by eexists (queue k), _, [].
Qed.

Lemma emit_not_ignored wd i j mask n k :
  watches k !! j = Some wd → not_ignored wd (queue k) → has mask IN_IGNORED = false →
  not_ignored wd (queue (emit i mask n k)).
Proof.
  intros Hj Hno Hm e He Hwd. unfold emit in He. destruct (watches k !! i) as [wd'|]; [|by apply Hno].
  destruct (has mask k_watch_mask); [|by apply Hno]. apply push_from in He as [?|[->| ->]]; [by apply Hno|done|done].
Qed.

(** What the record's mask is. *)
Definition bits_for (old new : option Child) (mask : Z) : Prop :=
  has mask IN_IGNORED = false ∧ has mask IN_Q_OVERFLOW = false ∧
  (has mask k_child_list_bits = true ∨ (is_Some old ↔ is_Some new)).

Lemma move_watched m c :
  m = IN_MOVED_FROM ∨ m = IN_MOVED_TO → has (Z.lor m (dir_bit c)) k_watch_mask = true.
Proof. by intros [->| ->]; destruct c. Qed.

Lemma bits_move m c old new :
  m = IN_MOVED_FROM ∨ m = IN_MOVED_TO → bits_for old new (Z.lor m (dir_bit c)).
Proof. intros [->| ->]; destruct c; (split_and!; [done..|by left]). Qed.

Lemma happen_recorded c d k d' k' i n wd :
  disk_ok d → happen c d k = Some (d', k') → (i, n) ∈ touched c → watches k !! i = Some wd → not_ignored wd (queue k) →
  is_name n ∧ recorded wd n (bits_for (child_of d i n) (child_of d' i n)) (queue k').
Proof.
  intros Hd H Ht Hi Hno.
  destruct c as [i0 n0 j time|i0 n0 content time|i0 n0 content time|i0 n0|i0 n0 time|i0 n0 time|i0 n0 time|i0 n0 i' n' time];
    simpl in Ht; rewrite ?elem_of_cons, ?elem_of_nil in Ht.
  1-7: destruct Ht as [[= <- <-]|[]]; happen_inv H; (split; [eauto using child_of_name, names_plain|]).
  - apply (emit_recorded _ _ _ _ wd); [done..| |done]. split_and!; [done..|by left].
  - apply (emit_recorded _ _ _ _ wd); [done..| |done]. split_and!; [done..|by left].
  - apply (emit_recorded _ _ _ _ wd); [done..| |done]. split_and!; [done..|right].
    rewrite child_of_set, decide_True by (done || by eexists). unfold child_of. rewrite E. simpl. by rewrite E0.
  - apply (emit_recorded _ _ _ _ wd); [done..| |done]. split_and!; [done..|by right].
  - eapply recorded_more; [apply emit_prefix|]. apply (emit_recorded _ _ _ _ wd); [done..| |done].
    split_and!; [done..|right]. by rewrite child_of_touch.
  - apply (emit_recorded _ _ _ _ wd); [done..| |done]. split_and!; [done..|right].
    rewrite child_of_set, decide_True by (done || by eexists). unfold child_of. rewrite E. simpl. by rewrite E0.
  - apply (emit_recorded _ _ _ _ wd); [done..| |done]. split_and!; [done..|by left].
  - eapply recorded_more; [apply lose_prefix|]. apply (emit_recorded _ _ _ _ wd); [done..| |done].
    split_and!; [done..|by left].
  - happen_inv H.
    set (k1 := emit i0 _ n0 k). set (k2 := emit i' _ n' k1).
    assert (queue k2 `prefix_of` queue (lose_target (child_of d i' n') k2)) as Hlast.
    { destruct (child_of d i' n') as [[]|]; [apply lose_prefix|done..]. }
    destruct Ht as [[= <- <-]|[[= <- <-]|[]]].
    + split; [by eapply child_of_name|]. eapply recorded_more; [exact Hlast|].
      eapply recorded_more; [apply emit_prefix|]. apply (emit_recorded _ _ _ _ wd); [done|apply move_watched; auto|apply bits_move; auto|done].
    + split; [done|]. eapply recorded_more; [exact Hlast|].
      apply (emit_recorded _ _ _ _ wd); [by unfold k1; rewrite emit_watches|apply move_watched; auto|apply bits_move; auto|].
      apply (emit_not_ignored wd i0 i); [done..|]. apply dir_bit_ignored. auto.
Qed.

(** ** What is owed stays owed *)

Section following.
Context (sub base : nat).

(** [sub] is subscribed, and the first [base] notifications are past. *)
Definition follows (w : World) : Prop := sub ∈ m_subscribers (impl w) ∧ base ≤ length (notified (impl w)).

Lemma told_more cl w w' :
  notified (impl w) `prefix_of` notified (impl w') → told sub base cl w → told sub base cl w'.
Proof.
  intros [l E] (d & Hd & Hc). exists d. split; [|done]. rewrite E, skipn_app. apply elem_of_app. by left.
Qed.

(** A step that leaves the disk and the watches alone. *)
Lemma owed_mono cl w w' :
  disk w' = disk w → watches (kernel w') = watches (kernel w) → next_wd (kernel w') = next_wd (kernel w) →
  records w' = records w → m_watch_descriptors (impl w') = m_watch_descriptors (impl w) →
  notified (impl w') = notified (impl w) →
  (∀ b, phase (impl w) = Draining b → gathered cl b → ∃ b', phase (impl w') = Draining b' ∧ gathered cl b') →
  owed sub base cl w → owed sub base cl w'.
Proof.
  intros Hd Hwt Hn Hr Hm Hno Hb [Ht|[(b & H1 & H2)|[(e & He & Ho)|(l1 & e & l2 & ns & H)]]].
  - left. unfold told. by rewrite Hno.
  - right. left. by eapply Hb.
  - do 2 right. left. exists e. by rewrite Hr.
  - do 3 right. exists l1, e, l2, ns. by rewrite Hd, Hwt, Hn, Hr, Hm.
Qed.

Lemma owed_change cl w c d' k' :
  sound w → happen c (disk w) (kernel w) = Some (d', k') → leaves_directories (Happens c) (disk w) = true →
  owed sub base cl w → owed sub base cl {| disk := d'; kernel := k'; impl := impl w |}.
Proof.
  intros Hw H Hl Ho. pose proof (happen_kernel _ _ _ _ _ (sound_disk w Hw) H) as Ha.
  assert (queue (kernel w) `prefix_of` queue k') as [q2 Hq].
  { destruct c; happen_inv H; try apply emit_prefix; try done.
    - etrans; apply emit_prefix.
    - etrans; [apply emit_prefix|]. etrans; [apply emit_prefix|].
      destruct (child_of _ i' n') as [[]|]; [apply lose_prefix|done..]. }
  destruct Ho as [Ht|[Hb|[(e & He & Ho)|(l1 & e & l2 & ns & Hr & Hmk & Hm & Hig & Hn & Hp)]]].
  - by left.
  - by right; left.
  - do 2 right. left. exists e. split; [|done]. unfold records in *. simpl. rewrite Hq. set_solver.
  - do 3 right. exists l1, e, (l2 ++ q2), ns. split_and!; [|done..| |].
    + unfold records in *. simpl. rewrite Hq, app_assoc, Hr. by rewrite <- app_assoc.
    + simpl. rewrite (after_next _ _ _ Ha). done.
    + simpl. intros i Hi. eapply happen_place; [apply Hw|done|done|]. apply Hp.
      destruct (after_watches _ _ _ Ha i) as [<-|[_ ?]]; congruence.
Qed.

Lemma owed_add cl w r w' :
  sound w → add_watch r w = Some w' → owed sub base cl w → owed sub base cl w'.
Proof.
  intros Hw H. destruct w as [d k s]. pose proof (sound_calls _ Hw) as Hok. simpl in H, Hok.
  destruct (calls s) as [|[p|p|p ns] cs] eqn:Ec; [done|..]; apply Forall_cons in Hok as [Hp _]; simpl in Hp.
  2-3: destruct (lists r d _ cs) as [[[|] cs']|]; [..|done]; injection H as <-; apply owed_mono; simpl; eauto.
  set (fails := bool_decide (r = Fails)) in H. destruct (inotify_add_watch fails d p k) as [wd k'] eqn:Ea. injection H as <-.
  assert (queue k' = queue k ∧ (next_wd k <= next_wd k')%Z ∧
    (∀ i wd', watches k' !! i = Some wd' → watches k !! i = Some wd' ∨ (next_wd k <= wd')%Z) ∧
    ∀ wd', wd = Some wd' → (next_wd k <= wd')%Z ∨ ∃ i, watches k !! i = Some wd' ∧ place d i (names p)) as (Hq & Hn & Hback & Hnew).
  { unfold inotify_add_watch in Ea. destruct fails; [by injection Ea as <- <-; simpl; split_and!; [done|lia|auto|]|].
    setoid_rewrite <- (seen_place d p _ Hp).
    destruct (seen d p) as [[j|]|] eqn:Es; [destruct (watches k !! j) as [wd'|] eqn:Ej|..]; injection Ea as <- <-; simpl.
    - split_and!; [done|lia|auto|]. intros wd'' [= <-]. right. by exists j.
    - split_and!; [done|lia| |by intros wd'' [= <-]; left; lia].
      intros i wd' [[_ <-]|[_ Hi]]%lookup_insert_Some; [right; lia|auto].
    - split_and!; [done|lia|auto|]. intros wd'' [= <-]. left; lia.
    - by split_and!; [done|lia|auto|]. }
  intros [Ht|[Hb|[(e & He & Ho)|(l1 & e & l2 & ns & Hr & Hmk & Hm & Hig & Hlt & Hpl)]]]; [by left|by right; left|..].
  { do 2 right. left. exists e. split; [|done]. unfold records in *. simpl in *. by rewrite Hq. }
  do 3 right. exists l1, e, l2, ns. simpl in *. split_and!; try done.
  - unfold records in *. simpl in *. by rewrite Hq.
  - destruct wd as [wd|]; [|done]. destruct (decide (wd = event_wd e)) as [->|]; [|by rewrite lookup_insert_ne].
    rewrite lookup_insert_eq. destruct (Hnew _ eq_refl) as [?|(i & Hi & Hpi)]; [lia|].
    rewrite (canonical_at p Hp). do 2 f_equal. eapply (place_unique d); [apply Hw|done|]. by apply Hpl.
  - lia.
  - intros i [Hi| ?]%Hback; [by apply Hpl|lia].
Qed.

Lemma owed_handle cl d k s b e es b' s' :
  let w := {| disk := d; kernel := k; impl := s |} in
  sound w → phase s = Draining b → buffer b = e :: es → handle e (with_buffer es b) s = (b', s') →
  owed sub base cl w → owed sub base cl (with_impl (with_phase (Draining b') s') w).
Proof.
  intros w Hw Hph Hb H Ho.
  assert (records w = e :: es ++ queue k) as Hrec by (unfold records, read_ahead; simpl; by rewrite Hph, Hb).
  set (w' := with_impl _ w).
  assert (buffer b' = es ∧ notified s' = notified s ∧ (gathered cl b → gathered cl b') ∧
    (has (event_mask e) IN_Q_OVERFLOW = true → overflowed b' = true) ∧
    (∀ wd, m_watch_descriptors s' !! wd = m_watch_descriptors s !! wd ∨ wd = event_wd e ∧ has (event_mask e) IN_IGNORED = true))
    as (Hb' & Hno & Hg & Hov & Hm).
  { unfold handle, gathered in *. repeat case_match; simplify_eq; simpl; split_and!; try done; auto.
    all: first [intros [?|?]; [by left|right; set_solver]
               |intros wd; destruct (decide (wd = event_wd e)) as [->|]; [auto|left; by rewrite lookup_delete_ne]]. }
  assert (records w' = es ++ queue k) as Hrec' by (unfold records, read_ahead; simpl; by rewrite Hb').
  destruct Ho as [Ht|[(b0 & H1 & H2)|[(e0 & He & Ho)|(l1 & e0 & l2 & ns & Hr & Hmk & Hd & Hig & Hlt & Hpl)]]].
  - left. unfold told in *. simpl. by rewrite Hno.
  - right. left. simpl in *. exists b'. split; [done|]. apply Hg. congruence.
  - rewrite Hrec in He. apply elem_of_cons in He as [->|He].
    + right. left. exists b'. split; [done|]. left. by apply Hov.
    + do 2 right. left. exists e0. by rewrite Hrec'.
  - rewrite Hrec in Hr. destruct l1 as [|e1 l1]; simplify_list_eq.
    + right. left. exists b'. split; [done|]. right. destruct Hmk as (Hn & H1 & H2 & H3).
      unfold handle in H. rewrite H2, Hd, H1 in H. pose proof Hn as (Hne & _).
      pose proof (sound_descriptor _ Hw _ _ Hd) as Hcan.
      rewrite (proj2 (is_nil_false (event_name e0)) Hne), relative_to_name in H by done.
      injection H as <- _. destruct cl as [p|p]; simpl.
      * by apply elem_of_union_l, elem_of_singleton.
      * destruct H3 as [-> ->]. by apply elem_of_union_l, elem_of_singleton.
    + do 3 right. exists l1, e0, l2, ns. rewrite Hrec'. split_and!; [done|done| |set_solver|done|done].
      simpl. destruct (Hm (event_wd e0)) as [->|[Hwd Hi]]; [done|]. rewrite Hig in Hi; [done|left|done].
Qed.

Lemma end_drain_prefix b s : notified s `prefix_of` notified (end_drain b s).
Proof. unfold end_drain. case_match; simpl; [apply prefix_app_r|]; done. Qed.

Lemma end_drain_tells cl w b :
  follows w → gathered cl b → told sub base cl (with_impl (end_drain b (impl w)) w).
Proof.
  intros [Hs Hbase] Hg. exists (diff_of b).
  assert (claimed cl (diff_of b)) as Hc.
  { destruct Hg as [H|H]; [by left|right]. destruct cl; simpl; by apply elem_of_paths_in_order. }
  split; [|done]. unfold end_drain.
  assert (says_something (diff_of b) = true) as ->.
  { unfold says_something. rewrite !orb_true_iff, !negb_true_iff, !is_nil_false.
    destruct Hc as [?|Hc]; [auto|]. destruct cl; [left; right|right]; intros E; rewrite E in Hc; by apply elem_of_nil in Hc. }
  simpl. rewrite skipn_app. apply elem_of_app. right.
  replace (base - length (notified (impl w))) with 0 by lia. simpl. apply list_elem_of_fmap. by exists sub.
Qed.

Lemma step_owed cl a w w' :
  sound w → follows w → step a w = Some w' → leaves_directories a (disk w) = true →
  owed sub base cl w → owed sub base cl w'.
Proof.
  intros Hw Hf H Hl. destruct w as [d k s]. destruct a; simpl in H.
  - destruct (happen c d k) as [[d' k']|] eqn:E; [|done]. injection H as <-. by apply (owed_change cl _ c _ _ Hw E).
  - destruct (phase s) eqn:Eph; simplify_eq; apply owed_mono; simpl; rewrite ?Eph; try done; try (by eauto).
    + unfold records, read_ahead. simpl. by rewrite Eph.
  - injection H as <-. apply owed_mono; simpl; eauto.
  - by apply (owed_add cl _ r _ Hw).
  - destruct (phase s) eqn:Eph, (calls s) eqn:Ec; simplify_eq. apply owed_mono; simpl; rewrite ?Eph; try done.
    unfold records, read_ahead. simpl. by rewrite Eph.
  - destruct (phase s) eqn:Eph, (queue k) eqn:Eq; simplify_eq. apply owed_mono; simpl; rewrite ?Eph; try done.
    unfold records, read_ahead. simpl. by rewrite Eph.
  - destruct (phase s) as [| | |b] eqn:Eph, (calls s) eqn:Ec; try done. destruct (is_nil (buffer b)) eqn:Eb; [|done].
    apply is_nil_true in Eb. destruct (queue k) as [|e es] eqn:Eq; injection H as <-.
    + intros [Ht|[(b0 & H1 & H2)|Hr]]; left.
      * eapply told_more, Ht. apply end_drain_prefix.
      * simpl in H1. assert (b0 = b) as -> by congruence. by apply (end_drain_tells cl {| disk := d; kernel := k; impl := s |}).
      * exfalso. destruct Hr as [(e & He & _)|(l1 & e & l2 & ns & He & _)];
          unfold records, read_ahead in He; simpl in He; rewrite Eph, Eb, Eq in He; simpl in He;
          [by apply elem_of_nil in He|by destruct l1].
    + apply owed_mono; simpl; try done.
      * unfold records, read_ahead. simpl. rewrite Eph, Eb, Eq. simpl. by rewrite firstn_skipn.
      * intros b0 Hb0 Hg. eexists. split; [done|]. assert (b0 = b) as -> by congruence. exact Hg.
  - destruct (phase s) as [| | |b] eqn:Eph, (calls s) eqn:Ec; try done. destruct (buffer b) as [|e es] eqn:Eb; [done|].
    destruct (handle e (with_buffer es b) s) as [b' s'] eqn:Eh. injection H as <-.
    by apply (owed_handle cl d k s b e es).
Qed.

Lemma handle_impl e b s b' s' :
  handle e b s = (b', s') → m_subscribers s' = m_subscribers s ∧ notified s' = notified s.
Proof. unfold handle. intros H. repeat case_match; by simplify_eq. Qed.

Lemma step_follows a w w' : follows w → step a w = Some w' → a ≠ Unsubscribes sub → follows w'.
Proof.
  intros [Hs Hb] H Hne. destruct w as [d k s]. unfold follows. simpl in Hs, Hb. destruct a; simpl in H.
  - destruct (happen c d k) as [[d' k']|] eqn:E; [|done]. by injection H as <-.
  - destruct (phase s); simplify_eq; simpl; (split; [set_solver|done]).
  - injection H as <-. simpl. split; [|done]. apply list_elem_of_filter. split; congruence.
  - by apply (add_watch_aside r {| disk := d; kernel := k; impl := s |}) in H as (_ & _ & -> & ->).
  - destruct (phase s), (calls s); simplify_eq. simpl. split; [set_solver|done].
  - destruct (phase s), (queue k); by simplify_eq.
  - destruct (phase s) as [| | |b]; try done. destruct (calls s), (is_nil (buffer b)), (queue k); simplify_eq; try done.
    destruct (end_drain_fields b s) as (_ & _ & _ & Hsub). destruct (end_drain_prefix b s) as [l Hl].
    simpl in *. rewrite Hsub, Hl, length_app. split; [done|lia].
  - destruct (phase s) as [| | |b]; try done. destruct (calls s); [|done]. destruct (buffer b) as [|e es]; [done|].
    destruct (handle e _ s) as [b' s'] eqn:Eh. injection H as <-. apply handle_impl in Eh as [H1 H2].
    simpl. by rewrite H1, H2.
Qed.

(** ** A change to a settled directory is owed *)

Lemma happens_owed c w d' k' i ns n :
  sound w → happen c (disk w) (kernel w) = Some (d', k') → leaves_directories (Happens c) (disk w) = true →
  place (disk w) i ns → settled w i ns → child_of d' i n ≠ child_of (disk w) i n →
  let w' := {| disk := d'; kernel := k'; impl := impl w |} in
  owed sub base (EntryAt (at_path (ns ++ [n]))) w' ∧
  (¬ (is_Some (child_of (disk w) i n) ↔ is_Some (child_of d' i n)) → owed sub base (ListOf (at_path ns)) w').
Proof.
  intros Hw H Hl Hi (wd & Hwd & Hm) Hne w'. pose proof (happen_kernel _ _ _ _ _ (sound_disk w Hw) H) as Ha.
  destruct (happen_child _ _ _ _ _ i n H Hl) as [?|[Ht _]]; [done|].
  destruct (happen_recorded _ _ _ _ _ i n wd (sound_disk w Hw) H Ht Hwd) as [Hn Hrec].
  { intros e He Hwde. destruct (has _ _) eqn:E; [|done].
    destruct (sound_record w Hw e) as (_ & _ & Hig); [unfold records; set_solver|]. by destruct (Hig E i); rewrite Hwde. }
  destruct Hrec as [Hov|(l1 & e & l2 & Hq & He1 & He2 & (Hb1 & Hb2 & Hb3) & Hno)].
  { assert (∀ cl, owed sub base cl w'); [|done]. intros cl. do 2 right. left. exists overflow_event.
    split; [unfold records; set_solver|done]. }
  assert (∀ cl, makes cl e ns → owed sub base cl w') as Hall; [|split].
  - intros cl Hcl. do 3 right. exists (read_ahead (impl w) ++ l1), e, l2, ns. split_and!.
    + unfold records. simpl. by rewrite Hq, app_assoc.
    + done.
    + simpl. by rewrite He1.
    + intros e' [He'|He']%elem_of_app Hwde'.
      2: { apply (Hno e'); [done|congruence]. }
      destruct (has (event_mask e') IN_IGNORED) eqn:E; [|done].
      destruct (sound_record w Hw e') as (_ & _ & Hig); [unfold records; set_solver|].
      destruct (Hig E i). congruence.
    + simpl. rewrite (after_next _ _ _ Ha), He1. by eapply sound_wd.
    + intros j Hj. simpl in *. assert (watches (kernel w) !! j = Some wd) as Hj'.
      { destruct (after_watches _ _ _ Ha j) as [<-|[_ ?]]; congruence. }
      rewrite (sound_one w Hw j i wd) by done. by eapply happen_place, Hi; [apply Hw| |].
  - apply Hall. split_and!; try done; rewrite He2; done.
  - intros Hlist. apply Hall. split_and!; try done; [by rewrite He2|by destruct Hb3].
Qed.

(** A directory that is settled stays so. *)
Lemma watch_step_settled a w w' i ns :
  sound w → step a w = Some w' → leaves_directories a (disk w) = true →
  place (disk w) i ns → settled w i ns → place (disk w') i ns ∧ settled w' i ns.
Proof.
  intros Hw H Hl Hi (wd & Hwd & Hm).
  assert (∀ w'', disk w'' = disk w → watches (kernel w'') = watches (kernel w) →
    m_watch_descriptors (impl w'') = m_watch_descriptors (impl w) → place (disk w'') i ns ∧ settled w'' i ns) as Hsame.
  { intros w'' Hd'' Hw'' Hm''. rewrite Hd''. split; [done|]. exists wd. by rewrite Hw'', Hm''. }
  destruct w as [d k s]. simpl in Hi, Hwd, Hm. destruct a; simpl in H.
  - destruct (happen c d k) as [[d' k']|] eqn:E; [|done]. injection H as <-. simpl.
    pose proof (sound_disk _ Hw) as Hd. split; [by eapply happen_place|]. exists wd. simpl. split; [|done].
    destruct (after_watches _ _ _ (happen_kernel _ _ _ _ _ Hd E) i) as [->|[Hg _]]; [done|].
    apply place_there in Hi. destruct (happen_stays _ _ _ _ _ E Hl i Hi). congruence.
  - destruct (phase s); simplify_eq; by apply Hsame.
  - injection H as <-. by apply Hsame.
  - pose proof (sound_calls _ Hw) as Hok. simpl in Hok.
    destruct (calls s) as [|[p|p|p todo] cs] eqn:Ec; try done;
      [|destruct (lists r d _ cs) as [[[|] cs']|]; [..|done]; injection H as <-; by apply Hsame..].
    apply Forall_cons in Hok as [Hp _]. simpl in Hp.
    unfold inotify_add_watch in H. destruct (bool_decide (r = Fails)); [injection H as <-; by apply Hsame|].
    pose proof (sound_wd _ Hw i wd Hwd) as Hlt. simpl in Hlt.
    destruct (seen d p) as [[j|]|] eqn:Es; [destruct (watches k !! j) as [wd'|] eqn:Ej|..]; injection H as <-; simpl.
    + split; [done|]. exists wd. simpl. split; [done|]. destruct (decide (wd' = wd)) as [->|]; [|by rewrite lookup_insert_ne].
      rewrite lookup_insert_eq, (canonical_at p Hp). do 2 f_equal. apply seen_place in Es; [|done].
      assert (j = i) as -> by by eapply (sound_one _ Hw). eapply place_unique; [apply Hw|done|done].
    + split; [done|]. exists wd. simpl. rewrite lookup_insert_ne by congruence. by rewrite lookup_insert_ne by lia.
    + split; [done|]. exists wd. simpl. by rewrite lookup_insert_ne by lia.
    + split; [done|]. by exists wd.
  - destruct (phase s), (calls s); simplify_eq; by apply Hsame.
  - destruct (phase s), (queue k); simplify_eq; by apply Hsame.
  - destruct (phase s) as [| | |b]; try done.
    destruct (calls s), (is_nil (buffer b)), (queue k); simplify_eq; apply Hsame; try done.
    by destruct (end_drain_fields b s).
  - destruct (phase s) as [| | |b] eqn:Eph; try done. destruct (calls s); [|done]. destruct (buffer b) as [|e es] eqn:Eb; [done|].
    destruct (handle e _ s) as [b' s'] eqn:Eh. injection H as <-. split; [done|]. exists wd. simpl. split; [done|].
    unfold handle in Eh. repeat case_match; simplify_eq; try done. simpl. rewrite lookup_delete_ne; [done|]. intros <-.
    destruct (sound_record _ Hw e) as (_ & _ & Hig); [unfold records, read_ahead; simpl; rewrite Eph, Eb; left|].
    by destruct (Hig ltac:(done) i).
Qed.
End following.
