(* ===== verification/RealWatchRest.v ===== *)
(** * The watch comes to rest

    While nobody changes the disk, each step of the watch lowers a measure of
    what it has left to do, and there is a step until nothing is left. *)

From S2P Require Export RealWatchInv.

(** Steps of the program, not of those it watches or who subscribe. *)
Definition own (a : Action) : Prop :=
  match a with Happens _ | Subscribes _ | Unsubscribes _ | Adds (Also _) => False | _ => True end.

Section measure.
Context (D M : nat).

(** The cost of planting a watch at a directory with [k] levels left. *)
Fixpoint plants_cost (k : nat) : nat :=
  match k with 0 => 2 | S k' => 3 + M * S (plants_cost k') end.

Definition left_at (p : path) : nat := D - length (names p).
Definition call_cost (c : Call) : nat :=
  match c with
  | Plants p => plants_cost (left_at p)
  | Opens p => plants_cost (left_at p) - 1
  | Iterates p ns => 1 + length ns * S (plants_cost (left_at p - 1))
  end.

Definition phase_cost (ph : Phase) (q : list inotify_event) : nat :=
  match ph with
  | NotWatching => 0
  | Starting _ => 3
  | Waiting => match q with [] => 0 | _ => 2 end
  | Draining b => 1 + length (buffer b) * S (plants_cost D)
  end.

Definition cost (w : World) : nat :=
  phase_cost (phase (impl w)) (queue (kernel w)) + sum_list_with call_cost (calls (impl w)) +
  length (queue (kernel w)) * S (S (plants_cost D)).

Lemma plants_cost_pos k : 2 ≤ plants_cost k.
Proof. destruct k; simpl; lia. Qed.

Lemma plants_cost_mono k k' : k ≤ k' → plants_cost k ≤ plants_cost k'.
Proof.
  revert k'. induction k as [|k IH]; intros k' Hk; [apply plants_cost_pos|].
  destruct k' as [|k']; [lia|]. simpl. specialize (IH k' ltac:(lia)). nia.
Qed.

Lemma left_child p n : canonical p → is_name n → left_at (p // of_string n) = left_at p - 1.
Proof. intros Hp Hn. unfold left_at. rewrite step_into by done. simpl. rewrite length_app. simpl. lia. Qed.

(** Nothing comes while nobody changes the disk. *)
Definition settled_reply (r : Reply) : Prop := match r with Also _ => False | _ => True end.

Lemma lists_cost r d c cs failed cs' :
  disk_ok d → D = size (directories d) → (∀ i dir, directories d !! i = Some dir → size (children dir) ≤ M) →
  call_ok c → settled_reply r → lists r d c cs = Some (failed, cs') →
  sum_list_with call_cost cs' < call_cost c + sum_list_with call_cost cs.
Proof.
  intros Hd HD HM Hc Hr H. destruct c as [p|p|p ns]; simpl in H, Hc |- *; [done|..].
  - pose proof (plants_cost_pos (left_at p)). destruct r; simplify_eq; [|lia].
    destruct (seen d p) as [[i|]|] eqn:Es; [|lia..]. destruct (directories d !! i) as [dir|] eqn:Ei; [|lia]. simpl.
    apply seen_place in Es; [|done]. apply (place_depth d Hd) in Es.
    rewrite length_fmap, length_map_to_list. specialize (HM i dir Ei).
    destruct (left_at p) as [|l] eqn:El; [unfold left_at in El; lia|]. simpl. rewrite Nat.sub_0_r.
    pose proof (Nat.mul_le_mono_r _ _ (S (plants_cost l)) HM). lia.
  - destruct Hc as [Hp Hns]. destruct r; [|simplify_eq; lia| |done]; destruct ns as [|n ns]; simplify_eq; simpl; try lia.
    apply Forall_cons in Hns as [Hn _]. unfold enters.
    destruct (seen d _) as [[i|]|]; simpl; [|lia..]. rewrite left_child by done. lia.
Qed.

Lemma add_watch_cost r w w' :
  sound w → D = size (directories (disk w)) →
  (∀ i dir, directories (disk w) !! i = Some dir → size (children dir) ≤ M) →
  settled_reply r → add_watch r w = Some w' → cost w' < cost w.
Proof.
  intros Hw HD HM Hr H. destruct w as [d k s]. pose proof (sound_calls _ Hw) as Hok. simpl in *.
  unfold cost. destruct (calls s) as [|c cs] eqn:Ec; [done|]; apply Forall_cons in Hok as [Hp _].
  assert (∀ failed cs', lists r d c cs = Some (failed, cs') →
    sum_list_with call_cost cs' < call_cost c + sum_list_with call_cost cs) as Hlist.
  { intros failed cs' Hl. by apply (lists_cost r d c cs failed); [apply Hw|..]. }
  destruct c as [p|p|p ns].
  2, 3: destruct (lists r d _ cs) as [[failed cs']|] eqn:El; [|done]; injection H as <-; specialize (Hlist _ _ eq_refl);
    cbn [impl kernel with_calls phase calls]; rewrite Ec; destruct failed; simpl in *; lia.
  destruct (inotify_add_watch _ d p k) as [wd k'] eqn:Ea. injection H as <-. simpl. rewrite Ec. simpl.
  assert (queue k' = queue k) as ->.
  { unfold inotify_add_watch in Ea. repeat case_match; by simplify_eq. }
  pose proof (plants_cost_pos (left_at p)). lia.
Qed.

Lemma handle_calls e b s b' s' :
  handle e b s = (b', s') → calls s = [] →
  buffer b' = buffer b ∧ sum_list_with call_cost (calls s') ≤ plants_cost D.
Proof.
  intros H Hc. unfold handle in H. repeat case_match; simplify_eq; simpl; rewrite ?Hc; simpl; (split; [done|]); try lia.
  all: rewrite Nat.add_0_r; apply plants_cost_mono; unfold left_at; lia.
Qed.

Lemma own_cost a w w' :
  sound w → D = size (directories (disk w)) →
  (∀ i dir, directories (disk w) !! i = Some dir → size (children dir) ≤ M) →
  own a → step a w = Some w' → cost w' < cost w ∧ disk w' = disk w.
Proof.
  intros Hw HD HM Ha H. destruct w as [d k s]. destruct a; simpl in Ha; try done; simpl in H.
  - split; [by apply (add_watch_cost r {| disk := d; kernel := k; impl := s |})|].
    by apply (add_watch_aside r {| disk := d; kernel := k; impl := s |}) in H as [-> _].
  - destruct (phase s) eqn:Eph, (calls s) eqn:Ec; simplify_eq. split; [|done]. unfold cost. simpl.
    rewrite Eph, Ec. simpl. destruct (queue k); simpl; lia.
  - destruct (phase s) eqn:Eph, (queue k) eqn:Eq; simplify_eq. split; [|done]. unfold cost. simpl.
    rewrite Eph, Eq. simpl. lia.
  - destruct (phase s) as [| | |b] eqn:Eph; try done. destruct (calls s) eqn:Ec; [|done].
    destruct (is_nil (buffer b)) eqn:Eb; [|done]. apply is_nil_true in Eb.
    destruct (queue k) as [|e es] eqn:Eq; injection H as <-; (split; [|done]).
    + destruct (end_drain_fields b s) as (_ & Hc & Hp & _). unfold cost, with_impl. cbn [impl kernel].
      rewrite Hc, Hp, Eph, Eq, Ec. simpl. lia.
    + unfold cost. simpl. rewrite Eph. simpl. rewrite Eb, Ec, Eq. simpl. rewrite length_take, length_skipn. nia.
  - destruct (phase s) as [| | |b] eqn:Eph; try done. destruct (calls s) eqn:Ec; [|done].
    destruct (buffer b) as [|e es] eqn:Eb; [done|]. destruct (handle e _ s) as [b' s'] eqn:Eh. injection H as <-.
    apply handle_calls in Eh as [Hb Hs]; [|done]. split; [|done]. unfold cost. simpl. rewrite Eph. simpl. rewrite Eb, Ec, Hb. simpl. lia.
Qed.
End measure.

Lemma children_bound (ds : gmap nat Directory) :
  ∃ M, ∀ i dir, ds !! i = Some dir → size (children dir) ≤ M.
Proof.
  induction ds as [|i dir ds Hi [M HM]] using map_ind; [by exists 0|].
  exists (Nat.max M (size (children dir))). intros j dir' [[_ <-]|[_ Hj]]%lookup_insert_Some; [lia|].
  specialize (HM j dir' Hj). lia.
Qed.

Lemma own_enabled w :
  phase (impl w) ≠ NotWatching → at_rest w ∨ ∃ a, own a ∧ is_Some (step a w).
Proof.
  intros Hph. destruct w as [d k s]. simpl in Hph. unfold at_rest. cbn [impl kernel].
  destruct (calls s) as [|c cs] eqn:Ec.
  - destruct (phase s) as [| | |b] eqn:Eph; [done|..].
    + right. exists Started. split; [done|]. simpl. rewrite Eph, Ec. by eexists.
    + destruct (queue k) as [|e es] eqn:Eq; [by left|]. right. exists Wakes. split; [done|]. simpl.
      rewrite Eph, Eq. by eexists.
    + right. destruct (buffer b) as [|e es] eqn:Eb.
      * exists (Reads 0). split; [done|]. simpl. rewrite Eph, Ec, Eb. simpl. destruct (queue k); by eexists.
      * exists Handles. split; [done|]. simpl. rewrite Eph, Ec, Eb. destruct (handle e _ s). by eexists.
  - right. exists (Adds Goes). split; [done|]. simpl. rewrite Ec.
    destruct c as [p|p|p [|n ns]]; simpl; try by eexists. repeat case_match; by eexists.
Qed.

Lemma own_phase a w w' : own a → step a w = Some w' → phase (impl w) ≠ NotWatching → phase (impl w') ≠ NotWatching.
Proof.
  destruct w as [d k s]. destruct a as [| | |r| | | |]; simpl; try done.
  { intros _ H. by apply (add_watch_aside r {| disk := d; kernel := k; impl := s |}) in H as (_ & -> & _). }
  all: intros _ H Hph; repeat case_match; simplify_eq; simpl; try done.
  all: unfold handle in *; repeat case_match; simplify_eq; simpl in *; congruence.
Qed.

Lemma runs_own acts w w' :
  sound w → phase (impl w) ≠ NotWatching → Forall own acts → runs acts w = Some w' →
  sound w' ∧ phase (impl w') ≠ NotWatching ∧
  ∀ D M, D = size (directories (disk w)) →
    (∀ i dir, directories (disk w) !! i = Some dir → size (children dir) ≤ M) →
    length acts + cost D M w' ≤ cost D M w.
Proof.
  revert w. induction acts as [|a acts IH]; intros w Hw Hph Hacts H; simpl in H.
  - injection H as <-. split_and!; [done..|]. simpl. lia.
  - destruct (step a w) as [w1|] eqn:E; [|done]. apply Forall_cons in Hacts as [Ha Hacts]. simpl in H.
    destruct (IH w1) as (H1 & H2 & H3); [by eapply watch_step_sound|by eapply own_phase|done|done|].
    split_and!; [done..|]. intros D M HD HM. destruct (own_cost D M a w w1 Hw HD HM Ha E) as [Hc Hd].
    specialize (H3 D M). rewrite Hd in H3. specialize (H3 HD HM). simpl. lia.
Qed.
