(* ===== verification/RealWatchSpec.v ===== *)
(** * What the real tree promises

    Reading: a file that others write is handed out as it was at some moment,
    and no path leads out of the root. Watching: at rest every directory has a
    watch that knows its place, a change in such a directory is told to every
    subscriber, and the watch comes to rest. And where it falls short: a
    directory that comes with its files hides them, and an overflow leaves
    directories unwatched for good. *)

From S2P Require Export RealWatchTold RealWatchRest.
From S2P Require MountTables.

(** ** Reading *)

(** C16. [RealDirectoryTree::read_whole], of a file that others write meanwhile,
    with fewer changes than attempts: it returns, and either hands out the bytes
    the file held at one moment, with their number and that moment's time, however
    short its reads were cut; or the file was changed, as it was read, and had the
    size and the time it had before, so that the change could not be seen; or it
    gives the error of a call on the file that failed. *)
Theorem read_whole_is_one_moment {FD} (sys : System FD) (m_root p absolute : path) (fd : FD)
    (h : nat → str * (Z * Z)) (quiet bound : nat) (changed : list nat) (fuel : nat) :
  resolve m_root p = Some absolute → sys_open sys absolute = Value fd →
  versioned sys fd h quiet bound → changes_among h changed → length changed < k_read_whole_attempts →
  quiet + bound < fuel →
  ∃ r, read_whole_on sys m_root fuel p = Some r ∧
    match r with
    | Value content =>
        (∃ moment, content = {|
           bytes := (h moment).1;
           content_info := {| file_size := length (h moment).1; file_mtime := to_file_time (h moment).2 |} |}) ∨
        (∃ a b c, a ≤ b ≤ c ∧ h b ≠ h a ∧ (h c).2 = (h a).2 ∧ length (h c).1 = length (h a).1)
    | Unexpected e =>
        ∃ errno call, e = last_error_code errno ∧
          (sys_fstat sys fd call = Unexpected errno ∨
           errno ≠ EINTR ∧ ∃ offset n, sys_pread sys fd call offset n = Unexpected errno)
    end.
Proof.
  intros Hp Ho Hh Hc Hn Hf. unfold read_whole_on. rewrite Hp, Ho.
  destruct (attempt_version sys fd h quiet bound Hh changed fuel k_read_whole_attempts 0 no_content Hc Hf)
    as (r & -> & Hr).
  - pose proof (length_filter (λ k, 0 ≤ k) changed). lia.
  - exists r. split; [done|]. destruct r as [content|e]; simpl in Hr.
    + destruct Hr as [?|(a & c & Ht & Hl & b & ? & ?)]; [by left|right]. by exists a, b, c.
    + destruct Hr as (errno & ? & call & ?). by exists errno, call.
Qed.

(** A file that is rewritten once, while its first attempt is under way, and a
    system that is interrupted and gives one byte at a time. *)
Definition rewritten (call : nat) : str * (Z * Z) :=
  if decide (call < 3) then (lit "old", (1, 0)%Z) else (lit "newer", (2, 0)%Z).
Definition slow_system : System unit := {|
  sys_stat _ := Unexpected 2%Z;
  sys_opendir _ := Unexpected 2%Z;
  sys_fstatat _ _ := Unexpected 2%Z;
  sys_open _ := Value tt;
  sys_fstat _ call := Value {|
    stat_is_directory := false; stat_size := length (rewritten call).1; stat_mtim := (rewritten call).2 |};
  sys_pread _ call offset n :=
    if decide (call = 1) then Unexpected EINTR
    else Value (take (Nat.min n 1) (skipn offset (rewritten call).1));
|}.

Lemma rewritten_seen a b c : a ≤ b ≤ c → (rewritten c).2 = (rewritten a).2 → rewritten b = rewritten a.
Proof. intros Hab. unfold rewritten. repeat case_decide; try done; lia. Qed.

Lemma slow_versioned : versioned slow_system tt rewritten 2 5.
Proof.
  constructor; simpl.
  - by right.
  - intros call offset n Hn. case_decide; [left; subst; split; [done|lia]|]. right; right. by exists 1; split; [lia|].
  - intros call. unfold rewritten. case_decide; simpl; lia.
Qed.

Lemma read_whole_is_one_moment_witness :
  ∃ content moment, read_whole_on slow_system (of_string (lit "/src")) 8 (of_string (lit "a")) = Some (Value content) ∧
    bytes content = (rewritten moment).1 ∧ file_mtime (content_info content) = to_file_time (rewritten moment).2.
Proof.
  destruct (read_whole_is_one_moment slow_system (of_string (lit "/src")) (of_string (lit "a"))
    (of_string (lit "/src/a")) tt rewritten 2 5 [2] 8) as (r & E & Hr).
  - vm_compute. reflexivity.
  - reflexivity.
  - apply slow_versioned.
  - intros k. unfold rewritten. repeat case_decide; intros Hne; try done; [|lia]. replace k with 2 by lia. left.
  - vm_compute. lia.
  - lia.
  - destruct r as [content|e].
    + destruct Hr as [[moment Em]|(a & b & c & Hab & Hne & Ht & _)].
      { exists content, moment. split; [exact E|]. rewrite Em. split; reflexivity. }
      exfalso. exact (Hne (rewritten_seen a b c Hab Ht)).
    + exfalso. destruct Hr as (errno & call & _ & [Hs|(He & off & n & Hs)]); simpl in Hs; [discriminate Hs|].
      destruct (decide (call = 1)); [injection Hs as Hs; by apply He|discriminate Hs].
Defined.

Example slow_read : read_whole_on slow_system (of_string (lit "/src")) 8 (of_string (lit "a")) =
  Some (Value {| bytes := lit "newer"; content_info := {| file_size := 5; file_mtime := to_file_time (2, 0)%Z |} |}).
Proof. vm_compute. reflexivity. Qed.

(** ** Watching *)

Lemma initially_sound d max : disk_ok d → sound (initially d max).
Proof.
  intros Hd. constructor; simpl; try done.
  - intros e He. unfold records in He. simpl in He. by apply elem_of_nil in He.
Qed.

Lemma initially_covered d max : covered (initially d max).
Proof. by intros []. Qed.

Lemma runs_sound acts w w' : sound w → covered w → runs acts w = Some w' → sound w' ∧ covered w'.
Proof.
  revert w. induction acts as [|a acts IH]; intros w Hw Hc H; simpl in H; [by injection H as <-|].
  destruct (step a w) as [w1|] eqn:E; [|done]. apply (IH w1); [by eapply watch_step_sound|by eapply step_covered|done].
Qed.

(** Whatever was done to the disk, and whenever: the directories are found where
    they are, if no record was lost and no watch refused. *)
Lemma rest_settled d max acts w i ns :
  disk_ok d → runs acts (initially d max) = Some w → at_rest w →
  dropped (kernel w) = false → refused (kernel w) = false → place (disk w) i ns →
  sound w ∧ settled w i ns.
Proof.
  intros Hd H Hrest Hdr Href Hi.
  destruct (runs_sound acts _ _ (initially_sound d max Hd) (initially_covered d max) H) as [Hw Hc].
  split; [done|]. destruct Hrest as (Hph & Hcs & Hq).
  destruct (Hc ltac:(congruence) Hdr Href i ns Hi) as [?|[(c & Hin & _)|(e & He & _)]]; [done|..].
  - rewrite Hcs in Hin. by apply elem_of_nil in Hin.
  - unfold records, read_ahead in He. rewrite Hph, Hq in He. simpl in He. by apply elem_of_nil in He.
Qed.

(** C10. [add_watch] and [drain_events]: however directories were created, moved
    and removed meanwhile, once the watch is at rest every directory of the tree
    has a watch, and its descriptor is known by the directory's path - unless the
    queue overflowed, or a call [add_watch] makes failed: a watch was refused, a
    directory could not be opened or read on, or an entry not looked at. *)
Theorem watches_cover_the_tree (d : Disk) (max : nat) (acts : list Action) (w : World) (i : nat) (ns : list str) :
  disk_ok d → runs acts (initially d max) = Some w → at_rest w →
  dropped (kernel w) = false → refused (kernel w) = false → place (disk w) i ns →
  ∃ wd, watches (kernel w) !! i = Some wd ∧ m_watch_descriptors (impl w) !! wd = Some (at_path ns).
Proof. intros Hd H Hr Hdr Href Hi. by destruct (rest_settled d max acts w i ns Hd H Hr Hdr Href Hi). Qed.

(** A step that neither removes or moves a directory nor unsubscribes [sub]. *)
Definition undisturbed (sub : nat) (a : Action) (d : Disk) : bool :=
  leaves_directories a d && match a with Unsubscribes i => negb (bool_decide (i = sub)) | _ => true end.
Fixpoint runs_undisturbed (sub : nat) (acts : list Action) (w : World) : bool :=
  match acts with
  | [] => true
  | a :: acts' =>
      undisturbed sub a (disk w) &&
      match step a w with Some w' => runs_undisturbed sub acts' w' | None => true end
  end.

(** The entry [n] of directory [i] is as it was, or its change is owed. *)
Definition entry_owed (sub base : nat) (i : nat) (ns : list str) (n : str) (was : option Child) (w : World) : Prop :=
  (child_of (disk w) i n = was ∨ owed sub base (EntryAt (at_path (ns ++ [n]))) w) ∧
  ((is_Some was ↔ is_Some (child_of (disk w) i n)) ∨ owed sub base (ListOf (at_path ns)) w).

Lemma step_disk a w w' :
  step a w = Some w' → disk w' = disk w ∨
  ∃ c d' k', a = Happens c ∧ happen c (disk w) (kernel w) = Some (d', k') ∧
    w' = {| disk := d'; kernel := k'; impl := impl w |}.
Proof.
  intros H. destruct w as [d k s]. destruct a; [|left..].
  - simpl in H. destruct (happen c d k) as [[d' k']|] eqn:E; [|done]. injection H as <-. right. by exists c, d', k'.
  - simpl in H. destruct (phase s); by simplify_eq.
  - simpl in H. by injection H as <-.
  - by destruct (add_watch_aside r _ _ H).
  - simpl in H. destruct (phase s), (calls s); by simplify_eq.
  - simpl in H. destruct (phase s), (queue k); by simplify_eq.
  - simpl in H. destruct (phase s) as [| | |b]; try done. destruct (calls s), (is_nil (buffer b)), (queue k); by simplify_eq.
  - simpl in H. destruct (phase s) as [| | |b]; try done. destruct (calls s); [|done]. destruct (buffer b); [done|].
    destruct (handle _ _ s). by injection H as <-.
Qed.

Lemma step_entry sub base i ns n was a w w' :
  sound w → follows sub base w → step a w = Some w' → leaves_directories a (disk w) = true →
  place (disk w) i ns → settled w i ns →
  entry_owed sub base i ns n was w → entry_owed sub base i ns n was w'.
Proof.
  intros Hw Hf H Hl Hi Hs [H1 H2].
  assert (∀ cl, owed sub base cl w → owed sub base cl w') as Hstep by (intros cl; by apply (step_owed _ _ cl a)).
  destruct (step_disk a w w' H) as [Hd|(c & d' & k' & -> & Hc & ->)].
  - unfold entry_owed. rewrite Hd. naive_solver.
  - unfold entry_owed. cbn [disk]. destruct (decide (child_of d' i n = child_of (disk w) i n)) as [->|Hne]; [naive_solver|].
    destruct (happens_owed sub base c w d' k' i ns n Hw Hc Hl Hi Hs Hne) as [He Hli].
    split; [by right|]. destruct (decide (is_Some (child_of (disk w) i n))), (decide (is_Some (child_of d' i n))), H2;
      try (right; by apply Hstep); try (right; apply Hli; tauto); left; tauto.
Qed.

Lemma runs_entry sub base i ns n was acts w w' :
  sound w → follows sub base w → runs acts w = Some w' → runs_undisturbed sub acts w = true →
  place (disk w) i ns → settled w i ns →
  entry_owed sub base i ns n was w → entry_owed sub base i ns n was w'.
Proof.
  revert w. induction acts as [|a acts IH]; intros w Hw Hf H Hu Hi Hs Ho; simpl in H; [by injection H as <-|].
  destruct (step a w) as [w1|] eqn:E; [|done]. simpl in Hu. rewrite E in Hu. unfold undisturbed in Hu. bool_to_prop.
  assert (a ≠ Unsubscribes sub) as Hne.
  { intros ->. destruct_and?; by rewrite bool_decide_true in *. }
  destruct (watch_step_settled a w w1 i ns) as [Hi' Hs']; [done..|].
  apply (IH w1); try done; [by eapply watch_step_sound|by eapply step_follows|by eapply step_entry].
Qed.

(** C11. [drain_events] and [notify_subscribers]: from a rest by which no record
    was lost and no call of [add_watch] failed, to another, while directories are
    only added, whatever else is done to the files, every entry of a directory that
    was there and is no longer as it was is named in a diff given to every
    subscriber, and so is the directory if the entry appeared or went - or the diff
    says that everything may have changed. *)
Theorem changes_are_told (d : Disk) (max : nat) (before acts : list Action) (w w' : World)
    (sub i : nat) (ns : list str) (n : str) :
  disk_ok d → runs before (initially d max) = Some w → at_rest w →
  dropped (kernel w) = false → refused (kernel w) = false → sub ∈ m_subscribers (impl w) →
  runs acts w = Some w' → runs_undisturbed sub acts w = true → at_rest w' →
  place (disk w) i ns → child_of (disk w') i n ≠ child_of (disk w) i n →
  told sub (length (notified (impl w))) (EntryAt (at_path (ns ++ [n]))) w' ∧
  (¬ (is_Some (child_of (disk w) i n) ↔ is_Some (child_of (disk w') i n)) →
   told sub (length (notified (impl w))) (ListOf (at_path ns)) w').
Proof.
  intros Hd H1 Hr Hdr Href Hsub H2 Hu Hr' Hi Hne.
  destruct (rest_settled d max before w i ns Hd H1 Hr Hdr Href Hi) as [Hw Hs].
  destruct (runs_entry sub (length (notified (impl w))) i ns n (child_of (disk w) i n) acts w w' Hw) as [Ho Hl];
    [by split|done..|by split; [left|left]|].
  split.
  - destruct Ho as [?|Ho]; [done|]. by apply told_rest.
  - intros Hn. destruct Hl as [?|Hl]; [done|]. by apply told_rest.
Qed.

(** [add_watch] and [drain_events] end: while nobody changes the disk or
    subscribes, only so many steps of the watch are possible, and there is
    always another one until it is at rest. *)
Theorem watch_comes_to_rest (w : World) :
  sound w → phase (impl w) ≠ NotWatching →
  ∃ bound, ∀ acts w', Forall own acts → runs acts w = Some w' →
    length acts ≤ bound ∧ (at_rest w' ∨ ∃ a, own a ∧ is_Some (step a w')).
Proof.
  intros Hw Hph. destruct (children_bound (directories (disk w))) as [M HM].
  exists (cost (size (directories (disk w))) M w). intros acts w' Ha H.
  destruct (runs_own acts w w' Hw Hph Ha H) as (_ & Hph' & Hc). split; [|by apply own_enabled].
  specialize (Hc _ M eq_refl HM). lia.
Qed.

(** A directory with a file and a directory in it. *)
Definition small_disk : Disk := {|
  top := 0;
  directories := {[
    0 := {| dir_mtime := (0, 0)%Z;
            children := {[ lit "f" := EFile (lit "one") (0, 0)%Z; lit "sub" := EDirectory 1 ]} |};
    1 := {| dir_mtime := (0, 0)%Z; children := ∅ |} ]} |}.

Lemma small_disk_ok : disk_ok small_disk.
Proof.
  assert (∀ i n c, child_of small_disk i n = Some c →
    i = 0 ∧ (n = lit "f" ∧ c = EFile (lit "one") (0, 0)%Z ∨ n = lit "sub" ∧ c = EDirectory 1)) as Hall.
  { intros i n c (dir & Hi & Hn)%child_of_Some. unfold small_disk in Hi. simpl in Hi.
    apply lookup_insert_Some in Hi as [[<- <-]|[_ Hi]].
    - simpl in Hn. apply lookup_insert_Some in Hn as [[<- <-]|[_ [<- <-]%lookup_singleton_Some]]; auto.
    - apply lookup_singleton_Some in Hi as [<- <-]. simpl in Hn. by rewrite lookup_empty in Hn. }
  apply disk_ok_child_of. split_and!.
  - by exists {| dir_mtime := (0, 0)%Z; children := {[ lit "f" := EFile (lit "one") (0, 0)%Z; lit "sub" := EDirectory 1 ]} |}.
  - intros i n c [_ [[-> _]|[-> _]]]%Hall; apply (bool_decide_unpack _); by vm_compute.
  - intros i n j [_ [[_ ?]|[_ [= ->]]]]%Hall; [done|]. split; [|done]. by exists {| dir_mtime := (0, 0)%Z; children := ∅ |}.
  - intros i i' n n' j [-> [[_ ?]|[-> [= ->]]]]%Hall [-> [[_ ?]|[-> _]]]%Hall; done.
Qed.

(** Subscriber 7 comes, and the watches are planted. *)
Definition subscribing : list Action := Subscribes 7 :: replicate 8 (Adds Goes) ++ [Started].
(** A file is made in [sub] and one written in the root, as a drain goes on. *)
Definition changing : list Action := [
  Happens (MakeFile 1 (lit "g") (lit "two") (5, 0)%Z); Wakes; Reads 0;
  Happens (WriteFile 0 (lit "f") (lit "three") (6, 0)%Z); Handles; Reads 3; Handles; Reads 0 ].

Definition resting (d : Disk) (max : nat) (acts : list Action) : World :=
  default (initially d max) (runs acts (initially d max)).
Definition watched : World := resting small_disk 16 subscribing.
Definition changed_world : World := resting small_disk 16 (subscribing ++ changing).

Example watched_told :
  map (λ x, (entries_changed x.2, child_lists_changed x.2)) (notified (impl changed_world)) =
  [([of_string (lit "f"); of_string (lit "sub/g")], [of_string (lit "sub")])].
Proof. vm_compute. reflexivity. Qed.

Lemma resting_runs d max acts :
  match runs acts (initially d max) with Some _ => true | None => false end = true →
  runs acts (initially d max) = Some (resting d max acts).
Proof. unfold resting. by destruct (runs acts _). Qed.

Lemma watches_cover_the_tree_witness :
  ∃ wd, watches (kernel changed_world) !! 1 = Some wd ∧
    m_watch_descriptors (impl changed_world) !! wd = Some (at_path [lit "sub"]).
Proof.
  apply (watches_cover_the_tree small_disk 16 (subscribing ++ changing)).
  - apply small_disk_ok.
  - apply resting_runs. vm_compute. reflexivity.
  - vm_compute. split_and!; reflexivity.
  - vm_compute. reflexivity.
  - vm_compute. reflexivity.
  - split; [apply (bool_decide_unpack _); vm_compute; exact I|vm_compute; reflexivity].
Defined.

Lemma changes_are_told_witness :
  told 7 0 (EntryAt (of_string (lit "sub/g"))) changed_world ∧
  (¬ (is_Some (child_of (disk watched) 1 (lit "g")) ↔ is_Some (child_of (disk changed_world) 1 (lit "g"))) →
   told 7 0 (ListOf (of_string (lit "sub"))) changed_world).
Proof.
  apply (changes_are_told small_disk 16 subscribing changing watched changed_world 7 1 [lit "sub"] (lit "g")).
  - apply small_disk_ok.
  - apply resting_runs. vm_compute. reflexivity.
  - vm_compute. split_and!; reflexivity.
  - vm_compute. reflexivity.
  - vm_compute. reflexivity.
  - vm_compute. left.
  - vm_compute. reflexivity.
  - vm_compute. reflexivity.
  - vm_compute. split_and!; reflexivity.
  - split; [apply (bool_decide_unpack _); vm_compute; exact I|vm_compute; reflexivity].
  - vm_compute. discriminate.
Defined.

Lemma watch_comes_to_rest_witness :
  ∃ bound, ∀ acts w', Forall own acts → runs acts (resting small_disk 16 [Subscribes 7]) = Some w' →
    length acts ≤ bound ∧ (at_rest w' ∨ ∃ a, own a ∧ is_Some (step a w')).
Proof.
  apply (watch_comes_to_rest (resting small_disk 16 [Subscribes 7])).
  - apply (watch_step_sound (Subscribes 7) (initially small_disk 16)); [apply initially_sound, small_disk_ok|reflexivity].
  - vm_compute. discriminate.
Defined.

(** ** Where it falls short *)

(** A directory is made with a file in it before its watch is planted. *)
Definition populating : list Action :=
  [ Happens (MakeDirectory 0 (lit "new") 2 (5, 0)%Z); Happens (MakeFile 2 (lit "x") (lit "data") (5, 0)%Z);
    Wakes; Reads 0; Handles ] ++ replicate 4 (Adds Goes) ++ [ Reads 0 ].

(** [drain_events]: [DirectoryTreeDiff] says it names the files added, but
    with no record lost and no watch refused, a file that comes in a new
    directory is never named, nor is that everything may have changed. *)
Theorem new_directories_hide_their_files :
  ∃ acts w, runs (subscribing ++ acts) (initially small_disk 16) = Some w ∧ at_rest w ∧
    dropped (kernel w) = false ∧ refused (kernel w) = false ∧ 7 ∈ m_subscribers (impl w) ∧
    seen small_disk (of_string (lit "new/x")) = None ∧
    seen (disk w) (of_string (lit "new/x")) = Some (EFile (lit "data") (5, 0)%Z) ∧
    ∀ s diff, (s, diff) ∈ notified (impl w) → ¬ claimed (EntryAt (of_string (lit "new/x"))) diff.
Proof.
  exists populating, (resting small_disk 16 (subscribing ++ populating)). split_and!.
  - apply resting_runs. vm_compute. reflexivity.
  - vm_compute. split_and!; reflexivity.
  - vm_compute. reflexivity.
  - vm_compute. reflexivity.
  - vm_compute. left.
  - vm_compute. reflexivity.
  - vm_compute. reflexivity.
  - assert (notified (impl (resting small_disk 16 (subscribing ++ populating))) =
      [(7, {| everything_dirty := false; entries_changed := [of_string (lit "new")]; child_lists_changed := [root] |})]) as -> by (vm_compute; reflexivity).
    intros s diff [= -> ->]%list_elem_of_singleton [H|H]; [done|].
    simpl in H. apply list_elem_of_singleton in H. by vm_compute in H.
Qed.

(** So many files change that the record of a new directory is dropped. *)
Definition overflowing : list Action :=
  [ Happens (WriteFile 0 (lit "f") (lit "a") (5, 0)%Z); Happens (CloseFile 0 (lit "f"));
    Happens (MakeDirectory 0 (lit "new") 2 (5, 0)%Z);
    Wakes; Reads 3; Handles; Handles; Handles; Reads 0 ].
(** Later a file is made in it. *)
Definition making_later : list Action := [ Happens (MakeFile 2 (lit "x") (lit "data") (9, 0)%Z) ].

(** [drain_events] after an overflow: subscribers learn that everything may
    have changed, but a directory whose record was lost is not watched from then
    on, and what changes in it later is not told: the watch is at rest. *)
Theorem overflow_leaves_directories_unwatched :
  ∃ w w', runs (subscribing ++ overflowing) (initially small_disk 2) = Some w ∧ at_rest w ∧
    (∃ diff, (7, diff) ∈ notified (impl w) ∧ everything_dirty diff = true) ∧
    runs making_later w = Some w' ∧ at_rest w' ∧ notified (impl w') = notified (impl w) ∧
    seen (disk w) (of_string (lit "new/x")) = None ∧
    seen (disk w') (of_string (lit "new/x")) = Some (EFile (lit "data") (9, 0)%Z).
Proof.
  exists (resting small_disk 2 (subscribing ++ overflowing)),
    (resting small_disk 2 (subscribing ++ overflowing ++ making_later)). split_and!.
  - apply resting_runs. vm_compute. reflexivity.
  - vm_compute. split_and!; reflexivity.
  - eexists. split; [vm_compute; left|reflexivity].
  - vm_compute. reflexivity.
  - vm_compute. split_and!; reflexivity.
  - vm_compute. reflexivity.
  - vm_compute. reflexivity.
  - vm_compute. reflexivity.
Qed.

(** ** The tree *)

(** C23. [resolve], [status], [ls], [read] and [read_whole], over a disk of regular
    files and directories, without links, that is not being changed: where
    everything can be opened the tree keeps every law of [DirectoryTree], however
    its reads are cut and interrupted; and what cannot be opened is neither listed
    nor read, though it has a status - the error of opening it is given. *)
Theorem real_tree_is_a_tree :
  LawfulTree RealTreeOn tree_ok ∧
  ∀ (t : RealTreeOn) (p absolute : path) (e : Z) (offset : Z) (n : nat),
    resolve (root_of t) p = Some absolute → has_value (located t absolute) = true →
    unopened t absolute = Some e → (0 ≤ offset)%Z → 0 < n →
    has_value (status t p) = true ∧ ls t p = Unexpected (last_error_code e) ∧
    read t p offset n = Unexpected (last_error_code e) ∧ read_whole t p = Unexpected (last_error_code e).
Proof.
  split; [exact RealDirectoryTree_lawful|]. intros t p absolute e offset n Hp Hl He Ho Hn.
  destruct (located t absolute) as [c|] eqn:Ec; [|done]. split.
  - simpl. unfold status_on, resolved. by rewrite Hp; simpl; rewrite Ec.
  - assert (opened t absolute = Unexpected e) as Hopen by (unfold opened; rewrite Ec; simpl; by rewrite He).
    simpl. unfold ls_on, read_on, read_whole_on, resolved, enough. rewrite Hp. simpl.
    unfold opened_directory. rewrite Hopen, decide_False, decide_False by lia. done.
Qed.

(** The small disk read a byte at a time, the first two calls interrupted. *)
Definition small_tree : RealTreeOn := {|
  disk_of := small_disk; root_of := of_string (lit "/home/src"); unopened _ := None;
  pace n := if decide (n < 2) then None else Some 0; interrupted := 2 |}.

Lemma small_tree_ok : tree_ok small_tree.
Proof.
  constructor.
  - apply small_disk_ok.
  - split; [reflexivity|]. apply (bool_decide_unpack _). vm_compute. exact I.
  - intros n Hn. simpl in *. by rewrite decide_False by lia.
  - done.
Qed.

(** The small disk with a file that may not be read. *)
Definition EACCES : Z := 13.
Definition guarded_tree : RealTreeOn := {|
  disk_of := small_disk; root_of := of_string (lit "/home/src");
  unopened p := if decide (p = of_string (lit "/home/src/f")) then Some EACCES else None;
  pace _ := Some 0; interrupted := 0 |}.

Lemma real_tree_is_a_tree_witness :
  is_directory_at small_tree root ∧
  read_whole guarded_tree (of_string (lit "f")) = Unexpected (last_error_code EACCES).
Proof.
  destruct real_tree_is_a_tree as [Hlaws Hguard]. split.
  - apply (law_root (ok := tree_ok) small_tree small_tree_ok).
  - destruct (Hguard guarded_tree (of_string (lit "f")) (of_string (lit "/home/src/f")) EACCES 0%Z 1) as [_ H].
    + vm_compute. reflexivity.
    + vm_compute. reflexivity.
    + vm_compute. reflexivity.
    + lia.
    + lia.
    + apply H.
Defined.
Example small_tree_reads :
  (read small_tree (of_string (lit "sub/../f")) 1 9, status small_tree (of_string (lit "../f")),
   read small_tree (of_string (lit "f/")) 0 1) =
  (Value (lit "ne"), Unexpected (make_error_code no_such_file_or_directory), Unexpected (system_error ENOTDIR)).
Proof. vm_compute. reflexivity. Qed.

(** [to_file_time], then the mount's [to_timespec]: a file's time comes
    through the mount as the disk has it. *)
Theorem times_come_through (seconds nanoseconds : Z) :
  (0 ≤ nanoseconds < 1000000000)%Z →
  MountTables.to_timespec (to_file_time (seconds, nanoseconds)) =
    {| MountTables.tv_sec := seconds; MountTables.tv_nsec := nanoseconds |}.
Proof.
  intros Hn. unfold MountTables.to_timespec.
  assert (MountTables.clock_cast (to_file_time (seconds, nanoseconds)) = nanoseconds + seconds * 1000000000)%Z as ->
    by (unfold MountTables.clock_cast, to_file_time; cbn [fst snd]; lia).
  rewrite Z.div_add, Z.div_small by lia. f_equal; lia.
Qed.

Lemma times_come_through_witness :
  MountTables.to_timespec (to_file_time (1700000000, 999999999)%Z) =
    {| MountTables.tv_sec := 1700000000; MountTables.tv_nsec := 999999999 |}.
Proof. apply (times_come_through 1700000000 999999999). lia. Defined.
