(* ===== verification/ReadTracer.v ===== *)
(** * What a command reads (src/processutil-linux.cpp)

    [Tracer]: a command runs with a read-only view of the files under a root in
    place of that directory, and whatever it opens to read is recorded. The
    files are anyone's to change meanwhile, so each request is served against
    the answers the system calls give then. *)

From S2P Require Export DirectoryTree.

(** ** System calls *)

(** A file is known by a number of its own; its device and inode number are what
    the system says they are at the time, and can be used again once it is
    gone. *)
Record Stat := { st_dev : Z; st_ino : Z; st_mode : Z }.
#[global] Instance Stat_eq_dec : EqDecision Stat.
Proof. solve_decision. Defined.
Definition identity (s : Stat) : Z * Z := (st_dev s, st_ino s).

Inductive Dirent := AnEntry (name : str) (ino : Z) (type : Z) (next : nat) | NoEntry | BadEntry (errno : Z).

(** What the calls a request makes give: [openat2] with a path beneath the root
    and flags, the others on a file. [ans_number] is what a descriptor or stream
    that is handed out is known by, and [ans_memory n] whether there is memory
    the [n]th time it is asked for. *)
Record Answers := {
  ans_openat2 : path → Z → expected Z nat;
  ans_fstat : nat → expected Z Stat;
  ans_fdopendir : nat → option Z;
  ans_pread : nat → nat → nat → expected Z str;
  ans_readdir : nat → nat → Dirent;
  ans_readlinkat : nat → nat → expected Z str;
  ans_number : nat;
  ans_memory : nat → bool;
}.

Definition EROFS : Z := 30.
Definition EIO : Z := 5.
Definition ESTALE : Z := 116.
Definition ENAMETOOLONG : Z := 36.

Definition O_ACCMODE : Z := 3.
Definition O_RDONLY : Z := 0.
Definition O_PATH : Z := 2097152.
Definition O_DIRECTORY : Z := 65536.
Definition O_NOFOLLOW : Z := 131072.
Definition O_CLOEXEC : Z := 524288.
Definition PATH_MAX : nat := 4096.

(** ** [Tracer] *)

Definition FUSE_ROOT_ID : nat := 1.

Record Inode := { relative : path; real_path : path; dev : Z; ino : Z }.
#[global] Instance Inode_eq_dec : EqDecision Inode.
Proof. solve_decision. Defined.

(** [m_open_files] and [m_open_directories] are the descriptors and streams
    that are the tracer's to close; beside them, what each stands for. *)
Record Tracer := {
  m_read_files : list path;
  m_failed : bool;
  m_inodes : gmap nat Inode;
  m_by_dev_ino : gmap (Z * Z) nat;
  m_next_ino : nat;
  m_open_files : gset nat;
  m_open_directories : gset nat;
  descriptors : gmap nat nat;
  streams : gmap nat nat;
}.

Definition set_read_files l t := {|
  m_read_files := l; m_failed := m_failed t; m_inodes := m_inodes t; m_by_dev_ino := m_by_dev_ino t;
  m_next_ino := m_next_ino t; m_open_files := m_open_files t; m_open_directories := m_open_directories t;
  descriptors := descriptors t; streams := streams t |}.
Definition fail t := {|
  m_read_files := m_read_files t; m_failed := true; m_inodes := m_inodes t; m_by_dev_ino := m_by_dev_ino t;
  m_next_ino := m_next_ino t; m_open_files := m_open_files t; m_open_directories := m_open_directories t;
  descriptors := descriptors t; streams := streams t |}.
Definition set_tables inodes by_id next t := {|
  m_read_files := m_read_files t; m_failed := m_failed t; m_inodes := inodes; m_by_dev_ino := by_id;
  m_next_ino := next; m_open_files := m_open_files t; m_open_directories := m_open_directories t;
  descriptors := descriptors t; streams := streams t |}.
Definition set_files open fds t := {|
  m_read_files := m_read_files t; m_failed := m_failed t; m_inodes := m_inodes t; m_by_dev_ino := m_by_dev_ino t;
  m_next_ino := m_next_ino t; m_open_files := open; m_open_directories := m_open_directories t;
  descriptors := fds; streams := streams t |}.
Definition set_streams open dirs t := {|
  m_read_files := m_read_files t; m_failed := m_failed t; m_inodes := m_inodes t; m_by_dev_ino := m_by_dev_ino t;
  m_next_ino := m_next_ino t; m_open_files := m_open_files t; m_open_directories := open;
  descriptors := descriptors t; streams := dirs |}.

(** The constructor, [st] what [fstat] says of the root. *)
Definition new_tracer (root : path) (st : Stat) : Tracer := {|
  m_read_files := []; m_failed := false;
  m_inodes := {[ FUSE_ROOT_ID := {| relative := of_string dot; real_path := root; dev := st_dev st; ino := st_ino st |} ]};
  m_by_dev_ino := ∅; m_next_ino := S FUSE_ROOT_ID;
  m_open_files := ∅; m_open_directories := ∅; descriptors := ∅; streams := ∅ |}.

(** The destructor closes what is left. *)
Definition destroy_tracer (t : Tracer) : Tracer :=
  set_streams ∅ (filter (λ e, e.1 ∉ m_open_directories t) (streams t))
    (set_files ∅ (filter (λ e, e.1 ∉ m_open_files t) (descriptors t)) t).

(** ** Requests *)

Inductive request :=
  | Lookup (parent : nat) (name : str)
  | GetAttr (ino : nat)
  | Open (ino : nat) (flags : Z)
  | Read (ino : nat) (size off fh : nat)
  | Release (ino fh : nat)
  | OpenDir (ino : nat)
  | ReadDir (ino : nat) (size off fh : nat)
  | ReleaseDir (ino fh : nat)
  | ReadLink (ino : nat).

Inductive reply :=
  | ReplyError (errno : Z)
  | ReplyEntry (ino : nat) (attr : Stat)
  | ReplyAttr (attr : Stat)
  | ReplyOpen (fh : nat)
  | ReplyBytes (bytes : str)
  | ReplyListing (entries : list (str * Z * Z * nat))
  | ReplyLink (target : str).

(** [None]: an exception was thrown. *)
Definition outcome : Type := option reply * Tracer.

Section requests.
Variable sys : Answers.
(** libfuse's [fuse_add_direntry]: the bytes an entry takes. *)
Variable direntry_size : str → nat.

(** [allocates n k t]: goes on with [k] unless memory runs out. *)
Definition allocates (n : nat) (k : outcome) (t : Tracer) : outcome :=
  if ans_memory sys n then k else (None, t).

Definition open_beneath (p : path) (flags : Z) : expected Z nat :=
  ans_openat2 sys p (Z.lor flags (Z.lor O_NOFOLLOW O_CLOEXEC)).

Definition reopen (n : Inode) (flags : Z) : expected Z (nat * Stat) :=
  f ← open_beneath (relative n) flags;
  st ← ans_fstat sys f;
  if bool_decide (identity st ≠ (dev n, ino n)) then Unexpected ESTALE else Value (f, st).

Definition with_inode (i : nat) (t : Tracer) (k : Inode → outcome) : outcome :=
  match m_inodes t !! i with
  | None => (Some (ReplyError EIO), t)
  | Some n => k n
  end.

Definition child_path (parent : nat) (p : Inode) (name : str) : path :=
  if bool_decide (parent = FUSE_ROOT_ID) then of_string name else relative p // of_string name.

Definition lookup_request (parent : nat) (name : str) (t : Tracer) : outcome :=
  with_inode parent t (λ p,
    allocates 0 (
      match open_beneath (child_path parent p name) O_PATH with
      | Unexpected e => (Some (ReplyError e), t)
      | Value f =>
          match ans_fstat sys f with
          | Unexpected e => (Some (ReplyError e), t)
          | Value st =>
              match m_by_dev_ino t !! identity st with
              | Some i => (Some (ReplyEntry i st), t)
              | None =>
                  let i := m_next_ino t in
                  let t' := set_tables (m_inodes t) (<[identity st := i]> (m_by_dev_ino t)) (S i) t in
                  let n := {| relative := child_path parent p name; real_path := real_path p // of_string name;
                              dev := st_dev st; ino := st_ino st |} in
                  allocates 1 (
                    allocates 2 (Some (ReplyEntry i st),
                                 set_tables (<[i := n]> (m_inodes t')) (m_by_dev_ino t') (m_next_ino t') t') t') t
              end
          end
      end) t).

Definition getattr_request (i : nat) (t : Tracer) : outcome :=
  with_inode i t (λ n,
    match reopen n O_PATH with
    | Unexpected e => (Some (ReplyError e), t)
    | Value (_, st) => (Some (ReplyAttr st), t)
    end).

(** Where the second allocation fails the descriptor has been released from its
    guard and is in no set. *)
Definition open_request (i : nat) (flags : Z) (t : Tracer) : outcome :=
  with_inode i t (λ n,
    if bool_decide (Z.land flags O_ACCMODE ≠ O_RDONLY) then (Some (ReplyError EROFS), t)
    else
      match reopen n O_RDONLY with
      | Unexpected e => (Some (ReplyError e), t)
      | Value (f, _) =>
          allocates 0 (
            let t1 := set_read_files (m_read_files t ++ [real_path n]) t in
            let fh := ans_number sys in
            let fds := <[fh := f]> (descriptors t1) in
            allocates 1 (Some (ReplyOpen fh), set_files ({[ fh ]} ∪ m_open_files t1) fds t1)
                        (set_files (m_open_files t1) fds t1)) t
      end).

Definition read_request (size off fh : nat) (t : Tracer) : outcome :=
  allocates 0 (
    match descriptors t !! fh with
    | None => (Some (ReplyError 9), t)
    | Some f =>
        match ans_pread sys f size off with
        | Unexpected e => (Some (ReplyError e), t)
        | Value bytes => (Some (ReplyBytes bytes), t)
        end
    end) t.

Definition release_request (fh : nat) (t : Tracer) : outcome :=
  (Some (ReplyError 0), set_files (m_open_files t ∖ {[ fh ]}) (delete fh (descriptors t)) t).

Definition opendir_request (i : nat) (t : Tracer) : outcome :=
  with_inode i t (λ n,
    match reopen n (Z.lor O_RDONLY O_DIRECTORY) with
    | Unexpected e => (Some (ReplyError e), t)
    | Value (f, _) =>
        match ans_fdopendir sys f with
        | Some e => (Some (ReplyError e), t)
        | None =>
            let fh := ans_number sys in
            let dirs := <[fh := f]> (streams t) in
            allocates 0 (Some (ReplyOpen fh), set_streams ({[ fh ]} ∪ m_open_directories t) dirs t)
                        (set_streams (m_open_directories t) dirs t)
        end
    end).

(** The loop that fills a reply: what is in it already, last first, and the
    bytes it takes. [fuel] bounds the entries read. *)
Fixpoint fill_listing (fuel f size pos used : nat) (got : list (str * Z * Z * nat))
    : expected Z (list (str * Z * Z * nat)) :=
  match fuel with
  | 0 => Value (rev got)
  | S fuel' =>
      match ans_readdir sys f pos with
      | NoEntry => Value (rev got)
      | BadEntry e => if bool_decide (used = 0) then Unexpected e else Value (rev got)
      | AnEntry name i type next =>
          let needed := direntry_size name in
          if bool_decide (size - used < needed) then Value (rev got)
          else fill_listing fuel' f size next (used + needed) ((name, i, type, next) :: got)
      end
  end.

Definition readdir_request (size off fh : nat) (t : Tracer) : outcome :=
  allocates 0 (
    match streams t !! fh with
    | None => (Some (ReplyError 9), t)
    | Some f =>
        match fill_listing (S size) f size off 0 [] with
        | Unexpected e => (Some (ReplyError e), t)
        | Value entries => (Some (ReplyListing entries), t)
        end
    end) t.

Definition releasedir_request (fh : nat) (t : Tracer) : outcome :=
  (Some (ReplyError 0), set_streams (m_open_directories t ∖ {[ fh ]}) (delete fh (streams t)) t).

Definition readlink_request (i : nat) (t : Tracer) : outcome :=
  with_inode i t (λ n,
    match reopen n O_PATH with
    | Unexpected e => (Some (ReplyError e), t)
    | Value (f, _) =>
        match ans_readlinkat sys f (S PATH_MAX) with
        | Unexpected e => (Some (ReplyError e), t)
        | Value target =>
            if bool_decide (length target = S PATH_MAX) then (Some (ReplyError ENAMETOOLONG), t)
            else (Some (ReplyLink target), t)
        end
    end).

Definition handle_request (r : request) (t : Tracer) : outcome :=
  match r with
  | Lookup parent name => lookup_request parent name t
  | GetAttr i => getattr_request i t
  | Open i flags => open_request i flags t
  | Read _ size off fh => read_request size off fh t
  | Release _ fh => release_request fh t
  | OpenDir i => opendir_request i t
  | ReadDir _ size off fh => readdir_request size off fh t
  | ReleaseDir _ fh => releasedir_request fh t
  | ReadLink i => readlink_request i t
  end.

(** [Trampoline::call]. *)
Definition serve_request (r : request) (t : Tracer) : reply * Tracer :=
  match handle_request r t with
  | (Some x, t') => (x, t')
  | (None, t') => (ReplyError EIO, fail t')
  end.
End requests.

Definition take_read_files (t : Tracer) : expected error_code (list path) :=
  if m_failed t then Unexpected (make_error_code io_error) else Value (m_read_files t).

(** [std::ranges::unique]: a path equal to the one before it is left out. *)
Fixpoint unique (l : list path) : list path :=
  match l with
  | p :: (q :: _) as l' => if decide (p = q) then unique l' else p :: unique l'
  | _ => l
  end.

Definition take_inputs (t : Tracer) : expected error_code (list path) :=
  inputs ← take_read_files t; Value (unique (sort_by path_leb inputs)).
