(* ===== verification/ReadTracerFacts.v ===== *)
(** * What the tracer of reads keeps true

    A session with the kernel, as a run of requests each served against what
    the system says then; and the invariants of every request: the tables of
    inodes, the handles, and the log of what was opened. *)

From S2P Require Export ReadTracer.

(** ** Runs *)

(** A name the kernel was given an inode for, and the identity the reply gave of
    it. *)
Record Entry := { entry_parent : nat; entry_name : str; entry_ino : nat; entry_id : Z * Z }.

(** An open that was answered: of which inode, the handle, the file behind it,
    and what the system said at the time. *)
Record Opened := { opened_ino : nat; opened_handle : nat; opened_file : nat; opened_under : Answers }.

(** A session: the tracer, the handles the kernel has been given and has not
    released, the inodes it was given, and the opens answered. *)
Record Session := {
  tracer : Tracer;
  held_files : gset nat;
  held_dirs : gset nat;
  entries : list Entry;
  opened : list Opened;
}.

Definition new_session (root : path) (st : Stat) : Session := {|
  tracer := new_tracer root st; held_files := ∅; held_dirs := ∅; entries := []; opened := [] |}.

(** By which names, from the root, the kernel reached an inode: *)
Inductive reached (l : list Entry) : nat → list str → Prop :=
  | ReachedRoot : reached l FUSE_ROOT_ID []
  | ReachedEntry e w : e ∈ l → reached l (entry_parent e) w → reached l (entry_ino e) (w ++ [entry_name e]).

(** and by which it did first. *)
Definition next_way (m : gmap nat (list str)) (e : Entry) : gmap nat (list str) :=
  match m !! entry_ino e, m !! entry_parent e with
  | None, Some w => <[entry_ino e := w ++ [entry_name e]]> m
  | _, _ => m
  end.
Definition ways (l : list Entry) : gmap nat (list str) := foldl next_way {[ FUSE_ROOT_ID := [] ]} l.

(** A way as the path given to [openat2], and as one below the root. *)
Definition beneath (w : list str) : path := match w with [] => of_string dot | _ => Path false w end.
Definition below (root : path) (w : list str) : path := Path (root_directory root) (names root ++ w).

(** The kernel uses handles it has, and looks up plain names; a new descriptor
    or stream is not one there is. *)
Definition may_request (sys : Answers) (r : request) (s : Session) : bool :=
  match r with
  | Lookup _ name => bool_decide (is_name name)
  | Open _ _ => bool_decide (descriptors (tracer s) !! ans_number sys = None)
  | OpenDir _ => bool_decide (streams (tracer s) !! ans_number sys = None)
  | Read _ _ _ fh | Release _ fh => bool_decide (fh ∈ held_files s)
  | ReadDir _ _ _ fh | ReleaseDir _ fh => bool_decide (fh ∈ held_dirs s)
  | _ => true
  end.

(** What an answered request adds to the logs. *)
Definition entry_of (r : request) (x : reply) : list Entry :=
  match r, x with
  | Lookup parent name, ReplyEntry i st =>
      [ {| entry_parent := parent; entry_name := name; entry_ino := i; entry_id := identity st |} ]
  | _, _ => []
  end.
Definition log_of (sys : Answers) (r : request) (x : reply) (t' : Tracer) : list Opened :=
  match r, x with
  | Open i _, ReplyOpen fh =>
      match descriptors t' !! fh with
      | Some f => [ {| opened_ino := i; opened_handle := fh; opened_file := f; opened_under := sys |} ]
      | None => []
      end
  | _, _ => []
  end.

Section runs.
Variable direntry_size : str → nat.

(** [delivered]: the kernel still wants the reply. One it does not want gives it
    no handle. *)
Definition respond (sys : Answers) (r : request) (delivered : bool) (s : Session) : option Session :=
  if may_request sys r s then
    let '(x, t') := serve_request sys direntry_size r (tracer s) in
    Some {|
      tracer := t';
      held_files :=
        match r, x with
        | Open _ _, ReplyOpen fh => if delivered then {[ fh ]} ∪ held_files s else held_files s
        | Release _ fh, _ => held_files s ∖ {[ fh ]}
        | _, _ => held_files s
        end;
      held_dirs :=
        match r, x with
        | OpenDir _, ReplyOpen fh => if delivered then {[ fh ]} ∪ held_dirs s else held_dirs s
        | ReleaseDir _ fh, _ => held_dirs s ∖ {[ fh ]}
        | _, _ => held_dirs s
        end;
      entries := entries s ++ entry_of r x;
      opened := opened s ++ log_of sys r x t' |}
  else None.

Fixpoint session_run (rs : list (Answers * request * bool)) (s : Session) : option Session :=
  match rs with
  | [] => Some s
  | (sys, r, delivered) :: rs' => s' ← respond sys r delivered s; session_run rs' s'
  end.

(** ** What holds throughout *)

Section root.
Variable root : path.
Hypothesis Hroot : Forall is_name (names root).

(** The inode stands for a path below the root, or the root. *)
Definition inode_ok (i : nat) (n : Inode) : Prop :=
  if decide (i = FUSE_ROOT_ID) then relative n = of_string dot ∧ real_path n = root
  else ∃ ns, ns ≠ [] ∧ Forall is_name ns ∧ relative n = Path false ns ∧
    real_path n = Path (root_directory root) (names root ++ ns).

Record tables_ok (t : Tracer) : Prop := {
  inodes_ok i n : m_inodes t !! i = Some n → inode_ok i n ∧ i < m_next_ino t;
  root_there : is_Some (m_inodes t !! FUSE_ROOT_ID);
  ids_below k i : m_by_dev_ino t !! k = Some i → FUSE_ROOT_ID < i < m_next_ino t;
  next_above : FUSE_ROOT_ID < m_next_ino t;
  ids_one k k' i : m_by_dev_ino t !! k = Some i → m_by_dev_ino t !! k' = Some i → k = k';
  inodes_listed i n : m_inodes t !! i = Some n → i ≠ FUSE_ROOT_ID → m_by_dev_ino t !! (dev n, ino n) = Some i;
  ids_there k i : m_failed t = false → m_by_dev_ino t !! k = Some i → is_Some (m_inodes t !! i);
}.

Record handles_ok (s : Session) : Prop := {
  files_open fh : fh ∈ m_open_files (tracer s) → is_Some (descriptors (tracer s) !! fh);
  dirs_open fh : fh ∈ m_open_directories (tracer s) → is_Some (streams (tracer s) !! fh);
  none_lost : m_failed (tracer s) = false →
    (∀ fh, is_Some (descriptors (tracer s) !! fh) → fh ∈ m_open_files (tracer s)) ∧
    ∀ fh, is_Some (streams (tracer s) !! fh) → fh ∈ m_open_directories (tracer s);
  held_open : held_files s ⊆ m_open_files (tracer s) ∧ held_dirs s ⊆ m_open_directories (tracer s);
}.

(** The inodes are those the kernel was given, each with the identity it was
    given with and the names it was reached by first. *)
Record entries_ok (t : Tracer) (l : list Entry) : Prop := {
  entries_listed e : e ∈ l → m_by_dev_ino t !! entry_id e = Some (entry_ino e);
  inodes_reached i n : m_inodes t !! i = Some n → ∃ w, ways l !! i = Some w ∧ Forall is_name w ∧
    (w = [] ↔ i = FUSE_ROOT_ID) ∧ relative n = beneath w ∧ real_path n = below root w;
}.

(** What was opened as an inode is the file that inode was given for: what its
    first names named then, which still was of the identity given. *)
Definition open_ok (l : list Entry) (o : Opened) : Prop :=
  ∃ w st, ways l !! opened_ino o = Some w ∧ Forall is_name w ∧
    open_beneath (opened_under o) (beneath w) O_RDONLY = Value (opened_file o) ∧
    ans_fstat (opened_under o) (opened_file o) = Value st ∧
    ∀ e, e ∈ l → entry_ino e = opened_ino o → entry_id e = identity st.

(** An open is recorded under the names its inode was reached by first. *)
Definition recorded_as (l : list Entry) (p : path) (o : Opened) : Prop :=
  ∃ w, ways l !! opened_ino o = Some w ∧ p = below root w.

(** The same, by the tracer's tables. *)
Definition open_listed (t : Tracer) (l : list Entry) (o : Opened) : Prop :=
  ∃ w st, ways l !! opened_ino o = Some w ∧ Forall is_name w ∧
    open_beneath (opened_under o) (beneath w) O_RDONLY = Value (opened_file o) ∧
    ans_fstat (opened_under o) (opened_file o) = Value st ∧
    (opened_ino o ≠ FUSE_ROOT_ID → m_by_dev_ino t !! identity st = Some (opened_ino o)).

Record opens_ok (s : Session) : Prop := {
  log_ok : Forall (open_listed (tracer s) (entries s)) (opened s);
  log_recorded o : o ∈ opened s → ∃ p, recorded_as (entries s) p o ∧ p ∈ m_read_files (tracer s);
  all_logged : m_failed (tracer s) = false → Forall2 (recorded_as (entries s)) (m_read_files (tracer s)) (opened s);
  handle_logged fh f : fh ∈ m_open_files (tracer s) → descriptors (tracer s) !! fh = Some f →
    ∃ o, o ∈ opened s ∧ opened_handle o = fh ∧ opened_file o = f;
}.

(** *** Ways *)

Lemma ways_snoc l e : ways (l ++ [e]) = next_way (ways l) e.
Proof. unfold ways. by rewrite foldl_snoc. Qed.
Lemma next_way_grows m e i w : m !! i = Some w → next_way m e !! i = Some w.
Proof.
  unfold next_way. intros Hi. destruct (m !! entry_ino e) eqn:E; [done|]. destruct (m !! entry_parent e); [|done].
  rewrite lookup_insert_ne by congruence. done.
Qed.
Lemma ways_grow l l' i w : ways l !! i = Some w → ways (l ++ l') !! i = Some w.
Proof.
  intros Hi. induction l' as [|e l' IH] using rev_ind; [by rewrite app_nil_r|].
  rewrite app_assoc, ways_snoc. by apply next_way_grows.
Qed.
Lemma ways_root l : ways l !! FUSE_ROOT_ID = Some [].
Proof. apply (ways_grow []). done. Qed.
Lemma ways_from l i w :
  ways l !! i = Some w → i = FUSE_ROOT_ID ∧ w = [] ∨
  ∃ e wp, e ∈ l ∧ entry_ino e = i ∧ ways l !! entry_parent e = Some wp ∧ w = wp ++ [entry_name e].
Proof.
  revert i w. induction l as [|e l IH] using rev_ind; intros i w.
  - unfold ways. simpl. intros [<- <-]%lookup_singleton_Some. by left.
  - assert (∀ i w, ways l !! i = Some w → i = FUSE_ROOT_ID ∧ w = [] ∨ ∃ e' wp, e' ∈ l ++ [e] ∧ entry_ino e' = i ∧
      ways (l ++ [e]) !! entry_parent e' = Some wp ∧ w = wp ++ [entry_name e']) as IH'.
    { intros j v [?|(e' & wp & He & ? & Hp & ?)]%IH; [by left|right]. exists e', wp. split_and!; try done.
      - apply elem_of_app. by left.
      - by apply ways_grow. }
    rewrite ways_snoc at 1. unfold next_way. destruct (ways l !! entry_ino e); [by apply IH'|].
    destruct (ways l !! entry_parent e) as [wp|] eqn:Ep; [|by apply IH'].
    intros [[<- <-]|[_ Hi]]%lookup_insert_Some; [right|by apply IH'].
    exists e, wp. split_and!; [apply elem_of_app; right; left|done|by apply ways_grow|done].
Qed.

(** Where no inode was given for two names, there are no others it was reached
    by. *)
Lemma reached_one_way l i w v :
  (∀ e e', e ∈ l → e' ∈ l → entry_ino e = entry_ino e' → entry_parent e = entry_parent e' ∧ entry_name e = entry_name e') →
  (∀ e, e ∈ l → entry_ino e ≠ FUSE_ROOT_ID) →
  reached l i w → ways l !! i = Some v → w = v.
Proof.
  intros Hone Hnr Hr. revert v. induction Hr as [|e w He Hr IH]; intros v.
  - rewrite ways_root. congruence.
  - intros [[E _]|(e' & wp & He' & E & Hp & ->)]%ways_from; [by apply Hnr in E|].
    destruct (Hone e e') as [Ep En]; [done..|]. rewrite <- Ep in Hp. by rewrite (IH wp Hp), En.
Qed.

(** *** The tables *)

Lemma kept_tables sys r t x t' :
  serve_request sys direntry_size r t = (x, t') → (∀ parent name, r ≠ Lookup parent name) →
  m_inodes t' = m_inodes t ∧ m_by_dev_ino t' = m_by_dev_ino t ∧ m_next_ino t' = m_next_ino t ∧
  (m_failed t' = false → m_failed t = false).
Proof.
  intros H Hr. unfold serve_request in H. destruct r; simpl in H; [by destruct (Hr parent name)|..].
  all: unfold getattr_request, open_request, read_request, release_request, opendir_request, readdir_request,
    releasedir_request, readlink_request, with_inode, allocates in H.
  all: repeat case_match; by simplify_eq.
Qed.

Lemma child_inode_ok i n name :
  inode_ok i n → is_name name →
  ∃ ns, ns ≠ [] ∧ Forall is_name ns ∧ child_path i n name = Path false ns ∧
    real_path n // of_string name = Path (root_directory root) (names root ++ ns).
Proof.
  intros Hn Hname. pose proof Hname as (H1 & _ & _ & H4). unfold child_path. unfold inode_ok in Hn.
  destruct (decide (i = FUSE_ROOT_ID)) as [->|Hi].
  - destruct Hn as [_ ->]. rewrite bool_decide_true by done. exists [name]. rewrite of_string_name by done.
    split_and!; [done|by apply Forall_singleton|done|]. by rewrite <- (of_string_name name), append_name.
  - destruct Hn as (ns & Hne & Hns & Hrel & Hreal). rewrite bool_decide_false by done. exists (ns ++ [name]).
    split_and!; [by destruct ns|apply Forall_app; split; [done|by apply Forall_singleton]|..].
    + rewrite Hrel. by rewrite append_name.
    + rewrite Hreal, append_name by (simpl; try apply Forall_app; done). simpl. by rewrite app_assoc.
Qed.

Lemma lookup_tables sys parent name t x t' :
  tables_ok t → is_name name → serve_request sys direntry_size (Lookup parent name) t = (x, t') →
  tables_ok t'.
Proof.
  intros Ht Hname H. unfold serve_request in H. simpl in H. unfold lookup_request, with_inode, allocates in H.
  assert (∀ t0, tables_ok t0 → tables_ok (fail t0)) as Hfail.
  { intros t0 [H1 H2 H3 H4 H5 H6 H7]. by constructor. }
  destruct (m_inodes t !! parent) as [p|] eqn:Ep; [|by simplify_eq].
  destruct (ans_memory sys 0); [|simplify_eq; by apply Hfail].
  destruct (open_beneath _ _ _) as [f|e]; [|by simplify_eq]. destruct (ans_fstat sys f) as [st|e]; [|by simplify_eq].
  destruct (m_by_dev_ino t !! identity st) as [i|] eqn:Ei; [by simplify_eq|].
  destruct (ans_memory sys 1); [|simplify_eq; by apply Hfail].
  destruct (inodes_ok t Ht parent p Ep) as [Hp _].
  destruct (child_inode_ok parent p name Hp Hname) as (ns & Hne & Hns & Hrel & Hreal).
  set (i := m_next_ino t) in *. pose proof (next_above t Ht) as Hnext.
  set (t1 := set_tables (m_inodes t) (<[identity st := i]> (m_by_dev_ino t)) (S i) t) in *.
  assert (∀ k j, m_by_dev_ino t1 !! k = Some j → k = identity st ∧ j = i ∨ k ≠ identity st ∧ m_by_dev_ino t !! k = Some j) as Hids.
  { intros k j Hk. simpl in Hk. apply lookup_insert_Some in Hk as [[<- <-]|[? Hk]]; auto. }
  assert (∀ k j, m_by_dev_ino t1 !! k = Some j → FUSE_ROOT_ID < j < S i) as Hbelow.
  { intros k j [[-> ->]|[_ Hk]]%Hids; [lia|]. apply (ids_below t Ht) in Hk. unfold i. lia. }
  assert (∀ k k' j, m_by_dev_ino t1 !! k = Some j → m_by_dev_ino t1 !! k' = Some j → k = k') as Hone.
  { intros k k' j [[-> ->]|[? Hk]]%Hids [[-> Hj]|[? Hk']]%Hids; [done|..].
    - apply (ids_below t Ht) in Hk'. unfold i in *. lia.
    - subst j. apply (ids_below t Ht) in Hk. unfold i in *. lia.
    - by eapply ids_one. }
  assert (∀ j n, m_inodes t !! j = Some n → j ≠ FUSE_ROOT_ID → m_by_dev_ino t1 !! (dev n, ino n) = Some j) as Hlisted.
  { intros j n Hj Hjr. simpl. rewrite lookup_insert_ne; [by eapply inodes_listed|].
    intros E. apply (inodes_listed t Ht) in Hj; [|done]. congruence. }
  destruct (ans_memory sys 2); simplify_eq.
  - constructor; simpl; try done.
    + intros j n [[<- <-]|[_ Hj]]%lookup_insert_Some.
      * split; [|lia]. unfold inode_ok. rewrite decide_False by lia. by exists ns.
      * destruct (inodes_ok t Ht j n Hj). split; [done|]. unfold i. lia.
    + rewrite lookup_insert_ne by lia. apply Ht.
    + lia.
    + intros j n [[<- <-]|[_ Hj]]%lookup_insert_Some Hjr; [by rewrite lookup_insert_eq|by apply Hlisted].
    + intros k j Hf [[-> ->]|[_ Hk]]%Hids; [by rewrite lookup_insert_eq|].
      destruct (decide (i = j)) as [<-|]; [by rewrite lookup_insert_eq|]. rewrite lookup_insert_ne by done.
      by eapply ids_there.
  - constructor; simpl; try done.
    + intros j n Hj. destruct (inodes_ok t Ht j n Hj). split; [done|]. unfold i. lia.
    + apply Ht.
    + lia.
Qed.

Lemma beneath_child i n w name :
  (w = [] ↔ i = FUSE_ROOT_ID) → relative n = beneath w → Forall is_name w → is_name name →
  child_path i n name = beneath (w ++ [name]).
Proof.
  intros Hw Hrel Hns (H1 & _ & _ & H4). unfold child_path. case_bool_decide as Hi.
  - assert (w = []) as -> by tauto. simpl. by rewrite of_string_name.
  - destruct w as [|c w]; [tauto|]. rewrite Hrel. simpl. by rewrite append_name.
Qed.
Lemma below_snoc w name :
  Forall is_name w → is_name name → below root w // of_string name = below root (w ++ [name]).
Proof.
  intros Hw (H1 & _ & _ & H4). unfold below. rewrite append_name; [|by apply Forall_app|done|done]. simpl. by rewrite <- app_assoc.
Qed.

Lemma entries_ok_same t t' l :
  entries_ok t l → m_inodes t' = m_inodes t → m_by_dev_ino t' = m_by_dev_ino t → entries_ok t' l.
Proof. intros [H1 H2] E1 E2. constructor; rewrite ?E1, ?E2; auto. Qed.

Lemma lookup_entries sys parent name t x t' l :
  tables_ok t → entries_ok t l → is_name name → serve_request sys direntry_size (Lookup parent name) t = (x, t') →
  entries_ok t' (l ++ entry_of (Lookup parent name) x) ∧ m_by_dev_ino t ⊆ m_by_dev_ino t'.
Proof.
  intros Ht [L1 L2] Hname H. unfold serve_request in H. simpl in H. unfold lookup_request, with_inode, allocates in H.
  assert (∀ e, entries_ok t (l ++ entry_of (Lookup parent name) (ReplyError e))) as Hsame.
  { intros e. simpl. by rewrite app_nil_r. }
  destruct (m_inodes t !! parent) as [p|] eqn:Ep; [|by simplify_eq].
  destruct (ans_memory sys 0); [|simplify_eq; split; [by apply (entries_ok_same t)|done]].
  destruct (open_beneath _ _ _) as [f|e]; [|by simplify_eq]. destruct (ans_fstat sys f) as [st|e]; [|by simplify_eq].
  destruct (m_by_dev_ino t !! identity st) as [i|] eqn:Ei.
  { simplify_eq. split; [constructor|done].
    - intros e [He| ->%list_elem_of_singleton]%elem_of_app; [by apply L1|done].
    - intros i' n Hn. destruct (L2 i' n Hn) as (w & Hw & Hrest). exists w. split; [by apply ways_grow|done]. }
  destruct (ans_memory sys 1); [|simplify_eq; split; [by apply (entries_ok_same t)|done]].
  destruct (L2 parent p Ep) as (w & Hw & Hns & Hroot' & Hrel & Hreal).
  set (i := m_next_ino t) in *. pose proof (next_above t Ht) as Hnext.
  assert (m_by_dev_ino t ⊆ <[identity st:=i]> (m_by_dev_ino t)) as Hsub by by apply insert_subseteq.
  assert (∀ e, e ∈ l → <[identity st:=i]> (m_by_dev_ino t) !! entry_id e = Some (entry_ino e)) as L1'.
  { intros e He. eapply lookup_weaken; [by apply L1|done]. }
  destruct (ans_memory sys 2); simplify_eq; (split; [constructor|done]); simpl.
  - intros e [He| ->%list_elem_of_singleton]%elem_of_app; [by apply L1'|]. simpl. by rewrite lookup_insert_eq.
  - intros j n [[<- <-]|[_ Hj]]%lookup_insert_Some.
    + exists (w ++ [name]). simpl. rewrite (beneath_child parent p w name), Hreal, below_snoc by done. split_and!; try done.
      * rewrite ways_snoc. unfold next_way. simpl. rewrite Hw. destruct (ways l !! i) as [v|] eqn:Ev; [|by rewrite lookup_insert_eq].
        exfalso. destruct (ways_from l i v Ev) as [[E _]|(e & _ & He & E & _)]; [lia|].
        apply L1, (ids_below t Ht) in He. lia.
      * apply Forall_app. split; [done|]. by apply Forall_singleton.
      * split; [by destruct w|lia].
    + destruct (L2 j n Hj) as (v & Hv & Hrest). exists v. split; [by apply ways_grow|done].
  - by rewrite app_nil_r.
  - rewrite app_nil_r. apply L2.
Qed.

Lemma served_entries sys r t x t' l :
  tables_ok t → entries_ok t l → (∀ parent name, r = Lookup parent name → is_name name) →
  serve_request sys direntry_size r t = (x, t') →
  entries_ok t' (l ++ entry_of r x) ∧ m_by_dev_ino t ⊆ m_by_dev_ino t'.
Proof.
  intros Ht Hl Hr H. destruct r as [parent name|i|i flags|i size off fh|i fh|i|i size off fh|i fh|i];
    [eapply lookup_entries; [done|done|by eapply Hr|done]|..].
  all: destruct (kept_tables _ _ _ _ _ H) as (E1 & E2 & _); [done|]; simpl; rewrite app_nil_r, E2.
  all: split; [by apply (entries_ok_same t)|done].
Qed.

(** *** Handles and what was opened *)

Definition opens_or_closes (r : request) : bool :=
  match r with Open _ _ | Release _ _ | OpenDir _ | ReleaseDir _ _ => true | _ => false end.

Lemma kept_handles sys r t x t' :
  serve_request sys direntry_size r t = (x, t') → opens_or_closes r = false →
  m_open_files t' = m_open_files t ∧ m_open_directories t' = m_open_directories t ∧
  descriptors t' = descriptors t ∧ streams t' = streams t ∧ m_read_files t' = m_read_files t ∧
  (m_failed t' = false → m_failed t = false).
Proof.
  intros H Hr. unfold serve_request in H. destruct r; try done; simpl in H.
  all: unfold lookup_request, getattr_request, read_request, readdir_request, readlink_request, with_inode, allocates in H.
  all: repeat case_match; by simplify_eq.
Qed.

Lemma kept_log sys r x t' : match r with Open _ _ => False | _ => True end → log_of sys r x t' = [].
Proof. by destruct r. Qed.

Record session_ok (s : Session) : Prop := {
  session_tables : tables_ok (tracer s);
  session_entries : entries_ok (tracer s) (entries s);
  session_handles : handles_ok s;
  session_opens : opens_ok s;
}.

Lemma open_listed_stays t t' l l' o :
  m_by_dev_ino t ⊆ m_by_dev_ino t' → open_listed t l o → open_listed t' (l ++ l') o.
Proof.
  intros Hsub (w & st & Hw & Hn & Hf & Hst & Hi). exists w, st. split_and!; [by apply ways_grow|done..|].
  intros Hr. eapply lookup_weaken; [by apply Hi|done].
Qed.
Lemma recorded_stays l l' p o : recorded_as l p o → recorded_as (l ++ l') p o.
Proof. intros (w & Hw & ->). exists w. split; [by apply ways_grow|done]. Qed.

(** The logs, as the tracer goes on and more entries are given. *)
Lemma opens_stay s t' l' held dirs :
  opens_ok s → m_by_dev_ino (tracer s) ⊆ m_by_dev_ino t' →
  m_read_files t' = m_read_files (tracer s) → (m_failed t' = false → m_failed (tracer s) = false) →
  (∀ fh f, fh ∈ m_open_files t' → descriptors t' !! fh = Some f →
     fh ∈ m_open_files (tracer s) ∧ descriptors (tracer s) !! fh = Some f) →
  opens_ok {| tracer := t'; held_files := held; held_dirs := dirs; entries := entries s ++ l'; opened := opened s |}.
Proof.
  intros [O1 O2 O3 O4] Hsub Er Hf Hh. constructor; simpl; rewrite ?Er.
  - eapply Forall_impl; [done|]. intros o. by apply open_listed_stays.
  - intros o Ho. destruct (O2 o Ho) as (p & Hp & Hin). exists p. split; [by apply recorded_stays|done].
  - intros Hnf. eapply Forall2_impl; [by apply O3, Hf|]. intros p o. by apply recorded_stays.
  - intros fh f H1 H2. destruct (Hh fh f H1 H2). by apply O4.
Qed.

(** A request that opens and closes nothing. *)
Lemma respond_quiet s t' l' :
  session_ok s → tables_ok t' → entries_ok t' (entries s ++ l') → m_by_dev_ino (tracer s) ⊆ m_by_dev_ino t' →
  m_open_files t' = m_open_files (tracer s) → m_open_directories t' = m_open_directories (tracer s) →
  descriptors t' = descriptors (tracer s) → streams t' = streams (tracer s) →
  m_read_files t' = m_read_files (tracer s) → (m_failed t' = false → m_failed (tracer s) = false) →
  session_ok {| tracer := t'; held_files := held_files s; held_dirs := held_dirs s; entries := entries s ++ l'; opened := opened s |}.
Proof.
  intros [_ _ [H1 H2 H3 H4] Ho] Ht Hl Hsub E1 E2 E3 E4 E5 Hf. split; [done|done|constructor|apply opens_stay]; simpl;
    rewrite ?E1, ?E2, ?E3, ?E4, ?E5; auto.
Qed.

(** The state an open that was recorded leaves, its descriptor in [open]. *)
Definition with_open (open : gset nat) (sys : Answers) (n : Inode) (f : nat) (t : Tracer) : Tracer :=
  set_files open (<[ans_number sys := f]> (descriptors t)) (set_read_files (m_read_files t ++ [real_path n]) t).

Lemma open_served sys i flags t x t' :
  serve_request sys direntry_size (Open i flags) t = (x, t') →
  (t' = t ∨ t' = fail t) ∧ (∀ fh, x ≠ ReplyOpen fh) ∨
  ∃ n f st, m_inodes t !! i = Some n ∧ open_beneath sys (relative n) O_RDONLY = Value f ∧
    ans_fstat sys f = Value st ∧ identity st = (dev n, ino n) ∧
    (x = ReplyOpen (ans_number sys) ∧ t' = with_open ({[ ans_number sys ]} ∪ m_open_files t) sys n f t ∨
     x = ReplyError EIO ∧ t' = fail (with_open (m_open_files t) sys n f t)).
Proof.
  intros H. unfold serve_request in H. simpl in H. unfold open_request, with_inode, allocates in H.
  destruct (m_inodes t !! i) as [n|]; [|simplify_eq; auto].
  destruct (bool_decide _); [simplify_eq; auto|].
  destruct (reopen sys n O_RDONLY) as [[f st]|e] eqn:Er; [|simplify_eq; auto].
  assert (open_beneath sys (relative n) O_RDONLY = Value f ∧ ans_fstat sys f = Value st ∧ identity st = (dev n, ino n))
    as (Hf & Hst & Hid).
  { unfold reopen in Er. destruct (open_beneath _ _ _) as [f'|]; [|done]. simpl in Er.
    destruct (ans_fstat sys f') eqn:Es; [|done]. simpl in Er. case_bool_decide as Hid; [done|]. simplify_eq.
    split_and!; [done|done|]. destruct (decide (identity st = (dev n, ino n))); [done|by destruct Hid]. }
  destruct (ans_memory sys 0); [|simplify_eq; auto].
  right. exists n, f, st. split_and!; [done..|]. destruct (ans_memory sys 1); simplify_eq; auto.
Qed.

Lemma log_of_other sys r x t' : (∀ fh, x ≠ ReplyOpen fh) → log_of sys r x t' = [].
Proof. intros Hx. destruct r; [done..| |done|done|done|done|done|done]. destruct x; try done. by destruct (Hx fh). Qed.

Lemma inode_opened sys i n f st t l :
  tables_ok t → entries_ok t l → m_inodes t !! i = Some n → open_beneath sys (relative n) O_RDONLY = Value f →
  ans_fstat sys f = Value st → identity st = (dev n, ino n) →
  let o := {| opened_ino := i; opened_handle := ans_number sys; opened_file := f; opened_under := sys |} in
  open_listed t l o ∧ recorded_as l (real_path n) o.
Proof.
  intros Ht Hl Hi Hf Hst Hid o. destruct (inodes_reached t l Hl i n Hi) as (w & Hw & Hns & Hroot' & Hrel & Hreal).
  split; [exists w, st|by exists w]. rewrite Hrel in Hf. split_and!; try done. simpl. intros Hne. rewrite Hid.
  by apply (inodes_listed t Ht).
Qed.

Lemma respond_open sys i flags s x t' held :
  session_ok s → tables_ok t' → entries_ok t' (entries s) → m_by_dev_ino (tracer s) ⊆ m_by_dev_ino t' →
  descriptors (tracer s) !! ans_number sys = None →
  serve_request sys direntry_size (Open i flags) (tracer s) = (x, t') →
  (held = held_files s ∨ ∃ fh, x = ReplyOpen fh ∧ held = {[ fh ]} ∪ held_files s) →
  session_ok {| tracer := t'; held_files := held; held_dirs := held_dirs s; entries := entries s;
                opened := opened s ++ log_of sys (Open i flags) x t' |}.
Proof.
  intros Hs Ht' Hl' Hsub Hnew H Hheld.
  pose proof (open_served _ _ _ _ _ _ H) as [[Hq Hx]|(n & f & st & Hi & Hf & Hst & Hid & Hcases)].
  - rewrite log_of_other, app_nil_r by done. destruct Hheld as [->|(fh & Hfh & _)]; [|by destruct (Hx fh)].
    destruct Hs as [Ht Hl [H1 H2 H3 H4] [O1 O2 O3 O4]].
    destruct Hq as [->| ->]; (split; [done|done|by constructor|by constructor]).
  - destruct (inode_opened sys i n f st _ _ (session_tables s Hs) (session_entries s Hs) Hi Hf Hst Hid) as [Hok Hrec].
    set (o := {| opened_ino := i; opened_handle := ans_number sys; opened_file := f; opened_under := sys |}) in *.
    destruct Hs as [Ht Hl [H1 H2 H3 [H4 H5]] [O1 O2 O3 O4]].
    destruct Hcases as [[-> ->]|[-> ->]].
    + assert (log_of sys (Open i flags) (ReplyOpen (ans_number sys))
        (with_open ({[ans_number sys]} ∪ m_open_files (tracer s)) sys n f (tracer s)) = [ o ]) as ->.
      { simpl. by rewrite lookup_insert_eq. }
      split; [done|done|constructor|constructor]; simpl.
      * intros fh [->%elem_of_singleton|Hfh]%elem_of_union; [by rewrite lookup_insert_eq|].
        destruct (decide (ans_number sys = fh)) as [<-|]; [by rewrite lookup_insert_eq|].
        rewrite lookup_insert_ne by done. by apply H1.
      * done.
      * intros Hnf. split; [|by apply H3]. intros fh [<-|[_ Hfh]]%lookup_insert_is_Some; [set_solver|].
        apply elem_of_union_r. by apply H3.
      * split; [|done]. destruct Hheld as [->|(fh & [= <-] & ->)]; set_solver.
      * apply Forall_app. split; [done|]. by apply Forall_singleton.
      * intros o' [Ho| ->%list_elem_of_singleton]%elem_of_app.
        -- destruct (O2 o' Ho) as (p & Hp & Hin). exists p. split; [done|]. apply elem_of_app. by left.
        -- exists (real_path n). split; [done|]. apply elem_of_app. right. left.
      * intros Hnf. apply Forall2_app; [by apply O3|by constructor].
      * intros fh g Hfh [[<- <-]|[Hne Hg]]%lookup_insert_Some.
        -- exists o. split; [apply elem_of_app; right; left|done].
        -- destruct (O4 fh g) as (o' & Ho & ?); [set_solver|done|]. exists o'. split; [apply elem_of_app; by left|done].
    + rewrite log_of_other, app_nil_r by done. destruct Hheld as [->|(fh & ? & _)]; [|done].
      split; [done|done|constructor|constructor]; simpl; try done.
      * intros fh Hfh. destruct (decide (ans_number sys = fh)) as [<-|]; [by rewrite lookup_insert_eq|].
        rewrite lookup_insert_ne by done. by apply H1.
      * intros o' Ho. destruct (O2 o' Ho) as (p & Hp & Hin). exists p. split; [done|]. apply elem_of_app. by left.
      * intros fh g Hfh [[<- _]|[Hne Hg]]%lookup_insert_Some; [|by apply O4].
        destruct (H1 _ Hfh). congruence.
Qed.

Lemma respond_release sys i fh s t' x :
  session_ok s → serve_request sys direntry_size (Release i fh) (tracer s) = (x, t') →
  session_ok {| tracer := t'; held_files := held_files s ∖ {[ fh ]}; held_dirs := held_dirs s; entries := entries s; opened := opened s |}.
Proof.
  intros [Ht [L1 L2] [H1 H2 H3 [H4 H5]] [O1 O2 O3 O4]] H. unfold serve_request in H. simpl in H. simplify_eq.
  split; [by destruct Ht; constructor|by constructor|constructor|constructor]; simpl; try done.
  - intros fh' Hfh'. rewrite lookup_delete_ne by set_solver. apply H1. set_solver.
  - intros Hnf. split; [|by apply H3]. intros fh' [Hne Hfh']%lookup_delete_is_Some.
    apply elem_of_difference. split; [by apply H3|set_solver].
  - split; [set_solver|done].
  - intros fh' f Hfh' [_ Hf]%lookup_delete_Some. apply O4; [set_solver|done].
Qed.

Lemma respond_opendir sys i s t' x held :
  session_ok s → streams (tracer s) !! ans_number sys = None →
  serve_request sys direntry_size (OpenDir i) (tracer s) = (x, t') →
  (held = held_dirs s ∨ ∃ fh, x = ReplyOpen fh ∧ held = {[ fh ]} ∪ held_dirs s) →
  session_ok {| tracer := t'; held_files := held_files s; held_dirs := held; entries := entries s; opened := opened s |}.
Proof.
  intros Hs Hnew H Hheld. pose proof Hs as [Ht [L1 L2] [H1 H2 H3 [H4 H5]] [O1 O2 O3 O4]].
  unfold serve_request in H. simpl in H. unfold opendir_request, with_inode, allocates in H.
  assert ((t' = tracer s ∧ ∀ fh, x ≠ ReplyOpen fh) ∨ ∃ f,
    t' = set_streams ({[ ans_number sys ]} ∪ m_open_directories (tracer s)) (<[ans_number sys := f]> (streams (tracer s))) (tracer s) ∧
      x = ReplyOpen (ans_number sys) ∨
    t' = fail (set_streams (m_open_directories (tracer s)) (<[ans_number sys := f]> (streams (tracer s))) (tracer s)) ∧
      ∀ fh, x ≠ ReplyOpen fh) as [[-> Hx]|(f & [[-> ->]|[-> Hx]])].
  { repeat case_match; simplify_eq; eauto 6. }
  - destruct Hheld as [->|(fh & Hfh & _)]; [|by destruct (Hx fh)]. by split.
  - split; [by destruct Ht; constructor|by constructor|constructor|by constructor]; simpl; try done.
    + intros fh [->%elem_of_singleton|Hfh]%elem_of_union; [by rewrite lookup_insert_eq|].
      destruct (decide (ans_number sys = fh)) as [<-|]; [by rewrite lookup_insert_eq|].
      rewrite lookup_insert_ne by done. by apply H2.
    + intros Hnf. split; [by apply H3|]. intros fh [<-|[_ Hfh]]%lookup_insert_is_Some; [set_solver|].
      apply elem_of_union_r. by apply H3.
    + split; [done|]. destruct Hheld as [->|(fh & [= <-] & ->)]; set_solver.
  - destruct Hheld as [->|(fh & Hfh & _)]; [|by destruct (Hx fh)].
    split; [by destruct Ht; constructor|by constructor|constructor|by constructor]; simpl; try done.
    intros fh Hfh. destruct (decide (ans_number sys = fh)) as [<-|]; [by rewrite lookup_insert_eq|].
    rewrite lookup_insert_ne by done. by apply H2.
Qed.

Lemma respond_releasedir sys i fh s t' x :
  session_ok s → serve_request sys direntry_size (ReleaseDir i fh) (tracer s) = (x, t') →
  session_ok {| tracer := t'; held_files := held_files s; held_dirs := held_dirs s ∖ {[ fh ]}; entries := entries s; opened := opened s |}.
Proof.
  intros [Ht [L1 L2] [H1 H2 H3 [H4 H5]] [O1 O2 O3 O4]] H. unfold serve_request in H. simpl in H. simplify_eq.
  split; [by destruct Ht; constructor|by constructor|constructor|by constructor]; simpl; try done.
  - intros fh' Hfh'. rewrite lookup_delete_ne by set_solver. apply H2. set_solver.
  - intros Hnf. split; [by apply H3|]. intros fh' [Hne Hfh']%lookup_delete_is_Some.
    apply elem_of_difference. split; [by apply H3|set_solver].
  - split; [done|set_solver].
Qed.

Lemma served_tables sys r t x t' :
  tables_ok t → (∀ parent name, r = Lookup parent name → is_name name) →
  serve_request sys direntry_size r t = (x, t') → tables_ok t'.
Proof.
  intros Ht Hr H. destruct r as [parent name|i|i flags|i size off fh|i fh|i|i size off fh|i fh|i];
    [eapply lookup_tables; [done|by eapply Hr|done]|..].
  all: destruct (kept_tables _ _ _ _ _ H) as (E1 & E2 & E3 & Hf); [done|].
  all: destruct Ht as [T1 T2 T3 T4 T5 T6 T7]; constructor; rewrite ?E1, ?E2, ?E3; auto.
  all: intros k j Hnf. all: apply T7, Hf, Hnf.
Qed.

Lemma respond_ok sys r delivered s s' :
  session_ok s → respond sys r delivered s = Some s' → session_ok s'.
Proof.
  intros Hs H. unfold respond in H. destruct (may_request sys r s) eqn:Em; [|done].
  destruct (serve_request sys direntry_size r (tracer s)) as [x t'] eqn:E. injection H as <-.
  assert (tables_ok t') as Ht'.
  { eapply served_tables; [apply Hs| |done]. intros parent name ->. simpl in Em. by bool_to_prop. }
  destruct (served_entries sys r (tracer s) x t' (entries s) (session_tables s Hs) (session_entries s Hs)) as [Hl' Hsub]; [|done|].
  { intros parent name ->. simpl in Em. by bool_to_prop. }
  destruct (opens_or_closes r) eqn:Hq.
  2: { destruct (kept_handles _ _ _ _ _ E Hq) as (E1 & E2 & E3 & E4 & E5 & Hf).
    rewrite kept_log, (app_nil_r (opened s)) by by destruct r.
    pose proof (respond_quiet s t' _ Hs Ht' Hl' Hsub E1 E2 E3 E4 E5 Hf). by destruct r. }
  destruct r as [parent name|i|i flags|i size off fh|i fh|i|i size off fh|i fh|i]; simpl in Em; try done; bool_to_prop.
  all: change (entry_of _ x) with (@nil Entry) in *; rewrite (app_nil_r (entries s)) in *.
  - apply (respond_open sys i flags s x t'); [done..|].
    destruct x; auto. destruct delivered; [right; eauto|auto].
  - rewrite app_nil_r. by apply (respond_release sys i fh s t' x).
  - rewrite app_nil_r. apply (respond_opendir sys i s t' x); [done..|].
    destruct x; auto. destruct delivered; [right; eauto|auto].
  - rewrite app_nil_r. by apply (respond_releasedir sys i fh s t' x).
Qed.

Lemma new_session_ok st : session_ok (new_session root st).
Proof.
  split; [constructor|constructor|constructor|constructor]; simpl; try done.
  - intros i n [<- <-]%lookup_singleton_Some. split; [|lia]. unfold inode_ok. by rewrite decide_True.
  - lia.
  - by intros i n [<- <-]%lookup_singleton_Some.
  - by intros e ?%elem_of_nil.
  - intros i n [<- <-]%lookup_singleton_Some. exists []. unfold below. rewrite app_nil_r. by destruct root.
  - intros _. split; intros fh [f Hf]; by rewrite lookup_empty in Hf.
  - intros o Ho. by apply elem_of_nil in Ho.
Qed.

Lemma session_run_ok rs s s' : session_ok s → session_run rs s = Some s' → session_ok s'.
Proof.
  revert s. induction rs as [|[[sys r] delivered] rs IH]; intros s Hs H; simpl in H; [by injection H as <-|].
  destruct (respond sys r delivered s) as [s1|] eqn:E; [|done]. apply (IH s1); [by eapply respond_ok|done].
Qed.
End root.
End runs.

(** ** What is reported *)

Lemma str_lt_order :
  (∀ x, str_lt x x = false) ∧
  (∀ x y z, str_lt x y = true → str_lt y z = true → str_lt x z = true) ∧
  (∀ x y, str_lt x y = false → str_lt y x = false → x = y).
Proof.
  destruct str_leb_order as (Htot & Htr & Hanti). unfold str_lt. split_and!.
  - intros x. by rewrite bool_decide_true, andb_false_r.
  - intros x y z [H1 H2]%andb_true_iff [H3 H4]%andb_true_iff. bool_to_prop. apply andb_true_iff. split; [by eapply Htr|].
    apply negb_true_iff, bool_decide_eq_false. intros ->. destruct H2. by apply Hanti.
  - intros x y H1 H2. destruct (decide (x = y)) as [|Hne]; [done|].
    rewrite (bool_decide_false (x = y)), andb_true_r in H1 by done.
    rewrite (bool_decide_false (y = x)), andb_true_r in H2 by congruence. apply Htot in H1. congruence.
Qed.

Lemma path_leb_order :
  (∀ x y, path_leb x y = false → path_leb y x = true) ∧
  (∀ x y z, path_leb x y = true → path_leb y z = true → path_leb x z = true) ∧
  (∀ x y, path_leb x y = true → path_leb y x = true → x = y).
Proof.
  destruct str_lt_order as (H1 & H2 & H3). unfold path_leb. split_and!.
  - intros [rx x] [ry y]. simpl. destruct rx, ry; try done; by apply lex_leb_total.
  - intros [rx x] [ry y] [rz z]. simpl. destruct rx, ry, rz; try done; by apply lex_leb_trans.
  - intros [rx x] [ry y]. simpl. destruct rx, ry; try done; intros E1 E2; f_equal; by apply (lex_leb_antisym str_lt).
Qed.

Lemma elem_of_unique p l : p ∈ unique l ↔ p ∈ l.
Proof.
  induction l as [|q l IH]; [done|]. destruct l as [|r l]; [done|].
  change (unique (q :: r :: l)) with (if decide (q = r) then unique (r :: l) else q :: unique (r :: l)).
  case_decide; [subst; rewrite IH; set_solver|]. rewrite elem_of_cons, IH. set_solver.
Qed.

Lemma unique_sorted l :
  StronglySorted (λ p q, path_leb p q = true) l →
  StronglySorted (λ p q, path_leb p q = true ∧ p ≠ q) (unique l).
Proof.
  destruct path_leb_order as (_ & Htr & Hanti).
  induction l as [|q l IH]; [constructor|]. intros Hs. apply StronglySorted_inv in Hs as [Hs Hq].
  destruct l as [|r l]; [repeat constructor|].
  change (unique (q :: r :: l)) with (if decide (q = r) then unique (r :: l) else q :: unique (r :: l)).
  case_decide as Hne; [by apply IH|]. constructor; [by apply IH|].
  apply Forall_forall. intros p Hp. rewrite elem_of_unique in Hp. rewrite Forall_forall in Hq.
  split; [by apply Hq|]. intros <-. apply elem_of_cons in Hp as [?|Hp]; [done|].
  apply StronglySorted_inv in Hs as [_ Hr]. rewrite Forall_forall in Hr.
  destruct Hne. apply Hanti; [apply Hq; left|by apply Hr].
Qed.

Lemma take_inputs_spec t :
  (m_failed t = true → take_inputs t = Unexpected (make_error_code io_error)) ∧
  (m_failed t = false → ∃ l, take_inputs t = Value l ∧
    StronglySorted (λ p q, path_leb p q = true ∧ p ≠ q) l ∧ ∀ p, p ∈ l ↔ p ∈ m_read_files t).
Proof.
  unfold take_inputs, take_read_files. split; intros ->; [done|]. eexists. split; [done|].
  destruct path_leb_order as (Htot & Htr & _). split.
  - apply unique_sorted, Sorted_StronglySorted; [intros x y z; apply Htr|]. apply Sorted_LocallySorted_iff.
    by apply sort_by_sorted.
  - intros p. by rewrite elem_of_unique, elem_of_sort_by.
Qed.

(** A file has one name in a session where no inode was given for two. *)
Definition one_name_each (l : list Entry) : Prop :=
  ∀ e e', e ∈ l → e' ∈ l → entry_ino e = entry_ino e' → entry_parent e = entry_parent e' ∧ entry_name e = entry_name e'.

Section reports.
Variable root : path.

Lemma entry_not_root s e : session_ok root s → e ∈ entries s → entry_ino e ≠ FUSE_ROOT_ID.
Proof. intros [Ht Hl _ _] He. apply (entries_listed _ _ _ Hl), (ids_below _ _ Ht) in He. lia. Qed.

Lemma entry_inode s e :
  session_ok root s → m_failed (tracer s) = false → e ∈ entries s →
  ∃ n, m_inodes (tracer s) !! entry_ino e = Some n ∧ (dev n, ino n) = entry_id e.
Proof.
  intros Hs Hf He. pose proof (entry_not_root s e Hs He) as Hne. destruct Hs as [Ht Hl _ _].
  apply (entries_listed _ _ _ Hl) in He. destruct (ids_there _ _ Ht _ _ Hf He) as [n Hn]. exists n. split; [done|].
  eapply (ids_one _ _ Ht); [|done]. by apply (inodes_listed _ _ Ht).
Qed.

Lemma entries_apart s e e' :
  session_ok root s → e ∈ entries s → e' ∈ entries s → (entry_ino e = entry_ino e' ↔ entry_id e = entry_id e').
Proof.
  intros [Ht Hl _ _] He%(entries_listed _ _ _ Hl) He'%(entries_listed _ _ _ Hl). split; [|congruence].
  intros E. rewrite E in He. by eapply (ids_one _ _ Ht).
Qed.

Lemma opens_are_ok s : session_ok root s → Forall (open_ok (entries s)) (opened s).
Proof.
  intros Hs. eapply Forall_impl; [apply (session_opens _ _ Hs)|]. intros o (w & st & Hw & Hn & Hf & Hst & Hi).
  exists w, st. split_and!; [done..|]. intros e He E. pose proof (entry_not_root s e Hs He) as Hne.
  destruct Hs as [Ht Hl _ _]. apply (entries_listed _ _ _ Hl) in He. rewrite E in He, Hne. by apply (ids_one _ _ Ht) with (opened_ino o); [|apply Hi].
Qed.

Lemma ways_reached l i w : ways l !! i = Some w → reached l i w.
Proof.
  revert i. induction w as [|c w IH] using rev_ind; intros i [[-> E]|(e & wp & He & <- & Hp & E)]%ways_from.
  - constructor.
  - by destruct wp.
  - by destruct w.
  - apply app_inj_tail in E as [-> ->]. constructor; [done|by apply IH].
Qed.

Lemma session_reports s :
  session_ok root s → m_failed (tracer s) = false →
  ∃ l, take_inputs (tracer s) = Value l ∧ StronglySorted (λ p q, path_leb p q = true ∧ p ≠ q) l ∧
    (∀ p, p ∈ l ↔ ∃ o, o ∈ opened s ∧ recorded_as root (entries s) p o) ∧
    (one_name_each (entries s) → ∀ p, p ∈ l ↔ ∃ o w, o ∈ opened s ∧ reached (entries s) (opened_ino o) w ∧ p = below root w).
Proof.
  intros Hs Hf. destruct (proj2 (take_inputs_spec (tracer s)) Hf) as (l & Hl & Hsort & Hin).
  pose proof (all_logged _ _ (session_opens _ _ Hs) Hf) as Hall.
  assert (∀ p, p ∈ l ↔ ∃ o, o ∈ opened s ∧ recorded_as root (entries s) p o) as Hrec.
  { intros p. rewrite Hin. split.
    - intros [k Hp]%list_elem_of_lookup_1. destruct (Forall2_lookup_l _ _ _ _ _ Hall Hp) as (o & Ho & Hr).
      exists o. split; [by eapply list_elem_of_lookup_2|done].
    - intros (o & [k Ho]%list_elem_of_lookup_1 & w & Hw & ->).
      destruct (Forall2_lookup_r _ _ _ _ _ Hall Ho) as (p & Hp & w' & Hw' & ->).
      rewrite Hw in Hw'. injection Hw' as <-. by eapply list_elem_of_lookup_2. }
  exists l. split_and!; [done..|]. intros Hone p. rewrite Hrec. split.
  - intros (o & Ho & w & Hw & ->). exists o, w. split_and!; [done|by apply ways_reached|done].
  - intros (o & w & Ho & Hr & ->). exists o. split; [done|].
    pose proof (opens_are_ok s Hs) as Hok. rewrite Forall_forall in Hok. destruct (Hok o Ho) as (v & _ & Hv & _).
    rewrite (reached_one_way (entries s) (opened_ino o) w v); [by exists v|done| |done|done].
    intros e. by apply entry_not_root.
Qed.
End reports.
