(* ===== verification/ReadTracerSpec.v ===== *)
(** * What the tracer of reads promises

    Through any run of requests, while the files are changed at will: every
    file opened is reported under a path that named it then; what is open is
    the tracer's to close; listings give each entry once. And where a file has
    two names, or is renamed, what is reported is not what was opened by. *)

From S2P Require Export ReadTracerFacts.

Section spec.
Variable direntry_size : str → nat.

(** C20. [Tracer] and [take_inputs], whatever is done to the files meanwhile: what
    is reported of a run is, in order and once each, the paths of the files it
    opened, each by the names under which the kernel first reached the inode it
    opened; and that inode was of the file opened, which those names named then
    and which still had the identity the inode was given with. Where no inode
    was given for two names those are the paths the files were opened by; a
    file reached by two, as one with hard links, is reported under the first.
    Where a request could not be handled it is an error instead. *)
Theorem opens_are_reported (root : path) (st : Stat) (rs : list (Answers * request * bool)) (s : Session) :
  Forall is_name (names root) → session_run direntry_size rs (new_session root st) = Some s →
  Forall (open_ok (entries s)) (opened s) ∧
  if m_failed (tracer s) then take_inputs (tracer s) = Unexpected (make_error_code io_error)
  else ∃ inputs, take_inputs (tracer s) = Value inputs ∧
    StronglySorted (λ p q, path_leb p q = true ∧ p ≠ q) inputs ∧
    (∀ p, p ∈ inputs ↔ ∃ o, o ∈ opened s ∧ recorded_as root (entries s) p o) ∧
    (one_name_each (entries s) →
       ∀ p, p ∈ inputs ↔ ∃ o w, o ∈ opened s ∧ reached (entries s) (opened_ino o) w ∧ p = below root w).
Proof.
  intros Hroot H. pose proof (session_run_ok direntry_size root Hroot rs _ s (new_session_ok root Hroot st) H) as Hs.
  split; [by apply (opens_are_ok root)|]. destruct (m_failed (tracer s)) eqn:Ef; [by apply take_inputs_spec|].
  by apply session_reports.
Qed.

(** C22. [Tracer]'s tables and handles, unless a request could not be handled: a
    handle the kernel has is that of a file that was opened, which had the
    identity its inode was given with, or of a listing; each inode a lookup was
    answered with is the tracer's, of the identity in the answer, and two
    answers gave the same inode exactly if they gave the same identity; and
    once the session is over nothing stays open. *)
Theorem tracer_lets_go_of_all (root : path) (st : Stat) (rs : list (Answers * request * bool)) (s : Session) :
  Forall is_name (names root) → session_run direntry_size rs (new_session root st) = Some s →
  m_failed (tracer s) = false →
  (∀ fh, fh ∈ held_files s → ∃ o, o ∈ opened s ∧ opened_handle o = fh ∧
     descriptors (tracer s) !! fh = Some (opened_file o) ∧ open_ok (entries s) o) ∧
  (∀ fh, fh ∈ held_dirs s → is_Some (streams (tracer s) !! fh)) ∧
  (∀ e, e ∈ entries s → ∃ n, m_inodes (tracer s) !! entry_ino e = Some n ∧ (dev n, ino n) = entry_id e) ∧
  (∀ e e', e ∈ entries s → e' ∈ entries s → (entry_ino e = entry_ino e' ↔ entry_id e = entry_id e')) ∧
  descriptors (destroy_tracer (tracer s)) = ∅ ∧ streams (destroy_tracer (tracer s)) = ∅.
Proof.
  intros Hroot H Hf. pose proof (session_run_ok direntry_size root Hroot rs _ s (new_session_ok root Hroot st) H) as Hs.
  pose proof (opens_are_ok root s Hs) as Hok. rewrite Forall_forall in Hok. pose proof Hs as [Ht _ Hh Ho].
  destruct (held_open _ Hh) as [Hheld1 Hheld2]. destruct (none_lost _ Hh Hf) as [Hl1 Hl2]. split_and!.
  - intros fh Hfh%Hheld1. destruct (files_open _ Hh fh Hfh) as [f Hd].
    destruct (handle_logged _ _ Ho fh f Hfh Hd) as (o & Hin & E1 & E2). exists o. rewrite E2. split_and!; auto.
  - intros fh Hfh%Hheld2. by apply (dirs_open _ Hh).
  - intros e. by apply (entry_inode root).
  - intros e e'. by apply (entries_apart root).
  - apply map_empty_filter_2. intros fh f Hfd. simpl. intros Hn. apply Hn, Hl1. by exists f.
  - apply map_empty_filter_2. intros fh f Hfd. simpl. intros Hn. apply Hn, Hl2. by exists f.
Qed.

(** ** Listings *)

(** A directory that is not being changed: [entries], each cookie the number of
    entries before what follows it. *)
Definition lists (sys : Answers) (f : nat) (entries : list (str * Z * Z)) : Prop :=
  ∀ pos, ans_readdir sys f pos =
    match entries !! pos with Some (name, i, type) => AnEntry name i type (S pos) | None => NoEntry end.

Definition with_cookie (pos : nat) (e : str * Z * Z) : str * Z * Z * nat := (e.1.1, e.1.2, e.2, S pos).

Lemma fill_listing_spec sys f entries fuel size pos used got :
  lists sys f entries → (∀ name, 0 < direntry_size name) → used ≤ size → size - used < fuel →
  ∃ k, fill_listing sys direntry_size fuel f size pos used got =
      Value (rev got ++ imap (λ j e, with_cookie (pos + j) e) (take k (skipn pos entries))) ∧
    (used = 0 → pos < length entries → (∀ name, direntry_size name ≤ size) → 0 < k) ∧
    pos + k ≤ length entries `max` pos.
Proof.
  intros Hl Hpos. revert pos used got. induction fuel as [|fuel IH]; intros pos used got Hu Hf; [lia|]. simpl.
  rewrite Hl. destruct (entries !! pos) as [[[name i] type]|] eqn:E.
  - apply lookup_lt_Some in E as Hlt. case_bool_decide as Hneed.
    + exists 0. simpl. rewrite app_nil_r. split; [done|]. split; [|lia]. intros -> _ Hfit. specialize (Hfit name). lia.
    + pose proof (Hpos name).
      destruct (IH (S pos) (used + direntry_size name) ((name, i, type, S pos) :: got)) as (k & -> & _ & Hk); [lia..|].
      exists (S k). split; [|split; [lia|lia]]. f_equal. simpl. rewrite <- app_assoc. f_equal.
      rewrite (drop_S _ _ _ E). simpl. f_equal; [by rewrite Nat.add_0_r|].
      apply imap_ext. intros j x _. simpl. by rewrite Nat.add_succ_r.
  - exists 0. simpl. rewrite app_nil_r. apply lookup_ge_None in E. split; [done|]. split; lia.
Qed.
(** The kernel's listing of a directory: batch after batch, each from the offset
    of the last entry it was given, until there are none. *)
Fixpoint batches (sys : Answers) (i size fh : nat) (t : Tracer) (fuel off : nat) : option (list (str * Z * Z * nat)) :=
  match fuel with
  | 0 => None
  | S fuel' =>
      match serve_request sys direntry_size (ReadDir i size off fh) t with
      | (ReplyListing entries, t') =>
          match last entries with
          | None => Some []
          | Some (_, _, _, next) => rest ← batches sys i size fh t' fuel' next; Some (entries ++ rest)
          end
      | _ => None
      end
  end.

Lemma batches_spec sys i size fh f t entries fuel off :
  streams t !! fh = Some f → ans_memory sys 0 = true → lists sys f entries →
  (∀ name, 0 < direntry_size name ≤ size) → off ≤ length entries → length entries - off < fuel →
  batches sys i size fh t fuel off = Some (imap (λ j e, with_cookie (off + j) e) (skipn off entries)).
Proof.
  intros Hf Hm Hl Hsize. revert off. induction fuel as [|fuel IH]; intros off Hoff Hfuel; [lia|].
  assert (∀ name, 0 < direntry_size name) as Hpos by (intros name; by destruct (Hsize name)).
  destruct (fill_listing_spec sys f entries (S size) size off 0 [] Hl Hpos) as (k & Hk & Hsome & Hle); [lia..|].
  cbn [batches]. unfold serve_request. cbn [handle_request]. unfold readdir_request, allocates. rewrite Hm, Hf, Hk.
  cbn [rev app]. destruct (decide (off = length entries)) as [->|Hne].
  { rewrite drop_ge by lia. rewrite take_nil. done. }
  destruct k as [|k]; [exfalso; apply (Nat.lt_irrefl 0), Hsome; [done|lia|intros name; by apply Hsize]|].
  assert (skipn off entries = take (S k) (skipn off entries) ++ skipn (off + S k) entries) as E.
  { by rewrite <- drop_drop, take_drop. }
  assert (length (take (S k) (skipn off entries)) = S k) as Hlen by (rewrite length_take, length_drop; lia).
  set (batch := take (S k) (skipn off entries)) in *.
  rewrite E. clear E.
  destruct (lookup_lt_is_Some_2 batch k) as [e He]; [lia|].
  rewrite last_lookup, length_imap, Hlen, list_lookup_imap. cbn [Nat.pred]. rewrite He. cbn [fmap option_fmap option_map with_cookie].
  replace (S (off + k)) with (off + S k) by lia. rewrite IH by lia. cbn [mbind option_bind]. f_equal. rewrite imap_app, Hlen.
  f_equal. apply imap_ext. intros j x _. simpl. unfold with_cookie. do 2 f_equal. lia.
Qed.

(** [Tracer::readdir]: of a directory that is not changed meanwhile, batches of
    whatever size list every entry once, in order, and no batch but the last is
    empty. *)
Theorem listing_is_whole (sys : Answers) (i size fh f : nat) (t : Tracer) (entries : list (str * Z * Z)) :
  streams t !! fh = Some f → ans_memory sys 0 = true → lists sys f entries →
  (∀ name, 0 < direntry_size name ≤ size) →
  batches sys i size fh t (S (length entries)) 0 = Some (imap with_cookie entries).
Proof. intros Hf Hm Hl Hs. rewrite (batches_spec sys i size fh f t entries) by (try done; lia). by rewrite drop_0. Qed.
End spec.

(** ** A session *)

Module Session.
(** The root, a file [a] and a directory [d] with a file [b]; [again] is another
    name of [a]. *)
Definition files : list (path * nat * Stat) := [
  (of_string dot, 0, {| st_dev := 1; st_ino := 10; st_mode := 0 |});
  (of_string (lit "a"), 1, {| st_dev := 1; st_ino := 11; st_mode := 0 |});
  (of_string (lit "d"), 2, {| st_dev := 1; st_ino := 12; st_mode := 0 |});
  (of_string (lit "d") // of_string (lit "b"), 3, {| st_dev := 1; st_ino := 13; st_mode := 0 |});
  (of_string (lit "again"), 1, {| st_dev := 1; st_ino := 11; st_mode := 0 |})].

Definition ENOENT : Z := 2.

Definition says (fs : list (path * nat * Stat)) (number : nat) : Answers := {|
  ans_openat2 p _ :=
    match list_find (λ e, e.1.1 = p) fs with Some (_, e) => Value e.1.2 | None => Unexpected ENOENT end;
  ans_fstat f :=
    match list_find (λ e, e.1.2 = f) fs with Some (_, e) => Value e.2 | None => Unexpected ENOENT end;
  ans_fdopendir _ := None;
  ans_pread _ _ _ := Value [];
  ans_readdir f pos :=
    match f, pos with
    | 0, 0 => AnEntry (lit "a") 11 0 1
    | 0, 1 => AnEntry (lit "d") 12 0 2
    | _, _ => NoEntry
    end;
  ans_readlinkat _ _ := Unexpected ENOENT;
  ans_number := number;
  ans_memory _ := true |}.

Definition root : path := of_string (lit "r").
Lemma root_named : Forall is_name (names root).
Proof. apply (bool_decide_eq_true_1 _). vm_compute. reflexivity. Qed.
Definition root_stat : Stat := {| st_dev := 1; st_ino := 10; st_mode := 0 |}.
Definition direntry_size (_ : str) : nat := 32.
Definition on (fs : list (path * nat * Stat)) (number : nat) (r : request) : Answers * request * bool :=
  (says fs number, r, true).
Definition end_of (rs : list (Answers * request * bool)) : option Session :=
  session_run direntry_size rs (new_session root root_stat).
Definition reported (rs : list (Answers * request * bool)) : option (expected error_code (list path)) :=
  s' ← end_of rs; Some (take_inputs (tracer s')).

(** [d/b] and [a] are read, [a] twice, and the root is listed; the kernel lets go
    of one of the three files. *)
Definition a_session : list (Answers * request * bool) := [
  on files 5 (Lookup 1 (lit "d")); on files 5 (Lookup 2 (lit "b")); on files 5 (Open 3 0);
  on files 6 (Lookup 1 (lit "a")); on files 6 (Open 4 0); on files 7 (Open 4 0); on files 9 (OpenDir 1);
  on files 9 (Release 4 7); on files 9 (Read 4 10 0 6)].

(** [a] is looked at, and [again], the same file, is read. *)
Definition two_names : list (Answers * request * bool) := [
  on files 5 (Lookup 1 (lit "a")); on files 5 (Lookup 1 (lit "again")); on files 5 (Open 2 0)].

(** [a] is looked at, is renamed to [again], and that is read. *)
Definition renamed : list (path * nat * Stat) := filter (λ e, e.1.1 ≠ of_string (lit "a")) files.
Definition a_rename : list (Answers * request * bool) := [
  on files 5 (Lookup 1 (lit "a")); on renamed 5 (Lookup 1 (lit "again")); on renamed 5 (Open 2 0)].
Definition reply_to_last (rs : list (Answers * request * bool)) : option reply :=
  s' ← end_of (removelast rs);
  match last rs with
  | Some (sys, r, _) => Some (serve_request sys direntry_size r (tracer s')).1
  | None => None
  end.
End Session.

Lemma opens_are_reported_witness :
  ∃ s, Session.end_of Session.a_session = Some s ∧ m_failed (tracer s) = false ∧
    take_inputs (tracer s) = Value [Session.root // of_string (lit "a");
                                    Session.root // (of_string (lit "d") // of_string (lit "b"))] ∧
    Forall (open_ok (entries s)) (opened s).
Proof.
  eexists. split; [vm_compute; reflexivity|]. split; [reflexivity|]. split; [vm_compute; reflexivity|].
  apply (opens_are_reported Session.direntry_size Session.root Session.root_stat Session.a_session).
  - apply Session.root_named.
  - vm_compute. reflexivity.
Defined.

Lemma tracer_lets_go_of_all_witness :
  ∃ s, Session.end_of Session.a_session = Some s ∧ m_open_files (tracer s) = {[ 5; 6 ]} ∧
    descriptors (destroy_tracer (tracer s)) = ∅ ∧ streams (destroy_tracer (tracer s)) = ∅.
Proof.
  eexists. split; [vm_compute; reflexivity|]. split; [vm_compute; reflexivity|].
  apply (tracer_lets_go_of_all Session.direntry_size Session.root Session.root_stat Session.a_session).
  - apply Session.root_named.
  - vm_compute. reflexivity.
  - reflexivity.
Defined.

Lemma listing_is_whole_witness :
  batches Session.direntry_size (Session.says Session.files 5) 1 40 9
    (set_streams {[ 9 ]} {[ 9 := 0 ]} (new_tracer Session.root Session.root_stat)) 3 0 =
  Some (imap with_cookie [(lit "a", 11%Z, 0%Z); (lit "d", 12%Z, 0%Z)]).
Proof.
  apply (listing_is_whole Session.direntry_size (Session.says Session.files 5) 1 40 9 0 _
    [(lit "a", 11%Z, 0%Z); (lit "d", 12%Z, 0%Z)]); [done|done|..].
  - intros [|[|pos]]; done.
  - intros name. unfold Session.direntry_size. lia.
Defined.

(** A file with two names is reported under the one it was looked up by first,
    also where it was opened by the other. *)
Example second_name_is_not_reported :
  Session.reported Session.two_names = Some (Value [Session.root // of_string (lit "a")]).
Proof. vm_compute. reflexivity. Qed.

(** A file that is renamed after it was looked up cannot be opened by its new
    name, which is answered with the inode of the old one. *)
Example renamed_file_cannot_be_opened :
  Session.reply_to_last Session.a_rename = Some (ReplyError Session.ENOENT).
Proof. vm_compute. reflexivity. Qed.
