(* ===== verification/ProcessUtil.v ===== *)
(** * Running a command (src/processutil-linux.cpp)

    [run_traced] and what it is made of, as steps that interleave: the coroutine
    that sets the run up and takes it down, [supervise] collecting the command's
    output, [TracingSession] serving its requests, the callbacks that kill it,
    and the command itself, which goes on, writes, asks and exits as it likes. *)

From S2P Require Export ReadTracerFacts.

(** ** Wait statuses *)

Definition WTERMSIG (status : Z) : Z := Z.land status 127.
Definition WIFEXITED (status : Z) : bool := bool_decide (WTERMSIG status = 0)%Z.
Definition WEXITSTATUS (status : Z) : Z := Z.land (Z.shiftr status 8) 255.
Definition WIFSIGNALED (status : Z) : bool := bool_decide (0 < WTERMSIG status < 127)%Z.

Definition shell_status (status : Z) : Z :=
  if WIFEXITED status then WEXITSTATUS status
  else if WIFSIGNALED status then 128 + WTERMSIG status
  else 0.

(** What the parent of a process that calls [_exit] is told. *)
Definition exited_with (code : Z) : Z := Z.shiftl (Z.land code 255) 8.

(** What [waitpid] gives. *)
Inductive waited := WaitGives (pid : nat) (status : Z) | WaitFails (errno : Z).

Definition EINTR : Z := 4.
Definition SETUP_FAILED : Z := 125.
Definition EXEC_FAILED : Z := 127.

(** [run_as_init]: [shell] the child [clone_process] made, [waits] what
    [waitpid] gives in turn. The status it exits with; [None] as long as it
    waits. *)
Fixpoint reap_until (shell : nat) (waits : list waited) : option Z :=
  match waits with
  | [] => None
  | WaitGives pid status :: waits' =>
      if bool_decide (pid = shell) then Some (shell_status status) else reap_until shell waits'
  | WaitFails e :: waits' => if bool_decide (e ≠ EINTR) then Some SETUP_FAILED else reap_until shell waits'
  end.

Definition run_as_init (shell : option nat) (waits : list waited) : option Z :=
  match shell with None => Some SETUP_FAILED | Some pid => reap_until pid waits end.

(** ** Setting up, in the child *)

(** The steps that can fail, in order: those of [prepare_child_io], then those
    of [run_traced_child]. *)
Inductive setup_step :=
  | DupOutput | OpenNull | DupInput
  | DenySetgroups | WriteUidMap | WriteGidMap | MountPrivate | MountProc
  | OpenFuse | MountFuse.
Definition prepare_child_io : list setup_step := [DupOutput; OpenNull; DupInput].
Definition setup_steps : list setup_step :=
  prepare_child_io ++ [DenySetgroups; WriteUidMap; WriteGidMap; MountPrivate; MountProc; OpenFuse; MountFuse].

Record Handoff := { ok : bool; error : Z }.

(** [run_traced_child] up to the handoff; [fails] the errno of a step that
    fails. *)
Definition run_traced_child (forced_error : Z) (fails : setup_step → option Z) : Handoff :=
  if bool_decide (forced_error ≠ 0)%Z then {| ok := false; error := forced_error |}
  else
    match head (omap fails setup_steps) with
    | Some e => {| ok := false; error := e |}
    | None => {| ok := true; error := 0 |}
    end.

(** [recv_result]: [message] what arrived whole, and whether a descriptor came
    with it. *)
Definition recv_result (message : option (Handoff * bool)) : expected error_code unit :=
  match message with
  | None => Unexpected (make_error_code protocol_error)
  | Some (payload, with_fd) =>
      if negb (ok payload) then Unexpected (system_error (error payload))
      else if with_fd then Value tt
      else Unexpected (make_error_code protocol_error)
  end.

(** [TracingSession::open]: the errno of opening the root, whether
    [fuse_session_new] made a session, and what [fuse_session_custom_io] gave. *)
Definition open_session (root_fd : option Z) (made : bool) (failed : Z) : expected error_code unit :=
  match root_fd with
  | Some n => Unexpected (system_error n)
  | None =>
      if negb made then Unexpected (make_error_code io_error)
      else if bool_decide (failed ≠ 0)%Z then Unexpected (system_error (if (failed <? 0)%Z then - failed else EIO))
      else Value tt
  end.

(** [TracingSetup::attach]. *)
Definition attach (message : option (Handoff * bool)) (opens : option Z * bool * Z) : expected error_code unit :=
  _ ← recv_result message; open_session opens.1.1 opens.1.2 opens.2.

(** ** Failures forced by tests (src/processutil-common.cpp) *)

Inductive Failure :=
  | tracing_setup | tracing_service | trace_log | trace_hook_install | trace_hook_absent
  | trace_hook_absent_in_children.
#[global] Instance Failure_eq_dec : EqDecision Failure.
Proof. solve_decision. Defined.

Definition take_forced_failure (failure : Failure) (g_forced : option (Failure * error_code))
    : option error_code * option (Failure * error_code) :=
  match g_forced with
  | Some (f, e) => if bool_decide (f = failure) then (Some e, None) else (None, g_forced)
  | None => (None, g_forced)
  end.
Definition fail_next (failure : Failure) (e : error_code) : option (Failure * error_code) := Some (failure, e).
Definition reset : option (Failure * error_code) := None.

(** [std::error_code::value], and whether a code says there is an error. *)
Definition value (e : error_code) : Z :=
  match e with
  | no_error => 0
  | errc_code c => errno_of c
  | exit_status_error status => status
  | build_error_code out_not_written => 1
  | build_error_code copy_source_unreadable => 2
  | system_error c => c
  end.
Definition is_error (e : error_code) : bool := bool_decide (value e ≠ 0)%Z.

(** ** The state of a run *)

(** The child: its namespaces being set up, waiting with the device handed over,
    done for as setup failed, running the command, gone, and reaped. *)
Inductive Child :=
  | Unborn | SettingUp | HandedOver | SetupFailed | Commanding | Zombie (status : Z) | Reaped (status : Z).

(** What the run does that others see, in order. *)
Inductive effect :=
  | Cloned | Attached | Added (token : nat) | Released | Began | Signalled | Waited | Dropped | Removed (token : nat)
  | ReadLost | Faulted (e : error_code).
#[global] Instance effect_eq_dec : EqDecision effect.
Proof. solve_decision. Defined.

(** [handed]: what the child sent over the socket. [pipe] is what was written to
    its standard output, [written], and is yet to be read. *)
Record World := {
  child : Child;
  handed : option Handoff;
  acked : bool;
  pipe : str;
  written : str;
  log : list effect;
}.

(** A stop source and the one callback on it. *)
Record Source := { requested : bool; registered : bool; executing : bool }.
Definition new_source : Source := {| requested := false; registered := false; executing := false |}.

Record Supervision := { output : str; sup_error : error_code; canceled : bool; exit_status : Z }.
Definition no_supervision : Supervision := {| output := []; sup_error := no_error; canceled := false; exit_status := 0 |}.

(** Where [supervise], in [supervise_then_end], is. *)
Inductive SupAt :=
  | SupOff | SupBegins | SupWatchesStop | SupWatchesAbort | SupWaits | SupDrains | SupLeaves
  | SupUnwatchesAbort | SupUnwatchesStop | SupReaps | SupDrainsRest | SupResults
  | SupUnwindsAbort | SupUnwindsStop | SupEnds | SupDone.

Record Supervising := {
  at_sup : SupAt;
  collected : str;
  open : bool;
  wait_error : error_code;
  supervision : Supervision;
}.

(** Where [serve], in [serve_or_abort], is. *)
Inductive SrvAt := SrvOff | SrvWaits | SrvProcesses | SrvFails (e : error_code) | SrvAborts | SrvDone.

(** [asked] requests are waiting in the device. *)
Record Serving := {
  at_srv : SrvAt;
  session : Session;
  m_exited : bool;
  asked : nat;
  m_forced_error : option error_code;
  tracing_failure : error_code;
}.

Record Output := { standard_output : str; inputs : list path; out_exit_status : Z }.
Definition Result : Type := expected error_code Output.

(** Where [run_traced] is; [None], where it takes down what it made, is an
    exception. *)
Inductive MainAt :=
  | MainStarts | MainPrepares | MainClones | MainAttaches | MainAdds | MainReleases | MainJoins
  | MainTerminates (r : Result) | MainReaps (r : Result)
  | MainEndsSession (r : option Result) | MainEndsChild (r : option Result) | MainEndsReap (r : option Result)
  | MainUntracks (r : option Result) | MainDone (r : option Result) | MainDied.

Record Run := {
  at_main : MainAt;
  added_as : option nat;
  stop : Source;
  abort : Source;
  stop_serving : bool;
  g_forced : option (Failure * error_code);
  forced_setup_error : Z;
  world : World;
  sup : Supervising;
  srv : Serving;
}.

(** *** Changing one part of it *)

Definition with_main m r := {|
  at_main := m; added_as := added_as r; stop := stop r; abort := abort r; stop_serving := stop_serving r;
  g_forced := g_forced r; forced_setup_error := forced_setup_error r; world := world r; sup := sup r; srv := srv r |}.
Definition with_added t r := {|
  at_main := at_main r; added_as := t; stop := stop r; abort := abort r; stop_serving := stop_serving r;
  g_forced := g_forced r; forced_setup_error := forced_setup_error r; world := world r; sup := sup r; srv := srv r |}.
Definition with_stop s r := {|
  at_main := at_main r; added_as := added_as r; stop := s; abort := abort r; stop_serving := stop_serving r;
  g_forced := g_forced r; forced_setup_error := forced_setup_error r; world := world r; sup := sup r; srv := srv r |}.
Definition with_abort s r := {|
  at_main := at_main r; added_as := added_as r; stop := stop r; abort := s; stop_serving := stop_serving r;
  g_forced := g_forced r; forced_setup_error := forced_setup_error r; world := world r; sup := sup r; srv := srv r |}.
Definition with_stop_serving b r := {|
  at_main := at_main r; added_as := added_as r; stop := stop r; abort := abort r; stop_serving := b;
  g_forced := g_forced r; forced_setup_error := forced_setup_error r; world := world r; sup := sup r; srv := srv r |}.
Definition with_forced g e r := {|
  at_main := at_main r; added_as := added_as r; stop := stop r; abort := abort r; stop_serving := stop_serving r;
  g_forced := g; forced_setup_error := e; world := world r; sup := sup r; srv := srv r |}.
Definition with_world w r := {|
  at_main := at_main r; added_as := added_as r; stop := stop r; abort := abort r; stop_serving := stop_serving r;
  g_forced := g_forced r; forced_setup_error := forced_setup_error r; world := w; sup := sup r; srv := srv r |}.
Definition with_sup s r := {|
  at_main := at_main r; added_as := added_as r; stop := stop r; abort := abort r; stop_serving := stop_serving r;
  g_forced := g_forced r; forced_setup_error := forced_setup_error r; world := world r; sup := s; srv := srv r |}.
Definition with_srv s r := {|
  at_main := at_main r; added_as := added_as r; stop := stop r; abort := abort r; stop_serving := stop_serving r;
  g_forced := g_forced r; forced_setup_error := forced_setup_error r; world := world r; sup := sup r; srv := s |}.

Definition with_child c w := {|
  child := c; handed := handed w; acked := acked w; pipe := pipe w; written := written w; log := log w |}.
Definition with_handed h w := {|
  child := child w; handed := h; acked := acked w; pipe := pipe w; written := written w; log := log w |}.
Definition with_acked w := {|
  child := child w; handed := handed w; acked := true; pipe := pipe w; written := written w; log := log w |}.
Definition with_pipe p wr w := {|
  child := child w; handed := handed w; acked := acked w; pipe := p; written := wr; log := log w |}.
Definition logs (e : effect) (r : Run) : Run :=
  let w := world r in
  with_world {| child := child w; handed := handed w; acked := acked w; pipe := pipe w; written := written w;
                log := log w ++ [e] |} r.
Definition set_child (c : Child) (r : Run) : Run := with_world (with_child c (world r)) r.
Definition child_of (r : Run) : Child := child (world r).

Definition sup_to a (s : Supervising) := {|
  at_sup := a; collected := collected s; open := open s; wait_error := wait_error s; supervision := supervision s |}.
Definition with_collected c o (s : Supervising) := {|
  at_sup := at_sup s; collected := c; open := o; wait_error := wait_error s; supervision := supervision s |}.
Definition with_wait_error e (s : Supervising) := {|
  at_sup := at_sup s; collected := collected s; open := open s; wait_error := e; supervision := supervision s |}.
Definition with_supervision x (s : Supervising) := {|
  at_sup := at_sup s; collected := collected s; open := open s; wait_error := wait_error s; supervision := x |}.
Definition sup_at a (r : Run) : Run := with_sup (sup_to a (sup r)) r.

Definition srv_to a (s : Serving) := {|
  at_srv := a; session := session s; m_exited := m_exited s; asked := asked s;
  m_forced_error := m_forced_error s; tracing_failure := tracing_failure s |}.
Definition with_session x (s : Serving) := {|
  at_srv := at_srv s; session := x; m_exited := m_exited s; asked := asked s;
  m_forced_error := m_forced_error s; tracing_failure := tracing_failure s |}.
Definition with_exited (s : Serving) := {|
  at_srv := at_srv s; session := session s; m_exited := true; asked := asked s;
  m_forced_error := m_forced_error s; tracing_failure := tracing_failure s |}.
Definition with_asked n (s : Serving) := {|
  at_srv := at_srv s; session := session s; m_exited := m_exited s; asked := n;
  m_forced_error := m_forced_error s; tracing_failure := tracing_failure s |}.
Definition with_forced_error e (s : Serving) := {|
  at_srv := at_srv s; session := session s; m_exited := m_exited s; asked := asked s;
  m_forced_error := e; tracing_failure := tracing_failure s |}.
Definition with_failure e (s : Serving) := {|
  at_srv := at_srv s; session := session s; m_exited := m_exited s; asked := asked s;
  m_forced_error := m_forced_error s; tracing_failure := e |}.
Definition srv_at a (r : Run) : Run := with_srv (srv_to a (srv r)) r.

(** ** What the steps are made of *)

(** [gone]: it has exited, and whatever it started has too; nobody writes to the
    pipe or asks any more. *)
Definition gone (c : Child) : bool := match c with Zombie _ | Reaped _ => true | _ => false end.
Definition alive (c : Child) : bool :=
  match c with SettingUp | HandedOver | SetupFailed | Commanding => true | _ => false end.

(** [ChildProcess::signal]. *)
Definition signal (r : Run) : Run := logs Signalled r.

(** [ChildProcess::reap]: [waitpid] waits for a child that has yet to exit. *)
Definition reap (r : Run) : option Run :=
  match child_of r with
  | Zombie status => Some (logs Waited (set_child (Reaped status) r))
  | _ => None
  end.
Definition m_reaped (r : Run) : bool := match child_of r with Reaped _ => true | _ => false end.
Definition exit_status_of (r : Run) : Z := match child_of r with Reaped status => shell_status status | _ => 0 end.

(** A stop callback is called by whoever requests the stop, or at once by
    whoever installs it where that was done already; removing it waits out one
    that is being called. *)
Definition request_stop (s : Source) : Source :=
  {| requested := true; registered := false; executing := executing s || registered s |}.
Definition install (s : Source) : Source :=
  {| requested := requested s; registered := negb (requested s); executing := executing s |}.
Definition uninstall (s : Source) : option Source :=
  if executing s then None else Some {| requested := requested s; registered := false; executing := false |}.
Definition called (s : Source) : option Source :=
  if executing s then Some {| requested := requested s; registered := registered s; executing := false |} else None.
Definition kill_if (b : bool) (r : Run) : Run := if b then signal r else r.

Definition to_result (s : Supervision) (read : list path) : Result :=
  if is_error (sup_error s) then Unexpected (sup_error s)
  else if canceled s then Unexpected (make_error_code operation_canceled)
  else Value {| standard_output := output s; inputs := read; out_exit_status := exit_status s |}.

(** ** [run_traced] *)

(** The outcomes of the calls: the errno of one that fails; for the handoff,
    whether a message arrived whole and with a descriptor, what
    opening the session met, and what the root is; what the tracker said;
    whether the child was there to be released. *)
Inductive main_event :=
  | RunTask (pipe2 : option Z)
  | Prepares (socketpair : option Z)
  | Clones (clone3 : option Z)
  | Attaches (arrived with_fd : bool) (opens : option Z * bool * Z) (st : Stat)
  | Adds (added : expected error_code nat)
  | Releases (delivered : bool)
  | Joins
  | ExitAwaited (wait_failed : bool)
  | ReapsTerminated
  | EndsSession | EndsChild | EndsReap | Untracks
  | MainThrows.

(** An early return while the child is there: [ChildProcess::terminate] first. *)
Definition terminate_with (e : error_code) (r : Run) : Run :=
  with_main (MainTerminates (Unexpected e)) (signal (logs (Faulted e) r)).

Definition fails_with (e : error_code) (k : option Result → MainAt) (r : Run) : Run :=
  with_main (k (Some (Unexpected e))) (logs (Faulted e) r).

(** What the run gives once both coroutines are done. *)
Definition joined (r : Run) : Result :=
  let s := supervision (sup r) in
  if is_error (tracing_failure (srv r)) then Unexpected (tracing_failure (srv r))
  else if is_error (sup_error s) || canceled s then to_result s []
  else read ← take_inputs (tracer (session (srv r))); to_result s read.

Definition run_traced (root : path) (e : main_event) (r : Run) : option Run :=
  match at_main r, e with
  | MainStarts, RunTask pipe2 =>
      if requested (stop r) then Some (with_main (MainDone (Some (Unexpected (make_error_code operation_canceled)))) r)
      else
        match pipe2 with
        | Some n => Some (fails_with (system_error n) MainDone r)
        | None => Some (with_main MainPrepares r)
        end
  | MainPrepares, Prepares socketpair =>
      match socketpair with
      | Some n => Some (fails_with (system_error n) MainDone r)
      | None =>
          let '(forced, g) := take_forced_failure tracing_setup (g_forced r) in
          Some (with_main MainClones (with_forced g (value (default no_error forced)) r))
      end
  | MainClones, Clones clone3 =>
      match clone3 with
      | Some n => Some (fails_with (system_error n) MainUntracks r)
      | None => Some (with_main MainAttaches (logs Cloned (set_child SettingUp r)))
      end
  | MainAttaches, Attaches arrived with_fd opens st =>
      let message :=
        match handed (world r), arrived with Some h, true => Some (h, with_fd) | _, _ => None end in
      if bool_decide (handed (world r) = None) && negb (gone (child_of r)) then None
      else
        match attach message opens with
        | Unexpected err => Some (terminate_with err r)
        | Value _ =>
            let '(forced, g) := take_forced_failure tracing_service (g_forced r) in
            let r := with_forced g (forced_setup_error r) r in
            let s := srv r in
            Some (with_main MainAdds (logs Attached
              (with_srv (with_forced_error forced (with_session (new_session root st) s)) r)))
        end
  | MainAdds, Adds added =>
      match added with
      | Unexpected err => Some (terminate_with err r)
      | Value token => Some (with_main MainReleases (logs (Added token) (with_added (Some token) r)))
      end
  | MainReleases, Releases delivered =>
      if delivered then
        Some (with_main MainJoins (sup_at SupBegins (srv_at SrvWaits
          (logs Released (with_world (with_acked (world r)) r)))))
      else if gone (child_of r) then Some (with_main MainDied r)
      else None
  | MainJoins, Joins =>
      match at_sup (sup r), at_srv (srv r) with
      | SupDone, SrvDone => Some (with_main (MainEndsSession (Some (joined r))) r)
      | _, _ => None
      end
  | MainTerminates res, ExitAwaited wait_failed =>
      if gone (child_of r) || wait_failed then Some (with_main (MainReaps res) r) else None
  | MainReaps res, ReapsTerminated => r' ← reap r; Some (with_main (MainEndsSession (Some res)) r')
  | MainEndsSession res, EndsSession =>
      let s := session (srv r) in
      Some (with_main (MainEndsChild res) (logs Dropped (with_srv (with_session {|
        tracer := destroy_tracer (tracer s); held_files := held_files s; held_dirs := held_dirs s;
        entries := entries s; opened := opened s |} (srv r)) r)))
  | MainEndsChild res, EndsChild =>
      if m_reaped r then Some (with_main (MainUntracks res) r)
      else Some (with_main (MainEndsReap res) (signal r))
  | MainEndsReap res, EndsReap => r' ← reap r; Some (with_main (MainUntracks res) r')
  | MainUntracks res, Untracks =>
      match added_as r with
      | Some token => Some (with_main (MainDone res) (logs (Removed token) r))
      | None => Some (with_main (MainDone res) r)
      end
  | MainAttaches, MainThrows => Some (with_main (MainEndsSession None) r)
  | MainAdds, MainThrows => Some (with_main (MainEndsSession None) r)
  | _, _ => None
  end.

(** ** [supervise] and [supervise_then_end] *)

Inductive which := WOutput | WExited | WFailed (e : error_code).

(** What [read] gives of the pipe; [AppendThrows] where what it gave cannot be
    kept. *)
Inductive read_result := ReadBytes (n : nat) | ReadEnd | ReadAgain | ReadInterrupted | ReadFails | AppendThrows (n : nat).

(** [SupWaited w late]: [w] ended the wait; the other failed too, where [late]
    is an error. *)
Inductive sup_event := SupGoes | SupWaited (w : which) (late : error_code) | SupReads (x : read_result) | SupThrows.

Definition k_buffer : nat := 4096.

(** One iteration of the loop of [drain], [next] going on with what it
    returns. *)
Definition drain (x : read_result) (next : bool → Run → Run) (thrown : SupAt) (r : Run) : option Run :=
  let w := world r in
  let took n := with_world (with_pipe (skipn n (pipe w)) (written w) w) r in
  match x with
  | ReadBytes n =>
      if bool_decide (0 < n ≤ k_buffer ∧ n ≤ length (pipe w)) then
        Some (with_sup (with_collected (collected (sup r) ++ take n (pipe w)) (open (sup r)) (sup r)) (took n))
      else None
  | ReadEnd => if bool_decide (pipe w = []) && gone (child w) then Some (next false r) else None
  | ReadAgain => if bool_decide (pipe w = []) then Some (next true r) else None
  | ReadInterrupted => Some r
  | ReadFails => Some (next false (logs ReadLost r))
  | AppendThrows n =>
      if bool_decide (0 < n ≤ k_buffer ∧ n ≤ length (pipe w)) then Some (sup_at thrown (took n)) else None
  end.

Definition set_open (b : bool) (r : Run) : Run := with_sup (with_collected (collected (sup r)) b (sup r)) r.
Definition set_wait_error (e : error_code) (r : Run) : Run :=
  if is_error e then with_sup (with_wait_error e (sup r)) (logs (Faulted e) r) else r.

(** The end of [supervise]'s loop, and of the callbacks after it. *)
Definition supervise (e : sup_event) (r : Run) : option Run :=
  match at_sup (sup r), e with
  | SupBegins, SupGoes => Some (sup_at SupWatchesStop r)
  | SupBegins, SupThrows => Some (sup_at SupUnwindsStop r)
  | SupWatchesStop, SupGoes =>
      Some (sup_at SupWatchesAbort (kill_if (requested (stop r)) (with_stop (install (stop r)) r)))
  | SupWatchesAbort, SupGoes =>
      Some (sup_at SupWaits (kill_if (requested (abort r)) (with_abort (install (abort r)) r)))
  | SupWaits, SupWaited w late =>
      match w with
      | WOutput =>
          if open (sup r) && (negb (bool_decide (pipe (world r) = [])) || gone (child_of r))
          then Some (sup_at SupDrains (set_wait_error late r)) else None
      | WExited => if gone (child_of r) then Some (sup_at SupLeaves (set_wait_error late r)) else None
      | WFailed err => if is_error err then Some (sup_at SupLeaves (set_wait_error err r)) else None
      end
  | SupWaits, SupThrows => Some (sup_at SupUnwindsAbort r)
  | SupDrains, SupReads x => drain x (λ b r, sup_at SupWaits (set_open b r)) SupUnwindsAbort r
  | SupLeaves, SupGoes => Some (sup_at SupUnwatchesAbort (kill_if (is_error (wait_error (sup r))) r))
  | SupUnwatchesAbort, SupGoes => s ← uninstall (abort r); Some (sup_at SupUnwatchesStop (with_abort s r))
  | SupUnwatchesStop, SupGoes => s ← uninstall (stop r); Some (sup_at SupReaps (with_stop s r))
  | SupReaps, SupGoes =>
      r' ← reap r; Some (sup_at (if open (sup r) then SupDrainsRest else SupResults) r')
  | SupDrainsRest, SupReads x => drain x (λ _ r, sup_at SupResults r) SupUnwindsStop r
  | SupResults, SupGoes =>
      let s := sup r in
      Some (with_sup (sup_to SupEnds (with_supervision {|
        output := collected s; sup_error := wait_error s;
        canceled := negb (is_error (wait_error s)) && requested (stop r);
        exit_status := exit_status_of r |} s)) r)
  | SupUnwindsAbort, SupGoes => s ← uninstall (abort r); Some (sup_at SupUnwindsStop (with_abort s r))
  | SupUnwindsStop, SupGoes =>
      s ← uninstall (stop r);
      let err := make_error_code not_enough_memory in
      Some (sup_at SupEnds (with_sup (with_supervision {|
        output := []; sup_error := err; canceled := false; exit_status := 0 |} (sup r))
        (logs (Faulted err) (with_stop s r))))
  | _, _ => None
  end.

Definition supervise_then_end (e : sup_event) (r : Run) : option Run :=
  match at_sup (sup r), e with
  | SupEnds, SupGoes => Some (sup_at SupDone (with_stop_serving true (with_srv (with_exited (srv r)) r)))
  | _, _ => supervise e r
  end.

(** ** [TracingSession::serve] and [serve_or_abort] *)

Inductive received :=
  | RequestReceived (sys : Answers) (q : request) (delivered : bool)
  | NoneNow | ReceiveInterrupted | ReceiveFails (errno : Z) | MountGone.

Inductive srv_event := SrvReady | SrvStopped | SrvWaitFails (e : error_code) | SrvThrows | Receives (x : received) | SrvGoes.

Section serving.
Variable direntry_size : str → nat.

(** One iteration of the loop of [TracingSession::process]. *)
Definition process (x : received) (r : Run) : option Run :=
  let s := srv r in
  match m_forced_error s with
  | Some e => Some (srv_at (SrvFails e) (with_srv (with_forced_error None s) r))
  | None =>
      if m_exited s then Some (srv_at SrvDone r)
      else
        match x with
        | RequestReceived sys q delivered =>
            match asked s with
            | 0 => None
            | S n =>
                s' ← respond direntry_size sys q delivered (session s);
                Some (with_srv (with_session s' (with_asked n s)) r)
            end
        | NoneNow => if bool_decide (asked s = 0) then Some (srv_at SrvWaits r) else None
        | ReceiveInterrupted => Some r
        | ReceiveFails n => if bool_decide (0 < n)%Z then Some (srv_at (SrvFails (system_error n)) r) else None
        | MountGone => if gone (child_of r) then Some (srv_at SrvDone r) else None
        end
  end.

Definition serve_session (e : srv_event) (r : Run) : option Run :=
  match at_srv (srv r), e with
  | SrvWaits, SrvStopped => if stop_serving r then Some (srv_at SrvDone r) else None
  | SrvWaits, SrvReady =>
      if negb (bool_decide (asked (srv r) = 0)) || gone (child_of r) then Some (srv_at SrvProcesses r) else None
  | SrvWaits, SrvWaitFails err => if is_error err then Some (srv_at (SrvFails err) r) else None
  | SrvProcesses, Receives x => process x r
  | _, _ => None
  end.

Definition serve_or_abort (e : srv_event) (r : Run) : option Run :=
  match at_srv (srv r), e with
  | SrvWaits, SrvThrows => Some (srv_at (SrvFails (make_error_code not_enough_memory)) r)
  | SrvFails err, SrvGoes =>
      if is_error err then
        Some (srv_at SrvAborts (with_abort (request_stop (abort r))
          (logs (Faulted err) (with_srv (with_failure err (srv r)) r))))
      else Some (srv_at SrvDone r)
  | SrvAborts, SrvGoes => if executing (abort r) then None else Some (srv_at SrvDone r)
  | _, _ => serve_session e r
  end.
End serving.

(** ** Everything else *)

(** [sent]: whether [send_result]'s message goes out. *)
Inductive env_event :=
  | ChildSetsUp (fails : setup_step → option Z) (sent : bool)
  | ChildAcked
  | ChildWrites (bytes : str)
  | ChildAsks
  | ChildExits (status : Z)
  | StopRequested | StopKills | AbortKills
  | ForcesFailure (g : option (Failure * error_code)).

(** What the command, whoever requests a stop, and the callbacks do. *)
Definition env_step (e : env_event) (r : Run) : option Run :=
  let w := world r in
  match e with
  | ChildSetsUp fails sent =>
      match child w with
      | SettingUp =>
          let h := run_traced_child (forced_setup_error r) fails in
          Some (with_world (with_child (if ok h then HandedOver else SetupFailed) (with_handed (if sent then Some h else None) w)) r)
      | _ => None
      end
  | ChildAcked =>
      match child w with
      | HandedOver => if acked w then Some (logs Began (set_child Commanding r)) else None
      | _ => None
      end
  | ChildWrites bytes =>
      match child w with
      | Commanding => Some (with_world (with_pipe (pipe w ++ bytes) (written w ++ bytes) w) r)
      | _ => None
      end
  | ChildAsks =>
      match child w with
      | Commanding => Some (with_srv (with_asked (S (asked (srv r))) (srv r)) r)
      | _ => None
      end
  | ChildExits status => if alive (child w) then Some (set_child (Zombie status) r) else None
  | StopRequested => Some (with_stop (request_stop (stop r)) r)
  | StopKills => s ← called (stop r); Some (signal (with_stop s r))
  | AbortKills => s ← called (abort r); Some (signal (with_abort s r))
  | ForcesFailure g => Some (with_forced g (forced_setup_error r) r)
  end.

Inductive event := Main (e : main_event) | Sup (e : sup_event) | Srv (e : srv_event) | Env (e : env_event).

Section machine.
Variable direntry_size : str → nat.
Variable root : path.

Definition step (e : event) (r : Run) : option Run :=
  match e with
  | Main e => run_traced root e r
  | Sup e => supervise_then_end e r
  | Srv e => serve_or_abort direntry_size e r
  | Env e => env_step e r
  end.

Fixpoint run (es : list event) (r : Run) : option Run :=
  match es with
  | [] => Some r
  | e :: es' => r' ← step e r; run es' r'
  end.
End machine.

(** A run about to be started, [g] the failure tests have due. *)
Definition new_run (root : path) (g : option (Failure * error_code)) : Run := {|
  at_main := MainStarts; added_as := None; stop := new_source; abort := new_source; stop_serving := false;
  g_forced := g; forced_setup_error := 0;
  world := {| child := Unborn; handed := None; acked := false; pipe := []; written := []; log := [] |};
  sup := {| at_sup := SupOff; collected := []; open := true; wait_error := no_error; supervision := no_supervision |};
  srv := {| at_srv := SrvOff; session := new_session root {| st_dev := 0; st_ino := 0; st_mode := 0 |};
            m_exited := false; asked := 0; m_forced_error := None; tracing_failure := no_error |} |}.
