(* ===== verification/ProcessUtilFacts.v ===== *)
(** * What a run keeps true

    Where its coroutines are relative to each other and to the child, what has
    been told the log, what was collected of the output, and what results are
    of; each kept by every step. *)

From S2P Require Export ProcessUtil.

(** A step, case by case. *)
Ltac step_cases H :=
  unfold step, run_traced, supervise_then_end, supervise, serve_or_abort, serve_session, process, env_step, drain, reap,
    uninstall, called, child_of, m_reaped in H; simpl in H;
  repeat (match type of H with context [match ?x with _ => _ end] => destruct x eqn:?; try discriminate H end; simpl in H);
  repeat match type of H with (?x ≫= _) = Some _ => destruct x eqn:?; simpl in H; [|discriminate H] end;
  try (injection H as <-).

Section facts.
Variable direntry_size : str → nat.
Variable root : path.

(** ** Where everything is *)

Definition born (c : Child) : bool := match c with Unborn => false | _ => true end.
Definition reaped (c : Child) : bool := match c with Reaped _ => true | _ => false end.

Definition child_at (m : MainAt) (a : SupAt) (c : Child) : bool :=
  match m with
  | MainStarts | MainPrepares | MainClones => negb (born c)
  | MainAttaches | MainAdds | MainReleases | MainTerminates _ | MainReaps _ | MainEndsReap _ | MainDied =>
      born c && negb (reaped c)
  | MainJoins =>
      match a with
      | SupOff => false
      | SupDrainsRest | SupResults => reaped c
      | SupUnwindsStop | SupEnds | SupDone => born c
      | _ => born c && negb (reaped c)
      end
  | MainEndsSession _ | MainEndsChild _ => born c
  | MainUntracks _ | MainDone _ => reaped c || negb (born c)
  end.

Definition sup_off (a : SupAt) : bool := match a with SupOff => true | _ => false end.
Definition sup_done (a : SupAt) : bool := match a with SupDone => true | _ => false end.
Definition srv_off (v : SrvAt) : bool := match v with SrvOff => true | _ => false end.
Definition srv_done (v : SrvAt) : bool := match v with SrvDone => true | _ => false end.
Definition both_at (m : MainAt) (a : SupAt) (v : SrvAt) : bool :=
  match m with
  | MainJoins => negb (sup_off a) && negb (srv_off v)
  | MainEndsSession _ | MainEndsChild _ | MainEndsReap _ | MainUntracks _ | MainDone _ =>
      sup_off a && srv_off v || sup_done a && srv_done v
  | _ => sup_off a && srv_off v
  end.

Definition acked_at (m : MainAt) (a : SupAt) (c : Child) (acked : bool) : bool :=
  eqb acked (negb (sup_off a)) &&
  match c with Commanding => acked | _ => true end.

Definition watching_stop (a : SupAt) : bool :=
  match a with
  | SupWatchesAbort | SupWaits | SupDrains | SupLeaves | SupUnwatchesAbort | SupUnwatchesStop
  | SupUnwindsAbort | SupUnwindsStop => true
  | _ => false
  end.
Definition watching_abort (a : SupAt) : bool :=
  match a with SupWaits | SupDrains | SupLeaves | SupUnwatchesAbort | SupUnwindsAbort => true | _ => false end.

(** A callback is there, or being called, only while it is installed and the
    child has yet to be reaped. *)
Definition source_at (watching : bool) (c : Child) (s : Source) : bool :=
  (negb (registered s || executing s) || watching && negb (reaped c)) &&
  (negb (executing s) || requested s) && negb (registered s && requested s).

Definition shape (r : Run) : bool :=
  let c := child_of r in
  let a := at_sup (sup r) in
  child_at (at_main r) a c && both_at (at_main r) a (at_srv (srv r)) && acked_at (at_main r) a c (acked (world r)) &&
  source_at (watching_stop a) c (stop r) && source_at (watching_abort a) c (abort r).

Lemma shape_step e r r' : shape r = true → step direntry_size root e r = Some r' → shape r' = true.
Proof.
  destruct r as [m t [sr sg sx] [ar ag ax] ss g fe [c h ak p wr l] [a co op we su] [v se ex n fo tf]].
  intros Hs H. unfold shape, source_at, acked_at, child_of in *. simpl in *.
  rewrite !andb_true_iff in Hs. destruct Hs as ((((Hc & Hb) & (Ha & Hcm)) & ((Hs1 & Hs2) & Hs3)) & ((Ht1 & Ht2) & Ht3)).
  destruct e as [e|e|e|e]; step_cases H; subst; unfold set_wait_error, kill_if in *; simpl in *.
  all: try (destruct m; simpl in *; rewrite ?andb_false_r, ?orb_false_r in Hb; try done; [idtac]).
  all: repeat (match goal with |- context [if ?b then _ else _] => destruct b eqn:? end; simpl in *).
  all: rewrite ?andb_true_iff; split_and?; try done.
  all: try (destruct c; simpl in *; done).
  all: try (destruct a; try done; destruct v; simpl in *; done).
  all: try (destruct sr, sg, sx; simpl in *; done).
  all: try (destruct ar, ag, ax; simpl in *; done).
  all: destruct sg, ag; simpl in *; done.
Qed.
End facts.
