(* ===== verification/ProcessUtilLog.v ===== *)
(** * What a run does, in order

    The log of a run: nothing is signalled once it was reaped, a command begins
    only once it is tracked and served, and is removed only once it is gone. *)

From S2P Require Export ProcessUtilFacts.

(** What may come after [before]. *)
Definition allowed (before : list effect) (e : effect) : Prop :=
  match e with
  | Cloned => Cloned ∉ before
  | Attached => Cloned ∈ before ∧ Waited ∉ before
  | Added _ => Attached ∈ before ∧ Waited ∉ before ∧ ∀ t, Added t ∉ before
  | Released => ∃ t, Added t ∈ before
  | Began => Released ∈ before ∧ Waited ∉ before
  | Signalled | Waited => Cloned ∈ before ∧ Waited ∉ before
  | Dropped => Dropped ∉ before
  | Removed t => Added t ∈ before ∧ Waited ∈ before ∧ ∀ t', Removed t' ∉ before
  | ReadLost | Faulted _ => True
  end.
Definition orderly (l : list effect) : Prop := ∀ before e after, l = before ++ e :: after → allowed before e.

Lemma orderly_snoc l e : orderly l → allowed l e → orderly (l ++ [e]).
Proof.
  intros Hl He before e' after Heq. destruct after as [|x after _] using rev_ind.
  - apply app_inj_tail in Heq as [<- <-]. done.
  - rewrite app_comm_cons, app_assoc in Heq. apply app_inj_tail in Heq as [Heq _]. by eapply Hl.
Qed.

Section log.
Variable direntry_size : str → nat.
Variable root : path.

Definition attached_at (m : MainAt) : bool := match m with MainAdds | MainReleases | MainJoins => true | _ => false end.
Definition added_at (m : MainAt) : bool := match m with MainReleases | MainJoins => true | _ => false end.
Definition unadded_at (m : MainAt) : bool :=
  match m with
  | MainStarts | MainPrepares | MainClones | MainAttaches | MainAdds | MainTerminates _ | MainReaps _ => true
  | _ => false
  end.
Definition dropped_at (m : MainAt) : bool :=
  match m with MainEndsChild _ | MainEndsReap _ | MainUntracks _ | MainDone _ => true | _ => false end.
Definition is_done (m : MainAt) : bool := match m with MainDone _ => true | _ => false end.

Record logged (r : Run) : Prop := {
  log_orderly : orderly (log (world r));
  log_cloned : Cloned ∈ log (world r) ↔ born (child_of r) = true;
  log_waited : Waited ∈ log (world r) ↔ reaped (child_of r) = true;
  log_attached : attached_at (at_main r) = true → Attached ∈ log (world r);
  log_added t : Added t ∈ log (world r) ↔ added_as r = Some t;
  log_is_added : added_at (at_main r) = true → is_Some (added_as r);
  log_unadded : unadded_at (at_main r) = true → added_as r = None;
  log_released : acked (world r) = true → Released ∈ log (world r);
  log_dropped : Dropped ∈ log (world r) → dropped_at (at_main r) = true;
  log_removed t : Removed t ∈ log (world r) → is_done (at_main r) = true;
  log_cleaned t : is_done (at_main r) = true → added_as r = Some t → Removed t ∈ log (world r);
  log_added_born : is_Some (added_as r) → born (child_of r) = true;
}.

Lemma logged_step e r r' :
  shape r = true → logged r → step direntry_size root e r = Some r' → logged r'.
Proof.
  destruct r as [m t [sr sg sx] [ar ag ax] ss g fe [c h ak p wr l] [a co op we su] [v se ex n fo tf]].
  intros Hs [L1 L2 L3 L4 L5 L6 L7 L8 L9 L10 L11 L12] H. unfold shape, source_at, acked_at, child_of in *. simpl in *.
  rewrite !andb_true_iff in Hs. destruct Hs as ((((Hc & Hb) & (Ha & Hcm)) & ((Hs1 & Hs2) & Hs3)) & ((Ht1 & Ht2) & Ht3)).
  destruct e as [e|e|e|e]; step_cases H; subst; unfold set_wait_error, kill_if in *; simpl in *.
  all: try (destruct m; simpl in *; rewrite ?andb_false_r, ?orb_false_r in Hb; try done; [idtac]).
  all: repeat (match goal with |- context [if ?b then _ else _] => destruct b eqn:? end; simpl in *).
  all: try by (constructor; unfold child_of; simpl in *; auto).
  all: rewrite ?andb_true_iff, ?negb_true_iff in Hc.
  all: constructor; unfold child_of; simpl in *; try done; try apply L1.
  all: repeat (apply orderly_snoc; [|simpl]); try done.
  all: let x := fresh in try (intros x; pose proof (L5 x); pose proof (L10 x); pose proof (L11 x)); intros.
  all: rewrite ?elem_of_app, ?list_elem_of_singleton in *.
  all: try match goal with |- ∃ t0, Added t0 ∈ _ => destruct L6 as [x Hx]; [done|]; exists x; by apply L5 end.
  all: try (intuition congruence).
  all: try (destruct c; simpl in *; intuition (try congruence);
            repeat match goal with H : Added _ ∈ _ |- _ => rewrite L5 in H end; congruence).
  all: try (destruct sg, ag, a; simpl in *; try done; destruct m; simpl in *; try done; destruct c; simpl in *;
            try done; intuition congruence).
  all: rewrite L12, orb_false_r in Hc by eauto; split_and!; [by apply L5|by apply L3|by intros x ?%L10].
Qed.
End log.
