(* ===== verification/ProcessUtilResults.v ===== *)
(** * What the results of a run are of

    What was collected is what was written; whatever failed is remembered until
    the end; and what is given in the end is one or the other. *)

From S2P Require Export ProcessUtilLog.

(** A run taken apart, and its shape. *)
Ltac take_apart r Hs :=
  destruct r as [m t [sr sg sx] [ar ag ax] ss g fe [c h ak p wr l] [a co op we su] [v se ex n fo tf]];
  unfold shape, source_at, acked_at, child_of in *; simpl in *;
  rewrite !andb_true_iff in Hs;
  destruct Hs as ((((Hc & Hb) & (Ha & Hcm)) & ((Hs1 & Hs2) & Hs3)) & ((Ht1 & Ht2) & Ht3)).

(** All cases of a step of it; where it is the coroutines' turn the run is under
    way. *)
Ltac all_cases e m H Hb :=
  destruct e as [e|e|e|e]; step_cases H; subst; unfold set_wait_error, kill_if in *; simpl in *;
  try (destruct m; simpl in *; rewrite ?andb_false_r, ?orb_false_r in Hb; try done; [idtac]);
  repeat (match goal with |- context [if ?b then _ else _] => destruct b eqn:? end; simpl in *).

Section results.
Variable direntry_size : str → nat.
Variable root : path.

(** Where [supervise] has not given its result, is being unwound, and is
    over. *)
Definition collects_at (a : SupAt) : bool :=
  match a with SupUnwindsAbort | SupUnwindsStop | SupEnds | SupDone => false | _ => true end.
Definition unwinds_at (a : SupAt) : bool := match a with SupUnwindsAbort | SupUnwindsStop => true | _ => false end.
Definition ended_at (a : SupAt) : bool := match a with SupEnds | SupDone => true | _ => false end.

(** ** The output *)

Record output_ok (r : Run) : Prop := {
  out_collected : collects_at (at_sup (sup r)) = true → written (world r) = collected (sup r) ++ pipe (world r);
  out_closed : collects_at (at_sup (sup r)) = true → open (sup r) = false →
    ReadLost ∈ log (world r) ∨ gone (child_of r) = true ∧ pipe (world r) = [];
  out_drained : at_sup (sup r) = SupResults → ReadLost ∈ log (world r) ∨ pipe (world r) = [];
  out_ended : ended_at (at_sup (sup r)) = true → is_error (sup_error (supervision (sup r))) = false →
    reaped (child_of r) = true ∧ exit_status (supervision (sup r)) = exit_status_of r ∧
      (ReadLost ∈ log (world r) ∨ output (supervision (sup r)) = written (world r));
}.

Lemma output_step e r r' :
  shape r = true → output_ok r → step direntry_size root e r = Some r' → output_ok r'.
Proof.
  intros Hs [O1 O2 O3 O4] H. take_apart r Hs. all_cases e m H Hb.
  all: try by (constructor; unfold exit_status_of, child_of in *; simpl in *; auto).
  all: constructor; unfold exit_status_of, child_of in *; simpl in *; try done; intros;
    rewrite ?elem_of_app, ?list_elem_of_singleton in *.
  all: try (intuition congruence).
  all: try (destruct a; simpl in *; try done; destruct c; simpl in *; intuition congruence).
  all: rewrite ?andb_true_iff, ?bool_decide_eq_true in *.
  all: try (rewrite <- app_assoc, take_drop; auto; done).
  all: try (destruct O2 as [|[? ->]]; auto; rewrite drop_nil; auto; done).
  all: try (destruct c; simpl in *; intuition (try congruence)).
  all: try (rewrite O1 by done; by rewrite app_assoc).
  all: subst; rewrite ?app_nil_r; auto; destruct m; done.
Qed.

(** ** What went wrong *)

Definition starting_at (m : MainAt) : bool :=
  match m with
  | MainStarts | MainPrepares | MainClones | MainAttaches | MainAdds | MainReleases => true
  | _ => false
  end.

(** What a kill or a failure leaves, until the results are given. *)
Definition trouble (r : Run) : bool :=
  is_error (tracing_failure (srv r)) || unwinds_at (at_sup (sup r)) ||
  collects_at (at_sup (sup r)) && (is_error (wait_error (sup r)) || requested (stop r)) ||
  ended_at (at_sup (sup r)) && (is_error (sup_error (supervision (sup r))) || canceled (supervision (sup r))).

Definition faulted (l : list effect) : Prop := ∃ e, Faulted e ∈ l.

Lemma faulted_app l l' : faulted (l ++ l') ↔ faulted l ∨ faulted l'.
Proof. unfold faulted. setoid_rewrite elem_of_app. naive_solver. Qed.
Lemma faulted_one e : faulted [e] ↔ match e with Faulted _ => True | _ => False end.
Proof. unfold faulted. setoid_rewrite list_elem_of_singleton. destruct e; naive_solver. Qed.

Record trouble_ok (r : Run) : Prop := {
  tr_starts : starting_at (at_main r) = true → Signalled ∉ log (world r) ∧ ¬ faulted (log (world r));
  tr_joins : at_main r = MainJoins → Signalled ∈ log (world r) ∨ faulted (log (world r)) → trouble r = true;
  tr_abort : requested (abort r) = true → is_error (tracing_failure (srv r)) = true;
  tr_failure : is_error (tracing_failure (srv r)) = true → Faulted (tracing_failure (srv r)) ∈ log (world r);
  tr_wait : is_error (wait_error (sup r)) = true → Faulted (wait_error (sup r)) ∈ log (world r);
  tr_sup : ended_at (at_sup (sup r)) = true → is_error (sup_error (supervision (sup r))) = true →
    Faulted (sup_error (supervision (sup r))) ∈ log (world r);
  tr_canceled : ended_at (at_sup (sup r)) = true → canceled (supervision (sup r)) = true → requested (stop r) = true;
}.

Lemma trouble_step e r r' :
  shape r = true → trouble_ok r → step direntry_size root e r = Some r' → trouble_ok r'.
Proof.
  intros Hs [T1 T2 T3 T4 T5 T6 T7] H. unfold trouble in *. take_apart r Hs. all_cases e m H Hb.
  all: try by (constructor; unfold trouble; simpl in *; auto).
  all: constructor; unfold trouble; simpl in *; try done; intros;
    rewrite ?faulted_app, ?faulted_one, ?elem_of_app, ?list_elem_of_singleton in *.
  all: try (intuition congruence).
  all: try (repeat match goal with |- context [is_error ?x] => destruct (is_error x) eqn:? end;
            destruct sr, ar; simpl in *; intuition congruence).
  all: try (by apply andb_true_iff in H0 as []).
  all: try (specialize (T2 eq_refl H0); destruct a; simpl in *; rewrite ?orb_true_r; done).
  all: subst; destruct sg, ag, a; simpl in *; rewrite ?orb_true_r in *; try done; destruct m; try done.
Qed.
End results.
