(* ===== verification/ProcessUtilGiven.v ===== *)
(** * The results of a run

    That the session with the kernel keeps what the tracer keeps, and what each
    result stands for, from when the coroutines are done to the end. *)

From S2P Require Export ProcessUtilResults.

Section given.
Variable direntry_size : str → nat.
Variable root : path.
Hypothesis Hroot : Forall is_name (names root).

(** ** The session *)

Definition session_kept (r : Run) : Prop :=
  dropped_at (at_main r) = false → session_ok root (session (srv r)).

Lemma session_step e r r' : session_kept r → step direntry_size root e r = Some r' → session_kept r'.
Proof.
  destruct r as [m t so ab ss g fe w [a co op we su] [v se ex n fo tf]]. unfold session_kept. simpl. intros Hk H Hd.
  destruct e as [e|e|e|e].
  - step_cases H; simpl in *; subst; auto; try by destruct t. by apply new_session_ok.
  - step_cases H; unfold set_wait_error, kill_if in *; repeat case_match; simpl in *; auto.
  - step_cases H; unfold set_wait_error, kill_if in *; simpl in *; auto. eapply respond_ok; eauto.
  - step_cases H; simpl in *; auto.
Qed.

(** ** The results *)

Definition result_of (m : MainAt) : option Result :=
  match m with
  | MainTerminates res | MainReaps res => Some res
  | MainEndsSession o | MainEndsChild o | MainEndsReap o | MainUntracks o | MainDone o => o
  | _ => None
  end.

(** An output is of a command that ran to its own end, with nothing having gone
    wrong: all it wrote, all it read, and how it ended. *)
Definition result_ok (res : Result) (r : Run) : Prop :=
  let l := log (world r) in
  let s := session (srv r) in
  match res with
  | Value out =>
      (reaped (child_of r) = true ∧ out_exit_status out = exit_status_of r) ∧
      (ReadLost ∈ l ∨ standard_output out = written (world r)) ∧
      (Signalled ∉ l ∧ ¬ faulted l ∧ Released ∈ l) ∧
      (m_failed (tracer s) = false ∧ Forall (open_ok (entries s)) (opened s) ∧
       StronglySorted (λ p q, path_leb p q = true ∧ p ≠ q) (inputs out) ∧
       (∀ p, p ∈ inputs out ↔ ∃ o, o ∈ opened s ∧ recorded_as root (entries s) p o) ∧
       (one_name_each (entries s) →
          ∀ p, p ∈ inputs out ↔ ∃ o w, o ∈ opened s ∧ reached (entries s) (opened_ino o) w ∧ p = below root w))
  | Unexpected e =>
      Faulted e ∈ l ∨ e = make_error_code operation_canceled ∧ requested (stop r) = true ∨
      e = make_error_code io_error ∧ m_failed (tracer s) = true
  end.

Definition given_ok (r : Run) : Prop := ∀ res, result_of (at_main r) = Some res → result_ok res r.

Lemma joined_ok r :
  at_main r = MainJoins → sup_done (at_sup (sup r)) = true → shape r = true → logged r → output_ok r →
  trouble_ok r → session_ok root (session (srv r)) → result_ok (joined r) r.
Proof.
  intros Hm Ha Hs Hl [_ _ _ O4] [_ T2 _ T4 _ T6 T7] Hses.
  assert (acked (world r) = true) as Hack.
  { unfold shape, acked_at in Hs. rewrite !andb_true_iff in Hs. destruct Hs as ((((_ & _) & (Hk & _)) & _) & _).
    destruct (at_sup (sup r)); try done. by apply eqb_prop in Hk. }
  unfold joined. destruct (is_error (tracing_failure (srv r))) eqn:Etf; [left; auto|].
  assert (ended_at (at_sup (sup r)) = true) as He by by destruct (at_sup (sup r)).
  unfold to_result. destruct (is_error (sup_error (supervision (sup r)))) eqn:Ese; simpl; [left; auto|].
  destruct (canceled (supervision (sup r))) eqn:Eca; simpl; [right; left; auto|].
  destruct (O4 He eq_refl) as (Hreap & Hst & Hout).
  destruct (m_failed (tracer (session (srv r)))) eqn:Ef.
  { rewrite (proj1 (take_inputs_spec (tracer (session (srv r)))) Ef). simpl. right. right. done. }
  destruct (session_reports root (session (srv r)) Hses Ef) as (l & -> & Hsort & Hin). simpl.
  assert (trouble r = false) as Ht.
  { unfold trouble. rewrite Etf, Ese, Eca. by destruct (at_sup (sup r)). }
  split; [done|]. split; [done|]. split; [split_and!|split_and!; [done|by apply (opens_are_ok root)|done|apply Hin..]].
  - intros Hsig. rewrite T2 in Ht by auto. done.
  - intros Hf. rewrite T2 in Ht by auto. done.
  - by apply Hl.
Qed.

Lemma given_step e r r' :
  shape r = true → logged r → output_ok r → trouble_ok r → session_kept r →
  given_ok r → step direntry_size root e r = Some r' → given_ok r'.
Proof.
  intros Hs Hl Ho Ht Hk Hg H.
  assert (e = Main Joins ∨ e ≠ Main Joins) as [->|Hne] by (destruct e as [[]| | |]; auto).
  { intros res Hres. simpl in H. unfold run_traced in H. destruct (at_main r) eqn:Em; try done.
    destruct (at_sup (sup r)) eqn:Ea; try done. destruct (at_srv (srv r)) eqn:Ev; try done.
    injection H as <-. simpl in Hres. injection Hres as <-.
    assert (result_ok (joined r) r) as Hr by (apply joined_ok; [done|by rewrite Ea|done..|apply Hk; by rewrite Em]).
    exact Hr. }
  clear Hl Ho Ht Hk. unfold given_ok in *. take_apart r Hs. all_cases e m H Hb.
  all: intros res Hres; simpl in Hres; try discriminate Hres; try (injection Hres as <-).
  all: try specialize (Hg _ eq_refl); try specialize (Hg _ Hres).
  all: unfold result_ok, exit_status_of, child_of in *; simpl in *.
  all: repeat match goal with res : Result |- _ => destruct res end;
    rewrite ?elem_of_app, ?list_elem_of_singleton, ?faulted_app, ?faulted_one.
  all: try (intuition congruence).
  all: try (destruct c; simpl in *; intuition congruence).
  all: destruct sg, ag, a; simpl in *; try done; destruct m; simpl in *; done.
Qed.
End given.
