(* ===== verification/ProcessUtilEnds.v ===== *)
(** * That a run ends

    What the program does, as long as no call is interrupted, lowers a measure;
    and where there is nothing it can do it waits for a child that is alive, and
    that it has killed if it was asked to. *)

From S2P Require Export ProcessUtilGiven.

(** What the program does, calling the callbacks included. *)
Definition program (e : event) : bool :=
  match e with
  | Main MainThrows => false
  | Main _ | Sup _ | Srv _ | Env StopKills | Env AbortKills => true
  | Env _ => false
  end.

(** A call that was interrupted, or found nothing though it was to: of a child
    that is gone there is an end to find. *)
Definition spins (r : Run) (e : event) : bool :=
  match e with
  | Sup (SupReads ReadInterrupted) | Srv (Receives ReceiveInterrupted) => true
  | Sup (SupReads ReadAgain) | Srv (Receives NoneNow) => gone (child_of r)
  | _ => false
  end.

(** ** The measure *)

Definition main_work (m : MainAt) : nat :=
  match m with
  | MainStarts => 13 | MainPrepares => 12 | MainClones => 11 | MainAttaches => 10 | MainAdds => 9 | MainReleases => 8
  | MainJoins => 7 | MainTerminates _ => 6 | MainReaps _ => 5 | MainEndsSession _ => 4 | MainEndsChild _ => 3
  | MainEndsReap _ => 2 | MainUntracks _ => 1 | MainDone _ | MainDied => 0
  end.

Definition sup_work (a : SupAt) (unread : nat) (open gone : bool) : nat :=
  3 * unread +
  match a with
  | SupOff => 40 | SupBegins => 38 | SupWatchesStop => 36 | SupWatchesAbort => 34
  | SupWaits => if open then if bool_decide (unread = 0) && gone then 30 else 28 else 26
  | SupDrains => if bool_decide (unread = 0) then 29 else 27
  | SupLeaves => 24 | SupUnwatchesAbort => 22 | SupUnwindsAbort => 20 | SupUnwatchesStop => 18 | SupReaps => 16
  | SupDrainsRest => 14 | SupUnwindsStop => 13 | SupResults => 12 | SupEnds => 10 | SupDone => 0
  end.

Definition srv_work (v : SrvAt) (asked : nat) (gone : bool) : nat :=
  3 * asked +
  match v with
  | SrvOff => 20
  | SrvWaits => if bool_decide (asked = 0) && gone then 12 else 10
  | SrvProcesses => if bool_decide (asked = 0) then 11 else 9
  | SrvFails _ => 5 | SrvAborts => 2 | SrvDone => 0
  end.

Definition executing_work (s : Source) : nat := if executing s then 1 else 0.

Definition work (r : Run) : nat :=
  main_work (at_main r) +
  sup_work (at_sup (sup r)) (length (pipe (world r))) (open (sup r)) (gone (child_of r)) +
  srv_work (at_srv (srv r)) (asked (srv r)) (gone (child_of r)) +
  executing_work (stop r) + executing_work (abort r).

Section ends.
Variable direntry_size : str → nat.
Variable root : path.

#[local] Arguments sup_work : simpl never.
#[local] Arguments srv_work : simpl never.

(** What a case leaves to show: the flags it depends on, one by one. *)
Ltac weigh :=
  repeat match goal with
    | |- context [if ?b then _ else _] => destruct b eqn:?; simpl in *
    end;
  rewrite ?andb_true_iff, ?andb_false_iff, ?orb_true_iff, ?negb_true_iff, ?bool_decide_eq_true, ?bool_decide_eq_false in *;
  rewrite ?length_drop in *.

Lemma main_lowered e r r' :
  shape r = true → run_traced root e r = Some r' → work r' < work r.
Proof.
  intros Hs H. unfold work, executing_work in *. take_apart r Hs. step_cases H; subst; simpl in *; try done; try lia.
  - destruct c; [simpl; lia|done..].
  - destruct a; try done. destruct v; try done. unfold sup_work, srv_work. simpl. weigh; lia.
  - destruct (gone c); [lia|done].
Qed.

Lemma executing_stop s : executing_work (request_stop s) ≤ executing_work s + 1.
Proof. unfold executing_work. simpl. repeat case_match; lia. Qed.
Lemma executing_install s : executing_work (install s) = executing_work s.
Proof. done. Qed.
Lemma executing_none x y : executing_work {| requested := x; registered := y; executing := false |} = 0.
Proof. done. Qed.

Lemma srv_lowered e r r' :
  spins r (Srv e) = false → serve_or_abort direntry_size e r = Some r' → work r' < work r.
Proof.
  destruct r as [m t so ab ss g fe [c h ak p wr l] [a co op we su] [v se ex n fo tf]].
  intros Hs H. unfold work, srv_work, child_of in *. simpl in *. unfold child_of in Hs. simpl in Hs.
  step_cases H; subst; simpl in *; try done; try lia.
  all: try (pose proof (executing_stop ab); lia).
  all: destruct (gone c); simpl in *; weigh; lia.
Qed.

Lemma sup_lowered e r r' :
  spins r (Sup e) = false → supervise_then_end e r = Some r' → work r' < work r.
Proof.
  destruct r as [m t so ab ss g fe [c h ak p wr l] [a co op we su] [v se ex n fo tf]].
  intros Hs H. unfold work, sup_work, child_of in *. simpl in *. unfold child_of in Hs. simpl in Hs.
  step_cases H; subst; unfold set_wait_error in *; simpl in *; try done; try lia.
  all: repeat match goal with |- context [kill_if ?b _] => destruct b; simpl end.
  all: repeat match goal with |- context [if is_error ?e then _ else _] => destruct (is_error e); simpl end.
  all: rewrite ?executing_install, ?executing_none, ?length_drop.
  all: rewrite ?bool_decide_eq_true in *; try lia.
  all: destruct (gone c); simpl in *; try done; weigh; try lia.
  all: destruct p; simpl in *; try lia; naive_solver.
Qed.

Lemma work_lowered e r r' :
  shape r = true → program e = true ∨ e = Main MainThrows → spins r e = false → step direntry_size root e r = Some r' → work r' < work r.
Proof.
  intros Hsh Hp Hs H. destruct e as [e|e|e|e]; simpl in H.
  - by eapply main_lowered.
  - by eapply sup_lowered.
  - by eapply srv_lowered.
  - destruct Hp as [Hp|?]; [|done]. destruct e; try done; simpl in H; unfold called in H.
    + destruct (executing (stop r)) eqn:E; [|done]. injection H as <-. unfold work, executing_work, child_of. simpl.
      rewrite E. lia.
    + destruct (executing (abort r)) eqn:E; [|done]. injection H as <-. unfold work, executing_work, child_of. simpl.
      rewrite E. lia.
Qed.

(** ** Who was told to end *)

Definition kept_stop (a : SupAt) : bool :=
  match a with
  | SupWatchesAbort | SupWaits | SupDrains | SupLeaves | SupUnwatchesAbort | SupUnwatchesStop => true
  | _ => false
  end.
Definition kept_abort (a : SupAt) : bool :=
  match a with SupWaits | SupDrains | SupLeaves | SupUnwatchesAbort => true | _ => false end.
Definition left_at (a : SupAt) : bool :=
  match a with SupUnwatchesAbort | SupUnwatchesStop | SupReaps => true | _ => false end.
Definition killed_at (m : MainAt) : bool :=
  match m with MainTerminates _ | MainReaps _ | MainEndsReap _ => true | _ => false end.

Record killing (r : Run) : Prop := {
  kill_stop : kept_stop (at_sup (sup r)) = true → requested (stop r) = true →
    executing (stop r) = true ∨ Signalled ∈ log (world r);
  kill_abort : kept_abort (at_sup (sup r)) = true → requested (abort r) = true →
    executing (abort r) = true ∨ Signalled ∈ log (world r);
  kill_left : left_at (at_sup (sup r)) = true → gone (child_of r) = true ∨ Signalled ∈ log (world r);
  kill_main : killed_at (at_main r) = true → Signalled ∈ log (world r);
  sup_over : at_sup (sup r) = SupDone → stop_serving r = true;
  install_stop : kept_stop (at_sup (sup r)) = true → registered (stop r) = negb (requested (stop r));
  install_abort : kept_abort (at_sup (sup r)) = true → registered (abort r) = negb (requested (abort r));
  leave_why : at_sup (sup r) = SupLeaves → gone (child_of r) = true ∨ is_error (wait_error (sup r)) = true;
  died_why : at_main r = MainDied → gone (child_of r) = true;
}.

Lemma killing_step e r r' :
  shape r = true → killing r → step direntry_size root e r = Some r' → killing r'.
Proof.
  intros Hs [K1 K2 K3 K4 K5 K6 K7 K8 K9] H. take_apart r Hs. all_cases e m H Hb.
  all: try by (constructor; unfold child_of; simpl in *; auto).
  all: constructor; unfold child_of; simpl in *; try done; intros; rewrite ?elem_of_app, ?list_elem_of_singleton in *.
  all: try (intuition congruence).
  all: try (destruct a; simpl in *; try done; auto; done).
  - rewrite K7 by done. destruct ar, ax; simpl; tauto.
  - rewrite K6 by done. destruct sr, sx; simpl; tauto.
Qed.

(** ** Nothing is stuck but on the child *)

Definition can_go (r : Run) : Prop :=
  ∃ e r', program e = true ∧ spins r e = false ∧ step direntry_size root e r = Some r'.

#[local] Arguments gone : simpl never.
Ltac goes e := exists e; eexists; split; [reflexivity|split; [reflexivity|simpl]].

Lemma some_request s : ∃ sys q s', respond direntry_size sys q true s = Some s'.
Proof.
  exists {| ans_openat2 _ _ := Unexpected 2%Z; ans_fstat _ := Unexpected 2%Z; ans_fdopendir _ := None;
    ans_pread _ _ _ := Unexpected 2%Z; ans_readdir _ _ := NoEntry; ans_readlinkat _ _ := Unexpected 2%Z;
    ans_number := 0; ans_memory _ := true |}, (GetAttr 0).
  unfold respond. cbn -[serve_request]. destruct (serve_request _ _ _ _). eauto.
Qed.

Lemma srv_goes r :
  at_srv (srv r) ≠ SrvOff → at_srv (srv r) ≠ SrvDone →
  can_go r ∨ at_srv (srv r) = SrvWaits ∧ stop_serving r = false ∧ gone (child_of r) = false ∨
  at_srv (srv r) = SrvAborts ∧ executing (abort r) = true.
Proof.
  destruct r as [m t so ab ss g fe w su [v se ex n fo tf]]. simpl. intros H1 H2. destruct v; try done.
  - destruct ss; [left; goes (Srv SrvStopped); reflexivity|]. simpl.
    destruct (gone (child w)) eqn:Eg; [|auto]. left. goes (Srv SrvReady). 
    unfold serve_or_abort, serve_session, child_of. simpl. rewrite Eg, orb_true_r. reflexivity.
  - left. destruct fo as [f|]; [goes (Srv (Receives MountGone)); reflexivity|].
    destruct ex; [goes (Srv (Receives MountGone)); reflexivity|].
    destruct n as [|n].
    + destruct (gone (child w)) eqn:Eg.
      * goes (Srv (Receives MountGone)). unfold serve_or_abort, serve_session, process, child_of. simpl. rewrite Eg. reflexivity.
      * exists (Srv (Receives NoneNow)). eexists. split; [reflexivity|]. split; [done|reflexivity].
    + destruct (some_request se) as (sys & q & s' & E). goes (Srv (Receives (RequestReceived sys q true))).
      unfold serve_or_abort, serve_session, process. cbn -[respond]. rewrite E. reflexivity.
  - left. destruct (is_error e) eqn:E; goes (Srv SrvGoes); unfold serve_or_abort; simpl; rewrite E; reflexivity.
  - destruct (executing ab) eqn:E; [auto|]. left. goes (Srv SrvGoes). unfold serve_or_abort. simpl.
    rewrite E. reflexivity.
Qed.

Lemma sup_goes r :
  at_main r = MainJoins → shape r = true → killing r →
  at_sup (sup r) ≠ SupDone →
  can_go r ∨ executing (stop r) = true ∨ executing (abort r) = true ∨
  gone (child_of r) = false ∧ (at_sup (sup r) = SupWaits ∨ Signalled ∈ log (world r)).
Proof.
  intros Hm Hs [K1 K2 K3 K4 K5 K6 K7 K8 K9] Hd. take_apart r Hs. subst m. simpl in *.
  destruct a; try done.
  - left. goes (Sup SupGoes). reflexivity.
  - left. goes (Sup SupGoes). reflexivity.
  - left. goes (Sup SupGoes). reflexivity.
  - destruct (gone c) eqn:Eg; [|auto 6]. left. goes (Sup (SupWaited WExited no_error)).
    unfold supervise_then_end, supervise, child_of. simpl. rewrite Eg. reflexivity.
  - left. destruct p as [|b p].
    + destruct (gone c) eqn:Eg.
      * goes (Sup (SupReads ReadEnd)). unfold supervise_then_end, supervise, drain. simpl. rewrite Eg. reflexivity.
      * exists (Sup (SupReads ReadAgain)). eexists. split; [done|]. split; [done|reflexivity].
    + goes (Sup (SupReads (ReadBytes 1))). unfold supervise_then_end, supervise, drain. simpl.
      reflexivity.
  - left. goes (Sup SupGoes). reflexivity.
  - destruct ax; [auto|]. left. goes (Sup SupGoes). reflexivity.
  - destruct sx; [auto|]. left. goes (Sup SupGoes). reflexivity.
  - destruct (gone c) eqn:Eg; [|destruct K3 as [?|?]; [done|done|auto 7]]. left. destruct c; try done.
    goes (Sup SupGoes). reflexivity.
  - left. destruct p as [|b p].
    + goes (Sup (SupReads ReadEnd)). unfold supervise_then_end, supervise, drain. simpl. destruct c; done.
    + goes (Sup (SupReads (ReadBytes 1))). unfold supervise_then_end, supervise, drain. simpl.
      reflexivity.
  - left. goes (Sup SupGoes). reflexivity.
  - destruct ax; [auto|]. left. goes (Sup SupGoes). reflexivity.
  - destruct sx; [auto|]. left. goes (Sup SupGoes). reflexivity.
  - left. goes (Sup SupGoes). reflexivity.
Qed.

Definition is_over (m : MainAt) : bool := match m with MainDone _ | MainDied => true | _ => false end.

(** It waits for a child that is there: to hand the device over, or to exit, in
    which case it has been killed if anyone asked for that. *)
Definition waits_for_child (r : Run) : Prop :=
  alive (child_of r) = true ∧
    (at_main r = MainAttaches ∧ handed (world r) = None ∨
     Signalled ∈ log (world r) ∨ requested (stop r) = false ∧ requested (abort r) = false).

(** While both coroutines are under way. *)
Lemma joins_goes r :
  at_main r = MainJoins → shape r = true → killing r →
  executing (stop r) = false → executing (abort r) = false → can_go r ∨ waits_for_child r.
Proof.
  intros Em Hs Hk Esx Eax.
  assert (child_at MainJoins (at_sup (sup r)) (child_of r) = true ∧ at_srv (srv r) ≠ SrvOff) as [Hc Hv].
  { unfold shape in Hs. rewrite !andb_true_iff in Hs. rewrite Em in Hs. destruct Hs as ((((Hc & Hb) & _) & _) & _).
    split; [done|]. simpl in Hb. apply andb_true_iff in Hb as [_ Hb]. by destruct (at_srv (srv r)). }
  assert (at_sup (sup r) = SupDone ∨ at_sup (sup r) ≠ SupDone) as [Ed|Hnd] by (destruct (at_sup (sup r)); auto).
  - assert (at_srv (srv r) = SrvDone ∨ at_srv (srv r) ≠ SrvDone) as [Ev|Hnv] by (destruct (at_srv (srv r)); auto).
    { left. goes (Main Joins). unfold run_traced. rewrite Em, Ed, Ev. reflexivity. }
    destruct (srv_goes r Hv Hnv) as [?|[(_ & Hss & _)|[_ ?]]]; [auto|..|congruence].
    by rewrite (sup_over _ Hk) in Hss by done.
  - destruct (sup_goes r Em Hs Hk Hnd) as [?|[?|[?|[Hg Hwhy]]]]; [auto|congruence..|].
    right. split; [by destruct (at_sup (sup r)), (child_of r)|]. right. destruct Hwhy as [Ew|?]; [|auto].
    destruct (requested (stop r)) eqn:E1.
    { destruct (kill_stop _ Hk) as [?|?]; [by rewrite Ew|done|congruence|auto]. }
    destruct (requested (abort r)) eqn:E2; [|auto].
    destruct (kill_abort _ Hk) as [?|?]; [by rewrite Ew|done|congruence|auto].
Qed.

(** Where the child is being terminated. *)
Lemma killed_waits r :
  shape r = true → killing r → killed_at (at_main r) = true → gone (child_of r) = false → waits_for_child r.
Proof.
  intros Hs Hk Hm Hg. split; [|right; left; by apply Hk]. unfold shape in Hs. rewrite !andb_true_iff in Hs.
  destruct Hs as ((((Hc & _) & _) & _) & _). by destruct (at_main r), (child_of r).
Qed.

Lemma killed_reaps r :
  shape r = true → killed_at (at_main r) = true → gone (child_of r) = true → ∃ r', reap r = Some r'.
Proof.
  intros Hs Hm Hg. unfold shape in Hs. rewrite !andb_true_iff in Hs. destruct Hs as ((((Hc & _) & _) & _) & _).
  unfold reap. destruct (at_main r), (child_of r); try done; eauto.
Qed.

(** The run is over, the program can go on, or it waits for the child. *)
Lemma never_stuck_but r :
  shape r = true → killing r → is_over (at_main r) = true ∨ can_go r ∨ waits_for_child r.
Proof.
  intros Hs Hk.
  destruct (executing (stop r)) eqn:Esx.
  { right. left. goes (Env StopKills). unfold called. rewrite Esx. reflexivity. }
  destruct (executing (abort r)) eqn:Eax.
  { right. left. goes (Env AbortKills). unfold called. rewrite Eax. reflexivity. }
  destruct (at_main r) eqn:Em; auto; right.
  - left. destruct (requested (stop r)) eqn:E; goes (Main (RunTask None)); unfold run_traced; rewrite Em, E; reflexivity.
  - left. destruct (take_forced_failure tracing_setup (g_forced r)) as [f g] eqn:E.
    goes (Main (Prepares None)). unfold run_traced. rewrite Em, E. reflexivity.
  - left. goes (Main (Clones None)). unfold run_traced. rewrite Em. reflexivity.
  - destruct (bool_decide (handed (world r) = None) && negb (gone (child_of r))) eqn:E.
    + right. rewrite andb_true_iff, bool_decide_eq_true, negb_true_iff in E. destruct E as [E1 E2].
      split; [|auto]. unfold shape in Hs. rewrite !andb_true_iff, Em in Hs. destruct Hs as ((((Hc & _) & _) & _) & _).
      by destruct (child_of r).
    + left. goes (Main (Attaches false false (None, true, 0%Z) {| st_dev := 0; st_ino := 0; st_mode := 0 |})).
      unfold run_traced. rewrite Em, E. destruct (handed (world r)); reflexivity.
  - left. goes (Main (Adds (Value 0))). unfold run_traced. rewrite Em. reflexivity.
  - left. goes (Main (Releases true)). unfold run_traced. rewrite Em. reflexivity.
  - by apply joins_goes.
  - destruct (gone (child_of r)) eqn:Eg; [|right; apply killed_waits; auto; by rewrite Em].
    left. goes (Main (ExitAwaited false)). unfold run_traced. rewrite Em, Eg. reflexivity.
  - destruct (gone (child_of r)) eqn:Eg; [|right; apply killed_waits; auto; by rewrite Em].
    destruct (killed_reaps r Hs) as [r' Hr]; [by rewrite Em|done|].
    left. goes (Main ReapsTerminated). unfold run_traced. rewrite Em, Hr. reflexivity.
  - left. goes (Main EndsSession). unfold run_traced. rewrite Em. reflexivity.
  - left. destruct (m_reaped r) eqn:E; goes (Main EndsChild); unfold run_traced; rewrite Em, E; reflexivity.
  - destruct (gone (child_of r)) eqn:Eg; [|right; apply killed_waits; auto; by rewrite Em].
    destruct (killed_reaps r Hs) as [r' Hr]; [by rewrite Em|done|].
    left. goes (Main EndsReap). unfold run_traced. rewrite Em, Hr. reflexivity.
  - left. destruct (added_as r) eqn:E; goes (Main Untracks); unfold run_traced; rewrite Em, E; reflexivity.
Qed.
End ends.
