(* ===== verification/ProcessUtilSpec.v ===== *)
(** * What running a command promises

    Over every interleaving of a run with its command and with whoever stops it:
    the command runs only while it is tracked and traced, and is gone and
    forgotten by the end; what is given is exactly what it wrote, read and ended
    with, or why there is nothing to give; and the run ends, a command that is to
    be stopped having been killed. *)

From S2P Require Export ProcessUtilEnds ReadTracerSpec.

Record run_inv (direntry_size : str → nat) (root : path) (r : Run) : Prop := {
  inv_shape : shape r = true;
  inv_logged : logged r;
  inv_output : output_ok r;
  inv_trouble : trouble_ok r;
  inv_session : session_kept root r;
  inv_given : given_ok root r;
  inv_killing : killing r;
}.

Section spec.
Variable direntry_size : str → nat.
Variable root : path.

Lemma new_run_inv (Hroot : Forall is_name (names root)) g : run_inv direntry_size root (new_run root g).
Proof.
  constructor.
  - done.
  - constructor; unfold child_of; simpl; try done.
    + intros before e after H. by destruct before.
    + split; [by intros ?%elem_of_nil|done].
    + split; [by intros ?%elem_of_nil|done].
    + intros t. split; [by intros ?%elem_of_nil|done].
    + by intros ?%elem_of_nil.
    + by intros t ?%elem_of_nil.
  - constructor; simpl; auto.
  - constructor; simpl; try done. intros _. split; [by apply not_elem_of_nil|]. intros [e He]. by apply elem_of_nil in He.
  - intros _. by apply new_session_ok.
  - intros res. done.
  - constructor; simpl; done.
Qed.

Lemma run_inv_step (Hroot : Forall is_name (names root)) e r r' :
  run_inv direntry_size root r → step direntry_size root e r = Some r' → run_inv direntry_size root r'.
Proof.
  intros [H1 H2 H3 H4 H5 H6 H7] H. constructor.
  - by eapply shape_step.
  - by eapply logged_step.
  - by eapply output_step.
  - by eapply trouble_step.
  - by eapply session_step.
  - by eapply given_step.
  - by eapply killing_step.
Qed.

Lemma run_inv_run (Hroot : Forall is_name (names root)) es r r' :
  run_inv direntry_size root r → run direntry_size root es r = Some r' → run_inv direntry_size root r'.
Proof.
  revert r. induction es as [|e es IH]; intros r Hr H; simpl in H; [by injection H as <-|].
  destruct (step direntry_size root e r) as [r1|] eqn:E; [|done]. apply (IH r1); [by eapply run_inv_step|done].
Qed.

(** C17. [run_traced], whatever fails or throws, and whoever stops it when: the
    child is signalled and reaped only while it is there to be, once it was
    cloned and before it was reaped; a command begins only after the tracker has
    taken it and its requests are served; what the tracker took is removed once,
    after the child, with everything it started, has gone; and by the end there
    is no child left and nothing in the tracker. *)
Theorem commands_are_tracked (g : option (Failure * error_code)) (es : list event) (r : Run) :
  Forall is_name (names root) → run direntry_size root es (new_run root g) = Some r →
  orderly (log (world r)) ∧
  ∀ res, at_main r = MainDone res →
    (child_of r = Unborn ∨ ∃ status, child_of r = Reaped status) ∧
    ∀ t, Added t ∈ log (world r) → Removed t ∈ log (world r).
Proof.
  intros Hroot H. destruct (run_inv_run Hroot es _ r (new_run_inv Hroot g) H) as [H1 H2 _ _ _ _ _].
  split; [apply H2|]. intros res Hm. split.
  - unfold shape in H1. rewrite !andb_true_iff in H1. destruct H1 as ((((H1 & _) & _) & _) & _).
    rewrite Hm in H1. simpl in H1. destruct (child_of r); try done; eauto.
  - intros t Ht. apply (log_cleaned _ H2); [by rewrite Hm|]. by apply (log_added _ H2).
Qed.


(** C19. The run ends. Whatever the program does next, an exception included,
    lowers a measure, unless a call was interrupted, or a call found nothing of a
    child that is gone though there is its end to find. And the run is over; or
    the program was ended by the signal that writing to a child that has gone
    raises; or there is something it can do next; or it waits for a child that
    is alive: one that has not handed the device over, be there a stop requested
    or not; one that it has killed; or one that nobody asked it to kill, no stop
    having been requested nor serving failed. *)
Theorem runs_end (g : option (Failure * error_code)) (es : list event) (r : Run) :
  Forall is_name (names root) → run direntry_size root es (new_run root g) = Some r →
  (∀ e r', program e = true ∨ e = Main MainThrows → spins r e = false → step direntry_size root e r = Some r' →
     work r' < work r) ∧
  ((∃ res, at_main r = MainDone res) ∨
   (at_main r = MainDied ∧ gone (child_of r) = true) ∨
   (∃ e r', program e = true ∧ spins r e = false ∧ step direntry_size root e r = Some r') ∨
   alive (child_of r) = true ∧
     (at_main r = MainAttaches ∧ handed (world r) = None ∨
      Signalled ∈ log (world r) ∨ requested (stop r) = false ∧ requested (abort r) = false)).
Proof.
  intros Hroot H. destruct (run_inv_run Hroot es _ r (new_run_inv Hroot g) H) as [H1 _ _ _ _ _ H7]. split.
  - intros e r'. by apply work_lowered.
  - destruct (never_stuck_but direntry_size root r H1 H7) as [Ho|Hgo]; [|auto].
    destruct (at_main r) eqn:Em; try done; [left; eauto|right; left]. split; [done|by apply (died_why r H7)].
Qed.
End spec.

(** ** Wait statuses *)

Lemma land_byte x : (Z.land x 255 = x mod 256)%Z.
Proof. apply (Z.land_ones x 8). lia. Qed.

Lemma exit_status_decoded code : shell_status (exited_with code) = Z.land code 255.
Proof.
  unfold shell_status, WIFEXITED, WEXITSTATUS, WTERMSIG, exited_with. rewrite !land_byte.
  change 127%Z with (Z.ones 7). rewrite Z.land_ones, Z.shiftl_mul_pow2, Z.shiftr_div_pow2 by lia.
  change (2 ^ 8)%Z with 256%Z. change (2 ^ 7)%Z with 128%Z.
  rewrite bool_decide_true.
  - rewrite Z.div_mul, Zmod_mod by lia. done.
  - replace (code mod 256 * 256)%Z with (code mod 256 * 2 * 128)%Z by lia. apply Z_mod_mult.
Qed.

Lemma shell_status_bounds status : (0 ≤ shell_status status < 256)%Z.
Proof.
  unfold shell_status, WIFEXITED, WIFSIGNALED, WEXITSTATUS. rewrite land_byte.
  case_bool_decide; [apply Z.mod_pos_bound; lia|]. case_bool_decide; lia.
Qed.

Lemma reap_until_shell shell before status after :
  Forall (λ w, match w with WaitGives pid _ => pid ≠ shell | WaitFails e => e = EINTR end) before →
  reap_until shell (before ++ WaitGives shell status :: after) = Some (shell_status status).
Proof.
  induction 1 as [|w before Hw Hb IH]; simpl; [by rewrite bool_decide_true|].
  destruct w as [pid st|e]; [by rewrite bool_decide_false|]. by rewrite bool_decide_false by (by intros []).
Qed.

(** C21. Exit statuses: the status reported of a command is that of its shell,
    an exit status from 0 to 255 or 128 plus the signal that ended it, however
    many of the processes it left behind the init reaps first and however often
    its wait is interrupted: what the init exits with is decoded to the same. *)
Theorem statuses_pass_through (shell : nat) (before after : list waited) (status : Z) :
  Forall (λ w, match w with WaitGives pid _ => pid ≠ shell | WaitFails e => e = EINTR end) before →
  (0 ≤ shell_status status < 256)%Z ∧
  (∀ code, (0 ≤ code < 256)%Z → status = exited_with code → shell_status status = code) ∧
  (∀ n, (0 < n < 127)%Z → WTERMSIG status = n → shell_status status = (128 + n)%Z) ∧
  ∃ code, run_as_init (Some shell) (before ++ WaitGives shell status :: after) = Some code ∧
    shell_status (exited_with code) = shell_status status.
Proof.
  intros Hb. split; [apply shell_status_bounds|]. split; [|split].
  - intros code Hc ->. rewrite exit_status_decoded, land_byte. by apply Z.mod_small.
  - intros n Hn E. unfold shell_status, WIFEXITED, WIFSIGNALED. rewrite E.
    rewrite bool_decide_false by lia. by rewrite bool_decide_true.
  - exists (shell_status status). split; [by apply reap_until_shell|].
    rewrite exit_status_decoded, land_byte. apply Z.mod_small, shell_status_bounds.
Qed.

(** ** Runs *)

Module Runs.
Definition begin_run (sent : bool) : list event := [
  Main (RunTask None); Main (Prepares None); Main (Clones None); Env (ChildSetsUp (λ _, None) sent)].
Definition under_way : list event := begin_run true ++ [
  Main (Attaches true true (None, true, 0%Z) Session.root_stat); Main (Adds (Value 7)); Main (Releases true);
  Sup SupGoes; Sup SupGoes; Sup SupGoes; Env ChildAcked].

(** The command reads [a], writes "hi" and exits with 3. *)
Definition asks (q : request) : list event := [
  Env ChildAsks; Srv SrvReady; Srv (Receives (RequestReceived (Session.says Session.files 5) q true)); Srv (Receives NoneNow)].
Definition reads_and_writes : list event :=
  asks (Lookup 1 (lit "a")) ++ asks (Open 2 0) ++
  [Env (ChildWrites (lit "hi")); Sup (SupWaited WOutput no_error); Sup (SupReads (ReadBytes 2)); Sup (SupReads ReadAgain)].
Definition ends_run : list event := [
  Env (ChildExits (exited_with 3)); Sup (SupWaited WExited no_error); Sup SupGoes; Sup SupGoes; Sup SupGoes; Sup SupGoes;
  Sup (SupReads ReadEnd); Sup SupGoes; Sup SupGoes; Srv SrvStopped;
  Main Joins; Main EndsSession; Main EndsChild; Main Untracks].
Definition whole_run : list event := under_way ++ reads_and_writes ++ ends_run.
Definition running (es : list event) : option Run :=
  run Session.direntry_size Session.root es (new_run Session.root None).
Definition a_result : Result :=
  Value {| standard_output := lit "hi"; inputs := [Session.root // of_string (lit "a")]; out_exit_status := 3 |}.

(** Stopped while it runs. *)
Definition stopped_run : list event := under_way ++ [Env StopRequested; Env StopKills].
End Runs.

Lemma commands_are_tracked_witness :
  ∃ r, Runs.running Runs.whole_run = Some r ∧ orderly (log (world r)) ∧ Removed 7 ∈ log (world r).
Proof.
  eexists. split; [vm_compute; reflexivity|].
  split.
  - refine (proj1 (commands_are_tracked Session.direntry_size Session.root None Runs.whole_run _ Session.root_named _)).
    vm_compute. reflexivity.
  - refine (proj2 (proj2 (commands_are_tracked Session.direntry_size Session.root None Runs.whole_run _ Session.root_named _)
      (Some Runs.a_result) _) 7 _); [vm_compute; reflexivity..|]. apply (bool_decide_eq_true_1 _). vm_compute. reflexivity.
Defined.


Lemma runs_end_witness :
  ∃ r, Runs.running Runs.stopped_run = Some r ∧ alive (child_of r) = true ∧ requested (stop r) = true ∧
    Signalled ∈ log (world r) ∧
    ∀ e r', program e = true ∨ e = Main MainThrows → spins r e = false →
      step Session.direntry_size Session.root e r = Some r' → work r' < work r.
Proof.
  eexists. split; [vm_compute; reflexivity|]. split; [reflexivity|]. split; [reflexivity|].
  split; [apply (bool_decide_eq_true_1 _); vm_compute; reflexivity|].
  refine (proj1 (runs_end Session.direntry_size Session.root None Runs.stopped_run _ Session.root_named _)).
  vm_compute. reflexivity.
Defined.

Lemma statuses_pass_through_witness :
  run_as_init (Some 2) [WaitGives 5 0; WaitFails EINTR; WaitGives 2 (exited_with 3); WaitGives 6 0] = Some 3%Z ∧
  ∃ code, run_as_init (Some 2) ([WaitGives 5 0; WaitFails EINTR] ++ WaitGives 2 9 :: []) = Some code ∧
    shell_status (exited_with code) = 137%Z.
Proof.
  split; [reflexivity|].
  destruct (statuses_pass_through 2 [WaitGives 5 0; WaitFails EINTR] [] 9) as (_ & _ & _ & code & H1 & H2);
    [by repeat constructor|].
  exists code. split; [exact H1|]. rewrite H2. reflexivity.
Defined.

(** Where the message with the device does not go out, as [send_result] does not
    look, the child waits to be acknowledged and the run for the device: nothing
    but the child's end lets it go on, and a stop does nothing. *)
Example lost_handoff_hangs :
  ∃ r, Runs.running (Runs.begin_run false ++ [Env StopRequested]) = Some r ∧ child_of r = HandedOver ∧
    Signalled ∉ log (world r) ∧
    ∀ e, program e = true → step Session.direntry_size Session.root e r = None.
Proof.
  eexists. split; [vm_compute; reflexivity|]. split; [reflexivity|]. split; [by apply (bool_decide_eq_false_1 _)|].
  intros e He. destruct e as [[]|[]|[]|[]]; try done.
Qed.

(** A child that is gone when it is released leaves nobody to write to, and the
    signal that raises ends the program. *)
Example release_can_end_the_program :
  ∃ r, Runs.running (Runs.begin_run true ++ [Main (Attaches true true (None, true, 0%Z) Session.root_stat); Main (Adds (Value 7));
      Env (ChildExits 9); Main (Releases false)]) = Some r ∧ at_main r = MainDied.
Proof. eexists. split; vm_compute; reflexivity. Qed.

(** Where [supervise] runs out of memory the session is over while the command
    still runs. *)
Example session_ends_before_the_command :
  ∃ r, Runs.running (Runs.under_way ++ [Sup SupThrows; Sup SupGoes; Sup SupGoes; Sup SupGoes]) = Some r ∧
    m_exited (srv r) = true ∧ child_of r = Commanding ∧ Signalled ∉ log (world r).
Proof. eexists. split; [vm_compute; reflexivity|]. split_and!; [done|done|by apply (bool_decide_eq_false_1 _)]. Qed.
