(* ===== verification/Expand.v ===== *)
(** * Reading and expanding the rules (src/builddirectorytree.cpp, its namespace-level functions)

    How the build tree reads a whole file, reads the manifest's rules, maps each
    output they declare to its command, and makes room for an output in its own
    tree or takes it away. The loops run on fuel, [None] when it runs out:
    ExpandSpec.v proves it never does. *)

From S2P Require Export Manifest InMemoryTree.

(** [k_manifest_name] and [k_placeholder_content]. *)
Definition k_manifest_name : path := of_string (lit "build.makebelieve").
Definition k_placeholder_content : str := ["000"%char].
Definition k_chunk : nat := Z.to_nat (64 * 1024).

Section reading.
Context {T : Type} `{DirectoryTree T}.

(** The loop of [read_all], with the bytes read so far. *)
Fixpoint read_chunks (fuel : nat) (t : T) (p : path) (content : str)
    : option (expected error_code str) :=
  match fuel with
  | 0 => None
  | S fuel' =>
      match read t p (Z.of_nat (length content)) k_chunk with
      | Unexpected e => Some (Unexpected e)
      | Value chunk =>
          if bool_decide (length chunk < k_chunk) then Some (Value (content ++ chunk))
          else read_chunks fuel' t p (content ++ chunk)
      end
  end.

(** One read more than the chunks the file had when looked at is enough, unless
    it grows meanwhile. *)
Definition read_all (t : T) (p : path) : option (expected error_code str) :=
  match status t p with
  | Unexpected e => Some (Unexpected e)
  | Value (ADirectory _) => Some (Unexpected (make_error_code is_a_directory))
  | Value (AFile f) => read_chunks (S (file_size f / k_chunk)) t p []
  end.
End reading.

(** ** The tree's own structure *)

(** The directories on the way to [p], outermost first. *)
Definition directories_to (p : path) : list path := rev (ancestors p).

Definition ensure_directory (now : Z) (d : path) (tree : Impl) : option Impl :=
  if has_value (status tree d) then Some tree else make_directory d now tree.

Fixpoint ensure_directories (now : Z) (ds : list path) (tree : Impl) : option Impl :=
  match ds with
  | [] => Some tree
  | d :: ds' => tree' ← ensure_directory now d tree; ensure_directories now ds' tree'
  end.

Definition ensure_parent_directories (now : Z) (out : path) (tree : Impl) : option Impl :=
  ensure_directories now (directories_to out) tree.

(** Stops at the first directory with anything left in it. *)
Fixpoint remove_empty (ds : list path) (tree : Impl) : option Impl :=
  match ds with
  | [] => Some tree
  | d :: ds' =>
      match ls tree d with
      | Value [] => tree' ← remove d tree; remove_empty ds' tree'
      | _ => Some tree
      end
  end.

Definition remove_with_empty_parents (out : path) (tree : Impl) : option Impl :=
  if has_value (status tree out) then
    tree' ← remove out tree;
    remove_empty (ancestors out) tree'
  else Some tree.

(** ** Names *)

Definition as_input (out : path) : path := of_string (lit "@") // out.

Definition to_string (a : Action) : str :=
  match a with
  | Run => lit "run"
  | Capture => lit "capture"
  | Copy => lit "copy"
  | Tracing => lit "tracing"
  end.

(** What a [tracing] output holds: the tracer's snapshot, or an empty trace. *)
Definition trace_snapshot (tracer : option str) : str :=
  match tracer with
  | Some snapshot => snapshot
  | None => lit "[]" ++ [newline]
  end.

(** ** The manifest *)

(** [std::error_code::message], the text of the error's category. *)
Section rules.
Context (error_text : error_code → str).

Definition describe_error (e : Error) : str :=
  format [generic_string k_manifest_name; lit ":"; show (line e); lit ": "; message e].

Definition read_rules {T} `{DirectoryTree T} (source : T) : option (expected str (list Rule)) :=
  manifest ← read_all source k_manifest_name;
  Some match manifest with
  | Unexpected e =>
      if decide (e = make_error_code no_such_file_or_directory) then Value []
      else Unexpected (format [generic_string k_manifest_name; lit ": "; error_text e])
  | Value text =>
      let parsed := parse text in
      if is_nil (manifest_errors parsed) then Value (manifest_rules parsed)
      else Unexpected (join_with newline (describe_error <$> manifest_errors parsed))
  end.
End rules.

(** ** Expansion *)

(** [Command] (src/commandrunner.hpp). *)
Record Command := { command_output : path; command_action : Action; command_text : str }.

#[global] Instance Command_eq_dec : EqDecision Command.
Proof. solve_decision. Defined.

Definition command_of (r : Rule) : Command := {|
  command_output := output r; command_action := action r; command_text := command r |}.

Definition declare (commands : gmap path Command) (r : Rule) : gmap path Command :=
  emplace (output r) (command_of r) commands.

(** What a wildcard rule declares for one entry of the directory it matches in. *)
Definition entry_match (rule : Rule) (e : TreeEntry) : option Rule :=
  match entry_info e with
  | AFile _ => instantiate rule (entry_name e)
  | ADirectory _ => None
  end.

Definition declare_rule {T} `{DirectoryTree T} (source : T) (commands : gmap path Command)
    (rule : Rule) : gmap path Command :=
  if negb (is_wildcard rule) then declare commands rule
  else if wildcard_over_outputs rule then commands
  else
    match ls source (parent_path (wildcard_source rule)) with
    | Unexpected _ => commands
    | Value entries => foldl declare commands (omap (entry_match rule) entries)
    end.

(** What a wildcard over outputs declares for an output, if it is new. *)
Definition output_match (rule : Rule) (commands : gmap path Command) (out : path) : option Rule :=
  if decide (parent_path out = parent_path (wildcard_source rule)) then
    matched ← instantiate rule (filename out);
    if decide (commands !! output matched = None) then Some matched else None
  else None.

Definition output_matches (rule : Rule) (commands : gmap path Command) : list Rule :=
  omap (λ c, output_match rule commands c.1) (in_order commands).

Definition round_rule (acc : gmap path Command * bool) (rule : Rule) : gmap path Command * bool :=
  let '(commands, added) := acc in
  if negb (wildcard_over_outputs rule) then acc
  else
    let found := output_matches rule commands in
    (foldl declare commands found, added || negb (is_nil found)).

Definition round (rules : list Rule) (commands : gmap path Command) : gmap path Command * bool :=
  foldl round_rule (commands, false) rules.

Fixpoint rounds (fuel : nat) (rules : list Rule) (commands : gmap path Command)
    : option (gmap path Command) :=
  match fuel with
  | 0 => None
  | S fuel' =>
      let '(commands', added) := round rules commands in
      if added then rounds fuel' rules commands' else Some commands'
  end.

(** Rules that cannot feed themselves add something in at most as many rounds
    as there are of them; one more finds nothing to add. *)
Definition expand_rules {T} `{DirectoryTree T} (source : T) (rules : list Rule)
    : option (gmap path Command) :=
  rounds (S (length rules)) rules (foldl (declare_rule source) ∅ rules).

Definition ex_manifest : str := lit
  ("@/bin/*.gz = capture gzip @/out/*.o" +:+ nl +:+ "@/out/*.o = run cc src/*.c" +:+ nl).
Definition ex_source_operations : list operation :=
  [MakeDirectory (of_string (lit "src")) 1; WriteFile (of_string (lit "src/a.c")) (lit "int") 2;
   WriteFile (of_string (lit "src/b.c")) (lit "long") 2; WriteFile k_manifest_name ex_manifest 3].
Definition ex_source : Impl := default create (perform_all ex_source_operations create).
Definition ex_commands : gmap path Command :=
  default ∅ (expand_rules ex_source (manifest_rules (parse ex_manifest))).
Example read_rules_ex : read_rules (λ _, []) ex_source = Some (Value (manifest_rules (parse ex_manifest))).
Proof. vm_compute. reflexivity. Qed.
Example expand_ex : (λ c, (generic_string c.1, command_text c.2)) <$> in_order ex_commands =
  [(lit "bin/a.gz", lit "gzip @/out/a.o"); (lit "bin/b.gz", lit "gzip @/out/b.o");
   (lit "out/a.o", lit "cc src/a.c"); (lit "out/b.o", lit "cc src/b.c")].
Proof. vm_compute. reflexivity. Qed.
