(* ===== verification/ExpandSpec.v ===== *)
(** * What reading and expanding the rules promise

    [read_all] gives the bytes of a file however many reads that takes; the
    expansion of a parsed manifest's rules ends, and declares exactly the least
    set of outputs closed under its wildcards. *)

From S2P Require Export ManifestSpec InMemoryTreeSpec Expand.

(** ** Whole files *)

Lemma k_chunk_pos : 0 < k_chunk.
Proof. unfold k_chunk. lia. Qed.

Section reading.
Context {T : Type} `{DirectoryTree T} (ok : T → Prop) `{!LawfulTree T ok} (t : T) (Ht : ok t).

Lemma read_chunks_spec p c fuel k :
  read_whole t p = Value c → k * k_chunk ≤ length (bytes c) → length (bytes c) < (k + fuel) * k_chunk →
  read_chunks fuel t p (take (k * k_chunk) (bytes c)) = Some (Value (bytes c)).
Proof.
  intros Hc. revert k. pose proof k_chunk_pos as Hpos.
  induction fuel as [|fuel IH]; intros k Hk Hfuel; [lia|]. cbn [read_chunks].
  rewrite length_take_le by done. rewrite (law_read t p c _ _ Ht Hc) by lia.
  rewrite Nat2Z.id, length_take, length_drop.
  rewrite take_take_drop. case_bool_decide as Hlt.
  - do 2 f_equal. apply take_ge. lia.
  - replace (k * k_chunk + k_chunk) with (S k * k_chunk) by lia. apply IH; lia.
Qed.

Lemma read_all_spec (p : path) :
  read_all t p = Some match status t p with
                      | Unexpected e => Unexpected e
                      | Value _ => c ← read_whole t p; Value (bytes c)
                      end.
Proof.
  unfold read_all. destruct (status t p) as [[f|d]|e] eqn:E; [| |done].
  - pose proof E as (c & Hc & Hf)%(law_file t p f Ht). rewrite Hc. simpl mbind.
    apply (read_chunks_spec p c _ 0 Hc); [lia|].
    rewrite <- Hf, (law_size t p c Ht Hc). pose proof k_chunk_pos.
    rewrite Nat.add_0_l, Nat.mul_comm. apply Nat.mul_succ_div_gt. lia.
  - rewrite (law_directory t p Ht); [done|by exists d].
Qed.

(** [read_all] puts a file together from as many reads as it takes, and
    comes to an end: it gives the file's bytes, or the error that stopped it,
    just as reading the file whole does. *)
Theorem read_all_reads_whole (p : path) :
  read_all t p = Some match status t p with
                      | Unexpected e => Unexpected e
                      | Value _ => c ← read_whole t p; Value (bytes c)
                      end.
Proof. apply read_all_spec. Qed.
End reading.

(** ** What a parsed rule is *)

Lemma read_line_over st text lhs r copied :
  read_line st text = Value (lhs, r, copied) → wildcard_over_outputs r = true → is_wildcard r = true.
Proof.
  intros Hr. pose proof (read_line_admissible _ _ _ _ _ Hr) as Hadm. revert Hr.
  unfold read_line. intros H.
  apply bind_Value in H as ([[l act] argument] & _ & H).
  apply bind_Value in H as ([source over] & Hsource & H).
  apply bind_Value in H as ([cmd cop] & _ & H).
  apply bind_Value in H as (out & _ & H).
  apply bind_Value in H as ([] & _ & H). apply bind_Value in H as ([] & _ & H).
  injection H as <- <- <-. simpl. intros ->.
  destruct (contains_char star l) eqn:E; [|by injection Hsource].
  unfold read_sources in Hsource.
  apply bind_Value in Hsource as (? & _ & Hsource). apply bind_Value in Hsource as (? & _ & Hsource).
  destruct (contains_char quote2 _ || _) in Hsource; [done|].
  destruct (to_inside_path _) as [q|] eqn:Hq in Hsource; [|done].
  destruct (is_wildcard_pattern q); [|done]. injection Hsource as <- _.
  apply to_inside_path_inside in Hq as [_ Hne _]. unfold is_wildcard, is_empty; simpl.
  destruct q as [? [|??]]; simpl in *; [done|]. by rewrite andb_false_r.
Qed.

Lemma parse_lines_rules (P : Rule → Prop) number texts st :
  (∀ st text lhs r copied, read_line st text = Value (lhs, r, copied) → P r) →
  (∀ r, r ∈ rules st → P r) → ∀ r, r ∈ rules (parse_lines number texts st) → P r.
Proof.
  intros HP. revert number st. induction texts as [|text texts IH]; intros number st Hst; simpl; [done|].
  apply IH. unfold parse_line. destruct (is_skipped _); [done|].
  destruct (read_line _ _) as [[[lhs r] copied]|] eqn:E; simpl; [|done].
  intros r'. rewrite elem_of_app, list_elem_of_singleton. intros [?| ->]; [auto|by eapply HP].
Qed.

Lemma parse_rules_over text r :
  r ∈ manifest_rules (parse text) → wildcard_over_outputs r = true → is_wildcard r = true.
Proof.
  intros Hr. eapply elem_of_sublist in Hr; [|apply keep_rules_sublist].
  revert Hr. apply (parse_lines_rules (λ r, wildcard_over_outputs r = true → is_wildcard r = true));
    [|by intros ? ?%elem_of_nil].
  intros. by eapply read_line_over.
Qed.

(** What the expansion relies on of its rules. *)
Record expandable (rs : list Rule) : Prop := {
  exp_apart : StronglySorted apart rs;
  exp_inside r : r ∈ rs → inside (output r);
  exp_source r : r ∈ rs → is_wildcard r = true → inside (wildcard_source r);
  exp_over r : r ∈ rs → wildcard_over_outputs r = true → is_wildcard r = true;
  exp_acyclic i : (i, i) ∉ feeds_of rs;
}.

Lemma parse_expandable text : expandable (manifest_rules (parse text)).
Proof.
  destruct (parse_rules_ok text) as [Hapart Hok]. constructor.
  - done.
  - intros r Hr. by apply Hok.
  - intros r Hr Hw. by apply Hok.
  - apply parse_rules_over.
  - intros i Hi%feeds_of_spec. apply kept_feeds in Hi as [Hi Hdrop]. apply Hdrop.
    unfold dropped. rewrite elem_of_app. right. by apply elem_of_endless.
Qed.

(** ** Where outputs come from *)

(** [m] is what the wildcard [r] stands for at the source [name]: the name is the
    pattern of the sources with a stem for its star, and the stem takes the place
    of the stars of the output and the command. *)
Definition stands_for (r : Rule) (name : str) (m : Rule) : Prop :=
  ∃ stem : str, stem ≠ [] ∧
    name = Manifest.prefix (name_pattern (filename (wildcard_source r))) ++ stem ++
           Manifest.suffix (name_pattern (filename (wildcard_source r))) ∧
    m = {| output := parent_path (output r) //
                     of_string (Manifest.prefix (name_pattern (filename (output r))) ++ stem ++
                                Manifest.suffix (name_pattern (filename (output r))));
           action := action r;
           command := substitute_stem stem (command r);
           wildcard_source := no_path;
           wildcard_over_outputs := false |}.

Lemma instantiate_stands r name m : instantiate r name = Some m ↔ stands_for r name m.
Proof. apply instantiate_iff. Qed.

(** The rules in force: those without a wildcard, and for each wildcard one per
    file of the source directory, or per output of the rules in force, that it
    matches. *)
Section expansion.
Context {T : Type} `{DirectoryTree T} (ok : T → Prop) `{!LawfulTree T ok} (source : T).

Inductive declared (rs : list Rule) : Rule → Prop :=
  | declared_simple r : r ∈ rs → is_wildcard r = false → declared rs r
  | declared_source r es name f m :
      r ∈ rs → is_wildcard r = true → wildcard_over_outputs r = false →
      ls source (parent_path (wildcard_source r)) = Value es →
      {| entry_name := name; entry_info := AFile f |} ∈ es →
      stands_for r name m → declared rs m
  | declared_output r m m' :
      r ∈ rs → wildcard_over_outputs r = true → declared rs m →
      parent_path (output m) = parent_path (wildcard_source r) →
      stands_for r (filename (output m)) m' → declared rs m'.

Context (rs : list Rule) (Hrs : expandable rs) (Hsource : ok source).

Definition instance_of (r m : Rule) : Prop :=
  is_wildcard r = false ∧ m = r ∨
  is_wildcard r = true ∧ ∃ name, slash ∉ name ∧ instantiate r name = Some m.

Lemma instance_produces r m : instance_of r m → produces r (output m).
Proof.
  intros [[Hw ->]|(Hw & name & Hs & Hi)]; [by constructor|by apply (produces_match r name)].
Qed.

Lemma inside_canonical_parent p : inside p → canonical (parent_path p).
Proof. intros Hp. split; [by destruct Hp|by apply inside_parent]. Qed.

Lemma instance_filename r m :
  r ∈ rs → instance_of r m → slash ∉ filename (output m).
Proof.
  intros Hr [[Hw ->]|(Hw & name & Hs & Hi)].
  - by apply (inside_filename _ (exp_inside _ Hrs r Hr)).
  - pose proof (exp_inside _ Hrs r Hr) as Hin.
    apply instantiate_inv in Hi as (stem & _ & -> & -> & _); [|done..].
    rewrite filename_output_of_stem. pose proof (slash_free_pattern _ Hin) as [??].
    unfold source_of_stem in Hs. rewrite !elem_of_app in *. tauto.
Qed.

Lemma declared_instance m : declared rs m → ∃ r, r ∈ rs ∧ instance_of r m.
Proof.
  induction 1 as [r Hr Hw|r es n f m Hr Hw Hover Hls He Hm%instantiate_stands
    |r m m' Hr Hover _ (r0 & Hr0 & Hm0) _ Hm'%instantiate_stands].
  - exists r. split; [done|by left].
  - exists r. split; [done|]. right. split; [done|]. exists n. split; [|done].
    pose proof (inside_canonical_parent _ (exp_source _ Hrs r Hr Hw)) as Hc.
    destruct (law_entries source _ es Hsource Hc Hls) as [_ Hes].
    by apply Hes in He as [(_ & _ & _ & ?) _].
  - exists r. split; [done|]. right. split; [by apply (exp_over _ Hrs)|].
    eexists. split; [|done]. by apply (instance_filename r0).
Qed.

(** Two rules in force never share an output. *)
Lemma declared_unique m1 m2 :
  declared rs m1 → declared rs m2 → output m1 = output m2 → m1 = m2.
Proof.
  intros Hm1 Hm2 E. destruct (declared_instance _ Hm1) as (r1 & Hr1 & H1).
  destruct (declared_instance _ Hm2) as (r2 & Hr2 & H2). clear Hm1 Hm2.
  assert (r1 = r2) as <-.
  { apply list_elem_of_lookup in Hr1 as [i Hi], Hr2 as [j Hj].
    apply instance_produces in H1, H2. rewrite E in H1.
    destruct (lt_eq_lt_dec i j) as [[Hij|Hij]|Hij].
    - destruct (StronglySorted_lookup _ _ _ _ _ _ (exp_apart _ Hrs) Hi Hj Hij _ _ H1 H2). done.
    - congruence.
    - destruct (StronglySorted_lookup _ _ _ _ _ _ (exp_apart _ Hrs) Hj Hi Hij _ _ H2 H1). done. }
  pose proof (exp_inside _ Hrs r1 Hr1) as Hin.
  destruct H1 as [[Hw1 ->]|(Hw1 & n1 & Hs1 & Hi1)], H2 as [[Hw2 ->]|(Hw2 & n2 & Hs2 & Hi2)];
    [done|congruence..|].
  pose proof Hi1 as (stem1 & _ & -> & Ho1 & _)%instantiate_inv; [|done..].
  pose proof Hi2 as (stem2 & _ & -> & Ho2 & _)%instantiate_inv; [|done..].
  rewrite Ho1, Ho2 in E. apply output_of_stem_inj in E as ->. congruence.
Qed.

(** ** Soundness of a step *)

Definition sound_commands (cs : gmap path Command) : Prop :=
  ∀ o c, cs !! o = Some c → ∃ m, declared rs m ∧ output m = o ∧ c = command_of m.

Lemma declare_sound cs m : sound_commands cs → declared rs m → sound_commands (declare cs m).
Proof.
  intros Hcs Hm o c. unfold declare. rewrite lookup_emplace. destruct (cs !! o) eqn:E.
  - intros [= <-]. by apply Hcs.
  - case_decide; [|done]. intros [= <-]. by exists m.
Qed.

Lemma declares_sound cs ms :
  sound_commands cs → (∀ m, m ∈ ms → declared rs m) → sound_commands (foldl declare cs ms).
Proof.
  revert cs. induction ms as [|m ms IH]; intros cs Hcs Hms; simpl; [done|].
  apply IH; [|set_solver]. apply declare_sound; [done|]. apply Hms. left.
Qed.

Lemma dom_declares ms cs p :
  p ∈ dom (foldl declare cs ms) ↔ p ∈ dom cs ∨ ∃ m, m ∈ ms ∧ output m = p.
Proof.
  revert cs. induction ms as [|m ms IH]; intros cs; simpl.
  - split; [by left|]. intros [?|(m & ?%elem_of_nil & _)]; done.
  - rewrite IH. unfold declare. rewrite elem_of_dom_emplace. setoid_rewrite elem_of_cons. naive_solver.
Qed.

Lemma entry_matches_declared r es m :
  r ∈ rs → is_wildcard r = true → wildcard_over_outputs r = false →
  ls source (parent_path (wildcard_source r)) = Value es →
  m ∈ omap (entry_match r) es → declared rs m.
Proof.
  intros ???? ([n [f|d]] & He & Hm)%list_elem_of_omap; [|done]. by eapply declared_source, instantiate_stands.
Qed.

Lemma declare_rule_sound cs r :
  r ∈ rs → sound_commands cs → sound_commands (declare_rule source cs r).
Proof.
  intros Hr Hcs. unfold declare_rule. destruct (is_wildcard r) eqn:Hw; simpl.
  - destruct (wildcard_over_outputs r) eqn:Ho; [done|].
    destruct (ls source _) as [es|] eqn:Hls; [|done].
    apply declares_sound; [done|]. intros m. by apply entry_matches_declared.
  - apply declare_sound; [done|]. by constructor.
Qed.

Lemma output_match_Some r cs o m :
  output_match r cs o = Some m ↔
  parent_path o = parent_path (wildcard_source r) ∧ instantiate r (filename o) = Some m ∧
  cs !! output m = None.
Proof.
  unfold output_match. case_decide as Hp; [|naive_solver].
  destruct (instantiate r (filename o)) as [m'|]; simpl; [|naive_solver].
  case_decide; split; [by intros [= ->]|by intros (_ & [= ->] & _)|done|].
  by intros (_ & [= ->] & ?).
Qed.

Lemma elem_of_output_matches r cs m :
  m ∈ output_matches r cs ↔ ∃ o, o ∈ dom cs ∧ output_match r cs o = Some m.
Proof.
  unfold output_matches. rewrite list_elem_of_omap. split.
  - intros ([o c] & Ho%elem_of_in_order & Hm). exists o. split; [by apply elem_of_dom_2 in Ho|done].
  - intros (o & [c Hc]%elem_of_dom & Hm). exists (o, c). split; [by apply elem_of_in_order|done].
Qed.

Lemma output_matches_declared r cs m :
  r ∈ rs → wildcard_over_outputs r = true → sound_commands cs →
  m ∈ output_matches r cs → declared rs m.
Proof.
  intros Hr Hover Hcs (o & [c Hc]%elem_of_dom & (Hp & Hi & _)%output_match_Some)%elem_of_output_matches.
  apply Hcs in Hc as (m0 & Hm0 & <- & _). by eapply declared_output, instantiate_stands.
Qed.

Lemma round_rule_sound cs b r :
  r ∈ rs → sound_commands cs → sound_commands (round_rule (cs, b) r).1.
Proof.
  intros Hr Hcs. unfold round_rule. destruct (wildcard_over_outputs r) eqn:Hover; simpl; [|done].
  apply declares_sound; [done|]. intros m. by apply output_matches_declared.
Qed.

(** ** Rounds *)

(** Rule [r] would add nothing to [cs]. *)
Definition closed_under (r : Rule) (cs : gmap path Command) : Prop :=
  ∀ p m, p ∈ dom cs → parent_path p = parent_path (wildcard_source r) →
    instantiate r (filename p) = Some m → output m ∈ dom cs.

Lemma output_matches_nil r cs : output_matches r cs = [] ↔ closed_under r cs.
Proof.
  split.
  - intros E p m Hp Hpar Hi. apply dec_stable. intros Hn%not_elem_of_dom.
    assert (m ∈ output_matches r cs) as Hm.
    { apply elem_of_output_matches. exists p. by rewrite output_match_Some. }
    rewrite E in Hm. by apply elem_of_nil in Hm.
  - intros Hc. destruct (output_matches r cs) as [|m ms] eqn:E; [done|].
    assert (m ∈ output_matches r cs) as Hm by (rewrite E; left).
    apply elem_of_output_matches in Hm as (p & Hp & (Hpar & Hi & Hn)%output_match_Some).
    apply (Hc p m Hp Hpar), elem_of_dom in Hi as [? ?]. congruence.
Qed.

(** How many rules feed rule [i], directly or through others. *)
Definition fed_by (i : nat) : gset nat := filter (λ a, (a, i) ∈ feeds_of rs) (set_seq 0 (length rs)).
Definition rank (i : nat) : nat := size (fed_by i).

Lemma elem_of_fed_by a i : a ∈ fed_by i ↔ (a, i) ∈ feeds_of rs.
Proof.
  unfold fed_by. rewrite elem_of_filter, elem_of_set_seq. split; [by intros [? _]|]. intros Ha.
  split; [done|]. apply feeds_of_spec in Ha.
  inversion Ha as [? ? (x&y&Hx%lookup_lt_Some&_)|? ? ? (x&y&Hx%lookup_lt_Some&_)]; subst; lia.
Qed.

Lemma rank_bound i : i < length rs → rank i < length rs.
Proof.
  intros Hi. unfold rank. rewrite <- (size_set_seq (C := gset nat) 0 (length rs)).
  apply subset_size. split; [unfold fed_by; set_solver|]. intros Hsub.
  apply (exp_acyclic _ Hrs i), elem_of_fed_by, Hsub, elem_of_set_seq. lia.
Qed.

Lemma rank_feeds i j : feeds_rel rs i j → rank i < rank j.
Proof.
  intros Hij. unfold rank. apply (subset_size (C := gset nat)). split.
  - intros a. rewrite !elem_of_fed_by, !feeds_of_spec. intros Ha. eapply tc_r; [done|done].
  - intros Hsub. apply (exp_acyclic _ Hrs i), elem_of_fed_by, Hsub, elem_of_fed_by, feeds_of_spec.
    by constructor.
Qed.

Lemma sound_filename cs p : sound_commands cs → p ∈ dom cs → slash ∉ filename p.
Proof.
  intros Hcs [c Hc]%elem_of_dom. apply Hcs in Hc as (m & Hm & <- & _).
  apply declared_instance in Hm as (r & Hr & Hm). by apply (instance_filename r).
Qed.

(** What a wildcard adds is matched only by rules it feeds. *)
Lemma added_feeds cs i j r s m m' :
  rs !! i = Some r → rs !! j = Some s → wildcard_over_outputs r = true → wildcard_over_outputs s = true →
  sound_commands cs → m ∈ output_matches r cs →
  parent_path (output m) = parent_path (wildcard_source s) → instantiate s (filename (output m)) = Some m' →
  feeds_rel rs i j.
Proof.
  intros Hi Hj Hr Hs Hcs (p & Hp & (_ & Hm & _)%output_match_Some)%elem_of_output_matches Hpar Hm'.
  exists r, s. split_and!; [done..|]. pose proof (list_elem_of_lookup_2 _ _ _ Hi) as Hin.
  pose proof (exp_inside _ Hrs r Hin) as Hout.
  apply instantiate_inv in Hm as (stem & Hne & _ & Ho & _); [|done|by eapply sound_filename].
  rewrite Ho in Hpar, Hm'. rewrite parent_output_of_stem in Hpar by done.
  apply instantiate_iff in Hm' as (stem' & Hne' & E & _).
  unfold feeds_directly. rewrite (exp_over _ Hrs r Hin Hr), Hs, bool_decide_eq_true_2 by done. simpl.
  apply overlaps_complete with (filename (output_of_stem r stem)); apply matches_iff.
  - exists stem. by rewrite filename_output_of_stem.
  - by exists stem'.
Qed.

Definition closed_up_to (k : nat) (cs : gmap path Command) : Prop :=
  ∀ j s, rs !! j = Some s → wildcard_over_outputs s = true → rank j < k → closed_under s cs.

Lemma round_rule_closes k i r cs b j s :
  rs !! i = Some r → rs !! j = Some s → wildcard_over_outputs s = true → rank j ≤ k →
  sound_commands cs → closed_up_to k cs → i = j ∨ closed_under s cs →
  closed_under s (round_rule (cs, b) r).1.
Proof.
  intros Hi Hj Hs Hk Hcs Hclosed Hor. unfold round_rule.
  destruct (wildcard_over_outputs r) eqn:Hr; simpl; [|destruct Hor; [congruence|done]].
  intros p m' [Hp|(m & Hm & <-)]%dom_declares Hpar Hm'; apply dom_declares.
  - destruct Hor as [->|Hs']; [|left; by eapply Hs']. assert (r = s) as <- by congruence.
    destruct (decide (output m' ∈ dom cs)) as [?|Hn%not_elem_of_dom]; [by left|right].
    exists m'. split; [|done]. apply elem_of_output_matches. exists p. by rewrite output_match_Some.
  - exfalso. assert (rank i < rank j) by (by eapply rank_feeds, added_feeds).
    assert (output_matches r cs = []) as E.
    { apply output_matches_nil, (Hclosed i); [done..|lia]. }
    rewrite E in Hm. by apply elem_of_nil in Hm.
Qed.

Lemma round_closes k l1 l2 cs b :
  rs = l1 ++ l2 → sound_commands cs → closed_up_to k cs →
  (∀ j s, j < length l1 → rs !! j = Some s → wildcard_over_outputs s = true → rank j ≤ k →
          closed_under s cs) →
  sound_commands (foldl round_rule (cs, b) l2).1 ∧ closed_up_to (S k) (foldl round_rule (cs, b) l2).1.
Proof.
  revert l1 cs b. induction l2 as [|r l2 IH]; intros l1 cs b E Hcs Hclosed Hdone.
  - simpl. rewrite app_nil_r in E. subst l1. split; [done|]. intros j s Hj Hs Hk.
    eapply Hdone; [by eapply lookup_lt_Some|done..|lia].
  - assert (rs !! length l1 = Some r) as Hi by (rewrite E; by apply list_lookup_middle).
    pose proof (round_rule_closes k (length l1) r cs b) as Hstep.
    pose proof (round_rule_sound cs b r (list_elem_of_lookup_2 _ _ _ Hi) Hcs) as Hcs'. cbn [fst] in Hstep.
    cbn [foldl]. destruct (round_rule (cs, b) r) as [cs' b'] eqn:Er. simpl in Hstep, Hcs'.
    apply (IH (l1 ++ [r])); [by rewrite <- app_assoc|done|..].
    + intros j s Hj Hs Hk. apply (Hstep j); [done..|lia|done|done|]. right. by eapply Hclosed.
    + intros j s Hlt Hj Hs Hk. rewrite length_app in Hlt. simpl in Hlt.
      apply (Hstep j); [done..|]. destruct (decide (j = length l1)); [by left|right].
      apply (Hdone j); [lia|done..].
Qed.

Lemma round_settled l cs b :
  (∀ r, r ∈ l → wildcard_over_outputs r = true → closed_under r cs) →
  foldl round_rule (cs, b) l = (cs, b).
Proof.
  induction l as [|r l IH]; intros Hl; [done|]. cbn [foldl]. unfold round_rule at 2.
  destruct (wildcard_over_outputs r) eqn:Hr; simpl.
  - rewrite (proj2 (output_matches_nil r cs)) by (apply Hl; [left|done]). simpl.
    rewrite orb_false_r. apply IH. intros. apply Hl; [by right|done].
  - apply IH. intros. apply Hl; [by right|done].
Qed.

Lemma round_grows l cs b : dom cs ⊆ dom (foldl round_rule (cs, b) l).1.
Proof.
  revert cs b. induction l as [|r l IH]; intros cs b; [done|]. cbn [foldl].
  unfold round_rule at 2. destruct (wildcard_over_outputs r); simpl; [|apply IH].
  etrans; [|apply IH]. intros p Hp. apply dom_declares. by left.
Qed.

Lemma round_adds l cs : (foldl round_rule (cs, true) l).2 = true.
Proof.
  revert cs. induction l as [|r l IH]; intros cs; [done|]. cbn [foldl]. unfold round_rule at 2.
  destruct (wildcard_over_outputs r); apply IH.
Qed.

Lemma round_not_added l cs b :
  (foldl round_rule (cs, b) l).2 = false →
  (foldl round_rule (cs, b) l).1 = cs ∧ ∀ r, r ∈ l → wildcard_over_outputs r = true → closed_under r cs.
Proof.
  revert cs b. induction l as [|r l IH]; intros cs b; [by split; [|intros ? ?%elem_of_nil]|]. cbn [foldl].
  unfold round_rule at 2 4. destruct (wildcard_over_outputs r) eqn:Hr; simpl.
  - destruct (output_matches r cs) as [|m ms] eqn:E; simpl.
    2: { rewrite orb_true_r. intros Hf. by rewrite round_adds in Hf. }
    intros [-> Hl]%IH. split; [done|]. intros s [->|Hs]%elem_of_cons Ho; [by apply output_matches_nil|auto].
  - intros [-> Hl]%IH. split; [done|]. intros s [->|Hs]%elem_of_cons Ho; [congruence|auto].
Qed.

Definition all_closed (cs : gmap path Command) : Prop :=
  ∀ r, r ∈ rs → wildcard_over_outputs r = true → closed_under r cs.

Lemma rounds_settle fuel k cs :
  sound_commands cs → closed_up_to k cs → length rs ≤ k + fuel →
  ∃ cs', (∀ more, rounds (S fuel + more) rs cs = Some cs') ∧
    sound_commands cs' ∧ dom cs ⊆ dom cs' ∧ all_closed cs'.
Proof.
  revert k cs. induction fuel as [|fuel IH]; intros k cs Hcs Hk Hlen.
  - assert (all_closed cs) as Hall.
    { intros r Hr Ho. apply list_elem_of_lookup in Hr as [i Hi]. apply (Hk i); [done..|].
      pose proof (rank_bound i (lookup_lt_Some _ _ _ Hi)). lia. }
    exists cs. split; [|done]. intros more. simpl. unfold round. by rewrite (round_settled rs cs false Hall).
  - destruct (round_closes k [] rs cs false eq_refl Hcs Hk) as [Hcs' Hk']; [simpl; lia|].
    pose proof (round_grows rs cs false) as Hgrow. pose proof (round_not_added rs cs false) as Hnot.
    destruct (foldl round_rule (cs, false) rs) as [cs' added] eqn:E. simpl in *.
    destruct added.
    + destruct (IH (S k) cs' Hcs' Hk') as (cs'' & Hr & Hs & Hd & Hc); [lia|].
      exists cs''. split; [|split_and!; [done|by etrans|done]].
      intros more. unfold round. rewrite E. apply Hr.
    + destruct (Hnot eq_refl) as [-> Hc]. exists cs. split; [|done].
      intros more. unfold round. by rewrite E.
Qed.

Definition declared_at_once : gmap path Command := foldl (declare_rule source) ∅ rs.

Lemma declare_rules_sound l cs :
  (∀ r, r ∈ l → r ∈ rs) → sound_commands cs → sound_commands (foldl (declare_rule source) cs l).
Proof.
  revert cs. induction l as [|r l IH]; intros cs Hl Hcs; [done|]. cbn [foldl].
  apply IH; [set_solver|]. apply declare_rule_sound; [apply Hl; left|done].
Qed.

Lemma declare_rule_grows cs r : dom cs ⊆ dom (declare_rule source cs r).
Proof.
  intros p Hp. unfold declare_rule. destruct (is_wildcard r); simpl.
  - destruct (wildcard_over_outputs r); [done|]. destruct (ls source _); [|done].
    apply dom_declares. by left.
  - apply elem_of_dom_emplace. by right.
Qed.

Lemma declare_rules_grow l cs : dom cs ⊆ dom (foldl (declare_rule source) cs l).
Proof.
  revert cs. induction l as [|r l IH]; intros cs; [done|]. cbn [foldl].
  etrans; [apply declare_rule_grows|apply IH].
Qed.

(** What a rule declares by itself. *)
Definition declares (r m : Rule) : Prop :=
  is_wildcard r = false ∧ m = r ∨
  is_wildcard r = true ∧ wildcard_over_outputs r = false ∧
  ∃ es e, ls source (parent_path (wildcard_source r)) = Value es ∧ e ∈ es ∧ entry_match r e = Some m.

Lemma declare_rules_complete l cs r m :
  r ∈ l → declares r m → output m ∈ dom (foldl (declare_rule source) cs l).
Proof.
  revert cs. induction l as [|r' l IH]; intros cs Hr Hm; [by apply elem_of_nil in Hr|]. cbn [foldl].
  apply elem_of_cons in Hr as [<-|Hr]; [|by apply IH]. apply declare_rules_grow.
  unfold declare_rule. destruct Hm as [[-> ->]|(-> & -> & es & e & -> & He & Hm)]; simpl.
  - apply elem_of_dom_emplace. by left.
  - apply dom_declares. right. exists m. split; [|done]. apply list_elem_of_omap. by exists e.
Qed.

Lemma declared_complete cs m :
  dom declared_at_once ⊆ dom cs → all_closed cs → declared rs m → output m ∈ dom cs.
Proof.
  intros Hd Hc. induction 1 as [r Hr Hw|r es n f m Hr Hw Ho Hls He Hm%instantiate_stands
    |r m m' Hr Ho Hm IH Hp Hi%instantiate_stands].
  - apply Hd, (declare_rules_complete rs ∅ r); [done|by left].
  - apply Hd, (declare_rules_complete rs ∅ r); [done|]. right. split_and!; [done..|]. by eexists es, _.
  - by apply (Hc r Hr Ho (output m)).
Qed.

Lemma expansion_spec :
  ∃ cs, (∀ more, rounds (S (length rs) + more) rs declared_at_once = Some cs) ∧
    ∀ o c, cs !! o = Some c ↔ ∃ m, declared rs m ∧ output m = o ∧ c = command_of m.
Proof.
  destruct (rounds_settle (length rs) 0 declared_at_once) as (cs & Hcs & Hs & Hd & Hc).
  - by apply declare_rules_sound.
  - intros ? ? ? ? ?. lia.
  - lia.
  - exists cs. split; [done|]. intros o c. split; [apply Hs|]. intros (m & Hm & <- & ->).
    pose proof (declared_complete cs m Hd Hc Hm) as [c Hlook]%elem_of_dom.
    rewrite Hlook. apply Hs in Hlook as (m' & Hm' & E & ->). by rewrite (declared_unique m' m Hm' Hm E).
Qed.
End expansion.

Section parsed.
Context {T : Type} `{DirectoryTree T} (ok : T → Prop) `{!LawfulTree T ok}.

(** Expanding the rules of a manifest ends: [expand_rules] goes round at most
    once more than there are rules, whatever files the wildcards match, and going
    on would add nothing. *)
Theorem expansion_ends (source : T) (text : str) :
  ok source →
  ∃ cs, expand_rules source (manifest_rules (parse text)) = Some cs ∧
    ∀ fuel, length (manifest_rules (parse text)) < fuel →
      rounds fuel (manifest_rules (parse text))
        (foldl (declare_rule source) ∅ (manifest_rules (parse text))) = Some cs.
Proof.
  intros Hok. destruct (expansion_spec ok source _ (parse_expandable text) Hok) as (cs & Hcs & _).
  exists cs. split; [by rewrite <- (Hcs 0), Nat.add_0_r|]. intros fuel Hfuel.
  rewrite <- (Hcs (fuel - S (length (manifest_rules (parse text))))). f_equal. lia.
Qed.

(** C32. [expand_rules] comes to an end on the rules of any manifest, and the
    commands it finds are exactly those of the rules in force: the rules without
    a wildcard, one per file - never a directory - of the directory a wildcard
    takes its sources from whose name is its pattern with a stem for the star,
    and one per output of the rules in force that is in the directory of a
    wildcard over outputs and is named so. *)
Theorem expansion_exact (source : T) (text : str) :
  ok source →
  ∃ cs, expand_rules source (manifest_rules (parse text)) = Some cs ∧
    ∀ o c, cs !! o = Some c ↔
      ∃ m, declared source (manifest_rules (parse text)) m ∧ output m = o ∧ c = command_of m.
Proof.
  intros Hok. destruct (expansion_spec ok source _ (parse_expandable text) Hok) as (cs & Hcs & Hiff).
  exists cs. split; [|done]. by rewrite <- (Hcs 0), Nat.add_0_r.
Qed.
End parsed.

(** ** The theorems at work *)

Lemma ex_source_built : perform_all ex_source_operations create = Some ex_source.
Proof.
  unfold ex_source. assert (bool_decide (is_Some (perform_all ex_source_operations create)) = true) as [s E]%bool_decide_eq_true
    by (vm_compute; reflexivity).
  by rewrite E.
Qed.

Lemma ex_source_well_formed : well_formed ex_source.
Proof.
  apply (perform_all_well_formed ex_source_operations create); [apply create_well_formed| |apply ex_source_built].
  repeat constructor; simpl; apply names_entry_of_string; by vm_compute.
Qed.

Lemma ex_commands_expand : expand_rules ex_source (manifest_rules (parse ex_manifest)) = Some ex_commands.
Proof.
  unfold ex_commands.
  assert (bool_decide (is_Some (expand_rules ex_source (manifest_rules (parse ex_manifest)))) = true)
    as [cs E]%bool_decide_eq_true by (vm_compute; reflexivity).
  by rewrite E.
Qed.

Lemma read_all_reads_whole_witness :
  read_all ex_source (of_string (lit "src/b.c")) =
    Some (c ← read_whole ex_source (of_string (lit "src/b.c")); Value (bytes c)) ∧
  read_all ex_source (of_string (lit "src")) = Some (Unexpected (make_error_code is_a_directory)).
Proof.
  rewrite !(read_all_reads_whole well_formed ex_source ex_source_well_formed).
  split; vm_compute; reflexivity.
Defined.

Lemma expansion_ends_witness :
  ∃ cs, expand_rules ex_source (manifest_rules (parse ex_manifest)) = Some cs ∧
    ∀ fuel, length (manifest_rules (parse ex_manifest)) < fuel →
      rounds fuel (manifest_rules (parse ex_manifest))
        (foldl (declare_rule ex_source) ∅ (manifest_rules (parse ex_manifest))) = Some cs.
Proof. exact (expansion_ends well_formed ex_source ex_manifest ex_source_well_formed). Defined.

Lemma expansion_exact_witness :
  let gzip := {| command_output := of_string (lit "bin/a.gz"); command_action := Capture;
                 command_text := lit "gzip @/out/a.o" |} in
  ex_commands !! of_string (lit "bin/a.gz") = Some gzip ∧
  ∃ m, declared ex_source (manifest_rules (parse ex_manifest)) m ∧
    output m = of_string (lit "bin/a.gz") ∧ gzip = command_of m.
Proof.
  cbv zeta. assert (ex_commands !! of_string (lit "bin/a.gz") =
    Some {| command_output := of_string (lit "bin/a.gz"); command_action := Capture; command_text := lit "gzip @/out/a.o" |})
    as E by (vm_compute; reflexivity).
  split; [exact E|].
  destruct (expansion_exact well_formed ex_source ex_manifest ex_source_well_formed) as (cs & Hcs & Hiff).
  apply Hiff. rewrite (Some_inj cs ex_commands (eq_trans (eq_sym Hcs) ex_commands_expand)). exact E.
Defined.
