(* ===== verification/Cache.v ===== *)
(** * The cache as the build tree sees it (src/buildcache.hpp)

    What a build cache keeps, and the interface the build tree calls it through.
    Where the tree swallows an exception, the interface gives the cache as the
    call leaves it, and for [forget], which more calls follow, whether it throws. *)

From S2P Require Export Expand.

(** [BuildCache::Input]: a stamp of a source file or directory (its size -1), or
    the hash of an output that was read. *)
Record Input := { input_path : path; input_mtime : Z; input_size : Z; input_hash : str }.
#[global] Instance Input_eq_dec : EqDecision Input.
Proof. solve_decision. Defined.

(** [BuildCache::Record]. *)
Record CacheRecord := {
  record_command : Command;
  record_hash : str;
  record_mtime : Z;
  record_inputs : list Input;
}.
#[global] Instance CacheRecord_eq_dec : EqDecision CacheRecord.
Proof. solve_decision. Defined.

Class Cache (C : Type) := {
  (** [None] where it throws. *)
  records : C → option (list CacheRecord);
  read_content : C → str → expected error_code str;
  store : Command → str → Z → list Input → C → C;
  forget : list path → C → C;
  forget_throws : list path → C → bool;
  collect_garbage : C → C;
  hash_bytes : str → str;
}.
