(* ===== verification/BuildTree.v ===== *)
(** * The build directory tree (src/builddirectorytree.hpp, src/builddirectorytree.cpp)

    [BuildDirectoryTree::Impl] and its operations. Each definition here is one
    stretch of code under a lock, or between locks, and runs as a whole; what
    can run in between is the business of BuildTreeRun.v. A stretch under
    [m_layout_mutex] is one definition together with the [m_mutex] stretch in
    it: nothing else changes [m_structure] or [m_commands] meanwhile. [None] is
    an assertion that fails or a lookup that throws.

    The coordinator is known by the calls made on it, attempts by the order
    they were created in; the rows builds are traced on are left out. *)

From S2P Require Export Expand Cache.

(** The calls made on the coordinator: [create_attempt] with the attempt the
    new one follows, [run] and [complete]. *)
Record Calls := {
  created : list (path * option nat);
  ran : list nat;
  completed : list (nat * error_code);
}.
Definition no_calls : Calls := {| created := []; ran := []; completed := [] |}.
Definition create_attempt (out : path) (after : option nat) (c : Calls) : nat * Calls :=
  (length (created c), {| created := created c ++ [(out, after)]; ran := ran c; completed := completed c |}).
Definition run_attempt (a : nat) (c : Calls) : Calls := {|
  created := created c; ran := ran c ++ [a]; completed := completed c |}.
Definition complete_attempt (a : nat) (e : error_code) (c : Calls) : Calls := {|
  created := created c; ran := ran c; completed := completed c ++ [(a, e)] |}.

Record Attempts := {
  current : option nat;
  next : option nat;
  invalidations_at_start : Z;
}.
Definition no_attempts : Attempts := {| current := None; next := None; invalidations_at_start := 0 |}.

(** [BuildOutput], [BuildFailure] and [BuildResult] (src/commandrunner.hpp). *)
Record BuildOutput := { output_bytes : str; output_inputs : list path }.
Record BuildFailure := { failure_error : error_code; failure_inputs : list path }.
Definition BuildResult := expected BuildFailure BuildOutput.
Definition failed (e : error_code) : BuildResult := Unexpected {| failure_error := e; failure_inputs := [] |}.

Record Keep := {
  keep_command : Command;
  keep_inputs : list path;
  keep_mtime : Z;
  keep_invalidations : Z;
}.

Record Launch := {
  launch_output : path;
  launch_attempt : nat;
  launch_command : Command;
  launch_id : Z;
}.

(** [m_cache_mutex] is whether it is held. *)
Section tree.
Context {C : Type} `{Cache C}.

Record Impl := {
  m_structure : InMemoryTree.Impl;
  m_rules : list Rule;
  m_wildcard_directories : gset path;
  m_commands : gmap path Command;
  m_stale : gset path;
  m_in_flight : gset path;
  m_attempts : gmap path Attempts;
  m_reads : gmap path (gset path);
  m_materialized : gset path;
  m_materialize_all : bool;
  m_last_build_id : Z;
  m_dependencies : gmap path (list path);
  m_dependents : gmap path (gset path);
  m_invalidations : gmap path Z;
  m_hashes : gmap path str;
  m_cache : option C;
  m_cache_mutex : bool;
  m_coordinator : Calls;
}.

Definition set_structure (x : InMemoryTree.Impl) (s : Impl) : Impl := {|
  m_structure := x; m_rules := m_rules s; m_wildcard_directories := m_wildcard_directories s;
  m_commands := m_commands s; m_stale := m_stale s; m_in_flight := m_in_flight s;
  m_attempts := m_attempts s; m_reads := m_reads s; m_materialized := m_materialized s;
  m_materialize_all := m_materialize_all s; m_last_build_id := m_last_build_id s;
  m_dependencies := m_dependencies s; m_dependents := m_dependents s;
  m_invalidations := m_invalidations s; m_hashes := m_hashes s; m_cache := m_cache s;
  m_cache_mutex := m_cache_mutex s; m_coordinator := m_coordinator s |}.
Definition set_rules (x : list Rule) (s : Impl) : Impl := {|
  m_structure := m_structure s; m_rules := x;
  m_wildcard_directories := m_wildcard_directories s; m_commands := m_commands s;
  m_stale := m_stale s; m_in_flight := m_in_flight s; m_attempts := m_attempts s;
  m_reads := m_reads s; m_materialized := m_materialized s;
  m_materialize_all := m_materialize_all s; m_last_build_id := m_last_build_id s;
  m_dependencies := m_dependencies s; m_dependents := m_dependents s;
  m_invalidations := m_invalidations s; m_hashes := m_hashes s; m_cache := m_cache s;
  m_cache_mutex := m_cache_mutex s; m_coordinator := m_coordinator s |}.
Definition set_wildcard_directories (x : gset path) (s : Impl) : Impl := {|
  m_structure := m_structure s; m_rules := m_rules s; m_wildcard_directories := x;
  m_commands := m_commands s; m_stale := m_stale s; m_in_flight := m_in_flight s;
  m_attempts := m_attempts s; m_reads := m_reads s; m_materialized := m_materialized s;
  m_materialize_all := m_materialize_all s; m_last_build_id := m_last_build_id s;
  m_dependencies := m_dependencies s; m_dependents := m_dependents s;
  m_invalidations := m_invalidations s; m_hashes := m_hashes s; m_cache := m_cache s;
  m_cache_mutex := m_cache_mutex s; m_coordinator := m_coordinator s |}.
Definition set_commands (x : gmap path Command) (s : Impl) : Impl := {|
  m_structure := m_structure s; m_rules := m_rules s;
  m_wildcard_directories := m_wildcard_directories s; m_commands := x; m_stale := m_stale s;
  m_in_flight := m_in_flight s; m_attempts := m_attempts s; m_reads := m_reads s;
  m_materialized := m_materialized s; m_materialize_all := m_materialize_all s;
  m_last_build_id := m_last_build_id s; m_dependencies := m_dependencies s;
  m_dependents := m_dependents s; m_invalidations := m_invalidations s; m_hashes := m_hashes s;
  m_cache := m_cache s; m_cache_mutex := m_cache_mutex s; m_coordinator := m_coordinator s |}.
Definition set_stale (x : gset path) (s : Impl) : Impl := {|
  m_structure := m_structure s; m_rules := m_rules s;
  m_wildcard_directories := m_wildcard_directories s; m_commands := m_commands s; m_stale := x;
  m_in_flight := m_in_flight s; m_attempts := m_attempts s; m_reads := m_reads s;
  m_materialized := m_materialized s; m_materialize_all := m_materialize_all s;
  m_last_build_id := m_last_build_id s; m_dependencies := m_dependencies s;
  m_dependents := m_dependents s; m_invalidations := m_invalidations s; m_hashes := m_hashes s;
  m_cache := m_cache s; m_cache_mutex := m_cache_mutex s; m_coordinator := m_coordinator s |}.
Definition set_in_flight (x : gset path) (s : Impl) : Impl := {|
  m_structure := m_structure s; m_rules := m_rules s;
  m_wildcard_directories := m_wildcard_directories s; m_commands := m_commands s;
  m_stale := m_stale s; m_in_flight := x; m_attempts := m_attempts s; m_reads := m_reads s;
  m_materialized := m_materialized s; m_materialize_all := m_materialize_all s;
  m_last_build_id := m_last_build_id s; m_dependencies := m_dependencies s;
  m_dependents := m_dependents s; m_invalidations := m_invalidations s; m_hashes := m_hashes s;
  m_cache := m_cache s; m_cache_mutex := m_cache_mutex s; m_coordinator := m_coordinator s |}.
Definition set_attempts (x : gmap path Attempts) (s : Impl) : Impl := {|
  m_structure := m_structure s; m_rules := m_rules s;
  m_wildcard_directories := m_wildcard_directories s; m_commands := m_commands s;
  m_stale := m_stale s; m_in_flight := m_in_flight s; m_attempts := x; m_reads := m_reads s;
  m_materialized := m_materialized s; m_materialize_all := m_materialize_all s;
  m_last_build_id := m_last_build_id s; m_dependencies := m_dependencies s;
  m_dependents := m_dependents s; m_invalidations := m_invalidations s; m_hashes := m_hashes s;
  m_cache := m_cache s; m_cache_mutex := m_cache_mutex s; m_coordinator := m_coordinator s |}.
Definition set_reads (x : gmap path (gset path)) (s : Impl) : Impl := {|
  m_structure := m_structure s; m_rules := m_rules s;
  m_wildcard_directories := m_wildcard_directories s; m_commands := m_commands s;
  m_stale := m_stale s; m_in_flight := m_in_flight s; m_attempts := m_attempts s; m_reads := x;
  m_materialized := m_materialized s; m_materialize_all := m_materialize_all s;
  m_last_build_id := m_last_build_id s; m_dependencies := m_dependencies s;
  m_dependents := m_dependents s; m_invalidations := m_invalidations s; m_hashes := m_hashes s;
  m_cache := m_cache s; m_cache_mutex := m_cache_mutex s; m_coordinator := m_coordinator s |}.
Definition set_materialized (x : gset path) (s : Impl) : Impl := {|
  m_structure := m_structure s; m_rules := m_rules s;
  m_wildcard_directories := m_wildcard_directories s; m_commands := m_commands s;
  m_stale := m_stale s; m_in_flight := m_in_flight s; m_attempts := m_attempts s;
  m_reads := m_reads s; m_materialized := x; m_materialize_all := m_materialize_all s;
  m_last_build_id := m_last_build_id s; m_dependencies := m_dependencies s;
  m_dependents := m_dependents s; m_invalidations := m_invalidations s; m_hashes := m_hashes s;
  m_cache := m_cache s; m_cache_mutex := m_cache_mutex s; m_coordinator := m_coordinator s |}.
Definition set_materialize_all (x : bool) (s : Impl) : Impl := {|
  m_structure := m_structure s; m_rules := m_rules s;
  m_wildcard_directories := m_wildcard_directories s; m_commands := m_commands s;
  m_stale := m_stale s; m_in_flight := m_in_flight s; m_attempts := m_attempts s;
  m_reads := m_reads s; m_materialized := m_materialized s; m_materialize_all := x;
  m_last_build_id := m_last_build_id s; m_dependencies := m_dependencies s;
  m_dependents := m_dependents s; m_invalidations := m_invalidations s; m_hashes := m_hashes s;
  m_cache := m_cache s; m_cache_mutex := m_cache_mutex s; m_coordinator := m_coordinator s |}.
Definition set_last_build_id (x : Z) (s : Impl) : Impl := {|
  m_structure := m_structure s; m_rules := m_rules s;
  m_wildcard_directories := m_wildcard_directories s; m_commands := m_commands s;
  m_stale := m_stale s; m_in_flight := m_in_flight s; m_attempts := m_attempts s;
  m_reads := m_reads s; m_materialized := m_materialized s;
  m_materialize_all := m_materialize_all s; m_last_build_id := x;
  m_dependencies := m_dependencies s; m_dependents := m_dependents s;
  m_invalidations := m_invalidations s; m_hashes := m_hashes s; m_cache := m_cache s;
  m_cache_mutex := m_cache_mutex s; m_coordinator := m_coordinator s |}.
Definition set_dependencies (x : gmap path (list path)) (s : Impl) : Impl := {|
  m_structure := m_structure s; m_rules := m_rules s;
  m_wildcard_directories := m_wildcard_directories s; m_commands := m_commands s;
  m_stale := m_stale s; m_in_flight := m_in_flight s; m_attempts := m_attempts s;
  m_reads := m_reads s; m_materialized := m_materialized s;
  m_materialize_all := m_materialize_all s; m_last_build_id := m_last_build_id s;
  m_dependencies := x; m_dependents := m_dependents s; m_invalidations := m_invalidations s;
  m_hashes := m_hashes s; m_cache := m_cache s; m_cache_mutex := m_cache_mutex s;
  m_coordinator := m_coordinator s |}.
Definition set_dependents (x : gmap path (gset path)) (s : Impl) : Impl := {|
  m_structure := m_structure s; m_rules := m_rules s;
  m_wildcard_directories := m_wildcard_directories s; m_commands := m_commands s;
  m_stale := m_stale s; m_in_flight := m_in_flight s; m_attempts := m_attempts s;
  m_reads := m_reads s; m_materialized := m_materialized s;
  m_materialize_all := m_materialize_all s; m_last_build_id := m_last_build_id s;
  m_dependencies := m_dependencies s; m_dependents := x; m_invalidations := m_invalidations s;
  m_hashes := m_hashes s; m_cache := m_cache s; m_cache_mutex := m_cache_mutex s;
  m_coordinator := m_coordinator s |}.
Definition set_invalidations (x : gmap path Z) (s : Impl) : Impl := {|
  m_structure := m_structure s; m_rules := m_rules s;
  m_wildcard_directories := m_wildcard_directories s; m_commands := m_commands s;
  m_stale := m_stale s; m_in_flight := m_in_flight s; m_attempts := m_attempts s;
  m_reads := m_reads s; m_materialized := m_materialized s;
  m_materialize_all := m_materialize_all s; m_last_build_id := m_last_build_id s;
  m_dependencies := m_dependencies s; m_dependents := m_dependents s; m_invalidations := x;
  m_hashes := m_hashes s; m_cache := m_cache s; m_cache_mutex := m_cache_mutex s;
  m_coordinator := m_coordinator s |}.
Definition set_hashes (x : gmap path str) (s : Impl) : Impl := {|
  m_structure := m_structure s; m_rules := m_rules s;
  m_wildcard_directories := m_wildcard_directories s; m_commands := m_commands s;
  m_stale := m_stale s; m_in_flight := m_in_flight s; m_attempts := m_attempts s;
  m_reads := m_reads s; m_materialized := m_materialized s;
  m_materialize_all := m_materialize_all s; m_last_build_id := m_last_build_id s;
  m_dependencies := m_dependencies s; m_dependents := m_dependents s;
  m_invalidations := m_invalidations s; m_hashes := x; m_cache := m_cache s;
  m_cache_mutex := m_cache_mutex s; m_coordinator := m_coordinator s |}.
Definition set_cache (x : option C) (s : Impl) : Impl := {|
  m_structure := m_structure s; m_rules := m_rules s;
  m_wildcard_directories := m_wildcard_directories s; m_commands := m_commands s;
  m_stale := m_stale s; m_in_flight := m_in_flight s; m_attempts := m_attempts s;
  m_reads := m_reads s; m_materialized := m_materialized s;
  m_materialize_all := m_materialize_all s; m_last_build_id := m_last_build_id s;
  m_dependencies := m_dependencies s; m_dependents := m_dependents s;
  m_invalidations := m_invalidations s; m_hashes := m_hashes s; m_cache := x;
  m_cache_mutex := m_cache_mutex s; m_coordinator := m_coordinator s |}.
Definition set_cache_mutex (x : bool) (s : Impl) : Impl := {|
  m_structure := m_structure s; m_rules := m_rules s;
  m_wildcard_directories := m_wildcard_directories s; m_commands := m_commands s;
  m_stale := m_stale s; m_in_flight := m_in_flight s; m_attempts := m_attempts s;
  m_reads := m_reads s; m_materialized := m_materialized s;
  m_materialize_all := m_materialize_all s; m_last_build_id := m_last_build_id s;
  m_dependencies := m_dependencies s; m_dependents := m_dependents s;
  m_invalidations := m_invalidations s; m_hashes := m_hashes s; m_cache := m_cache s;
  m_cache_mutex := x; m_coordinator := m_coordinator s |}.
Definition set_coordinator (x : Calls) (s : Impl) : Impl := {|
  m_structure := m_structure s; m_rules := m_rules s;
  m_wildcard_directories := m_wildcard_directories s; m_commands := m_commands s;
  m_stale := m_stale s; m_in_flight := m_in_flight s; m_attempts := m_attempts s;
  m_reads := m_reads s; m_materialized := m_materialized s;
  m_materialize_all := m_materialize_all s; m_last_build_id := m_last_build_id s;
  m_dependencies := m_dependencies s; m_dependents := m_dependents s;
  m_invalidations := m_invalidations s; m_hashes := m_hashes s; m_cache := m_cache s;
  m_cache_mutex := m_cache_mutex s; m_coordinator := x |}.

(** [BuildDirectoryTree::Impl]'s members before the constructor runs. *)
Definition empty (cache : option C) : Impl := {|
  m_structure := create; m_rules := []; m_wildcard_directories := ∅; m_commands := ∅;
  m_stale := ∅; m_in_flight := ∅; m_attempts := ∅; m_reads := ∅; m_materialized := ∅;
  m_materialize_all := false; m_last_build_id := 0; m_dependencies := ∅; m_dependents := ∅;
  m_invalidations := ∅; m_hashes := ∅; m_cache := cache; m_cache_mutex := false;
  m_coordinator := no_calls |}.

(** ** Asking for builds *)

Definition is_declared (out : path) (s : Impl) : bool := bool_decide (out ∈ dom (m_commands s)).

Definition record_read (reader out : path) (s : Impl) : Impl :=
  match m_reads s !! reader with
  | Some reads => set_reads (<[reader := {[as_input out]} ∪ reads]> (m_reads s)) s
  | None => s
  end.

(** [m_attempts[output]], which is there from then on. *)
Definition attempts_of (out : path) (s : Impl) : Attempts := default no_attempts (m_attempts s !! out).

(** [m_coordinator->create_attempt]. *)
Definition new_attempt (out : path) (after : option nat) (s : Impl) : nat * Impl :=
  let '(a, calls) := create_attempt out after (m_coordinator s) in (a, set_coordinator calls s).

Definition claim_build (out : path) (s : Impl) : option (Launch * Impl) :=
  let attempts := attempts_of out s in
  let '(attempt, s1) :=
    match next attempts with
    | Some a => (a, s)
    | None => new_attempt out None s
    end in
  let attempts' := {|
    current := Some attempt; next := None;
    invalidations_at_start := default 0%Z (m_invalidations s1 !! out) |} in
  let s2 := set_attempts (<[out := attempts']> (m_attempts s1)) s1 in
  let s3 := set_invalidations (emplace out 0%Z (m_invalidations s2)) s2 in
  let s4 := set_in_flight ({[out]} ∪ m_in_flight s3) (set_stale (m_stale s3 ∖ {[out]}) s3) in
  let s5 := set_reads (emplace out ∅ (m_reads s4)) s4 in
  command ← m_commands s5 !! out;
  let traced := bool_decide (command_action command ≠ Tracing) in
  let id := next64 (m_last_build_id s5) in
  Some ({| launch_output := out; launch_attempt := attempt; launch_command := command;
           launch_id := if traced then id else 0%Z |},
        if traced then set_last_build_id id s5 else s5).

(** The attempt to wait on, and the build to launch first. *)
Definition bring_up_to_date (out : path) (s : Impl) : option (option nat * option Launch * Impl) :=
  match m_commands s !! out with
  | None => Some (None, None, s)
  | Some command =>
      let s1 := set_materialized ({[out]} ∪ m_materialized s) s in
      let s2 := if bool_decide (command_action command = Tracing) && bool_decide (out ∉ m_in_flight s1)
                then set_stale ({[out]} ∪ m_stale s1) s1 else s1 in
      let attempts := attempts_of out s2 in
      let s3 := set_attempts (<[out := attempts]> (m_attempts s2)) s2 in
      if decide (out ∈ m_in_flight s3) then
        if decide (out ∉ m_stale s3) then Some (current attempts, None, s3)
        else
          match next attempts with
          | Some a => Some (Some a, None, s3)
          | None =>
              let '(a, s4) := new_attempt out (current attempts) s3 in
              let attempts' := {| current := current attempts; next := Some a;
                                  invalidations_at_start := invalidations_at_start attempts |} in
              Some (Some a, None, set_attempts (<[out := attempts']> (m_attempts s4)) s4)
          end
      else if decide (out ∈ m_stale s3) then
        '(launch, s4) ← claim_build out s3;
        Some (Some (launch_attempt launch), Some launch, s4)
      else Some (None, None, s3)
  end.

Definition start_build (out : path) (s : Impl) : option (option Launch * Impl) :=
  if bool_decide (out ∉ m_stale s) || bool_decide (out ∈ m_in_flight s) ||
     bool_decide (out ∉ dom (m_commands s))
  then Some (None, s)
  else '(launch, s') ← claim_build out s; Some (Some launch, s').

(** The outputs to start, in order. *)
Definition materialize_all (s : Impl) : list path * Impl :=
  let outputs := (filter (λ c, command_action c.2 ≠ Tracing) (in_order (m_commands s))).*1 in
  (outputs, set_materialized (list_to_set outputs ∪ m_materialized s) (set_materialize_all true s)).

(** ** Who reads what *)

Definition add_reads (out : path) (inputs : list path) (s : Impl) : list path :=
  match m_reads s !! out with
  | Some reads => inputs ++ paths_in_order reads
  | None => inputs
  end.

(** [out] no longer among the dependents of [input], which goes once it has none. *)
Definition drop_dependent (out : path) (dependents : gmap path (gset path)) (input : path)
    : gmap path (gset path) :=
  match dependents !! input with
  | Some readers =>
      let rest := readers ∖ {[out]} in
      if decide (rest = ∅) then delete input dependents else <[input := rest]> dependents
  | None => dependents
  end.

Definition add_dependent (out : path) (dependents : gmap path (gset path)) (input : path)
    : gmap path (gset path) :=
  <[input := {[out]} ∪ default ∅ (dependents !! input)]> dependents.

Definition update_dependents (out : path) (inputs : list path) (s : Impl) : Impl :=
  let without :=
    match m_dependencies s !! out with
    | Some previous => foldl (drop_dependent out) (m_dependents s) previous
    | None => m_dependents s
    end in
  set_dependencies (<[out := inputs]> (m_dependencies s))
    (set_dependents (foldl (add_dependent out) without inputs) s).

(** [m_dependents.find(input)], in order. *)
Definition readers_of (input : path) (s : Impl) : list path :=
  match m_dependents s !! input with Some readers => paths_in_order readers | None => [] end.

(** ** Builds that end *)

(** What a build leaves if it succeeds, under the layout lock. *)
Definition record_success (out : path) (result : BuildOutput) (built_at : Z) (s : Impl)
    : option (option Keep * Impl) :=
  match m_commands s !! out with
  | None => Some (None, s)
  | Some command =>
      let inputs := add_reads out (output_inputs result) s in
      let '(keep, s1) :=
        match m_cache s with
        | None => (None, s)
        | Some _ =>
            let s' := set_hashes (<[out := hash_bytes (output_bytes result)]> (m_hashes s)) s in
            if decide (command_action command = Tracing) then (None, s')
            else
              let attempts := attempts_of out s' in
              (Some {| keep_command := command; keep_inputs := inputs; keep_mtime := built_at;
                       keep_invalidations := invalidations_at_start attempts |},
               set_attempts (<[out := attempts]> (m_attempts s')) s')
        end in
      let s2 := update_dependents out inputs s1 in
      structure ← write_file out (output_bytes result) built_at (m_structure s2);
      Some (keep, set_structure structure s2)
  end.

(** The dependencies a failure that read something leaves. *)
Definition record_failure (out : path) (result : BuildResult) (s : Impl) : Impl :=
  match result with
  | Unexpected failure =>
      if is_declared out s then
        let inputs := add_reads out (failure_inputs failure) s in
        if is_nil inputs then s else update_dependents out inputs s
      else s
  | Value _ => s
  end.

(** The build to launch next, and the attempt left without one. *)
Definition end_build (out : path) (result : BuildResult) (s : Impl)
    : option (option Launch * option nat * Impl) :=
  let s1 := record_failure out result s in
  let s2 := set_reads (delete out (m_reads s1)) (set_in_flight (m_in_flight s1 ∖ {[out]}) s1) in
  let waited_on := bool_decide (is_Some (attempts ← m_attempts s2 !! out; next attempts)) in
  if is_declared out s2 then
    let changed := bool_decide (out ∈ m_stale s2) in
    let stopped := match result with
                   | Unexpected f => bool_decide (failure_error f = make_error_code operation_canceled)
                   | Value _ => false
                   end in
    let s3 := if has_value result then s2 else set_stale ({[out]} ∪ m_stale s2) s2 in
    if waited_on || (changed && negb stopped && bool_decide (out ∈ m_materialized s3)) then
      '(launch, s4) ← claim_build out s3;
      Some (Some launch, None, s4)
    else Some (None, None, s3)
  else
    match m_attempts s2 !! out with
    | Some attempts => Some (None, next attempts, set_attempts (delete out (m_attempts s2)) s2)
    | None => Some (None, None, s2)
    end.

Definition result_error (result : BuildResult) : error_code :=
  match result with Value _ => no_error | Unexpected f => failure_error f end.

(** ** The cache *)

Definition k_generated_prefix : str := lit "@/".

Definition output_named_by (input : path) : option path :=
  let text := generic_string input in
  if starts_with k_generated_prefix text then Some (of_string (drop (length k_generated_prefix) text))
  else None.

(** The stamps of the outputs a build read, or nothing if it is not to be kept. *)
Fixpoint stamp_outputs (hashes : gmap path str) (inputs : list path) : option (list Input) :=
  match inputs with
  | [] => Some []
  | input :: inputs' =>
      match output_named_by input with
      | Some read =>
          hash ← hashes !! read;
          stamps ← stamp_outputs hashes inputs';
          Some ({| input_path := input; input_mtime := 0; input_size := 0; input_hash := hash |} :: stamps)
      | None => stamp_outputs hashes inputs'
      end
  end.

Definition check_keep (out : path) (keep : Keep) (s : Impl) : option (list Input) :=
  if decide (default 0%Z (m_invalidations s !! out) = keep_invalidations keep)
  then stamp_outputs (m_hashes s) (keep_inputs keep) else None.

Section source.
Context {T : Type} `{DirectoryTree T} (source : T).

Definition stamp_source (p : path) : option Input :=
  match status source p with
  | Unexpected _ => None
  | Value (AFile f) => Some {| input_path := p; input_mtime := file_mtime f;
                               input_size := Z.of_nat (file_size f); input_hash := [] |}
  | Value (ADirectory d) => Some {| input_path := p; input_mtime := directory_mtime d;
                                    input_size := -1; input_hash := [] |}
  end.

Fixpoint stamp_sources (inputs : list path) : option (list Input) :=
  match inputs with
  | [] => Some []
  | input :: inputs' =>
      match output_named_by input with
      | Some _ => stamp_sources inputs'
      | None =>
          stamp ← stamp_source input;
          stamps ← stamp_sources inputs';
          Some (stamp :: stamps)
      end
  end.

(** The rest of [keep_in_cache], given what [check_keep] found. *)
Definition store_in_cache (out : path) (content : str) (keep : Keep) (checked : option (list Input))
    (s : Impl) : Impl :=
  match m_cache s with
  | None => s
  | Some cache =>
      match (outputs ← checked; sources ← stamp_sources (keep_inputs keep); Some (outputs ++ sources)) with
      | Some stamps => set_cache (Some (store (keep_command keep) content (keep_mtime keep) stamps cache)) s
      | None => set_cache (Some (forget [out] cache)) s
      end
  end.
End source.

Definition forget_in_cache (outputs : list path) (s : Impl) : Impl :=
  match m_cache s with
  | None => s
  | Some cache => if is_nil outputs then s else set_cache (Some (forget outputs cache)) s
  end.

(** ** Rules *)

(** [directory] and the directories above it, the root last. *)
Definition up_to_root (directory : path) : list path :=
  if is_empty directory then [directory] else directory :: ancestors directory ++ [root].

(** Inserts them until one was there already. *)
Fixpoint insert_directories (directories : list path) (known : gset path) : gset path :=
  match directories with
  | [] => known
  | d :: directories' =>
      if decide (d ∈ known) then known else insert_directories directories' ({[d]} ∪ known)
  end.

Definition wildcard_directories (rules : list Rule) : gset path :=
  foldl (λ known rule,
           if is_wildcard rule
           then insert_directories (up_to_root (parent_path (wildcard_source rule))) known
           else known) ∅ rules.

Definition set_rules_of (rules : list Rule) (s : Impl) : Impl :=
  set_wildcard_directories (wildcard_directories rules) (set_rules rules s).

(** What [apply_rules] finds: outputs removed, added and changed, in order. *)
Definition removed_outputs (commands : gmap path Command) (s : Impl) : list path :=
  (filter (λ c, commands !! c.1 = None) (in_order (m_commands s))).*1.
Definition added_outputs (commands : gmap path Command) (s : Impl) : list path :=
  (filter (λ c, m_commands s !! c.1 = None) (in_order commands)).*1.
Definition is_changed (s : Impl) (c : path * Command) : bool :=
  match m_commands s !! c.1 with
  | None => m_materialize_all s && bool_decide (command_action c.2 ≠ Tracing)
  | Some command => bool_decide (command ≠ c.2)
  end.
Definition changed_outputs (commands : gmap path Command) (s : Impl) : list path :=
  (filter (λ c, is_changed s c = true) (in_order commands)).*1.

Definition materialize_added (commands : gmap path Command) (s : Impl) : gset path :=
  if m_materialize_all s then
    list_to_set (filter (λ c, m_commands s !! c.1 = None ∧ command_action c.2 ≠ Tracing)
                   (in_order commands)).*1
  else ∅.

(** A removed output's bookkeeping. *)
Definition remove_output (s : Impl) (out : path) : Impl :=
  let s1 := set_hashes (delete out (m_hashes s))
              (set_materialized (m_materialized s ∖ {[out]}) (set_stale (m_stale s ∖ {[out]}) s)) in
  let s2 := set_invalidations
              (<[out := next64 (default 0%Z (m_invalidations s1 !! out))]> (m_invalidations s1)) s1 in
  let s3 := if decide (out ∈ m_in_flight s2) then s2
            else set_attempts (delete out (m_attempts s2)) s2 in
  let s4 := update_dependents out [] s3 in
  set_dependencies (delete out (m_dependencies s4)) s4.

Fixpoint remove_outputs (outputs : list path) (tree : InMemoryTree.Impl) : option InMemoryTree.Impl :=
  match outputs with
  | [] => Some tree
  | out :: outputs' => tree' ← remove_with_empty_parents out tree; remove_outputs outputs' tree'
  end.

Fixpoint add_placeholders (now : Z) (outputs : list path) (tree : InMemoryTree.Impl)
    : option InMemoryTree.Impl :=
  match outputs with
  | [] => Some tree
  | out :: outputs' =>
      tree1 ← ensure_parent_directories now out tree;
      tree2 ← write_file out k_placeholder_content now tree1;
      add_placeholders now outputs' tree2
  end.

(** [apply_rules] up to the layout lock's release. *)
Definition apply_rules (now : Z) (commands : gmap path Command) (s : Impl) : option Impl :=
  let removed := removed_outputs commands s in
  let added := added_outputs commands s in
  let s1 := set_stale (list_to_set added ∪ m_stale s) s in
  let s2 := set_materialized (materialize_added commands s ∪ m_materialized s1) s1 in
  let s3 := set_commands commands (foldl remove_output s2 removed) in
  tree ← remove_outputs removed (m_structure s3);
  tree' ← add_placeholders now added tree;
  Some (set_structure tree' s3).

(** What read an output that came or went. *)
Definition readers_of_all (outputs : list path) (s : Impl) : list path :=
  outputs ≫= λ out, readers_of (as_input out) s.

(** The outputs a change of the source affects directly. *)
Definition affected (diff : DirectoryTreeDiff) (s : Impl) : list path :=
  if everything_dirty diff then (in_order (m_commands s)).*1
  else entries_changed diff ≫= λ changed, readers_of changed s.

(** Whether a change calls for the manifest to be read again, or its wildcards
    matched again. *)
Definition manifest_changed (diff : DirectoryTreeDiff) : bool :=
  everything_dirty diff || bool_decide (k_manifest_name ∈ entries_changed diff).
Definition wildcards_changed (diff : DirectoryTreeDiff) (s : Impl) : bool :=
  existsb (λ d, bool_decide (lexically_normal d ∈ m_wildcard_directories s)) (child_lists_changed diff).

(** ** Invalidation *)

(** The loop of [invalidate], the top of its stack first: what it has seen, and
    the outputs to rebuild at once, the last found first. *)
Fixpoint invalidate_loop (fuel : nat) (stack : list path) (seen : gset path) (eager : list path) (s : Impl)
    : option (gset path * list path * Impl) :=
  match stack with
  | [] => Some (seen, eager, s)
  | out :: stack' =>
      match fuel with
      | 0 => None
      | S fuel' =>
          if bool_decide (out ∉ dom (m_commands s)) || bool_decide (out ∈ seen)
          then invalidate_loop fuel' stack' seen eager s
          else
            let s1 := set_stale ({[out]} ∪ m_stale s) s in
            let s2 := set_invalidations
                        (<[out := next64 (default 0%Z (m_invalidations s1 !! out))]> (m_invalidations s1)) s1 in
            let eager' := if bool_decide (out ∈ m_materialized s2) && bool_decide (out ∉ m_in_flight s2)
                          then out :: eager else eager in
            invalidate_loop fuel' (rev (readers_of (as_input out) s2) ++ stack') ({[out]} ∪ seen) eager' s2
      end
  end.

(** Every output is visited once, and pushes its readers. *)
Definition invalidate_fuel (outputs : list path) (s : Impl) : nat :=
  length outputs + sum_list ((λ c, length (readers_of (as_input c.1) s)) <$> in_order (m_commands s)).

Definition invalidate (outputs : list path) (s : Impl) : option (gset path * list path * Impl) :=
  '(seen, eager, s') ← invalidate_loop (invalidate_fuel outputs s) (rev outputs) ∅ [] s;
  Some (seen, rev eager, s').

(** ** What subscribers are told *)

Definition is_trace_rewrite (commands : gmap path Command) (diff : DirectoryTreeDiff) (p : path) : bool :=
  match commands !! p with
  | Some c => bool_decide (command_action c = Tracing) &&
              negb (bool_decide (parent_path p ∈ child_lists_changed diff))
  | None => false
  end.

(** What a subscriber is told of a change of [m_structure], if anything. *)
Definition filter_diff (commands : gmap path Command) (diff : DirectoryTreeDiff) : option DirectoryTreeDiff :=
  if everything_dirty diff then Some diff
  else
    let filtered :=
      if existsb (is_trace_rewrite commands diff) (entries_changed diff)
      then {| everything_dirty := false;
              entries_changed := filter (λ p, is_trace_rewrite commands diff p = false) (entries_changed diff);
              child_lists_changed := child_lists_changed diff |}
      else diff in
    if negb (is_nil (entries_changed filtered)) || negb (is_nil (child_lists_changed filtered))
    then Some filtered else None.
End tree.
