(* ===== verification/Restore.v ===== *)
(** * Restoring from the cache (src/builddirectorytree.cpp, [Impl::restore_from_cache])

    Which records of the cache still hold, worked out once each, and what the
    tree serves of them. The recursion goes through what a record's build read,
    on fuel that one more than the records suffices for. *)

From S2P Require Export BuildTree.

Inductive Check := checking | holds | stale.
#[global] Instance Check_eq_dec : EqDecision Check.
Proof. solve_decision. Defined.

(** [Restoring], the records and rules in force apart: those do not change. *)
Record Restoring := {
  checked : gmap path Check;
  contents : gmap path str;
}.
Definition start_restoring : Restoring := {| checked := ∅; contents := ∅ |}.
Definition set_checked (out : path) (c : Check) (r : Restoring) : Restoring := {|
  checked := <[out := c]> (checked r); contents := contents r |}.

Section restore.
Context {C : Type} `{Cache C} {T : Type} `{DirectoryTree T} (source : T) (cache : C).
Context (records_of : gmap path CacheRecord) (commands : gmap path Command).

Section check.
Context (record_holds : path → Restoring → option (bool * Restoring)).

Fixpoint check_inputs (inputs : list Input) (r : Restoring) : option (bool * Restoring) :=
  match inputs with
  | [] => Some (true, r)
  | input :: inputs' =>
      match output_named_by (input_path input) with
      | Some read =>
          '(held, r') ← record_holds read r;
          if negb held then Some (false, r')
          else
            record ← records_of !! read;
            if decide (record_hash record = input_hash input) then check_inputs inputs' r'
            else Some (false, r')
      | None =>
          if decide (stamp_source source (input_path input) = Some input) then check_inputs inputs' r
          else Some (false, r)
      end
  end.

Definition check_record (out : path) (r : Restoring) : option (bool * Restoring) :=
  match records_of !! out, commands !! out with
  | Some record, Some command =>
      if bool_decide (command_action command = Tracing) || bool_decide (record_command record ≠ command)
      then Some (false, r)
      else
        '(held, r') ← check_inputs (record_inputs record) r;
        if negb held then Some (false, r')
        else
          match read_content cache (record_hash record) with
          | Unexpected _ => Some (false, r')
          | Value bytes =>
              Some (true, {| checked := checked r'; contents := emplace out bytes (contents r') |})
          end
  | _, _ => Some (false, r)
  end.
End check.

Fixpoint record_holds (fuel : nat) (out : path) (r : Restoring) : option (bool * Restoring) :=
  match fuel with
  | 0 => None
  | S fuel' =>
      match checked r !! out with
      | Some c => Some (bool_decide (c = holds), r)
      | None =>
          '(held, r') ← check_record (record_holds fuel') out (set_checked out checking r);
          Some (held, set_checked out (if (held : bool) then holds else stale) r')
      end
  end.
End restore.

Section restoring.
Context {C : Type} `{Cache C} {T : Type} `{DirectoryTree T} (source : T).

Definition records_by_output (l : list CacheRecord) : gmap path CacheRecord :=
  foldl (λ m (record : CacheRecord), emplace (command_output (record_command record)) record m) ∅ l.

(** An output whose record holds is served as built. *)
Definition serve_record (record : CacheRecord) (content : str) (s : Impl (C := C)) : option Impl :=
  let out := command_output (record_command record) in
  tree ← write_file out content (record_mtime record) (m_structure s);
  let s1 := set_structure tree s in
  let s2 := set_hashes (<[out := record_hash record]> (m_hashes s1)) (set_stale (m_stale s1 ∖ {[out]}) s1) in
  Some (update_dependents out (input_path <$> record_inputs record) s2).

(** The loop over the records: the outputs whose records do not hold. *)
Fixpoint restore_records (cache : C) (records_of : gmap path CacheRecord) (commands : gmap path Command)
    (l : list CacheRecord) (r : Restoring) (dropped : list path) (s : Impl (C := C))
    : option (list path * Impl) :=
  match l with
  | [] => Some (dropped, s)
  | record :: l' =>
      let out := command_output (record_command record) in
      '(held, r') ← record_holds source cache records_of commands (S (S (size records_of))) out r;
      if (held : bool) then
        content ← contents r' !! out;
        s' ← serve_record record content s;
        restore_records cache records_of commands l' r' dropped s'
      else restore_records cache records_of commands l' r' (dropped ++ [out]) s
  end.

(** The [try] at its end: [forget], then [collect_garbage] unless that throws. *)
Definition forget_and_collect (dropped : list path) (cache : C) : C :=
  if forget_throws dropped cache then forget dropped cache else collect_garbage (forget dropped cache).

Definition restore_from_cache (s : Impl (C := C)) : option Impl :=
  match m_cache s with
  | None => Some s
  | Some cache =>
      match records cache with
      | None => Some s
      | Some l =>
          '(dropped, s') ← restore_records cache (records_by_output l) (m_commands s) l start_restoring [] s;
          Some (set_cache (Some (forget_and_collect dropped cache)) s')
      end
  end.
End restoring.
