(* ===== verification/BuildTreeRun.v ===== *)
(** * The build tree at work (src/builddirectorytree.cpp)

    Threads run the stretches of BuildTree.v in the order the code calls them,
    one stretch at a time, and any thread may run between two of another's. A
    thread is the list of what it has left to do; [exec] does its first item,
    which may put more items first and start builds as threads of their own. An
    [Oracle] supplies what the world outside gives: the time, the trace so far,
    the requester a process id resolves to, a build's result, what the
    coordinator answers a wait with before its attempt completes, and what it
    makes of a build that it stopped or that was on a cycle. *)

From S2P Require Export BuildTree Restore.

(** A build: what [finish_build] is told of it. *)
Record Build := { build_output : path; build_attempt : nat; build_id : Z }.

Inductive instr :=
  (* opens *)
  | OpenFile (p : path) (pid : Z)
  | ResolveRequester (out : path) (pid : Z)
  | RecordRead (requester out : path)
  | BringUpToDate (out : path) (requester : option path)
  | Await (target : nat)
  (* builds *)
  | MaterializeAll
  | StartBuilds (outputs : list path)
  | LaunchBuild (l : Launch)
  | RunCommand (b : Build)
  | CopyOutput (b : Build) (from : path)
  | AwaitSource (b : Build) (from : path) (target : nat)
  | ReadSource (b : Build) (from : path)
  | FinishBuild (b : Build) (result : BuildResult)
  | EndBuild (b : Build) (result : BuildResult) (keep : option Keep)
  | Complete (a : nat) (e : error_code)
  | CheckKeep (b : Build) (content : str) (keep : Keep)
  | StoreInCache (b : Build) (content : str) (keep : Keep) (stamps : option (list Input))
  | ForgetInCache (outputs : list path)
  (* changes of the source *)
  | SourceChange (diff : DirectoryTreeDiff)
  | ReloadManifest
  | SetRules (rules : list Rule)
  | ExpandRules
  | ApplyRules (commands : gmap path Command)
  | CollectReaders (removed added changed : list path)
  | CollectAffected (diff : DirectoryTreeDiff)
  | Invalidate (outputs : list path).

Record Oracle := {
  now : Z;
  snapshot : option str;
  resolved : option path;
  outcome : BuildResult;
  refusal : option error_code;
  early : option error_code;
  overruled : option error_code;
}.

Section run.
Context {C : Type} `{Cache C} {T : Type} `{DirectoryTree T}.
Context (error_text : error_code → str).

(** What [wait_as] gives: the result of the attempt once it completed, unless
    the coordinator answered before. *)
Definition answer (o : Oracle) (target : nat) (calls : Calls) : option error_code :=
  match early o with
  | Some e => Some e
  | None => (λ c, c.2.2) <$> list_find (λ c, c.1 = target) (completed calls)
  end.

Definition copies_output (c : Command) : bool :=
  bool_decide (command_action c = Copy) && starts_with k_generated_prefix (command_text c).

Definition build_of (l : Launch) : Build := {|
  build_output := launch_output l; build_attempt := launch_attempt l; build_id := launch_id l |}.

(** What an instruction leaves the thread to do first, the threads it starts, and
    the tree after it; [None] while it waits, or where it could not go on. *)
Definition Done : Type := list instr * list (list instr) * Impl (C := C).

Definition launching (launch : option Launch) : list instr :=
  match launch with Some l => [LaunchBuild l] | None => [] end.

(** [build_now], a stretch at a time. *)
Definition open_file (p : path) (pid : Z) (s : Impl) : option Done :=
  let out := lexically_normal p in
  if bool_decide (pid ≠ 0%Z) && is_declared out s
  then Some ([ResolveRequester out pid], [], s)
  else Some ([BringUpToDate out None], [], s).

Definition resolve_requester (o : Oracle) (out : path) (pid : Z) (s : Impl) : option Done :=
  match resolved o with
  | Some requester => Some ([RecordRead requester out; BringUpToDate out (Some requester)], [], s)
  | None => Some ([BringUpToDate out None], [], s)
  end.

Definition wait_for_build (out : path) (s : Impl) : option Done :=
  '(target, launch, s') ← bring_up_to_date out s;
  Some (launching launch ++ match target with Some a => [Await a] | None => [] end, [], s').

Definition wait_on (o : Oracle) (target : nat) (s : Impl) : option Done :=
  _ ← answer o target (m_coordinator s); Some ([], [], s).

(** The loops over [start_build]. *)
Definition start_builds (outputs : list path) (s : Impl) : option Done :=
  match outputs with
  | [] => Some ([], [], s)
  | out :: outputs' =>
      '(launch, s') ← start_build out s;
      Some (launching launch ++ [StartBuilds outputs'], [], s')
  end.

Definition launch_build (o : Oracle) (l : Launch) (s : Impl) : option Done :=
  let b := build_of l in
  let c := launch_command l in
  if decide (command_action c = Tracing) then
    Some ([FinishBuild b (Value {| output_bytes := trace_snapshot (snapshot o); output_inputs := [] |})], [], s)
  else
    match refusal o with
    | Some e => Some ([FinishBuild b (failed e)], [], s)
    | None =>
        Some ([], [[if copies_output c
                    then CopyOutput b (of_string (drop (length k_generated_prefix) (command_text c)))
                    else RunCommand b]],
              set_coordinator (run_attempt (launch_attempt l) (m_coordinator s)) s)
    end.

(** [copy_output], up to its wait, its wait, and what follows. *)
Definition copy_output (o : Oracle) (b : Build) (from : path) (s : Impl) : option Done :=
  match overruled o with
  | Some e => Some ([FinishBuild b (failed e)], [], s)
  | None =>
      '(target, launch, s') ← bring_up_to_date from s;
      Some (launching launch ++
            [match target with Some a => AwaitSource b from a | None => ReadSource b from end], [], s')
  end.

Definition await_source (o : Oracle) (b : Build) (from : path) (target : nat) (s : Impl) : option Done :=
  match overruled o with
  | Some e => Some ([FinishBuild b (failed e)], [], s)
  | None =>
      e ← answer o target (m_coordinator s);
      Some ([if decide (e = no_error) then ReadSource b from
             else FinishBuild b (Unexpected {| failure_error := e; failure_inputs := [as_input from] |})], [], s)
  end.

Definition read_source (o : Oracle) (b : Build) (from : path) (s : Impl) : option Done :=
  bytes ← read_all (m_structure s) from;
  Some ([FinishBuild b match overruled o, bytes with
         | Some e, _ => failed e
         | None, Unexpected e => Unexpected {| failure_error := e; failure_inputs := [as_input from] |}
         | None, Value c => Value {| output_bytes := c; output_inputs := [as_input from] |}
         end], [], s).

(** [finish_build], under the layout lock and after. *)
Definition finish_build (o : Oracle) (b : Build) (result : BuildResult) (s : Impl) : option Done :=
  match result with
  | Value built =>
      '(keep, s') ← record_success (build_output b) built (now o) s;
      Some ([EndBuild b result keep], [], s')
  | Unexpected _ => Some ([EndBuild b result None], [], s)
  end.

Definition conclude_build (b : Build) (result : BuildResult) (keep : option Keep) (s : Impl) : option Done :=
  '(launch, orphaned, s') ← end_build (build_output b) result s;
  Some (Complete (build_attempt b) (result_error result) ::
        match orphaned with
        | Some a => [Complete a (make_error_code no_such_file_or_directory)]
        | None => []
        end ++
        match keep, result with
        | Some k, Value built => [CheckKeep b (output_bytes built) k]
        | _, _ => []
        end ++
        launching launch, [], s').

(** [keep_in_cache], taking [m_cache_mutex] and giving it back. *)
Definition begin_keeping (b : Build) (content : str) (keep : Keep) (s : Impl) : option Done :=
  if m_cache_mutex s then None
  else Some ([StoreInCache b content keep (check_keep (build_output b) keep s)], [], set_cache_mutex true s).

Definition keep_in_cache (source : T) (b : Build) (content : str) (keep : Keep) (stamps : option (list Input))
    (s : Impl) : option Done :=
  Some ([], [], set_cache_mutex false (store_in_cache source (build_output b) content keep stamps s)).

(** [on_source_change], [reload_manifest], [set_rules], [apply_rules] and
    [invalidate]. *)
Definition on_source_change (diff : DirectoryTreeDiff) (s : Impl) : option Done :=
  Some ((if manifest_changed diff then [ReloadManifest]
         else if wildcards_changed diff s then [ExpandRules] else []) ++ [CollectAffected diff], [], s).

Definition reload_manifest (source : T) (s : Impl) : option Done :=
  rules ← read_rules error_text source;
  Some (match rules with Value rs => [SetRules rs] | Unexpected _ => [] end, [], s).

Definition match_wildcards (source : T) (s : Impl) : option Done :=
  commands ← expand_rules source (m_rules s);
  Some ([ApplyRules commands], [], s).

Definition bring_in_line (o : Oracle) (commands : gmap path Command) (s : Impl) : option Done :=
  s' ← apply_rules (now o) commands s;
  Some ([CollectReaders (removed_outputs commands s) (added_outputs commands s)
           (changed_outputs commands s)], [], s').

Definition collect_readers (removed added changed : list path) (s : Impl) : option Done :=
  Some ([ForgetInCache removed;
         Invalidate (changed ++ readers_of_all removed s ++ readers_of_all added s)], [], s).

Definition invalidate_outputs (outputs : list path) (s : Impl) : option Done :=
  '(seen, eager, s') ← invalidate outputs s;
  Some ([ForgetInCache (paths_in_order seen); StartBuilds eager], [], s').

Definition exec (o : Oracle) (source : T) (i : instr) (s : Impl (C := C)) : option Done :=
  match i with
  | OpenFile p pid => open_file p pid s
  | ResolveRequester out pid => resolve_requester o out pid s
  | RecordRead requester out => Some ([], [], record_read requester out s)
  | BringUpToDate out requester => wait_for_build out s
  | Await target => wait_on o target s
  | MaterializeAll =>
      let '(outputs, s') := materialize_all s in Some ([StartBuilds outputs], [], s')
  | StartBuilds outputs => start_builds outputs s
  | LaunchBuild l => launch_build o l s
  | RunCommand b => Some ([FinishBuild b (outcome o)], [], s)
  | CopyOutput b from => copy_output o b from s
  | AwaitSource b from target => await_source o b from target s
  | ReadSource b from => read_source o b from s
  | FinishBuild b result => finish_build o b result s
  | EndBuild b result keep => conclude_build b result keep s
  | Complete a e => Some ([], [], set_coordinator (complete_attempt a e (m_coordinator s)) s)
  | CheckKeep b content keep => begin_keeping b content keep s
  | StoreInCache b content keep stamps => keep_in_cache source b content keep stamps s
  | ForgetInCache outputs => if m_cache_mutex s then None else Some ([], [], forget_in_cache outputs s)
  | SourceChange diff => on_source_change diff s
  | ReloadManifest => reload_manifest source s
  | SetRules rules => Some ([ExpandRules], [], set_rules_of rules s)
  | ExpandRules => match_wildcards source s
  | ApplyRules commands => bring_in_line o commands s
  | CollectReaders removed added changed => collect_readers removed added changed s
  | CollectAffected diff => Some ([Invalidate (affected diff s)], [], s)
  | Invalidate outputs => invalidate_outputs outputs s
  end.

(** [set_rules] in the constructor: nothing is materialized yet, so nothing is
    rebuilt at once. *)
Definition take_rules (t : Z) (source : T) (rules : list Rule) (s : Impl (C := C)) : option Impl :=
  let s1 := set_rules_of rules s in
  commands ← expand_rules source (m_rules s1);
  s2 ← apply_rules t commands s1;
  let removed := removed_outputs commands s1 in
  let changed := changed_outputs commands s1 ++ readers_of_all removed s2 ++
                 readers_of_all (added_outputs commands s1) s2 in
  '(seen, eager, s3) ← invalidate changed (forget_in_cache removed s2);
  _ ← asserted (is_nil eager);
  Some (forget_in_cache (paths_in_order seen) s3).

(** The constructor, or the error it throws. *)
Definition construct (t : Z) (cache : option C) (source : T) : option (expected str (Impl (C := C))) :=
  if bool_decide (status source k_manifest_name = Unexpected (make_error_code no_such_file_or_directory))
  then
    let name := generic_string k_manifest_name in
    Some (Unexpected (format [lit "no "; name;
      lit " in the source directory, so there is nothing to serve; create "; name;
      lit " there, or run makebelieve from the directory that has one"]))
  else
    rules ← read_rules error_text source;
    match rules with
    | Unexpected problems => Some (Unexpected problems)
    | Value rs =>
        s ← take_rules t source rs (empty cache);
        s' ← restore_from_cache source s;
        Some (Value s')
    end.

(** The tree, its source, the threads other than the source's watcher, and what
    the watcher has left to do: it runs one change at a time. *)
Record world := {
  tree : Impl (C := C);
  source : T;
  threads : list (list instr);
  watcher : list instr;
}.

Inductive event :=
  | ThreadStep (i : nat) (o : Oracle)
  | WatcherStep (o : Oracle)
  | SourceMoves (t : T)
  | SourceTells (diff : DirectoryTreeDiff)
  | SomeoneOpens (p : path) (pid : Z)
  | SomeoneMaterializes.

Definition step (e : event) (w : world) : option world :=
  match e with
  | ThreadStep i o =>
      thread ← threads w !! i;
      match thread with
      | [] => None
      | x :: rest =>
          '(more, spawned, s) ← exec o (source w) x (tree w);
          Some {| tree := s; source := source w;
                  threads := <[i := more ++ rest]> (threads w) ++ spawned; watcher := watcher w |}
      end
  | WatcherStep o =>
      match watcher w with
      | [] => None
      | x :: rest =>
          '(more, spawned, s) ← exec o (source w) x (tree w);
          Some {| tree := s; source := source w; threads := threads w ++ spawned; watcher := more ++ rest |}
      end
  | SourceMoves t => Some {| tree := tree w; source := t; threads := threads w; watcher := watcher w |}
  | SourceTells diff =>
      if is_nil (watcher w)
      then Some {| tree := tree w; source := source w; threads := threads w; watcher := [SourceChange diff] |}
      else None
  | SomeoneOpens p pid =>
      Some {| tree := tree w; source := source w; threads := threads w ++ [[OpenFile p pid]];
              watcher := watcher w |}
  | SomeoneMaterializes =>
      Some {| tree := tree w; source := source w; threads := threads w ++ [[MaterializeAll]];
              watcher := watcher w |}
  end.

Fixpoint run (es : list event) (w : world) : option world :=
  match es with [] => Some w | e :: es' => w' ← step e w; run es' w' end.

Definition start (s : Impl (C := C)) (t : T) : world := {| tree := s; source := t; threads := []; watcher := [] |}.

(** What every thread has left to do. *)
Definition pending (w : world) : list instr := concat (threads w) ++ watcher w.
End run.

(** What each instruction does, for case analysis on them. *)
Create HintDb stretches.
#[export] Hint Unfold launching open_file resolve_requester wait_for_build wait_on start_builds launch_build
  copy_output await_source read_source finish_build conclude_build begin_keeping keep_in_cache on_source_change
  reload_manifest match_wildcards bring_in_line collect_readers invalidate_outputs : stretches.
Ltac unfold_stretch := try autounfold with stretches.
