(* ===== verification/BuildTreeFacts.v ===== *)
(** * What the build tree's operations do to its members

    For each stretch of BuildTree.v that changes several members, what each of
    them is afterwards. *)

From S2P Require Export BuildTreeRun.

Section facts.
Context {C : Type} `{Cache C}.
Implicit Types s : Impl (C := C).

(** The members that say what is declared, where it came from and what read
    what: most stretches leave them alone. *)
Record same_declared s s' : Prop := {
  same_structure : m_structure s' = m_structure s;
  same_rules : m_rules s' = m_rules s;
  same_directories : m_wildcard_directories s' = m_wildcard_directories s;
  same_commands : m_commands s' = m_commands s;
  same_dependencies : m_dependencies s' = m_dependencies s;
  same_dependents : m_dependents s' = m_dependents s;
  same_hashes : m_hashes s' = m_hashes s;
  same_cache : m_cache s' = m_cache s;
  same_mutex : m_cache_mutex s' = m_cache_mutex s;
}.

Lemma same_declared_refl s : same_declared s s.
Proof. by constructor. Qed.
Lemma same_declared_trans s1 s2 s3 : same_declared s1 s2 → same_declared s2 s3 → same_declared s1 s3.
Proof. intros [] []. constructor; congruence. Qed.

(** The members that say what is being built. *)
Record same_builds s s' : Prop := {
  same_in_flight : m_in_flight s' = m_in_flight s;
  same_attempts : m_attempts s' = m_attempts s;
  same_reads : m_reads s' = m_reads s;
  same_created : created (m_coordinator s') = created (m_coordinator s);
  same_completed : completed (m_coordinator s') = completed (m_coordinator s);
}.

(** What claiming a build does: [a] is the attempt that was waited for, or a
    new one. *)
Record claims (out : path) (l : Launch) s s' : Prop := {
  claim_output : launch_output l = out;
  claim_command : m_commands s !! out = Some (launch_command l);
  claim_attempt :
    next (attempts_of out s) = Some (launch_attempt l) ∧ m_coordinator s' = m_coordinator s ∨
    next (attempts_of out s) = None ∧
      (launch_attempt l, m_coordinator s') = create_attempt out None (m_coordinator s);
  claim_attempts : m_attempts s' = <[out := {| current := Some (launch_attempt l); next := None;
    invalidations_at_start := default 0%Z (m_invalidations s !! out) |}]> (m_attempts s);
  claim_stale : m_stale s' = m_stale s ∖ {[out]};
  claim_in_flight : m_in_flight s' = {[out]} ∪ m_in_flight s;
  claim_reads : m_reads s' = emplace out ∅ (m_reads s);
  claim_materialized : m_materialized s' = m_materialized s;
  claim_declared : same_declared s s';
}.

Lemma claim_build_claims out s l s' : claim_build out s = Some (l, s') → claims out l s s'.
Proof.
  unfold claim_build, new_attempt, create_attempt.
  destruct (next (attempts_of out s)) as [a|] eqn:En; simpl.
  - destruct (m_commands s !! out) as [c|] eqn:Ec; simpl; [|done]. intros [= <- <-].
    case_bool_decide; constructor; simpl; try done; by left || constructor.
  - destruct (m_commands s !! out) as [c|] eqn:Ec; simpl; [|done]. intros [= <- <-].
    case_bool_decide; constructor; simpl; try done; by right || constructor.
Qed.

Lemma claim_build_total out s : out ∈ dom (m_commands s) → ∃ l s', claim_build out s = Some (l, s').
Proof.
  intros [c Hc]%elem_of_dom. unfold claim_build, new_attempt, create_attempt.
  destruct (next (attempts_of out s)); simpl; rewrite Hc; simpl; eauto.
Qed.

(** ** Dependencies and dependents *)

(** [m_dependents] is [m_dependencies] reversed, and holds no empty sets. *)
Definition mirror (dependencies : gmap path (list path)) (dependents : gmap path (gset path)) : Prop :=
  (∀ i o, o ∈ default ∅ (dependents !! i) ↔ ∃ l, dependencies !! o = Some l ∧ i ∈ l) ∧
  ∀ i, dependents !! i ≠ Some ∅.

Definition mirrored s : Prop := mirror (m_dependencies s) (m_dependents s).

Lemma drop_dependent_lookup out d i j :
  default ∅ (drop_dependent out d i !! j) =
    (if decide (j = i) then default ∅ (d !! j) ∖ {[out]} else default ∅ (d !! j)).
Proof.
  unfold drop_dependent. destruct (decide (j = i)) as [->|Hne].
  - destruct (d !! i) as [readers|] eqn:E; simpl; [|rewrite E; set_solver].
    case_decide as Hr; [rewrite lookup_delete_eq|by rewrite lookup_insert_eq]. by rewrite Hr.
  - destruct (d !! i); [|done]. case_decide; [by rewrite lookup_delete_ne|by rewrite lookup_insert_ne].
Qed.

Lemma drop_dependent_nonempty out d i : (∀ j, d !! j ≠ Some ∅) → ∀ j, drop_dependent out d i !! j ≠ Some ∅.
Proof.
  intros Hd j. unfold drop_dependent. destruct (d !! i); [|done]. case_decide as Hr.
  - rewrite lookup_delete_Some. intros [_ Hj]. by apply Hd in Hj.
  - rewrite lookup_insert_Some. intros [[_ ?]|[_ Hj]]; [done|by apply Hd in Hj].
Qed.

Lemma drop_dependents_lookup out previous d j :
  default ∅ (foldl (drop_dependent out) d previous !! j) =
    (if decide (j ∈ previous) then default ∅ (d !! j) ∖ {[out]} else default ∅ (d !! j)).
Proof.
  revert d. induction previous as [|i previous IH]; intros d; [done|]. simpl.
  rewrite IH, drop_dependent_lookup.
  destruct (decide (j = i)) as [->|Hne]; [rewrite (decide_True (P := i ∈ i :: previous)) by left|].
  - case_decide; set_solver.
  - case_decide as H1; case_decide as H2; set_solver.
Qed.

Lemma drop_dependents_nonempty out previous d :
  (∀ j, d !! j ≠ Some ∅) → ∀ j, foldl (drop_dependent out) d previous !! j ≠ Some ∅.
Proof.
  revert d. induction previous as [|i previous IH]; intros d Hd; [done|]. simpl.
  apply IH. by apply drop_dependent_nonempty.
Qed.

Lemma add_dependents_lookup out inputs d j :
  default ∅ (foldl (add_dependent out) d inputs !! j) =
    (if decide (j ∈ inputs) then {[out]} ∪ default ∅ (d !! j) else default ∅ (d !! j)).
Proof.
  revert d. induction inputs as [|i inputs IH]; intros d; [done|]. simpl. rewrite IH.
  unfold add_dependent. destruct (decide (i = j)) as [->|Hne].
  - rewrite lookup_insert_eq, (decide_True (P := j ∈ j :: inputs)) by left. simpl. case_decide; set_solver.
  - rewrite lookup_insert_ne by done. case_decide as H1; case_decide as H2; set_solver.
Qed.

Lemma add_dependents_nonempty out inputs d :
  (∀ j, d !! j ≠ Some ∅) → ∀ j, foldl (add_dependent out) d inputs !! j ≠ Some ∅.
Proof.
  revert d. induction inputs as [|i inputs IH]; intros d Hd; [done|]. simpl. apply IH.
  intros j. unfold add_dependent. rewrite lookup_insert_Some. intros [[_ E]|[_ Hj]]; [set_solver|by apply Hd in Hj].
Qed.

Lemma update_dependents_mirrored out inputs s : mirrored s → mirrored (update_dependents out inputs s).
Proof.
  intros [Hm Hn]. unfold update_dependents, mirrored; simpl. split.
  - intros i o. rewrite add_dependents_lookup.
    assert (o ∈ default ∅ (match m_dependencies s !! out with
                           | Some previous => foldl (drop_dependent out) (m_dependents s) previous
                           | None => m_dependents s end !! i) ↔
            o ≠ out ∧ o ∈ default ∅ (m_dependents s !! i)) as Hw.
    { pose proof (Hm i out) as Ho. destruct (m_dependencies s !! out) as [previous|] eqn:E.
      - rewrite drop_dependents_lookup. case_decide; set_solver.
      - split; [|tauto]. intros Hin. split; [|done]. intros ->. apply Ho in Hin as (l & ? & _). done. }
    destruct (decide (o = out)) as [->|Hne].
    + rewrite lookup_insert_eq. case_decide; set_solver.
    + rewrite lookup_insert_ne by done. case_decide; set_solver.
  - apply add_dependents_nonempty. destruct (m_dependencies s !! out); [by apply drop_dependents_nonempty|done].
Qed.

Lemma remove_output_mirrored s out : mirrored s → mirrored (remove_output s out).
Proof.
  intros Hs. unfold remove_output.
  assert (∀ s1, mirrored s1 → mirrored
    (let s4 := update_dependents out [] s1 in set_dependencies (delete out (m_dependencies s4)) s4)) as Hforget.
  { intros s1 [Hm Hn]%(update_dependents_mirrored out []). split; simpl in *; [|done]. intros i o.
    rewrite Hm. destruct (decide (o = out)) as [->|Hne].
    - rewrite lookup_insert_eq, lookup_delete_eq. split; [|naive_solver]. by intros (l & [= <-] & ?%elem_of_nil).
    - by rewrite lookup_delete_ne by done. }
  apply Hforget. by case_decide.
Qed.

Lemma same_mirrored s s' : same_declared s s' → mirrored s → mirrored s'.
Proof. intros [] [Hm Hn]. unfold mirrored. by rewrite same_dependencies0, same_dependents0. Qed.
End facts.
