(* ===== verification/Invalidate.v ===== *)
(** * Invalidation is exact (src/builddirectorytree.cpp, [Impl::invalidate])

    The loop ends, whatever reads whatever, and marks the outputs it is given,
    what read them, what read those, and so on, and nothing else. *)

From S2P Require Export BuildTreeFacts.

Section invalidate.
Context {C : Type} `{Cache C}.
Implicit Types s : Impl (C := C).

(** [b] read [a], both declared. *)
Definition is_read_by s (a b : path) : Prop :=
  a ∈ dom (m_commands s) ∧ b ∈ dom (m_commands s) ∧ b ∈ readers_of (as_input a) s.

Definition reached s (outputs : list path) (o : path) : Prop :=
  ∃ o', o' ∈ outputs ∧ o' ∈ dom (m_commands s) ∧ rtc (is_read_by s) o' o.

Lemma reached_declared s outputs o : reached s outputs o → o ∈ dom (m_commands s).
Proof.
  intros (o' & _ & Ho' & Hr). revert Ho'. induction Hr as [|x y z (_ & Hy & _) _ IH]; [done|].
  intros _. by apply IH.
Qed.

(** The readers still to be pushed. *)
Definition weight s (seen : gset path) (ks : list path) : nat :=
  sum_list ((λ o, if decide (o ∈ seen) then 0 else length (readers_of (as_input o) s)) <$> ks).

Lemma weight_cons s seen k ks : weight s seen (k :: ks) =
  (if decide (k ∈ seen) then 0 else length (readers_of (as_input k) s)) + weight s seen ks.
Proof. done. Qed.

Lemma weight_seen s seen ks o : weight s ({[o]} ∪ seen) ks ≤ weight s seen ks.
Proof.
  induction ks as [|k ks IH]; [done|]. rewrite !weight_cons.
  destruct (decide (k ∈ seen)) as [Hk|Hk].
  - rewrite decide_True by set_solver. lia.
  - destruct (decide _); lia.
Qed.

Lemma weight_new s seen ks o :
  o ∈ ks → o ∉ seen →
  weight s ({[o]} ∪ seen) ks + length (readers_of (as_input o) s) ≤ weight s seen ks.
Proof.
  intros Ho Hn. induction ks as [|k ks IH]; [by apply elem_of_nil in Ho|]. rewrite !weight_cons.
  apply elem_of_cons in Ho as [->|Ho].
  - rewrite decide_True by set_solver. rewrite (decide_False (P := k ∈ seen)) by done.
    pose proof (weight_seen s seen ks k). lia.
  - specialize (IH Ho). destruct (decide (k ∈ seen)) as [Hk|Hk].
    + rewrite decide_True by set_solver. lia.
    + destruct (decide _); lia.
Qed.

(** [s'] is [s] with the outputs [seen] marked. *)
Record marked s (seen : gset path) s' : Prop := {
  marked_stale : m_stale s' = seen ∪ m_stale s;
  marked_count o : m_invalidations s' !! o =
    if decide (o ∈ seen) then Some (next64 (default 0%Z (m_invalidations s !! o)))
    else m_invalidations s !! o;
  marked_materialized : m_materialized s' = m_materialized s;
  marked_declared : same_declared s s';
  marked_builds : same_builds s s';
  marked_rest : set_invalidations (m_invalidations s) (set_stale (m_stale s) s') = s;
}.

Lemma marked_one s seen s1 o :
  marked s seen s1 → o ∉ seen →
  marked s ({[o]} ∪ seen)
    (set_invalidations (<[o := next64 (default 0%Z (m_invalidations s1 !! o))]> (m_invalidations s1))
      (set_stale ({[o]} ∪ m_stale s1) s1)).
Proof.
  intros [Hst Hc Hm [] [] Hr] Ho. constructor; simpl;
    [by rewrite Hst, assoc_L by apply _| |done|by constructor|by constructor|by rewrite <- Hr].
  intros x. destruct (decide (x = o)) as [->|Hne].
  - rewrite lookup_insert_eq, (Hc o), decide_False, decide_True by set_solver. done.
  - rewrite lookup_insert_ne, Hc by done. destruct (decide (x ∈ seen)).
    + by rewrite decide_True by set_solver.
    + by rewrite decide_False by set_solver.
Qed.

Lemma readers_declared s s' input : same_declared s s' → readers_of input s' = readers_of input s.
Proof. intros []. unfold readers_of. by rewrite same_dependents. Qed.

(** What the loop keeps up, having started with [outputs] in [s]. *)
Record visiting s (outputs stack : list path) (seen : gset path) (eager : list path) s1 : Prop := {
  visit_marked : marked s seen s1;
  visit_sound o : o ∈ seen → reached s outputs o;
  visit_stack o : o ∈ stack → o ∈ dom (m_commands s) → reached s outputs o;
  visit_outputs o : o ∈ outputs → o ∈ dom (m_commands s) → o ∈ seen ∨ o ∈ stack;
  visit_closed a b : a ∈ seen → is_read_by s a b → b ∈ seen ∨ b ∈ stack;
  visit_eager o : o ∈ eager ↔ o ∈ seen ∧ o ∈ m_materialized s ∧ o ∉ m_in_flight s;
  visit_once : NoDup eager;
}.

Lemma visit_skip s outputs o stack seen eager s1 :
  visiting s outputs (o :: stack) seen eager s1 → o ∉ dom (m_commands s) ∨ o ∈ seen →
  visiting s outputs stack seen eager s1.
Proof.
  intros [Hm Hs Hst Ho Hc He Hn] Hor. constructor; try done.
  - intros x Hx. apply Hst. by right.
  - intros x Hx Hd. destruct (Ho x Hx Hd) as [?|[->|?]%elem_of_cons]; [by left| |by right].
    destruct Hor; [done|by left].
  - intros a b Ha Hab. destruct (Hc a b Ha Hab) as [?|[->|?]%elem_of_cons]; [by left| |by right].
    destruct Hor; [|by left]. by destruct Hab as (_ & ? & _).
Qed.

Lemma visit_one s outputs o stack seen eager s1 s2 :
  visiting s outputs (o :: stack) seen eager s1 → o ∈ dom (m_commands s) → o ∉ seen →
  marked s ({[o]} ∪ seen) s2 →
  visiting s outputs (rev (readers_of (as_input o) s2) ++ stack) ({[o]} ∪ seen)
    (if bool_decide (o ∈ m_materialized s2) && bool_decide (o ∉ m_in_flight s2) then o :: eager else eager) s2.
Proof.
  intros [Hm Hs Hst Ho Hc He Hn] Hd Hnew Hm2.
  rewrite (readers_declared s s2) by apply Hm2.
  rewrite (marked_materialized _ _ _ Hm2), (same_in_flight _ _ (marked_builds _ _ _ Hm2)).
  assert (reached s outputs o) as Hreach by (apply Hst; [left|done]).
  assert (∀ x, x ∈ rev (readers_of (as_input o) s) ++ stack ↔ x ∈ readers_of (as_input o) s ∨ x ∈ stack) as Hin.
  { intros x. by rewrite elem_of_app, elem_of_rev. }
  constructor; [done|..].
  - intros x [->%elem_of_singleton|?]%elem_of_union; [done|by apply Hs].
  - intros x [Hx|Hx]%Hin Hxd; [|apply Hst; [by right|done]].
    destruct Hreach as (o' & Ho' & Hd' & Hr). exists o'. split_and!; [done..|].
    eapply rtc_r; [done|]. done.
  - intros x Hx Hxd. rewrite Hin, elem_of_union, elem_of_singleton.
    destruct (Ho x Hx Hxd) as [?|[?|?]%elem_of_cons]; tauto.
  - intros a b Ha Hab. rewrite Hin, elem_of_union, elem_of_singleton.
    apply elem_of_union in Ha as [->%elem_of_singleton|Ha].
    + destruct Hab as (_ & _ & ?). tauto.
    + destruct (Hc a b Ha Hab) as [?|[?|?]%elem_of_cons]; tauto.
  - intros x. rewrite elem_of_union, elem_of_singleton.
    case_bool_decide; simpl; [case_bool_decide; simpl|]; rewrite ?elem_of_cons, He; naive_solver.
  - case_bool_decide; simpl; [case_bool_decide; simpl|]; [|done..].
    constructor; [|done]. rewrite He. naive_solver.
Qed.

Lemma invalidate_loop_spec s outputs fuel stack seen eager s1 :
  visiting s outputs stack seen eager s1 →
  length stack + weight s seen (in_order (m_commands s)).*1 ≤ fuel →
  ∃ seen' eager' s2, invalidate_loop fuel stack seen eager s1 = Some (seen', eager', s2) ∧
    visiting s outputs [] seen' eager' s2.
Proof.
  revert stack seen eager s1. induction fuel as [|fuel IH]; intros [|o stack] seen eager s1 Hv Hfuel.
  - by eexists _, _, _.
  - simpl in Hfuel. lia.
  - by eexists _, _, _.
  - simpl in Hfuel. cbn [invalidate_loop]. pose proof (visit_marked _ _ _ _ _ _ Hv) as Hm.
    rewrite (same_commands _ _ (marked_declared _ _ _ Hm)).
    destruct (bool_decide (o ∉ dom (m_commands s)) || bool_decide (o ∈ seen)) eqn:E.
    + apply IH; [|lia]. apply (visit_skip s outputs o); [done|].
      apply orb_prop in E as [E|E]; apply bool_decide_eq_true in E; tauto.
    + apply orb_false_elim in E as [Hd Hnew]. apply bool_decide_eq_false in Hd, Hnew.
      apply dec_stable in Hd.
      pose proof (marked_one s seen s1 o Hm Hnew) as Hm2.
      apply IH; [by apply visit_one with s1|].
      rewrite length_app, length_rev, (readers_declared s) by apply Hm2.
      pose proof (weight_new s seen (in_order (m_commands s)).*1 o) as Hw.
      enough (o ∈ (in_order (m_commands s)).*1) by (specialize (Hw ltac:(done) Hnew); lia).
      by apply in_order_fst.
Qed.

(** What [invalidate] does to the tree. *)
Lemma invalidate_spec outputs s :
  ∃ seen eager s', invalidate outputs s = Some (seen, eager, s') ∧
    (∀ o, o ∈ seen ↔ reached s outputs o) ∧ marked s seen s' ∧
    (∀ o, o ∈ eager ↔ o ∈ seen ∧ o ∈ m_materialized s ∧ o ∉ m_in_flight s) ∧ NoDup eager.
Proof.
  destruct (invalidate_loop_spec s outputs (invalidate_fuel outputs s) (rev outputs) ∅ [] s)
    as (seen & eager & s' & E & [Hm Hs Hst Ho Hc He Hn]).
  - constructor; try done.
    + constructor; [set_solver|by intros o; rewrite decide_False by set_solver|done|by constructor|by constructor|by destruct s].
    + intros o Ho Hd. exists o. rewrite elem_of_rev in Ho. by split_and!.
    + intros o Ho Hd. right. by rewrite elem_of_rev.
    + intros o. set_solver.
    + constructor.
  - unfold invalidate_fuel, weight. rewrite length_rev, <- list_fmap_compose. reflexivity.
  - unfold invalidate. rewrite E. simpl. eexists _, _, _. split; [done|]. split_and!; [|done|..].
    + intros o. split; [apply Hs|]. intros (o' & Ho' & Hd & Hr).
      assert (o' ∈ seen) as Hin by (by destruct (Ho o' Ho' Hd) as [?|?%elem_of_nil]).
      clear Ho' Hd. induction Hr as [|x y z Hxy _ IH]; [done|]. apply IH.
      by destruct (Hc x y Hin Hxy) as [?|?%elem_of_nil].
    + intros o. by rewrite elem_of_rev, He.
    + by rewrite <- Permutation_rev.
Qed.
End invalidate.
