(* ===== verification/BuildTreeInv.v ===== *)
(** * What holds of the build tree's bookkeeping at all times

    Every attempt ever created is in exactly one place: completed, owed by
    something a thread has left to do, or kept for the build after one under
    way. Every output in flight is being built by exactly one thread. *)

From S2P Require Export Invalidate.

(** ** What is left to do owes *)

(** The build an instruction is part of: its output and its attempt. *)
Definition build_pair (i : instr) : option (path * nat) :=
  match i with
  | LaunchBuild l => Some (launch_output l, launch_attempt l)
  | RunCommand b | CopyOutput b _ | AwaitSource b _ _ | ReadSource b _ | FinishBuild b _ | EndBuild b _ _ =>
      Some (build_output b, build_attempt b)
  | _ => None
  end.

Definition owed (i : instr) : list nat :=
  match i with
  | Complete a _ => [a]
  | _ => match build_pair i with Some (_, a) => [a] | None => [] end
  end.
Definition builds (i : instr) : list path :=
  match build_pair i with Some (o, _) => [o] | None => [] end.

(** The attempts kept for the builds after those under way. *)
Definition nexts (m : gmap path Attempts) : list nat := omap (λ x, next x.2) (map_to_list m).

Lemma omap_perm {A B} (f : A → option B) (l k : list A) : l ≡ₚ k → omap f l ≡ₚ omap f k.
Proof.
  induction 1 as [|x l k _ IH|x y l|l1 l2 l3 _ IH1 _ IH2]; simpl; [done|..].
  - destruct (f x); by rewrite IH.
  - destruct (f x), (f y); try done. apply Permutation_swap.
  - by etrans.
Qed.

Lemma nexts_insert o x m : m !! o = None → nexts (<[o := x]> m) ≡ₚ option_list (next x) ++ nexts m.
Proof.
  intros Ho. unfold nexts. rewrite (omap_perm _ _ _ (map_to_list_insert m o x Ho)). simpl.
  by destruct (next x).
Qed.

Lemma nexts_delete o m : nexts m ≡ₚ option_list (m !! o ≫= next) ++ nexts (delete o m).
Proof.
  destruct (m !! o) as [x|] eqn:E; simpl.
  - rewrite <- nexts_insert by apply lookup_delete_eq. by rewrite insert_delete_id.
  - by rewrite delete_id.
Qed.

Lemma nexts_replace o x m :
  nexts (<[o := x]> m) ≡ₚ option_list (next x) ++ nexts (delete o m).
Proof.
  rewrite <- insert_delete_eq. apply nexts_insert, lookup_delete_eq.
Qed.

Section inv.
Context {C : Type} `{Cache C}.
Implicit Types s : Impl (C := C).

(** The bookkeeping, when what is left to do is [todo]. [x] is an output whose
    build is just ending, if any. *)
Record bookkept_but (x : option path) (todo : list instr) s : Prop := {
  bk_attempts : seq 0 (length (created (m_coordinator s))) ≡ₚ
    (completed (m_coordinator s)).*1 ++ (todo ≫= owed) ++ nexts (m_attempts s);
  bk_builds : elements (m_in_flight s) ≡ₚ todo ≫= builds;
  bk_reads : dom (m_reads s) = m_in_flight s;
  bk_next o att : m_attempts s !! o = Some att → is_Some (next att) → o ∈ m_in_flight s ∨ x = Some o;
  bk_current i o a : i ∈ todo → build_pair i = Some (o, a) →
    ∃ att, m_attempts s !! o = Some att ∧ current att = Some a;
}.
Definition bookkept := bookkept_but None.

Lemma bind_owed_perm {B} (f : instr → list B) todo todo' : todo ≡ₚ todo' → todo ≫= f ≡ₚ todo' ≫= f.
Proof. intros E. by rewrite E. Qed.

Lemma bookkept_perm x todo todo' s : todo ≡ₚ todo' → bookkept_but x todo s → bookkept_but x todo' s.
Proof.
  intros E [Ha Hb Hr Hn Hc]. constructor; try done.
  - by rewrite Ha, E.
  - by rewrite Hb, E.
  - intros i o a Hi. apply Hc. by rewrite E.
Qed.

(** Replacing an output's attempts by the same ones, there or not. *)
Lemma bookkept_touch x todo s out :
  bookkept_but x todo s →
  bookkept_but x todo (set_attempts (<[out := attempts_of out s]> (m_attempts s)) s).
Proof.
  intros [Ha Hb Hr Hn Hc]. constructor; simpl; try done.
  - rewrite Ha, nexts_replace, (nexts_delete out (m_attempts s)). unfold attempts_of.
    by destruct (m_attempts s !! out).
  - intros o att. rewrite lookup_insert_Some. unfold attempts_of. intros [[<- <-]|[_ Ho]].
    + destruct (m_attempts s !! out) as [att|] eqn:E; [by apply Hn|by intros []].
    + by apply Hn.
  - intros i o a Hi Hpair. destruct (Hc i o a Hi Hpair) as (att & Hatt & Hcur).
    exists att. split; [|done]. destruct (decide (o = out)) as [->|Hne].
    + rewrite lookup_insert_eq. unfold attempts_of. by rewrite Hatt.
    + by rewrite lookup_insert_ne.
Qed.

(** Nothing else is building an output that is not in flight. *)
Lemma not_building x todo s i o a :
  bookkept_but x todo s → o ∉ m_in_flight s → i ∈ todo → build_pair i = Some (o, a) → False.
Proof.
  intros [_ Hb _ _ _] Ho Hi Hp. apply Ho. rewrite <- elem_of_elements, Hb. apply list_elem_of_bind.
  exists i. split; [|done]. unfold builds. rewrite Hp. left.
Qed.

Lemma claims_bookkept x todo s l s' out :
  bookkept_but x todo s → (x = None ∨ x = Some out) → out ∉ m_in_flight s → claims out l s s' →
  bookkept (LaunchBuild l :: todo) s'.
Proof.
  intros Hbk Hx Hout [Hlo _ Hatt Has _ Hif Hrd _ _]. pose proof Hbk as [Ha Hb Hr Hn Hc].
  constructor.
  - cbn [mbind list_bind owed build_pair]. rewrite Has, nexts_replace. simpl.
    rewrite (nexts_delete out (m_attempts s)) in Ha.
    destruct Hatt as [[Hnx ->]|[Hnx E]].
    + unfold attempts_of in Hnx. destruct (m_attempts s !! out) as [att|]; simpl in *; [|done].
      rewrite Hnx in Ha. simpl in Ha. rewrite Ha. solve_Permutation.
    + unfold create_attempt in E. injection E as Hla Hco. rewrite Hco. simpl.
      unfold attempts_of in Hnx. rewrite length_app. simpl. rewrite Nat.add_1_r, seq_S, Ha. simpl.
      replace (m_attempts s !! out ≫= next) with (@None nat) by (by destruct (m_attempts s !! out)).
      rewrite Hla. simpl. solve_Permutation.
  - cbn [mbind list_bind builds build_pair]. rewrite Hif, elements_union_singleton by done.
    rewrite Hb, Hlo. done.
  - rewrite Hif, Hrd. apply set_eq. intros o. rewrite elem_of_dom_emplace, Hr. set_solver.
  - intros o att. rewrite Has, Hif, lookup_insert_Some. intros [[<- <-]|[Hne Ho]] Hnx; [by destruct Hnx|].
    left. destruct (Hn o att Ho Hnx) as [?|E]; [set_solver|]. destruct Hx; congruence.
  - intros i o a [->|Hi]%elem_of_cons Hp; rewrite Has.
    + simpl in Hp. injection Hp as <- <-. rewrite Hlo, lookup_insert_eq. by eexists.
    + destruct (decide (o = out)) as [->|Hne].
      { exfalso. by eapply not_building. }
      rewrite lookup_insert_ne by done. by apply (Hc i).
Qed.

Definition launches (launch : option Launch) : list instr :=
  match launch with Some l => [LaunchBuild l] | None => [] end.

Lemma bookkept_members x todo s s' :
  same_builds s s' → bookkept_but x todo s → bookkept_but x todo s'.
Proof. intros [E1 E2 E3 E4 E5] []. by constructor; rewrite ?E1, ?E2, ?E3, ?E4, ?E5. Qed.

Lemma bookkept_next todo s out (att := attempts_of out s) a calls :
  bookkept todo s → out ∈ m_in_flight s → next att = None →
  (a, calls) = create_attempt out (current att) (m_coordinator s) →
  let att' := {| current := current att; next := Some a; invalidations_at_start := invalidations_at_start att |} in
  bookkept todo (set_attempts (<[out := att']> (m_attempts s)) (set_coordinator calls s)).
Proof.
  intros [Ha Hb Hr Hn Hc] Hout Hnx [= -> ->]. constructor; simpl; try done.
  - rewrite length_app, Nat.add_1_r, seq_S, Ha, nexts_replace, (nexts_delete out (m_attempts s)). simpl.
    unfold att, attempts_of in Hnx.
    replace (m_attempts s !! out ≫= next) with (@None nat) by (by destruct (m_attempts s !! out)).
    simpl. solve_Permutation.
  - intros o at'. rewrite lookup_insert_Some. intros [[<- <-]|[_ Ho]]; [by left|by apply Hn].
  - intros i o b Hi Hp. destruct (Hc i o b Hi Hp) as (at' & Hat & Hcur).
    destruct (decide (o = out)) as [->|Hne]; [|exists at'; by rewrite lookup_insert_ne].
    rewrite lookup_insert_eq. eexists. split; [done|]. simpl. unfold att, attempts_of. by rewrite Hat.
Qed.

Lemma bring_up_bookkept todo s out target launch s' :
  bookkept todo s → bring_up_to_date out s = Some (target, launch, s') →
  bookkept (launches launch ++ todo) s'.
Proof.
  intros Hbk. unfold bring_up_to_date. destruct (m_commands s !! out) as [c|]; [|by intros [= <- <- <-]].
  set (s1 := set_materialized _ _).
  set (s2 := if (_ : bool) then set_stale _ s1 else s1).
  assert (bookkept todo s2) as Hbk2.
  { apply (bookkept_members None todo s s2); [|done]. by unfold s2; destruct (_ && _). }
  pose proof (bookkept_touch None todo s2 out Hbk2) as Hbk3.
  set (s3 := set_attempts _ s2) in *. clearbody s2.
  assert (attempts_of out s3 = attempts_of out s2) as Hat
    by (unfold attempts_of at 1; simpl; by rewrite lookup_insert_eq).
  destruct (decide (out ∈ m_in_flight s3)) as [Hf|Hf].
  - destruct (decide _); [by intros [= <- <- <-]|].
    destruct (next (attempts_of out s2)) as [a|] eqn:Hnx; [by intros [= <- <- <-]|].
    destruct (new_attempt out _ s3) as [a s4] eqn:E. intros [= <- <- <-]. simpl.
    unfold new_attempt in E. destruct (create_attempt _ _ _) as [b calls] eqn:Ec. injection E as <- <-.
    pose proof (bookkept_next todo s3 out b calls Hbk3 Hf) as Hnext. rewrite Hat in Hnext. by apply Hnext.
  - destruct (decide _); [|by intros [= <- <- <-]].
    destruct (claim_build out s3) as [[l s4]|] eqn:E; simpl; [|done]. intros [= <- <- <-].
    eapply (claims_bookkept None); [done|by left|done|by apply claim_build_claims].
Qed.

Lemma start_build_bookkept todo s out launch s' :
  bookkept todo s → start_build out s = Some (launch, s') → bookkept (launches launch ++ todo) s'.
Proof.
  intros Hbk. unfold start_build. destruct (_ || _) eqn:E; [by intros [= <- <-]|].
  destruct (claim_build out s) as [[l s4]|] eqn:Ec; simpl; [|done]. intros [= <- <-].
  bool_to_prop. eapply (claims_bookkept None); [done|by left|done|by apply claim_build_claims].
Qed.

(** ** The end of a build *)

Lemma update_dependents_builds out inputs s : same_builds s (update_dependents out inputs s).
Proof. by constructor. Qed.

Lemma record_failure_builds out result s : same_builds s (record_failure out result s).
Proof.
  unfold record_failure. destruct result; [by constructor|].
  destruct (is_declared _ _); [|by constructor]. by destruct (is_nil _).
Qed.

(** Once its build has let go of it, an output may have an attempt kept for the
    next, which nothing in flight stands for. *)
Lemma build_lets_go b result keep todo s :
  bookkept (EndBuild b result keep :: todo) s →
  let s' := set_reads (delete (build_output b) (m_reads s))
              (set_in_flight (m_in_flight s ∖ {[build_output b]}) s) in
  bookkept_but (Some (build_output b)) (Complete (build_attempt b) (result_error result) :: todo) s'.
Proof.
  intros [Ha Hb Hr Hn Hc]. cbn [mbind list_bind builds owed build_pair] in *. set (out := build_output b) in *.
  assert (out ∈ m_in_flight s) as Hin by (rewrite <- elem_of_elements, Hb; left).
  assert (elements (m_in_flight s ∖ {[out]}) ≡ₚ todo ≫= builds) as Hb'.
  { apply (inj (cons out)). rewrite <- elements_union_singleton by set_solver.
    rewrite <- union_difference_L by set_solver. done. }
  constructor; simpl.
  - rewrite Ha. simpl. done.
  - done.
  - by rewrite dom_delete_L, Hr.
  - intros o att Ho Hnx. destruct (decide (o = out)) as [->|Hne]; [by right|].
    left. destruct (Hn o att Ho Hnx); [set_solver|done].
  - intros i o a [->|Hi]%elem_of_cons Hp; [done|]. by apply (Hc i o a); [right|].
Qed.

Lemma end_build_bookkept b result keep todo s launch orphaned s' :
  bookkept (EndBuild b result keep :: todo) s →
  end_build (build_output b) result s = Some (launch, orphaned, s') →
  bookkept (launches launch ++
            match orphaned with
            | Some a => [Complete a (make_error_code no_such_file_or_directory)] | None => [] end ++
            Complete (build_attempt b) (result_error result) :: todo) s'.
Proof.
  intros Hbk. unfold end_build. set (out := build_output b).
  pose proof (bookkept_members _ _ _ _ (record_failure_builds out result s) Hbk) as Hbk1.
  set (s1 := record_failure out result s) in *. clearbody s1.
  pose proof (build_lets_go b result keep todo s1 Hbk1) as Hbk2. fold out in Hbk2.
  set (s2 := set_reads _ _) in *. cbn zeta in Hbk2.
  assert (out ∉ m_in_flight s2) as Hnf by (unfold s2; simpl; set_solver). clearbody s2.
  destruct (is_declared out s2).
  - set (s3 := if has_value result then s2 else set_stale _ s2).
    assert (bookkept_but (Some out) (Complete (build_attempt b) (result_error result) :: todo) s3) as Hbk3.
    { apply (bookkept_members _ _ s2 s3); [|done]. by unfold s3; destruct (has_value result). }
    assert (m_attempts s3 = m_attempts s2 ∧ m_in_flight s3 = m_in_flight s2) as [Eat Eif]
      by (by unfold s3; destruct (has_value result)).
    destruct (_ || _) eqn:Hre.
    + destruct (claim_build out s3) as [[l s4]|] eqn:E; simpl; [|done]. intros [= <- <- <-]. simpl.
      eapply (claims_bookkept (Some out)); [done|by right| |by apply claim_build_claims].
      by rewrite Eif.
    + intros [= <- <- <-]. simpl. destruct Hbk3 as [Ha Hb Hr Hn Hc]. constructor; try done.
      intros o att Ho Hnx. left. destruct (Hn o att Ho Hnx) as [?|[= ->]]; [done|]. exfalso.
      apply orb_false_elim in Hre as [Hre _]. apply bool_decide_eq_false in Hre. apply Hre.
      rewrite Eat in Ho. by rewrite Ho.
  - destruct (m_attempts s2 !! out) as [att|] eqn:Eat.
    + intros [= <- <- <-]. cbn [launches]. destruct Hbk2 as [Ha Hb Hr Hn Hc]. constructor; simpl.
      * rewrite Ha, (nexts_delete out (m_attempts s2)), Eat. simpl.
        destruct (next att); cbn [mbind list_bind app owed build_pair]; solve_Permutation.
      * rewrite Hb. by destruct (next att).
      * done.
      * intros o at' [Hne Ho]%lookup_delete_Some Hnx. left. destruct (Hn o at' Ho Hnx); [done|congruence].
      * intros i o a Hi Hp. assert (i ∈ todo) as Hi'.
        { destruct (next att); [apply elem_of_cons in Hi as [->|Hi]; [done|]|];
            by apply elem_of_cons in Hi as [->|Hi]. }
        rewrite lookup_delete_ne; [apply (Hc i); [by right|done]|]. intros <-.
        eapply (not_building _ _ s2 i out a); [by constructor|done|by right|done].
    + intros [= <- <- <-]. destruct Hbk2 as [Ha Hb Hr Hn Hc]. constructor; try done.
      intros o at' Ho Hnx. left. destruct (Hn o at' Ho Hnx); [done|congruence].
Qed.

(** ** Rules that go *)

Lemma remove_output_bookkept todo s out : bookkept todo s → bookkept todo (remove_output s out).
Proof.
  intros Hbk. unfold remove_output.
  set (s2 := set_invalidations _ _).
  assert (bookkept todo s2) as Hbk2 by (by apply (bookkept_members None todo s)).
  assert (bookkept todo (if decide (out ∈ m_in_flight s2) then s2
                         else set_attempts (delete out (m_attempts s2)) s2)) as Hbk3.
  { clearbody s2. destruct (decide _) as [|Hf]; [done|]. pose proof Hbk2 as [Ha Hb Hr Hn Hc]. constructor; simpl; try done.
    - rewrite Ha, (nexts_delete out (m_attempts s2)).
      destruct (m_attempts s2 !! out) as [att|] eqn:E; simpl; [|done].
      destruct (next att) as [a|] eqn:Hnx; [|done]. exfalso.
      destruct (Hn out att E) as [?|?]; [by rewrite Hnx|done..].
    - intros o att [_ Ho]%lookup_delete_Some. by apply Hn.
    - intros i o a Hi Hp. rewrite lookup_delete_ne; [by apply (Hc i)|]. intros <-.
      by apply (not_building None todo s2 i out a). }
  by apply (bookkept_members None todo (if decide (out ∈ m_in_flight s2) then s2
    else set_attempts (delete out (m_attempts s2)) s2)).
Qed.

(** ** Every instruction *)

(** An instruction that owes no attempt. *)
Definition idle (i : instr) : bool := is_nil (owed i).

Lemma idle_pair i : idle i = true → build_pair i = None ∧ builds i = [] ∧ owed i = [].
Proof. unfold idle. rewrite is_nil_true. intros E. unfold builds. by destruct i. Qed.

Lemma bookkept_drop x i todo s : idle i = true → bookkept_but x (i :: todo) s → bookkept_but x todo s.
Proof.
  intros (Hp & Hb' & Ho)%idle_pair [Ha Hb Hr Hn Hc]. constructor; try done.
  - rewrite Ha. cbn [mbind list_bind]. by rewrite Ho.
  - rewrite Hb. cbn [mbind list_bind]. by rewrite Hb'.
  - intros j o a Hj. apply Hc. by right.
Qed.

Lemma bookkept_idle x more todo s :
  forallb idle more = true → bookkept_but x todo s → bookkept_but x (more ++ todo) s.
Proof.
  induction more as [|i more IH]; [done|]. simpl. intros [(Hp & Hb' & Ho)%idle_pair His]%andb_prop Hbk.
  destruct (IH His Hbk) as [Ha Hb Hr Hn Hc]. constructor; try done.
  - rewrite Ha. cbn [mbind list_bind]. by rewrite Ho.
  - rewrite Hb. cbn [mbind list_bind]. by rewrite Hb'.
  - intros j o a [->|Hj]%elem_of_cons Hpair; [congruence|]. by apply (Hc j).
Qed.

(** One instruction of a build takes over from another. *)
Lemma bookkept_hand_over x i j todo s :
  build_pair i = build_pair j → is_Some (build_pair i) →
  bookkept_but x (i :: todo) s → bookkept_but x (j :: todo) s.
Proof.
  intros E [[o a] Hp] [Ha Hb Hr Hn Hc].
  assert (owed i = owed j ∧ builds i = builds j) as [Ho Hbl].
  { unfold builds. rewrite <- E, Hp. split; [|done].
    rewrite Hp in E. destruct i, j; simpl in *; congruence. }
  constructor; try done.
  - rewrite Ha. cbn [mbind list_bind]. by rewrite Ho.
  - rewrite Hb. cbn [mbind list_bind]. by rewrite Hbl.
  - intros k o' a' [->|Hk]%elem_of_cons Hpair; [apply (Hc i); [left|congruence]|].
    apply (Hc k); [by right|done].
Qed.

Lemma record_success_builds out built t s keep s' todo :
  bookkept todo s → record_success out built t s = Some (keep, s') → bookkept todo s'.
Proof.
  intros Hbk. unfold record_success. destruct (m_commands s !! out) as [c|]; [|by intros [= <- <-]].
  destruct (m_cache s) as [cache|].
  - destruct (decide _).
    + destruct (write_file _ _ _ _); simpl; [|done]. intros [= <- <-]. by apply (bookkept_members None todo s).
    + destruct (write_file _ _ _ _); simpl; [|done]. intros [= <- <-].
      set (s1 := set_hashes _ s).
      pose proof (bookkept_touch None todo s1 out) as Hbk1.
      apply (bookkept_members None todo (set_attempts (<[out := attempts_of out s1]> (m_attempts s1)) s1)); [done|].
      apply Hbk1. by apply (bookkept_members None todo s).
  - destruct (write_file _ _ _ _); simpl; [|done]. intros [= <- <-]. by apply (bookkept_members None todo s).
Qed.

Lemma apply_rules_bookkept t commands s s' todo :
  bookkept todo s → apply_rules t commands s = Some s' → bookkept todo s'.
Proof.
  intros Hbk. unfold apply_rules. set (s2 := set_materialized _ _).
  assert (∀ l s0, bookkept todo s0 → bookkept todo (foldl remove_output s0 l)) as Hfold.
  { induction l as [|o l IH]; intros s0 H0; [done|]. by apply IH, remove_output_bookkept. }
  destruct (remove_outputs _ _) as [tree|]; simpl; [|done].
  destruct (add_placeholders _ _ _) as [tree'|]; simpl; [|done]. intros [= <-].
  apply (bookkept_members None todo (foldl remove_output s2 (removed_outputs commands s))); [done|].
  apply Hfold. by apply (bookkept_members None todo s).
Qed.

Lemma complete_bookkept a e todo s :
  bookkept (Complete a e :: todo) s →
  bookkept todo (set_coordinator (complete_attempt a e (m_coordinator s)) s).
Proof.
  intros [Ha Hb Hr Hn Hc]. constructor; simpl; try done.
  - rewrite Ha. cbn [mbind list_bind owed build_pair]. rewrite fmap_app. simpl. solve_Permutation.
  - intros i o b Hi. apply Hc. by right.
Qed.

Lemma idle_step i more todo s s' :
  idle i = true → forallb idle more = true → same_builds s s' →
  bookkept (i :: todo) s → bookkept (concat [] ++ more ++ todo) s'.
Proof.
  intros Hi Hm Hs Hbk. cbn [concat app]. apply bookkept_idle; [done|]. apply (bookkept_members None todo s s' Hs).
  exact (bookkept_drop None _ _ _ Hi Hbk).
Qed.

Lemma hand_over_step i j todo s s' :
  build_pair i = build_pair j → is_Some (build_pair i) → same_builds s s' →
  bookkept (i :: todo) s → bookkept (concat [] ++ [j] ++ todo) s'.
Proof.
  intros E Hp Hs Hbk. cbn [concat app]. apply (bookkept_members None _ s s' Hs). by apply (bookkept_hand_over None i j).
Qed.

Lemma launches_idle launch more todo s :
  forallb idle more = true → bookkept (launches launch ++ todo) s →
  bookkept (concat [] ++ (launches launch ++ more) ++ todo) s.
Proof.
  intros Hm Hbk. cbn [concat app]. apply (bookkept_perm None (more ++ launches launch ++ todo)); [solve_Permutation|].
  by apply bookkept_idle.
Qed.

Context {T : Type} `{DirectoryTree T} (error_text : error_code → str).

(** Steps that touch nothing the bookkeeping is about. *)
Ltac plain_step :=
  first [ apply idle_step; [done|done|by constructor]
        | apply hand_over_step; [done|by eexists|by constructor] ].

Lemma exec_bookkept o (source : T) i s more spawned s' todo :
  exec error_text o source i s = Some (more, spawned, s') → bookkept (i :: todo) s →
  bookkept (concat spawned ++ more ++ todo) s'.
Proof.
  destruct i; cbn [exec]; unfold_stretch.
  - case_match; intros [= <- <- <-]; plain_step.
  - case_match; intros [= <- <- <-]; plain_step.
  - intros [= <- <- <-]. unfold record_read. destruct (m_reads s !! requester) as [reads|] eqn:E; [|plain_step].
    intros Hbk%bookkept_drop; [|done]. destruct Hbk as [Ha Hb Hr Hn Hc]. constructor; simpl; try done.
    rewrite dom_insert_L, <- Hr. apply elem_of_dom_2 in E. set_solver.
  - destruct (bring_up_to_date out s) as [[[target launch] s1]|] eqn:E; simpl; [|done]. intros [= <- <- <-] Hbk.
    apply launches_idle; [by destruct target|]. apply (bring_up_bookkept todo s out target); [|done].
    by apply bookkept_drop in Hbk.
  - destruct (answer _ _ _); simpl; [|done]. intros [= <- <- <-]. plain_step.
  - destruct (materialize_all s) as [outputs s1] eqn:E. intros [= <- <- <-]. injection E as <- <-. plain_step.
  - destruct outputs as [|out outputs]; [intros [= <- <- <-]; plain_step|].
    destruct (start_build out s) as [[launch s1]|] eqn:E; simpl; [|done]. intros [= <- <- <-] Hbk.
    apply launches_idle; [done|]. apply (start_build_bookkept todo s out); [|done]. by apply bookkept_drop in Hbk.
  - case_decide; [intros [= <- <- <-]; plain_step|].
    destruct (refusal o); intros [= <- <- <-]; [plain_step|].
    destruct (copies_output _); apply hand_over_step; done || by eexists.
  - intros [= <- <- <-]; plain_step.
  - destruct (overruled o); [intros [= <- <- <-]; plain_step|].
    destruct (bring_up_to_date from s) as [[[target launch] s1]|] eqn:E; simpl; [|done]. intros [= <- <- <-] Hbk.
    pose proof (bring_up_bookkept _ _ _ _ _ _ Hbk E) as Hbk1.
    apply (bookkept_perm None _ (CopyOutput b from :: launches launch ++ todo)) in Hbk1; [|solve_Permutation].
    apply (bookkept_perm None ((match target with Some a => AwaitSource b from a | None => ReadSource b from end)
                               :: launches launch ++ todo)); [solve_Permutation|].
    apply (bookkept_hand_over None (CopyOutput b from)); [by destruct target|by eexists|done].
  - destruct (overruled o); [intros [= <- <- <-]; plain_step|].
    destruct (answer _ _ _); simpl; [|done]. intros [= <- <- <-]. case_decide; plain_step.
  - destruct (read_all _ _) as [bytes|]; simpl; [|done]. intros [= <- <- <-]. plain_step.
  - destruct result as [built|failure]; [|intros [= <- <- <-]; plain_step].
    destruct (record_success _ _ _ _) as [[keep s1]|] eqn:E; simpl; [|done]. intros [= <- <- <-] Hbk.
    eapply record_success_builds; [|done]. by eapply bookkept_hand_over; [| |done]; [|by eexists].
  - destruct (end_build _ _ _) as [[[launch orphaned] s1]|] eqn:E; simpl; [|done]. intros [= <- <- <-] Hbk.
    pose proof (end_build_bookkept _ _ _ _ _ _ _ _ Hbk E) as Hbk1.
    set (cache := match keep with Some k => _ | None => [] end).
    apply (bookkept_idle None cache) in Hbk1; [|by destruct keep, result].
    revert Hbk1. apply bookkept_perm. unfold launches. solve_Permutation.
  - intros [= <- <- <-]. apply complete_bookkept.
  - destruct (m_cache_mutex s); [done|]. intros [= <- <- <-]; plain_step.
  - intros [= <- <- <-]. unfold store_in_cache. destruct (m_cache s); [case_match|]; plain_step.
  - destruct (m_cache_mutex s); [done|]. intros [= <- <- <-]. unfold forget_in_cache.
    destruct (m_cache s); [case_match|]; plain_step.
  - intros [= <- <- <-]. case_match; [plain_step|]. case_match; plain_step.
  - destruct (read_rules _ _) as [[rs|]|]; simpl; [..|done]; intros [= <- <- <-]; plain_step.
  - intros [= <- <- <-]; plain_step.
  - destruct (expand_rules _ _); simpl; [|done]. intros [= <- <- <-]; plain_step.
  - destruct (apply_rules _ _ _) eqn:E; simpl; [|done]. intros [= <- <- <-] Hbk.
    apply (bookkept_idle None [_]); [done|]. eapply apply_rules_bookkept; [|done]. by apply bookkept_drop in Hbk.
  - intros [= <- <- <-]; plain_step.
  - intros [= <- <- <-]; plain_step.
  - destruct (invalidate_spec outputs s) as (seen & eager & s1 & E & _ & Hm & _). rewrite E. simpl.
    intros [= <- <- <-]. apply idle_step; [done|done|apply Hm].
Qed.
End inv.
