(* ===== verification/Layout.v ===== *)
(** * The tree shows the outputs

    Making room for outputs and taking them away (src/builddirectorytree.cpp,
    [ensure_parent_directories] and [remove_with_empty_parents]) keeps the
    tree's files the outputs placed in it, and its directories those above
    them, and the assertions on the way hold. *)

From S2P Require Export ManifestFacts InMemoryTreeSpec Expand.

Definition file_at (m : gmap path Node) (p : path) : Prop :=
  ∃ n, m !! p = Some n ∧ holds_directory (info n) = false.

(** [s] has exactly the files [F] and the directories [D]. *)
Record shape (F D : path → Prop) (s : Impl) : Prop := {
  shape_wf : well_formed s;
  shape_file p : file_at (m_entries s) p ↔ F p;
  shape_dir p : directory_at (m_entries s) p ↔ D p;
}.

Lemma shape_iff F D F' D' s : (∀ p, F p ↔ F' p) → (∀ p, D p ↔ D' p) → shape F D s → shape F' D' s.
Proof. intros HF HD [? Hf Hd]. constructor; [done|..]; intros p; by rewrite <- ?HF, <- ?HD. Qed.

Lemma shape_entry F D s p : shape F D s → is_Some (m_entries s !! p) ↔ F p ∨ D p.
Proof.
  intros [_ Hf Hd]. rewrite <- Hf, <- Hd. unfold file_at, directory_at. split.
  - intros [n Hn]. destruct (holds_directory (info n)) eqn:E; [right|left]; by exists n.
  - intros [(n & -> & _)|(n & -> & _)]; by eexists.
Qed.

Lemma shape_apart F D s p : shape F D s → F p → D p → False.
Proof.
  intros [_ Hf Hd] (n & Hn & E)%Hf (n' & Hn' & E')%Hd. simplify_eq. congruence.
Qed.

Lemma file_insert m p q n :
  file_at (<[p := n]> m) q ↔ (if decide (q = p) then holds_directory (info n) = false else file_at m q).
Proof.
  unfold file_at. case_decide as E; [subst; rewrite lookup_insert_eq; naive_solver|by rewrite lookup_insert_ne].
Qed.

Lemma directory_insert m p q n :
  directory_at (<[p := n]> m) q ↔ (if decide (q = p) then holds_directory (info n) = true else directory_at m q).
Proof.
  unfold directory_at. case_decide as E; [subst; rewrite lookup_insert_eq; naive_solver|by rewrite lookup_insert_ne].
Qed.

Lemma canonical_not_empty p : canonical p → p ≠ root → is_empty p = false.
Proof.
  intros [Hr _] Hne. destruct p as [r ns]. simpl in *. subst. destruct ns; [done|done].
Qed.

Lemma write_file_shape F D s p c t :
  shape F D s → canonical p → p ≠ root → D (parent_path p) → ¬ D p →
  ∃ s', write_file p c t s = Some s' ∧ m_entries s' = <[p := file_node c t]> (m_entries s) ∧
    shape (λ q, q = p ∨ F q) D s'.
Proof.
  intros Hs Hp Hne Hpar Hd. pose proof Hs as [Hw HF HD].
  assert (¬ directory_at (m_entries s) p) as Hnd by by rewrite HD.
  apply HD in Hpar as Hpar'.
  eexists. split.
  { apply write_file_Some. exists p. split_and!; [by apply normalize_canonical|by apply canonical_not_empty|done|done|].
    reflexivity. }
  split; [done|]. constructor.
  - eapply (well_formed_insert s p (file_node c t)); [done|done|done|done|by exists c|done|reflexivity].
  - intros q. simpl. rewrite file_insert. case_decide; [by naive_solver|]. rewrite HF. naive_solver.
  - intros q. simpl. rewrite directory_insert. case_decide; [|done]. subst. simpl. split; [done|]. by intros ?%Hd.
Qed.

Lemma make_directory_shape F D s p t :
  shape F D s → canonical p → p ≠ root → D (parent_path p) → ¬ D p → ¬ F p →
  ∃ s', make_directory p t s = Some s' ∧ shape F (λ q, q = p ∨ D q) s' ∧
    ∀ q, q ≠ p → m_entries s' !! q = m_entries s !! q.
Proof.
  intros Hs Hp Hne Hpar Hd Hf. pose proof Hs as [Hw HF HD].
  assert (m_entries s !! p = None) as Hno.
  { apply eq_None_not_Some. rewrite (shape_entry F D) by done. tauto. }
  apply HD in Hpar as Hpar'.
  eexists. split.
  { apply make_directory_Some. exists p. split_and!; [by apply normalize_canonical|by apply canonical_not_empty|done|done|].
    reflexivity. }
  split; [|by intros q Hq; simpl; rewrite lookup_insert_ne].
  constructor.
  - eapply (well_formed_insert s p (directory_node t)); [done|done|done|done|done|done|reflexivity].
  - intros q. simpl. rewrite file_insert. case_decide; [|by rewrite HF]. subst. simpl. naive_solver.
  - intros q. simpl. rewrite directory_insert. case_decide; [naive_solver|]. rewrite HD. naive_solver.
Qed.

(** Removing what nothing is below. *)
Lemma remove_shape F D s p :
  shape F D s → canonical p → p ≠ root → F p ∨ D p →
  (∀ q, F q ∨ D q → canonical q → names p `prefix_of` names q → q = p) →
  ∃ s', remove p s = Some s' ∧ shape (λ q, q ≠ p ∧ F q) (λ q, q ≠ p ∧ D q) s' ∧
    ∀ q, q ≠ p → m_entries s' !! q = m_entries s !! q.
Proof.
  intros Hs Hp Hne Hin Hbelow. pose proof Hs as [Hw HF HD].
  apply (shape_entry F D s p Hs) in Hin as Hin'.
  assert (remove p s = Some (notify_subscribers
    (changes (filter (λ e, goes_with p e.1 = true) (in_order (m_entries s))).*1 [parent_path p])
    (set_entries (filter (λ e, goes_with p e.1 = false) (m_entries s)) s))) as Hrm.
  { apply remove_Some. exists p. split_and!; [by apply normalize_canonical|by apply canonical_not_empty| |done].
    by apply not_eq_None_Some. }
  eexists. split; [done|].
  assert (∀ q n, filter (λ e : path * Node, goes_with p e.1 = false) (m_entries s) !! q = Some n ↔
    q ≠ p ∧ m_entries s !! q = Some n) as Hf.
  { intros q n. rewrite map_lookup_filter_Some. simpl. rewrite (and_comm (q ≠ p)). apply and_iff_given. intros Hq.
    pose proof (wf_canonical s Hw q n Hq) as Hc. rewrite <- not_true_iff_false, goes_with_true by done.
    split; [by intros Hn ->|]. intros Hqp Hpre. apply Hqp, Hbelow; [|done..].
    apply (shape_entry F D s q Hs). by eexists. }
  split.
  2: { intros q Hq. apply option_eq. intros n. simpl. rewrite Hf. tauto. }
  constructor.
  - eapply (perform_well_formed (Remove p) s); done.
  - intros q. rewrite <- HF. unfold file_at. simpl. setoid_rewrite Hf. naive_solver.
  - intros q. rewrite <- HD. unfold directory_at. simpl. setoid_rewrite Hf. naive_solver.
Qed.

(** ** Outputs *)

(** [p] is a directory above one of [F]. *)
Definition above (F : path → Prop) (p : path) : Prop := ∃ o, F o ∧ is_above p o.
Definition directories_of (F : path → Prop) (p : path) : Prop := p = root ∨ above F p.

(** Outputs that can be placed in one tree. *)
Record layable (F : path → Prop) : Prop := {
  lay_inside o : F o → inside o;
  lay_apart o o' : F o → F o' → ¬ is_above o o';
}.

(** [s] shows the outputs [F]: they are its files, and its directories are those
    above them. *)
Definition shows (F : path → Prop) (s : Impl) : Prop := shape F (directories_of F) s.

Lemma inside_canonical p : inside p → canonical p.
Proof. by intros []. Qed.
Lemma inside_not_root p : inside p → p ≠ root.
Proof. by intros [_ ? _] ->. Qed.

Lemma above_root p o : inside o → is_above p o → p = root ∨ p ∈ ancestors o.
Proof.
  intros Ho Hab. rewrite elem_of_ancestors by apply Ho. destruct p as [r [|n ns]]; [|by right].
  left. destruct Hab as [Hr _]. simpl in Hr. rewrite (inside_relative _ Ho) in Hr. unfold root. congruence.
Qed.

Lemma ancestor_above p o : inside o → p ∈ ancestors o → is_above p o ∧ canonical p ∧ p ≠ root.
Proof.
  intros Ho Hp. apply elem_of_ancestors in Hp as [Hne Hab]; [|apply Ho]. split; [done|].
  destruct Hab as (Hr & n & ns & E). destruct Ho as [Hor _ Hon]. split; [|by intros ->].
  split; [congruence|]. rewrite E in Hon. by apply Forall_app in Hon as [? _].
Qed.

Lemma above_trans p q o : is_above p q → is_above q o → is_above p o.
Proof.
  intros (Hr & n & ns & E) (Hr' & m & ms & E'). split; [congruence|]. rewrite E', E, <- app_assoc. simpl. eauto.
Qed.

Lemma ancestors_cons p : root_directory p = false → names (parent_path p) ≠ [] →
  ancestors p = parent_path p :: ancestors (parent_path p).
Proof.
  intros Hr Hne. unfold ancestors at 1. destruct p as [r ns]. simpl in *. subst.
  destruct ns as [|x l _] using rev_ind; [done|]. unfold parent_path in *. simpl in *.
  rewrite removelast_last in *. rewrite length_app. simpl. rewrite Nat.add_1_r. simpl.
  unfold is_empty. simpl. destruct l as [|y l' _] using rev_ind; [done|].
  replace (is_nil (l' ++ [y])) with false by by destruct l'.
  f_equal.
Qed.

Lemma ancestors_nil p : root_directory p = false → names (parent_path p) = [] → ancestors p = [].
Proof.
  intros Hr Hne. destruct p as [r ns]. simpl in *. subst. unfold ancestors.
  destruct ns as [|x l _] using rev_ind; [done|]. unfold parent_path in *. simpl in *.
  rewrite removelast_last in *. subst. done.
Qed.

(** The nearest directory of [o] is the root or the first of its ancestors. *)
Lemma parent_first o : inside o →
  match ancestors o with [] => parent_path o = root | d :: _ => parent_path o = d end.
Proof.
  intros Ho. pose proof (inside_relative _ Ho) as Hr.
  destruct (decide (names (parent_path o) = [])) as [E|E].
  - rewrite ancestors_nil by done. unfold parent_path, root in *. simpl in *. by rewrite E, Hr.
  - by rewrite ancestors_cons.
Qed.

(** ** Making room *)

(** Directories to make, each in the one before it or one already there. *)
Inductive chained (D : path → Prop) : list path → Prop :=
  | chained_nil : chained D []
  | chained_cons d ds : canonical d → d ≠ root → D (parent_path d) → chained (λ q, q = d ∨ D q) ds →
      chained D (d :: ds).

Lemma chained_mono D D' ds : (∀ q, D q → D' q) → chained D ds → chained D' ds.
Proof.
  intros HD Hc. revert D' HD. induction Hc as [D|D d ds Hcan Hne Hpar _ IH]; intros D' HD; constructor; auto.
  apply IH. naive_solver.
Qed.

Lemma chained_snoc D ds d :
  chained D ds → canonical d → d ≠ root → D (parent_path d) ∨ parent_path d ∈ ds → chained D (ds ++ [d]).
Proof.
  intros Hc Hd Hne. revert Hc. induction 1 as [D|D e ds He Hner Hpar Hc IH]; simpl.
  - intros [?|?%elem_of_nil]; [|done]. constructor; [done..|constructor].
  - rewrite elem_of_cons. intros Hor. constructor; [done..|]. apply IH. naive_solver.
Qed.

Lemma directories_chained D o : D root → inside o → chained D (directories_to o).
Proof.
  intros Hroot Ho. unfold directories_to. remember (ancestors o) as l eqn:E.
  assert (∀ l p, root_directory p = false → Forall is_name (names p) → l = ancestors p → chained D (rev l)) as Hgen.
  { clear l E. induction l as [|d l IH]; intros p Hr Hn E; [constructor|].
    destruct (decide (names (parent_path p) = [])) as [Ep|Ep]; [by rewrite ancestors_nil in E|].
    rewrite ancestors_cons in E by done. injection E as -> E.
    assert (Forall is_name (names (parent_path p))) as Hn'.
    { unfold parent_path. simpl. destruct (names p) as [|x k _] using rev_ind; [done|].
      rewrite removelast_last. by apply Forall_app in Hn as [? _]. }
    simpl. apply chained_snoc; [by apply (IH (parent_path p))|by split|by intros Er; rewrite Er in Ep|].
    rewrite elem_of_rev, E. pose proof (parent_first (parent_path p)) as Hf.
    destruct (ancestors (parent_path p)); [left|right]; rewrite Hf by (by constructor); [done|left]. }
  apply (Hgen l o); [apply Ho..|done].
Qed.

Lemma ensure_directory_shape F D s d t :
  shape F D s → canonical d → d ≠ root → D (parent_path d) → ¬ F d →
  ∃ s', ensure_directory t d s = Some s' ∧ shape F (λ q, q = d ∨ D q) s' ∧
    ∀ q, F q → m_entries s' !! q = m_entries s !! q.
Proof.
  intros Hs Hcan Hne Hpar Hf. unfold ensure_directory.
  assert (has_value (status s d) = true ↔ F d ∨ D d) as Hv.
  { rewrite <- (shape_entry F D s d Hs). simpl. unfold status_of, find.
    rewrite normalize_canonical by done. destruct (m_entries s !! d); simpl; split; try done; by intros [? [=]]. }
  destruct (has_value (status s d)) eqn:E.
  - exists s. split; [done|]. split; [|done]. eapply shape_iff; [| |done]; [done|]. intros p. split; [tauto|].
    intros [->|?]; [|done]. by destruct (proj1 Hv eq_refl).
  - destruct (make_directory_shape F D s d t Hs Hcan Hne Hpar) as (s1 & Hmk & Hs1 & Hsame); [|done|].
    + intros Hd. assert (false = true); [|done]. apply Hv. by right.
    + exists s1. split_and!; [done..|]. intros q Hq. apply Hsame. by intros ->.
Qed.

Lemma ensure_directories_shape F D s ds t :
  shape F D s → chained D ds → (∀ d, d ∈ ds → ¬ F d) →
  ∃ s', ensure_directories t ds s = Some s' ∧ shape F (λ q, q ∈ ds ∨ D q) s' ∧
    ∀ q, F q → m_entries s' !! q = m_entries s !! q.
Proof.
  intros Hs Hc. revert s Hs. induction Hc as [D|D d ds Hcan Hne Hpar Hc IH]; intros s Hs Hf.
  - exists s. split; [done|]. split; [|done]. eapply shape_iff; [| |done]; [done|]. intros p. rewrite elem_of_nil. tauto.
  - destruct (ensure_directory_shape F D s d t) as (s1 & E & Hs1 & Hsame); [done..|apply Hf; left|].
    simpl. rewrite E. simpl. destruct (IH s1 Hs1) as (s2 & E2 & Hs2 & Hsame2).
    { intros e He. apply Hf. by right. }
    exists s2. split; [done|]. split.
    + eapply shape_iff; [| |done]; [done|]. intros p. rewrite elem_of_cons. tauto.
    + intros q Hq. by rewrite Hsame2, Hsame.
Qed.

(** A new output appears, with its directories; the others are as they were. *)
Lemma add_output_shows F s o c t :
  shows F s → layable (λ p, p = o ∨ F p) →
  ∃ s1 s2, ensure_parent_directories t o s = Some s1 ∧ write_file o c t s1 = Some s2 ∧
    shows (λ p, p = o ∨ F p) s2 ∧
    (∀ p, F p → p ≠ o → m_entries s2 !! p = m_entries s !! p) ∧ m_entries s2 !! o = Some (file_node c t).
Proof.
  intros Hs [Hin Hap]. pose proof (Hin o (or_introl eq_refl)) as Ho.
  assert (∀ d, d ∈ directories_to o ↔ d ∈ ancestors o) as Hdir by (intros d; apply elem_of_rev).
  destruct (ensure_directories_shape F (directories_of F) s (directories_to o) t) as (s1 & E1 & Hs1 & Hsame1).
  - done.
  - apply directories_chained; [by left|done].
  - intros d Hd%Hdir Hf. apply ancestor_above in Hd as [Hd _]; [|done].
    apply (Hap d o); [by right|by left|done].
  - destruct (write_file_shape _ _ s1 o c t Hs1) as (s2 & E2 & Em & Hs2).
    + by apply inside_canonical.
    + by apply inside_not_root.
    + cbn beta. rewrite Hdir. pose proof (parent_first o Ho) as Hp.
      destruct (ancestors o); rewrite Hp; [right; by left|left; left].
    + cbn beta. rewrite Hdir. intros [Hd|[->|(o' & Ho' & Hab)]].
      * apply ancestor_above in Hd as [Hd _]; [|done]. by apply (Hap o o); [left|left|].
      * by apply inside_not_root in Ho.
      * by apply (Hap o o'); [left|right|].
    + exists s1, s2. split_and!; [done|done| | |].
      * eapply shape_iff; [| |done]; [done|]. intros p. cbn beta. rewrite Hdir. split.
        -- intros [Hd|[->|(o' & ? & ?)]]; [|by left|right; exists o'; split; [by right|done]].
           right. exists o. split; [by left|by apply ancestor_above].
        -- intros [->|(o' & [->|Ho'] & Hab)]; [right; by left| |right; right; by exists o'].
           apply above_root in Hab as [->|?]; [right; by left|by left|done].
      * intros p Hp Hne. rewrite Em, lookup_insert_ne by done. by apply Hsame1.
      * by rewrite Em, lookup_insert_eq.
Qed.

(** ** Taking away *)

Lemma layable_mono (F F' : path → Prop) : (∀ p, F' p → F p) → layable F → layable F'.
Proof. intros HF [Hi Ha]. constructor; [auto|]. intros o o' ? ?. apply Ha; auto. Qed.

(** What is left while the directories [ds] may have been left empty. *)
Definition leaving (F : path → Prop) (ds : list path) (p : path) : Prop := directories_of F p ∨ p ∈ ds.

Lemma canonical_below q p : canonical p → canonical q → names p `prefix_of` names q → q = p ∨ is_above p q.
Proof.
  intros [Hp _] [Hq _] [k E]. destruct k as [|n k].
  - left. destruct p, q. simpl in *. rewrite app_nil_r in E. congruence.
  - right. split; [congruence|]. eauto.
Qed.

(** The entry of directory [d] that [q], below it, is or is in. *)
Lemma next_below d q : canonical d → canonical q → is_above d q →
  ∃ n, is_name n ∧ (child d n = q ∨ is_above (child d n) q).
Proof.
  intros Hd Hq (Hr & n & ns & E). destruct Hq as [Hqr Hqn]. rewrite E in Hqn.
  apply Forall_app in Hqn as [_ Hn%Forall_cons]. destruct Hn as [Hn Hns]. exists n. split; [done|].
  rewrite child_names by done. destruct ns as [|m ms].
  - left. destruct q. simpl in *. congruence.
  - right. split; [simpl; congruence|]. simpl. exists m, ms. by rewrite <- app_assoc.
Qed.

(** What is above an entry is a directory. *)
Lemma entry_above s q n p :
  well_formed s → m_entries s !! q = Some n → canonical p → is_above p q → directory_at (m_entries s) p.
Proof.
  intros Hw. remember (length (names q)) as k eqn:Ek. revert q n Ek.
  induction k as [k IH] using lt_wf_ind. intros q n -> Hq Hp Hab.
  pose proof (wf_canonical s Hw q n Hq) as Hc.
  assert (q ≠ root) as Hne by (intros ->; destruct Hab as (_ & m & ms & E); by destruct (names p)).
  destruct (wf_parent s Hw q n Hq Hne) as (d & Hd & Hdir).
  pose proof (child_parent q Hc Hne) as (Hcp & _ & _).
  apply is_above_iff in Hab as (_ & Hnn & Hpre).
  destruct (canonical_below (parent_path q) p Hp Hcp Hpre) as [<-|Hab]; [by exists d|].
  apply (IH (length (names (parent_path q)))) with (parent_path q) d; [|done..].
  rewrite (path_split q Hnn), length_app. simpl. lia.
Qed.

(** A directory lists nothing just when nothing is below it. *)
Lemma ls_nil F D s d :
  shape F D s → canonical d → D d →
  ls s d = Value [] ↔ ∀ q, F q ∨ D q → canonical q → names d `prefix_of` names q → q = d.
Proof.
  intros Hs Hd HD. pose proof (shape_wf _ _ _ Hs) as Hw.
  assert (∀ q, canonical q → has_value (status s q) = true ↔ F q ∨ D q) as Hv.
  { intros q Hq. rewrite <- (shape_entry F D s q Hs). simpl. unfold status_of, find.
    rewrite normalize_canonical by done. destruct (m_entries s !! q); simpl; split; try done; by intros [? [=]]. }
  assert (∃ es, ls s d = Value es) as [es Hes].
  { assert (is_directory_at s d) as Hdir.
    { apply is_directory_at_find. apply (shape_dir _ _ _ Hs) in HD as (n & Hn & Hdn). exists n.
      split; [by apply find_canonical|done]. }
    apply (law_ls s d Hw) in Hdir. destruct (ls s d); [by eexists|done]. }
  pose proof (λ n, entry_names well_formed s d es n Hw Hd Hes) as Hen. split.
  - intros Hnil q Hq Hcq Hpre. apply canonical_below in Hpre as [?|Hab]; [done| |done..].
    exfalso. destruct (next_below d q Hd Hcq Hab) as (n & Hn & Hnq).
    assert (n ∈ entry_name <$> es) as Hin.
    { apply Hen. split; [done|]. destruct Hnq as [->|Hab2]; [by apply Hv|].
      assert (canonical (child d n)) as Hcc by by apply child_canonical.
      apply Hv; [done|]. right. apply (shape_entry F D s q Hs) in Hq as [x Hx].
      apply (shape_dir _ _ _ Hs). by apply (entry_above s q x). }
    rewrite Hnil in Hes. injection Hes as <-. by apply elem_of_nil in Hin.
  - intros Hall. rewrite Hes. destruct es as [|e es]; [done|]. exfalso.
    assert (entry_name e ∈ entry_name <$> e :: es) as [Hn Hval]%Hen by left.
    pose proof (child_canonical d _ Hd Hn) as Hcc.
    assert (child d (entry_name e) = d) as E.
    { apply Hall; [by apply Hv|done|]. rewrite child_names by done. simpl. by apply prefix_app_r. }
    rewrite child_names in E by done. apply (f_equal (length ∘ names)) in E. simpl in E.
    rewrite length_app in E. simpl in E. lia.
Qed.

Lemma is_above_length p q : is_above p q → length (names p) < length (names q).
Proof. intros (_ & n & ns & ->). rewrite length_app. simpl. lia. Qed.

Lemma child_above d n : canonical d → is_name n → is_above d (child d n).
Proof.
  intros Hd Hn. rewrite child_names by done. split; [by destruct Hd|]. simpl. by exists n, [].
Qed.

(** What a directory lists is there. *)
Lemma ls_entry F D s d :
  shape F D s → canonical d → D d → ls s d ≠ Value [] →
  ∃ n, is_name n ∧ (F (child d n) ∨ D (child d n)).
Proof.
  intros Hs Hd HD Hne. pose proof (shape_wf _ _ _ Hs) as Hw.
  assert (is_directory_at s d) as Hdir.
  { apply is_directory_at_find. apply (shape_dir _ _ _ Hs) in HD as (n & Hn & Hdn). exists n.
    split; [by apply find_canonical|done]. }
  apply (law_ls s d Hw) in Hdir. destruct (ls s d) as [[|e es]|] eqn:Hes; [done| |done].
  assert (entry_name e ∈ entry_name <$> e :: es) as Hin by left.
  apply (entry_names well_formed s d _ _ Hw Hd Hes) in Hin as [Hn Hv].
  exists (entry_name e). split; [done|]. apply (shape_entry F D s _ Hs).
  pose proof (child_canonical d _ Hd Hn) as Hc. simpl in Hv. unfold status_of, find in Hv.
  rewrite normalize_canonical in Hv by done. by destruct (m_entries s !! _).
Qed.

(** The directories above an output taken away go as far as they are empty. *)
Lemma remove_empty_shows F s p :
  layable F → canonical p → shape F (leaving F (ancestors p)) s →
  ∃ s', remove_empty (ancestors p) s = Some s' ∧ shows F s' ∧
    ∀ o, F o → m_entries s' !! o = m_entries s !! o.
Proof.
  intros Hlay. remember (length (names p)) as k eqn:Ek. revert p Ek s.
  induction k as [k IH] using lt_wf_ind. intros p -> s Hp Hs. pose proof Hp as [Hr Hn].
  destruct (decide (names (parent_path p) = [])) as [E|E].
  { rewrite ancestors_nil in * by done. exists s. split; [done|]. split; [|done].
    eapply shape_iff; [| |done]; [done|]. intros q. unfold leaving. rewrite elem_of_nil. tauto. }
  assert (names p ≠ []) as Hnp by (intros Ep; unfold parent_path in E; simpl in E; by rewrite Ep in E).
  pose proof (path_split p Hnp) as Hsplit.
  assert (canonical (parent_path p)) as Hd.
  { split; [done|]. rewrite Hsplit in Hn. by apply Forall_app in Hn as [? _]. }
  rewrite ancestors_cons in * by done. set (d := parent_path p) in *. cbn [remove_empty].
  assert (leaving F (d :: ancestors d) d) as Hleave by (right; left).
  assert (∀ q, q ∈ ancestors d → is_above q d) as Habove by (intros q [_ ?]%elem_of_ancestors; [done|apply Hd]).
  destruct (decide (ls s d = Value [])) as [Els|Els].
  - rewrite Els. pose proof (proj1 (ls_nil _ _ s d Hs Hd Hleave) Els) as Hempty.
    destruct (remove_shape _ _ s d Hs Hd) as (s1 & E1 & Hs1 & Hsame1).
    { intros Er. by rewrite Er in E. } { by right. } { done. }
    rewrite E1. simpl. assert (¬ F d) as HnF by (intros Hf; by apply (shape_apart _ _ _ _ Hs Hf)).
    destruct (IH (length (names d))) with (p := d) (s := s1) as (s2 & E2 & Hs2 & Hsame2); [|done|done| |].
    + rewrite Hsplit, length_app. simpl. lia.
    + eapply shape_iff; [| |done]; intros q; cbn beta.
      * split; [tauto|]. intros Hq. split; [by intros ->|done].
      * unfold leaving. rewrite elem_of_cons. split; [tauto|].
        intros Hq. split; [|tauto]. intros ->. destruct Hq as [[Hroot|(o & Ho & Hab)]|Hanc].
        -- by rewrite Hroot in E.
        -- assert (o = d) as ->; [|by apply is_above_length in Hab; lia].
           apply Hempty; [by left|by apply inside_canonical, Hlay|].
           destruct Hab as (_ & m & ms & ->). by apply prefix_app_r.
        -- apply Habove, is_above_length in Hanc. lia.
    + exists s2. split_and!; [done|done|]. intros o Ho. rewrite Hsame2, Hsame1; [done| |done]. by intros ->.
  - exists s. assert (∀ x : expected error_code (list TreeEntry), x ≠ Value [] →
      (match x with Value [] => tree' ← remove d s; remove_empty (ancestors d) tree' | _ => Some s end) = Some s) as Hm
      by (by intros [[|]|]).
    split; [by apply Hm|]. split; [|done].
    destruct (ls_entry _ _ s d Hs Hd Hleave Els) as (n & Hname & Hc).
    pose proof (child_above d n Hd Hname) as Hdc.
    assert (above F d) as (o & Ho & Hdo).
    { destruct Hc as [Hc|[[Hc|(o & Ho & Hab)]|Hc]].
      - by exists (child d n).
      - rewrite Hc in Hdc. apply is_above_length in Hdc. simpl in Hdc. lia.
      - exists o. split; [done|]. by eapply above_trans.
      - apply elem_of_cons in Hc as [Hc|Hc%Habove]; [rewrite Hc in Hdc|];
          repeat match goal with H : is_above _ _ |- _ => apply is_above_length in H end; lia. }
    eapply shape_iff; [| |done]; [done|]. intros q. unfold leaving. rewrite elem_of_cons. split; [|tauto].
    intros [?|[->|Hq%Habove]]; [done|right; by exists o|right; exists o; split; [done|by eapply above_trans]].
Qed.

(** An output goes, with the directories that only held it. *)
Lemma remove_output_shows F s o :
  shows F s → layable F → F o →
  ∃ s', remove_with_empty_parents o s = Some s' ∧ shows (λ p, p ≠ o ∧ F p) s' ∧
    ∀ p, F p → p ≠ o → m_entries s' !! p = m_entries s !! p.
Proof.
  intros Hs Hlay Ho. pose proof (lay_inside _ Hlay o Ho) as Hin.
  pose proof (inside_canonical o Hin) as Hc. unfold remove_with_empty_parents.
  assert (has_value (status s o) = true) as ->.
  { pose proof (proj2 (shape_entry _ _ s o Hs) (or_introl Ho)) as [n Hn]. simpl. unfold status_of, find.
    by rewrite normalize_canonical, Hn by done. }
  destruct (remove_shape _ _ s o Hs Hc) as (s1 & E1 & Hs1 & Hsame1).
  { by apply inside_not_root. } { by left. }
  { intros q Hq Hcq Hpre. apply canonical_below in Hpre as [?|Hab]; [done| |done..]. exfalso.
    destruct Hq as [Hq|[->|(o' & Ho' & Hab')]].
    - by apply (lay_apart _ Hlay o q).
    - apply is_above_length in Hab. simpl in Hab. lia.
    - apply (lay_apart _ Hlay o o'); [done..|]. by eapply above_trans. }
  rewrite E1. simpl. destruct (remove_empty_shows (λ p, p ≠ o ∧ F p) s1 o) as (s2 & E2 & Hs2 & Hsame2).
  - eapply layable_mono; [|done]. tauto.
  - done.
  - eapply shape_iff; [| |done]; [done|]. intros q. cbn beta. unfold leaving, directories_of, above. split.
    + intros [Hq [->|(o' & Ho' & Hab)]]; [left; by left|]. destruct (decide (o' = o)) as [->|Hne].
      * apply above_root in Hab as [->|?]; [left; by left|by right|done].
      * left. right. by exists o'.
    + intros Hq. assert (directories_of F q) as Hdq.
      { destruct Hq as [[->|(o' & [_ Ho'] & Hab)]|Hq]; [by left|right; by exists o'|].
        right. exists o. split; [done|by apply ancestor_above]. }
      split; [|done]. intros ->. by apply (shape_apart _ _ _ _ Hs Ho).
  - exists s2. split; [done|]. split; [done|]. intros p Hp Hne. by rewrite Hsame2, Hsame1.
Qed.
