(* ===== verification/LayoutRules.v ===== *)
(** * Applying rules brings the tree in line

    [apply_rules] (src/builddirectorytree.cpp) runs to its end, leaves the tree
    with exactly the files the new rules declare, and what is neither removed
    nor added keeps its content. *)

From S2P Require Export Layout BuildTreeInv.

Lemma remove_outputs_shows F s outs :
  shows F s → layable F → (∀ o, o ∈ outs → F o) → NoDup outs →
  ∃ s', remove_outputs outs s = Some s' ∧ shows (λ p, p ∉ outs ∧ F p) s' ∧
    ∀ p, F p → p ∉ outs → m_entries s' !! p = m_entries s !! p.
Proof.
  intros Hs Hlay Hin Hnd. revert F s Hs Hlay Hin. induction Hnd as [|o outs Ho Hnd IH]; intros F s Hs Hlay Hin.
  - exists s. split; [done|]. split; [|done]. destruct Hs as [Hw Hf Hd]. constructor; [done|..].
    + intros p. rewrite Hf, elem_of_nil. tauto.
    + intros p. rewrite Hd. unfold directories_of, above. setoid_rewrite elem_of_nil. naive_solver.
  - destruct (remove_output_shows F s o Hs Hlay) as (s1 & E1 & Hs1 & Hsame1); [apply Hin; left|].
    destruct (IH _ s1 Hs1) as (s2 & E2 & Hs2 & Hsame2).
    + eapply layable_mono; [|done]. tauto.
    + intros p Hp. split; [by intros ->|]. apply Hin. by right.
    + exists s2. split; [simpl; by rewrite E1|]. split.
      * refine (shape_iff _ _ _ _ _ _ _ Hs2); intros p; unfold directories_of, above; cbn beta; setoid_rewrite not_elem_of_cons; naive_solver.
      * intros p Hp [Hne Hn]%not_elem_of_cons. rewrite Hsame2 by done. by apply Hsame1.
Qed.

Lemma add_placeholders_shows F s outs t :
  shows F s → layable (λ p, p ∈ outs ∨ F p) → NoDup outs → (∀ o, o ∈ outs → ¬ F o) →
  ∃ s', add_placeholders t outs s = Some s' ∧ shows (λ p, p ∈ outs ∨ F p) s' ∧
    (∀ p, F p → m_entries s' !! p = m_entries s !! p) ∧
    ∀ p, p ∈ outs → m_entries s' !! p = Some (file_node k_placeholder_content t).
Proof.
  intros Hs Hlay Hnd. revert F s Hs Hlay. induction Hnd as [|o outs Ho Hnd IH]; intros F s Hs Hlay Hnew.
  - exists s. split; [done|]. split_and!; [|done|by intros ? ?%elem_of_nil]. destruct Hs as [Hw Hf Hd]. constructor; [done|..].
    + intros p. rewrite Hf, elem_of_nil. tauto.
    + intros p. rewrite Hd. unfold directories_of, above. setoid_rewrite elem_of_nil. naive_solver.
  - destruct (add_output_shows F s o k_placeholder_content t Hs) as (s1 & s2 & E1 & E2 & Hs2 & Hsame2 & Hnode).
    { eapply layable_mono; [|done]. intros p. cbn beta. rewrite elem_of_cons. tauto. }
    destruct (IH _ s2 Hs2) as (s3 & E3 & Hs3 & Hsame3 & Hnode3).
    + eapply layable_mono; [|done]. intros p. cbn beta. rewrite elem_of_cons. tauto.
    + intros p Hp [->|Hf]; [done|]. apply (Hnew p); [by right|done].
    + exists s3. split; [simpl; by rewrite E1; simpl; rewrite E2|]. split_and!.
      * refine (shape_iff _ _ _ _ _ _ _ Hs3); intros p; unfold directories_of, above; cbn beta; setoid_rewrite elem_of_cons; naive_solver.
      * intros p Hp. rewrite Hsame3 by by right. apply Hsame2; [done|]. intros ->. apply (Hnew o); [left|done].
      * intros p [->|Hp]%elem_of_cons; [by rewrite (Hsame3 o (or_introl eq_refl))|by apply Hnode3].
Qed.

Section rules.
Context {C : Type} `{Cache C}.
Implicit Types s : Impl (C := C).

Definition outputs_of (commands : gmap path Command) (p : path) : Prop := p ∈ dom commands.

(** The tree shows the outputs declared, and they can be placed in one. *)
Definition in_line s : Prop :=
  layable (outputs_of (m_commands s)) ∧ shows (outputs_of (m_commands s)) (m_structure s).

Lemma elem_of_removed commands s o :
  o ∈ removed_outputs commands s ↔ o ∈ dom (m_commands s) ∧ o ∉ dom commands.
Proof.
  unfold removed_outputs. rewrite list_elem_of_fmap, elem_of_dom, not_elem_of_dom. split.
  - intros ([k c] & -> & [Hk Hc%elem_of_in_order]%list_elem_of_filter). by split; [eexists|].
  - intros [[c Hc] Hn]. exists (o, c). split; [done|]. apply list_elem_of_filter. split; [done|by apply elem_of_in_order].
Qed.

Lemma elem_of_added commands s o :
  o ∈ added_outputs commands s ↔ o ∈ dom commands ∧ o ∉ dom (m_commands s).
Proof.
  unfold added_outputs. rewrite list_elem_of_fmap, elem_of_dom, not_elem_of_dom. split.
  - intros ([k c] & -> & [Hk Hc%elem_of_in_order]%list_elem_of_filter). by split; [eexists|].
  - intros [[c Hc] Hn]. exists (o, c). split; [done|]. apply list_elem_of_filter. split; [done|by apply elem_of_in_order].
Qed.

Lemma in_order_filter_NoDup {A} (P : path * A → Prop) `{∀ x, Decision (P x)} (m : gmap path A) :
  NoDup (filter P (in_order m)).*1.
Proof.
  apply (sublist_NoDup _ (in_order m).*1); [apply in_order_keys|]. apply fmap_sublist, sublist_filter.
Qed.

Lemma remove_outputs_structure s outs : m_structure (foldl remove_output s outs) = m_structure s.
Proof.
  revert s. induction outs as [|o outs IH]; intros s; [done|]. cbn [foldl]. rewrite IH.
  unfold remove_output. by case_decide.
Qed.

(** [apply_rules] ends, and the tree then shows the new outputs. *)
Lemma apply_rules_shows t commands s :
  in_line s → layable (outputs_of commands) →
  ∃ s', apply_rules t commands s = Some s' ∧ m_commands s' = commands ∧ in_line s' ∧
    (∀ o, o ∈ dom commands → o ∈ dom (m_commands s) →
          m_entries (m_structure s') !! o = m_entries (m_structure s) !! o) ∧
    (∀ o, o ∈ dom commands → o ∉ dom (m_commands s) →
          m_entries (m_structure s') !! o = Some (file_node k_placeholder_content t)).
Proof.
  intros [Hlay Hs] Hnew. unfold apply_rules.
  set (s3 := set_commands _ _).
  assert (m_structure s3 = m_structure s) as Hst by (unfold s3; simpl; by rewrite remove_outputs_structure).
  assert (m_commands s3 = commands) as Hc3 by done. clearbody s3. rewrite Hst.
  destruct (remove_outputs_shows _ _ (removed_outputs commands s) Hs Hlay) as (t1 & E1 & Hs1 & Hsame1).
  { by intros o [? _]%elem_of_removed. } { apply in_order_filter_NoDup. }
  rewrite E1. simpl.
  destruct (add_placeholders_shows _ t1 (added_outputs commands s) t Hs1) as (t2 & E2 & Hs2 & Hsame2 & Hnode).
  { eapply layable_mono; [|exact Hnew]. intros p. unfold outputs_of. rewrite elem_of_added, elem_of_removed.
    destruct (decide (p ∈ dom commands)); tauto. }
  { apply in_order_filter_NoDup. }
  { intros o [_ Hn]%elem_of_added [_ Ho]. done. }
  rewrite E2. simpl.
  assert (∀ p, p ∈ added_outputs commands s ∨ p ∉ removed_outputs commands s ∧ outputs_of (m_commands s) p ↔
               outputs_of commands p) as Hiff.
  { intros p. unfold outputs_of. rewrite elem_of_added, elem_of_removed.
    destruct (decide (p ∈ dom commands)), (decide (p ∈ dom (m_commands s))); tauto. }
  eexists. split; [done|]. split; [done|]. split; [|split].
  - split; simpl; rewrite Hc3; [done|]. refine (shape_iff _ _ _ _ _ Hiff _ Hs2).
    intros p. unfold directories_of, above. by setoid_rewrite Hiff.
  - intros o Ho Hold. rewrite Hsame2, Hsame1; [done|done|..]; rewrite ?elem_of_removed; unfold outputs_of; tauto.
  - intros o Ho Hn. apply Hnode. by apply elem_of_added.
Qed.

Lemma record_success_shows out built t s :
  in_line s →
  ∃ keep s', record_success out built t s = Some (keep, s') ∧ m_commands s' = m_commands s ∧ in_line s' ∧
    ∀ o, m_entries (m_structure s') !! o =
      if decide (o = out ∧ out ∈ dom (m_commands s)) then Some (file_node (output_bytes built) t)
      else m_entries (m_structure s) !! o.
Proof.
  intros [Hlay Hs]. unfold record_success. destruct (m_commands s !! out) as [c|] eqn:Ec.
  2: { eexists _, _. split; [done|]. split_and!; [done|done|]. intros o. rewrite decide_False; [done|].
       intros [_ [? ?]%elem_of_dom]. congruence. }
  assert (out ∈ dom (m_commands s)) as Hout by by apply elem_of_dom_2 in Ec.
  pose proof (lay_inside _ Hlay out Hout) as Hin.
  destruct (write_file_shape _ _ (m_structure s) out (output_bytes built) t Hs) as (t1 & E1 & Em & Hs1).
  { by apply inside_canonical. } { by apply inside_not_root. }
  { pose proof (parent_first out Hin) as Hp. destruct (ancestors out) as [|d ds] eqn:Ea; rewrite Hp; [by left|].
    right. exists out. split; [done|]. apply ancestor_above; [done|]. rewrite Ea. left. }
  { intros Hd. by apply (shape_apart _ _ _ _ Hs Hout). }
  assert (∀ (keep : option Keep) s1, m_commands s1 = m_commands s → m_structure s1 = m_structure s →
    ∃ keep' s', (structure ← write_file out (output_bytes built) t (m_structure s1);
       Some (keep, set_structure structure s1)) = Some (keep', s') ∧ m_commands s' = m_commands s ∧ in_line s' ∧
    ∀ o, m_entries (m_structure s') !! o =
      if decide (o = out ∧ out ∈ dom (m_commands s)) then Some (file_node (output_bytes built) t)
      else m_entries (m_structure s) !! o) as Hgen.
  { intros keep s1 Hc1 Hst1. rewrite Hst1, E1. simpl. eexists _, _. split; [done|]. simpl.
    split; [done|]. split; [split; simpl; rewrite Hc1; [done|]|].
    - assert (∀ p, p = out ∨ outputs_of (m_commands s) p ↔ outputs_of (m_commands s) p) as Hiff by (intros p; split; [by intros [->|?]|by right]).
      refine (shape_iff _ _ _ _ _ Hiff _ Hs1). done.
    - intros o. rewrite Em. destruct (decide (o = out)) as [->|Hne].
      + by rewrite lookup_insert_eq, decide_True.
      + rewrite lookup_insert_ne by done. by rewrite decide_False by tauto. }
  destruct (m_cache s); [destruct (decide (command_action c = Tracing))|]; cbv zeta beta iota;
    match goal with |- context [update_dependents out ?l ?x] => by apply (Hgen _ (update_dependents out l x)) end.
Qed.
End rules.
