(* ===== verification/BuildTreeWorld.v ===== *)
(** * What holds of the tree, its source and its threads at all times *)

From S2P Require Export ExpandSpec LayoutRules.

(** A wildcard that cannot name a file [.] or [..], whatever it matches. *)
Definition tame (r : Rule) : Prop :=
  is_wildcard r = true →
  ∃ c, c ∈ Manifest.prefix (name_pattern (filename (output r))) ++ Manifest.suffix (name_pattern (filename (output r))) ∧
       c ≠ "."%char.

Definition sound_rules (rs : list Rule) : Prop := expandable rs ∧ ∀ r, r ∈ rs → tame r.

Section expansions.
Context {T : Type} `{DirectoryTree T} (ok : T → Prop) `{!LawfulTree T ok} (source : T).
Context (rs : list Rule) (Hrs : sound_rules rs) (Hok : ok source).

Lemma instance_inside r m : r ∈ rs → instance_of r m → inside (output m).
Proof.
  intros Hr [[Hw ->]|(Hw & name & Hs & Hi)]; pose proof (exp_inside _ (proj1 Hrs) r Hr) as Hin; [done|].
  destruct (proj2 Hrs r Hr Hw) as (c & Hc & Hne).
  apply instantiate_inv in Hi as (stem & Hst & -> & -> & _); [|done..].
  pose proof (inside_parent _ Hin) as Hp. pose proof (slash_free_pattern _ Hin) as [Hpre Hsuf].
  unfold source_of_stem in Hs. rewrite !elem_of_app in Hs. unfold output_of_stem.
  set (n := Manifest.prefix _ ++ stem ++ Manifest.suffix _).
  assert (c ∈ n) as Hcn by (unfold n; rewrite !elem_of_app in *; tauto).
  constructor; simpl; [done|by destruct (removelast _)|]. apply Forall_app. split; [done|].
  apply Forall_singleton. repeat split.
  - intros E. rewrite E in Hcn. by apply elem_of_nil in Hcn.
  - intros E. rewrite E in Hcn. apply Hne. by apply list_elem_of_singleton in Hcn.
  - intros E. rewrite E in Hcn. apply Hne. change dot_dot with ["."; "."]%char in Hcn.
    by apply elem_of_cons in Hcn as [?|?%list_elem_of_singleton].
  - unfold n. rewrite !elem_of_app. tauto.
Qed.

Lemma expansion_layable cs : expand_rules source rs = Some cs → layable (outputs_of cs).
Proof.
  intros E. destruct (expansion_spec ok source rs (proj1 Hrs) Hok) as (cs' & Hcs' & Hiff).
  specialize (Hcs' 0). rewrite Nat.add_0_r in Hcs'. unfold expand_rules in E. unfold declared_at_once in Hcs'.
  assert (cs' = cs) as -> by congruence.
  assert (∀ o, outputs_of cs o → ∃ i r m, rs !! i = Some r ∧ instance_of r m ∧ output m = o) as Hout.
  { intros o [c Hc]%elem_of_dom. apply Hiff in Hc as (m & Hm & <- & _).
    apply (declared_instance ok source rs (proj1 Hrs) Hok) in Hm as (r & Hr & Hm).
    apply list_elem_of_lookup in Hr as [i Hi]. by exists i, r, m. }
  constructor.
  - intros o (i & r & m & Hi & Hm & <-)%Hout. apply (instance_inside r); [by eapply list_elem_of_lookup_2|done].
  - intros o o' (i & r & m & Hi & Hm & <-)%Hout (j & r' & m' & Hj & Hm' & <-)%Hout Hab.
    pose proof (instance_produces r m Hm) as Hp. pose proof (instance_produces r' m' Hm') as Hp'.
    destruct (lt_eq_lt_dec i j) as [[Hij|Hij]|Hij].
    + by destruct (StronglySorted_lookup _ _ _ _ _ _ (exp_apart _ (proj1 Hrs)) Hi Hj Hij _ _ Hp Hp') as (_ & ? & ?).
    + subst. simplify_eq. pose proof (exp_inside _ (proj1 Hrs) r (list_elem_of_lookup_2 _ _ _ Hi)) as Hin.
      apply produces_parent in Hp as (Hr1 & Hn1 & Hp1 & _); [|done].
      apply produces_parent in Hp' as (Hr2 & Hn2 & Hp2 & _); [|done].
      apply is_above_length in Hab. rewrite (path_split _ Hn1), (path_split _ Hn2), Hp1, Hp2, !length_app in Hab.
      simpl in Hab. lia.
    + by destruct (StronglySorted_lookup _ _ _ _ _ _ (exp_apart _ (proj1 Hrs)) Hj Hi Hij _ _ Hp' Hp) as (_ & ? & ?).
Qed.

Lemma expansion_total : is_Some (expand_rules source rs).
Proof.
  destruct (expansion_spec ok source rs (proj1 Hrs) Hok) as (cs' & Hcs' & _). exists cs'.
  specialize (Hcs' 0). by rewrite Nat.add_0_r in Hcs'.
Qed.
End expansions.

Section rules.
Context {T : Type} `{DirectoryTree T} (ok : T → Prop) `{!LawfulTree T ok}.
Context (error_text : error_code → str).

Lemma read_rules_total source : ok source → is_Some (read_rules error_text source).
Proof.
  intros Hok. unfold read_rules. rewrite (read_all_spec ok source Hok). simpl. by eexists.
Qed.

Lemma read_rules_expandable source rs : read_rules error_text source = Some (Value rs) → expandable rs.
Proof.
  unfold read_rules. intros (m & _ & E)%bind_Some. destruct m as [text|e].
  - destruct (is_nil _); simplify_eq. apply parse_expandable.
  - case_decide; simplify_eq. change (expandable (manifest_rules (parse []))). apply parse_expandable.
Qed.

(** A source that holds no wildcard that could name a file [.] or [..]. *)
Definition tame_source (source : T) : Prop :=
  ok source ∧ ∀ rs r, read_rules error_text source = Some (Value rs) → r ∈ rs → tame r.

Lemma read_rules_sound source rs :
  tame_source source → read_rules error_text source = Some (Value rs) → sound_rules rs.
Proof. intros [_ Ht] E. split; [by eapply read_rules_expandable|]. intros r. by apply Ht. Qed.
End rules.

(** ** Every instruction keeps the tree in line *)

Section exec.
Context {C : Type} `{Cache C} {T : Type} `{DirectoryTree T} (ok : T → Prop) `{!LawfulTree T ok}.
Context (error_text : error_code → str).
Implicit Types s : Impl (C := C).

Record sound s : Prop := {
  sound_rules_of : sound_rules (m_rules s);
  sound_in_line : in_line s;
  sound_mirrored : mirrored s;
}.

(** What an instruction carries is fit to be used. *)
Definition instr_sound (i : instr) : Prop :=
  match i with
  | SetRules rs => sound_rules rs
  | ApplyRules cs => layable (outputs_of cs)
  | _ => True
  end.

Lemma sound_same s s' : same_declared s s' → sound s → sound s'.
Proof.
  intros Hs [Hr [Hlay Hsh] Hm]. constructor.
  - by rewrite (same_rules _ _ Hs).
  - split; by rewrite (same_commands _ _ Hs), ?(same_structure _ _ Hs).
  - by apply (same_mirrored s).
Qed.

Lemma bring_up_declared out s target launch s' :
  bring_up_to_date out s = Some (target, launch, s') → same_declared s s'.
Proof.
  unfold bring_up_to_date. destruct (m_commands s !! out) as [c|]; [|intros [= <- <- <-]; by constructor].
  set (s1 := set_materialized _ _). set (s2 := if (_ : bool) then set_stale _ s1 else s1).
  assert (same_declared s s2) as Hs2 by (unfold s2; destruct (_ && _); by constructor). clearbody s2.
  set (s3 := set_attempts _ s2).
  assert (same_declared s s3) as Hs3 by (apply (same_declared_trans s s2); [done|by constructor]).
  destruct (decide _).
  - destruct (decide _); [by intros [= <- <- <-]|].
    destruct (next _); [by intros [= <- <- <-]|].
    destruct (new_attempt _ _ _) as [a s4] eqn:E. intros [= <- <- <-].
    apply (same_declared_trans s s3); [done|]. unfold new_attempt in E.
    destruct (create_attempt _ _ _). injection E as <- <-. by constructor.
  - destruct (decide _); [|by intros [= <- <- <-]].
    destruct (claim_build out s3) as [[l s4]|] eqn:E; simpl; [|done]. intros [= <- <- <-].
    apply (same_declared_trans s s3); [done|]. by apply claim_build_claims in E as [].
Qed.

Lemma start_build_declared out s launch s' : start_build out s = Some (launch, s') → same_declared s s'.
Proof.
  unfold start_build. destruct (_ || _); [intros [= <- <-]; by constructor|].
  destruct (claim_build out s) as [[l s4]|] eqn:E; simpl; [|done]. intros [= <- <-].
  by apply claim_build_claims in E as [].
Qed.

Lemma end_build_declared out result s launch orphaned s' :
  end_build out result s = Some (launch, orphaned, s') → same_declared (record_failure out result s) s'.
Proof.
  unfold end_build. set (s1 := record_failure out result s). set (s2 := set_reads _ _).
  assert (same_declared s1 s2) as Hs2 by by constructor. clearbody s2.
  destruct (is_declared out s2).
  - set (s3 := if has_value result then s2 else set_stale _ s2).
    assert (same_declared s1 s3) as Hs3.
    { apply (same_declared_trans s1 s2); [done|]. unfold s3. destruct (has_value result); by constructor. }
    destruct (_ || _); [|by intros [= <- <- <-]].
    destruct (claim_build out s3) as [[l s4]|] eqn:E; simpl; [|done]. intros [= <- <- <-].
    apply (same_declared_trans s1 s3); [done|]. by apply claim_build_claims in E as [].
  - destruct (m_attempts s2 !! out); intros [= <- <- <-]; [|done].
    apply (same_declared_trans s1 s2); [done|]. by constructor.
Qed.

Lemma update_dependents_sound out inputs s : sound s → sound (update_dependents out inputs s).
Proof. intros [Hr Hl Hm]. constructor; [done|done|by apply update_dependents_mirrored]. Qed.

Lemma record_failure_sound out result s : sound s → sound (record_failure out result s).
Proof.
  intros Hs. unfold record_failure. destruct result; [done|]. destruct (is_declared _ _); [|done].
  destruct (is_nil _); [done|]. by apply update_dependents_sound.
Qed.

Lemma record_success_sound out built t s keep s' :
  sound s → record_success out built t s = Some (keep, s') → sound s'.
Proof.
  intros [Hr Hl Hm] E. destruct (record_success_shows out built t s Hl) as (k & s1 & E1 & Hc & Hl1 & _).
  assert (s1 = s') as -> by congruence. revert E. unfold record_success.
  destruct (m_commands s !! out) as [c|]; [|by intros [= <- <-]].
  destruct (match m_cache s with None => (None, s) | Some _ => _ end) as [k1 s1] eqn:Es.
  assert (m_rules s1 = m_rules s ∧ mirrored s1) as [Er Hm1].
  { destruct (m_cache s); [case_decide|]; by injection Es as <- <-. }
  destruct (write_file _ _ _ _); simpl; [|done]. intros [= -> <-].
  constructor; [by simpl; rewrite Er|done|]. 
  by apply (update_dependents_mirrored out (add_reads out (output_inputs built) s)) in Hm1.
Qed.

Lemma remove_outputs_kept s outs :
  m_rules (foldl remove_output s outs) = m_rules s ∧
  (mirrored s → mirrored (foldl remove_output s outs)).
Proof.
  revert s. induction outs as [|o outs IH]; intros s; [done|]. cbn [foldl].
  destruct (IH (remove_output s o)) as [-> Hm]. split; [unfold remove_output; by case_decide|].
  intros Hs. by apply Hm, remove_output_mirrored.
Qed.

Lemma apply_rules_sound t commands s s' :
  sound s → layable (outputs_of commands) → apply_rules t commands s = Some s' → sound s'.
Proof.
  intros [Hr Hl Hm] Hlay E. destruct (apply_rules_shows t commands s Hl Hlay) as (s1 & E1 & _ & Hl1 & _).
  assert (s1 = s') as -> by congruence. revert E. unfold apply_rules. set (s2 := set_materialized _ _).
  destruct (remove_outputs_kept s2 (removed_outputs commands s)) as [Er Hm2].
  destruct (remove_outputs _ _); simpl; [|done]. destruct (add_placeholders _ _ _); simpl; [|done].
  intros [= <-]. constructor; [simpl; by rewrite Er|done|by apply Hm2].
Qed.

Lemma exec_sound o source i s more spawned s' :
  tame_source ok error_text source → exec error_text o source i s = Some (more, spawned, s') →
  sound s → instr_sound i → sound s' ∧ ∀ j, j ∈ more ++ concat spawned → instr_sound j.
Proof.
  intros Hsrc.
  assert (∀ l, forallb (λ j, match j with SetRules _ | ApplyRules _ => false | _ => true end) l = true →
               ∀ j, j ∈ l → instr_sound j) as Hplain.
  { intros l Hl j Hj. rewrite forallb_forall in Hl. apply list_elem_of_In in Hj. apply Hl in Hj. by destruct j. }
  destruct i; cbn [exec]; unfold_stretch.
  - case_match; intros [= <- <- <-] Hs _; (split; [done|by apply Hplain]).
  - case_match; intros [= <- <- <-] Hs _; (split; [done|by apply Hplain]).
  - intros [= <- <- <-] Hs _; (split; [|by apply Hplain]). unfold record_read.
    destruct (m_reads s !! requester); [|done]. by apply (sound_same s); [constructor|].
  - destruct (bring_up_to_date out s) as [[[target launch] s1]|] eqn:E; simpl; [|done]. intros [= <- <- <-] Hs _.
    split; [apply (sound_same s); [by eapply bring_up_declared|done]|]. apply Hplain. by destruct launch, target.
  - destruct (answer _ _ _); simpl; [|done]. intros [= <- <- <-] Hs _. split; [done|by apply Hplain].
  - destruct (materialize_all s) as [outputs s1] eqn:E. intros [= <- <- <-] Hs _. injection E as <- <-.
    split; [by apply (sound_same s); [constructor|]|by apply Hplain].
  - destruct outputs as [|out outputs]; [intros [= <- <- <-] Hs _; split; [done|by apply Hplain]|].
    destruct (start_build out s) as [[launch s1]|] eqn:E; simpl; [|done]. intros [= <- <- <-] Hs _.
    split; [apply (sound_same s); [by eapply start_build_declared|done]|]. apply Hplain. by destruct launch.
  - case_decide; [intros [= <- <- <-] Hs _; split; [done|by apply Hplain]|].
    destruct (refusal o); intros [= <- <- <-] Hs _; [split; [done|by apply Hplain]|].
    split; [by apply (sound_same s); [constructor|]|]. apply Hplain. by destruct (copies_output _).
  - intros [= <- <- <-] Hs _. split; [done|by apply Hplain].
  - destruct (overruled o); [intros [= <- <- <-] Hs _; split; [done|by apply Hplain]|].
    destruct (bring_up_to_date from s) as [[[target launch] s1]|] eqn:E; simpl; [|done]. intros [= <- <- <-] Hs _.
    split; [apply (sound_same s); [by eapply bring_up_declared|done]|]. apply Hplain. by destruct launch, target.
  - destruct (overruled o); [intros [= <- <- <-] Hs _; split; [done|by apply Hplain]|].
    destruct (answer _ _ _); simpl; [|done]. intros [= <- <- <-] Hs _. split; [done|]. apply Hplain. by case_decide.
  - destruct (read_all _ _) as [bytes|]; simpl; [|done]. intros [= <- <- <-] Hs _. split; [done|by apply Hplain].
  - destruct result as [built|failure]; [|intros [= <- <- <-] Hs _; split; [done|by apply Hplain]].
    destruct (record_success _ _ _ _) as [[keep s1]|] eqn:E; simpl; [|done]. intros [= <- <- <-] Hs _.
    split; [by eapply record_success_sound|by apply Hplain].
  - destruct (end_build _ _ _) as [[[launch orphaned] s1]|] eqn:E; simpl; [|done]. intros [= <- <- <-] Hs _.
    split; [|apply Hplain; by destruct orphaned, keep, result, launch].
    apply end_build_declared in E. eapply sound_same; [done|]. by apply record_failure_sound.
  - intros [= <- <- <-] Hs _. split; [by apply (sound_same s); [constructor|]|by apply Hplain].
  - destruct (m_cache_mutex s); [done|]. intros [= <- <- <-] Hs _.
    split; [|by apply Hplain]. by destruct Hs; constructor.
  - intros [= <- <- <-] Hs _. split; [|by apply Hplain]. unfold store_in_cache.
    destruct (m_cache s); [case_match|]; by destruct Hs; constructor.
  - destruct (m_cache_mutex s); [done|]. intros [= <- <- <-] Hs _. split; [|by apply Hplain].
    unfold forget_in_cache. destruct (m_cache s); [case_match|]; by destruct Hs; constructor.
  - intros [= <- <- <-] Hs _. split; [done|]. apply Hplain. by repeat case_match.
  - destruct (read_rules _ _) as [[rs|]|] eqn:E; simpl; [..|done]; intros [= <- <- <-] Hs _; (split; [done|]).
    + intros j ->%list_elem_of_singleton. by eapply read_rules_sound.
    + by apply Hplain.
  - intros [= <- <- <-] [Hr Hl Hm] Hrs. split; [by constructor|by apply Hplain].
  - destruct (expand_rules _ _) as [cs|] eqn:E; simpl; [|done]. intros [= <- <- <-] Hs _. split; [done|].
    intros j ->%list_elem_of_singleton. simpl. by eapply (expansion_layable ok); [apply Hs|apply Hsrc|].
  - destruct (apply_rules _ _ _) eqn:E; simpl; [|done]. intros [= <- <- <-] Hs Hlay.
    split; [by eapply apply_rules_sound|by apply Hplain].
  - intros [= <- <- <-] Hs _. split; [done|by apply Hplain].
  - intros [= <- <- <-] Hs _. split; [done|by apply Hplain].
  - destruct (invalidate_spec outputs s) as (seen & eager & s1 & E & _ & Hm & _). rewrite E. simpl.
    intros [= <- <- <-] Hs _. split; [|by apply Hplain]. by apply (sound_same s); [apply Hm|].
Qed.
End exec.
