(* ===== verification/BuildTreeSteps.v ===== *)
(** * Worlds the build tree can get into

    The invariants of the bookkeeping, the layout and the cache's lock, for
    every interleaving of threads, and that no thread is ever stuck. *)

From S2P Require Export BuildTreeWorld.

Section steps.
Context {C : Type} `{Cache C} {T : Type} `{DirectoryTree T} (ok : T → Prop) `{!LawfulTree T ok}.
Context (error_text : error_code → str).
Implicit Types s : Impl (C := C).

(** What an open is told to wait on, and what it starts. *)
Inductive brought (out : path) s : option nat → option Launch → Impl (C := C) → Prop :=
  | brought_undeclared : out ∉ dom (m_commands s) → brought out s None None s
  | brought_current s' a :
      out ∈ dom (m_commands s) → out ∈ m_in_flight s → out ∉ m_stale s →
      current (attempts_of out s) = a → m_coordinator s' = m_coordinator s →
      m_stale s' = m_stale s → m_in_flight s' = m_in_flight s → brought out s a None s'
  | brought_next s' a :
      out ∈ dom (m_commands s) → out ∈ m_in_flight s → out ∈ m_stale s →
      next (attempts_of out s') = Some a →
      (next (attempts_of out s) = Some a ∧ m_coordinator s' = m_coordinator s ∨
       next (attempts_of out s) = None ∧
         (a, m_coordinator s') = create_attempt out (current (attempts_of out s)) (m_coordinator s)) →
      m_stale s' = m_stale s → m_in_flight s' = m_in_flight s → brought out s (Some a) None s'
  | brought_built s' l c :
      m_commands s !! out = Some c → out ∉ m_in_flight s → (out ∈ m_stale s ∨ command_action c = Tracing) →
      launch_output l = out → launch_command l = c →
      m_stale s' = m_stale s ∖ {[out]} → m_in_flight s' = {[out]} ∪ m_in_flight s →
      brought out s (Some (launch_attempt l)) (Some l) s'
  | brought_fresh s' c :
      m_commands s !! out = Some c → out ∉ m_in_flight s → out ∉ m_stale s → command_action c ≠ Tracing →
      m_stale s' = m_stale s → m_in_flight s' = m_in_flight s → m_coordinator s' = m_coordinator s →
      brought out s None None s'.

Lemma bring_up_brought out s target launch s' :
  bring_up_to_date out s = Some (target, launch, s') → brought out s target launch s'.
Proof.
  unfold bring_up_to_date. destruct (m_commands s !! out) as [c|] eqn:Ec.
  2: { intros [= <- <- <-]. constructor. by apply not_elem_of_dom. }
  assert (out ∈ dom (m_commands s)) as Hd by by apply elem_of_dom_2 in Ec.
  set (s1 := set_materialized _ _).
  destruct (bool_decide (command_action c = Tracing) && bool_decide (out ∉ m_in_flight s1)) eqn:Et.
  - apply andb_prop in Et as [Ht%bool_decide_eq_true Hf%bool_decide_eq_true].
    rewrite decide_False by done. rewrite decide_True by (simpl; set_solver).
    destruct (claim_build out _) as [[l s4]|] eqn:E; simpl; [|done]. intros [= <- <- <-].
    apply claim_build_claims in E as [? ? ? ? Hst ? ? ? ?]. simpl in *.
    apply (brought_built out s s4 l c); [done|done|by right|done|congruence| |done].
    rewrite Hst. set_solver.
  - destruct (decide _) as [Hf|Hf]; simpl in Hf.
    + destruct (decide _) as [Hs|Hs]; simpl in Hs.
      { intros [= <- <- <-]. by apply brought_current. }
      apply dec_stable in Hs. destruct (next _) as [a|] eqn:Hn.
      * intros [= <- <- <-]. apply brought_next; try done; [|by left].
        unfold attempts_of at 1. simpl. by rewrite lookup_insert_eq.
      * destruct (new_attempt _ _ _) as [a s4] eqn:En. intros [= <- <- <-].
        unfold new_attempt in En. destruct (create_attempt _ _ _) as [b calls] eqn:Ec'.
        injection En as <- <-. apply brought_next; try done.
        -- unfold attempts_of. simpl. by rewrite lookup_insert_eq.
        -- right. split; [done|]. exact (eq_sym Ec').
    + destruct (decide _) as [Hs|Hs]; simpl in Hs.
      * destruct (claim_build out _) as [[l s4]|] eqn:E; simpl; [|done]. intros [= <- <- <-].
        apply claim_build_claims in E as []. simpl in *.
        apply (brought_built out s s4 l c); [done|done|by left|done|congruence|done|done].
      * intros [= <- <- <-]. apply (brought_fresh out s _ c); try done.
        intros Ht. rewrite bool_decide_eq_true_2, bool_decide_eq_true_2 in Et by done. done.
Qed.

Lemma bring_up_total out s : ∃ target launch s', bring_up_to_date out s = Some (target, launch, s').
Proof.
  unfold bring_up_to_date. destruct (m_commands s !! out) as [c|] eqn:Ec; [|by eexists _, _, _].
  set (s1 := set_materialized _ _). set (s2 := if (_ : bool) then set_stale _ s1 else s1).
  assert (out ∈ dom (m_commands s2)) as Hd.
  { unfold s2. destruct (_ && _); by apply elem_of_dom_2 in Ec. } clearbody s2.
  destruct (decide _).
  - destruct (decide _); [by eexists _, _, _|]. destruct (next _); [by eexists _, _, _|].
    destruct (new_attempt _ _ _). by eexists _, _, _.
  - destruct (decide _); [|by eexists _, _, _].
    destruct (claim_build_total out (set_attempts (<[out := attempts_of out s2]> (m_attempts s2)) s2)) as (l & s4 & E);
      [done|]. rewrite E. by eexists _, _, _.
Qed.

(** ** Targets *)

Lemma known_attempt x todo s a :
  bookkept_but x todo s → a ∈ todo ≫= owed ∨ a ∈ nexts (m_attempts s) → a < length (created (m_coordinator s)).
Proof.
  intros [Ha _ _ _ _] Hin. assert (a ∈ seq 0 (length (created (m_coordinator s)))) as Hseq.
  { rewrite Ha, !elem_of_app. tauto. }
  apply elem_of_seq in Hseq. lia.
Qed.

Lemma elem_of_nexts m o att a : m !! o = Some att → next att = Some a → a ∈ nexts m.
Proof.
  intros Ho Hn. unfold nexts. apply list_elem_of_omap. exists (o, att). split; [by apply elem_of_map_to_list|done].
Qed.

(** The build of an output in flight is what its attempts say is under way. *)
Lemma current_owed todo s out :
  bookkept todo s → out ∈ m_in_flight s →
  ∃ a, current (attempts_of out s) = Some a ∧ a ∈ todo ≫= owed.
Proof.
  intros [_ Hb _ _ Hc] Ho. rewrite <- elem_of_elements, Hb in Ho.
  apply list_elem_of_bind in Ho as (i & Hi & Hin). unfold builds in Hi.
  destruct (build_pair i) as [[o a]|] eqn:E; [|by apply elem_of_nil in Hi].
  apply list_elem_of_singleton in Hi as ->. destruct (Hc i o a Hin E) as (att & Hatt & Hcur).
  exists a. unfold attempts_of. rewrite Hatt. split; [done|]. apply list_elem_of_bind. exists i. split; [|done].
  destruct i; simpl in *; try done; simplify_eq; left.
Qed.

Lemma bring_up_target todo s out a launch s' :
  bookkept todo s → bring_up_to_date out s = Some (Some a, launch, s') →
  a < length (created (m_coordinator s')).
Proof.
  intros Hbk E. pose proof (bring_up_bookkept _ _ _ _ _ _ Hbk E) as Hbk'.
  apply bring_up_brought in E. inversion E; subst; simplify_eq.
  - destruct (current_owed todo s out Hbk) as (a' & Ha & Hin); [done|].
    eapply known_attempt; [exact Hbk'|]. left. assert (a = a') as -> by congruence. done.
  - eapply known_attempt; [exact Hbk'|]. right.
    match goal with H : next (attempts_of out s') = Some a |- _ => rename H into Hn end.
    unfold attempts_of in Hn. destruct (m_attempts s' !! out) as [att|] eqn:Eo; [|done].
    by eapply elem_of_nexts.
  - eapply known_attempt; [exact Hbk'|]. left. cbn. left.
Qed.

(** ** The cache's lock, and what is waited on *)

Definition is_store (i : instr) : bool := match i with StoreInCache _ _ _ _ => true | _ => false end.
Definition stores (l : list instr) : nat := length (filter (λ i, is_store i = true) l).

Lemma stores_app l k : stores (l ++ k) = stores l + stores k.
Proof. unfold stores. by rewrite filter_app, length_app. Qed.
Lemma stores_cons i l : stores (i :: l) = Nat.b2n (is_store i) + stores l.
Proof. unfold stores. rewrite filter_cons. by destruct (is_store i). Qed.

Lemma remove_outputs_mutex s outs : m_cache_mutex (foldl remove_output s outs) = m_cache_mutex s.
Proof.
  revert s. induction outs as [|o outs IH]; intros s; [done|]. cbn [foldl]. rewrite IH.
  unfold remove_output. by case_decide.
Qed.

Lemma record_failure_mutex out result s : m_cache_mutex (record_failure out result s) = m_cache_mutex s.
Proof.
  unfold record_failure. destruct result; [done|]. destruct (is_declared _ _); [|done]. by destruct (is_nil _).
Qed.

Lemma record_success_mutex out built t s keep s' :
  record_success out built t s = Some (keep, s') → m_cache_mutex s' = m_cache_mutex s.
Proof.
  unfold record_success. destruct (m_commands s !! out) as [c|]; [|by intros [= <- <-]].
  destruct (m_cache s); [destruct (decide _)|];
    (destruct (write_file _ _ _ _); simpl; [|done]); by intros [= <- <-].
Qed.

Definition awaits (i : instr) : option nat :=
  match i with Await a | AwaitSource _ _ a => Some a | _ => None end.

(** Nothing else is put first than instructions that neither hold the cache's
    lock nor wait. *)
Definition free (l : list instr) : bool :=
  forallb (λ i, negb (is_store i) && match awaits i with None => true | Some _ => false end) l.

Record gates (todo : list instr) s : Prop := {
  gate_lock : Nat.b2n (m_cache_mutex s) = stores todo;
  gate_targets i a : i ∈ todo → awaits i = Some a → a < length (created (m_coordinator s));
}.

Lemma free_gates more todo s s' :
  free more = true → m_cache_mutex s' = m_cache_mutex s →
  length (created (m_coordinator s)) ≤ length (created (m_coordinator s')) →
  gates todo s → gates (more ++ todo) s'.
Proof.
  intros Hf Hm Hc [Hl Ht]. unfold free in Hf. rewrite forallb_forall in Hf.
  assert (∀ i, i ∈ more → is_store i = false ∧ awaits i = None) as Hmore.
  { intros i Hi%list_elem_of_In. apply Hf in Hi. destruct (awaits i), (is_store i); done. }
  constructor.
  - rewrite Hm, Hl, stores_app. enough (stores more = 0) as -> by done.
    clear Hf. induction more as [|i more IH]; [done|]. rewrite stores_cons, IH by (intros; apply Hmore; by right).
    by destruct (Hmore i) as [-> _]; [left|].
  - intros i a [Hi|Hi]%elem_of_app Ha; [apply Hmore in Hi as [_ ?]; congruence|].
    eapply Nat.lt_le_trans; [by apply (Ht i)|done].
Qed.

Lemma gates_drop i todo s : is_store i = false → gates (i :: todo) s → gates todo s.
Proof.
  intros Hi [Hl Ht]. constructor; [by rewrite Hl, stores_cons, Hi|]. intros j a Hj. apply Ht. by right.
Qed.

Lemma gates_perm todo todo' s : todo ≡ₚ todo' → gates todo s → gates todo' s.
Proof.
  intros E [Hl Ht]. constructor.
  - rewrite Hl. unfold stores. by rewrite E.
  - intros i a Hi. apply Ht. by rewrite E.
Qed.

(** Putting a wait on a known attempt first. *)
Lemma gates_wait i a todo s :
  is_store i = false → awaits i = Some a → a < length (created (m_coordinator s)) →
  gates todo s → gates (i :: todo) s.
Proof.
  intros Hi Hw Ha [Hl Ht]. constructor; [by rewrite stores_cons, Hi|].
  intros j b [->|Hj]%elem_of_cons Hb; [congruence|by apply (Ht j)].
Qed.

Lemma claims_created out l s s' :
  claims out l s s' → length (created (m_coordinator s)) ≤ length (created (m_coordinator s')).
Proof.
  intros [_ _ [[_ ->]|[_ E]] _ _ _ _ _ _]; [done|]. unfold create_attempt in E. injection E as _ ->.
  simpl. rewrite length_app. lia.
Qed.

Lemma bring_up_gates todo s out target launch s' :
  gates todo s → bring_up_to_date out s = Some (target, launch, s') → gates (launches launch ++ todo) s'.
Proof.
  intros Hg E. assert (free (launches launch) = true) as Hfree by by destruct launch.
  apply (free_gates _ todo s); [done| | |done].
  - by apply bring_up_declared in E as [].
  - unfold bring_up_to_date in E. destruct (m_commands s !! out); [|by simplify_eq].
    set (s1 := set_materialized _ _) in E. set (s2 := if (_ : bool) then set_stale _ s1 else s1) in E.
    assert (m_coordinator s2 = m_coordinator s) as Hc by (unfold s2; by destruct (_ && _)). clearbody s2.
    destruct (decide _).
    + destruct (decide _); simplify_eq/=; [by rewrite Hc|]. destruct (next _); simplify_eq/=; [by rewrite Hc|].
      rewrite length_app, Hc. lia.
    + destruct (decide _); simplify_eq/=; [|by rewrite Hc].
      destruct (claim_build _ _) as [[l s4]|] eqn:Ecl; simplify_eq/=.
      apply claim_build_claims, claims_created in Ecl. simpl in Ecl. by rewrite <- Hc.
Qed.

Lemma start_build_gates todo s out launch s' :
  gates todo s → start_build out s = Some (launch, s') → gates (launches launch ++ todo) s'.
Proof.
  intros Hg E. assert (free (launches launch) = true) as Hfree by by destruct launch.
  apply (free_gates _ todo s); [done|by apply start_build_declared in E as []| |done].
  unfold start_build in E. destruct (_ || _); [by simplify_eq|].
  destruct (claim_build _ _) as [[l s4]|] eqn:Ecl; simplify_eq/=. by apply claim_build_claims, claims_created in Ecl.
Qed.

Lemma record_success_calls out built t s keep s' :
  record_success out built t s = Some (keep, s') → m_coordinator s' = m_coordinator s.
Proof.
  unfold record_success. destruct (m_commands s !! out) as [c|]; [|by intros [= <- <-]].
  destruct (m_cache s); [destruct (decide _)|];
    (destruct (write_file _ _ _ _); simpl; [|done]); by intros [= <- <-].
Qed.

Lemma remove_outputs_calls s outs : m_coordinator (foldl remove_output s outs) = m_coordinator s.
Proof.
  revert s. induction outs as [|o outs IH]; intros s; [done|]. cbn [foldl]. rewrite IH.
  unfold remove_output. by case_decide.
Qed.

Lemma apply_rules_frees t commands s s' :
  apply_rules t commands s = Some s' →
  m_cache_mutex s' = m_cache_mutex s ∧ m_coordinator s' = m_coordinator s.
Proof.
  unfold apply_rules. set (s2 := set_materialized _ _).
  destruct (remove_outputs _ _); simpl; [|done]. destruct (add_placeholders _ _ _); simpl; [|done].
  intros [= <-]. simpl. by rewrite remove_outputs_mutex, remove_outputs_calls.
Qed.

Lemma end_build_gates todo s out result launch orphaned s' :
  gates todo s → end_build out result s = Some (launch, orphaned, s') → gates todo s'.
Proof.
  intros Hg E. apply (free_gates [] todo s); [done| | |done].
  - by rewrite (same_mutex _ _ (end_build_declared out result s launch orphaned s' E)), record_failure_mutex.
  - unfold end_build in E. pose proof (record_failure_builds out result s) as [_ _ _ Hc _].
    set (s1 := record_failure out result s) in *. set (s2 := set_reads _ _) in E.
    assert (m_coordinator s2 = m_coordinator s1) as Hc2 by done. clearbody s2.
    destruct (is_declared out s2).
    + set (s3 := if has_value result then s2 else set_stale _ s2) in E.
      assert (m_coordinator s3 = m_coordinator s2) as Hc3 by (unfold s3; by destruct (has_value result)).
      destruct (_ || _); [|simplify_eq; by rewrite Hc3, Hc2, Hc].
      destruct (claim_build _ _) as [[l s4]|] eqn:Ecl; simplify_eq/=.
      apply claim_build_claims, claims_created in Ecl. by rewrite Hc3, Hc2, Hc in Ecl.
    + destruct (m_attempts s2 !! out); simplify_eq/=; by rewrite Hc2, Hc.
Qed.

(** The instruction is taken off, and what it puts first is free. *)
Lemma gates_step i more todo s s' :
  is_store i = false → free more = true → m_cache_mutex s' = m_cache_mutex s →
  length (created (m_coordinator s)) ≤ length (created (m_coordinator s')) →
  gates (i :: todo) s → gates (concat [] ++ more ++ todo) s'.
Proof. intros Hi Hf Hm Hc Hg. apply (free_gates more todo s); [done..|]. by apply gates_drop in Hg. Qed.

Lemma free_app l k : free (l ++ k) = free l && free k.
Proof. apply forallb_app. Qed.

Lemma exec_gates o (source : T) i s more spawned s' todo :
  exec error_text o source i s = Some (more, spawned, s') → bookkept (i :: todo) s → gates (i :: todo) s →
  gates (concat spawned ++ more ++ todo) s'.
Proof.
  destruct i; cbn [exec]; unfold_stretch.
  - case_match; intros [= <- <- <-] _; by apply gates_step.
  - case_match; intros [= <- <- <-] _; by apply gates_step.
  - intros [= <- <- <-] _. apply gates_step; [done|done|..]; unfold record_read; by destruct (m_reads s !! requester).
  - destruct (bring_up_to_date out s) as [[[target launch] s1]|] eqn:E; simpl; [|done]. intros [= <- <- <-] Hbk Hg.
    apply gates_drop in Hg; [|done]. apply bookkept_drop in Hbk; [|done].
    pose proof (bring_up_gates _ _ _ _ _ _ Hg E) as Hg1. destruct target as [a|]; [|by rewrite app_nil_r].
    pose proof (bring_up_target _ _ _ _ _ _ Hbk E) as Ha.
    apply (gates_perm (Await a :: launches launch ++ todo)); [unfold launches; solve_Permutation|].
    by apply (gates_wait _ a).
  - destruct (answer _ _ _); simpl; [|done]. intros [= <- <- <-] _. by apply gates_step.
  - destruct (materialize_all s) as [outputs s1] eqn:E. intros [= <- <- <-] _. injection E as <- <-. by apply gates_step.
  - destruct outputs as [|out outputs]; [intros [= <- <- <-] _; by apply gates_step|].
    destruct (start_build out s) as [[launch s1]|] eqn:E; simpl; [|done]. intros [= <- <- <-] _ Hg.
    apply gates_drop in Hg; [|done]. pose proof (start_build_gates _ _ _ _ _ Hg E) as Hg1.
    apply (gates_perm ([StartBuilds outputs] ++ launches launch ++ todo)); [unfold launches; solve_Permutation|].
    by apply (free_gates _ _ s1).
  - case_decide; [intros [= <- <- <-] _; by apply gates_step|].
    destruct (refusal o); intros [= <- <- <-] _ Hg; [revert Hg; by apply gates_step|].
    apply (free_gates [_] todo s); [by destruct (copies_output _)|done|done|]. by apply gates_drop in Hg.
  - intros [= <- <- <-] _. by apply gates_step.
  - destruct (overruled o); [intros [= <- <- <-] _; by apply gates_step|].
    destruct (bring_up_to_date from s) as [[[target launch] s1]|] eqn:E; simpl; [|done]. intros [= <- <- <-] Hbk Hg.
    apply gates_drop in Hg; [|done]. pose proof (bring_up_gates _ _ _ _ _ _ Hg E) as Hg1.
    set (j := match target with Some a => AwaitSource b from a | None => ReadSource b from end).
    apply (gates_perm (j :: launches launch ++ todo)); [unfold launches; solve_Permutation|].
    destruct target as [a|]; [|by apply (free_gates [_] _ s1)].
    pose proof (bring_up_target _ _ _ _ _ _ Hbk E) as Ha. by apply (gates_wait _ a).
  - destruct (overruled o); [intros [= <- <- <-] _; by apply gates_step|].
    destruct (answer _ _ _); simpl; [|done]. intros [= <- <- <-] _. apply gates_step; [done|by case_decide|done|done].
  - destruct (read_all _ _) as [bytes|]; simpl; [|done]. intros [= <- <- <-] _. by apply gates_step.
  - destruct result as [built|failure]; [|intros [= <- <- <-] _; by apply gates_step].
    destruct (record_success _ _ _ _) as [[keep s1]|] eqn:E; simpl; [|done]. intros [= <- <- <-] _.
    apply gates_step; [done|done|by eapply record_success_mutex|]. by apply record_success_calls in E as ->.
  - destruct (end_build _ _ _) as [[[launch orphaned] s1]|] eqn:E; simpl; [|done]. intros [= <- <- <-] _ Hg.
    apply gates_drop in Hg; [|done]. pose proof (end_build_gates _ _ _ _ _ _ _ Hg E) as Hg1.
    match goal with |- gates ?l _ => change l with
      ((Complete (build_attempt b) (result_error result) :: match orphaned with
        | Some a => [Complete a (make_error_code no_such_file_or_directory)] | None => [] end ++
        match keep, result with Some k, Value built => [CheckKeep b (output_bytes built) k] | _, _ => [] end ++
        launches launch) ++ todo) end.
    apply (free_gates _ _ s1); [|done..|done]. by destruct orphaned, keep, result, launch.
  - intros [= <- <- <-] _. by apply gates_step.
  - destruct (m_cache_mutex s) eqn:Em; [done|]. intros [= <- <- <-] _ Hg. apply gates_drop in Hg as [Hl Ht]; [|done].
    rewrite Em in Hl. constructor; simpl; [by rewrite stores_cons, <- Hl|].
    intros j a [->|Hj]%elem_of_cons Ha; [done|by apply (Ht j)].
  - intros [= <- <- <-] _ [Hl Ht]. rewrite stores_cons in Hl. simpl in Hl.
    assert (m_coordinator (store_in_cache source (build_output b) content keep stamps s) = m_coordinator s) as Hc.
    { unfold store_in_cache. destruct (m_cache s); [case_match|]; done. }
    constructor; simpl.
    + destruct (m_cache_mutex s); simpl in Hl; lia.
    + intros j a Hj. rewrite Hc. apply Ht. by right.
  - destruct (m_cache_mutex s) eqn:Em; [done|]. intros [= <- <- <-] _.
    apply gates_step; [done|done|..]; unfold forget_in_cache; (destruct (m_cache s); [case_match|]); done.
  - intros [= <- <- <-] _. apply gates_step; [done|by repeat case_match|done|done].
  - destruct (read_rules _ _) as [[rs|]|] eqn:E; simpl; [..|done]; intros [= <- <- <-] _; by apply gates_step.
  - intros [= <- <- <-] _. by apply gates_step.
  - destruct (expand_rules _ _) as [cs|] eqn:E; simpl; [|done]. intros [= <- <- <-] _. by apply gates_step.
  - destruct (apply_rules _ _ _) eqn:E; simpl; [|done]. intros [= <- <- <-] _.
    apply apply_rules_frees in E as [Em Ec]. apply gates_step; [done|done|done|by rewrite Ec].
  - intros [= <- <- <-] _. by apply gates_step.
  - intros [= <- <- <-] _. by apply gates_step.
  - destruct (invalidate_spec outputs s) as (seen & eager & s1 & E & _ & Hm & _). rewrite E. simpl.
    intros [= <- <- <-] _. apply gates_step; [done|done|apply Hm|].
    by rewrite (same_created _ _ (marked_builds _ _ _ Hm)).
Qed.

(** ** Worlds *)

Record consistent (w : world (C := C) (T := T)) : Prop := {
  con_bookkept : bookkept (pending w) (tree w);
  con_sound : sound (tree w);
  con_source : tame_source ok error_text (source w);
  con_instrs i : i ∈ pending w → instr_sound i;
  con_gates : gates (pending w) (tree w);
}.

Definition lawful_event (e : event (T := T)) : Prop :=
  match e with SourceMoves t => tame_source ok error_text t | _ => True end.

(** Doing the first thing a thread has left, among the others [todo]. *)
Lemma exec_consistent o (t : T) i s more spawned s' todo :
  exec error_text o t i s = Some (more, spawned, s') → tame_source ok error_text t →
  bookkept (i :: todo) s → sound s → (∀ j, j ∈ i :: todo → instr_sound j) → gates (i :: todo) s →
  let todo' := concat spawned ++ more ++ todo in
  bookkept todo' s' ∧ sound s' ∧ (∀ j, j ∈ todo' → instr_sound j) ∧ gates todo' s'.
Proof.
  intros E Ht Hbk Hs Hi Hg.
  destruct (exec_sound ok error_text o t i s more spawned s' Ht E Hs) as [Hs' Hi']; [apply Hi; left|].
  split_and!; [by eapply exec_bookkept|done| |by eapply exec_gates].
  intros j. rewrite !elem_of_app. intros [Hj|[Hj|Hj]]; [apply Hi'|apply Hi'|apply Hi]; rewrite ?elem_of_app, ?elem_of_cons; tauto.
Qed.

Lemma thread_split (ts : list (list instr)) n x rest :
  ts !! n = Some (x :: rest) →
  ∃ others, concat ts ≡ₚ x :: others ∧
    ∀ more spawned, concat (<[n := more ++ rest]> ts ++ spawned) ≡ₚ concat spawned ++ more ++ others.
Proof.
  intros (l1 & l2 & -> & ->)%list_elem_of_split_length. exists (concat l1 ++ rest ++ concat l2). split.
  - rewrite concat_app. simpl. solve_Permutation.
  - intros more spawned. rewrite insert_app_r_alt, Nat.sub_diag by done. simpl.
    rewrite !concat_app. simpl. solve_Permutation.
Qed.

(** A world whose threads have [todo'] left, and are as they should be. *)
Lemma consistent_perm (w : world (C := C) (T := T)) todo :
  pending w ≡ₚ todo → bookkept todo (tree w) → sound (tree w) → tame_source ok error_text (source w) →
  (∀ i, i ∈ todo → instr_sound i) → gates todo (tree w) → consistent w.
Proof.
  intros E Hbk Hs Hsrc Hi Hg. constructor; [|done|done| |].
  - by apply (bookkept_perm None todo).
  - intros i. rewrite E. apply Hi.
  - by apply (gates_perm todo).
Qed.

(** Something new to do that owes nothing. *)
Lemma consistent_idle (w w' : world (C := C) (T := T)) i :
  consistent w → tree w' = tree w → source w' = source w → pending w' ≡ₚ i :: pending w →
  idle i = true → free [i] = true → instr_sound i → consistent w'.
Proof.
  intros [Hbk Hs Hsrc Hi Hg] Et Es Ep Hidle Hfree Hin. apply (consistent_perm w' (i :: pending w)); rewrite ?Et, ?Es; try done.
  - apply (bookkept_idle None [i]); [|done]. simpl. by rewrite Hidle.
  - intros j [->|Hj]%elem_of_cons; [done|by apply Hi].
  - by apply (free_gates [i] _ (tree w)).
Qed.

Lemma step_consistent e w w' :
  consistent w → lawful_event e → step error_text e w = Some w' → consistent w'.
Proof.
  intros Hw He. pose proof Hw as [Hbk Hs Hsrc Hi Hg]. destruct e as [n o|o|t|diff|p pid|]; simpl.
  - destruct (threads w !! n) as [[|x rest]|] eqn:En; simpl; [done| |done].
    destruct (exec _ _ _ _ _) as [[[more spawned] s]|] eqn:E; simpl; [|done]. intros [= <-].
    destruct (thread_split _ _ _ _ En) as (others & Hp & Hp').
    assert (pending w ≡ₚ x :: others ++ watcher w) as Hpw by (unfold pending; by rewrite Hp).
    destruct (exec_consistent o (source w) x (tree w) more spawned s (others ++ watcher w)) as (? & ? & ? & ?); try done.
    + by apply (bookkept_perm None (pending w)).
    + intros j. rewrite <- Hpw. apply Hi.
    + by apply (gates_perm (pending w)).
    + apply (consistent_perm _ (concat spawned ++ more ++ others ++ watcher w)); try done.
      unfold pending. simpl. rewrite Hp'. by rewrite <- !(assoc_L (++)).
  - destruct (watcher w) as [|x rest] eqn:Ew; [done|].
    destruct (exec _ _ _ _ _) as [[[more spawned] s]|] eqn:E; simpl; [|done]. intros [= <-].
    assert (pending w ≡ₚ x :: concat (threads w) ++ rest) as Hpw.
    { unfold pending. rewrite Ew. solve_Permutation. }
    destruct (exec_consistent o (source w) x (tree w) more spawned s (concat (threads w) ++ rest)) as (? & ? & ? & ?); try done.
    + by apply (bookkept_perm None (pending w)).
    + intros j. rewrite <- Hpw. apply Hi.
    + by apply (gates_perm (pending w)).
    + apply (consistent_perm _ (concat spawned ++ more ++ concat (threads w) ++ rest)); try done.
      unfold pending. simpl. rewrite concat_app. solve_Permutation.
  - intros [= <-]. by constructor.
  - destruct (is_nil (watcher w)) eqn:Ew; [|done]. intros [= <-]. apply is_nil_true in Ew.
    apply (consistent_idle w _ (SourceChange diff)); try done. unfold pending. simpl. rewrite Ew. solve_Permutation.
  - intros [= <-]. apply (consistent_idle w _ (OpenFile p pid)); try done.
    unfold pending. simpl. rewrite concat_app. simpl. solve_Permutation.
  - intros [= <-]. apply (consistent_idle w _ MaterializeAll); try done.
    unfold pending. simpl. rewrite concat_app. simpl. solve_Permutation.
Qed.

Lemma run_consistent es w w' :
  consistent w → Forall lawful_event es → run error_text es w = Some w' → consistent w'.
Proof.
  intros Hw Hes. revert w Hw. induction Hes as [|e es He Hes IH]; intros w Hw; simpl; [by intros [= <-]|].
  destruct (step _ _ _) as [w1|] eqn:E; simpl; [|done]. apply IH. by eapply step_consistent.
Qed.
End steps.
