(* ===== verification/RestoreSpec.v ===== *)
(** * What is restored is what still holds

    [record_holds] ends, and says yes of exactly the outputs whose record is of
    the rule in force and of inputs that are all as they were, outputs that were
    read being such outputs themselves. *)

From S2P Require Export Restore.

Section restore.
Context {C : Type} `{Cache C} {T : Type} `{DirectoryTree T} (source : T) (cache : C).
Context (records_of : gmap path CacheRecord) (commands : gmap path Command).

(** Well founded: no output holds because of itself. *)
Inductive valid : path → Prop :=
  | valid_record out record command content :
      records_of !! out = Some record → commands !! out = Some command →
      command_action command ≠ Tracing → record_command record = command →
      (∀ input read, input ∈ record_inputs record → output_named_by (input_path input) = Some read → valid read) →
      (∀ input read, input ∈ record_inputs record → output_named_by (input_path input) = Some read →
         ∃ r, records_of !! read = Some r ∧ record_hash r = input_hash input) →
      (∀ input, input ∈ record_inputs record → output_named_by (input_path input) = None →
         stamp_source source (input_path input) = Some input) →
      read_content cache (record_hash record) = Value content →
      valid out.

Lemma valid_inv out : valid out → ∃ record content,
  records_of !! out = Some record ∧ commands !! out = Some (record_command record) ∧
  command_action (record_command record) ≠ Tracing ∧
  (∀ input read, input ∈ record_inputs record → output_named_by (input_path input) = Some read → valid read) ∧
  (∀ input read, input ∈ record_inputs record → output_named_by (input_path input) = Some read →
     ∃ r, records_of !! read = Some r ∧ record_hash r = input_hash input) ∧
  (∀ input, input ∈ record_inputs record → output_named_by (input_path input) = None →
     stamp_source source (input_path input) = Some input) ∧
  read_content cache (record_hash record) = Value content.
Proof. intros [out' record command content ? ? ? <- ? ? ? ?]. by exists record, content. Qed.

Lemma valid_recorded out : valid out → is_Some (records_of !! out).
Proof. intros []. by eexists. Qed.

(** The record of [b] says its build read [a]. *)
Definition reads (a b : path) : Prop :=
  ∃ record input, records_of !! b = Some record ∧ input ∈ record_inputs record ∧
    output_named_by (input_path input) = Some a.

Lemma valid_acc out : valid out → Acc reads out.
Proof.
  induction 1 as [out record command content Hr _ _ _ _ IH _ _ _]. constructor.
  intros a (record' & input & Hr' & Hin & Ha). simplify_eq. by eapply IH.
Qed.

Lemma tc_last {A} (R : relation A) x z : tc R x z → ∃ y, rtc R x y ∧ R y z.
Proof.
  induction 1 as [x z Hxz|x y z Hxy _ (y' & Hy & Hz)]; [by exists x|].
  exists y'. split; [by eapply rtc_l|done].
Qed.

Lemma acc_acyclic out : Acc reads out → ¬ tc reads out out.
Proof.
  induction 1 as [out _ IH]. intros (y & Hy & Hout)%tc_last. apply (IH y Hout).
  eapply tc_rtc_r; [by apply tc_once|done].
Qed.

Lemma cycle_invalid out : tc reads out out → ¬ valid out.
Proof. intros Hc Hv. by eapply acc_acyclic; [apply valid_acc|]. Qed.

(** What is known so far is right. *)
Record knows (r : Restoring) : Prop := {
  knows_holds x : checked r !! x = Some holds → valid x ∧ is_Some (contents r !! x);
  knows_stale x : checked r !! x = Some stale → ¬ valid x;
  knows_content x b : contents r !! x = Some b →
    ∃ record, records_of !! x = Some record ∧ read_content cache (record_hash record) = Value b;
}.

(** [r'] is known after [r], and the same is being checked. *)
Record later (r r' : Restoring) : Prop := {
  later_checked : dom (checked r) ⊆ dom (checked r');
  later_checking x : checked r' !! x = Some checking ↔ checked r !! x = Some checking;
}.

Lemma later_refl r : later r r.
Proof. by constructor. Qed.
Lemma later_trans r1 r2 r3 : later r1 r2 → later r2 r3 → later r1 r3.
Proof. intros [H1 H2] [H3 H4]. constructor; [by etrans|]. intros x. by rewrite H4, H2. Qed.

(** Everything being checked read [out], directly or through others. *)
Definition leads (r : Restoring) (out : path) : Prop :=
  ∀ x, checked r !! x = Some checking → tc reads out x.

Definition unchecked (r : Restoring) : nat := size (dom records_of ∖ dom (checked r)).

Lemma unchecked_later r r' : later r r' → unchecked r' ≤ unchecked r.
Proof. intros [Hd _]. unfold unchecked. apply subseteq_size. set_solver. Qed.

(** What a run of [record_holds] comes to. *)
Definition checks_out (out : path) (r : Restoring) (result : option (bool * Restoring)) : Prop :=
  ∃ held r', result = Some (held, r') ∧ knows r' ∧ later r r' ∧ (held = true ↔ valid out) ∧
    (held = true → is_Some (contents r' !! out)).

Section inputs.
Context (rec : path → Restoring → option (bool * Restoring)) (bound : nat).
Context (Hrec : ∀ read r, unchecked r < bound → knows r → leads r read → checks_out read r (rec read r)).

Lemma check_inputs_spec out inputs r :
  (∀ input read, input ∈ inputs → output_named_by (input_path input) = Some read → reads read out) →
  unchecked r < bound → knows r → (∀ x, checked r !! x = Some checking → x = out ∨ tc reads out x) →
  ∃ held r', check_inputs source records_of rec inputs r = Some (held, r') ∧ knows r' ∧ later r r' ∧
    (held = true ↔
      (∀ input read, input ∈ inputs → output_named_by (input_path input) = Some read → valid read) ∧
      (∀ input read, input ∈ inputs → output_named_by (input_path input) = Some read →
         ∃ rc, records_of !! read = Some rc ∧ record_hash rc = input_hash input) ∧
      (∀ input, input ∈ inputs → output_named_by (input_path input) = None →
         stamp_source source (input_path input) = Some input)).
Proof.
  revert r. induction inputs as [|input inputs IH]; intros r Hreads Hb Hk Hlead.
  - exists true, r. split_and!; [done|done|apply later_refl|]. split; [|done].
    intros _. split_and!; intros ? *; by intros ?%elem_of_nil.
  - assert (∀ i read, i ∈ inputs → output_named_by (input_path i) = Some read → reads read out) as Hreads'
      by (intros; eapply Hreads; [by right|done]).
    cbn [check_inputs]. destruct (output_named_by (input_path input)) as [read|] eqn:En.
    + pose proof (Hreads input read (list_elem_of_here _ _) En) as Hread.
      destruct (Hrec read r Hb Hk) as (held & r1 & E1 & Hk1 & Hl1 & Hv & _).
      { intros x [->|Hx]%Hlead; [by apply tc_once|by eapply tc_l]. }
      rewrite E1. simpl. destruct held; simpl.
      2: { exists false, r1. split_and!; [done..|]. split; [done|]. intros (Hval & _).
           exfalso. enough (false = true) by done. apply Hv. eapply Hval; [left|done]. }
      assert (valid read) as Hvr by by apply Hv. destruct (valid_recorded read Hvr) as [rc Hrc].
      rewrite Hrc. simpl. case_decide as Hh.
      * destruct (IH r1 Hreads') as (held & r2 & E2 & Hk2 & Hl2 & Hiff); [|done|..].
        { eapply Nat.le_lt_trans; [by apply unchecked_later|done]. }
        { intros x Hx%Hl1. by apply Hlead. }
        exists held, r2. split_and!; [done|done|by eapply later_trans|]. split.
        -- intros (Hiff1 & Hiff2 & Hiff3)%Hiff. split_and!; setoid_rewrite elem_of_cons.
           ++ intros i rd [->|Hi] Hn; [congruence|by eapply Hiff1].
           ++ intros i rd [->|Hi] Hn; [|by eapply Hiff2]. assert (rd = read) as -> by congruence. by exists rc.
           ++ intros i [->|Hi] Hn; [congruence|by apply Hiff3].
        -- intros (Hv1 & Hv2 & Hv3). apply Hiff. split_and!.
           ++ intros i rd Hi. apply Hv1. by right.
           ++ intros i rd Hi. apply Hv2. by right.
           ++ intros i Hi. apply Hv3. by right.
      * exists false, r1. split_and!; [done..|]. split; [done|]. intros (_ & Hv2 & _).
        destruct (Hv2 input read) as (rc' & ? & ?); [left|done|]. by simplify_eq.
    + case_decide as Hst.
      * destruct (IH r Hreads' Hb Hk Hlead) as (held & r2 & E2 & Hk2 & Hl2 & Hiff).
        exists held, r2. split_and!; [done..|]. split.
        -- intros (Hiff1 & Hiff2 & Hiff3)%Hiff. split_and!; setoid_rewrite elem_of_cons.
           ++ intros i rd [->|Hi] Hn; [congruence|by eapply Hiff1].
           ++ intros i rd [->|Hi] Hn; [congruence|by eapply Hiff2].
           ++ intros i [->|Hi] Hn; [done|by apply Hiff3].
        -- intros (Hv1 & Hv2 & Hv3). apply Hiff. split_and!.
           ++ intros i rd Hi. apply Hv1. by right.
           ++ intros i rd Hi. apply Hv2. by right.
           ++ intros i Hi. apply Hv3. by right.
      * exists false, r. split_and!; [done|done|apply later_refl|]. split; [done|]. intros (_ & _ & Hv3).
        destruct Hst. apply Hv3; [left|done].
Qed.
End inputs.

Lemma set_checking_leads out r :
  checked r !! out = None → leads r out →
  ∀ x, checked (set_checked out checking r) !! x = Some checking → x = out ∨ tc reads out x.
Proof.
  intros Hn Hl x. simpl. rewrite lookup_insert_Some. intros [[-> _]|[_ Hx]]; [by left|right; by apply Hl].
Qed.

Lemma set_checking_knows out r : knows r → checked r !! out = None → knows (set_checked out checking r).
Proof.
  intros [Hh Hs Hc] Hn. constructor; simpl.
  - intros x. rewrite lookup_insert_Some. intros [[_ ?]|[_ Hx]]; [done|by apply Hh].
  - intros x. rewrite lookup_insert_Some. intros [[_ ?]|[_ Hx]]; [done|by apply Hs].
  - done.
Qed.

Lemma unchecked_checking out r rc :
  records_of !! out = Some rc → checked r !! out = None → unchecked (set_checked out checking r) < unchecked r.
Proof.
  intros Hr Hn. unfold unchecked. apply (subset_size (C := gset path)). simpl. rewrite dom_insert_L. split; [set_solver|].
  intros Hsub. assert (out ∈ dom records_of ∖ ({[out]} ∪ dom (checked r))) as Hin.
  { apply Hsub, elem_of_difference. split; [by apply elem_of_dom_2 in Hr|by apply not_elem_of_dom]. }
  set_solver.
Qed.

(** The outcome, written down. *)
Lemma set_result_knows (held : bool) out r :
  knows r → (held = true ↔ valid out) → (held = true → is_Some (contents r !! out)) →
  knows (set_checked out (if held then holds else stale) r).
Proof.
  intros [Hh Hs Hc] Hv Hcont. constructor; simpl.
  - intros x. rewrite lookup_insert_Some. intros [[<- E]|[_ Hx]]; [|by apply Hh].
    destruct held; [|done]. split; [by apply Hv|by apply Hcont].
  - intros x. rewrite lookup_insert_Some. intros [[<- E]|[_ Hx]]; [|by apply Hs].
    destruct held; [done|]. intros Hval%Hv. done.
  - done.
Qed.

Lemma set_result_later (held : bool) out r r' :
  checked r !! out = None → later (set_checked out checking r) r' →
  later r (set_checked out (if held then holds else stale) r').
Proof.
  intros Hn [Hd Hch]. simpl in Hd. rewrite dom_insert_L in Hd. constructor; simpl.
  - rewrite dom_insert_L. set_solver.
  - intros x. destruct (decide (x = out)) as [->|Hne].
    + rewrite lookup_insert_eq, Hn. by destruct held.
    + rewrite lookup_insert_ne, Hch by done. simpl. by rewrite lookup_insert_ne.
Qed.

Lemma check_record_spec rec out r bound :
  (∀ read r, unchecked r < bound → knows r → leads r read → checks_out read r (rec read r)) →
  (is_Some (records_of !! out) → unchecked r < bound) → knows r →
  (∀ x, checked r !! x = Some checking → x = out ∨ tc reads out x) →
  checks_out out r (check_record source cache records_of commands rec out r).
Proof.
  intros Hrec Hb Hk Hlead. unfold check_record, checks_out.
  assert ((valid out → False) → ∃ held r', Some (false, r) = Some (held, r') ∧ knows r' ∧ later r r' ∧
    (held = true ↔ valid out) ∧ (held = true → is_Some (contents r' !! out))) as Hno.
  { intros Hn. exists false, r. split_and!; [done|done|apply later_refl|by split|done]. }
  destruct (records_of !! out) as [record|] eqn:Er; [|apply Hno; intros (? & ? & ? & _)%valid_inv; congruence].
  destruct (commands !! out) as [command|] eqn:Ec; [|apply Hno; intros (? & ? & _ & ? & _)%valid_inv; congruence].
  destruct (_ || _) eqn:Et.
  { apply Hno. intros (rc & content & Hr & Hc & Hact & _)%valid_inv.
    assert (rc = record) as -> by congruence. assert (record_command record = command) as Hrc by congruence.
    rewrite Hrc in Hact. apply orb_prop in Et as [Et|Et]; by apply bool_decide_eq_true in Et. }
  apply orb_false_elim in Et as [Htr%bool_decide_eq_false Hcmd%bool_decide_eq_false]. apply dec_stable in Hcmd.
  destruct (check_inputs_spec rec bound Hrec out (record_inputs record) r) as (held & r1 & E1 & Hk1 & Hl1 & Hiff).
  { intros input read Hin Hn. by exists record, input. } { apply Hb. by eexists. } { done. } { done. }
  rewrite E1. simpl. destruct held; simpl.
  - destruct (proj1 Hiff eq_refl) as (H1 & H2 & H3).
    destruct (read_content cache (record_hash record)) as [content|] eqn:Ecnt.
    + eexists true, _. split; [done|]. split; [|split; [by destruct Hl1; constructor|split]].
      * destruct Hk1 as [Hh1 Hs1 Hc1]. constructor; simpl; [|done|].
        -- intros x Hx. destruct (Hh1 x Hx) as [? [b Hcont]]. split; [done|]. rewrite lookup_emplace, Hcont. by eexists.
        -- intros x b. rewrite lookup_emplace. destruct (contents r1 !! x) eqn:E; [intros [= <-]; by apply Hc1|].
           case_decide; [|done]. intros [= <-]. subst. by exists record.
      * split; [|done]. intros _. by apply (valid_record out record command content).
      * intros _. simpl. rewrite lookup_emplace. destruct (contents r1 !! out); [by eexists|]. rewrite decide_True by done. by eexists.
    + exists false, r1. split_and!; [done..|split; [done|]|done].
      intros (rc & content & Hr & _ & _ & _ & _ & _ & Hcnt)%valid_inv. assert (rc = record) as -> by congruence. congruence.
  - exists false, r1. split_and!; [done..|split; [done|]|done].
    intros (rc & content & Hr & _ & _ & H1 & H2 & H3 & _)%valid_inv. assert (rc = record) as -> by congruence.
    enough (false = true) by done. by apply Hiff.
Qed.

Lemma record_holds_spec fuel out r :
  unchecked r < fuel → knows r → leads r out →
  checks_out out r (record_holds source cache records_of commands fuel out r).
Proof.
  revert out r. induction fuel as [|fuel IH]; intros out r Hf Hk Hl; [lia|]. cbn [record_holds].
  destruct (checked r !! out) as [c|] eqn:Ec.
  - exists (bool_decide (c = holds)), r. split_and!; [done|done|apply later_refl|..].
    + rewrite bool_decide_eq_true. destruct c.
      * split; [done|]. intros Hv. exfalso. eapply cycle_invalid; [|done]. by apply Hl.
      * split; [|done]. intros _. by apply (knows_holds r Hk).
      * split; [done|]. intros Hv. by destruct (knows_stale r Hk out Ec).
    + intros ->%bool_decide_eq_true. by apply (knows_holds r Hk).
  - destruct (check_record_spec (record_holds source cache records_of commands fuel) out
                (set_checked out checking r) fuel) as (held & r1 & E1 & Hk1 & Hl1 & Hv1 & Hc1).
    { intros read r1. apply IH. }
    { intros [rc Hrc]. pose proof (unchecked_checking out r rc Hrc Ec). lia. }
    { by apply set_checking_knows. } { by apply set_checking_leads. }
    rewrite E1. simpl. eexists held, _. split_and!; [done|by apply set_result_knows|by apply set_result_later|done|done].
Qed.

(** From the start, with the fuel the tree gives it. *)
Lemma record_holds_fuel out r :
  knows r → (∀ x, checked r !! x ≠ Some checking) →
  checks_out out r (record_holds source cache records_of commands (S (S (size records_of))) out r).
Proof.
  intros Hk Hc. apply record_holds_spec; [|done|by intros x ?%Hc]. unfold unchecked.
  assert (size (dom records_of ∖ dom (checked r)) ≤ size (dom records_of)) by (apply subseteq_size; set_solver).
  rewrite size_dom in *. lia.
Qed.

Lemma start_knows : knows start_restoring.
Proof. by constructor. Qed.
End restore.
