(* ===== verification/RestoreWorld.v ===== *)
(** * Restoring and constructing the tree

    What [restore_from_cache] serves, and that the constructor ends in a tree
    every later step can start from. *)

From S2P Require Export RestoreSpec BuildTreeSteps.

Section restoring.
Context {C : Type} `{Cache C} {T : Type} `{DirectoryTree T} (source : T).
Implicit Types s : Impl (C := C).

Definition record_output (record : CacheRecord) : path := command_output (record_command record).

(** What serving records leaves alone, and keeps. *)
Record serves s s' : Prop := {
  serves_commands : m_commands s' = m_commands s;
  serves_rules : m_rules s' = m_rules s;
  serves_cache : m_cache s' = m_cache s;
  serves_mutex : m_cache_mutex s' = m_cache_mutex s;
  serves_calls : m_coordinator s' = m_coordinator s;
  serves_builds : same_builds s s';
  serves_in_line : in_line s → in_line s';
  serves_mirrored : mirrored s → mirrored s';
}.

Lemma serves_refl s : serves s s.
Proof. by constructor. Qed.
Lemma serves_trans s1 s2 s3 : serves s1 s2 → serves s2 s3 → serves s1 s3.
Proof.
  intros [] []. constructor; try congruence; try tauto.
  destruct serves_builds0, serves_builds1. constructor; congruence.
Qed.

Lemma serve_record_spec record content s :
  in_line s → record_output record ∈ dom (m_commands s) →
  ∃ s', serve_record record content s = Some s' ∧ serves s s' ∧
    m_stale s' = m_stale s ∖ {[record_output record]} ∧
    m_entries (m_structure s') =
      <[record_output record := file_node content (record_mtime record)]> (m_entries (m_structure s)).
Proof.
  intros [Hlay Hs] Hout. unfold serve_record. fold (record_output record). set (out := record_output record) in *.
  pose proof (lay_inside _ Hlay out Hout) as Hin.
  destruct (write_file_shape _ _ (m_structure s) out content (record_mtime record) Hs) as (t1 & E1 & Em & Hs1).
  { by apply inside_canonical. } { by apply inside_not_root. }
  { pose proof (parent_first out Hin) as Hp. destruct (ancestors out) as [|d ds] eqn:Ea; rewrite Hp; [by left|].
    right. exists out. split; [done|]. apply ancestor_above; [done|]. rewrite Ea. left. }
  { intros Hd. by apply (shape_apart _ _ _ _ Hs Hout). }
  rewrite E1. simpl. eexists. split; [done|]. split; [|done]. constructor; try done.
  - intros _. split; simpl; [done|].
    assert (∀ p, p = out ∨ outputs_of (m_commands s) p ↔ outputs_of (m_commands s) p) as Hiff
      by (intros p; split; [by intros [->|?]|by right]).
    by refine (shape_iff _ _ _ _ _ Hiff _ Hs1).
  - intros Hm. by apply (update_dependents_mirrored out (input_path <$> record_inputs record)) in Hm.
Qed.

Section records.
Context (cache : C) (records_of : gmap path CacheRecord) (commands : gmap path Command).

Let valid := valid source cache records_of commands.

Lemma valid_declared out : valid out → out ∈ dom commands.
Proof. intros (record & content & _ & Hc & _)%valid_inv. by apply elem_of_dom_2 in Hc. Qed.

Lemma restore_records_spec l r dropped s :
  knows source cache records_of commands r → (∀ x, checked r !! x ≠ Some checking) →
  in_line s → m_commands s = commands →
  ∃ dropped' s', restore_records source cache records_of commands l r dropped s = Some (dropped', s') ∧
    serves s s' ∧
    (∀ o, o ∈ dropped' ↔ o ∈ dropped ∨ o ∈ (record_output <$> l) ∧ ¬ valid o) ∧
    (∀ o, o ∈ m_stale s' ↔ o ∈ m_stale s ∧ ¬ (o ∈ (record_output <$> l) ∧ valid o)) ∧
    (∀ o, ¬ (o ∈ (record_output <$> l) ∧ valid o) →
       m_entries (m_structure s') !! o = m_entries (m_structure s) !! o) ∧
    (NoDup (record_output <$> l) → (∀ record, record ∈ l → records_of !! record_output record = Some record) →
     ∀ record, record ∈ l → valid (record_output record) → ∃ content,
       read_content cache (record_hash record) = Value content ∧
       m_entries (m_structure s') !! record_output record = Some (file_node content (record_mtime record))).
Proof.
  revert r dropped s. induction l as [|record l IH]; intros r dropped s Hk Hch Hl Hc.
  - exists dropped, s. split; [done|]. split; [apply serves_refl|]. simpl. setoid_rewrite elem_of_nil.
    split_and!; tauto || naive_solver.
  - cbn [restore_records]. fold (record_output record). set (out := record_output record).
    destruct (record_holds_fuel source cache records_of commands out r Hk Hch) as (held & r1 & E1 & Hk1 & Hl1 & Hv & Hcont).
    rewrite E1. simpl. fold valid in Hv.
    assert (∀ x, checked r1 !! x ≠ Some checking) as Hch1 by (intros x Hx%Hl1; by apply Hch in Hx).
    destruct held.
    + destruct (Hcont eq_refl) as [content Hcontent]. rewrite Hcontent. simpl.
      assert (valid out) as Hval by by apply Hv.
      destruct (serve_record_spec record content s Hl) as (s1 & Es1 & Hserve & Hst1 & Hen1).
      { rewrite Hc. by apply valid_declared. }
      rewrite Es1. simpl.
      destruct (IH r1 dropped s1 Hk1 Hch1) as (dropped' & s2 & E2 & Hserve2 & Hd2 & Hst2 & Hen2 & Hrec2); try done.
      { by apply Hserve. } { by rewrite (serves_commands _ _ Hserve). }
      exists dropped', s2. split; [done|]. split; [by eapply serves_trans|]. simpl. setoid_rewrite elem_of_cons.
      fold out. split_and!.
      * intros o. rewrite Hd2. split; [naive_solver|]. intros [?|[[->|?] ?]]; tauto.
      * intros o. rewrite Hst2, Hst1. fold out. rewrite elem_of_difference, elem_of_singleton.
        destruct (decide (o = out)) as [->|]; tauto.
      * intros o Hn. rewrite Hen2, Hen1 by tauto. fold out. rewrite lookup_insert_ne; [done|]. intros ->. tauto.
      * intros [Hnew Hnd]%NoDup_cons Hrec.
        assert (∀ record', record' ∈ l → records_of !! record_output record' = Some record') as Hrec'
          by (intros; apply Hrec; by right).
        intros rec [->|Hin] Hvr; [|by apply Hrec2]. exists content. fold out in Hnew.
        destruct (knows_content _ _ _ _ _ Hk1 _ _ Hcontent) as (record' & Hr' & Hrd).
        pose proof (Hrec record (or_introl eq_refl)) as Hr''. fold out in Hr''.
        assert (record' = record) as -> by congruence.
        split; [done|]. fold out. rewrite Hen2, Hen1 by tauto. fold out. by rewrite lookup_insert_eq.
    + assert (¬ valid out) as Hnv by (intros Hval%Hv; done).
      destruct (IH r1 (dropped ++ [out]) s Hk1 Hch1 Hl Hc) as (dropped' & s2 & E2 & Hserve2 & Hd2 & Hst2 & Hen2 & Hrec2).
      exists dropped', s2. split; [done|]. split; [done|]. simpl. setoid_rewrite elem_of_cons. fold out. split_and!.
      * intros o. rewrite Hd2, elem_of_app, list_elem_of_singleton. 
        destruct (decide (o = out)) as [->|]; tauto.
      * intros o. rewrite Hst2. destruct (decide (o = out)) as [->|]; tauto.
      * intros o Hn. apply Hen2. tauto.
      * intros [_ Hnd]%NoDup_cons Hrec. assert (∀ record', record' ∈ l → records_of !! record_output record' = Some record') as Hrec'
          by (intros; apply Hrec; by right).
        intros rec [->|Hin] Hvr; [done|by apply Hrec2].
Qed.
End records.

Lemma records_by_output_lookup l record :
  NoDup (record_output <$> l) → record ∈ l → records_by_output l !! record_output record = Some record.
Proof.
  unfold records_by_output.
  assert (∀ l m, NoDup (record_output <$> l) → (∀ r, r ∈ l → m !! record_output r = None) →
    ∀ o, foldl (λ m (r : CacheRecord), emplace (command_output (record_command r)) r m) m l !! o =
         match m !! o with Some r => Some r | None => snd <$> list_find (λ r, record_output r = o) l end) as Hgen.
  { clear. induction l as [|r l IH]; intros m Hnd Hm o; simpl.
    - by destruct (m !! o).
    - simpl in Hnd. apply NoDup_cons in Hnd as [Hn Hnd]. rewrite IH; [|done|].
      + rewrite lookup_emplace. fold (record_output r). destruct (m !! o); [done|].
        case_decide; [done|]. by destruct (list_find _ l).
      + intros r' Hr'. rewrite lookup_emplace, Hm by by right. rewrite decide_False; [done|].
        intros E. apply Hn. fold (record_output r) in E. rewrite E. by apply list_elem_of_fmap_2. }
  intros Hnd Hin. rewrite Hgen by done. simpl.
  destruct (list_find_elem_of (λ r, record_output r = record_output record) l record Hin eq_refl) as [[i r] E].
  rewrite E. simpl. apply list_find_Some in E as (Hi & Er & _). f_equal.
  apply list_elem_of_lookup in Hin as [j Hj].
  assert (i = j) as ->; [|congruence]. eapply NoDup_lookup; [done|..]; rewrite list_lookup_fmap, ?Hi, ?Hj; simpl; [done|by rewrite Er].
Qed.
End restoring.

(** ** The constructor *)

Section construct.
Context {C : Type} `{Cache C} {T : Type} `{DirectoryTree T} (ok : T → Prop) `{!LawfulTree T ok}.
Context (error_text : error_code → str).
Implicit Types s : Impl (C := C).

(** A tree nothing is being built in. *)
Record settled s : Prop := {
  settled_bookkept : bookkept [] s;
  settled_sound : sound s;
  settled_gates : gates [] s;
}.

Lemma settled_idle s s' :
  same_builds s s' → m_cache_mutex s' = m_cache_mutex s → sound s' → settled s → settled s'.
Proof.
  intros Hb Hm Hs [Hbk _ Hg]. constructor; [by apply (bookkept_members None [] s)|done|].
  apply (free_gates [] [] s); [done|done| |done]. by rewrite (same_created _ _ Hb).
Qed.

Lemma sound_serves s s' : serves s s' → sound s → sound s'.
Proof. intros [] []. constructor; [congruence|auto..]. Qed.

Lemma restore_total (source : T) s :
  settled s → ∃ s', restore_from_cache source s = Some s' ∧ settled s'.
Proof.
  intros Hs. unfold restore_from_cache. destruct (m_cache s) as [cache|]; [|by exists s].
  destruct (records cache) as [l|]; [|by exists s].
  destruct (restore_records_spec source cache (records_by_output l) (m_commands s) l start_restoring [] s)
    as (dropped & s1 & E & Hserve & _); [apply start_knows|done|apply Hs|done|].
  rewrite E. simpl. eexists. split; [done|].
  pose proof (sound_serves s s1 Hserve (settled_sound _ Hs)) as [Hr1 Hl1 Hm1].
  apply (settled_idle s); [|apply Hserve|by constructor|done].
  destruct Hserve. by destruct serves_builds0; constructor.
Qed.

Lemma empty_settled cache rules : sound_rules rules → settled (set_rules_of rules (empty (C := C) cache)).
Proof.
  intros Hrules. constructor.
  - constructor; simpl; try done. by intros i o a ?%elem_of_nil.
  - constructor; simpl; [done|split; simpl|].
    + constructor; unfold outputs_of; simpl; set_solver.
    + constructor; [apply create_well_formed| |]; intros p; simpl.
      * unfold file_at. split; [|unfold outputs_of; set_solver]. intros (n & Hn & Hd).
        apply lookup_singleton_Some in Hn as [_ <-]. done.
      * unfold directory_at, directories_of, above, outputs_of. split.
        -- intros (n & [<- _]%lookup_singleton_Some & _). by left.
        -- intros [->|(o & Ho & _)]; [|set_solver]. eexists. by rewrite lookup_singleton_eq.
    + split; simpl; [|done]. intros i o. rewrite lookup_empty. split; [set_solver|]. intros (l & El & _).
      by rewrite lookup_empty in El.
  - constructor; [done|]. by intros i a ?%elem_of_nil.
Qed.

Lemma remove_outputs_materialized s outs : m_materialized (foldl remove_output s outs) ⊆ m_materialized s.
Proof.
  revert s. induction outs as [|o outs IH]; intros s; [done|]. cbn [foldl]. etrans; [apply IH|].
  unfold remove_output. case_decide; simpl; set_solver.
Qed.

Lemma apply_rules_materialized t commands s s' :
  apply_rules t commands s = Some s' → m_materialize_all s = false → m_materialized s' ⊆ m_materialized s.
Proof.
  unfold apply_rules. set (s2 := set_materialized _ _). intros E Hall.
  assert (m_materialized s2 ⊆ m_materialized s) as Hs2.
  { unfold s2, materialize_added. simpl. rewrite Hall. set_solver. }
  destruct (remove_outputs _ _); simpl in E; [|done]. destruct (add_placeholders _ _ _); simplify_eq/=.
  etrans; [apply remove_outputs_materialized|done].
Qed.

Lemma forget_settled outputs s : settled s → settled (forget_in_cache outputs s).
Proof.
  intros Hs. pose proof (settled_sound _ Hs) as [Hr Hl Hm]. apply (settled_idle s); [..|done];
    unfold forget_in_cache; (destruct (m_cache s); [destruct (is_nil outputs)|]); done || by constructor.
Qed.

Lemma take_rules_total t (source : T) rules cache :
  tame_source ok error_text source → sound_rules rules →
  ∃ s, take_rules t source rules (empty (C := C) cache) = Some s ∧ settled s.
Proof.
  intros [Hok _] Hrules. unfold take_rules. pose proof (empty_settled cache rules Hrules) as Hs1.
  set (s1 := set_rules_of rules (empty cache)) in *.
  assert (m_materialized s1 = ∅ ∧ m_materialize_all s1 = false ∧ m_rules s1 = rules) as (Hmat & Hall & Er) by done.
  clearbody s1. destruct (expansion_total ok source (m_rules s1)) as [commands Ec].
  { by rewrite Er. } { done. }
  rewrite Ec. simpl.
  pose proof (settled_sound _ Hs1) as Hsound1.
  assert (layable (outputs_of commands)) as Hlay.
  { apply (expansion_layable ok source (m_rules s1)); [by rewrite Er|done|done]. }
  destruct (apply_rules_shows t commands s1 (sound_in_line _ Hsound1) Hlay) as (s2 & E2 & _).
  rewrite E2. simpl.
  assert (settled s2) as Hs2.
  { constructor; [by eapply apply_rules_bookkept; [apply Hs1|]|by eapply apply_rules_sound|].
    apply apply_rules_frees in E2 as [Em Eco]. apply (free_gates [] [] s1); [done|done| |apply Hs1]. by rewrite Eco. }
  pose proof (apply_rules_materialized _ _ _ _ E2 Hall) as Hmat2. rewrite Hmat in Hmat2.
  set (s2' := forget_in_cache _ s2). assert (settled s2') as Hs2' by by apply forget_settled.
  assert (m_materialized s2' = m_materialized s2) as Hmat2'.
  { unfold s2', forget_in_cache. destruct (m_cache s2); [|done]. by destruct (is_nil _). }
  clearbody s2'.
  match goal with |- context [invalidate ?l s2'] => destruct (invalidate_spec l s2') as (seen & eager & s3 & E3 & _ & Hm3 & He3 & _) end.
  rewrite E3. simpl.
  assert (eager = []) as ->.
  { destruct eager as [|e eager]; [done|]. exfalso. destruct (proj1 (He3 e)) as (_ & Hin & _); [left|]. set_solver. }
  simpl. eexists. split; [done|]. apply forget_settled.
  apply (settled_idle s2'); [apply Hm3|apply Hm3| |done]. apply (sound_same s2'); [apply Hm3|apply Hs2'].
Qed.

(** The constructor ends: it throws, or leaves a tree nothing is being built in. *)
Lemma construct_total t cache (source : T) :
  tame_source ok error_text source →
  ∃ r, construct error_text t cache source = Some r ∧
    match r with Value s => settled s | Unexpected _ => True end.
Proof.
  intros Hsrc. pose proof Hsrc as [Hok _]. unfold construct. case_bool_decide; [by eexists|].
  destruct (read_rules_total ok error_text source Hok) as [rules Er]. rewrite Er. simpl.
  destruct rules as [rs|problems]; [|by eexists].
  destruct (take_rules_total t source rs cache Hsrc) as (s & E & Hs).
  { by eapply read_rules_sound. }
  rewrite E. simpl. destruct (restore_total source s Hs) as (s' & E' & Hs'). rewrite E'. simpl. by eexists.
Qed.

Lemma settled_consistent s (source : T) :
  tame_source ok error_text source → settled s → consistent ok error_text (start s source).
Proof.
  intros Hsrc [Hbk Hs Hg]. constructor; [done|done|done| |done]. by intros i ?%elem_of_nil.
Qed.

(** Every world a run from the constructor gets to. *)
Definition reachable (w : world (C := C) (T := T)) : Prop :=
  ∃ t cache source s es, tame_source ok error_text source ∧ construct error_text t cache source = Some (Value s) ∧
    Forall (lawful_event ok error_text) es ∧ run error_text es (start s source) = Some w.

Lemma reachable_consistent w : reachable w → consistent ok error_text w.
Proof.
  intros (t & cache & source & s & es & Hsrc & Ec & Hes & Hrun).
  destruct (construct_total t cache source Hsrc) as (r & Er & Hs). rewrite Ec in Er. injection Er as <-.
  eapply (run_consistent ok error_text es); [by apply settled_consistent|done|done].
Qed.
End construct.
