(* ===== verification/BuildTreeThreads.v ===== *)
(** * The build tree's threads (src/builddirectorytree.cpp)

    How what each thread has left to do is ordered, in every world the tree gets
    to: a thread that waits for a build has nothing left to do after it but what
    the wait is for, and one that has the cache's lock lets go of it next. So what
    a thread waits for is for another to see to. *)

From S2P Require Export RestoreWorld.

Section threads.
Context {C : Type} `{Cache C} {T : Type} `{DirectoryTree T} (ok : T → Prop) `{!LawfulTree T ok}.
Context (error_text : error_code → str).
Implicit Types s : Impl (C := C).
Implicit Types w : world (C := C) (T := T).

(** The threads, the source's watcher after the others. *)
Definition all_threads w : list (list instr) := threads w ++ [watcher w].

Lemma pending_all w : pending w = concat (all_threads w).
Proof. unfold pending, all_threads. by rewrite concat_app, concat_cons, app_nil_r. Qed.

Lemma elem_of_pending w i : i ∈ pending w ↔ ∃ k thread, all_threads w !! k = Some thread ∧ i ∈ thread.
Proof.
  rewrite pending_all, list_elem_of_In, in_concat. split.
  - intros (thread & Hk%list_elem_of_In%list_elem_of_lookup & Hi%list_elem_of_In).
    destruct Hk as [k Hk]. by exists k, thread.
  - intros (k & thread & Hk%list_elem_of_lookup_2%list_elem_of_In & Hi%list_elem_of_In). by exists thread.
Qed.

(** What waits for a build in the end, and so is the last a thread has to do. *)
Definition comes_last (i : instr) : bool :=
  match i with
  | OpenFile _ _ | ResolveRequester _ _ | BringUpToDate _ _ | Await _ | CopyOutput _ _ | AwaitSource _ _ _ => true
  | _ => false
  end.

Record tidy (l : list instr) : Prop := {
  tidy_last : Forall (λ i, comes_last i = false) (removelast l);
  tidy_store : Forall (λ i, is_store i = false) (tail l);
}.

Lemma tidy_waits x rest : tidy (x :: rest) → comes_last x = true → rest = [].
Proof. intros [Hl _] Hx. destruct rest as [|y rest]; [done|]. apply Forall_cons in Hl as [Hl _]. congruence. Qed.

(** What [exec] puts first, and starts. *)
Lemma exec_tidy o source x s more spawned s' :
  exec error_text o source x s = Some (more, spawned, s') →
  tidy more ∧ Forall tidy spawned ∧ (comes_last x = false → Forall (λ i, comes_last i = false) more).
Proof.
  assert (∀ launch, launching launch = [] ∨ ∃ l, launching launch = [LaunchBuild l]) as Hlaunch
    by (intros [l|]; [right; by exists l|by left]).
  intros E. destruct x; cbn [exec comes_last] in *; revert E; unfold_stretch; intros E.
  all: repeat match type of E with
       | context [launching ?l] => destruct (Hlaunch l) as [El|[? El]]; rewrite El in E; clear El
       | context [if ?b then _ else _] => destruct b
       | context [match ?m with _ => _ end] => destruct m
       | (mbind _ ?m) = Some _ => let Em := fresh in destruct m eqn:Em; cbn [mbind option_bind] in E; [|done]
       end.
  all: simplify_eq/=; (split; [|split]); try done; repeat constructor.
Qed.

Lemma removelast_app_cons {A} (l : list A) x k : removelast (l ++ x :: k) = l ++ removelast (x :: k).
Proof. by rewrite removelast_app. Qed.

(** The thread that ran goes on with [more]. *)
Lemma tidy_goes_on x rest more :
  tidy (x :: rest) → tidy more → (comes_last x = false → Forall (λ i, comes_last i = false) more) →
  tidy (more ++ rest).
Proof.
  intros Hx Hm Hmore. destruct rest as [|y rest]; [by rewrite app_nil_r|].
  assert (comes_last x = false) as Hnl.
  { destruct (comes_last x) eqn:E; [|done]. by apply tidy_waits in Hx. }
  destruct Hx as [Hl Hs]. apply Forall_cons in Hl as [_ Hl]. constructor.
  - rewrite removelast_app_cons. apply Forall_app. split; [by apply Hmore|done].
  - destruct more as [|z more]; [by apply Forall_cons in Hs as [_ Hs]|].
    apply Forall_app. split; [apply Hm|done].
Qed.

Lemma tidy_one i : tidy [i].
Proof. by repeat constructor. Qed.

Lemma step_tidy e w w' :
  Forall tidy (all_threads w) → step error_text e w = Some w' → Forall tidy (all_threads w').
Proof.
  unfold all_threads. rewrite Forall_app, Forall_singleton. intros [Ht Hwa]. destruct e as [n o|o|t|diff|p pid|]; simpl.
  - destruct (threads w !! n) as [[|x rest]|] eqn:En; simpl; [done| |done].
    destruct (exec _ _ _ _ _) as [[[more spawned] s]|] eqn:E; simpl; [|done]. intros [= <-]. simpl.
    apply exec_tidy in E as (Hm & Hs & Hl). rewrite !Forall_app, Forall_singleton. split_and!; [|done|done].
    apply Forall_insert; [done|]. apply (tidy_goes_on x); [|done|done].
    by apply (Forall_lookup_1 _ _ _ _ Ht En).
  - destruct (watcher w) as [|x rest] eqn:Ew; [done|].
    destruct (exec _ _ _ _ _) as [[[more spawned] s]|] eqn:E; simpl; [|done]. intros [= <-]. simpl.
    apply exec_tidy in E as (Hm & Hs & Hl). rewrite !Forall_app, Forall_singleton. split_and!; [done|done|].
    by apply (tidy_goes_on x).
  - intros [= <-]. simpl. by rewrite Forall_app, Forall_singleton.
  - destruct (is_nil (watcher w)); [|done]. intros [= <-]. simpl. rewrite Forall_app, Forall_singleton.
    split; [done|apply tidy_one].
  - intros [= <-]. simpl. rewrite !Forall_app, !Forall_singleton. by split_and!; [|apply tidy_one|].
  - intros [= <-]. simpl. rewrite !Forall_app, !Forall_singleton. by split_and!; [|apply tidy_one|].
Qed.

Lemma reachable_tidy w : reachable ok error_text w → Forall tidy (all_threads w).
Proof.
  intros (t & cache & source & s & es & _ & _ & _ & Hrun).
  assert (Forall tidy (all_threads (start s source))) as Hstart.
  { apply Forall_singleton. repeat constructor. }
  revert Hrun Hstart. generalize (start s source) as w0. clear. induction es as [|e es IH]; intros w0; simpl.
  - by intros [= <-].
  - destruct (step _ _ _) as [w1|] eqn:E; simpl; [|done]. intros Hrun Hw. apply (IH w1 Hrun). by eapply step_tidy.
Qed.

(** Some thread other than the [j]th has something left to do of which [P]. *)
Definition another w (j : nat) (P : instr → Prop) : Prop :=
  ∃ k thread i, k ≠ j ∧ all_threads w !! k = Some thread ∧ i ∈ thread ∧ P i.

(** What a thread that waits does not see to itself. *)
Lemma seen_to_elsewhere w j x rest (P : instr → Prop) :
  reachable ok error_text w → all_threads w !! j = Some (x :: rest) → comes_last x = true →
  (∃ i, i ∈ pending w ∧ P i) → another w j P ∨ P x.
Proof.
  intros Hw%reachable_tidy Hj Hx (i & (k & thread & Hk & Hi)%elem_of_pending & HP).
  destruct (decide (k = j)) as [->|Hne]; [|left; by exists k, thread, i]. right. simplify_eq.
  pose proof (Forall_lookup_1 _ _ _ _ Hw Hj) as Ht. apply tidy_waits in Ht as ->; [|done].
  by apply list_elem_of_singleton in Hi as ->.
Qed.

(** The cache's lock is let go of next. *)
Lemma store_at_hand w i : reachable ok error_text w → i ∈ pending w → is_store i = true →
  ∃ k rest, all_threads w !! k = Some (i :: rest).
Proof.
  intros Hw%reachable_tidy (k & thread & Hk & Hi)%elem_of_pending Hst. exists k.
  pose proof (Forall_lookup_1 _ _ _ _ Hw Hk) as [_ Ht]. destruct thread as [|x rest]; [by apply elem_of_nil in Hi|].
  apply elem_of_cons in Hi as [->|Hi]; [by exists rest|]. rewrite Forall_forall in Ht. apply Ht in Hi. congruence.
Qed.
End threads.
