(* ===== verification/BuildTreeSpec.v ===== *)
(** * What the build tree promises

    The theorems about [BuildDirectoryTree] that its users rely on, over every
    interleaving of its threads with changes of the source. *)

From S2P Require Export BuildTreeThreads.

Section progress.
Context {C : Type} `{Cache C} {T : Type} `{DirectoryTree T} (ok : T → Prop) `{!LawfulTree T ok}.
Context (error_text : error_code → str).
Implicit Types s : Impl (C := C).

(** Instructions that take the cache's lock. *)
Definition locks (i : instr) : bool :=
  match i with CheckKeep _ _ _ | ForgetInCache _ => true | _ => false end.

Definition proceeds (o : Oracle) (source : T) (i : instr) s : Prop := is_Some (exec error_text o source i s).

(** [a] has not completed. *)
Definition incomplete (a : nat) s : Prop := a ∉ (completed (m_coordinator s)).*1.

Lemma answer_incomplete o a s : answer o a (m_coordinator s) = None → incomplete a s.
Proof.
  unfold answer, incomplete. destruct (early o); [done|]. rewrite fmap_None, list_find_None, Forall_forall.
  intros Hn (c & -> & Hc)%list_elem_of_fmap. by apply (Hn c).
Qed.

Lemma start_build_total out s : is_Some (start_build out s).
Proof.
  unfold start_build. destruct (_ || _) eqn:E; [by eexists|]. apply orb_false_elim in E as [_ E].
  apply bool_decide_eq_false, dec_stable in E. destruct (claim_build_total out s E) as (l & s' & ->). by eexists.
Qed.

Lemma end_build_total out result s : is_Some (end_build out result s).
Proof.
  unfold end_build. set (s2 := set_reads _ _). clearbody s2. destruct (is_declared out s2) eqn:Ed.
  - set (s3 := if has_value result then s2 else set_stale _ s2).
    assert (out ∈ dom (m_commands s3)) as Hd.
    { apply bool_decide_eq_true in Ed. unfold s3. by destruct (has_value result). }
    destruct (_ || _); [|by eexists]. destruct (claim_build_total out s3 Hd) as (l & s' & ->). by eexists.
  - by destruct (m_attempts s2 !! out); eexists.
Qed.

(** An instruction that is fit to be run can be, unless it waits. *)
Lemma exec_progress o (source : T) i s :
  sound s → tame_source ok error_text source → instr_sound i →
  proceeds o source i s ∨ (∃ a, awaits i = Some a ∧ incomplete a s) ∨ (locks i = true ∧ m_cache_mutex s = true).
Proof.
  intros Hs [Hok _] Hi. unfold proceeds. destruct i; cbn [exec awaits locks]; unfold_stretch.
  - left. case_match; by eexists.
  - left. case_match; by eexists.
  - left. by eexists.
  - left. destruct (bring_up_total out s) as (target & launch & s' & ->). by eexists.
  - destruct (answer o target (m_coordinator s)) eqn:E; [left; by eexists|].
    right; left. exists target. split; [done|]. by eapply answer_incomplete.
  - left. destruct (materialize_all s). by eexists.
  - left. destruct outputs as [|out outputs]; [by eexists|].
    destruct (start_build_total out s) as [[launch s'] ->]. by eexists.
  - left. case_decide; [by eexists|]. destruct (refusal o); by eexists.
  - left. by eexists.
  - left. destruct (overruled o); [by eexists|].
    destruct (bring_up_total from s) as (target & launch & s' & ->). by eexists.
  - destruct (overruled o); [left; by eexists|].
    destruct (answer o target (m_coordinator s)) eqn:E; [left; by eexists|].
    right; left. exists target. split; [done|]. by eapply answer_incomplete.
  - left. rewrite (read_all_spec well_formed (m_structure s)); [by eexists|].
    by destruct (proj2 (sound_in_line _ Hs)).
  - left. destruct result as [built|]; [|by eexists].
    destruct (record_success_shows (build_output b) built (now o) s (sound_in_line _ Hs)) as (k & s' & -> & _). by eexists.
  - left. destruct (end_build_total (build_output b) result s) as [[[launch orphaned] s'] ->]. by eexists.
  - left. by eexists.
  - destruct (m_cache_mutex s); [by right; right|left; by eexists].
  - left. by eexists.
  - destruct (m_cache_mutex s); [by right; right|left; by eexists].
  - left. by eexists.
  - left. destruct (read_rules_total ok error_text source Hok) as [rules ->]. by eexists.
  - left. by eexists.
  - left. destruct (expansion_total ok source (m_rules s)) as [cs ->]; [apply Hs|done|by eexists].
  - left. destruct (apply_rules_shows (now o) commands s (sound_in_line _ Hs) Hi) as (s' & -> & _). by eexists.
  - left. by eexists.
  - left. by eexists.
  - left. destruct (invalidate_spec outputs s) as (seen & eager & s' & -> & _). by eexists.
Qed.

(** [x] can be waiting for nothing but itself: a copy that waits for the build of
    its own output, under way or after it. The coordinator answers such a wait with
    the cycle that it is. *)
Definition copies_itself (x : instr) (a : nat) s : Prop :=
  ∃ b from, x = AwaitSource b from a ∧
    (a = build_attempt b ∨ ∃ att, m_attempts s !! build_output b = Some att ∧ next att = Some a).

Lemma awaits_last x a : awaits x = Some a → comes_last x = true.
Proof. by destruct x. Qed.

Lemma awaits_owed x a : awaits x = Some a → ∀ a' s, a' ∈ owed x → a = a' → copies_itself x a s.
Proof.
  destruct x; try done; simpl; intros [= ->] a' s Ha <-; [by apply elem_of_nil in Ha|].
  apply list_elem_of_singleton in Ha as ->. eexists _, _. split; [done|by left].
Qed.

Lemma awaits_builds x a out att s :
  awaits x = Some a → out ∈ builds x → m_attempts s !! out = Some att → next att = Some a → copies_itself x a s.
Proof.
  destruct x; try done; unfold builds; simpl; intros [= ->] Ho Hatt Hn; [by apply elem_of_nil in Ho|].
  apply list_elem_of_singleton in Ho as ->. eexists _, _. split; [done|right]. by exists att.
Qed.

(** C2. No thread of the tree is ever stuck by itself. In every world it can get
    to, the next thing a thread has to do goes through - no assertion fails, no
    lookup throws, no loop runs on - unless it waits: for an attempt that has not
    completed and that another thread is to complete, or that comes after a build
    of the same output another thread is at; or for the cache's lock, which another
    thread holds and lets go of in the next thing it does. The one wait a thread
    could only end itself is a copy of its own output, which the coordinator
    answers as a cycle. Threads that wait for one another in a ring are left to the
    coordinator too. The source's wildcards are taken to match no name that makes a
    file name [.] or [..] of an output. *)
Theorem never_stuck (w : world) (j : nat) (x : instr) (rest : list instr) (o : Oracle) :
  reachable ok error_text w → all_threads w !! j = Some (x :: rest) →
  proceeds o (source w) x (tree w) ∨
  (∃ a, awaits x = Some a ∧ incomplete a (tree w) ∧
     (another w j (λ i, a ∈ owed i) ∨
      (∃ out att, m_attempts (tree w) !! out = Some att ∧ next att = Some a ∧ another w j (λ i, out ∈ builds i)) ∨
      copies_itself x a (tree w))) ∨
  (locks x = true ∧ ∃ k b content keep stamps rest',
     k ≠ j ∧ all_threads w !! k = Some (StoreInCache b content keep stamps :: rest')).
Proof.
  intros Hw Hj. pose proof (reachable_consistent ok error_text w Hw) as [Hbk Hs Hsrc Hi [Hl Ht]].
  assert (x ∈ pending w) as Hin by (apply elem_of_pending; exists j, (x :: rest); split; [done|left]).
  destruct (exec_progress o (source w) x (tree w) Hs Hsrc (Hi x Hin)) as [?|[(a & Ha & Hn)|[Hlock Hm]]]; [by left|right; left|right; right].
  - exists a. split; [done|]. split; [done|]. pose proof (awaits_last x a Ha) as Hx. destruct Hbk as [Hperm Hb _ Hnext _].
    assert (a ∈ seq 0 (length (created (m_coordinator (tree w))))) as Hseq.
    { apply elem_of_seq. pose proof (Ht x a Hin Ha). lia. }
    rewrite Hperm, !elem_of_app in Hseq. destruct Hseq as [?|[(i & Hai & Hip)%list_elem_of_bind|Hnx]]; [done|..].
    + destruct (seen_to_elsewhere ok error_text w j x rest (λ i, a ∈ owed i) Hw Hj Hx) as [?|Hself];
        [by exists i|by left|right; right]. by apply (awaits_owed x a Ha a).
    + unfold nexts in Hnx. apply list_elem_of_omap in Hnx as ([out att] & Hatt%elem_of_map_to_list & Hnx).
      assert (out ∈ m_in_flight (tree w)) as Hf by (destruct (Hnext out att Hatt) as [?|?]; [by eexists|done|done]).
      rewrite <- elem_of_elements, Hb in Hf. apply list_elem_of_bind in Hf as (i & Hoi & Hip).
      destruct (seen_to_elsewhere ok error_text w j x rest (λ i, out ∈ builds i) Hw Hj Hx) as [?|Hself];
        [by exists i|right; left; by exists out, att|right; right]. by apply (awaits_builds x a out att).
  - split; [done|]. rewrite Hm in Hl. unfold stores in Hl.
    destruct (filter (λ i, is_store i = true) (pending w)) as [|i l] eqn:E; [done|].
    assert (i ∈ filter (λ i, is_store i = true) (pending w)) as Hst by (rewrite E; left).
    apply list_elem_of_filter in Hst as [Hst Hini].
    destruct (store_at_hand ok error_text w i Hw Hini Hst) as (k & rest' & Hk).
    destruct i; try done. exists k. do 4 eexists. exists rest'. split; [|done]. intros ->. by simplify_eq.
Qed.

(** C5. Every attempt the tree creates completes, once. At any time the attempts
    created are, each in one place: completed, owed by something a thread has
    left to do, or kept for the build after one under way; each output in flight
    is being built by exactly one thread; and once no thread has anything left to
    do, nothing is in flight and every attempt has completed. *)
Theorem attempts_complete_once (w : world) :
  reachable ok error_text w →
  seq 0 (length (created (m_coordinator (tree w)))) ≡ₚ
    (completed (m_coordinator (tree w))).*1 ++ (pending w ≫= owed) ++ nexts (m_attempts (tree w)) ∧
  NoDup (completed (m_coordinator (tree w))).*1 ∧
  pending w ≫= builds ≡ₚ elements (m_in_flight (tree w)) ∧ NoDup (pending w ≫= builds) ∧
  (pending w = [] → m_in_flight (tree w) = ∅ ∧
     ∀ a, a < length (created (m_coordinator (tree w))) → a ∈ (completed (m_coordinator (tree w))).*1).
Proof.
  intros Hw. apply reachable_consistent in Hw as [[Ha Hb Hr Hn Hc] _ _ _ _]; [|done].
  split; [done|]. split; [|split; [done|split]].
  - assert (NoDup (seq 0 (length (created (m_coordinator (tree w)))))) as Hnd by apply NoDup_seq.
    rewrite Ha in Hnd. by apply NoDup_app in Hnd as [? _].
  - rewrite <- Hb. apply NoDup_elements.
  - intros Hp. rewrite Hp in *. simpl in *.
    assert (m_in_flight (tree w) = ∅) as Hf.
    { apply elements_empty_inv_L || apply leibniz_equiv, elements_empty_inv. by apply Permutation_nil_r. }
    split; [done|]. intros a Hlt. assert (a ∈ seq 0 (length (created (m_coordinator (tree w))))) as Hseq
      by (apply elem_of_seq; lia).
    rewrite Ha, elem_of_app in Hseq. destruct Hseq as [?|Hnx]; [done|]. exfalso.
    unfold nexts in Hnx. apply list_elem_of_omap in Hnx as ([out att] & Hatt%elem_of_map_to_list & Hnx).
    destruct (Hn out att Hatt) as [Hin|?]; [by eexists| |done]. rewrite Hf in Hin. set_solver.
Qed.

(** The tree serves what the manifest declares, no more and no less: in every
    world the files of its own tree are the outputs declared, and its directories
    are those above them. *)
Theorem tree_shows_the_declared (w : world) :
  reachable ok error_text w →
  ∀ p, canonical p →
    ((∃ i, status (m_structure (tree w)) p = Value (AFile i)) ↔ p ∈ dom (m_commands (tree w))) ∧
    (is_directory_at (m_structure (tree w)) p ↔
       p = root ∨ ∃ o, o ∈ dom (m_commands (tree w)) ∧ is_above p o).
Proof.
  intros Hw p Hp. apply reachable_consistent in Hw as [_ [_ [_ [Hwf Hf Hd]] _] _ _ _]; [|done].
  assert (∀ i, status (m_structure (tree w)) p = Value i ↔
    ∃ n, m_entries (m_structure (tree w)) !! p = Some n ∧ info n = i) as Hst.
  { intros i. simpl. rewrite status_Value. by setoid_rewrite find_canonical. }
  split.
  - rewrite <- (Hf p). unfold file_at. setoid_rewrite Hst. split.
    + intros (i & n & Hn & E). exists n. by rewrite E.
    + intros (n & Hn & E). destruct (info n) as [i|] eqn:Ei; [|done]. by exists i, n.
  - unfold is_directory_at. setoid_rewrite Hst. rewrite <- (Hd p). unfold directory_at. split.
    + intros (i & n & Hn & E). exists n. by rewrite E.
    + intros (n & Hn & E). destruct (info n) as [|i] eqn:Ei; [done|]. by exists i, n.
Qed.

(** What an input affects is what was recorded of the builds that read it: in
    every world [m_dependents] is [m_dependencies] the other way around, and
    keeps no empty entries. *)
Theorem dependents_are_the_readers (w : world) :
  reachable ok error_text w →
  (∀ input out, out ∈ readers_of input (tree w) ↔
     ∃ inputs, m_dependencies (tree w) !! out = Some inputs ∧ input ∈ inputs) ∧
  ∀ input, m_dependents (tree w) !! input ≠ Some ∅.
Proof.
  intros Hw. apply reachable_consistent in Hw as [_ [_ _ [Hm Hn]] _ _ _]; [|done]. split; [|done].
  intros input out. rewrite <- Hm. unfold readers_of.
  destruct (m_dependents (tree w) !! input); simpl; [apply elem_of_paths_in_order|].
  by rewrite elem_of_nil, elem_of_empty.
Qed.

(** C8. An open waits for the right build. Asked for an output that is being built
    and has not changed since, it is given the build under way; for one that has
    changed, the build after it, created once however many ask; for one that is
    out of date and idle, or a trace, a build that is launched for it; and it
    waits for nothing only if the output is up to date or not declared. *)
Theorem opens_wait_for_the_right_build (w : world) (out : path) :
  reachable ok error_text w →
  ∃ target launch s', bring_up_to_date out (tree w) = Some (target, launch, s') ∧
    (target = None ↔ match m_commands (tree w) !! out with
                     | None => True
                     | Some c => out ∉ m_in_flight (tree w) ∧ out ∉ m_stale (tree w) ∧ command_action c ≠ Tracing
                     end) ∧
    (out ∈ dom (m_commands (tree w)) → out ∈ m_in_flight (tree w) → out ∉ m_stale (tree w) →
       launch = None ∧ ∃ i a, i ∈ pending w ∧ build_pair i = Some (out, a) ∧ target = Some a) ∧
    (out ∈ dom (m_commands (tree w)) → out ∈ m_in_flight (tree w) → out ∈ m_stale (tree w) →
       launch = None ∧ ∃ a, target = Some a ∧ next (attempts_of out s') = Some a ∧
         (next (attempts_of out (tree w)) = Some a ∨
          next (attempts_of out (tree w)) = None ∧ a = length (created (m_coordinator (tree w))))) ∧
    (∀ c, m_commands (tree w) !! out = Some c → out ∉ m_in_flight (tree w) →
       out ∈ m_stale (tree w) ∨ command_action c = Tracing →
       ∃ l, launch = Some l ∧ launch_output l = out ∧ launch_command l = c ∧ target = Some (launch_attempt l) ∧
         out ∈ m_in_flight s' ∧ out ∉ m_stale s').
Proof.
  intros Hw. apply reachable_consistent in Hw as [Hbk _ _ _ _]; [|done].
  destruct (bring_up_total out (tree w)) as (target & launch & s' & E). exists target, launch, s'.
  split; [done|]. apply (bring_up_brought ok) in E.
  assert (∀ c, m_commands (tree w) !! out = Some c → out ∈ dom (m_commands (tree w))) as Hdom
    by (intros c Hc; by apply elem_of_dom_2 in Hc).
  inversion E as [Hn|s1 a Hd Hf Hst Hcur|s1 a Hd Hf Hst Hnx Hor|s1 l c Hc Hf Hor Hlo Hlc Hst Hif|s1 c Hc Hf Hst Hact]; subst.
  - apply not_elem_of_dom in Hn as Hn'. rewrite Hn'. split_and!; done.
  - destruct Hbk as [_ Hb _ _ Hcu].
    assert (∃ i a, i ∈ pending w ∧ build_pair i = Some (out, a) ∧ current (attempts_of out (tree w)) = Some a)
      as (i & a & Hi & Hp & Hca).
    { rewrite <- elem_of_elements, Hb in Hf. apply list_elem_of_bind in Hf as (i & Hi & Hin). unfold builds in Hi.
      destruct (build_pair i) as [[o a]|] eqn:Ep; [|by apply elem_of_nil in Hi].
      apply list_elem_of_singleton in Hi as ->. destruct (Hcu i o a Hin Ep) as (att & Hatt & Hcur).
      exists i, a. unfold attempts_of. by rewrite Hatt. }
    apply elem_of_dom in Hd as [c Hc]. rewrite Hc, Hca. split; [naive_solver|]. split; [|naive_solver].
    intros _ _ _. split; [done|]. by exists i, a.
  - apply elem_of_dom in Hd as [c Hc]. rewrite Hc. split; [naive_solver|]. split; [done|]. split; [|naive_solver].
    intros _ _ _. split; [done|]. exists a. split; [done|]. split; [done|].
    destruct Hor as [[? _]|[? Ecr]]; [by left|right]. split; [done|]. unfold create_attempt in Ecr. by injection Ecr.
  - rewrite Hc. split; [naive_solver|]. split; [done|]. split; [done|]. intros c' [= <-] _ _.
    exists l. rewrite Hst, Hif. set_solver.
  - rewrite Hc. split; [naive_solver|]. split; [done|]. split; [done|]. naive_solver.
Qed.
End progress.

Section sections.
Context {C : Type} `{Cache C}.
Implicit Types s : Impl (C := C).

(** C24. [invalidate] ends, and is exact: it marks stale, and counts as
    invalidated once, the declared outputs among those given and every declared
    output that read one of those, directly or through others, even around a
    cycle; it has those of them rebuilt at once that have been opened and are
    idle; and every other field of the tree is as it was. *)
Theorem invalidation_is_exact (outputs : list path) s :
  ∃ seen eager s', invalidate outputs s = Some (seen, eager, s') ∧
    (∀ o, o ∈ seen ↔ ∃ o', o' ∈ outputs ∧ o' ∈ dom (m_commands s) ∧ rtc (is_read_by s) o' o) ∧
    m_stale s' = seen ∪ m_stale s ∧
    (∀ o, m_invalidations s' !! o =
      if decide (o ∈ seen) then Some (next64 (default 0%Z (m_invalidations s !! o))) else m_invalidations s !! o) ∧
    (∀ o, o ∈ eager ↔ o ∈ seen ∧ o ∈ m_materialized s ∧ o ∉ m_in_flight s) ∧ NoDup eager ∧
    set_invalidations (m_invalidations s) (set_stale (m_stale s) s') = s.
Proof.
  destruct (invalidate_spec outputs s) as (seen & eager & s' & E & Hseen & Hm & He & Hn).
  exists seen, eager, s'. split; [done|]. split; [done|]. split; [apply Hm|]. split; [apply Hm|].
  split; [done|]. split; [done|]. apply Hm.
Qed.

(** C25. What is restored is what still holds. Given a tree in line with its rules
    and the records of a cache, one per output, [restore_from_cache] ends; it
    serves, as built and not stale, the content of exactly the outputs whose
    record is of the rule in force and of inputs that are all as they were - for
    an output that was read, that it holds too and with the content that was
    read - and leaves the others as they were. *)
Theorem restored_is_what_holds {T} `{DirectoryTree T} (source : T) (cache : C) (l : list CacheRecord) s
    (holds_still := valid source cache (records_by_output l) (m_commands s)) :
  in_line s → m_cache s = Some cache → records cache = Some l → NoDup (record_output <$> l) →
  ∃ s', restore_from_cache source s = Some s' ∧
    (∀ o, o ∈ m_stale s' ↔ o ∈ m_stale s ∧ ¬ holds_still o) ∧
    (∀ record, record ∈ l → holds_still (record_output record) →
       ∃ content, read_content cache (record_hash record) = Value content ∧
         m_entries (m_structure s') !! record_output record = Some (file_node content (record_mtime record))) ∧
    (∀ o, ¬ holds_still o → m_entries (m_structure s') !! o = m_entries (m_structure s) !! o) ∧
    ∃ dropped, m_cache s' = Some (if forget_throws dropped cache then forget dropped cache
                                  else collect_garbage (forget dropped cache)) ∧
      ∀ o, o ∈ dropped ↔ o ∈ (record_output <$> l) ∧ ¬ holds_still o.
Proof.
  intros Hl Hc Hr Hnd. unfold restore_from_cache. rewrite Hc, Hr.
  destruct (restore_records_spec source cache (records_by_output l) (m_commands s) l start_restoring [] s)
    as (dropped & s' & E & Hserve & Hd & Hst & Hen & Hrec); [apply start_knows|done|done|done|].
  fold holds_still in Hd, Hst, Hen, Hrec.
  assert (∀ o, holds_still o → o ∈ (record_output <$> l)) as Hin.
  { intros o [record Ho]%valid_recorded. revert Ho. unfold records_by_output.
    assert (∀ l m, foldl (λ m (r : CacheRecord), emplace (command_output (record_command r)) r m) m l !! o = Some record →
      m !! o = Some record ∨ o ∈ (record_output <$> l)) as Hgen.
    { clear. induction l as [|r l IH]; intros m Hm; [by left|]. simpl in Hm. apply IH in Hm as [Hm|?]; [|right; by right].
      rewrite lookup_emplace in Hm. destruct (m !! o); [by left|]. case_decide; [|done]. right. subst o. left. }
    intros [?|?]%Hgen; [done|done]. }
  rewrite E. simpl. eexists. split; [done|]. simpl. split_and!.
  - intros o. rewrite Hst. naive_solver.
  - intros record Hin'. apply Hrec; [done| |done]. intros r' Hr'. by apply records_by_output_lookup.
  - intros o Ho. apply Hen. naive_solver.
  - exists dropped. split; [done|]. intros o. rewrite Hd, elem_of_nil. tauto.
Qed.
End sections.
