(* ===== verification/BuildCache.v ===== *)
(** * The build cache (src/buildcache.cpp)

    The tables of [cache.sqlite] and the files of [objects/], and every member of
    [BuildCache] as what it does to them, one lasting effect after another: the
    process may die between any two. A transaction is one effect, as SQLite
    promises. [Faults] says what of the outside fails: the file system calls and
    the statements. [xxh3] is the digest of xxHash, which the source only calls. *)

From S2P Require Export Cache.

(** ** Text as stored *)

Definition action_to_text (a : Action) : str :=
  match a with Run => lit "run" | Capture => lit "capture" | Copy => lit "copy" | Tracing => lit "tracing" end.

Definition action_from_text (text : str) : option Action :=
  snd <$> list_find (λ a, action_to_text a = text) [Run; Capture; Copy; Tracing].

Definition is_hash_char (c : ascii) : bool :=
  (bool_decide (48 ≤ N_of_ascii c)%N && bool_decide (N_of_ascii c ≤ 57)%N) ||
  (bool_decide (97 ≤ N_of_ascii c)%N && bool_decide (N_of_ascii c ≤ 102)%N).
Definition is_hash (hash : str) : bool := bool_decide (length hash = 32) && forallb is_hash_char hash.

(** [{:x}] padded with zeros to [width] digits. *)
Definition hex_digit (d : Z) : ascii := ascii_of_N (Z.to_N (if decide (d < 10)%Z then 48 + d else 87 + d)).
Fixpoint hex (width : nat) (x : Z) : str :=
  match width with 0 => [] | S w => hex w (x `div` 16) ++ [hex_digit (x `mod` 16)] end.

(** ** The state *)

Record OutputRow := { row_action : str; row_command : str; row_hash : str; row_mtime : Z }.
Record InputRow := {
  input_row_output : str; input_row_path : str;
  input_row_mtime : Z; input_row_size : Z; input_row_hash : str;
}.
#[global] Instance InputRow_eq_dec : EqDecision InputRow.
Proof. solve_decision. Defined.

(** The tables: [outputs] by its primary key, [inputs] in the order of [rowid]. *)
Record Tables := { outputs : gmap str OutputRow; inputs : list InputRow }.
Definition k_schema : Tables := {| outputs := ∅; inputs := [] |}.

Record BuildCache := { tables : Tables; objects : gmap str str; next_scratch : Z }.
Definition set_objects (f : gmap str str → gmap str str) (c : BuildCache) : BuildCache := {|
  tables := tables c; objects := f (objects c); next_scratch := next_scratch c |}.

(** What lasts of what a member does, and in which order. *)
Inductive Effect :=
  | NumberScratch
  | WriteFile (name content : str)
  | RenameFile (from to : str)
  | RemoveFile (name : str)
  | Commit (t : Tables).

Definition perform (e : Effect) (c : BuildCache) : BuildCache :=
  match e with
  | NumberScratch => {| tables := tables c; objects := objects c; next_scratch := next64 (next_scratch c) |}
  | WriteFile name content => set_objects <[name := content]> c
  | RenameFile from to =>
      set_objects (λ o, match o !! from with Some b => <[to := b]> (delete from o) | None => o end) c
  | RemoveFile name => set_objects (delete name) c
  | Commit t => {| tables := t; objects := objects c; next_scratch := next_scratch c |}
  end.

(** What fails: writing a file, with what it left behind, renaming it, removing
    one, a transaction, a statement on its own, reading a file; and the files a
    listing does not get to. *)
Record Faults := {
  writing : option (error_code * option str);
  renaming : option error_code;
  removing : str → option error_code;
  transacting : option error_code;
  querying : option error_code;
  reading : str → option error_code;
  unlisted : str → bool;
}.
Definition no_faults : Faults := {|
  writing := None; renaming := None; removing := λ _, None; transacting := None;
  querying := None; reading := λ _, None; unlisted := λ _, false |}.

(** ** Code that throws, with its effects *)

Definition M (A : Type) : Type := BuildCache → expected error_code A * list Effect * BuildCache.
#[global] Instance M_ret : MRet M := λ A a c, (Value a, [], c).
#[global] Instance M_bind : MBind M := λ A B f m c,
  let '(r, l, c1) := m c in
  match r with
  | Value a => let '(r2, l2, c2) := f a c1 in (r2, l ++ l2, c2)
  | Unexpected e => (Unexpected e, l, c1)
  end.
Definition get : M BuildCache := λ c, (Value c, [], c).
Definition throw {A} (e : error_code) : M A := λ c, (Unexpected e, [], c).
Definition effect (e : Effect) : M unit := λ c, (Value (), [e], perform e c).
(** [try { m } catch (...) { try { handler } catch (...) {} throw; }] *)
Definition on_throw {A B} (m : M A) (handler : M B) : M A := λ c,
  match m c with
  | (Unexpected e, l, c1) => let '(_, l2, c2) := handler c1 in (Unexpected e, l ++ l2, c2)
  | r => r
  end.
Fixpoint each {A} (f : A → M unit) (l : list A) : M unit :=
  match l with [] => mret () | a :: l' => _ ← f a; each f l' end.
Definition throw_if {A} (e : option error_code) (m : M A) : M A :=
  match e with Some e => throw e | None => m end.

(** Commits what [body] makes of the tables, or throws and leaves them. *)
Definition transaction {A} (f : Faults) (body : Tables → A * Tables) : M A :=
  throw_if (transacting f) (c ← get; let '(a, t) := body (tables c) in _ ← effect (Commit t); mret a).

(** [std::filesystem::remove], with the error it gives. *)
Definition remove_file (f : Faults) (name : str) : M error_code :=
  match removing f name with
  | Some e => mret e
  | None => _ ← effect (RemoveFile name); mret no_error
  end.

(** ** The statements *)

Definition select_hash (t : Tables) (output : str) : option str := row_hash <$> outputs t !! output.
Definition delete_inputs (output : str) (t : Tables) : Tables := {|
  outputs := outputs t; inputs := filter (λ r, input_row_output r ≠ output) (inputs t) |}.
Definition delete_output (output : str) (t : Tables) : Tables := {|
  outputs := delete output (outputs t); inputs := inputs t |}.
Definition replace_output (output : str) (row : OutputRow) (t : Tables) : Tables := {|
  outputs := <[output := row]> (outputs t); inputs := inputs t |}.
Definition same_key (r r' : InputRow) : Prop :=
  input_row_output r = input_row_output r' ∧ input_row_path r = input_row_path r'.
#[global] Instance same_key_dec r r' : Decision (same_key r r') := _.
Definition insert_input (t : Tables) (row : InputRow) : Tables :=
  if decide (Exists (same_key row) (inputs t)) then t
  else {| outputs := outputs t; inputs := inputs t ++ [row] |}.
Definition references (hash : str) (t : Tables) : Prop :=
  map_Exists (λ _ row, row_hash row = hash) (outputs t).
#[global] Instance references_dec hash t : Decision (references hash t) := _.

(** ** The members *)

Section members.
Context (xxh3 : str → Z * Z).

(** [BuildCache::hash]. *)
Definition hash (bytes : str) : str := let '(high64, low64) := xxh3 bytes in hex 16 high64 ++ hex 16 low64.

Definition input_row (output : str) (input : Input) : InputRow := {|
  input_row_output := output; input_row_path := generic_string (input_path input);
  input_row_mtime := input_mtime input; input_row_size := input_size input;
  input_row_hash := input_hash input |}.
Definition input_of (row : InputRow) : Input := {|
  input_path := of_string (input_row_path row); input_mtime := input_row_mtime row;
  input_size := input_row_size row; input_hash := input_row_hash row |}.

(** The rows [records] makes records of: those with an action it knows. *)
Definition record_of (kv : str * OutputRow) : option (str * CacheRecord) :=
  let '(path, row) := kv in
  action ← action_from_text (row_action row);
  Some (path, {|
    record_command := {| command_output := of_string path; command_action := action;
                         command_text := row_command row |};
    record_hash := row_hash row; record_mtime := row_mtime row; record_inputs := [] |}).

(** Hands an input to the record of its output, if there is one. *)
Definition add_input (l : list (str * CacheRecord)) (row : InputRow) : list (str * CacheRecord) :=
  (λ pr, if decide (pr.1 = input_row_output row) then
           (pr.1, {| record_command := record_command pr.2; record_hash := record_hash pr.2;
                     record_mtime := record_mtime pr.2;
                     record_inputs := record_inputs pr.2 ++ [input_of row] |})
         else pr) <$> l.

Definition records_of_tables (t : Tables) : list (str * CacheRecord) :=
  foldl add_input (omap record_of (map_to_list (outputs t))) (inputs t).

Definition records (f : Faults) (c : BuildCache) : option (list CacheRecord) :=
  match querying f with Some _ => None | None => Some (records_of_tables (tables c)).*2 end.

Definition read (f : Faults) (c : BuildCache) (h : str) : expected error_code str :=
  let missing := make_error_code no_such_file_or_directory in
  if negb (is_hash h) then Unexpected missing
  else
    match reading f h, objects c !! h with
    | Some e, _ => Unexpected e
    | None, None => Unexpected missing
    | None, Some bytes => if bool_decide (hash bytes ≠ h) then Unexpected missing else Value bytes
    end.

Definition drop_if_unreferenced (f : Faults) (h : str) : M unit :=
  throw_if (querying f)
    (c ← get;
     if decide (references h (tables c)) then mret () else _ ← remove_file f h; mret ()).

(** The file is written under a name of its own, then renamed into place. *)
Definition put_object (f : Faults) (h bytes : str) : M unit :=
  _ ← effect NumberScratch;
  c ← get;
  let scratch := format [h; lit "."; lit (pretty (next_scratch c)); lit ".tmp"] in
  match writing f with
  | Some (e, written) =>
      _ ← match written with Some part => effect (WriteFile scratch part) | None => mret () end;
      _ ← remove_file f scratch;
      throw e
  | None =>
      _ ← effect (WriteFile scratch bytes);
      match renaming f with
      | Some _ => error ← remove_file f scratch; throw error
      | None => effect (RenameFile scratch h)
      end
  end.

(** The transaction of [store]: the tables after, and the hash the output had. *)
Definition record_output_in (command : Command) (h : str) (mtime : Z) (ins : list Input) (t : Tables)
    : option str * Tables :=
  let output := generic_string (command_output command) in
  let previous := select_hash t output in
  let row := {| row_action := action_to_text (command_action command); row_command := command_text command;
                row_hash := h; row_mtime := mtime |} in
  (previous, foldl insert_input (replace_output output row (delete_inputs output t)) (input_row output <$> ins)).

Definition store (f : Faults) (command : Command) (bytes : str) (mtime : Z) (ins : list Input) : M str :=
  let h := hash bytes in
  _ ← put_object f h bytes;
  previous ← on_throw (transaction f (record_output_in command h mtime ins)) (drop_if_unreferenced f h);
  _ ← match previous with
      | Some p => if decide (p ≠ h) then drop_if_unreferenced f p else mret ()
      | None => mret ()
      end;
  mret h.

(** The transaction of [forget]: the hashes of the records it drops. *)
Definition forget_output (acc : gset str * Tables) (output : path) : gset str * Tables :=
  let '(dropped, t) := acc in
  let p := generic_string output in
  match select_hash t p with
  | None => acc
  | Some h => ({[h]} ∪ dropped, delete_output p (delete_inputs p t))
  end.

Definition forget (f : Faults) (outs : list path) : M unit :=
  if is_nil outs then mret ()
  else
    dropped ← transaction f (λ t, foldl forget_output (∅, t) outs);
    each (drop_if_unreferenced f) (elements dropped).

Definition collect_garbage (f : Faults) : M unit :=
  throw_if (querying f)
    (c ← get;
     let unreferenced :=
       filter (λ name, ¬ references name (tables c) ∧ unlisted f name = false) (elements (dom (objects c))) in
     each (λ name, _ ← remove_file f name; mret ()) unreferenced).

Definition left_by {A} (m : M A) (c : BuildCache) : BuildCache := (m c).2.
Definition result_of {A} (m : M A) (c : BuildCache) : expected error_code A := (m c).1.1.
Definition effects_of {A} (m : M A) (c : BuildCache) : list Effect := (m c).1.2.

(** The interface the build tree sees. *)
Definition BuildCache_Cache (f : Faults) : Cache BuildCache := {|
  Cache.records := records f;
  Cache.read_content := read f;
  Cache.store command bytes mtime ins := left_by (store f command bytes mtime ins);
  Cache.forget outs := left_by (forget f outs);
  Cache.forget_throws outs c := negb (has_value (result_of (forget f outs) c));
  Cache.collect_garbage := left_by (collect_garbage f);
  Cache.hash_bytes := hash;
|}.
End members.

(** ** Opening *)

(** A directory on disk: what the cache's files hold, whether a [BuildCache] has
    it open, and the other files. *)
Record Directory := {
  user_version : Z;
  stored_tables : Tables;
  stored_objects : gmap str str;
  held : bool;
  others : gmap str str;
}.

(** What fails of opening it: each throws in turn. *)
Record OpenFaults := {
  creating : option error_code;
  exists_fails : bool;
  marking : option error_code;
  opening : option error_code;
  locking : option error_code;
  preparing : option error_code;
  upgrading : option error_code;
}.

Definition k_schema_version : Z := 1.

Definition write_once (f : OpenFaults) (files : gmap str str) (file : str * str) : gmap str str :=
  if exists_fails f then files
  else match files !! file.1, marking f with
       | None, None => <[file.1 := file.2]> files
       | _, _ => files
       end.

Definition k_marks : list (str * str) :=
  [(lit ".gitignore", lit "# Created by makebelieve." ++ [newline] ++ lit "*" ++ [newline]);
   (lit "CACHEDIR.TAG",
    lit "Signature: 8a477f597d28d172789f06886806bc55" ++ [newline] ++
    lit "# This file is a cache directory tag created by makebelieve." ++ [newline] ++
    lit "# For information about cache directory tags, see:" ++ [newline] ++
    lit "#" ++ [ascii_of_N 9] ++ lit "https://bford.info/cachedir/" ++ [newline])].

Definition mark_as_cache (f : OpenFaults) (files : gmap str str) : gmap str str := foldl (write_once f) files k_marks.

Definition with_marks (f : OpenFaults) (d : Directory) : Directory := {|
  user_version := user_version d; stored_tables := stored_tables d; stored_objects := stored_objects d;
  held := held d; others := mark_as_cache f (others d) |}.

(** The constructor: the cache and the directory it leaves, or what it throws. *)
Definition open_cache (f : OpenFaults) (d : Directory) : expected error_code BuildCache * Directory :=
  match creating f with
  | Some e => (Unexpected e, d)
  | None =>
      let d1 := with_marks f d in
      match opening f with
      | Some e => (Unexpected e, d1)
      | None =>
          if held d1 then (Unexpected (make_error_code device_or_resource_busy), d1)
          else
            match locking f, preparing f, upgrading f with
            | Some e, _, _ | None, Some e, _ | None, None, Some e => (Unexpected e, d1)
            | None, None, None =>
                let t := if decide (user_version d1 ≠ k_schema_version) then k_schema else stored_tables d1 in
                (Value {| tables := t; objects := stored_objects d1; next_scratch := 0 |},
                 {| user_version := k_schema_version; stored_tables := t; stored_objects := stored_objects d1;
                    held := true; others := others d1 |})
            end
      end
  end.

(** The destructor: the connection closes, and the directory is free again. *)
Definition close_cache (c : BuildCache) (d : Directory) : Directory := {|
  user_version := user_version d; stored_tables := tables c; stored_objects := objects c;
  held := false; others := others d |}.
