(* ===== verification/BuildCacheSpec.v ===== *)
(** * What the build cache promises

    Its names are hashes, what it records reads back, and neither an error nor a
    crash leaves a record whose content is not in place. *)

From S2P Require Export BuildCache.

(** ** Names *)

Lemma hex_digit_char d : (0 ≤ d < 16)%Z → is_hash_char (hex_digit d) = true.
Proof.
  intros Hd. assert (d ∈ seqZ 0 16) as Hin by (apply elem_of_seqZ; lia).
  assert (forallb (λ d, is_hash_char (hex_digit d)) (seqZ 0 16) = true) as Hall by (vm_compute; reflexivity).
  rewrite forallb_forall in Hall. apply Hall. by apply list_elem_of_In.
Qed.

Lemma hex_digit_inj d d' : (0 ≤ d < 16)%Z → (0 ≤ d' < 16)%Z → hex_digit d = hex_digit d' → d = d'.
Proof.
  unfold hex_digit. intros ?? E%(f_equal N_of_ascii).
  assert (∀ d, (0 ≤ d < 16)%Z → (Z.to_N (if decide (d < 10)%Z then 48 + d else 87 + d) < 256)%N) as Hb
    by (clear; intros; case_decide; lia).
  rewrite 2N_ascii_embedding in E by auto. case_decide; case_decide; lia.
Qed.

Lemma length_hex w x : length (hex w x) = w.
Proof. revert x. induction w as [|w IH]; intros x; [done|]. simpl. rewrite length_app, IH. simpl. lia. Qed.

Lemma hex_chars w x : forallb is_hash_char (hex w x) = true.
Proof.
  revert x. induction w as [|w IH]; intros x; [done|]. simpl. rewrite forallb_app, IH. simpl.
  by rewrite hex_digit_char by (apply Z.mod_pos_bound; lia).
Qed.

Lemma hex_inj w x y : hex w x = hex w y → (x `mod` 16 ^ Z.of_nat w = y `mod` 16 ^ Z.of_nat w)%Z.
Proof.
  revert x y. induction w as [|w IH]; intros x y; simpl; [intros _; by rewrite !Z.mod_1_r|].
  intros [E1%IH [= E2%hex_digit_inj]]%app_inj_tail; [|apply Z.mod_pos_bound; lia..].
  rewrite Nat2Z.inj_succ, Z.pow_succ_r by lia.
  rewrite (Z.rem_mul_r x), (Z.rem_mul_r y) by lia. congruence.
Qed.

Section cache.
Context (xxh3 : str → Z * Z).
Notation hash := (hash xxh3).

Lemma hash_is_hash b : is_hash (hash b) = true.
Proof.
  unfold hash. destruct (xxh3 b) as [h l].
  unfold is_hash. rewrite length_app, !length_hex, forallb_app, !hex_chars. by rewrite bool_decide_true by done.
Qed.

(** C36. What the cache names content by is always 32 hex digits, which it takes to
    be safe to name a file by, and tells apart any two contents whose 128-bit
    digests differ. *)
Theorem hashes_are_safe_names (b b' : str) :
  is_hash (hash b) = true ∧
  (hash b = hash b' → ((xxh3 b).1 `mod` 2 ^ 64 = (xxh3 b').1 `mod` 2 ^ 64)%Z ∧
                      ((xxh3 b).2 `mod` 2 ^ 64 = (xxh3 b').2 `mod` 2 ^ 64)%Z).
Proof.
  split; [apply hash_is_hash|]. unfold hash. destruct (xxh3 b) as [h l], (xxh3 b') as [h' l']. cbn [fst snd].
  change (2 ^ 64)%Z with (16 ^ Z.of_nat 16)%Z. intros [E1 E2]%app_inj_1; [|by rewrite !length_hex].
  split; by apply hex_inj.
Qed.

Lemma scratch_not_hash h (n : Z) b : format [h; lit "."; lit (pretty n); lit ".tmp"] ≠ hash b.
Proof.
  intros E. pose proof (hash_is_hash b) as Hh. rewrite <- E in Hh. apply andb_prop in Hh as [_ Hh].
  unfold format in Hh. simpl in Hh. rewrite forallb_app in Hh. apply andb_prop in Hh as [_ Hh]. done.
Qed.

(** ** Well-kept caches *)

(** A path that comes back from its text. *)
Definition storable (p : path) : Prop := of_string (generic_string p) = p.

Definition in_place (t : Tables) (o : gmap str str) : Prop :=
  ∀ p row, outputs t !! p = Some row → ∃ b, o !! row_hash row = Some b ∧ hash b = row_hash row.

Definition canonical_keys (t : Tables) : Prop := ∀ p, p ∈ dom (outputs t) → generic_string (of_string p) = p.

Record well_kept (c : BuildCache) : Prop := {
  kept_in_place : in_place (tables c) (objects c);
  kept_keys : canonical_keys (tables c);
}.

(** What is in place stays so while no file that a record names changes. *)
Lemma in_place_objects t o o' :
  in_place t o → (∀ h b, references h t → o !! h = Some b → hash b = h → ∃ b', o' !! h = Some b' ∧ hash b' = h) →
  in_place t o'.
Proof.
  intros Hin Ho p row Hp. destruct (Hin p row Hp) as (b & Hb & E). eapply Ho; [|done..]. by exists p, row.
Qed.

Lemma references_hash c h : well_kept c → references h (tables c) → ∃ b, h = hash b.
Proof. intros [Hin _] (p & row & Hp & <-). destruct (Hin p row Hp) as (b & _ & <-). by exists b. Qed.

Definition harmless (h : str) (c : BuildCache) : Prop := ¬ references h (tables c).

Lemma perform_well_kept e c :
  well_kept c →
  match e with
  | NumberScratch => True
  | WriteFile name content => harmless name c ∨ hash content = name
  | RenameFile from to => harmless from c ∧ ∃ b, objects c !! from = Some b ∧ hash b = to
  | RemoveFile name => harmless name c
  | Commit t => in_place t (objects c) ∧ canonical_keys t
  end → well_kept (perform e c).
Proof.
  intros [Hin Hk] He. destruct e; simpl; (split; simpl; [|done || by destruct He]); [done|..| by destruct He].
  - apply (in_place_objects _ (objects c)); [done|]. intros h b Hr Hb E. destruct (decide (name = h)) as [->|Hne].
    + destruct He as [He|He]; [by destruct He|]. exists content. by rewrite lookup_insert_eq.
    + exists b. by rewrite lookup_insert_ne.
  - destruct He as (Hf & b0 & Hb0 & E0). rewrite Hb0. apply (in_place_objects _ (objects c)); [done|].
    intros h b Hr Hb E. destruct (decide (to = h)) as [->|Hne].
    + exists b0. by rewrite lookup_insert_eq.
    + exists b. rewrite lookup_insert_ne, lookup_delete_ne; [done| |done]. by intros ->.
  - apply (in_place_objects _ (objects c)); [done|]. intros h b Hr Hb E. exists b.
    rewrite lookup_delete_ne; [done|]. by intros ->.
Qed.

(** ** What holds at every moment of a member

    [triple P m Q]: from [P], the cache is well kept after each of the effects of
    [m], and the result and the cache left satisfy [Q]. *)

Fixpoint states (c : BuildCache) (l : list Effect) : list BuildCache :=
  c :: match l with [] => [] | e :: l' => states (perform e c) l' end.

Definition triple {A} (P : BuildCache → Prop) (m : M A) (Q : expected error_code A → BuildCache → Prop) : Prop :=
  ∀ c, well_kept c → P c →
    Forall well_kept (states c (effects_of m c)) ∧ left_by m c = foldl (λ c e, perform e c) c (effects_of m c) ∧
    well_kept (left_by m c) ∧ Q (result_of m c) (left_by m c).

Lemma states_app c l l' :
  Forall well_kept (states c l) → Forall well_kept (states (foldl (λ c e, perform e c) c l) l') →
  Forall well_kept (states c (l ++ l')).
Proof.
  revert c. induction l as [|e l IH]; intros c H1 H2; [done|]. simpl in *. apply Forall_cons in H1 as [Hc H1].
  apply Forall_cons. split; [done|]. by apply IH.
Qed.

Lemma triple_ret {A} P (a : A) (Q : expected error_code A → BuildCache → Prop) :
  (∀ c, P c → Q (Value a) c) → triple P (mret a) Q.
Proof. intros HQ c Hc HP. split_and!; [by apply Forall_singleton|done|done|by apply HQ]. Qed.

Lemma triple_throw {A} P e (Q : expected error_code A → BuildCache → Prop) :
  (∀ c, P c → Q (Unexpected e) c) → triple P (throw e) Q.
Proof. intros HQ c Hc HP. split_and!; [by apply Forall_singleton|done|done|by apply HQ]. Qed.

Lemma triple_effect (P : BuildCache → Prop) e (Q : expected error_code () → BuildCache → Prop) :
  (∀ c, well_kept c → P c → well_kept (perform e c) ∧ Q (Value ()) (perform e c)) → triple P (effect e) Q.
Proof.
  intros HQ c Hc HP. destruct (HQ c Hc HP) as [Hc' HQ']. split_and!; [by repeat (apply Forall_cons; split)|done|done|done].
Qed.

Lemma triple_bind {A B} P (m : M A) (R : expected error_code A → BuildCache → Prop) (f : A → M B)
    (Q : expected error_code B → BuildCache → Prop) :
  triple P m R → (∀ a, triple (R (Value a)) (f a) Q) → (∀ e c, R (Unexpected e) c → Q (Unexpected e) c) →
  triple P (m ≫= f) Q.
Proof.
  intros Hm Hf He c Hc HP. destruct (Hm c Hc HP) as (H1 & H2 & H3 & H4).
  unfold effects_of, left_by, result_of in *. unfold mbind, M_bind. destruct (m c) as [[[a|e] l] c1]; simpl in *.
  - destruct (Hf a c1 H3 H4) as (H5 & H6 & H7 & H8). unfold effects_of, left_by, result_of in *.
    destruct (f a c1) as [[r l2] c2]. simpl in *. split_and!; [|by rewrite foldl_app, <- H2|done|done].
    apply states_app; [done|by rewrite <- H2].
  - split_and!; [done|done|done|by apply He].
Qed.

Lemma triple_get {B} P (f : BuildCache → M B) Q :
  (∀ c, triple (λ c', c' = c ∧ P c) (f c) Q) → triple P (c ← get; f c) Q.
Proof.
  intros Hf. apply (triple_bind _ _ (λ r c', r = Value c' ∧ P c')).
  - intros c Hc HP. split_and!; [by apply Forall_singleton|done|done|done|done].
  - intros c c' Hc' [E HP]. apply (Hf c c' Hc'). simplify_eq. done.
  - by intros e c [? _].
Qed.

Lemma triple_weaken {A} (P P' : BuildCache → Prop) (m : M A) (Q Q' : expected error_code A → BuildCache → Prop) :
  triple P' m Q' → (∀ c, P c → P' c) → (∀ r c, Q' r c → Q r c) → triple P m Q.
Proof. intros Hm HP HQ c Hc H. destruct (Hm c Hc (HP c H)) as (? & ? & ? & ?). split_and!; auto. Qed.

Lemma triple_on_throw {A B} P (m : M A) (handler : M B) (R : expected error_code A → BuildCache → Prop)
    (Q : expected error_code A → BuildCache → Prop) :
  triple P m R → (∀ a c, R (Value a) c → Q (Value a) c) →
  (∀ e, triple (R (Unexpected e)) handler (λ _ c, Q (Unexpected e) c)) →
  triple P (on_throw m handler) Q.
Proof.
  intros Hm Hv Hh c Hc HP. destruct (Hm c Hc HP) as (H1 & H2 & H3 & H4).
  unfold effects_of, left_by, result_of, on_throw in *. destruct (m c) as [[[a|e] l] c1]; simpl in *.
  - split_and!; auto.
  - destruct (Hh e c1 H3 H4) as (H5 & H6 & H7 & H8). unfold effects_of, left_by, result_of in *.
    destruct (handler c1) as [[r l2] c2]. simpl in *. split_and!; [|by rewrite foldl_app, <- H2|done|done].
    apply states_app; [done|by rewrite <- H2].
Qed.

Lemma triple_each {A} (P : BuildCache → Prop) (f : A → M unit) (l : list A) (Q : expected error_code () → BuildCache → Prop) :
  (∀ a, a ∈ l → triple P (f a) (λ r c, match r with Value _ => P c | Unexpected e => Q (Unexpected e) c end)) →
  (∀ c, P c → Q (Value ()) c) → triple P (each f l) Q.
Proof.
  induction l as [|a l IH]; intros Hf HP; [by apply triple_ret|].
  cbn [each]. apply (triple_bind _ _ (λ r c, match r with Value _ => P c | Unexpected e => Q (Unexpected e) c end)).
  - apply Hf. left.
  - intros _. apply IH; [|done]. intros b Hb. apply Hf. by right.
  - done.
Qed.

Lemma triple_throw_if {A} P e (m : M A) (Q : expected error_code A → BuildCache → Prop) :
  (∀ e' c, e = Some e' → P c → Q (Unexpected e') c) → (e = None → triple P m Q) → triple P (throw_if e m) Q.
Proof. intros He Hm. destruct e as [e|]; simpl; [|auto]. apply triple_throw. intros c. by apply He. Qed.

(** ** Each member *)

Lemma remove_file_triple (P : BuildCache → Prop) f name (Q : expected error_code error_code → BuildCache → Prop) :
  (∀ c, P c → harmless name c) →
  (∀ c, P c → ∀ c', c' = (if decide (removing f name = None) then perform (RemoveFile name) c else c) →
     Q (Value (default no_error (removing f name))) c') →
  triple P (remove_file f name) Q.
Proof.
  intros Hh HQ. unfold remove_file. destruct (removing f name) as [e|] eqn:E.
  - apply triple_ret. intros c HP. apply (HQ c HP). by rewrite decide_False.
  - apply (triple_bind _ _ (λ r c', r = Value () ∧ ∃ c, P c ∧ c' = perform (RemoveFile name) c)).
    + apply triple_effect. intros c Hc HP. split; [|split; [done|by exists c]]. apply perform_well_kept; [done|auto].
    + intros []. apply triple_ret. intros c' (_ & c & HP & ->). apply (HQ c HP). by rewrite decide_True.
    + by intros e c' [? _].
Qed.

Definition after_drop (f : Faults) (h : str) (c : BuildCache) : BuildCache :=
  if decide (references h (tables c) ∨ removing f h ≠ None) then c else perform (RemoveFile h) c.

Lemma after_drop_tables f h c : tables (after_drop f h c) = tables c.
Proof. unfold after_drop. by case_decide. Qed.

Lemma after_drop_object f h c n :
  objects (after_drop f h c) !! n =
    if decide (n = h ∧ ¬ references h (tables c) ∧ removing f h = None) then None else objects c !! n.
Proof.
  unfold after_drop. destruct (decide (references h (tables c) ∨ removing f h ≠ None)) as [Hor|Hor].
  - rewrite decide_False; [done|]. tauto.
  - simpl. destruct (decide (n = h)) as [->|Hne].
    + rewrite lookup_delete_eq, decide_True; [done|]. split; [done|]. split; [tauto|].
      destruct (removing f h); [|done]. exfalso. apply Hor. by right.
    + rewrite lookup_delete_ne by done. rewrite decide_False; tauto.
Qed.

Lemma drop_triple (P : BuildCache → Prop) f h (Q : expected error_code () → BuildCache → Prop) :
  (∀ e c, querying f = Some e → P c → Q (Unexpected e) c) →
  (querying f = None → ∀ c, P c → Q (Value ()) (after_drop f h c)) →
  triple P (drop_if_unreferenced f h) Q.
Proof.
  intros He HQ. apply triple_throw_if; [done|]. intros Hq. apply triple_get. intros c. case_decide as Hr.
  - apply triple_ret. intros c' [-> HP]. specialize (HQ Hq c HP). unfold after_drop in HQ.
    by rewrite decide_True in HQ by by left.
  - apply (triple_bind _ _ (λ r c', ∃ a, r = Value a ∧ P c ∧ c' = after_drop f h c)).
    + apply remove_file_triple; [by intros ? [-> _]|]. intros c' [-> HP] c'' ->. eexists. split_and!; [done|done|].
      unfold after_drop. destruct (removing f h); case_decide; case_decide; tauto || naive_solver.
    + intros a. apply triple_ret. intros c' (? & _ & HP & ->). auto.
    + by intros e c' (? & ? & _).
Qed.

Definition same_content (c c' : BuildCache) (except : str → Prop) : Prop :=
  ∀ n, is_hash n = true → ¬ except n → objects c' !! n = objects c !! n.

Lemma put_object_triple f bytes c0 :
  triple (λ c, c = c0) (put_object f (hash bytes) bytes) (λ r c,
    tables c = tables c0 ∧
    match writing f, renaming f with
    | Some (e, _), _ => r = Unexpected e ∧ same_content c0 c (λ _, False)
    | None, Some _ => (∃ name, r = Unexpected (default no_error (removing f name))) ∧ same_content c0 c (λ _, False)
    | None, None => r = Value () ∧ objects c !! hash bytes = Some bytes ∧ same_content c0 c (λ n, n = hash bytes)
    end).
Proof.
  unfold put_object. apply (triple_bind _ _ (λ r c, r = Value () ∧ tables c = tables c0 ∧ objects c = objects c0)).
  { apply triple_effect. intros c Hc ->. split; [by apply perform_well_kept|done]. }
  2: { by intros e c [? _]. }
  intros []. apply triple_get. intros c1.
  set (scratch := format _). assert (∀ n, is_hash n = true → n ≠ scratch) as Hscratch.
  { intros n Hn ->. unfold scratch, format in Hn. apply andb_prop in Hn as [_ Hn]. simpl in Hn.
    rewrite forallb_app in Hn. apply andb_prop in Hn as [_ Hn]. done. }
  assert (∀ c, well_kept c → harmless scratch c) as Hharm.
  { intros c Hc Hr. destruct (references_hash c scratch Hc Hr) as [b Hb]. apply (Hscratch scratch); [|done].
    rewrite Hb. apply hash_is_hash. }
  set (near := λ c, tables c = tables c0 ∧ same_content c0 c (λ _, False)).
  assert (∀ content, triple (λ c, c = c1 ∧ @Value error_code _ () = Value () ∧ tables c1 = tables c0 ∧ objects c1 = objects c0)
    (effect (WriteFile scratch content)) (λ r c, r = Value () ∧ near c ∧ objects c !! scratch = Some content)) as Hwrite.
  { intros content. apply triple_effect. intros c Hc (-> & _ & Ht & Ho).
    split; [apply perform_well_kept; [done|left; by apply Hharm]|]. split; [done|]. split; [split; [done|]|].
    - intros n Hn _. simpl. rewrite lookup_insert_ne; [by rewrite Ho|]. symmetry. by apply Hscratch.
    - simpl. by rewrite lookup_insert_eq. }
  assert (∀ P : BuildCache → Prop, (∀ c, P c → near c) → triple (λ c, well_kept c ∧ P c) (remove_file f scratch)
    (λ r c, (∃ name, r = Value (default no_error (removing f name))) ∧ near c)) as Hremove.
  { intros P HP. apply remove_file_triple; [by intros c [? _]; apply Hharm|]. intros c [_ Hc] c' ->.
    split; [by eexists|]. destruct (HP c Hc) as [Ht Ho]. case_decide; split; simpl; [done| |done|done].
    intros n Hn Hx. simpl. rewrite lookup_delete_ne by (symmetry; by apply Hscratch). by apply Ho. }
  destruct (writing f) as [[e written]|].
  - apply (triple_bind _ _ (λ r c, r = Value () ∧ near c)).
    + destruct written as [part|].
      * eapply triple_weaken; [apply Hwrite|intros c Hc; exact Hc|]. by intros r c (? & ? & _).
      * apply triple_ret. intros c (-> & _ & Ht & Ho). split; [done|]. split; [done|]. intros n _ _. by rewrite Ho.
    + intros []. apply (triple_bind _ _ (λ r c, (∃ name, r = Value (default no_error (removing f name))) ∧ near c)).
      * intros c Hc HP. apply (Hremove near (λ _ H, H) c Hc). split; [done|apply HP].
      * intros a. apply triple_throw. intros c [_ [Ht Ho]]. done.
      * by intros e' c [[name ?] _].
    + by intros e' c [? _].
  - apply (triple_bind _ _ _ _ _ (Hwrite bytes)); [|by intros e c [? _]]. intros [].
    destruct (renaming f) as [e|].
    + apply (triple_bind _ _ (λ r c, (∃ name, r = Value (default no_error (removing f name))) ∧ near c)).
      * intros c Hc (_ & HP & _). by apply (Hremove near (λ _ H, H) c Hc).
      * intros a. apply triple_throw. intros c [[name [= ->]] [Ht Ho]]. split; [done|]. split; [by exists name|done].
      * by intros e' c [[name ?] _].
    + apply triple_effect. intros c Hc (_ & [Ht Ho] & Hs). split.
      * apply perform_well_kept; [done|]. split; [by apply Hharm|by exists bytes].
      * simpl. rewrite Hs. split; [done|]. split; [done|]. split; [by rewrite lookup_insert_eq|].
        intros n Hn Hne. simpl. rewrite Hs, lookup_insert_ne by (by intros <-).
        rewrite lookup_delete_ne by (symmetry; by apply Hscratch). apply Ho; [done|by intros []].
Qed.

Lemma transaction_triple {A} (P : BuildCache → Prop) f (body : Tables → A * Tables)
    (Q : expected error_code A → BuildCache → Prop) :
  (∀ e c, transacting f = Some e → P c → Q (Unexpected e) c) →
  (transacting f = None → ∀ c, well_kept c → P c →
     well_kept (perform (Commit (body (tables c)).2) c) ∧
     Q (Value (body (tables c)).1) (perform (Commit (body (tables c)).2) c)) →
  triple P (transaction f body) Q.
Proof.
  intros He HQ. apply triple_throw_if; [done|]. intros Hn. apply triple_get. intros c.
  destruct (body (tables c)) as [a t] eqn:E.
  apply (triple_bind _ _ (λ r c', r = Value () ∧ Q (Value a) c')).
  - apply triple_effect. intros c' Hc [-> HP]. specialize (HQ Hn c Hc HP). rewrite E in HQ. by destruct HQ.
  - intros []. by apply triple_ret; intros c' [_ ?].
  - by intros e c' [? _].
Qed.

Lemma insert_inputs_outputs rows t : outputs (foldl insert_input t rows) = outputs t.
Proof.
  revert t. induction rows as [|r rows IH]; intros t; [done|]. simpl. rewrite IH. unfold insert_input. by case_decide.
Qed.

Definition row_of (command : Command) (h : str) (mtime : Z) : OutputRow := {|
  row_action := action_to_text (command_action command); row_command := command_text command;
  row_hash := h; row_mtime := mtime |}.

Lemma record_output_outputs command h mtime ins t :
  outputs (record_output_in command h mtime ins t).2 =
    <[generic_string (command_output command) := row_of command h mtime]> (outputs t).
Proof. simpl. by rewrite insert_inputs_outputs. Qed.

Lemma record_output_well_kept command mtime ins bytes c :
  storable (command_output command) → objects c !! hash bytes = Some bytes → well_kept c →
  well_kept (perform (Commit (record_output_in command (hash bytes) mtime ins (tables c)).2) c).
Proof.
  intros Hst Hb [Hin Hk]. apply perform_well_kept; [by split|]. split.
  - intros p row. rewrite record_output_outputs. intros [[<- <-]|[_ Hp]]%lookup_insert_Some; [by exists bytes|by eapply Hin].
  - intros p. rewrite record_output_outputs, dom_insert. intros [->%elem_of_singleton|?]%elem_of_union; [|by apply Hk].
    by rewrite Hst.
Qed.

(** Whether the content an output had is other than [h]. *)
Definition displaced (previous : option str) (h : str) : bool :=
  match previous with Some p => bool_decide (p ≠ h) | None => false end.

(** What [store] does, however it goes. *)
Definition store_outcome f command bytes mtime ins (c0 : BuildCache) (r : expected error_code str) (c : BuildCache) : Prop :=
  let h := hash bytes in
  let previous := select_hash (tables c0) (generic_string (command_output command)) in
  match writing f, renaming f, transacting f with
  | Some (e, _), _, _ => r = Unexpected e ∧ tables c = tables c0 ∧ same_content c0 c (λ _, False)
  | None, Some _, _ => (∃ name, r = Unexpected (default no_error (removing f name))) ∧
                       tables c = tables c0 ∧ same_content c0 c (λ _, False)
  | None, None, Some e => r = Unexpected e ∧ tables c = tables c0 ∧ same_content c0 c (λ n, n = h)
  | None, None, None =>
      r = (if displaced previous h
           then match querying f with Some e => Unexpected e | None => Value h end else Value h) ∧
      tables c = (record_output_in command h mtime ins (tables c0)).2 ∧ objects c !! h = Some bytes ∧
      same_content c0 c (λ n, n = h ∨ previous = Some n ∧ ¬ references n (tables c))
  end.

Lemma store_triple f command bytes mtime ins c0 :
  storable (command_output command) →
  triple (λ c, c = c0) (store xxh3 f command bytes mtime ins) (store_outcome f command bytes mtime ins c0).
Proof.
  intros Hst. unfold store, store_outcome. set (h := hash bytes). set (previous := select_hash _ _).
  apply (triple_bind _ _ _ _ _ (put_object_triple f bytes c0)).
  2: { intros e c [Ht Hc]. destruct (writing f) as [[? ?]|]; [destruct Hc; by simplify_eq|].
       destruct (renaming f); [destruct Hc as [[name ?] ?]; simplify_eq; by eauto|by destruct Hc]. }
  intros []. destruct (writing f) as [[ew ?]|] eqn:Ew.
  { intros c Hc (_ & ? & _). done. }
  destruct (renaming f) as [er|] eqn:Er.
  { intros c Hc (_ & [? ?] & _). done. }
  set (written := λ c, tables c = tables c0 ∧ objects c !! h = Some bytes ∧ same_content c0 c (λ n, n = h)).
  apply (triple_bind _ _ (λ r c, match transacting f with
    | Some e => r = Unexpected e ∧ tables c = tables c0 ∧ same_content c0 c (λ n, n = h)
    | None => r = Value previous ∧ tables c = (record_output_in command h mtime ins (tables c0)).2 ∧
              objects c !! h = Some bytes ∧ same_content c0 c (λ n, n = h) end)).
  - apply (triple_on_throw _ _ _ (λ r c, match transacting f with
      | Some e => r = Unexpected e ∧ written c
      | None => r = Value previous ∧ tables c = (record_output_in command h mtime ins (tables c0)).2 ∧
                objects c !! h = Some bytes ∧ same_content c0 c (λ n, n = h) end)).
    + apply transaction_triple.
      * intros e c -> (? & _ & ? & ?). done.
      * intros -> c Hc (Ht & _ & Hb & Hs). split; [by apply record_output_well_kept|].
        rewrite Ht. split; [done|]. split; [done|]. split; [done|]. intros n Hn Hx. by apply Hs.
    + intros a c. destruct (transacting f); [by intros [? _]|done].
    + intros e. apply drop_triple.
      * intros e' c _. destruct (transacting f); [|by intros [? _]]. by intros [? (? & _ & ?)].
      * intros _ c. destruct (transacting f); [|by intros [? _]]. intros [? (Ht & _ & Hs)]. split; [done|].
        rewrite after_drop_tables. split; [done|]. intros n Hn Hx. rewrite after_drop_object, decide_False by tauto. by apply Hs.
  - intros pr. destruct (transacting f) as [et|] eqn:Et. { intros c Hc [? _]. done. }
    apply (triple_bind _ _ (λ r c,
      r = (if displaced previous h
           then match querying f with Some e => Unexpected e | None => Value () end else Value ()) ∧
      tables c = (record_output_in command h mtime ins (tables c0)).2 ∧ objects c !! h = Some bytes ∧
      same_content c0 c (λ n, n = h ∨ previous = Some n ∧ ¬ references n (tables c)))).
    + assert (∀ c, same_content c0 c (λ n, n = h) →
        same_content c0 c (λ n, n = h ∨ previous = Some n ∧ ¬ references n (tables c))) as Hweak.
      { intros c Hs n Hn Hx. apply Hs; [done|tauto]. }
      destruct pr as [p|]; [case_decide as Hp|].
      * assert (displaced (Some p) h = true) as E0 by by apply bool_decide_eq_true.
        apply drop_triple.
        -- intros e c Hq ([= <-] & ? & ? & ?). rewrite E0, Hq. auto.
        -- intros Hq c ([= <-] & Ht & Hb & Hs). rewrite E0, Hq.
           rewrite after_drop_tables. split; [done|]. split; [done|]. split.
           ++ rewrite after_drop_object, decide_False; [done|]. intros [E _]. congruence.
           ++ intros n Hn Hx. rewrite after_drop_object, decide_False; [apply Hs; [done|tauto]|].
              intros (-> & Hr & _). apply Hx. by right.
      * apply triple_ret. intros c ([= <-] & ? & ? & ?). assert (displaced (Some p) h = false) as -> by (apply bool_decide_eq_false; intros Hne; by apply Hne). auto.
      * apply triple_ret. intros c ([= <-] & ? & ? & ?). auto.
    + intros []. apply triple_ret. intros c (E & ? & ? & ?). split; [|done]. destruct (displaced _ _); [|done]. by destruct (querying f).
    + intros e c (E & ? & ? & ?). split; [|done]. destruct (displaced _ _); [|done]. destruct (querying f); by simplify_eq.
  - intros e c. destruct (transacting f); [|by intros [? _]]. intros [[= ->] ?]. done.
Qed.

(** Removing files one after another leaves out those that can go. *)
Definition gone (l : list str) (C : str → Prop) `{∀ n, Decision (C n)} (c0 c : BuildCache) : Prop :=
  ∀ n, objects c !! n = if decide (n ∈ l ∧ C n) then None else objects c0 !! n.

Lemma each_removes_triple (g : str → M unit) (C : str → Prop) `{∀ n, Decision (C n)} l c0 :
  (∀ n c1, n ∈ l → tables c1 = tables c0 →
     triple (λ c, c = c1) (g n) (λ r c, r = Value () ∧ tables c = tables c0 ∧ gone [n] C c1 c)) →
  triple (λ c, c = c0) (each g l) (λ r c, r = Value () ∧ tables c = tables c0 ∧ gone l C c0 c).
Proof.
  intros Hg. assert (∀ before, triple (λ c, tables c = tables c0 ∧ gone before C c0 c) (each g l)
    (λ r c, r = Value () ∧ tables c = tables c0 ∧ gone (before ++ l) C c0 c)) as Hall.
  - induction l as [|n l IH]; intros before.
    + apply triple_ret. intros c. by rewrite app_nil_r.
    + cbn [each]. apply (triple_bind _ _ (λ r c, r = Value () ∧ tables c = tables c0 ∧ gone (before ++ [n]) C c0 c)).
      * intros c Hc [Ht Ho]. destruct (Hg n c ltac:(left) Ht c Hc eq_refl) as (H1 & H2 & H3 & H4 & H5 & H6).
        split_and!; [done|done|done|done|done|]. intros m. rewrite H6, Ho. unfold gone.
        repeat case_decide; (done || exfalso); set_solver.
      * intros []. eapply triple_weaken; [apply (IH ltac:(intros; apply Hg; [by right|done]) (before ++ [n]))| |].
        -- by intros c (_ & ? & ?).
        -- intros r c. by rewrite <- (assoc_L (++)).
      * by intros e c [? _].
  - eapply triple_weaken; [apply (Hall [])| |done]. intros c ->. split; [done|]. intros n.
    rewrite decide_False; [done|]. set_solver.
Qed.

Definition forget_outcome f outs (c0 : BuildCache) (r : expected error_code ()) (c : BuildCache) : Prop :=
  if is_nil outs then r = Value () ∧ c = c0
  else
    let '(dropped, t) := foldl forget_output (∅, tables c0) outs in
    match transacting f, querying f with
    | Some e, _ => r = Unexpected e ∧ c = c0
    | None, Some _ => tables c = t
    | None, None => r = Value () ∧ tables c = t ∧
        ∀ n, objects c !! n = if decide (n ∈ dropped ∧ ¬ references n t ∧ removing f n = None) then None else objects c0 !! n
    end.

Lemma forget_outputs outs d t (r := foldl forget_output (d, t) outs) :
  (∀ p, outputs r.2 !! p = if decide (p ∈ generic_string <$> outs) then None else outputs t !! p) ∧
  (∀ h, h ∈ r.1 ↔ h ∈ d ∨ ∃ p row, p ∈ generic_string <$> outs ∧ outputs t !! p = Some row ∧ row_hash row = h) ∧
  ∀ p, p ∉ generic_string <$> outs →
    filter (λ r, input_row_output r = p) (inputs r.2) = filter (λ r, input_row_output r = p) (inputs t).
Proof.
  subst r. revert d t. induction outs as [|o outs IH]; intros d t.
  { split_and!; [done| |done]. intros h. split; [by left|]. intros [?|(p & row & Hp & _)]; [done|by apply elem_of_nil in Hp]. }
  cbn [foldl]. unfold forget_output at 2 4 6. unfold select_hash.
  destruct (outputs t !! generic_string o) as [row|] eqn:Eo; simpl.
  - destruct (IH ({[row_hash row]} ∪ d) (delete_output (generic_string o) (delete_inputs (generic_string o) t)))
      as (H1 & H2 & H3). split_and!.
    + intros p. rewrite H1. simpl. destruct (decide (p = generic_string o)) as [->|Hne].
      * rewrite (decide_True (P := _ ∈ _ :: _)) by left. case_decide; [done|]. by rewrite lookup_delete_eq.
      * rewrite lookup_delete_ne by done. repeat case_decide; (done || exfalso); set_solver.
    + intros h. rewrite H2. simpl. split.
      * intros [[->%elem_of_singleton|?]%elem_of_union|(p & row' & Hp & Hl & E)].
        -- right. exists (generic_string o), row. split; [left|done].
        -- by left.
        -- apply lookup_delete_Some in Hl as [_ Hl]. right. exists p, row'. split; [by right|done].
      * intros [?|(p & row' & Hp & Hl & E)]; [left; set_solver|].
        destruct (decide (p = generic_string o)) as [->|Hne]; [left; simplify_eq; set_solver|].
        right. exists p, row'. rewrite lookup_delete_ne by done. split; [set_solver|done].
    + intros p Hp. apply not_elem_of_cons in Hp as [Hne Hp]. rewrite H3 by done. simpl. rewrite list_filter_filter.
      apply list_filter_iff. intros r. naive_solver.
  - destruct (IH d t) as (H1 & H2 & H3). split_and!.
    + intros p. rewrite H1. repeat case_decide; try done; [exfalso; set_solver|].
      assert (p = generic_string o) as -> by set_solver. done.
    + intros h. rewrite H2. split; (intros [?|(p & row & Hp & Hl & E)]; [by left|right]); exists p, row; set_solver.
    + intros p Hp. apply H3. set_solver.
Qed.

Lemma forgotten_well_kept outs c (t := (foldl forget_output (∅, tables c) outs).2) :
  well_kept c → well_kept (perform (Commit t) c).
Proof.
  intros Hc. pose proof Hc as [Hin Hk]. destruct (forget_outputs outs ∅ (tables c)) as (H1 & _).
  apply perform_well_kept; [done|]. split.
  - intros p row. unfold t. rewrite H1. case_decide; [done|]. apply Hin.
  - intros p [row Hp]%elem_of_dom. unfold t in Hp. rewrite H1 in Hp. case_decide; [done|]. apply Hk. by apply elem_of_dom_2 in Hp.
Qed.

Lemma forget_triple f outs c0 : triple (λ c, c = c0) (forget f outs) (forget_outcome f outs c0).
Proof.
  unfold forget, forget_outcome. destruct (is_nil outs); [by apply triple_ret|].
  destruct (foldl forget_output (∅, tables c0) outs) as [dropped t] eqn:E.
  apply (triple_bind _ _ (λ r c, match transacting f with
    | Some e => r = Unexpected e ∧ c = c0
    | None => r = Value dropped ∧ c = perform (Commit t) c0 end)).
  - apply transaction_triple; [intros e c -> ->; done|]. intros -> c Hc ->.
    pose proof (forgotten_well_kept outs c0 Hc). by rewrite E in *.
  - intros a. destruct (transacting f) as [e|]; [by intros c Hc [? _]|].
    destruct (decide (a = dropped)) as [->|Hne]; [|intros c Hc [[= ?] _]; congruence].
    destruct (querying f) as [e|] eqn:Eq.
    + apply (triple_weaken _ (λ c, tables c = t) _ _ (λ _ c, tables c = t)); [|by intros c [_ ->]|done].
      apply triple_each.
      * intros h _. apply drop_triple; [done|]. intros _ c Hc. by rewrite after_drop_tables.
      * done.
    + eapply triple_weaken; [apply (each_removes_triple _ (λ n, ¬ references n t ∧ removing f n = None) _ (perform (Commit t) c0))| |].
      * intros n c1 _ Ht. apply drop_triple; [by rewrite Eq|]. intros _ c' ->. split; [done|].
        rewrite after_drop_tables. split; [done|]. intros m. rewrite after_drop_object, Ht. simpl.
        apply decide_ext. rewrite list_elem_of_singleton; naive_solver.
      * by intros c [_ ->].
      * intros r c (-> & Ht & Ho). split; [done|]. split; [done|]. intros n. rewrite Ho. simpl.
        apply decide_ext. by rewrite elem_of_elements.
  - intros e c. destruct (transacting f); [|by intros [? _]]. by intros [[= ->] ->].
Qed.

Definition collect_outcome f (c0 : BuildCache) (r : expected error_code ()) (c : BuildCache) : Prop :=
  match querying f with
  | Some e => r = Unexpected e ∧ c = c0
  | None => r = Value () ∧ tables c = tables c0 ∧
      ∀ n, objects c !! n =
        if decide (¬ references n (tables c0) ∧ unlisted f n = false ∧ removing f n = None) then None else objects c0 !! n
  end.

Lemma collect_triple f c0 : triple (λ c, c = c0) (collect_garbage f) (collect_outcome f c0).
Proof.
  unfold collect_garbage, collect_outcome. apply triple_throw_if.
  { by intros e c -> ->. }
  intros Hq. rewrite Hq. apply triple_get. intros c1 c Hc [-> ->]. revert c0 Hc. intros c0.
  match goal with |- context [each ?g ?l] => set (rm := g); set (left_out := l) end.
  enough (triple (λ c, c = c0) (each rm left_out) (λ r c, r = Value () ∧ tables c = tables c0 ∧
    ∀ n, objects c !! n =
      if decide (¬ references n (tables c0) ∧ unlisted f n = false ∧ removing f n = None) then None else objects c0 !! n))
    as Ht by (intros Hc; exact (Ht c0 Hc eq_refl)).
  eapply triple_weaken; [apply (each_removes_triple rm (λ n, removing f n = None) left_out c0)|done|].
  - intros n c1 Hn Ht. apply (triple_bind _ _ (λ r c, (∃ a, r = Value a) ∧ tables c = tables c0 ∧
      gone [n] (λ n, removing f n = None) c1 c)).
    + apply remove_file_triple.
      * intros c ->. unfold harmless. rewrite Ht. by apply list_elem_of_filter in Hn as [[? _] _].
      * intros c -> c' ->. split; [by eexists|]. case_decide as Hr; (split; [done|]); intros m; simpl.
        -- rewrite (decide_ext _ (m = n)) by (rewrite list_elem_of_singleton; naive_solver).
           case_decide as E; [subst; apply lookup_delete_eq|by apply lookup_delete_ne].
        -- rewrite decide_False; [done|]. rewrite list_elem_of_singleton. naive_solver.
    + intros a. by apply triple_ret; intros c [_ ?].
    + by intros e c [[a ?] _].
  - intros r c (-> & Ht & Ho). split; [done|]. split; [done|]. intros n. rewrite Ho. unfold left_out.
    destruct (objects c0 !! n) as [b|] eqn:En; [|by repeat case_decide].
    apply decide_ext. rewrite list_elem_of_filter, elem_of_elements, elem_of_dom, En. naive_solver.
Qed.

(** ** Lives of a cache

    Calls of members, each with what fails of it, the process dying at any moment
    and the cache opened again. *)

Inductive call :=
  | Store (command : Command) (bytes : str) (mtime : Z) (ins : list Input)
  | Forget (outs : list path)
  | CollectGarbage.

Definition call_effects (f : Faults) (k : call) (c : BuildCache) : list Effect :=
  match k with
  | Store command bytes mtime ins => effects_of (store xxh3 f command bytes mtime ins) c
  | Forget outs => effects_of (forget f outs) c
  | CollectGarbage => effects_of (collect_garbage f) c
  end.
Definition storable_call (k : call) : Prop :=
  match k with Store command _ _ _ => storable (command_output command) | _ => True end.

Inductive lived : BuildCache → Prop :=
  | lived_created : lived {| tables := k_schema; objects := ∅; next_scratch := 0 |}
  | lived_moment c c' f k : lived c → storable_call k → c' ∈ states c (call_effects f k c) → lived c'
  | lived_reopened c : lived c → lived {| tables := tables c; objects := objects c; next_scratch := 0 |}.

Lemma lived_well_kept c : lived c → well_kept c.
Proof.
  induction 1 as [|c c' f k _ Hc Hk Hin|c _ [Hin Hk]]; [|..|by split].
  - split; [intros p row Hp; done|intros p; set_solver].
  - enough (Forall well_kept (states c (call_effects f k c))) as Hall by by eapply Forall_forall in Hall.
    destruct k; simpl in *.
    + by destruct (store_triple f command bytes mtime ins c Hk c Hc eq_refl).
    + by destruct (forget_triple f outs c c Hc eq_refl).
    + by destruct (collect_triple f c c Hc eq_refl).
Qed.

Lemma last_state c l : foldl (λ c e, perform e c) c l ∈ states c l.
Proof. revert c. induction l as [|e l IH]; intros c; simpl; [left|right; apply IH]. Qed.

Lemma lived_stored f command bytes mtime ins c :
  lived c → storable (command_output command) → lived (left_by (store xxh3 f command bytes mtime ins) c).
Proof.
  intros Hc Hst. apply (lived_moment c _ f (Store command bytes mtime ins)); [done|done|]. simpl.
  destruct (store_triple f command bytes mtime ins c Hst c (lived_well_kept c Hc) eq_refl) as (_ & -> & _).
  apply last_state.
Qed.

(** ** The records *)

Definition inputs_of (t : Tables) (p : str) : list Input :=
  input_of <$> filter (λ r, input_row_output r = p) (inputs t).

Definition with_inputs (ins : list Input) (r : CacheRecord) : CacheRecord := {|
  record_command := record_command r; record_hash := record_hash r; record_mtime := record_mtime r;
  record_inputs := record_inputs r ++ ins |}.

Lemma add_inputs rows l :
  foldl add_input l rows =
    (λ pr, (pr.1, with_inputs (input_of <$> filter (λ r, input_row_output r = pr.1) rows) pr.2)) <$> l.
Proof.
  revert l. induction rows as [|row rows IH]; intros l; simpl.
  - rewrite <- (list_fmap_id l) at 1. apply list_fmap_ext. intros i [p r] _. simpl. unfold with_inputs.
    rewrite app_nil_r. by destruct r.
  - rewrite IH. unfold add_input. rewrite <- list_fmap_compose. apply list_fmap_ext. intros i [p r] _. simpl.
    destruct (decide (p = input_row_output row)) as [->|Hne]; simpl.
    + rewrite filter_cons_True by done. unfold with_inputs. simpl. by rewrite <- app_assoc.
    + rewrite filter_cons_False by done. done.
Qed.

Lemma elem_of_records t r :
  r ∈ (records_of_tables t).*2 ↔ ∃ p row a, outputs t !! p = Some row ∧ action_from_text (row_action row) = Some a ∧
    r = {| record_command := {| command_output := of_string p; command_action := a; command_text := row_command row |};
           record_hash := row_hash row; record_mtime := row_mtime row; record_inputs := inputs_of t p |}.
Proof.
  unfold records_of_tables. rewrite add_inputs, list_elem_of_fmap. setoid_rewrite list_elem_of_fmap. split.
  - intros (pr & -> & [p r0] & -> & ([p' row] & Hin & E)%list_elem_of_omap).
    apply elem_of_map_to_list in Hin. simpl in E.
    destruct (action_from_text (row_action row)) as [a|] eqn:Ea; simpl in E; [|done]. injection E as <- <-.
    by exists p', row, a.
  - intros (p & row & a & Hp & Ha & ->). eexists (p, _). split; [done|]. eexists (p, _). split; [|].
    2: { apply list_elem_of_omap. exists (p, row). split; [by apply elem_of_map_to_list|]. simpl. by rewrite Ha. }
    done.
Qed.

(** Of the inputs at one path the first is kept: it is their table's key. *)
Definition keep_first (acc : list Input) (i : Input) : list Input :=
  if decide (input_path i ∈ input_path <$> acc) then acc else acc ++ [i].
Definition first_by_path (ins : list Input) : list Input := foldl keep_first [] ins.

Lemma storable_inj p q : storable p → storable q → generic_string p = generic_string q → p = q.
Proof. unfold storable. congruence. Qed.

Definition rows_at (p : str) (t : Tables) : list InputRow := filter (λ r, input_row_output r = p) (inputs t).

Lemma rows_at_insert t r p :
  rows_at p (insert_input t r) = rows_at p t ++
    (if decide (input_row_output r = p ∧ ¬ Exists (same_key r) (rows_at p t)) then [r] else []).
Proof.
  unfold insert_input, rows_at.
  assert (input_row_output r = p → Exists (same_key r) (filter (λ r, input_row_output r = p) (inputs t)) ↔
            Exists (same_key r) (inputs t)) as Hex.
  { intros <-. rewrite !Exists_exists. setoid_rewrite list_elem_of_filter. unfold same_key. naive_solver. }
  destruct (decide (Exists (same_key r) (inputs t))) as [He|He].
  - rewrite decide_False; [by rewrite app_nil_r|]. intros [E Hn]. apply Hn. by apply Hex.
  - simpl. rewrite filter_app. f_equal. destruct (decide (input_row_output r = p)) as [E|E].
    + rewrite filter_cons_True, filter_nil, decide_True; [done| |done]. split; [done|]. by rewrite Hex.
    + rewrite filter_cons_False, filter_nil, decide_False; [done| |done]. by intros [? _].
Qed.

Lemma rows_at_inserts p ins acc t :
  Forall (λ i, storable (input_path i)) (acc ++ ins) → rows_at p t = input_row p <$> acc →
  rows_at p (foldl insert_input t (input_row p <$> ins)) = input_row p <$> foldl keep_first acc ins.
Proof.
  revert acc t. induction ins as [|i ins IH]; intros acc t Hst Ht; [done|]. simpl.
  assert (Exists (same_key (input_row p i)) (rows_at p t) ↔ input_path i ∈ input_path <$> acc) as Hkey.
  { rewrite Ht, Exists_exists, list_elem_of_fmap. setoid_rewrite list_elem_of_fmap. unfold same_key. split.
    - intros (r & (j & -> & Hj) & _ & E). exists j. split; [|done]. rewrite Forall_forall in Hst. simpl in E.
      apply storable_inj; [apply Hst; set_solver..|done].
    - intros (j & E & Hj). eexists. split; [by exists j|]. split; simpl; [done|by rewrite E]. }
  apply IH.
  - unfold keep_first. rewrite Forall_app, Forall_cons in Hst. case_decide; rewrite ?Forall_app, ?Forall_singleton; tauto.
  - rewrite rows_at_insert, Ht. unfold keep_first. rewrite Ht in Hkey. case_decide as Hd.
    + destruct Hd as [_ Hd]. rewrite decide_False by by rewrite <- Hkey. by rewrite fmap_app.
    + rewrite app_nil_r, decide_True; [done|]. apply dec_stable. intros Hn. apply Hd. split; [done|]. by rewrite Hkey.
Qed.

Lemma rows_at_others p q ins t : p ≠ q → rows_at p (foldl insert_input t (input_row q <$> ins)) = rows_at p t.
Proof.
  intros Hne. revert t. induction ins as [|i ins IH]; intros t; [done|]. simpl. rewrite IH, rows_at_insert.
  rewrite decide_False; [by rewrite app_nil_r|]. by intros [? _].
Qed.

Lemma input_of_row p i : storable (input_path i) → input_of (input_row p i) = i.
Proof. unfold storable. intros E. unfold input_of. simpl. rewrite E. by destruct i. Qed.

Lemma first_by_path_storable ins acc :
  Forall (λ i, storable (input_path i)) (acc ++ ins) → Forall (λ i, storable (input_path i)) (foldl keep_first acc ins).
Proof.
  revert acc. induction ins as [|i ins IH]; intros acc Hst; [by rewrite app_nil_r in Hst|]. simpl. apply IH.
  unfold keep_first. rewrite Forall_app, Forall_cons in Hst. case_decide; rewrite ?Forall_app, ?Forall_singleton; tauto.
Qed.

Lemma record_output_inputs command h mtime ins t p :
  Forall (λ i, storable (input_path i)) ins →
  inputs_of (record_output_in command h mtime ins t).2 p =
    if decide (p = generic_string (command_output command)) then first_by_path ins else inputs_of t p.
Proof.
  intros Hst. unfold inputs_of. fold (rows_at p (record_output_in command h mtime ins t).2). fold (rows_at p t).
  simpl. case_decide as E.
  - subst p. rewrite (rows_at_inserts _ ins []); [|done|].
    + rewrite <- list_fmap_compose. fold (first_by_path ins). rewrite <- (list_fmap_id (first_by_path ins)) at 2.
      apply list_fmap_ext. intros i x Hx. apply input_of_row.
      assert (Forall (λ i, storable (input_path i)) (first_by_path ins)) as Hall by by apply first_by_path_storable.
      rewrite Forall_forall in Hall. apply Hall. by apply list_elem_of_lookup_2 in Hx.
    + unfold rows_at. simpl. rewrite list_filter_filter. apply elem_of_nil_inv. intros r [Hr _]%list_elem_of_filter. tauto.
  - rewrite rows_at_others by done. unfold rows_at. simpl. rewrite list_filter_filter. f_equal. apply list_filter_iff.
    intros r. naive_solver.
Qed.

Lemma action_round_trip a : action_from_text (action_to_text a) = Some a.
Proof. by destruct a. Qed.

Lemma result_store_triple f command bytes mtime ins c :
  well_kept c → storable (command_output command) →
  store_outcome f command bytes mtime ins c (result_of (store xxh3 f command bytes mtime ins) c)
    (left_by (store xxh3 f command bytes mtime ins) c).
Proof. intros Hc Hst. by destruct (store_triple f command bytes mtime ins c Hst c Hc eq_refl) as (_ & _ & _ & ?). Qed.

(** The records the tables make, as [records] gives them when it does not throw. *)
Definition recorded (c : BuildCache) : list CacheRecord := (records_of_tables (tables c)).*2.

Definition record_of_build command bytes mtime ins : CacheRecord := {|
  record_command := command; record_hash := hash bytes; record_mtime := mtime;
  record_inputs := first_by_path ins |}.

Lemma recorded_spec command bytes mtime ins c c' :
  well_kept c → storable (command_output command) → Forall (λ i, storable (input_path i)) ins →
  tables c' = (record_output_in command (hash bytes) mtime ins (tables c)).2 →
  ∀ r, r ∈ recorded c' ↔
    r = record_of_build command bytes mtime ins ∨
    r ∈ recorded c ∧ command_output (record_command r) ≠ command_output command.
Proof.
  intros Hc Hst Hins Etab r. unfold recorded.
  rewrite !elem_of_records, Etab, record_output_outputs. destruct Hc as [_ Hk]. split.
  - intros (p & row & a & Hp & Ha & ->). rewrite record_output_inputs by done.
    apply lookup_insert_Some in Hp as [[<- <-]|[Hne Hp]].
    + left. rewrite decide_True by done. simpl in Ha. rewrite action_round_trip in Ha. injection Ha as <-.
      simpl. rewrite Hst. by destruct command.
    + right. rewrite decide_False by done. split; [by exists p, row, a|]. simpl. intros E. apply Hne. rewrite <- E.
      apply Hk. by apply elem_of_dom_2 in Hp.
  - intros [->|[(p & row & a & Hp & Ha & ->) Hne]].
    + exists (generic_string (command_output command)), (row_of command (hash bytes) mtime), (command_action command).
      rewrite lookup_insert_eq, record_output_inputs, decide_True by done. split; [done|].
      split; [apply action_round_trip|]. unfold record_of_build. simpl. rewrite Hst. by destruct command.
    + exists p, row, a. simpl in Hne. assert (p ≠ generic_string (command_output command)).
      { intros ->. by rewrite Hst in Hne. }
      rewrite lookup_insert_ne, record_output_inputs, decide_False by done. done.
Qed.

Lemma stored_spec f command bytes mtime ins c
    (c' := left_by (store xxh3 f command bytes mtime ins) c) :
  well_kept c → storable (command_output command) → Forall (λ i, storable (input_path i)) ins →
  writing f = None → renaming f = None → transacting f = None → querying f = None → reading f (hash bytes) = None →
  result_of (store xxh3 f command bytes mtime ins) c = Value (hash bytes) ∧
  read xxh3 f c' (hash bytes) = Value bytes ∧
  ∃ l l', records f c = Some l ∧ records f c' = Some l' ∧
    ∀ r, r ∈ l' ↔
      r = {| record_command := command; record_hash := hash bytes; record_mtime := mtime;
             record_inputs := first_by_path ins |} ∨
      r ∈ l ∧ command_output (record_command r) ≠ command_output command.
Proof.
  intros Hc Hst Hins Hw Hr Ht Hq Hrd. pose proof (result_store_triple f command bytes mtime ins c Hc Hst) as Ho.
  unfold store_outcome in Ho. rewrite Hw, Hr, Ht, Hq in Ho. fold c' in Ho. destruct Ho as (-> & Etab & Eobj & _).
  split; [by destruct (displaced _ _)|]. split.
  { unfold read. rewrite hash_is_hash, Hrd, Eobj. simpl. by rewrite bool_decide_false by tauto. }
  unfold records. rewrite Hq. exists (recorded c), (recorded c'). split; [done|]. split; [done|].
  by apply (recorded_spec command bytes mtime ins c c').
Qed.

(** C28. What is stored reads back. Unless the file system or the database fails,
    storing a build gives the hash of its content, by which the content is read
    again, whatever was under that name; the records are then those there were,
    but for the output's, which is of the command, content, time and inputs given,
    each input path once, with what was said of it first. *)
Theorem stored_is_read_back f command bytes mtime ins c
    (c' := left_by (store xxh3 f command bytes mtime ins) c) :
  well_kept c → storable (command_output command) → Forall (λ i, storable (input_path i)) ins →
  writing f = None → renaming f = None → transacting f = None → querying f = None → reading f (hash bytes) = None →
  result_of (store xxh3 f command bytes mtime ins) c = Value (hash bytes) ∧
  read xxh3 f c' (hash bytes) = Value bytes ∧
  ∃ l l', records f c = Some l ∧ records f c' = Some l' ∧
    ∀ r, r ∈ l' ↔
      r = {| record_command := command; record_hash := hash bytes; record_mtime := mtime;
             record_inputs := first_by_path ins |} ∨
      r ∈ l ∧ command_output (record_command r) ≠ command_output command.
Proof. apply stored_spec. Qed.

(** C27. Neither an error nor a crash leaves a record without its content. Through
    calls that fail in any way, the process dying between any two lasting effects
    and the cache opened again, every output recorded has its content in place:
    it reads back, unless reading it fails, and has the hash recorded. *)
Theorem every_record_has_its_content f (c : BuildCache) l :
  lived c → records f c = Some l →
  ∀ r, r ∈ l → ∃ b, hash b = record_hash r ∧ objects c !! record_hash r = Some b ∧
    (reading f (record_hash r) = None → read xxh3 f c (record_hash r) = Value b).
Proof.
  intros Hl%lived_well_kept Hr r Hin. unfold records in Hr. destruct (querying f); [done|]. injection Hr as <-.
  apply elem_of_records in Hin as (p & row & a & Hp & Ha & ->). simpl.
  destruct Hl as [Hin _]. destruct (Hin p row Hp) as (b & Hb & E). exists b. split; [done|]. split; [done|].
  intros Hrd. unfold read. rewrite <- E in *. rewrite hash_is_hash, Hrd, Hb. simpl. by rewrite bool_decide_false by tauto.
Qed.


(** Forgetting is exact. Unless the database fails, the records of the outputs
    named go and no others; content that a record still names stays, and content
    that only the records dropped named goes, if it can be removed. *)
Theorem forgetting_is_exact f outs c (c' := left_by (forget f outs) c) :
  well_kept c → Forall storable outs → transacting f = None → querying f = None →
  result_of (forget f outs) c = Value () ∧
  (∃ l l', records f c = Some l ∧ records f c' = Some l' ∧
     ∀ r, r ∈ l' ↔ r ∈ l ∧ command_output (record_command r) ∉ outs) ∧
  (∀ n, references n (tables c') ∨ ¬ references n (tables c) → objects c' !! n = objects c !! n) ∧
  (∀ n, references n (tables c) → ¬ references n (tables c') → removing f n = None → objects c' !! n = None).
Proof.
  intros Hc Hst Ht Hq. destruct (forget_triple f outs c c Hc eq_refl) as (_ & _ & _ & Ho).
  unfold forget_outcome in Ho. fold c' in Ho. unfold records. rewrite Hq.
  destruct (is_nil outs) eqn:En.
  { destruct Ho as [-> ->]. apply is_nil_true in En as ->. split; [done|].
    split; [eexists _, _; split; [done|]; split; [done|]; set_solver|]. done. }
  pose proof (forget_outputs outs ∅ (tables c)) as (H1 & H2 & H3).
  destruct (foldl forget_output (∅, tables c) outs) as [dropped t]. simpl in H1, H2, H3.
  rewrite Ht, Hq in Ho. destruct Ho as (-> & Etab & Eobj). split; [done|]. rewrite Etab.
  assert (∀ p row, outputs t !! p = Some row ↔ outputs (tables c) !! p = Some row ∧ p ∉ generic_string <$> outs) as Hout.
  { intros p row. rewrite H1. case_decide; naive_solver. }
  assert (∀ p, p ∈ dom (outputs (tables c)) → p ∈ generic_string <$> outs ↔ of_string p ∈ outs) as Hnamed.
  { intros p Hp. rewrite list_elem_of_fmap. rewrite Forall_forall in Hst. split.
    - intros (o & -> & Ho). by rewrite Hst.
    - intros Ho. exists (of_string p). split; [|done]. symmetry. by apply (kept_keys _ Hc). }
  split; [|split].
  - eexists _, _. split; [done|]. split; [done|]. intros r. rewrite !elem_of_records. split.
    + intros (p & row & a & [Hp Hn]%Hout & Ha & ->). split.
      * exists p, row, a. split; [done|]. split; [done|]. unfold inputs_of. by rewrite H3.
      * simpl. rewrite <- Hnamed by (by apply elem_of_dom_2 in Hp). done.
    + intros [(p & row & a & Hp & Ha & ->) Hn]. simpl in Hn. rewrite <- Hnamed in Hn by by apply elem_of_dom_2 in Hp.
      exists p, row, a. split; [by apply Hout|]. split; [done|]. unfold inputs_of. by rewrite H3.
  - intros n Hn. rewrite Eobj, decide_False; [done|]. intros (Hd & Hr & _). destruct Hn as [?|Hn]; [done|]. apply Hn.
    apply H2 in Hd as [?%not_elem_of_empty|(p & row & _ & Hp & E)]; [done|]. by exists p, row.
  - intros n (p & row & Hp & E) Hn Hr. rewrite Eobj, decide_True; [done|]. split; [|done]. apply H2. right.
    exists p, row. split; [|done]. apply dec_stable. intros Hx. apply Hn. exists p, row. split; [by apply Hout|done].
Qed.

(** Garbage is what no record names. *)
Lemma garbage_is_what_no_record_names f c (c' := left_by (collect_garbage f) c) :
  well_kept c → querying f = None →
  tables c' = tables c ∧ (∀ n, references n (tables c) → objects c' !! n = objects c !! n) ∧
  ∀ n, ¬ references n (tables c) → unlisted f n = false → removing f n = None → objects c' !! n = None.
Proof.
  intros Hc Hq. destruct (collect_triple f c c Hc eq_refl) as (_ & _ & _ & Ho).
  unfold collect_outcome in Ho. rewrite Hq in Ho. destruct Ho as (_ & Ht & Ho). split; [done|]. split.
  - intros n Hn. fold c' in Ho. rewrite Ho, decide_False; tauto.
  - intros n H1 H2 H3. fold c' in Ho. by rewrite Ho, decide_True.
Qed.

(** One process at a time has a cache open, and the next finds what it left:
    once opened, nothing else opens the directory until it is closed, and then
    opening gives the records and contents left - or no records, if the version
    that wrote them was another. *)
Theorem opened_by_one_at_a_time f d c d' :
  open_cache f d = (Value c, d') →
  held d = false ∧
  tables c = (if decide (user_version d = k_schema_version) then stored_tables d else k_schema) ∧
  objects c = stored_objects d ∧
  (∀ f', ∃ e, (open_cache f' d').1 = Unexpected e) ∧
  (∀ c2 f', creating f' = None → opening f' = None → locking f' = None → preparing f' = None → upgrading f' = None →
     (open_cache f' (close_cache c2 d')).1 = Value {| tables := tables c2; objects := objects c2; next_scratch := 0 |}).
Proof.
  unfold open_cache. destruct (creating f); [done|]. destruct (opening f); [done|]. simpl.
  destruct (held d) eqn:Eh; [done|].
  destruct (locking f), (preparing f), (upgrading f); try done. intros [= <- <-]. simpl.
  split; [done|]. split; [repeat case_decide; done|]. split; [done|]. split.
  - intros f'. destruct (creating f'); [by eexists|]. destruct (opening f'); by eexists.
  - intros c2 f' -> -> -> -> ->. done.
Qed.
End cache.

(** ** The theorems at work *)

Definition ex_digest (b : str) : Z * Z := (Z.of_nat (length b), foldr (λ c z, (Z.of_N (N_of_ascii c) + 31 * z)%Z) 7%Z b).
Definition ex_cached : Command := {| command_output := of_string (lit "out/a.o"); command_action := Run;
  command_text := lit "cc src/a.c" |}.
Definition ex_inputs : list Input :=
  [{| input_path := of_string (lit "src/a.c"); input_mtime := 2; input_size := 3; input_hash := [] |};
   {| input_path := of_string (lit "@/gen/a.h"); input_mtime := 0; input_size := 0; input_hash := lit "aa" |};
   {| input_path := of_string (lit "src/a.c"); input_mtime := 9; input_size := 9; input_hash := [] |}].
Definition ex_empty : BuildCache := {| tables := k_schema; objects := ∅; next_scratch := 0 |}.
Definition ex_stored : BuildCache :=
  left_by (store ex_digest no_faults ex_cached (lit "object") 5 ex_inputs) ex_empty.
Definition ex_disk : Directory := {| user_version := 0; stored_tables := k_schema; stored_objects := ∅; held := false; others := ∅ |}.
Definition ex_no_faults : OpenFaults := {| creating := None; exists_fails := false; marking := None; opening := None;
  locking := None; preparing := None; upgrading := None |}.

Example records_ex :
  (λ r, (generic_string (command_output (record_command r)), (λ i, (generic_string (input_path i), input_mtime i)) <$> record_inputs r)) <$>
    default [] (records no_faults ex_stored) =
  [(lit "out/a.o", [(lit "src/a.c", 2%Z); (lit "@/gen/a.h", 0%Z)])].
Proof. vm_compute. reflexivity. Qed.
Example read_ex : read ex_digest no_faults ex_stored (hash ex_digest (lit "object")) = Value (lit "object") ∧
  hash ex_digest (lit "ab") = lit "00000000000000020000000000002686" ∧ elements (dom (objects ex_stored)) = [hash ex_digest (lit "object")].
Proof. split_and!; vm_compute; reflexivity. Qed.

Lemma ex_cached_storable : storable (command_output ex_cached).
Proof. vm_compute. reflexivity. Qed.
Lemma ex_inputs_storable : Forall (λ i, storable (input_path i)) ex_inputs.
Proof. repeat constructor; vm_compute; reflexivity. Qed.
Lemma ex_stored_lived : lived ex_digest ex_stored.
Proof. apply lived_stored; [constructor|apply ex_cached_storable]. Qed.
Lemma ex_empty_well_kept : well_kept ex_digest ex_empty.
Proof. apply lived_well_kept. constructor. Qed.

Lemma hashes_are_safe_names_witness :
  let xxh3 b := (Z.of_nat (length b) * 2 ^ 64, 0)%Z in
  is_hash (hash xxh3 (lit "a")) = true ∧ ((xxh3 (lit "a")).1 `mod` 2 ^ 64 = (xxh3 (lit "bb")).1 `mod` 2 ^ 64)%Z.
Proof.
  intros xxh3. destruct (hashes_are_safe_names xxh3 (lit "a") (lit "bb")) as [H1 H2].
  split; [exact H1|]. apply H2. vm_compute. reflexivity.
Defined.

Lemma stored_is_read_back_witness :
  result_of (store ex_digest no_faults ex_cached (lit "object") 5 ex_inputs) ex_empty =
    Value (hash ex_digest (lit "object")) ∧
  read ex_digest no_faults ex_stored (hash ex_digest (lit "object")) = Value (lit "object").
Proof.
  destruct (stored_is_read_back ex_digest no_faults ex_cached (lit "object") 5 ex_inputs ex_empty
    ex_empty_well_kept ex_cached_storable ex_inputs_storable eq_refl eq_refl eq_refl eq_refl eq_refl) as (H1 & H2 & _).
  split; [exact H1|exact H2].
Defined.

Definition ex_record : CacheRecord := {| record_command := ex_cached; record_hash := hash ex_digest (lit "object");
  record_mtime := 5; record_inputs := take 2 ex_inputs |}.
Lemma ex_stored_records : records no_faults ex_stored = Some [ex_record].
Proof. vm_compute. reflexivity. Qed.

Lemma every_record_has_its_content_witness :
  ∃ b, hash ex_digest b = record_hash ex_record ∧ read ex_digest no_faults ex_stored (record_hash ex_record) = Value b.
Proof.
  destruct (every_record_has_its_content ex_digest no_faults ex_stored [ex_record] ex_stored_lived ex_stored_records
    ex_record ltac:(left)) as (b & H1 & _ & H2).
  exists b. split; [exact H1|apply H2; reflexivity].
Defined.



Lemma forgetting_is_exact_witness :
  result_of (forget no_faults [command_output ex_cached]) ex_stored = Value () ∧
  objects (left_by (forget no_faults [command_output ex_cached]) ex_stored) !! hash ex_digest (lit "object") = None.
Proof.
  destruct (forgetting_is_exact ex_digest no_faults [command_output ex_cached] ex_stored) as (Hr & _ & _ & Ho).
  - apply lived_well_kept, ex_stored_lived.
  - constructor; [apply ex_cached_storable|constructor].
  - reflexivity.
  - reflexivity.
  - split; [exact Hr|]. apply Ho.
    + apply (bool_decide_unpack (references _ _)). vm_compute. exact I.
    + apply (proj1 (bool_decide_eq_false (references _ _))). vm_compute. reflexivity.
    + reflexivity.
Defined.

Lemma opened_by_one_at_a_time_witness :
  ∃ c d, open_cache ex_no_faults ex_disk = (Value c, d) ∧ (∃ e, (open_cache ex_no_faults d).1 = Unexpected e) ∧
    (open_cache ex_no_faults (close_cache ex_stored d)).1 =
      Value {| tables := tables ex_stored; objects := objects ex_stored; next_scratch := 0 |}.
Proof.
  eexists _, _. split; [reflexivity|].
  match goal with |- (∃ e, (open_cache _ ?d).1 = _) ∧ _ =>
    destruct (opened_by_one_at_a_time ex_no_faults ex_disk ex_empty d eq_refl) as (_ & _ & _ & H1 & H2) end.
  split; [apply H1|apply H2; reflexivity].
Defined.
