(* ===== verification/KeepSpec.v ===== *)
(** * From one run to the next

    What [keep_in_cache] stores in a build cache is what [restore_from_cache] then
    serves, just if nothing it was built from has changed. *)

From S2P Require Export BuildTreeSpec BuildCacheSpec.

Lemma records_by_output_unique l record :
  record ∈ l → (∀ r, r ∈ l → record_output r = record_output record → r = record) →
  records_by_output l !! record_output record = Some record.
Proof.
  unfold records_by_output. intros Hin Huniq.
  assert (∀ l m, (∀ r, r ∈ l → record_output r = record_output record → r = record) →
    (m !! record_output record = Some record ∨ m !! record_output record = None ∧ record ∈ l) →
    foldl (λ m (r : CacheRecord), emplace (command_output (record_command r)) r m) m l !! record_output record = Some record)
    as Hgen.
  { clear. induction l as [|r l IH]; intros m Hu [Hm|[Hm Hin]]; [done|by apply elem_of_nil in Hin|..]; simpl;
      (apply IH; [intros r' Hr'; apply Hu; by right|]); rewrite lookup_emplace; fold (record_output r); rewrite Hm; [by left|].
    case_decide as E.
    - left. by rewrite (Hu r) by (left || done).
    - right. split; [done|]. apply elem_of_cons in Hin as [->|?]; done. }
  apply Hgen; [done|]. right. by rewrite lookup_empty.
Qed.

Lemma elem_of_stamp_outputs hashes l os :
  stamp_outputs hashes l = Some os → ∀ i, i ∈ os ↔ ∃ input read hash, input ∈ l ∧ output_named_by input = Some read ∧
    hashes !! read = Some hash ∧ i = {| input_path := input; input_mtime := 0; input_size := 0; input_hash := hash |}.
Proof.
  revert os. induction l as [|input l IH]; intros os; simpl.
  { intros [= <-] i. split; [by intros ?%elem_of_nil|]. by intros (? & ? & ? & ?%elem_of_nil & _). }
  destruct (output_named_by input) as [read|] eqn:En.
  - destruct (hashes !! read) as [h|] eqn:Eh; simpl; [|done]. destruct (stamp_outputs hashes l) as [os'|]; simpl; [|done].
    intros [= <-] i. rewrite elem_of_cons, (IH os' eq_refl). setoid_rewrite elem_of_cons. split.
    + intros [->|(x & r & y & ? & ? & ? & ?)]; [exists input, read, h|exists x, r, y]; auto.
    + intros (x & r & y & [->|?] & Hr & Hy & ->); [left; congruence|right; by exists x, r, y].
  - intros E i. rewrite (IH os E). setoid_rewrite elem_of_cons. split.
    + intros (x & r & y & ? & ?). exists x, r, y. auto.
    + intros (x & r & y & [->|?] & Hr & ?); [congruence|by exists x, r, y].
Qed.

Lemma elem_of_stamp_sources {T} `{DirectoryTree T} (source : T) l ss :
  stamp_sources source l = Some ss →
  ∀ i, i ∈ ss ↔ ∃ input, input ∈ l ∧ output_named_by input = None ∧ stamp_source source input = Some i.
Proof.
  revert ss. induction l as [|input l IH]; intros ss; simpl.
  { intros [= <-] i. split; [by intros ?%elem_of_nil|]. by intros (? & ?%elem_of_nil & _). }
  destruct (output_named_by input) as [read|] eqn:En.
  - intros E i. rewrite (IH ss E). setoid_rewrite elem_of_cons. split.
    + intros (x & ? & ?). exists x. auto.
    + intros (x & [->|?] & ? & ?); [congruence|by exists x].
  - destruct (stamp_source source input) as [st|] eqn:Es; simpl; [|done]. destruct (stamp_sources source l) as [ss'|]; simpl; [|done].
    intros [= <-] i. rewrite elem_of_cons, (IH ss' eq_refl). setoid_rewrite elem_of_cons. split.
    + intros [->|(x & ? & ? & ?)]; [by exists input; auto|exists x; auto].
    + intros (x & [->|?] & ? & ?); [left; congruence|right; by exists x].
Qed.

Lemma stamp_outputs_all hashes l os input read :
  stamp_outputs hashes l = Some os → input ∈ l → output_named_by input = Some read → is_Some (hashes !! read).
Proof.
  revert os. induction l as [|x l IH]; intros os E Hin Hn; [by apply elem_of_nil in Hin|]. simpl in E.
  apply elem_of_cons in Hin as [->|Hin].
  - rewrite Hn in E. destruct (hashes !! read); [by eexists|done].
  - destruct (output_named_by x) as [r|]; [destruct (hashes !! r); [|done]; simpl in E; destruct (stamp_outputs hashes l); [|done]|];
      by eapply IH.
Qed.

Lemma stamp_sources_all {T} `{DirectoryTree T} (source : T) l ss input :
  stamp_sources source l = Some ss → input ∈ l → output_named_by input = None → is_Some (stamp_source source input).
Proof.
  revert ss. induction l as [|x l IH]; intros ss E Hin Hn; [by apply elem_of_nil in Hin|]. simpl in E.
  apply elem_of_cons in Hin as [->|Hin].
  - rewrite Hn in E. destruct (stamp_source source x); [by eexists|done].
  - destruct (output_named_by x) as [r|]; [by eapply IH|]. destruct (stamp_source source x); [|done]. simpl in E.
    destruct (stamp_sources source l); [|done]. by eapply IH.
Qed.

Lemma stamp_source_path {T} `{DirectoryTree T} (source : T) p i : stamp_source source p = Some i → input_path i = p.
Proof. unfold stamp_source. destruct (status source p) as [[f|d]|e]; [| |done]; by intros [= <-]. Qed.

Lemma first_by_path_paths l : ∀ acc,
  (∀ i, i ∈ foldl keep_first acc l → i ∈ acc ∨ i ∈ l) ∧
  (∀ i, i ∈ acc ∨ i ∈ l → ∃ j, j ∈ foldl keep_first acc l ∧ input_path j = input_path i).
Proof.
  induction l as [|x l IH]; intros acc; simpl.
  - split; [by left|]. intros i [?|?%elem_of_nil]; [by exists i|done].
  - destruct (IH (keep_first acc x)) as [H1 H2]. split.
    + intros i [Hi|?]%H1; [|right; by right]. unfold keep_first in Hi. case_decide; [by left|].
      apply elem_of_app in Hi as [?| ->%list_elem_of_singleton]; [by left|right; left].
    + intros i Hi. unfold keep_first in *. case_decide as Hx.
      * destruct Hi as [?|[->|?]%elem_of_cons]; [apply H2; by left| |apply H2; by right].
        apply list_elem_of_fmap in Hx as (y & Hp & Hy). rewrite Hp. apply H2. by left.
      * apply H2. rewrite elem_of_app, list_elem_of_singleton. rewrite elem_of_cons in Hi. tauto.
Qed.

Section keep.
Context (xxh3 : str → Z * Z) {T : Type} `{DirectoryTree T}.
#[local] Instance kept_Cache : Cache BuildCache := BuildCache_Cache xxh3 no_faults.

(** What holds of the inputs of a kept build at a later run: the source files it
    read have the stamps they had, and the outputs it read hold too, with the
    content it read. *)
Definition unchanged (before after : T) (s : BuildTree.Impl (C := BuildCache)) (keep : Keep) (holds_still : path → Prop)
    (l : list CacheRecord) : Prop :=
  (∀ input, input ∈ keep_inputs keep → output_named_by input = None →
     stamp_source after input = stamp_source before input) ∧
  ∀ input read, input ∈ keep_inputs keep → output_named_by input = Some read →
    holds_still read ∧ ∃ r, records_by_output l !! read = Some r ∧ m_hashes s !! read = Some (record_hash r).

(** C26. A build that is kept is restored just if nothing has changed. Given a cache
    that works, once a build is kept, a later run finds that its output holds - and
    serves it without building - exactly when its rule is in force as it was, every
    source file and directory it read is stamped as it was, and every output it
    read holds too with the content it read. *)
Theorem kept_builds_are_restored (before after : T) s c out content keep c' l commands
    (o := command_output (keep_command keep)) (holds_still := valid after c' (records_by_output l) commands) :
  well_kept xxh3 c → m_cache s = Some c → storable o → Forall storable (keep_inputs keep) →
  command_action (keep_command keep) ≠ Tracing →
  is_Some (check_keep out keep s) → is_Some (stamp_sources before (keep_inputs keep)) →
  m_cache (store_in_cache before out content keep (check_keep out keep s) s) = Some c' → Cache.records c' = Some l →
  holds_still o ↔ commands !! o = Some (keep_command keep) ∧ unchanged before after s keep holds_still l.
Proof.
  intros Hc Hcs Hst Hins Hact [os Eos] [ss Ess] Hc' Hl. unfold store_in_cache in Hc'. rewrite Hcs, Eos in Hc'. cbn in Hc'.
  rewrite Ess in Hc'. cbn in Hc'. injection Hc' as <-.
  unfold check_keep in Eos. case_decide; [|done].
  pose proof (elem_of_stamp_outputs _ _ _ Eos) as Hos. pose proof (elem_of_stamp_sources _ _ _ Ess) as Hss.
  assert (Forall (λ i, storable (input_path i)) (os ++ ss)) as Hstore.
  { apply Forall_forall. rewrite Forall_forall in Hins. intros i [Hi|Hi]%elem_of_app.
    - apply Hos in Hi as (x & read & h & Hx & _ & _ & ->). by apply Hins.
    - apply Hss in Hi as (x & Hx & _ & Es). apply stamp_source_path in Es as ->. by apply Hins. }
  pose proof (stored_spec xxh3 no_faults (keep_command keep) content (keep_mtime keep) (os ++ ss) c
    Hc Hst Hstore eq_refl eq_refl eq_refl eq_refl eq_refl) as (_ & Hread & l0 & l1 & _ & El1 & Hrec).
  match type of Hl with Cache.records ?x = _ => set (c' := x) in * end.
  assert (l1 = l) as -> by (change (Cache.records c') with (records no_faults c') in Hl; congruence).
  set (record := {| record_command := keep_command keep; record_hash := hash xxh3 content; record_mtime := keep_mtime keep;
                    record_inputs := first_by_path (os ++ ss) |}) in *.
  assert (records_by_output l !! o = Some record) as Hlook.
  { change o with (record_output record). apply records_by_output_unique; [apply Hrec; by left|].
    intros r [->|[_ Hne]]%Hrec Ho; [done|]. by destruct Hne. }
  destruct (first_by_path_paths (os ++ ss) []) as [Hkept Hpaths].
  assert (∀ i, i ∈ record_inputs record → i ∈ os ∨ i ∈ ss) as Hin.
  { intros i [?%elem_of_nil|?%elem_of_app]%Hkept; done. }
  assert (∀ i, i ∈ os ∨ i ∈ ss → ∃ j, j ∈ record_inputs record ∧ input_path j = input_path i) as Hback.
  { intros i Hi. apply Hpaths. right. by apply elem_of_app. }
  split.
  - intros Hv. destruct (valid_inv _ _ _ _ _ Hv) as (record' & b & Hr' & Hcmd & _ & Hv1 & Hv2 & Hv3 & _).
    assert (record' = record) as -> by congruence. split; [done|]. split.
    + intros input Hi Hn. destruct (stamp_sources_all before _ _ _ Ess Hi Hn) as [i Hs].
      destruct (Hback i) as (j & Hj & Ep); [right; apply Hss; by exists input|].
      pose proof (stamp_source_path _ _ _ Hs) as Ei. rewrite Ei in Ep. rewrite <- Ep in Hn.
      rewrite <- Ep at 1. rewrite (Hv3 j Hj Hn). rewrite Ep in Hn. apply Hin in Hj as [Hj|Hj].
      * apply Hos in Hj as (x & r & y & _ & Hx & _ & ->). simpl in Ep. congruence.
      * apply Hss in Hj as (x & _ & _ & Hx). pose proof (stamp_source_path _ _ _ Hx). congruence.
    + intros input read Hi Hn. destruct (stamp_outputs_all _ _ _ _ _ Eos Hi Hn) as [h Hh].
      destruct (Hback {| input_path := input; input_mtime := 0; input_size := 0; input_hash := h |}) as (j & Hj & Ep).
      { left. apply Hos. by exists input, read, h. }
      simpl in Ep. rewrite <- Ep in Hn. split; [by eapply Hv1|]. destruct (Hv2 j read Hj Hn) as (r & Hr & Eh). exists r.
      split; [done|]. rewrite Eh, Hh. f_equal. rewrite Ep in Hn. apply Hin in Hj as [Hj|Hj].
      * apply Hos in Hj as (x & r' & y & _ & Hx & Hy & ->). simpl in *. congruence.
      * apply Hss in Hj as (x & _ & Hx & Hs). pose proof (stamp_source_path _ _ _ Hs). congruence.
  - intros (Hcmd & Hsame & Hread').
    apply (valid_record after c' (records_by_output l) commands o record (keep_command keep) content); [done..| | | |].
    + intros i read [Hj|Hj]%Hin Hn.
      * apply Hos in Hj as (x & r & y & Hx & Hr & _ & ->). simpl in Hn. by eapply Hread'.
      * apply Hss in Hj as (x & _ & Hx & Hs). apply stamp_source_path in Hs. congruence.
    + intros i read [Hj|Hj]%Hin Hn.
      * apply Hos in Hj as (x & r & y & Hx & Hr & Hy & ->). simpl in Hn. destruct (Hread' x read Hx Hn) as (_ & r' & Hr' & Eh).
        exists r'. split; [done|]. simpl. congruence.
      * apply Hss in Hj as (x & _ & Hx & Hs). apply stamp_source_path in Hs. congruence.
    + intros i [Hj|Hj]%Hin Hn.
      * apply Hos in Hj as (x & r & y & Hx & Hr & Hy & ->). simpl in Hn. congruence.
      * apply Hss in Hj as (x & Hx & Hn' & Hs). pose proof (stamp_source_path _ _ _ Hs) as ->. by rewrite Hsame.
    + exact Hread.
Qed.
End keep.
