(* ===== verification/BuildTreeEx.v ===== *)
(** * The build tree and its cache at work

    The theorems about the tree applied to a source, a cache that [BuildCache]
    keeps, and an open of an output under way. *)

From S2P Require Export BuildTreeSpec BuildCacheSpec KeepSpec.
From S2P Require BuildTreeRun.

#[local] Instance ex_Cache : Cache BuildCache := BuildCache_Cache ex_digest no_faults.

Definition no_text (e : error_code) : str := [].

(** The cache knows of [out/a.o], and that it read [src/a.c]. *)
Definition ex_cache : BuildCache :=
  left_by (BuildCache.store ex_digest no_faults ex_cached (lit "object") 5 (take 1 ex_inputs)) ex_empty.
Definition ex_kept : CacheRecord := {| record_command := ex_cached; record_hash := hash ex_digest (lit "object");
  record_mtime := 5; record_inputs := take 1 ex_inputs |}.

Definition ex_rules : list Rule := manifest_rules (parse ex_manifest).
Definition ex_tree : BuildTree.Impl (C := BuildCache) :=
  match construct no_text 100 (Some ex_cache) ex_source with
  | Some (Value s) => s
  | _ => BuildTree.empty None
  end.

Lemma ex_construct : construct no_text 100 (Some ex_cache) ex_source = Some (Value ex_tree).
Proof.
  unfold ex_tree.
  assert (match construct no_text 100 (Some ex_cache) ex_source with Some (Value _) => true | _ => false end = true) as Hb
    by (vm_compute; reflexivity).
  destruct (construct _ _ _ _) as [[s|e]|]; [done|discriminate Hb|discriminate Hb].
Qed.

Definition tame_check (r : Rule) : bool :=
  negb (is_wildcard r) ||
  existsb (λ c, bool_decide (c ≠ "."%char))
    (Manifest.prefix (name_pattern (filename (output r))) ++ Manifest.suffix (name_pattern (filename (output r)))).

Lemma tame_checked r : tame_check r = true → tame r.
Proof.
  unfold tame_check. intros H Hw. rewrite Hw in H. apply existsb_exists in H as (c & Hin & Hc).
  exists c. split; [by apply list_elem_of_In|by apply bool_decide_eq_true in Hc].
Qed.

Lemma ex_read_rules : read_rules no_text ex_source = Some (Value ex_rules).
Proof. vm_compute. reflexivity. Qed.
Lemma ex_rules_tame : forallb tame_check ex_rules = true.
Proof. vm_compute. reflexivity. Qed.

Lemma tame_source_checked source rules :
  well_formed source → read_rules no_text source = Some (Value rules) → forallb tame_check rules = true →
  tame_source well_formed no_text source.
Proof.
  intros Hok E Hall. split; [done|]. intros rs r Hrs Hr. assert (rs = rules) as -> by congruence.
  rewrite forallb_forall in Hall. by apply tame_checked, Hall, list_elem_of_In.
Qed.

Lemma ex_source_tame : tame_source well_formed no_text ex_source.
Proof. exact (tame_source_checked _ _ ex_source_well_formed ex_read_rules ex_rules_tame). Qed.

(** Someone opens [bin/a.gz], which has to be built: the open waits for its
    build, which another thread is running. *)
Definition ex_answers : Oracle := {| now := 200; snapshot := None; resolved := None;
  outcome := Value {| output_bytes := lit "zipped"; output_inputs := [of_string (lit "@/out/a.o")] |};
  refusal := None; early := None; overruled := None |}.
Definition ex_out : path := of_string (lit "bin/a.gz").
Definition ex_events : list (event (T := InMemoryTree.Impl)) :=
  [SomeoneOpens ex_out 0; ThreadStep 0 ex_answers; ThreadStep 0 ex_answers; ThreadStep 0 ex_answers].
Definition ex_world : world (C := BuildCache) (T := InMemoryTree.Impl) :=
  default (start ex_tree ex_source) (run no_text ex_events (start ex_tree ex_source)).

Lemma ex_run : run no_text ex_events (start ex_tree ex_source) = Some ex_world.
Proof.
  unfold ex_world.
  assert (bool_decide (is_Some (run no_text ex_events (start ex_tree ex_source))) = true) as [w E]%bool_decide_eq_true
    by (vm_compute; reflexivity).
  by rewrite E.
Qed.

Lemma ex_world_reachable : reachable well_formed no_text ex_world.
Proof.
  exists 100%Z, (Some ex_cache), ex_source, ex_tree, ex_events. split; [apply ex_source_tame|].
  split; [apply ex_construct|]. split; [by repeat constructor|apply ex_run].
Qed.

Example ex_threads : threads ex_world =
  [[Await 0]; [RunCommand {| build_output := ex_out; build_attempt := 0; build_id := 1 |}]].
Proof. vm_compute. reflexivity. Qed.
Example ex_stale : (λ p, generic_string p) <$> paths_in_order (m_stale (tree ex_world)) =
  [lit "bin/b.gz"; lit "out/b.o"].
Proof. vm_compute. reflexivity. Qed.

Lemma never_stuck_witness :
  proceeds no_text ex_answers (source ex_world) (Await 0) (tree ex_world) ∨
  (∃ a, awaits (Await 0) = Some a ∧ incomplete a (tree ex_world) ∧
     (another ex_world 0 (λ i, a ∈ owed i) ∨
      (∃ out att, m_attempts (tree ex_world) !! out = Some att ∧ next att = Some a ∧
         another ex_world 0 (λ i, out ∈ builds i)) ∨
      copies_itself (Await 0) a (tree ex_world))) ∨
  (locks (Await 0) = true ∧ ∃ k b content keep stamps rest',
     k ≠ 0 ∧ all_threads ex_world !! k = Some (StoreInCache b content keep stamps :: rest')).
Proof.
  apply (never_stuck well_formed no_text ex_world 0 (Await 0) [] ex_answers); [apply ex_world_reachable|].
  unfold all_threads. rewrite ex_threads. reflexivity.
Defined.

Lemma attempts_complete_once_witness :
  seq 0 (length (created (m_coordinator (tree ex_world)))) ≡ₚ
    (completed (m_coordinator (tree ex_world))).*1 ++ (pending ex_world ≫= owed) ++ nexts (m_attempts (tree ex_world)) ∧
  (pending ex_world ≫= builds) = [ex_out].
Proof.
  split; [|vm_compute; reflexivity].
  exact (proj1 (attempts_complete_once well_formed no_text ex_world ex_world_reachable)).
Defined.

Lemma canonical_checked p :
  bool_decide (root_directory p = false) &&
  forallb (λ n, bool_decide (n ≠ []) && bool_decide (n ≠ dot) && bool_decide (n ≠ dot_dot) && bool_decide (slash ∉ n))
    (names p) = true → canonical p.
Proof.
  intros [H1%bool_decide_eq_true H2]%andb_prop. split; [done|]. rewrite forallb_forall in H2. apply Forall_forall.
  intros n Hn%list_elem_of_In%H2. rewrite !andb_true_iff, !bool_decide_eq_true in Hn. unfold is_name. tauto.
Qed.

Lemma ex_out_canonical : canonical ex_out.
Proof. apply canonical_checked. vm_compute. reflexivity. Qed.

Lemma tree_shows_the_declared_witness : ∃ i, status (m_structure (tree ex_world)) ex_out = Value (AFile i).
Proof.
  apply (tree_shows_the_declared well_formed no_text ex_world ex_world_reachable ex_out).
  - exact ex_out_canonical.
  - apply elem_of_dom. apply (bool_decide_eq_true (is_Some _)). vm_compute. reflexivity.
Defined.

Lemma dependents_are_the_readers_witness :
  ∃ inputs, m_dependencies (tree ex_world) !! of_string (lit "out/a.o") = Some inputs ∧ of_string (lit "src/a.c") ∈ inputs.
Proof.
  apply (dependents_are_the_readers well_formed no_text ex_world ex_world_reachable).
  apply (bool_decide_eq_true (_ ∈ _)). vm_compute. reflexivity.
Defined.

Lemma opens_wait_for_the_right_build_witness :
  ∃ target launch s', bring_up_to_date ex_out (tree ex_world) = Some (target, launch, s') ∧ launch = None ∧
    ∃ i a, i ∈ pending ex_world ∧ build_pair i = Some (ex_out, a) ∧ target = Some a.
Proof.
  destruct (opens_wait_for_the_right_build well_formed no_text ex_world ex_out ex_world_reachable)
    as (target & launch & s' & E & _ & Hcur & _).
  exists target, launch, s'. split; [exact E|]. apply Hcur.
  - apply elem_of_dom. apply (bool_decide_eq_true (is_Some _)). vm_compute. reflexivity.
  - apply (bool_decide_eq_true (_ ∈ _)). vm_compute. reflexivity.
  - apply (bool_decide_eq_false (_ ∈ _)). vm_compute. reflexivity.
Defined.

(** Before anything is restored. *)
Definition ex_unrestored : BuildTree.Impl (C := BuildCache) :=
  default (BuildTree.empty None) (take_rules 100 ex_source ex_rules (BuildTree.empty (Some ex_cache))).

Lemma ex_unrestored_taken :
  take_rules 100 ex_source ex_rules (BuildTree.empty (Some ex_cache)) = Some ex_unrestored.
Proof.
  unfold ex_unrestored.
  assert (bool_decide (is_Some (take_rules 100 ex_source ex_rules (BuildTree.empty (Some ex_cache)))) = true)
    as [w E]%bool_decide_eq_true by (vm_compute; reflexivity).
  by rewrite E.
Qed.

Lemma taken_in_line t source rules cache (s : BuildTree.Impl (C := BuildCache)) :
  tame_source well_formed no_text source → read_rules no_text source = Some (Value rules) →
  take_rules t source rules (BuildTree.empty cache) = Some s → in_line s.
Proof.
  intros Hsrc Hr Ht. destruct (take_rules_total well_formed no_text t source rules cache Hsrc) as (s' & E & Hs).
  - by eapply read_rules_sound.
  - assert (s' = s) as -> by congruence. apply Hs.
Qed.

Lemma ex_unrestored_in_line : in_line ex_unrestored.
Proof. exact (taken_in_line _ _ _ _ _ ex_source_tame ex_read_rules ex_unrestored_taken). Qed.

Definition ex_left : BuildCache := default ex_empty (m_cache ex_unrestored).
Lemma ex_left_there : m_cache ex_unrestored = Some ex_left.
Proof.
  unfold ex_left. assert (match m_cache ex_unrestored with Some _ => true | None => false end = true) as Hb
    by (vm_compute; reflexivity).
  destruct (m_cache ex_unrestored); [done|discriminate Hb].
Qed.

Lemma ex_left_records : Cache.records ex_left = Some [ex_kept].
Proof. vm_compute. reflexivity. Qed.

Lemma ex_kept_input input : input ∈ record_inputs ex_kept →
  input = {| input_path := of_string (lit "src/a.c"); input_mtime := 2; input_size := 3; input_hash := [] |}.
Proof. change (record_inputs ex_kept) with (take 1 ex_inputs). simpl. apply list_elem_of_singleton. Qed.
Lemma ex_kept_source : output_named_by (of_string (lit "src/a.c")) = None.
Proof. vm_compute. reflexivity. Qed.
Lemma ex_kept_recorded : records_by_output [ex_kept] !! of_string (lit "out/a.o") = Some ex_kept.
Proof. vm_compute. reflexivity. Qed.
Lemma ex_kept_command : m_commands ex_unrestored !! of_string (lit "out/a.o") = Some ex_cached.
Proof. vm_compute. reflexivity. Qed.
Lemma ex_kept_stamp : stamp_source ex_source (of_string (lit "src/a.c")) =
  Some {| input_path := of_string (lit "src/a.c"); input_mtime := 2; input_size := 3; input_hash := [] |}.
Proof. vm_compute. reflexivity. Qed.
Lemma ex_kept_content : read_content ex_left (record_hash ex_kept) = Value (lit "object").
Proof. vm_compute. reflexivity. Qed.

Lemma ex_kept_valid :
  valid ex_source ex_left (records_by_output [ex_kept]) (m_commands ex_unrestored) (of_string (lit "out/a.o")).
Proof.
  refine (valid_record _ _ _ _ _ ex_kept ex_cached (lit "object") ex_kept_recorded ex_kept_command _ eq_refl _ _ _
    ex_kept_content).
  - discriminate.
  - intros input read -> %ex_kept_input E. cbn [input_path] in E. rewrite ex_kept_source in E. discriminate E.
  - intros input read -> %ex_kept_input E. cbn [input_path] in E. rewrite ex_kept_source in E. discriminate E.
  - intros input -> %ex_kept_input _. exact ex_kept_stamp.
Qed.

Lemma restored_is_what_holds_witness :
  ∃ s', restore_from_cache ex_source ex_unrestored = Some s' ∧ of_string (lit "out/a.o") ∉ m_stale s' ∧
    ∃ content, m_entries (m_structure s') !! of_string (lit "out/a.o") = Some (file_node content 5).
Proof.
  destruct (restored_is_what_holds ex_source ex_left [ex_kept] ex_unrestored) as (s' & E & Hs & Hr & _).
  - apply ex_unrestored_in_line.
  - apply ex_left_there.
  - apply ex_left_records.
  - apply NoDup_singleton.
  - exists s'. split; [exact E|]. split.
    + intros [_ Hn]%Hs. exact (Hn ex_kept_valid).
    + destruct (Hr ex_kept ltac:(left) ex_kept_valid) as (content & _ & Hc). exists content. exact Hc.
Defined.

(** A build of [out/a.o] kept, and restored from the same source. *)
Definition ex_keep : Keep := {| keep_command := ex_cached; keep_inputs := [of_string (lit "src/a.c")]; keep_mtime := 5;
  keep_invalidations := 0 |}.
Definition ex_keeping : BuildTree.Impl (C := BuildCache) := BuildTree.empty (Some ex_empty).

Lemma ex_keep_checked : check_keep (of_string (lit "out/a.o")) ex_keep ex_keeping = Some [].
Proof. vm_compute. reflexivity. Qed.
Lemma ex_keep_stamped : stamp_sources ex_source (keep_inputs ex_keep) = Some (take 1 ex_inputs).
Proof. vm_compute. reflexivity. Qed.
Lemma ex_keep_stored :
  m_cache (store_in_cache ex_source (of_string (lit "out/a.o")) (lit "object") ex_keep
    (check_keep (of_string (lit "out/a.o")) ex_keep ex_keeping) ex_keeping) = Some ex_cache.
Proof. rewrite ex_keep_checked. unfold store_in_cache. rewrite ex_keep_stamped. reflexivity. Qed.
Lemma ex_cache_records : Cache.records ex_cache = Some [ex_kept].
Proof. vm_compute. reflexivity. Qed.
Lemma ex_keep_source input read : input ∈ keep_inputs ex_keep → output_named_by input = Some read → False.
Proof. intros ->%list_elem_of_singleton E. rewrite ex_kept_source in E. discriminate E. Qed.

Lemma kept_builds_are_restored_witness :
  valid ex_source ex_cache (records_by_output [ex_kept]) {[of_string (lit "out/a.o") := ex_cached]} (of_string (lit "out/a.o")).
Proof.
  apply (kept_builds_are_restored ex_digest ex_source ex_source ex_keeping ex_empty (of_string (lit "out/a.o")) (lit "object")
    ex_keep ex_cache [ex_kept] {[of_string (lit "out/a.o") := ex_cached]}).
  - exact ex_empty_well_kept.
  - reflexivity.
  - exact ex_cached_storable.
  - apply Forall_singleton. vm_compute. reflexivity.
  - discriminate.
  - rewrite ex_keep_checked. by eexists.
  - rewrite ex_keep_stamped. by eexists.
  - exact ex_keep_stored.
  - exact ex_cache_records.
  - split; [apply lookup_singleton_eq|]. split; [reflexivity|].
    intros input read Hi Hn. destruct (ex_keep_source input read Hi Hn).
Defined.
