(* ===== verification/ShellRunner.v ===== *)
(** * The shell runner (src/shellrunner.hpp, src/shellrunner.cpp)

    How a rule is carried out: the text the shell is given, the scratch directory
    it writes in, and the result its build has. The file system and the process
    are an environment; what a run does to the world is logged in order. *)

From S2P Require Export BuildTree.

(** ** The text of a command *)

Definition k_out_placeholder : str := lit "%out".
Definition k_generated_word : str := lit "@/".
Definition k_word_enders : str := quote2 :: quote1 :: lit "<>|;&()".
Definition preferred_separator : ascii := slash.

Definition is_blank (c : ascii) : bool :=
  bool_decide (c = " "%char) || bool_decide (c = ascii_of_N 9) || bool_decide (c = ascii_of_N 13) ||
  bool_decide (c = newline).

(** [std::string_view::find] of a string: where it first occurs. *)
Fixpoint find_str (needle s : str) : option nat :=
  if starts_with needle s then Some 0
  else match s with [] => None | _ :: s' => S <$> find_str needle s' end.

(** The loop of [substitute_out], from [pos] on. *)
Fixpoint substitute_loop (fuel : nat) (replacement rest : str) : option str :=
  match fuel with
  | 0 => None
  | S fuel' =>
      match find_str k_out_placeholder rest with
      | None => Some rest
      | Some found =>
          result ← substitute_loop fuel' replacement (drop (found + length k_out_placeholder) rest);
          Some (take found rest ++ replacement ++ result)
      end
  end.

Definition quoted (s : str) : str := quote2 :: s ++ [quote2].

Definition substitute_out (command : str) (out_path : path) : option str :=
  substitute_loop (S (length command)) (quoted (generic_string out_path)) command.

(** The characters a [@/] word runs over: to the closing quote, if quoted. *)
Definition in_word (quote : option ascii) (c : ascii) : bool :=
  match quote with
  | Some q => bool_decide (c ≠ q)
  | None => negb (is_blank c) && negb (contains_char c k_word_enders)
  end.

Fixpoint take_while (f : ascii → bool) (s : str) : str :=
  match s with [] => [] | c :: s' => if f c then c :: take_while f s' else [] end.

(** The quote open after [c]. *)
Definition next_quote (quote : option ascii) (c : ascii) : option ascii :=
  match quote with
  | Some q => if decide (c = q) then None else quote
  | None => if bool_decide (c = quote2) || bool_decide (c = quote1) then Some c else None
  end.

(** The path a word stands for. *)
Definition expanded_path (root word : str) : str :=
  root ++ (if is_nil word then []
           else preferred_separator :: ((λ part, if decide (part = slash) then preferred_separator else part) <$> word)).

(** The loop of [expand_generated], from [pos] on. *)
Fixpoint expand_loop (fuel : nat) (root : str) (quote : option ascii) (rest : str) : option str :=
  match rest with
  | [] => Some []
  | c :: rest' =>
      match fuel with
      | 0 => None
      | S fuel' =>
          if negb (starts_with k_generated_word rest)
          then result ← expand_loop fuel' root (next_quote quote c) rest'; Some (c :: result)
          else
            let word := take_while (in_word quote) (drop (length k_generated_word) rest) in
            let path := expanded_path root word in
            result ← expand_loop fuel' root quote (drop (length k_generated_word + length word) rest);
            Some ((if quote then path else quoted path) ++ result)
      end
  end.

Definition mount_root (mountpoint : path) : str :=
  generic_string (if has_filename mountpoint then mountpoint else parent_path mountpoint).

Definition expand_generated (command : str) (mountpoint : path) : option str :=
  expand_loop (length command) (mount_root mountpoint) None command.

(** ** Paths *)

(** [path::lexically_relative], and [std::filesystem::relative]. *)
Definition depth_of (element : str) : Z :=
  if bool_decide (element = []) || bool_decide (element = dot) then 0
  else if bool_decide (element = dot_dot) then -1 else 1.

Fixpoint mismatch (a b : list str) : list str * list str :=
  match a, b with
  | x :: a', y :: b' => if decide (x = y) then mismatch a' b' else (a, b)
  | _, _ => (a, b)
  end.

Definition element_path (e : str) : path := Path false (if is_nil e then [] else [e]).

Definition lexically_relative (p base : path) : path :=
  if bool_decide (root_directory p ≠ root_directory base) then Path false []
  else
    let '(a, b) := mismatch (path_elements p) (path_elements base) in
    if is_nil a && is_nil b then Path false [dot]
    else
      let n := foldl (λ n e, (n + depth_of e)%Z) 0%Z b in
      if bool_decide (n < 0)%Z then Path false []
      else if bool_decide (n = 0%Z) && bool_decide (default [] (head a) = []) then Path false [dot]
      else foldl append (Path false []) (replicate (Z.to_nat n) (Path false [dot_dot]) ++ (element_path <$> a)).

Section canonical.
Context (weakly_canonical : path → expected error_code path).

Definition relative (p base : path) : expected error_code path :=
  p' ← weakly_canonical p;
  base' ← weakly_canonical base;
  Value (lexically_relative p' base').

Definition relativize_one (canonical_root input : path) : option path :=
  match relative input canonical_root with
  | Unexpected _ => None
  | Value rel =>
      if is_empty rel then None
      else
        let normal := lexically_normal rel in
        if bool_decide (head (path_elements normal) = Some dot_dot) then None else Some normal
  end.

Definition relativize (inputs : list path) (root : path) : list path :=
  let canonical_root := match weakly_canonical root with Value r => r | Unexpected _ => root end in
  omap (relativize_one canonical_root) inputs.
End canonical.

(** ** Scratch directories *)

(** What [std::filesystem::create_directory] comes to: a directory created, one
    there already, or an error. *)
Inductive creation := Created | AlreadyThere | CreationFailed (e : error_code).

(** The loop over the attempts left, each with the number drawn for it. *)
Fixpoint try_candidates (base : path) (draws : list (nat * creation)) : expected error_code path :=
  match draws with
  | [] => Unexpected (make_error_code file_exists)
  | (digits, result) :: draws' =>
      let candidate := base // of_string (lit "makebelieve-build-" ++ show digits) in
      match result with
      | Created => Value candidate
      | AlreadyThere => try_candidates base draws'
      | CreationFailed e => if decide (e ≠ make_error_code file_exists) then Unexpected e else try_candidates base draws'
      end
  end.

Definition k_attempts : nat := 100.

Definition make_temp_directory (base : expected error_code path) (draw : nat → nat * creation) : expected error_code path :=
  base ← base; try_candidates base (draw <$> seq 0 k_attempts).

(** ** Running *)

Inductive file_kind := not_found | is_directory | other_file.

Record ProcessResult := { standard_output : str; exit_status : Z; process_inputs : list path }.

(** What the world gives a run: the system's temporary directory and what
    creating one comes to, the process the text starts, the files as they are
    when read, canonical paths, and the text of errors. *)
Record Environment := {
  temp_directory_path : expected error_code path;
  draw : nat → nat * creation;
  run_process : str → expected error_code ProcessResult;
  contents_of : path → expected error_code str;
  file_status : path → expected error_code file_kind;
  weakly_canonical : path → expected error_code path;
  message : error_code → str;
}.

(** What a run does to the world. *)
Inductive deed := MadeDirectory (p : path) | Ran (text : str) | Printed (bytes : str) | RemovedAll (p : path).

Section run.
Context (env : Environment).

Definition read_file (p : path) : expected error_code str :=
  match contents_of env p with
  | Value contents => Value contents
  | Unexpected e =>
      match file_status env p with
      | Unexpected e' => Unexpected e'
      | Value not_found => Unexpected (make_error_code no_such_file_or_directory)
      | Value is_directory => Unexpected (make_error_code Prelude.is_a_directory)
      | Value other_file => Unexpected e
      end
  end.

Definition report (out : path) (reason : str) : deed :=
  Printed (format [lit "makebelieve: @/"; generic_string out; lit ": "; reason; [newline]]).

(** A [copy] of a source file. *)
Definition copy_file (working_directory : path) (command : Command) : BuildResult * list deed :=
  let source := of_string (command_text command) in
  match read_file (working_directory // source) with
  | Value bytes => (Value {| output_bytes := bytes; output_inputs := [source] |}, [])
  | Unexpected e =>
      (Unexpected {| failure_error := build_error_code copy_source_unreadable; failure_inputs := [source] |},
       [report (command_output command) (format [lit "cannot copy ["; generic_string source; lit "]: "; message env e])])
  end.

(** What a process that ended leaves, its output in [out_path] unless it is captured. *)
Definition collect (working_directory : path) (command : Command) (out_path : option path) (r : ProcessResult)
    : BuildResult * list deed :=
  let ins := relativize (weakly_canonical env) (process_inputs r) working_directory in
  let fail e := Unexpected {| failure_error := e; failure_inputs := ins |} in
  let printed := match out_path with
                 | Some _ => if is_nil (standard_output r) then [] else [Printed (standard_output r)]
                 | None => []
                 end in
  if decide (exit_status r ≠ 0%Z) then (fail (exit_status_error (exit_status r)), printed)
  else
    match out_path with
    | None => (Value {| output_bytes := standard_output r; output_inputs := ins |}, printed)
    | Some p =>
        match read_file p with
        | Value written => (Value {| output_bytes := written; output_inputs := ins |}, printed)
        | Unexpected e =>
            (fail (build_error_code out_not_written),
             printed ++ [report (command_output command)
               (if decide (e = make_error_code no_such_file_or_directory)
                then lit "command exited successfully but wrote nothing to %out"
                else format [lit "command exited successfully but its %out could not be read: "; message env e])])
        end
    end.

Definition run_text (working_directory : path) (command : Command) (out_path : option path) (text : str)
    : BuildResult * list deed :=
  match run_process env text with
  | Unexpected e => (failed e, [Ran text])
  | Value r => let '(result, deeds) := collect working_directory command out_path r in (result, Ran text :: deeds)
  end.

(** [None] would be a loop that does not end. *)
Definition run_shell_command (working_directory mountpoint : path) (command : Command)
    : option (BuildResult * list deed) :=
  match command_action command with
  | Copy => Some (copy_file working_directory command)
  | Capture =>
      text ← expand_generated (command_text command) mountpoint;
      Some (run_text working_directory command None text)
  | _ =>
      match make_temp_directory (temp_directory_path env) (draw env) with
      | Unexpected e => Some (failed e, [])
      | Value scratch =>
          let out_path := scratch // element_path (filename (command_output command)) in
          text ← expand_generated (command_text command) mountpoint;
          text' ← substitute_out text out_path;
          let '(result, deeds) := run_text working_directory command (Some out_path) text' in
          Some (result, MadeDirectory scratch :: deeds ++ [RemovedAll scratch])
      end
  end.
End run.

Example expand_generated_ex :
  expand_generated (lit "cc @/gen/a.c '@/my file' >@/x;echo a@/") (of_string (lit "/mnt/")) =
    Some (format [lit "cc "; quoted (lit "/mnt/gen/a.c"); lit " '/mnt/my file' >"; quoted (lit "/mnt/x"); lit ";echo a"; quoted (lit "/mnt")]).
Proof. vm_compute. reflexivity. Qed.
Example substitute_out_ex :
  substitute_out (lit "cp a %out && echo %out") (of_string (lit "/tmp/o")) =
    Some (format [lit "cp a "; quoted (lit "/tmp/o"); lit " && echo "; quoted (lit "/tmp/o")]).
Proof. vm_compute. reflexivity. Qed.
Example lexically_relative_ex :
  (λ p, generic_string (lexically_relative (of_string (lit p)) (of_string (lit "/a/b")))) <$>
    ["/a/b/c/d"; "/a/x"; "/a/b"; "/"]%string = [lit "c/d"; lit "../x"; lit "."; lit "../.."].
Proof. vm_compute. reflexivity. Qed.
