(* ===== verification/ShellRunnerSpec.v ===== *)
(** * What the shell runner promises

    The text the shell is given says what the rule says, what a build read is
    reported relative to the working directory, and a build's scratch directory
    does not outlive it. *)

From S2P Require Export ShellRunner.

(** ** Finding and replacing [%out] *)

Definition occurs (needle s : str) : Prop := ∃ a b, s = a ++ needle ++ b.

Lemma find_str_Some needle s i :
  find_str needle s = Some i → s = take i s ++ needle ++ drop (i + length needle) s ∧
    ∀ a b, s = a ++ needle ++ b → i ≤ length a.
Proof.
  revert i. induction s as [|c s IH]; intros i; simpl.
  - destruct (starts_with needle []) eqn:E; [|done]. intros [= <-]. apply starts_with_true in E as [t Ht].
    destruct needle; [|done]. split; [done|]. intros; lia.
  - destruct (starts_with needle (c :: s)) eqn:E.
    { intros [= <-]. apply starts_with_true in E as [t Ht]. split; [|intros; lia]. simpl. rewrite Ht at 1.
      by rewrite Ht, drop_app_length. }
    destruct (find_str needle s) as [j|]; simpl; [|done]. intros [= <-]. destruct (IH j eq_refl) as [Hs Hmin].
    split; [simpl; by rewrite <- Hs|]. intros a b Hab. destruct a as [|x a]; simpl in *.
    + exfalso. apply not_true_iff_false in E. apply E. apply starts_with_true. by exists b.
    + injection Hab as _ Hab. specialize (Hmin a b Hab). lia.
Qed.

Lemma find_str_None needle s : find_str needle s = None → ¬ occurs needle s.
Proof.
  induction s as [|c s IH]; simpl.
  - destruct (starts_with needle []) eqn:E; [done|]. intros _ (a & b & Hab).
    apply not_true_iff_false in E. apply E. apply starts_with_true. destruct a; [by exists b|done].
  - destruct (starts_with needle (c :: s)) eqn:E; [done|]. destruct (find_str needle s); [done|].
    intros _ (a & b & Hab). destruct a as [|x a]; simpl in Hab.
    + apply not_true_iff_false in E. apply E. apply starts_with_true. by exists b.
    + injection Hab as _ Hab. apply IH; [done|]. by exists a, b.
Qed.

(** [ps] with [sep] between neighbours. *)
Fixpoint join_str (sep : str) (ps : list str) : str :=
  match ps with [] => [] | [p] => p | p :: ps' => p ++ sep ++ join_str sep ps' end.

Lemma join_str_cons sep p ps : ps ≠ [] → join_str sep (p :: ps) = p ++ sep ++ join_str sep ps.
Proof. by destruct ps. Qed.

Lemma substitute_loop_spec fuel replacement rest :
  length rest < fuel → ∃ ps, ps ≠ [] ∧ rest = join_str k_out_placeholder ps ∧
    Forall (λ p, ¬ occurs k_out_placeholder p) ps ∧ substitute_loop fuel replacement rest = Some (join_str replacement ps).
Proof.
  revert rest. induction fuel as [|fuel IH]; intros rest Hf; [lia|]. cbn [substitute_loop].
  destruct (find_str k_out_placeholder rest) as [i|] eqn:E.
  2: { exists [rest]. split; [done|]. split; [done|]. split; [|done]. apply Forall_singleton. by apply find_str_None. }
  apply find_str_Some in E as [Hs Hmin].
  destruct (IH (drop (i + length k_out_placeholder) rest)) as (ps & Hne & Hrest & Hall & Hr).
  { pose proof (f_equal length Hs) as Hlen. rewrite !length_app in Hlen. change (length k_out_placeholder) with 4 in *. lia. }
  exists (take i rest :: ps). rewrite Hr, !join_str_cons by done. split; [done|]. split; [by rewrite <- Hrest|].
  split; [|done]. apply Forall_cons. split; [|done]. intros (a & b & Hab).
  assert (i ≤ length a) as Hle.
  { apply (Hmin a (b ++ k_out_placeholder ++ drop (i + length k_out_placeholder) rest)). rewrite Hs at 1. rewrite Hab.
    by rewrite <- !app_assoc. }
  pose proof (f_equal length Hab) as Hlen. rewrite length_take, !length_app in Hlen.
  change (length k_out_placeholder) with 4 in *. lia.
Qed.

(** ** Expanding [@/] *)

Definition scan (quote : option ascii) (s : str) : option ascii := foldl next_quote quote s.
Definition is_quote (c : ascii) : Prop := c = quote2 ∨ c = quote1.
Definition quote_state (quote : option ascii) : Prop := match quote with Some q => is_quote q | None => True end.

Lemma scan_app quote s t : scan quote (s ++ t) = scan (scan quote s) t.
Proof. apply foldl_app. Qed.

Lemma next_quote_None c : ¬ is_quote c → next_quote None c = None.
Proof.
  intros Hc. simpl. destruct (bool_decide (c = quote2) || bool_decide (c = quote1)) eqn:E; [|done].
  apply orb_prop in E as [E%bool_decide_eq_true|E%bool_decide_eq_true]; exfalso; apply Hc; [by left|by right].
Qed.

Lemma scan_unquoted s : (∀ c, c ∈ s → ¬ is_quote c) → scan None s = None.
Proof.
  unfold scan. induction s as [|c s IH]; intros Hs; [done|]. cbn [foldl].
  rewrite next_quote_None by (apply Hs; left). apply IH. intros x Hx. apply Hs. by right.
Qed.

Lemma scan_inside q s : q ∉ s → scan (Some q) s = Some q.
Proof.
  unfold scan. induction s as [|c s IH]; intros Hs; [done|]. cbn [foldl]. apply not_elem_of_cons in Hs as [Hne Hs].
  simpl. rewrite decide_False by congruence. by apply IH.
Qed.

Lemma scan_quoted s : quote2 ∉ s → scan None (quoted s) = None.
Proof.
  intros Hs. unfold quoted. change (quote2 :: s ++ [quote2]) with ([quote2] ++ s ++ [quote2]). rewrite !scan_app.
  change (scan None [quote2]) with (Some quote2). by rewrite scan_inside.
Qed.

Lemma next_quote_state quote c : quote_state quote → quote_state (next_quote quote c).
Proof.
  destruct quote as [q|]; simpl; [by case_decide|]. intros _.
  destruct (bool_decide (c = quote2)) eqn:E; simpl; [left; by apply bool_decide_eq_true in E|].
  destruct (bool_decide (c = quote1)) eqn:E2; simpl; [right; by apply bool_decide_eq_true in E2|done].
Qed.

Lemma take_while_all f s : ∀ c, c ∈ take_while f s → f c = true.
Proof.
  induction s as [|x s IH]; intros c; simpl; [by intros ?%elem_of_nil|]. destruct (f x) eqn:E; [|by intros ?%elem_of_nil].
  intros [->|Hc]%elem_of_cons; [done|by apply IH].
Qed.

Lemma take_while_prefix f s : s = take_while f s ++ drop (length (take_while f s)) s.
Proof. induction s as [|x s IH]; simpl; [done|]. destruct (f x); [|done]. simpl. by rewrite <- IH. Qed.

Lemma take_while_stop f w post :
  (∀ c, c ∈ w → f c = true) → (∀ c, head post = Some c → f c = false) → take_while f (w ++ post) = w.
Proof.
  intros Hw Hp. induction w as [|x w IH]; simpl.
  - destruct post as [|c post]; [done|]. simpl. by rewrite (Hp c eq_refl).
  - rewrite (Hw x) by left. f_equal. apply IH. intros c Hc. apply Hw. by right.
Qed.

Lemma in_word_unquoted c : in_word None c = true → ¬ is_quote c.
Proof.
  unfold in_word. intros [_ H]%andb_prop Hc. apply negb_true_iff, contains_char_false in H. apply H.
  destruct Hc as [->| ->]; [left|right; left].
Qed.

Lemma elem_of_expanded c root word :
  c ∈ expanded_path root word → c ∈ root ∨ c = preferred_separator ∨ c ∈ word.
Proof.
  unfold expanded_path. rewrite elem_of_app. intros [?|Hc]; [by left|right]. destruct (is_nil word); [by apply elem_of_nil in Hc|].
  apply elem_of_cons in Hc as [->|(x & -> & Hx)%list_elem_of_fmap]; [by left|]. case_decide; [by left|by right].
Qed.

Definition unquoted_root (root : str) : Prop := ∀ c, c ∈ root → ¬ is_quote c.

(** Expanding [rest], read with [quote] open. *)
Definition expand_from (root : str) (quote : option ascii) (rest : str) : option str :=
  expand_loop (length rest) root quote rest.

Lemma generated_prefix rest : starts_with k_generated_word rest = true → rest = k_generated_word ++ drop 2 rest.
Proof. intros [t ->]%starts_with_true. done. Qed.

Lemma expand_loop_spec fuel root quote rest :
  length rest ≤ fuel → ∃ t, expand_loop fuel root quote rest = Some t ∧ expand_from root quote rest = Some t.
Proof.
  unfold expand_from. revert quote rest. induction fuel as [fuel IH] using lt_wf_ind; intros quote rest Hf.
  destruct rest as [|c rest]; [destruct fuel; by exists []|]. destruct fuel as [|fuel]; [simpl in Hf; lia|].
  cbn [expand_loop length] in *. destruct (negb (starts_with k_generated_word (c :: rest))).
  - destruct (IH fuel ltac:(lia) (next_quote quote c) rest ltac:(lia)) as (t & -> & ->). simpl. by eexists.
  - match goal with |- context [expand_loop fuel root quote ?r] => set (rest' := r) end.
    assert (length rest' ≤ length rest) as Hle.
    { unfold rest'. rewrite length_drop. change (length k_generated_word) with 2. simpl. lia. }
    destruct (IH fuel ltac:(lia) quote rest' ltac:(lia)) as (t & E1 & E2).
    destruct (IH (length rest) ltac:(lia) quote rest' Hle) as (t' & E1' & E2').
    rewrite E1, E1'. assert (t = t') as -> by congruence. simpl. by eexists.
Qed.

Lemma expand_from_char root quote c rest :
  starts_with k_generated_word (c :: rest) = false →
  expand_from root quote (c :: rest) = (cons c) <$> expand_from root (next_quote quote c) rest.
Proof.
  intros E. unfold expand_from at 1. cbn [expand_loop length]. rewrite E. cbn [negb].
  destruct (expand_loop_spec (length rest) root (next_quote quote c) rest (le_n _)) as (t & E1 & E2). by rewrite E1, E2.
Qed.

Definition rendered (root : str) (quote : option ascii) (word : str) : str :=
  if quote then expanded_path root word else quoted (expanded_path root word).

Lemma expand_loop_word fuel root quote rest :
  starts_with k_generated_word rest = true →
  expand_loop (S fuel) root quote rest =
    let word := take_while (in_word quote) (drop (length k_generated_word) rest) in
    result ← expand_loop fuel root quote (drop (length k_generated_word + length word) rest);
    Some (rendered root quote word ++ result).
Proof. intros E. destruct rest as [|c rest]; [done|]. cbn [expand_loop]. by rewrite E. Qed.

Lemma expand_from_word root quote word post :
  (∀ c, c ∈ word → in_word quote c = true) → (∀ c, head post = Some c → in_word quote c = false) →
  expand_from root quote (k_generated_word ++ word ++ post) =
    (app (rendered root quote word)) <$> expand_from root quote post.
Proof.
  intros Hw Hp. unfold expand_from at 1. rewrite length_app.
  change (length k_generated_word + length (word ++ post)) with (S (S (length (word ++ post)))).
  rewrite expand_loop_word by (apply starts_with_true; by exists (word ++ post)).
  rewrite drop_app_length, take_while_stop by done. cbn zeta.
  rewrite Nat.add_comm, <- drop_drop, (drop_app_length k_generated_word), drop_app_length || rewrite <- drop_drop, drop_app_length, drop_app_length.
  destruct (expand_loop_spec (S (length (word ++ post))) root quote post) as (t & -> & ->); [rewrite length_app; lia|].
  done.
Qed.

Lemma scan_word_chars quote word :
  (∀ c, c ∈ word → in_word quote c = true) → quote_state quote → scan quote word = quote.
Proof.
  intros Hw Hq. destruct quote as [q|].
  - apply scan_inside. intros Hin. specialize (Hw q Hin). simpl in Hw. by apply bool_decide_eq_true in Hw.
  - apply scan_unquoted. intros c Hc. by apply in_word_unquoted, Hw.
Qed.

Lemma expanded_unquoted root word :
  unquoted_root root → (∀ c, c ∈ word → in_word None c = true) → ∀ c, c ∈ expanded_path root word → ¬ is_quote c.
Proof.
  intros Hr Hw c Hc. destruct (elem_of_expanded c root word Hc) as [?|[->|?]]; [by apply Hr| |by apply in_word_unquoted, Hw].
  by intros [?|?].
Qed.

Lemma scan_rendered root quote word :
  unquoted_root root → quote_state quote → (∀ c, c ∈ word → in_word quote c = true) →
  scan quote (rendered root quote word) = quote.
Proof.
  intros Hr Hq Hw. destruct quote as [q|]; simpl.
  - apply scan_inside. intros [Hin|[->|Hin]]%elem_of_expanded.
    + by apply (Hr q).
    + by destruct Hq.
    + specialize (Hw q Hin). simpl in Hw. by apply bool_decide_eq_true in Hw.
  - apply scan_quoted. intros Hin. apply (expanded_unquoted root word Hr Hw quote2 Hin). by left.
Qed.

Lemma expand_from_scan n root quote rest :
  length rest ≤ n → unquoted_root root → quote_state quote →
  ∃ t, expand_from root quote rest = Some t ∧ scan quote t = scan quote rest.
Proof.
  revert quote rest. induction n as [|n IH]; intros quote rest Hn Hr Hq.
  { destruct rest; [|simpl in Hn; lia]. by exists []. }
  destruct rest as [|c rest]; [by exists []|].
  destruct (starts_with k_generated_word (c :: rest)) eqn:E.
  - apply generated_prefix in E. set (after := drop 2 (c :: rest)) in E.
    set (word := take_while (in_word quote) after). set (post := drop (length word) after).
    assert (after = word ++ post) as Ha by apply take_while_prefix.
    assert (∀ x, x ∈ word → in_word quote x = true) as Hw by apply take_while_all.
    assert (∀ x, head post = Some x → in_word quote x = false) as Hp.
    { intros x Hx. unfold post, word in Hx. clear -Hx. induction after as [|y after IH]; [done|]. simpl in Hx.
      destruct (in_word quote y) eqn:Ey; simpl in Hx; [by apply IH|]. by injection Hx as <-. }
    rewrite E, Ha, expand_from_word by done.
    destruct (IH quote post) as (t & Et & Hs); [|done|done|].
    { pose proof (f_equal length E) as Hl. rewrite Ha, !length_app in Hl. simpl in Hl, Hn. lia. }
    assert (scan quote k_generated_word = quote) as Hk
      by (destruct quote as [q|]; [destruct Hq as [->| ->]|]; vm_compute; reflexivity).
    rewrite Et. eexists. split; [done|]. rewrite !scan_app, scan_rendered by done. rewrite Hk.
    by rewrite (scan_word_chars quote word Hw Hq).
  - rewrite expand_from_char by done.
    destruct (IH (next_quote quote c) rest) as (t & Et & Hs); [simpl in Hn; lia|done|by apply next_quote_state|].
    rewrite Et. exists (c :: t). split; [done|]. unfold scan in *. simpl. done.
Qed.

(** ** The shell's quotes *)

(** A text that leaves no quote open: characters that are no quotes, and quoted
    strings, each from a quote to the next one like it. In a text without
    backslashes this is how a shell reads it. *)
Inductive outside_quotes : str → Prop :=
  | outside_nil : outside_quotes []
  | outside_char s c : outside_quotes s → ¬ is_quote c → outside_quotes (s ++ [c])
  | outside_quoted s q body :
      outside_quotes s → is_quote q → q ∉ body → outside_quotes (s ++ q :: body ++ [q]).

(** The quote open at the end of [s], if one is. *)
Definition open_quote (s : str) (quote : option ascii) : Prop :=
  match quote with
  | None => outside_quotes s
  | Some q => ∃ pre body, s = pre ++ q :: body ∧ outside_quotes pre ∧ is_quote q ∧ q ∉ body
  end.

Lemma next_quote_opens q : is_quote q → next_quote None q = Some q.
Proof. by intros [->| ->]. Qed.

Lemma outside_scan s : outside_quotes s → scan None s = None.
Proof.
  induction 1 as [|s c _ IH Hc|s q body _ IH Hq Hb]; [done|..]; rewrite scan_app, IH.
  - by apply next_quote_None.
  - change (q :: body ++ [q]) with ([q] ++ body ++ [q]). rewrite !scan_app.
    change (scan None [q]) with (next_quote None q). rewrite next_quote_opens, scan_inside by done.
    unfold scan. simpl. by rewrite decide_True.
Qed.

Lemma open_quote_scan s quote : open_quote s quote → scan None s = quote.
Proof.
  destruct quote as [q|]; [|apply outside_scan]. intros (pre & body & -> & Hp & Hq & Hb).
  rewrite scan_app, (outside_scan _ Hp). change (q :: body) with ([q] ++ body). rewrite scan_app.
  change (scan None [q]) with (next_quote None q). by rewrite next_quote_opens, scan_inside.
Qed.

Lemma scan_open_quote s : open_quote s (scan None s).
Proof.
  induction s as [|c s IH] using rev_ind; [constructor|]. rewrite scan_app.
  change (scan (scan None s) [c]) with (next_quote (scan None s) c).
  destruct (scan None s) as [q|] eqn:E.
  - destruct IH as (pre & body & -> & Hp & Hq & Hb). simpl. case_decide as Hc.
    + subst c. rewrite <- app_assoc. by apply (outside_quoted pre q body).
    + exists pre, (body ++ [c]). split; [by rewrite <- app_assoc|]. split; [done|]. split; [done|].
      rewrite elem_of_app, list_elem_of_singleton. intros [?| ->]; done.
  - destruct (decide (c = quote2)) as [Hc|H2]; [|destruct (decide (c = quote1)) as [Hc|H1]].
    1, 2: rewrite next_quote_opens by (by (left + right)); exists s, []; split; [done|]; split; [done|];
          split; [by (left + right)|apply not_elem_of_nil].
    assert (¬ is_quote c) by by intros [?|?]. rewrite next_quote_None by done. by constructor.
Qed.

Lemma open_quote_iff s quote : open_quote s quote ↔ scan None s = quote.
Proof. split; [apply open_quote_scan|]. intros <-. apply scan_open_quote. Qed.

(** ** The words that become paths *)

(** What ends a word outside quotes. *)
Definition ends_word (c : ascii) : Prop :=
  c ∈ [" "; "009"; "013"; newline; quote2; quote1; "<"; ">"; "|"; ";"; "&"; "("; ")"]%char.

(** [word] goes as far as it can before [post]: to the closing quote if [quote] is
    open, else to what ends a word. *)
Definition whole_word (quote : option ascii) (word post : str) : Prop :=
  match quote with
  | Some q => q ∉ word ∧ (post = [] ∨ head post = Some q)
  | None => (∀ c, c ∈ word → ¬ ends_word c) ∧ (post = [] ∨ ∃ c, head post = Some c ∧ ends_word c)
  end.

(** The path of the output [word] below [root]. *)
Definition path_below (root word : str) : str := if is_nil word then root else root ++ slash :: word.

(** What [command], read after [before], becomes: [@/] and the word after it,
    wherever it occurs, becomes the path of that output below [root], in quotes of
    its own unless it is in quotes already. *)
Inductive expansion (root : str) : str → str → str → Prop :=
  | expansion_text before text :
      ¬ occurs k_generated_word text → expansion root before text text
  | expansion_word before pre quote word post result :
      ¬ occurs k_generated_word (pre ++ ["@"%char]) →
      open_quote (before ++ pre) quote → whole_word quote word post →
      expansion root (before ++ pre ++ k_generated_word ++ word) post result →
      expansion root before (pre ++ k_generated_word ++ word ++ post)
        (pre ++ (if quote then path_below root word else quoted (path_below root word)) ++ result).

Lemma expanded_path_below root word : expanded_path root word = path_below root word.
Proof.
  unfold expanded_path, path_below. destruct (is_nil word); [apply app_nil_r|]. do 2 f_equal.
  rewrite <- (list_fmap_id word) at 2. apply list_fmap_ext. intros _ c _. by case_decide.
Qed.

Lemma in_word_ends c : in_word None c = true ↔ ¬ ends_word c.
Proof.
  unfold in_word, ends_word, is_blank, k_word_enders. rewrite andb_true_iff, !negb_true_iff, !orb_false_iff.
  rewrite !bool_decide_eq_false. rewrite contains_char_false. change (ascii_of_N 9) with "009"%char.
  change (ascii_of_N 13) with "013"%char.
  change (lit "<>|;&()") with ["<"; ">"; "|"; ";"; "&"; "("; ")"]%char. rewrite !elem_of_cons, elem_of_nil. tauto.
Qed.

Lemma whole_word_in quote word post :
  whole_word quote word post ↔
  (∀ c, c ∈ word → in_word quote c = true) ∧ (∀ c, head post = Some c → in_word quote c = false).
Proof.
  destruct quote as [q|]; cbn [whole_word]; [cbn [in_word]|].
  - split.
    + intros [Hw Hp]. split; [intros c Hc; apply bool_decide_eq_true; by intros ->|].
      intros c Hc. apply bool_decide_eq_false. destruct Hp as [->|?]; [done|]. intros Hne. apply Hne. congruence.
    + intros [Hw Hp]. split; [intros Hq%Hw; by apply bool_decide_eq_true in Hq|].
      destruct post as [|c post]; [by left|right]. specialize (Hp c eq_refl). apply bool_decide_eq_false, dec_stable in Hp.
      by subst.
  - setoid_rewrite in_word_ends. split.
    + intros [Hw Hp]. split; [done|]. intros c Hc. apply not_true_iff_false. rewrite in_word_ends. intros Hn.
      destruct Hp as [->|(x & ? & ?)]; [done|]. apply Hn. congruence.
    + intros [Hw Hp]. split; [done|]. destruct post as [|c post]; [by left|right]. exists c. split; [done|].
      specialize (Hp c eq_refl). apply not_true_iff_false in Hp. rewrite in_word_ends in Hp.
      apply dec_stable. exact Hp.
Qed.

Lemma expand_from_text root quote text :
  ¬ occurs k_generated_word text → expand_from root quote text = Some text.
Proof.
  revert quote. induction text as [|c text IH]; intros quote Hno; [done|]. rewrite expand_from_char.
  - rewrite IH; [done|]. intros (a & b & ->). apply Hno. by exists (c :: a), b.
  - destruct (starts_with _ _) eqn:Es; [|done]. apply starts_with_true in Es as [b Hb]. exfalso. apply Hno. by exists [], b.
Qed.

Lemma expand_from_pre root quote pre word post t :
  ¬ occurs k_generated_word (pre ++ ["@"%char]) → whole_word (scan quote pre) word post →
  expand_from root (scan quote pre) post = Some t →
  expand_from root quote (pre ++ k_generated_word ++ word ++ post) = Some (pre ++ rendered root (scan quote pre) word ++ t).
Proof.
  intros Hno [Hw Hp]%whole_word_in Et. revert quote Hno Hw Hp Et.
  induction pre as [|c pre IH]; intros q Hno Hw Hp Et.
  - etrans; [apply (expand_from_word root q word post Hw Hp)|]. change (scan q []) with q in Et. by rewrite Et.
  - change ((c :: pre) ++ k_generated_word ++ word ++ post) with (c :: (pre ++ k_generated_word ++ word ++ post)).
    rewrite expand_from_char.
    + rewrite (IH (next_quote q c)); [done| |done..]. intros (a & b & Hab). apply Hno. exists (c :: a), b. simpl. by rewrite Hab.
    + destruct (starts_with _ _) eqn:Es; [|done]. exfalso. apply Hno. apply starts_with_true in Es as [b Hb].
      destruct pre as [|d pre]; simpl in Hb; [discriminate Hb|]. injection Hb as -> -> _.
      by exists [], (pre ++ ["@"%char]).
Qed.

Lemma scan_generated quote : quote_state quote → scan quote k_generated_word = quote.
Proof. intros Hq. destruct quote as [q|]; [destruct Hq as [->| ->]|]; vm_compute; reflexivity. Qed.

Lemma scan_state s quote : quote_state quote → quote_state (scan quote s).
Proof.
  revert quote. induction s as [|c s IH]; intros quote Hq; [done|]. by apply IH, next_quote_state.
Qed.

Lemma scan_past_word before pre quote word post :
  scan None (before ++ pre) = quote → whole_word quote word post →
  scan None (before ++ pre ++ k_generated_word ++ word) = quote.
Proof.
  intros Hq [Hw _]%whole_word_in. rewrite (assoc_L (++)), scan_app, Hq, scan_app.
  assert (quote_state quote) by (subst quote; by apply scan_state). by rewrite scan_generated, scan_word_chars.
Qed.

Lemma expansion_sound root before command result :
  expansion root before command result → expand_from root (scan None before) command = Some result.
Proof.
  induction 1 as [before text Hno|before pre quote word post result Hno Hq%open_quote_scan Hw _ IH].
  - by apply expand_from_text.
  - rewrite (scan_past_word _ _ quote _ post) in IH by done. rewrite scan_app in Hq.
    rewrite expand_from_pre with (t := result); rewrite ?Hq; [|done..].
    unfold rendered. by rewrite expanded_path_below.
Qed.

Lemma generated_total n root before command :
  length command ≤ n → ∃ result, expansion root before command result.
Proof.
  revert before command. induction n as [|n IH]; intros before command Hn;
    (destruct (find_str k_generated_word command) as [i|] eqn:E; [|eexists; by apply expansion_text, find_str_None]);
    apply find_str_Some in E as [Hs Hmin];
    pose proof (f_equal length Hs) as Hlen; rewrite !length_app in Hlen; change (length k_generated_word) with 2 in *; [lia|].
  set (pre := take i command) in *. set (after := drop (i + 2) command) in *.
  set (quote := scan None (before ++ pre)). set (word := take_while (in_word quote) after).
  set (post := drop (length word) after).
  assert (after = word ++ post) as Ha by apply take_while_prefix.
  destruct (IH (before ++ pre ++ k_generated_word ++ word) post) as [result Hr].
  { rewrite Ha, length_app in Hlen. lia. }
  exists (pre ++ (if quote then path_below root word else quoted (path_below root word)) ++ result).
  rewrite Hs, Ha. apply expansion_word; [|apply scan_open_quote| |done].
  - intros (a & b & Hab).
    assert (i ≤ length a) as Hle.
    { apply (Hmin a (b ++ slash :: after)). rewrite Hs. change (k_generated_word ++ after) with (["@"%char] ++ slash :: after).
      rewrite (assoc_L (++)), Hab, <- !(assoc_L (++)). done. }
    pose proof (f_equal length Hab) as Hl. rewrite !length_app in Hl. change (length k_generated_word) with 2 in Hl.
    unfold pre in Hl. rewrite length_take in Hl. simpl in Hl. lia.
  - apply whole_word_in. split; [apply take_while_all|]. intros x Hx. unfold post, word in Hx. clear -Hx.
    induction after as [|y after IH]; [done|]. simpl in Hx.
    destruct (in_word quote y) eqn:Ey; simpl in Hx; [by apply IH|]. by injection Hx as <-.
Qed.

(** C30. Expanding [@/] in a command always ends, and gives exactly its expansion:
    every [@/] word - from [@/] to the closing quote if a quote is open there, else
    to a blank or an operator of the shell - becomes that output's path in the
    mount, in quotes of its own just where no quote is open, and all other text
    stays as it is. Where the mount's path holds no quotes, what follows is then
    read with the same quotes open as it was in the command. Quotes are read as by
    a shell in text without backslashes. *)
Theorem generated_words_become_paths (command : str) (mountpoint : path) (root := mount_root mountpoint) :
  (∃ t, expand_generated command mountpoint = Some t) ∧
  (∀ t, expand_generated command mountpoint = Some t ↔ expansion root [] command t) ∧
  (unquoted_root root → ∀ t quote, expand_generated command mountpoint = Some t →
     open_quote t quote ↔ open_quote command quote).
Proof.
  destruct (generated_total (length command) root [] command (le_n _)) as [t Ht].
  pose proof (expansion_sound _ _ _ _ Ht) as E. change (expand_from root (scan None []) command) with
    (expand_generated command mountpoint) in E. split; [by exists t|]. split.
  - intros t'. split; [by rewrite E; intros [= <-]|]. intros H'%expansion_sound. exact H'.
  - intros Hr t' quote E'. destruct (expand_from_scan (length command) root None command (le_n _) Hr I) as (t2 & E2 & Hs).
    change (expand_from root None command) with (expand_generated command mountpoint) in E2.
    rewrite !open_quote_iff. assert (t' = t2) as -> by congruence. by rewrite Hs.
Qed.

(** Every [%out], and nothing else, is replaced: the command is text without
    [%out] between occurrences of it, and each of those becomes the path. *)
Lemma every_out_is_replaced (command : str) (out_path : path) :
  ∃ ps, ps ≠ [] ∧ command = join_str k_out_placeholder ps ∧ Forall (λ p, ¬ occurs k_out_placeholder p) ps ∧
    substitute_out command out_path = Some (join_str (quoted (generic_string out_path)) ps).
Proof. apply substitute_loop_spec. lia. Qed.

(** As the paths a command is given are substituted first, an output whose path
    holds [%out] is not the one the shell is given. *)
Example out_in_a_generated_path :
  (t ← expand_generated (lit "cat @/log%out > %out") (of_string (lit "/mnt")); substitute_out t (of_string (lit "/tmp/o"))) =
    Some (lit "cat " ++ [quote2] ++ lit "/mnt/log" ++ [quote2] ++ lit "/tmp/o" ++ [quote2; quote2] ++ lit " > " ++
          quoted (lit "/tmp/o")).
Proof. vm_compute. reflexivity. Qed.

(** ** Paths relative to the working directory *)

(** The path of [ns] below [bs], both from the root. *)
Definition below (bs ns : list str) : option path :=
  if decide (take (length bs) ns = bs) then
    Some (Path false (match drop (length bs) ns with [] => [dot] | rest => rest end))
  else None.

Lemma append_element p n : n ≠ [] → Forall (λ m, m ≠ []) (names p) → p // element_path n = Path (root_directory p) (names p ++ [n]).
Proof.
  intros Hn Hp. unfold append, element_path. destruct n as [|c n]; [done|]. simpl.
  destruct (has_filename p) eqn:E; [done|]. f_equal. f_equal. unfold has_filename, filename in E.
  apply negb_false_iff, is_nil_true in E. destruct (last (names p)) as [m|] eqn:El.
  - exfalso. rewrite Forall_forall in Hp. apply (Hp m); [by apply last_Some_elem_of|done].
  - by apply last_None in El as ->.
Qed.

Lemma append_elements p l :
  Forall (λ m, m ≠ []) (names p) → Forall (λ m, m ≠ []) l →
  foldl append p (element_path <$> l) = Path (root_directory p) (names p ++ l).
Proof.
  revert p. induction l as [|n l IH]; intros p Hp Hl; simpl; [rewrite app_nil_r; by destruct p|].
  apply Forall_cons in Hl as [Hn Hl]. rewrite append_element by done. rewrite IH; [|apply Forall_app; by repeat constructor|done].
  simpl. by rewrite <- app_assoc.
Qed.

Lemma mismatch_spec a b : ∃ l a' b', mismatch a b = (a', b') ∧ a = l ++ a' ∧ b = l ++ b' ∧
  (a' = [] ∨ b' = [] ∨ head a' ≠ head b').
Proof.
  revert b. induction a as [|x a IH]; intros b; [exists [], [], b; destruct b; naive_solver|].
  destruct b as [|y b]; [exists [], (x :: a), []; naive_solver|]. simpl. case_decide as E.
  - subst y. destruct (IH b) as (l & a' & b' & -> & -> & -> & Hor). by exists (x :: l), a', b'.
  - exists [], (x :: a), (y :: b). split; [done|]. split; [done|]. split; [done|]. right; right. simpl. congruence.
Qed.

Lemma depth_names l : Forall is_name l → ∀ n, foldl (λ n e, (n + depth_of e)%Z) n l = (n + Z.of_nat (length l))%Z.
Proof.
  induction 1 as [|e l (H1 & H2 & H3 & _) _ IH]; intros n; simpl; [lia|]. rewrite IH. unfold depth_of.
  rewrite !bool_decide_false by done. simpl. lia.
Qed.

Lemma normalize_plain root ns stack separated :
  Forall (λ n, n ≠ [] ∧ n ≠ dot ∧ n ≠ dot_dot) ns →
  normalize_names root ns stack separated = (rev ns ++ stack, separated && is_nil ns).
Proof.
  revert stack separated. induction ns as [|n ns IH]; intros stack separated Hns; simpl; [by rewrite andb_true_r|].
  apply Forall_cons in Hns as [(H1 & H2 & H3) Hns]. rewrite !bool_decide_false by done. simpl. rewrite IH by done.
  rewrite <- app_assoc. by destruct separated.
Qed.

Lemma plain_names ns : Forall is_name ns → Forall (λ n, n ≠ [] ∧ n ≠ dot ∧ n ≠ dot_dot) ns.
Proof. intros H. eapply Forall_impl; [exact H|]. unfold is_name. tauto. Qed.

Lemma reverse_replicate_rev {A} n (x : A) : rev (replicate n x) = replicate n x.
Proof. induction n as [|n IH]; [done|]. simpl. rewrite IH. change [x] with (replicate 1 x). rewrite <- replicate_add. rewrite Nat.add_1_r. done. Qed.

Lemma lexically_normal_stack p stack :
  is_empty p = false → stack ≠ [] → (normalize_names (root_directory p) (names p) [] false).1 = stack →
  (normalize_names (root_directory p) (names p) [] false).2 = false →
  lexically_normal p = Path (root_directory p) (rev stack).
Proof.
  intros He Hs E1 E2. unfold lexically_normal. rewrite He. destruct (normalize_names _ _ _ _) as [st sep]. simpl in *.
  subst. destruct stack; [done|]. by rewrite app_nil_r.
Qed.

Lemma rev_nonempty {A} (l : list A) : l ≠ [] → rev l ≠ [].
Proof. intros Hl E. apply Hl. by rewrite <- (rev_involutive l), E. Qed.

Lemma normal_plain ns : ns ≠ [] → Forall is_name ns → lexically_normal (Path false ns) = Path false ns.
Proof.
  intros Hne Hns. rewrite (lexically_normal_stack _ (rev ns)); [f_equal; apply rev_involutive|by destruct ns|by apply rev_nonempty|..];
    simpl; rewrite normalize_plain by (by apply plain_names); simpl; [apply app_nil_r|done].
Qed.

Lemma normalize_up ns k stack sep :
  Forall is_name ns → Forall (λ m, m = dot_dot) stack → 0 < k →
  normalize_names false (replicate k dot_dot ++ ns) stack sep = (rev ns ++ replicate k dot_dot ++ stack, false).
Proof.
  intros Hns. revert stack sep. induction k as [|k IH]; intros stack sep Hst Hk; [lia|].
  assert (normalize_names false (replicate (S k) dot_dot ++ ns) stack sep =
    normalize_names false (replicate k dot_dot ++ ns) (dot_dot :: stack) false) as ->.
  { simpl. destruct stack as [|top stack]; [done|]. apply Forall_cons in Hst as [-> _]. done. }
  destruct k as [|k]; [cbn [replicate app]; by rewrite normalize_plain by by apply plain_names|].
  rewrite IH; [|by constructor|lia]. f_equal. f_equal. change (dot_dot :: stack) with ([dot_dot] ++ stack).
  rewrite (assoc_L (++)). f_equal. change [dot_dot] with (replicate 1 dot_dot). rewrite <- replicate_add. f_equal. lia.
Qed.

Lemma normal_up n ns :
  Forall is_name ns → 0 < n →
  lexically_normal (Path false (replicate n dot_dot ++ ns)) = Path false (replicate n dot_dot ++ ns).
Proof.
  intros Hns Hn. rewrite (lexically_normal_stack _ (rev ns ++ replicate n dot_dot)).
  - simpl. rewrite rev_app_distr, rev_involutive. f_equal. f_equal. apply reverse_replicate_rev.
  - by destruct n; [lia|].
  - destruct n; [lia|]. by destruct (rev ns).
  - cbn [root_directory names]. rewrite normalize_up by done. cbn [fst]. by rewrite app_nil_r.
  - cbn [root_directory names]. by rewrite normalize_up by done.
Qed.

Lemma is_name_nonempty ns : Forall is_name ns → Forall (λ m, m ≠ []) ns.
Proof. intros H. eapply Forall_impl; [exact H|]. unfold is_name. tauto. Qed.

Lemma take_drop_prefix {A} (l a : list A) : take (length l) (l ++ a) = l ∧ drop (length l) (l ++ a) = a.
Proof. split; [apply take_app_length|apply drop_app_length]. Qed.

(** [lexically_relative] of two paths from the root, normal ones. *)
Lemma relative_below ns bs :
  Forall is_name ns → Forall is_name bs →
  match below bs ns with
  | Some p => lexically_relative (Path true ns) (Path true bs) = p
  | None => ∃ n l, 0 < n ∧ Forall is_name l ∧
      lexically_relative (Path true ns) (Path true bs) = Path false (replicate n dot_dot ++ l)
  end.
Proof.
  intros Hns Hbs. unfold lexically_relative, below.
  change (path_elements (Path true ns)) with ([slash] :: ns). change (path_elements (Path true bs)) with ([slash] :: bs).
  cbn [mismatch]. rewrite (decide_True (P := [slash] = [slash])) by done. cbn [root_directory].
  rewrite (bool_decide_false (true ≠ true)) by tauto.
  destruct (mismatch_spec ns bs) as (l & a & b & -> & -> & -> & Hor).
  apply Forall_app in Hns as [Hl Ha]. apply Forall_app in Hbs as [_ Hb].
  assert (b = [] ∨ b ≠ []) as [->|Hne] by (destruct b; [by left|by right]).
  - rewrite app_nil_r. destruct (take_drop_prefix l a) as [-> ->]. rewrite decide_True by done.
    destruct a as [|n a]; [done|]. cbn [is_nil andb foldl]. rewrite (bool_decide_false (0 < 0)%Z) by lia.
    rewrite (bool_decide_true (0 = 0)%Z), (bool_decide_false (default [] _ = _)) by (done || by apply Forall_cons in Ha as [[? _] _]).
    cbn [andb]. change (replicate (Z.to_nat 0) (Path false [dot_dot])) with (@nil path). rewrite app_nil_l.
    rewrite append_elements; [done|constructor|by apply is_name_nonempty].
  - rewrite decide_False.
    2: { intros E. rewrite length_app, take_app_ge, Nat.add_comm, Nat.add_sub in E by lia. apply app_inv_head in E.
         destruct Hor as [->|[?|Hh]]; [by destruct b|done|]. apply Hh. rewrite <- E. destruct a, b; try done. }
    destruct (is_nil a && is_nil b) eqn:Ei.
    { apply andb_prop in Ei as [_ Ei]. by apply is_nil_true in Ei. }
    rewrite depth_names by done. destruct b as [|b0 b]; [done|].
    rewrite (bool_decide_false (0 + _ < 0)%Z), (bool_decide_false (0 + _ = 0)%Z) by (cbn [length]; lia). cbn [andb].
    exists (length (b0 :: b)), a. split; [simpl; lia|]. split; [done|].
    rewrite Z.add_0_l, Nat2Z.id. change (Path false [dot_dot]) with (element_path dot_dot).
    rewrite <- fmap_replicate, <- fmap_app. rewrite append_elements; [done|constructor|].
    apply Forall_app. split; [by apply Forall_replicate|by apply is_name_nonempty].
Qed.

Lemma omap_ext_in {A B} (f g : A → option B) (l : list A) : (∀ x, x ∈ l → f x = g x) → (omap f l : list B) = omap g l.
Proof.
  induction l as [|x l IH]; intros H; [done|]. simpl. rewrite H by left.
  destruct (g x); [f_equal|]; apply IH; intros y Hy; apply H; by right.
Qed.

Lemma relativize_one_exact wc bs i :
  wc (Path true bs) = Value (Path true bs) → Forall is_name bs →
  (∀ q, wc i = Value q → root_directory q = true ∧ Forall is_name (names q)) →
  relativize_one wc (Path true bs) i = match wc i with Value q => below bs (names q) | Unexpected _ => None end.
Proof.
  intros Hidem Hbs Hi. unfold relativize_one, relative. destruct (wc i) as [q|e]; [|done].
  destruct (Hi q eq_refl) as [Hq Hns]. destruct q as [r ns]. simpl in Hq, Hns. subst r. cbn [mbind expected_bind]. rewrite Hidem.
  cbn [names]. pose proof (relative_below ns bs Hns Hbs) as Hr. simpl. destruct (below bs ns) as [p|] eqn:Eb.
  - rewrite Hr. unfold below in Eb. case_decide; [|done]. injection Eb as <-.
    assert (Forall is_name (drop (length bs) ns)) as Hd by by apply Forall_drop.
    destruct (drop (length bs) ns) as [|n l]; [reflexivity|]. cbn [is_empty names root_directory is_nil negb andb].
    rewrite normal_plain by done. cbn [path_elements root_directory names app head].
    rewrite bool_decide_false; [done|]. intros [= ->]. by apply Forall_cons in Hd as [(_ & _ & ? & _) _].
  - destruct Hr as (n & l & Hn & Hl & ->). destruct n as [|n]; [lia|]. cbn [is_empty replicate app names root_directory is_nil negb andb].
    change (dot_dot :: replicate n dot_dot ++ l) with (replicate (S n) dot_dot ++ l). by rewrite normal_up.
Qed.

(** What a build read is reported as is exactly the inputs in the working
    directory, each relative to it, in the order they were read; those outside it
    are dropped. *)
Theorem inputs_are_those_below wc root inputs bs :
  wc root = Value (Path true bs) → wc (Path true bs) = Value (Path true bs) → Forall is_name bs →
  (∀ i q, i ∈ inputs → wc i = Value q → root_directory q = true ∧ Forall is_name (names q)) →
  relativize wc inputs root = omap (λ i, match wc i with Value q => below bs (names q) | Unexpected _ => None end) inputs.
Proof.
  intros Hroot Hidem Hbs Hin. unfold relativize. rewrite Hroot. apply omap_ext_in. intros i Hi.
  apply relativize_one_exact; [done..|]. intros q. by apply Hin.
Qed.

(** ** Running a command *)










(** ** The scratch directory *)








(** ** The theorems at work *)

Definition ex_mount : path := of_string (lit "/mnt").
Lemma ex_mount_unquoted : unquoted_root (mount_root ex_mount).
Proof.
  intros c Hc Hq. change (mount_root ex_mount) with (lit "/mnt") in Hc. simpl in Hc.
  repeat (apply elem_of_cons in Hc as [->|Hc]; [by destruct Hq|]). by apply elem_of_nil in Hc.
Qed.

Lemma generated_words_become_paths_witness :
  expansion (mount_root ex_mount) [] (lit "cat '@/a b' @/x;y") (lit "cat '/mnt/a b' " ++ quoted (lit "/mnt/x") ++ lit ";y") ∧
  open_quote (lit "cat '/mnt/a b' " ++ quoted (lit "/mnt/x") ++ lit ";y") None.
Proof.
  destruct (generated_words_become_paths (lit "cat '@/a b' @/x;y") ex_mount) as (_ & Hx & Hq). split.
  - apply Hx. vm_compute. reflexivity.
  - apply (Hq ex_mount_unquoted); [vm_compute; reflexivity|]. apply open_quote_iff. vm_compute. reflexivity.
Defined.

Definition ex_canonical (p : path) : expected error_code path := Value (lexically_normal p).
Lemma inputs_are_those_below_witness :
  relativize ex_canonical [of_string (lit "/src/a/b.c"); of_string (lit "/usr/x.h"); of_string (lit "/src")] (of_string (lit "/src")) =
    [of_string (lit "a/b.c"); of_string (lit ".")].
Proof.
  etrans; [apply (inputs_are_those_below ex_canonical (of_string (lit "/src"))
    [of_string (lit "/src/a/b.c"); of_string (lit "/usr/x.h"); of_string (lit "/src")] [lit "src"])|vm_compute; reflexivity].
  - vm_compute. reflexivity.
  - vm_compute. reflexivity.
  - apply Forall_singleton. repeat split; try discriminate. apply (proj1 (bool_decide_eq_false (_ ∈ _))). vm_compute. reflexivity.
  - intros i q Hi [= <-].
    assert (forallb (λ i, bool_decide (root_directory (lexically_normal i) = true) &&
      forallb (λ n, bool_decide (n ≠ []) && bool_decide (n ≠ dot) && bool_decide (n ≠ dot_dot) && bool_decide (slash ∉ n))
        (names (lexically_normal i)))
      [of_string (lit "/src/a/b.c"); of_string (lit "/usr/x.h"); of_string (lit "/src")] = true) as Hall
      by (vm_compute; reflexivity).
    rewrite forallb_forall in Hall. apply list_elem_of_In, Hall in Hi. apply andb_prop in Hi as [H1 H2].
    apply bool_decide_eq_true in H1.
    split; [exact H1|]. rewrite forallb_forall in H2. apply Forall_forall. intros n Hn%list_elem_of_In%H2.
    rewrite !andb_true_iff, !bool_decide_eq_true in Hn. unfold is_name. tauto.
Defined.
